(* ===== verification/_CoqProject ===== *)
-Q . S2P
Prelude.v
GoFmt.v
Gob.v
RaftTypes.v
RaftLog.v
RaftElection.v
RaftReplicate.v
RaftSnapshot.v
RaftPeer.v
RaftLogFacts.v
RaftCommit.v
RaftBackup.v
RaftSnapshotFacts.v
RaftCluster.v
RaftElectionSafety.v
RaftPaths.v
RaftLogSafety.v
RaftLogSteps.v
RaftWhole.v
RaftWholeSteps.v
RaftStateSafety.v
RaftApply.v
RaftSlots.v
RaftProgress.v
KvServer.v
KvFacts.v
KvClerk.v
MrCoordinator.v
MrCoordinatorFacts.v
MrContract.v
MrWorker.v
MrFiles.v
MrJob.v
MrApps.v
MrAppsFacts.v
MrTiming.v
Bitset.v
Checker.v
CheckerHeap.v
CheckerSearch.v
CheckerBuild.v
Linearizability.v
CheckerPartial.v
Porcupine.v
Visual.v
VisualFacts.v
EventHistory.v
KvLocality.v
KvSystem.v
KvLinear.v
KvSystemInv.v
KvSystemSteps.v
KvSystemFacts.v
LabRpc.v
LabRpcFacts.v
Wiring.v
RaftConfig.v
RaftConfigFacts.v
RaftHarness.v
ShardClerk.v
LabGob.v
KvConfig.v
CtrlerConfig.v
KvConfigFacts.v
KvLife.v
ShardConfig.v
ShardConfigFacts.v
