(* ===== verification/Prelude.v ===== *)
(** * Verification of the Ellen-6.5840 repository

    The repository holds the labs of a distributed-systems course in Go (under
    [src/src]): a MapReduce system, the Raft consensus algorithm, a replicated
    key-value service on top of it, the clients of a sharded store, and the
    libraries the labs run on: a simulated network, a gob wrapper and a
    linearizability checker. This library translates these programs into
    functions on explicit states and proves what makes them correct.

    ** Conventions

    - A function that may panic (index out of range, nil pointer, failed type
      assertion, [log.Fatalf]) returns an [option]; [None] is the panic, or, for
      a function with a [fuel] argument, that the fuel was not enough. Every
      theorem that says a function returns proves [Some].
    - What a mutex protects is one step. Goroutines are entries of a state
      (calls, rounds, replicators, requests under way); between two steps any
      other step may run. Random numbers, clock readings and what the network
      delivers are arguments of the steps, over which the theorems quantify.
    - [int] is [Z] without wrap-around where values only grow by one per
      operation (terms, indices, sequence numbers, counters); 64- and 32-bit
      words are written out where the code works on bits ([Bitset], [fnv32a]).
    - A byte buffer is the stream of values it holds ([Gob]); lengths in bytes
      are parameters.

    ** Files

    Shared: [Prelude] (slices with Go's range checks, the tactics [zbool],
    [case_if], [inv_opt], hint databases, quorums), [GoFmt] (decimal numerals and
    names built from them), [Gob] (the contract of [encoding/gob] as the class
    [GobType]).

    Raft, [raft/]. [RaftTypes] (types.go, constants.go, persister.go), [RaftLog]
    (help_log.go, persist and readPersist, Make), [RaftElection] (election.go,
    help_election.go), [RaftReplicate] (replicate.go, help_replicate.go),
    [RaftSnapshot] (install.go, log_commit.go: Start, Snapshot, InstallSnapshot,
    guardKick) are the program. Each function of a [*Raft] is a function on the
    record [Raft], named as in the source; functions that call an RPC are split
    at it. [RaftPeer] composes the critical sections of one peer with crashes;
    [RaftCluster] the peers, their vote and replication goroutines and the
    network.
    - Peer: recovery from a crash is exact, one vote per term ([RaftPeer]); the
      contract of AppendEntries, with reconciliation equal to a reference merge
      ([RaftLogFacts]); the leader's and the follower's commit rules
      ([RaftCommit]); the replicator's backup loop converges, with a bound
      ([RaftBackup]); snapshots trim, install and keep the log, commands are
      applied once and in order ([RaftSnapshotFacts]).
    - Cluster: election safety in every execution in which a vote request is
      built in the term its round began in; without the proviso two leaders of
      one term are reachable, and replicators accumulate over elections
      ([RaftElectionSafety]). In the executions of this kind, with snapshots of
      what a peer knows to be committed: logs that agree on an entry agree
      before it, a leader holds everything committed in earlier terms, and no two
      peers apply different commands at an index. [RaftPaths] describes the logs
      as paths of a common tree; [RaftLogSafety] states the invariant of a
      cluster whose peers keep their whole logs and [RaftLogSteps] shows that
      every kind of step keeps it; [RaftWhole] relates a peer of the program,
      whose log starts at its snapshot, to one with the whole log, and
      [RaftWholeSteps] shows that what the program does, trimming and installing
      snapshots included, is such a step of the whole peer; [RaftStateSafety]
      goes through the events of the cluster and draws the conclusions. In all of
      them no handler, vote goroutine or replicator panics, whatever replies a
      leader's tables survive ([RaftSlots]); and from every reachable state of at
      least two peers any majority can, alone and without a crash, elect a leader
      and commit a new command, whereas a single peer never becomes leader
      ([RaftProgress], which keeps a replicator's rounds, an election and a
      commit as lemmas of their own).
    - Tests: [RaftConfig] is the test configuration (config.go): connecting and
      crashing peers, the appliers that compare what the peers deliver, and the
      checks. The links of the network always are those between connected peers,
      and a snapshot written by an applier is read back as the log it was made
      from ([RaftConfigFacts]); run against the cluster, the appliers never
      report an error and checkOneLeader never fails for two leaders
      ([RaftHarness], which uses [RaftApply]: what a step does to how far a peer
      has applied and to what it has stored). [Wiring] holds the lemmas on
      switching ends on and off that the configurations share.

    Key-value service, [kvraft/]. [KvServer] (server.go, common.go,
    help_snapshot.go) and [KvClerk] (client.go). A server follows the committed
    log through snapshots and restarts, an OK is given only for the request that
    was applied; the race between a snapshot and later commands loses a write
    ([KvFacts]). The clerk's retries, and exactly-once execution of every
    clerk's operations end to end ([KvClerk]). [KvConfig] is the test
    configuration (kvraft/config.go), written once for any server that offers
    the interface [Tested]: [partition] cuts the network exactly between its
    groups and make_partition puts the leader into the minority
    ([KvConfigFacts]); make_config starts a fully linked set of servers, a
    restarted server resumes from what was persisted, and a client reaches the
    servers it was made for ([KvLife]).

    The whole service, bottom to top: [KvSystem] is the Raft cluster with a
    server on every peer, fed by its [guardKick], the RPCs of the clerks and the
    clerks, driven by the Get, Put and Append of kvraft/test_test.go, which log
    what the clients see. Without snapshots, and with snapshots when no server
    gets later commands while the message of an installed one is under way to it
    ([prompt]), every history so logged is linearizable, the checker that the
    tests run answers true, the servers never panic on a message, and all hold
    prefixes of one log; an execution that is not prompt loses a put
    ([KvSystemFacts]). The proof keeps an invariant ([KvSystemInv]; [KvSystemSteps]
    goes through the events of the peers and the servers) that gives every logged
    operation a point in the committed log, and such points give a linearization
    ([KvLinear]).

    MapReduce, [mr/] and main/mrsequential.go. [MrCoordinator] (coordinator.go,
    rpc.go), [MrWorker] (worker.go, and the sequential program). The coordinator
    meets its scheduling contract, never panics and finishes
    ([MrCoordinatorFacts], [MrContract]); the files of the workers ([MrFiles]);
    every distributed execution computes what the sequential program computes
    ([MrJob]). [MrApps] are the plugins of [mrapps/]; a distributed word count
    gives the number of occurrences of every word, a distributed index its
    documents in order ([MrAppsFacts]). [MrTiming] is how the plugins of the tests
    see the workers: nparallel counts those that are running, whatever dies, and
    jobcount the executions; and the random crashes.

    Porcupine, [porcupine/] and models/kv.go. [Bitset] (bitset.go), [Checker]
    (model.go and checker.go; the linked list is a heap, [lift] and [unlift]
    change it in place), [Porcupine] (checkParallel, the entry points,
    models/kv.go). The list and its dancing links ([CheckerHeap],
    [CheckerBuild]), the search ([CheckerSearch]); checkSingle decides
    linearizability ([Linearizability]); the parallel check with any order of
    arrivals and timeouts, and that it waits for ever when there is nothing to
    check ([Porcupine]); checking key by key decides linearizability of a whole
    store ([KvLocality]); a history of events is decided like the history of its
    operations ([EventHistory]). [Visual] is visualization.go and the verbose entry
    points: what the searches record, interrupted or not, are linearizations of
    some of the operations ([CheckerPartial]), so the data of the page is made
    without a panic and shows what was checked ([VisualFacts]).

    Network, [labrpc/]. [LabRpc] models labrpc.go; [LabRpcFacts] proves that a
    call that returns true was executed once, that no call is executed twice,
    that a deleted server gives no positive reply, and that calls on a reliable
    network succeed.

    Sharded store, [shardctrler/] and [shardkv/]: the clerks ([ShardClerk]); they
    ask the servers in turn and only those that own the key's shard. The servers,
    whose handlers are empty in this repository, and the test configurations are
    [CtrlerConfig] (shardctrler/server.go, config.go, an instance of [KvConfig])
    and [ShardConfig] (shardkv/server.go, config.go): make_config starts the
    controllers and the groups with every end connected to the server it is
    meant for, and joinm tells the controllers names that lead to the servers
    ([ShardConfigFacts]).

    Gob wrapper, [labgob/]: [LabGob], the encoder and the decoder with the two
    checks they add; values are read back.

    ** Fuel

    The loops over the log ([commitLoop], [lastIndexLoop], [xIndexLoop]) go down
    one index per round and get the length of the log after the snapshot; [retryLoop] is shown to
    end within nextIndex - snapIndex + 1 rounds. The loop of [checkSingle], and what uses it, takes any fuel: the
    theorems show that some bound is enough for every larger one and that more
    fuel does not change an answer. [lengthLoop] gets the size of the heap.
    [checkType] gets the number of types, which bounds its recursion.
    [VisualFacts] holds for every fuel large enough for the searches.
    [shardLoop]'s fuel bounds the configurations fetched; its theorem holds for
    every fuel.

    ** What is not modelled

    Printing, sockets, plugin loading and the command-line programs of [main/]
    other than mrsequential, which only parse arguments and call the libraries;
    the JSON encoder and the text of
    porcupine's page; util.go and the other debug output.

    The execution of one MapReduce task is atomic, and a map function gives the
    same pairs when a task is executed again. The message that InstallSnapshot
    sends on the apply channel from a goroutine of its own is an event of
    [KvSystem] of its own; what is proved of the service with snapshots is for
    the executions in which that message is not overtaken, which the code does
    not ensure. The appliers of [RaftHarness] are those of the tests without
    snapshots. *)

From stdpp Require Export base list gmap strings numbers sorting.
From Stdlib Require Export ZArith Lia.

#[global] Open Scope Z_scope.

(** ** Go slices

    Go's [int] is 64 bits wide; the indices and terms of this program only
    grow by one per operation, so they are modelled by [Z] without wrap-around.
    An index expression [l[i]] and a slice expression [l[lo:]] or [l[:hi]]
    panic outside their range: the model returns [None] there. *)

Definition len {A} (l : list A) : Z := Z.of_nat (length l).

Definition idx {A} (l : list A) (i : Z) : option A :=
  if 0 <=? i then l !! Z.to_nat i else None.

Definition upd {A} (l : list A) (i : Z) (x : A) : option (list A) :=
  if (0 <=? i) && (i <? len l) then Some (<[Z.to_nat i := x]> l) else None.

Definition slice_from {A} (l : list A) (lo : Z) : option (list A) :=
  if (0 <=? lo) && (lo <=? len l) then Some (drop (Z.to_nat lo) l) else None.

Definition slice_to {A} (l : list A) (hi : Z) : option (list A) :=
  if (0 <=? hi) && (hi <=? len l) then Some (take (Z.to_nat hi) l) else None.

Create HintDb golist.
Create Rewrite HintDb golist_rw.

(** Turn the boolean tests of the source into propositions, and case on them. *)
Ltac zbool :=
  repeat match goal with
  | H : (_ && _)%bool = true |- _ => apply andb_true_iff in H; destruct H
  | H : (_ && _)%bool = false |- _ => apply andb_false_iff in H
  | H : (_ || _)%bool = true |- _ => apply orb_true_iff in H
  | H : (_ || _)%bool = false |- _ => apply orb_false_iff in H; destruct H
  | H : bool_decide _ = true |- _ => apply bool_decide_eq_true in H
  | H : bool_decide _ = false |- _ => apply bool_decide_eq_false in H
  | H : negb _ = true |- _ => apply negb_true_iff in H
  | H : negb _ = false |- _ => apply negb_false_iff in H
  | H : (_ <? _) = true |- _ => apply Z.ltb_lt in H
  | H : (_ <? _) = false |- _ => apply Z.ltb_ge in H
  | H : (_ <=? _) = true |- _ => apply Z.leb_le in H
  | H : (_ <=? _) = false |- _ => apply Z.leb_gt in H
  | H : (_ =? _) = true |- _ => apply Z.eqb_eq in H
  | H : (_ =? _) = false |- _ => apply Z.eqb_neq in H
  | H : (_ >? _) = _ |- _ => rewrite Z.gtb_ltb in H
  | H : (_ >=? _) = _ |- _ => rewrite Z.geb_leb in H
  end.

Ltac case_if :=
  match goal with
  | |- context [if ?b then _ else _] =>
      lazymatch type of b with
      | bool => let E := fresh "E" in destruct b eqn:E; zbool
      | _ => fail
      end
  end.

Ltac case_if_in H :=
  match type of H with
  | context [if ?b then _ else _] =>
      lazymatch type of b with
      | bool => let E := fresh "E" in destruct b eqn:E; zbool
      | _ => fail
      end
  end.

(** Decompose a successful run of an [option] computation. *)
Ltac inv_opt :=
  repeat match goal with
  | H : Some _ = Some _ |- _ => injection H as H; subst
  | H : Some _ = None |- _ => discriminate H
  | H : None = Some _ |- _ => discriminate H
  | H : (_, _) = (_, _) |- _ => injection H as ? ?; subst
  | H : mbind _ _ = Some _ |- _ => apply bind_Some in H as (? & ? & H); cbn beta in H
  | H : fmap _ _ = Some _ |- _ => apply fmap_Some in H as (? & ? & H); cbn beta in H
  end.

Section golist.
Context {A : Type}.
Implicit Types (l k : list A) (i lo hi : Z).

Lemma len_nonneg l : 0 <= len l.
Proof. unfold len; lia. Qed.

Lemma len_app l k : len (l ++ k) = len l + len k.
Proof. unfold len; rewrite length_app; lia. Qed.

Lemma len_cons x l : len (x :: l) = 1 + len l.
Proof. unfold len; simpl; lia. Qed.

Lemma len_nil : len (@nil A) = 0.
Proof. reflexivity. Qed.

Lemma idx_Some_range l i x : idx l i = Some x -> 0 <= i < len l.
Proof.
  unfold idx, len; case_if; [|done].
  intros H%lookup_lt_Some; lia.
Qed.

Lemma idx_is_Some l i : is_Some (idx l i) <-> 0 <= i < len l.
Proof.
  split; [intros [x ?%idx_Some_range]; done|].
  unfold idx, len; intros; case_if; [|lia].
  apply lookup_lt_is_Some; lia.
Qed.

Lemma idx_in_range l i : 0 <= i < len l -> exists x, idx l i = Some x.
Proof. intros [x H]%idx_is_Some; eauto. Qed.

Lemma idx_None l i : ~ (0 <= i < len l) -> idx l i = None.
Proof.
  intros H; destruct (idx l i) eqn:E; [|done].
  by apply idx_Some_range in E.
Qed.

Lemma idx_app_l l k i : i < len l -> idx (l ++ k) i = idx l i.
Proof.
  unfold idx, len; intros; case_if; [|done].
  rewrite lookup_app_l; [done|lia].
Qed.

Lemma idx_app_r l k i : len l <= i -> idx (l ++ k) i = idx k (i - len l).
Proof.
  unfold idx, len; intros; case_if; [|lia].
  replace (0 <=? i - Z.of_nat (length l)) with true by (symmetry; apply Z.leb_le; lia).
  rewrite lookup_app_r; [f_equal; lia|lia].
Qed.

Lemma idx_cons_0 x l : idx (x :: l) 0 = Some x.
Proof. reflexivity. Qed.

Lemma idx_cons_S x l i : 0 < i -> idx (x :: l) i = idx l (i - 1).
Proof.
  intros; change (x :: l) with ([x] ++ l).
  rewrite idx_app_r; [done|unfold len; simpl; lia].
Qed.

Lemma idx_elem l i x : idx l i = Some x -> x ∈ l.
Proof. unfold idx; case_if; [|done]. apply list_elem_of_lookup_2. Qed.

Lemma elem_idx l x : x ∈ l -> exists i, idx l i = Some x.
Proof.
  intros (j & Hj)%list_elem_of_lookup. exists (Z.of_nat j). unfold idx; case_if; [|lia]. by rewrite Nat2Z.id.
Qed.

Lemma idx_app_Some l k i x : idx l i = Some x -> idx (l ++ k) i = Some x.
Proof. intros Hi. pose proof (idx_Some_range _ _ _ Hi). by rewrite idx_app_l by lia. Qed.

Lemma idx_middle l k x : idx (l ++ x :: k) (len l) = Some x.
Proof. rewrite idx_app_r by lia. by rewrite Z.sub_diag, idx_cons_0. Qed.

Lemma idx_snoc l x y i : idx (l ++ [x]) i = Some y -> (i < len l /\ idx l i = Some y) \/ (i = len l /\ y = x).
Proof.
  intros Hi. destruct (decide (i < len l)); [left; by rewrite idx_app_l in Hi|right].
  pose proof (idx_Some_range _ _ _ Hi) as Hr. rewrite len_app, len_cons, len_nil in Hr.
  assert (i = len l) as -> by lia. rewrite idx_middle in Hi. by injection Hi as ->.
Qed.

Lemma idx_take l n i : i < Z.of_nat n -> idx (take n l) i = idx l i.
Proof.
  intros; unfold idx; case_if; [|done].
  rewrite lookup_take_lt; [done|lia].
Qed.

Lemma idx_drop l n i : 0 <= i -> idx (drop n l) i = idx l (Z.of_nat n + i).
Proof.
  intros; unfold idx; case_if; [|lia].
  replace (0 <=? Z.of_nat n + i) with true by (symmetry; apply Z.leb_le; lia).
  rewrite lookup_drop; f_equal; lia.
Qed.

Lemma len_take l n : len (take n l) = Z.min (Z.of_nat n) (len l).
Proof. unfold len; rewrite length_take; lia. Qed.

Lemma len_drop l n : len (drop n l) = Z.max 0 (len l - Z.of_nat n).
Proof. unfold len; rewrite length_drop; lia. Qed.

Lemma slice_from_Some l lo k :
  slice_from l lo = Some k <-> 0 <= lo <= len l /\ k = drop (Z.to_nat lo) l.
Proof.
  unfold slice_from; case_if; split; intros; inv_opt; try done.
  - by destruct_and!; subst.
  - lia.
Qed.

Lemma slice_to_Some l hi k :
  slice_to l hi = Some k <-> 0 <= hi <= len l /\ k = take (Z.to_nat hi) l.
Proof.
  unfold slice_to; case_if; split; intros; inv_opt; try done.
  - by destruct_and!; subst.
  - lia.
Qed.

Lemma slice_from_ok l lo : 0 <= lo <= len l -> slice_from l lo = Some (drop (Z.to_nat lo) l).
Proof. intros; by apply slice_from_Some. Qed.

Lemma slice_to_ok l hi : 0 <= hi <= len l -> slice_to l hi = Some (take (Z.to_nat hi) l).
Proof. intros; by apply slice_to_Some. Qed.

Lemma upd_Some l i x k :
  upd l i x = Some k <-> 0 <= i < len l /\ k = <[Z.to_nat i := x]> l.
Proof.
  unfold upd; case_if; split; intros; inv_opt; try done.
  - by destruct_and!; subst.
  - lia.
Qed.

Lemma upd_ok l i x : 0 <= i < len l -> upd l i x = Some (<[Z.to_nat i := x]> l).
Proof. intros; by apply upd_Some. Qed.

Lemma upd_len l i x k : upd l i x = Some k -> len k = len l.
Proof. intros [_ ->]%upd_Some; unfold len; by rewrite length_insert. Qed.

Lemma idx_upd_eq l i x k : upd l i x = Some k -> idx k i = Some x.
Proof.
  intros [Hi ->]%upd_Some; unfold idx, len in *; case_if; [|lia].
  apply list_lookup_insert_eq; lia.
Qed.

Lemma idx_upd_ne l i j x k : upd l i x = Some k -> i <> j -> idx k j = idx l j.
Proof.
  intros [Hi ->]%upd_Some Hne; unfold idx, len in *; case_if; [|done].
  apply list_lookup_insert_ne; lia.
Qed.

Lemma idx_ext l k :
  len l = len k -> (forall i, 0 <= i < len l -> idx l i = idx k i) -> l = k.
Proof.
  intros Hl H; apply list_eq; intros n.
  destruct (decide (Z.of_nat n < len l)) as [Hn|Hn].
  - specialize (H (Z.of_nat n) ltac:(lia)); unfold idx in H.
    rewrite Nat2Z.id in H.
    by replace (0 <=? Z.of_nat n) with true in H by (symmetry; apply Z.leb_le; lia).
  - unfold len in *; rewrite !lookup_ge_None_2; [done|lia|lia].
Qed.
End golist.

#[export] Hint Rewrite @len_app @len_cons @len_nil @len_take @len_drop : golist_rw.
#[export] Hint Resolve len_nonneg : golist.

Lemma filter_all {A} (P : A -> Prop) {DP : forall x, Decision (P x)} (l : list A) :
  (forall x, x ∈ l -> P x) -> filter P l = l.
Proof.
  induction l as [|a l IH]; intros Hl; [done|].
  rewrite filter_cons_True by (apply Hl; set_solver).
  by rewrite IH by (intros; apply Hl; set_solver).
Qed.

Lemma filter_none {A} (P : A -> Prop) {DP : forall x, Decision (P x)} (l : list A) :
  (forall x, x ∈ l -> ~ P x) -> filter P l = [].
Proof.
  induction l as [|a l IH]; intros Hl; [done|].
  rewrite filter_cons_False by (apply Hl; set_solver).
  by apply IH; intros; apply Hl; set_solver.
Qed.

Lemma seqZ_sorted (m n : Z) : StronglySorted Z.lt (seqZ m n).
Proof.
  destruct (decide (0 <= n)) as [Hn|]; [|rewrite seqZ_nil by lia; constructor].
  revert m; pattern n; apply natlike_ind; [| |done]; clear n Hn.
  - intros m; rewrite seqZ_nil by lia; constructor.
  - intros n Hn IH m; rewrite seqZ_cons, Z.pred_succ by lia; constructor; [apply IH|].
    apply Forall_forall; intros i Hi%elem_of_seqZ; lia.
Qed.

Lemma StronglySorted_filter {A} (R : relation A) (P : A -> Prop) {DP : forall x, Decision (P x)} (l : list A) :
  StronglySorted R l -> StronglySorted R (filter P l).
Proof.
  induction 1 as [|a l Hs IH Hall]; [constructor|]. rewrite filter_cons; case_decide; [|done].
  constructor; [done|]. apply Forall_forall; intros b [_ Hb]%list_elem_of_filter.
  by eapply Forall_forall in Hall.
Qed.

Lemma idx_fmap {A B} (f : A -> B) (l : list A) i : idx (f <$> l) i = f <$> idx l i.
Proof. unfold idx; case_if; [apply list_lookup_fmap|done]. Qed.

(** ** Loops *)

(** A [for] loop over [xs] whose body may panic. *)
Fixpoint loopM {A S : Type} (f : A -> S -> option S) (xs : list A) (s : S) : option S :=
  match xs with [] => Some s | x :: xs => s ← f x s; loopM f xs s end.

Lemma loopM_inv {A S : Type} (f : A -> S -> option S) (P : S -> Prop) xs s s' :
  (forall x s s', x ∈ xs -> P s -> f x s = Some s' -> P s') -> P s -> loopM f xs s = Some s' -> P s'.
Proof.
  revert s; induction xs as [|x xs IH]; simpl; intros s Hf Hs HR; [by injection HR as <-|].
  destruct (f x s) as [s1|] eqn:E; [|done]. apply (IH s1); [|eapply Hf; [by left|done|done]|done].
  intros y s2 s3 Hy; apply Hf; by right.
Qed.

Lemma loopM_total {A S : Type} (f : A -> S -> option S) (P : S -> Prop) xs s :
  (forall x s, x ∈ xs -> P s -> exists s', f x s = Some s' /\ P s') -> P s -> exists s', loopM f xs s = Some s' /\ P s'.
Proof.
  revert s; induction xs as [|x xs IH]; cbn [loopM]; intros s Hf Hs; [eauto|].
  destruct (Hf x s (list_elem_of_here _ _) Hs) as (s1 & -> & Hs1); cbn [mbind option_bind].
  apply IH; [|done]. intros y s2 Hy; apply Hf; by right.
Qed.

Lemma loopM_app {A S : Type} (f : A -> S -> option S) xs ys s :
  loopM f (xs ++ ys) s = s ← loopM f xs s; loopM f ys s.
Proof.
  revert s; induction xs as [|x xs IH]; intros s; [done|]. cbn [app loopM].
  destruct (f x s); [exact (IH _)|done].
Qed.

Lemma loopM_prefix {A S : Type} (f : A -> S -> option S) (P : list A -> S -> Prop) xs s :
  (forall pre x post s, xs = pre ++ x :: post -> P pre s -> exists s', f x s = Some s' /\ P (pre ++ [x]) s') ->
  P [] s -> exists s', loopM f xs s = Some s' /\ P xs s'.
Proof.
  intros Hf. assert (H : forall suf pre s, xs = pre ++ suf -> P pre s -> exists s', loopM f suf s = Some s' /\ P xs s').
  { induction suf as [|x suf IH]; intros pre s0 Hxs Hs; cbn [loopM].
    - exists s0; split; [done|]. rewrite app_nil_r in Hxs; by subst.
    - destruct (Hf pre x suf s0 Hxs Hs) as (s1 & -> & Hs1); cbn [mbind option_bind].
      apply (IH (pre ++ [x])); [by rewrite <- (assoc app)|done]. }
  by apply (H xs []).
Qed.

(** ** Quorums

    Any two majorities of [0 .. n-1] share a member: the arithmetic core of
    Raft's election safety. *)

Lemma NoDup_app_disjoint {A} (l k : list A) :
  NoDup l -> NoDup k -> (forall x, x ∈ l -> x ∈ k -> False) -> NoDup (l ++ k).
Proof. intros; apply NoDup_app; naive_solver. Qed.

Lemma quorum_intersection (n : nat) (Q1 Q2 : list Z) :
  NoDup Q1 -> NoDup Q2 ->
  (forall q, q ∈ Q1 -> 0 <= q < Z.of_nat n) ->
  (forall q, q ∈ Q2 -> 0 <= q < Z.of_nat n) ->
  (n / 2 < length Q1)%nat -> (n / 2 < length Q2)%nat ->
  exists q, q ∈ Q1 /\ q ∈ Q2.
Proof.
  intros HN1 HN2 HR1 HR2 HL1 HL2.
  destruct (decide (Exists (fun q => q ∈ Q2) Q1)) as [[q Hq]%Exists_exists|Hno].
  { eauto. }
  exfalso.
  assert (HN : NoDup (Q1 ++ Q2)).
  { apply NoDup_app_disjoint; [done|done|].
    intros x H1 H2; apply Hno, Exists_exists; eauto. }
  assert (Hsub : Q1 ++ Q2 ⊆ seqZ 0 (Z.of_nat n)).
  { intros x [Hx|Hx]%elem_of_app; apply elem_of_seqZ; [specialize (HR1 x Hx)|specialize (HR2 x Hx)]; lia. }
  pose proof (submseteq_length _ _ (NoDup_submseteq _ _ HN Hsub)) as Hlen.
  rewrite length_app, length_seqZ in Hlen.
  pose proof (Nat.div_mod_eq n 2); pose proof (Nat.mod_upper_bound n 2 ltac:(lia)); lia.
Qed.
