(* ===== verification/GoFmt.v ===== *)
(** * Formatting integers and strings

    What the repository uses of Go's [fmt] and [strconv]: [%d] and [Itoa] print
    a decimal numeral ([pretty]). Names built from numerals and a separator are
    unambiguous because a numeral only has digits and a minus sign. *)

From Stdlib Require Import Ascii.
From stdpp Require Export pretty.
From S2P Require Import Prelude.

#[local] Open Scope string_scope.
#[local] Open Scope Z_scope.

Lemma string_app_assoc (s1 s2 s3 : string) : (s1 +:+ s2) +:+ s3 = s1 +:+ (s2 +:+ s3).
Proof. induction s1 as [|c s1 IH]; [done|]. exact (f_equal (String c) IH). Qed.
Lemma string_app_nil (s : string) : s +:+ "" = s.
Proof. induction s as [|c s IH]; [done|]. exact (f_equal (String c) IH). Qed.

Section noChar.
Variable sep : ascii.
Hypothesis sep_digit : forall n, pretty_N_char n <> sep.

Fixpoint noChar (s : string) : Prop :=
  match s with "" => True | String c s => c <> sep /\ noChar s end.

Lemma noChar_app s t : noChar s -> noChar t -> noChar (s +:+ t).
Proof. induction s; simpl; naive_solver. Qed.

Lemma noChar_split s1 s2 t1 t2 :
  noChar s1 -> noChar s2 -> s1 +:+ String sep t1 = s2 +:+ String sep t2 -> s1 = s2 /\ t1 = t2.
Proof.
  revert s2; induction s1 as [|c s1 IH]; intros [|d s2] H1 H2 Heq; simpl in *;
    destruct_and?; simplify_eq/=; try done.
  by destruct (IH s2) as [-> ->].
Qed.

Lemma pretty_N_go_noChar n s : noChar s -> noChar (pretty_N_go n s).
Proof using sep_digit.
  revert s; induction (N.lt_wf_0 n) as [n _ IH]; intros s Hs.
  destruct (decide (0 < n)%N) as [Hn|Hn].
  - rewrite pretty_N_go_step by done. apply IH; [by apply N.div_lt|].
    split; [apply sep_digit|done].
  - replace n with 0%N by lia; by rewrite pretty_N_go_0.
Qed.

Lemma pretty_N_noChar (n : N) : noChar (pretty n).
Proof using sep_digit.
  unfold pretty, pretty_N; case_decide; [|by apply pretty_N_go_noChar].
  split; [exact (sep_digit 0)|done].
Qed.

Lemma pretty_nonneg_noChar (z : Z) : 0 <= z -> noChar (pretty z).
Proof using sep_digit.
  intros Hz; destruct z as [|p|p]; [|apply pretty_N_noChar|lia]. split; [exact (sep_digit 0)|done].
Qed.

Lemma pretty_Z_noChar (z : Z) : sep <> "-"%char -> noChar (pretty z).
Proof using sep_digit.
  intros Hm; destruct z as [|p|p]; [by apply pretty_nonneg_noChar|apply pretty_N_noChar|].
  apply noChar_app; [by split|apply pretty_N_noChar].
Qed.
End noChar.

(** A character that is not a digit. *)
Lemma digit_neq (c : ascii) :
  forallb (fun d => negb (Ascii.eqb d c)) ["0";"1";"2";"3";"4";"5";"6";"7";"8";"9"]%char = true ->
  forall n, pretty_N_char n <> c.
Proof.
  intros H n <-; destruct n as [|p]; [done|].
  do 4 (try destruct p as [p|p|]); done.
Qed.
