(* ===== verification/Gob.v ===== *)
(** * Gob streams

    The repository serialises with labgob, a wrapper of Go's [encoding/gob].
    The code only relies on gob being a self-describing stream of values: each
    [Encode] appends one value to the buffer, each [Decode] removes the next
    value and fails at the end of the buffer or on a value of another shape.
    A byte buffer is therefore modelled as the list of the values it holds.
    [GobType] is the interface a serialisable Go type offers to its clients:
    its wire value, the partial reader, and that the reader inverts the
    writer. *)

From S2P Require Import Prelude.

Inductive goval : Type :=
| GNil
| GBool (b : bool)
| GInt (z : Z)
| GStr (s : string)
| GSlice (l : list goval)
| GPair (k v : goval).

(** A buffer written by an encoder. *)
Definition bytes : Type := list goval.

Class GobType (A : Type) := {
  to_gob : A -> goval;
  from_gob : goval -> option A;
  from_to_gob a : from_gob (to_gob a) = Some a;
}.

#[export] Instance gob_Z : GobType Z.
Proof.
  refine {|
  to_gob := GInt;
  from_gob v := match v with GInt z => Some z | _ => None end;
  from_to_gob := _ |}.
  done.
Defined.

#[export] Instance gob_string : GobType string.
Proof.
  refine {|
  to_gob := GStr;
  from_gob v := match v with GStr s => Some s | _ => None end;
  from_to_gob := _ |}.
  done.
Defined.

#[export] Instance gob_pair {A B} `{GobType A, GobType B} : GobType (A * B).
Proof.
  refine {|
  to_gob p := GPair (to_gob p.1) (to_gob p.2);
  from_gob v := match v with
                | GPair x y => a ← from_gob x; b ← from_gob y; Some (a, b)
                | _ => None end;
  from_to_gob := _ |}.
  intros [a b]; simpl. by rewrite !from_to_gob.
Defined.

#[export] Instance gob_list {A} `{GobType A} : GobType (list A).
Proof.
  refine {|
  to_gob l := GSlice (to_gob <$> l);
  from_gob v := match v with GSlice l => mapM from_gob l | _ => None end;
  from_to_gob := _ |}.
  intros l; apply mapM_Some_2, Forall2_fmap_l, Forall_Forall2_diag.
  apply Forall_true; intros a; apply from_to_gob.
Defined.

(** A Go map is written as its list of pairs; the order is irrelevant. *)
#[export] Instance gob_gmap {K V} `{Countable K, GobType K, GobType V} :
    GobType (gmap K V).
Proof.
  refine {|
  to_gob m := @to_gob (list (K * V)) _ (map_to_list m);
  from_gob v := list_to_map <$> @from_gob (list (K * V)) _ v;
  from_to_gob := _ |}.
  intros m; cbn beta; rewrite (from_to_gob (map_to_list m)); simpl.
  by rewrite list_to_map_to_list.
Defined.

(** An interface value that may be nil. *)
#[export] Instance gob_option {A} `{GobType A} : GobType (option A).
Proof.
  refine {|
  to_gob o := match o with Some a => GSlice [to_gob a] | None => GNil end;
  from_gob v := match v with
                | GNil => Some None
                | GSlice [x] => Some <$> from_gob x
                | _ => None end;
  from_to_gob := _ |}.
  intros [a|]; simpl; [|done]. by rewrite from_to_gob.
Defined.

(** [e.Encode(a)] on the buffer [w]. *)
Definition Encode {A} `{GobType A} (w : bytes) (a : A) : bytes := w ++ [to_gob a].

(** [d.Decode(&a)] on the unread part [r] of a buffer; [None] is a non-nil error. *)
Definition Decode {A} `{GobType A} (r : bytes) : option (A * bytes) :=
  match r with
  | v :: r' => a ← from_gob v; Some (a, r')
  | [] => None
  end.

Lemma Decode_cons {A} `{GobType A} (a : A) (r : bytes) :
  Decode (to_gob a :: r) = Some (a, r).
Proof. unfold Decode; by rewrite from_to_gob. Qed.
