(* ===== verification/RaftTypes.v ===== *)
(** * Raft: data types and the state of one peer

    Models [raft/types.go], [raft/constants.go], the storage object of
    [raft/persister.go] and the RPC argument and reply structs of
    [raft/election.go], [raft/replicate.go] and [raft/install.go].

    The [interface{}] of a log entry's command is an arbitrary type [Cmd]; a
    nil command, which only the sentinel entry at position 0 holds, is [None].
    The mutex is not a field: every definition below is the body of one
    critical section. The capacity-one channel [wakeCh] is the boolean "a token
    is in the channel". *)

From S2P Require Import Prelude Gob.

Definition SELECTION_TIMEOUT : Z := 500.
Definition HEATBEAT_INTERVAL : Z := 100.

Inductive RaftState : Type := Follower | Candidate | Leader.

#[export] Instance RaftState_eq_dec : EqDecision RaftState.
Proof. solve_decision. Defined.

Record Entry {Cmd : Type} : Type := mkEntry { Term : Z; Command : option Cmd }.
Arguments Entry : clear implicits.
Arguments mkEntry {Cmd}.

Record ApplyMsg {Cmd : Type} : Type := mkApplyMsg {
  CommandValid : bool;
  msgCommand : option Cmd;
  CommandIndex : Z;
  SnapshotValid : bool;
  Snapshot_ : bytes;
  SnapshotTerm : Z;
  SnapshotIndex : Z;
}.
Arguments ApplyMsg : clear implicits.
Arguments mkApplyMsg {Cmd}.

(** ** The persister *)

Record Persister : Type := mkPersister { raftstate : bytes; psnapshot : bytes }.

Definition MakePersister : Persister := mkPersister [] [].

Definition clone (orig : bytes) : bytes := orig.

Definition Copy (ps : Persister) : Persister :=
  mkPersister (raftstate ps) (psnapshot ps).

Definition ReadRaftState (ps : Persister) : bytes := clone (raftstate ps).

Definition Save (raftstate snapshot : bytes) : Persister :=
  mkPersister (clone raftstate) (clone snapshot).

Definition ReadSnapshot (ps : Persister) : bytes := clone (psnapshot ps).

(** The byte length of a gob buffer depends on the wire format, which is a
    parameter. *)
Definition RaftStateSize (size : bytes -> Z) (ps : Persister) : Z := size (raftstate ps).
Definition SnapshotSize (size : bytes -> Z) (ps : Persister) : Z := size (psnapshot ps).

(** ** The peer *)

Record Raft {Cmd : Type} : Type := mkRaft {
  peers : nat;                  (* len(rf.peers) *)
  persister : Persister;
  me : Z;
  dead : bool;
  wakeCh : bool;
  currentTerm : Z;
  state : RaftState;
  votedFor : Z;
  lastTouchedAt : Z;
  log : list (Entry Cmd);
  commitIndex : Z;
  lastApplied : Z;
  nextIndex : list Z;
  matchIndex : list Z;
  snapIndex : Z;
  snapshot : bytes;
}.
Arguments Raft : clear implicits.
Arguments mkRaft {Cmd}.

Record RequestVoteArgs : Type := mkRequestVoteArgs {
  rv_Term : Z; CandidateId : Z; LastLogIndex : Z; LastLogTerm : Z }.

Record RequestVoteReply : Type := mkRequestVoteReply {
  rvr_Term : Z; VoteGranted : bool }.

Record AppendEntriesArgs {Cmd : Type} : Type := mkAppendEntriesArgs {
  ae_Term : Z; ae_LeaderId : Z; PrevLogIndex : Z; PrevLogTerm : Z;
  Entries : list (Entry Cmd); LeaderCommit : Z }.
Arguments AppendEntriesArgs : clear implicits.
Arguments mkAppendEntriesArgs {Cmd}.

Record AppendEntriesReply : Type := mkAppendEntriesReply {
  aer_Term : Z; Success : bool; XTerm : Z; XIndex : Z; XLen : Z }.

Record InstallSnapshotArgs : Type := mkInstallSnapshotArgs {
  is_Term : Z; is_LeaderId : Z; LastIncludedIndex : Z; LastIncludedTerm : Z; Data : bytes }.

Record InstallSnapshotReply : Type := mkInstallSnapshotReply { isr_Term : Z }.

(** ** Field updates *)

Section setters.
Context {Cmd : Type}.
Implicit Types rf : Raft Cmd.

Definition set_persister p rf : Raft Cmd :=
  mkRaft (peers rf) p (me rf) (dead rf) (wakeCh rf) (currentTerm rf) (state rf) (votedFor rf)
    (lastTouchedAt rf) (log rf) (commitIndex rf) (lastApplied rf) (nextIndex rf) (matchIndex rf)
    (snapIndex rf) (snapshot rf).
Definition set_dead d rf : Raft Cmd :=
  mkRaft (peers rf) (persister rf) (me rf) d (wakeCh rf) (currentTerm rf) (state rf) (votedFor rf)
    (lastTouchedAt rf) (log rf) (commitIndex rf) (lastApplied rf) (nextIndex rf) (matchIndex rf)
    (snapIndex rf) (snapshot rf).
Definition set_wakeCh w rf : Raft Cmd :=
  mkRaft (peers rf) (persister rf) (me rf) (dead rf) w (currentTerm rf) (state rf) (votedFor rf)
    (lastTouchedAt rf) (log rf) (commitIndex rf) (lastApplied rf) (nextIndex rf) (matchIndex rf)
    (snapIndex rf) (snapshot rf).
Definition set_election t s v rf : Raft Cmd :=
  mkRaft (peers rf) (persister rf) (me rf) (dead rf) (wakeCh rf) t s v
    (lastTouchedAt rf) (log rf) (commitIndex rf) (lastApplied rf) (nextIndex rf) (matchIndex rf)
    (snapIndex rf) (snapshot rf).
Definition set_state s rf : Raft Cmd := set_election (currentTerm rf) s (votedFor rf) rf.
Definition set_votedFor v rf : Raft Cmd := set_election (currentTerm rf) (state rf) v rf.
Definition set_lastTouchedAt t rf : Raft Cmd :=
  mkRaft (peers rf) (persister rf) (me rf) (dead rf) (wakeCh rf) (currentTerm rf) (state rf)
    (votedFor rf) t (log rf) (commitIndex rf) (lastApplied rf) (nextIndex rf) (matchIndex rf)
    (snapIndex rf) (snapshot rf).
Definition set_log l rf : Raft Cmd :=
  mkRaft (peers rf) (persister rf) (me rf) (dead rf) (wakeCh rf) (currentTerm rf) (state rf)
    (votedFor rf) (lastTouchedAt rf) l (commitIndex rf) (lastApplied rf) (nextIndex rf)
    (matchIndex rf) (snapIndex rf) (snapshot rf).
Definition set_commitIndex c rf : Raft Cmd :=
  mkRaft (peers rf) (persister rf) (me rf) (dead rf) (wakeCh rf) (currentTerm rf) (state rf)
    (votedFor rf) (lastTouchedAt rf) (log rf) c (lastApplied rf) (nextIndex rf)
    (matchIndex rf) (snapIndex rf) (snapshot rf).
Definition set_lastApplied a rf : Raft Cmd :=
  mkRaft (peers rf) (persister rf) (me rf) (dead rf) (wakeCh rf) (currentTerm rf) (state rf)
    (votedFor rf) (lastTouchedAt rf) (log rf) (commitIndex rf) a (nextIndex rf)
    (matchIndex rf) (snapIndex rf) (snapshot rf).
Definition set_nextIndex n rf : Raft Cmd :=
  mkRaft (peers rf) (persister rf) (me rf) (dead rf) (wakeCh rf) (currentTerm rf) (state rf)
    (votedFor rf) (lastTouchedAt rf) (log rf) (commitIndex rf) (lastApplied rf) n
    (matchIndex rf) (snapIndex rf) (snapshot rf).
Definition set_matchIndex m rf : Raft Cmd :=
  mkRaft (peers rf) (persister rf) (me rf) (dead rf) (wakeCh rf) (currentTerm rf) (state rf)
    (votedFor rf) (lastTouchedAt rf) (log rf) (commitIndex rf) (lastApplied rf) (nextIndex rf)
    m (snapIndex rf) (snapshot rf).
Definition set_snapIndex s rf : Raft Cmd :=
  mkRaft (peers rf) (persister rf) (me rf) (dead rf) (wakeCh rf) (currentTerm rf) (state rf)
    (votedFor rf) (lastTouchedAt rf) (log rf) (commitIndex rf) (lastApplied rf) (nextIndex rf)
    (matchIndex rf) s (snapshot rf).
Definition set_snapshot s rf : Raft Cmd :=
  mkRaft (peers rf) (persister rf) (me rf) (dead rf) (wakeCh rf) (currentTerm rf) (state rf)
    (votedFor rf) (lastTouchedAt rf) (log rf) (commitIndex rf) (lastApplied rf) (nextIndex rf)
    (matchIndex rf) (snapIndex rf) s.
End setters.

#[export] Instance gob_Entry {Cmd} `{GobType Cmd} : GobType (Entry Cmd).
Proof.
  refine {|
  to_gob e := to_gob (Term e, Command e);
  from_gob v := (fun p => mkEntry p.1 p.2) <$> (from_gob v : option (Z * option Cmd));
  from_to_gob := _ |}.
  intros [t c]; cbn beta; rewrite from_to_gob; done.
Defined.
