(* ===== verification/RaftLog.v ===== *)
(** * Raft: the log and its persistence

    Models [raft/help_log.go], [persist] and [readPersist] of
    [raft/persister.go], [bEffortKick] of [raft/log_commit.go], and [Make],
    [GetState], [Kill] and [killed] of [raft/raft.go].

    Positions of the log are global indices: the slice [rf.log] starts at
    index [snapIndex], its first element being a sentinel that carries the
    term of the last entry covered by the snapshot. *)

From S2P Require Import Prelude Gob RaftTypes.

Section log.
Context {Cmd : Type} `{!GobType Cmd}.
Implicit Types (rf : Raft Cmd) (e : Entry Cmd) (entries : list (Entry Cmd)).

Definition getSnap rf : option Z := Term <$> idx (log rf) 0.

Definition setSnap (snapTerm : Z) rf : option (Raft Cmd) :=
  e ← idx (log rf) 0;
  l ← upd (log rf) 0 (mkEntry snapTerm (Command e));
  Some (set_log l rf).

Definition get rf (i : Z) : option (Entry Cmd) := idx (log rf) (i - snapIndex rf).

Definition entriesFrom rf (start : Z) : option (list (Entry Cmd)) :=
  slice_from (log rf) (start - snapIndex rf).

Definition logLength rf : Z := len (log rf) + snapIndex rf.

Definition bEffortKick rf : Raft Cmd := set_wakeCh true rf.

(** The four values [persist] writes, in the order it encodes them. *)
Definition persistedState rf : bytes :=
  let w := [] in
  let w := Encode w (currentTerm rf) in
  let w := Encode w (votedFor rf) in
  let w := Encode w (log rf) in
  Encode w (snapIndex rf).

Definition persist rf : Raft Cmd :=
  set_persister (Save (persistedState rf) (snapshot rf)) rf.

(** [None] is the panic of a failed decode. *)
Definition readPersist (data : bytes) rf : option (Raft Cmd) :=
  match data with
  | [] => Some rf
  | _ =>
      '(ct, r) ← @Decode Z _ data;
      '(vf, r) ← @Decode Z _ r;
      '(lg, r) ← @Decode (list (Entry Cmd)) _ r;
      '(si, r) ← @Decode Z _ r;
      Some (set_snapshot (ReadSnapshot (persister rf))
             (set_snapIndex si
               (set_log lg (set_election ct (state rf) vf rf))))
  end.

Definition append (entry : Entry Cmd) rf : Raft Cmd :=
  persist (bEffortKick (set_log (log rf ++ [entry]) rf)).

Definition batchAppend entries rf : Raft Cmd :=
  persist (bEffortKick (set_log (log rf ++ entries) rf)).

(** [Make]: the zero value of the struct, the explicit initialisations, then
    [readPersist]. [n] is [len(peers)], [now] the clock. *)
Definition Make (n : nat) (i : Z) (ps : Persister) (now : Z) : option (Raft Cmd) :=
  readPersist (ReadRaftState ps)
    (mkRaft n ps i false false 0 Follower (-1) now [mkEntry (-1) None] 0 0 [] [] 0 []).

Definition killed rf : bool := dead rf.
Definition Kill rf : Raft Cmd := set_dead true rf.

Definition GetState rf : Z * bool :=
  if killed rf then (-1, false)
  else (currentTerm rf, bool_decide (state rf = Leader)).
End log.
