(* ===== verification/RaftElection.v ===== *)
(** * Raft: elections

    Models [raft/help_election.go], [raft/election.go] and the body of the
    [ticker] loop of [raft/raft.go]. *)

From S2P Require Import Prelude Gob RaftTypes RaftLog.

Section election.
Context {Cmd : Type} `{!GobType Cmd}.
Implicit Types (rf : Raft Cmd).

Definition toFollower rf : Raft Cmd := set_state Follower rf.

Definition becomeCandidate rf : Raft Cmd :=
  persist (set_election (currentTerm rf + 1) Candidate (me rf) rf).

(** The freshly allocated [nextIndex] and [matchIndex]; the second component
    lists the peers a [replicator] goroutine is started for. *)
Definition becomeLeader rf : Raft Cmd * list Z :=
  let lastLogIndex := logLength rf - 1 in
  let all := seqZ 0 (Z.of_nat (peers rf)) in
  let rf1 :=
    set_nextIndex ((fun i => if i =? me rf then -1 else lastLogIndex + 1) <$> all)
      (set_matchIndex ((fun i => if i =? me rf then -1 else 0) <$> all)
        (set_state Leader rf)) in
  (rf1, filter (fun i => i <> me rf) all).

Definition newGen (term : Z) rf : Raft Cmd :=
  persist (set_election term Follower (-1) rf).

Definition touched (now : Z) rf : Raft Cmd := set_lastTouchedAt now rf.

Definition tryVotingFor (now candidate lastLogIndex lastLogTerm : Z) rf
    : option (Raft Cmd * bool) :=
  let myLastIndex := logLength rf - 1 in
  e ← get rf myLastIndex;
  let myLastTerm := Term e in
  let upToDate := (lastLogTerm >? myLastTerm)
                  || ((lastLogTerm =? myLastTerm) && (lastLogIndex >=? myLastIndex)) in
  if ((votedFor rf =? -1) || (votedFor rf =? candidate)) && upToDate then
    Some (set_lastTouchedAt now (persist (set_votedFor candidate rf)), true)
  else Some (rf, false).

(** The [RequestVote] handler. *)
Definition RequestVote (now : Z) (args : RequestVoteArgs) rf
    : option (Raft Cmd * RequestVoteReply) :=
  let rf := if rv_Term args >? currentTerm rf then newGen (rv_Term args) rf else rf in
  if rv_Term args <? currentTerm rf then
    Some (rf, mkRequestVoteReply (currentTerm rf) false)
  else
    '(rf, granted) ← tryVotingFor now (CandidateId args) (LastLogIndex args) (LastLogTerm args) rf;
    Some (rf, mkRequestVoteReply (currentTerm rf) granted).

(** One iteration of the [ticker] loop; the boolean says that
    [collectOpinion] is started. *)
Definition tick (now : Z) rf : Raft Cmd * bool :=
  if ((now - lastTouchedAt rf) >? SELECTION_TIMEOUT) && negb (bool_decide (state rf = Leader))
  then (becomeCandidate rf, true)
  else (rf, false).

(** A goroutine of [collectOpinion]: the arguments it builds in its first
    critical section. *)
Definition opinionArgs rf : option RequestVoteArgs :=
  let lastLogIndex := logLength rf - 1 in
  e ← get rf lastLogIndex;
  Some (mkRequestVoteArgs (currentTerm rf) (me rf) lastLogIndex (Term e)).

(** Its second critical section, with [supporter] the counter shared by the
    goroutines of one [collectOpinion]; the last component lists the
    replicators started. *)
Definition opinionReply (args : RequestVoteArgs) (reply : RequestVoteReply) (supporter : nat) rf
    : Raft Cmd * nat * list Z :=
  let rf := if rvr_Term reply >? currentTerm rf then newGen (rvr_Term reply) rf else rf in
  if VoteGranted reply && bool_decide (state rf = Candidate) && (currentTerm rf =? rv_Term args)
  then
    let supporter := S supporter in
    if (Nat.div (peers rf) 2 <? supporter)%nat
    then let '(rf, spawned) := becomeLeader rf in (rf, supporter, spawned)
    else (rf, supporter, [])
  else (rf, supporter, []).
End election.
