(* ===== verification/RaftReplicate.v ===== *)
(** * Raft: log replication

    Models [raft/help_replicate.go] and [raft/replicate.go]. *)

From S2P Require Import Prelude Gob RaftTypes RaftLog RaftElection.

(** [min] of [raft/help_election.go]. *)
Definition goMin (a b : Z) : Z := if a <=? b then a else b.

Section replicate.
Context {Cmd : Type} `{!GobType Cmd}.
Implicit Types (rf : Raft Cmd) (entries : list (Entry Cmd)).

(** The inner loop of [updateCommitIndex]: how many peers hold entry [N],
    the leader itself included. *)
Fixpoint replicaCount (N : Z) (ids : list Z) rf : option nat :=
  match ids with
  | [] => Some 0%nat
  | i :: ids =>
      c ← replicaCount N ids rf;
      if i =? me rf then Some (S c)
      else m ← idx (matchIndex rf) i; Some (if m >=? N then S c else c)
  end.

(** The outer loop, from [N] downwards. *)
Fixpoint commitLoop (fuel : nat) (N : Z) rf : option (Raft Cmd) :=
  if (N >? commitIndex rf) && (N >? snapIndex rf) then
    match fuel with
    | O => None
    | S fuel =>
        count ← replicaCount N (seqZ 0 (Z.of_nat (peers rf))) rf;
        ok ← (if (Nat.div (peers rf) 2 <? count)%nat
              then (fun e => Term e =? currentTerm rf) <$> get rf N else Some false);
        if (ok : bool)
        then Some (bEffortKick (set_commitIndex N rf))
        else commitLoop fuel (N - 1) rf
    end
  else Some rf.

Definition updateCommitIndex rf : option (Raft Cmd) :=
  commitLoop (Z.to_nat (logLength rf - snapIndex rf)) (logLength rf - 1) rf.

Fixpoint lastIndexLoop (fuel : nat) (term i : Z) rf : option Z :=
  if i >? snapIndex rf then
    match fuel with
    | O => None
    | S fuel =>
        e ← get rf i;
        if Term e =? term then Some i else lastIndexLoop fuel term (i - 1) rf
    end
  else Some (-1).

Definition lastIndexOfTerm (term : Z) rf : option Z :=
  lastIndexLoop (Z.to_nat (logLength rf - snapIndex rf)) term (logLength rf - 1) rf.

Definition stepBack (server xTerm xIndex xLen : Z) rf : option (Raft Cmd) :=
  if xTerm =? -1 then
    l ← upd (nextIndex rf) server (goMin xLen (logLength rf));
    Some (set_nextIndex l rf)
  else
    term ← lastIndexOfTerm xTerm rf;
    if negb (term =? -1) then
      l ← upd (nextIndex rf) server (term + 1); Some (set_nextIndex l rf)
    else
      l ← upd (nextIndex rf) server xIndex; Some (set_nextIndex l rf).

(** The comparison loop of [reconcileEntries]: [rest] is [entries[yourIdx:]];
    the result is the log after the loop and what is left to append. *)
Fixpoint reconcileLoop (myIdx : Z) (rest : list (Entry Cmd)) rf
    : option (list (Entry Cmd) * list (Entry Cmd)) :=
  match rest with
  | [] => Some (log rf, [])
  | e :: rest' =>
      if myIdx <? logLength rf then
        m ← get rf myIdx;
        if negb (Term m =? Term e) then
          l ← slice_to (log rf) (myIdx - snapIndex rf); Some (l, rest)
        else reconcileLoop (myIdx + 1) rest' rf
      else Some (log rf, rest)
  end.

Definition reconcileEntries (myIdx yourIdx : Z) entries rf : option (Raft Cmd) :=
  rest ← slice_from entries yourIdx;
  '(l, rest) ← reconcileLoop myIdx rest rf;
  Some (batchAppend rest (set_log l rf)).

Definition tryUpdateCommit (leaderCommit : Z) rf : Raft Cmd :=
  if leaderCommit >? commitIndex rf then
    let rf := set_commitIndex (goMin leaderCommit (logLength rf - 1)) rf in
    if commitIndex rf >? lastApplied rf then bEffortKick rf else rf
  else rf.

(** The loop that looks for the first index of the conflicting term. *)
Fixpoint xIndexLoop (fuel : nat) (xTerm xIndex : Z) rf : option Z :=
  if xIndex - 1 >=? snapIndex rf + 1 then
    match fuel with
    | O => None
    | S fuel =>
        e ← get rf (xIndex - 1);
        if Term e =? xTerm then xIndexLoop fuel xTerm (xIndex - 1) rf else Some xIndex
    end
  else Some xIndex.

(** The term rules at the head of the [AppendEntries] handler. *)
Definition observeLeader (args : AppendEntriesArgs Cmd) rf : Raft Cmd :=
  if ae_Term args >? currentTerm rf then newGen (ae_Term args) rf
  else if bool_decide (state rf = Candidate) && (ae_Term args =? currentTerm rf)
  then toFollower rf else rf.

(** The [AppendEntries] handler; a reply field the code does not assign keeps
    its zero value. *)
Definition AppendEntries (now : Z) (args : AppendEntriesArgs Cmd) rf
    : option (Raft Cmd * AppendEntriesReply) :=
  let rf := observeLeader args rf in
  if ae_Term args <? currentTerm rf then
    Some (rf, mkAppendEntriesReply (currentTerm rf) false 0 0 0)
  else
    let rf := touched now rf in
    if PrevLogIndex args <=? snapIndex rf then
      let reply := mkAppendEntriesReply (currentTerm rf) true 0 0 0 in
      let appendStart := snapIndex rf - PrevLogIndex args in
      if appendStart >=? len (Entries args) then
        Some (tryUpdateCommit (LeaderCommit args) rf, reply)
      else
        rf ← reconcileEntries (snapIndex rf + 1) appendStart (Entries args) rf;
        Some (tryUpdateCommit (LeaderCommit args) rf, reply)
    else if PrevLogIndex args >=? logLength rf then
      Some (rf, mkAppendEntriesReply (currentTerm rf) false (-1) (-1) (logLength rf))
    else
      p ← get rf (PrevLogIndex args);
      if negb (Term p =? PrevLogTerm args) then
        x ← xIndexLoop (Z.to_nat (PrevLogIndex args - snapIndex rf)) (Term p)
              (PrevLogIndex args) rf;
        Some (rf, mkAppendEntriesReply (currentTerm rf) false (Term p) x (-1))
      else
        rf ← reconcileEntries (PrevLogIndex args + 1) 0 (Entries args) rf;
        let rf := tryUpdateCommit (LeaderCommit args) rf in
        Some (rf, mkAppendEntriesReply (currentTerm rf) true 0 0 0).

(** [singleAppend] up to its RPC: not the leader (no RPC, no retry), the
    follower is behind the snapshot ([helpInstall] runs instead), or the
    arguments of the [AppendEntries] call. *)
Inductive sendDecision : Type :=
| NotLeader
| SendInstall
| SendAppend (args : AppendEntriesArgs Cmd).

Definition singleAppendSend (i : Z) rf : option sendDecision :=
  if negb (bool_decide (state rf = Leader)) then Some NotLeader
  else
    ni ← idx (nextIndex rf) i;
    let prevLogIndex := ni - 1 in
    if prevLogIndex <? snapIndex rf then Some SendInstall
    else
      p ← get rf prevLogIndex;
      es ← entriesFrom rf (prevLogIndex + 1);
      Some (SendAppend (mkAppendEntriesArgs (currentTerm rf) (me rf) prevLogIndex (Term p) es
                          (commitIndex rf))).

(** [singleAppend] after its RPC: [None] in place of a reply is [!ok]. The
    boolean result is [retry]. *)
Definition singleAppendReply (i : Z) (args : AppendEntriesArgs Cmd)
    (reply : option AppendEntriesReply) rf : option (Raft Cmd * bool) :=
  match reply with
  | None => Some (rf, true)
  | Some reply =>
      if aer_Term reply >? currentTerm rf then Some (newGen (aer_Term reply) rf, false)
      else if negb (currentTerm rf =? ae_Term args) || negb (bool_decide (state rf = Leader))
      then Some (rf, false)
      else if negb (Success reply) then
        rf ← stepBack i (XTerm reply) (XIndex reply) (XLen reply) rf;
        Some (rf, true)
      else
        let m := PrevLogIndex args + len (Entries args) in
        mi ← upd (matchIndex rf) i m;
        ni ← upd (nextIndex rf) i (m + 1);
        rf ← updateCommitIndex (set_nextIndex ni (set_matchIndex mi rf));
        Some (rf, false)
  end.
End replicate.

Arguments NotLeader {Cmd}.
Arguments SendInstall {Cmd}.
Arguments SendAppend {Cmd}.
