(* ===== verification/RaftSnapshot.v ===== *)
(** * Raft: snapshots and the apply pipeline

    Models [Snapshot] of [raft/persister.go], [raft/install.go], and [Start]
    and [guardKick] of [raft/log_commit.go]. *)

From S2P Require Import Prelude Gob RaftTypes RaftLog RaftElection RaftReplicate.

Section snapshots.
Context {Cmd : Type} `{!GobType Cmd}.
Implicit Types (rf : Raft Cmd).

(** The service has a snapshot through [index]: trim the log. *)
Definition Snapshot (index : Z) (snap : bytes) rf : option (Raft Cmd) :=
  if index <=? snapIndex rf then Some rf
  else
    e ← get rf index;
    tail ← slice_from (log rf) (index - snapIndex rf + 1);
    Some (persist (set_snapshot snap (set_snapIndex index
            (set_log (mkEntry (Term e) None :: tail) rf)))).

(** [helpInstall] before and after its RPC. *)
Definition helpInstallArgs rf : option InstallSnapshotArgs :=
  t ← getSnap rf;
  Some (mkInstallSnapshotArgs (currentTerm rf) (me rf) (snapIndex rf) t (snapshot rf)).

Definition helpInstallReply (i : Z) (args : InstallSnapshotArgs)
    (reply : option InstallSnapshotReply) rf : option (Raft Cmd) :=
  match reply with
  | None => Some rf
  | Some reply =>
      if isr_Term reply >? currentTerm rf then Some (newGen (isr_Term reply) rf)
      else
        mi ← upd (matchIndex rf) i (LastIncludedIndex args);
        ni ← upd (nextIndex rf) i (LastIncludedIndex args + 1);
        Some (set_nextIndex ni (set_matchIndex mi rf))
  end.

Definition snapshotMsg (args : InstallSnapshotArgs) : ApplyMsg Cmd :=
  mkApplyMsg false None 0 true (Data args) (LastIncludedTerm args) (LastIncludedIndex args).

(** The [InstallSnapshot] handler; the last component is the message that a
    goroutine of its own sends on [applyCh]. *)
Definition InstallSnapshot (now : Z) (args : InstallSnapshotArgs) rf
    : option (Raft Cmd * InstallSnapshotReply * option (ApplyMsg Cmd)) :=
  if is_Term args <? currentTerm rf then
    Some (rf, mkInstallSnapshotReply (currentTerm rf), None)
  else
    let rf := if is_Term args >? currentTerm rf then newGen (is_Term args) rf else rf in
    let rf := touched now rf in
    if LastIncludedIndex args <=? snapIndex rf then
      Some (rf, mkInstallSnapshotReply (currentTerm rf), None)
    else
      kept ← (if LastIncludedIndex args <? logLength rf - 1
              then entriesFrom rf (LastIncludedIndex args + 1) else Some []);
      rf ← setSnap (LastIncludedTerm args)
             (set_snapIndex (LastIncludedIndex args) (set_log (mkEntry 0 None :: kept) rf));
      let rf := persist (set_snapshot (Data args) rf) in
      if lastApplied rf <? snapIndex rf then
        let rf := set_commitIndex (snapIndex rf) (set_lastApplied (snapIndex rf) rf) in
        Some (rf, mkInstallSnapshotReply (currentTerm rf), Some (snapshotMsg args))
      else Some (rf, mkInstallSnapshotReply (currentTerm rf), None).

(** [Start]: index, term and whether this peer is the leader. *)
Definition Start (command : Cmd) rf : Raft Cmd * (Z * Z * bool) :=
  if negb (bool_decide (state rf = Leader)) then (rf, (-1, -1, false))
  else
    let rf := append (mkEntry (currentTerm rf) (Some command)) rf in
    (rf, (logLength rf - 1, currentTerm rf, bool_decide (state rf = Leader))).

Definition commandMsg (c : option Cmd) (i : Z) : ApplyMsg Cmd :=
  mkApplyMsg true c i false [] 0 0.

(** The collecting loop of [guardKick]. *)
Fixpoint collectApplies (ids : list Z) rf : option (list (ApplyMsg Cmd)) :=
  match ids with
  | [] => Some []
  | i :: ids =>
      if i <=? snapIndex rf then collectApplies ids rf
      else
        e ← get rf i;
        rest ← collectApplies ids rf;
        Some (commandMsg (Command e) i :: rest)
  end.

(** One iteration of [guardKick]: the token is consumed, the critical section
    runs, and the messages are then sent on [applyCh] in order. *)
Definition guardKick rf : option (Raft Cmd * list (ApplyMsg Cmd)) :=
  let rf := set_wakeCh false rf in
  let start := lastApplied rf + 1 in
  let stop := commitIndex rf in
  if stop <? start then Some (rf, [])
  else
    applies ← collectApplies (seqZ start (stop + 1 - start)) rf;
    Some (set_lastApplied stop rf, applies).
End snapshots.
