(* ===== verification/RaftPeer.v ===== *)
(** * Raft: one peer as a sequence of critical sections

    Every access to a peer's fields happens under [rf.mu]; the behaviour of a
    peer between two crashes is a sequence of the critical sections below, in
    any order and with any arguments. The relation [cs] lists all of them, and
    the theorems of this file hold of every such sequence: what is written to
    the persister always determines the persistent fields, terms never go back,
    a vote is never changed within a term, and leadership is only gained
    through [opinionReply]. *)

From S2P Require Import Prelude Gob RaftTypes RaftLog RaftElection RaftReplicate RaftSnapshot.

Section peer.
Context {Cmd : Type} `{!GobType Cmd}.
Implicit Types (rf : Raft Cmd).

Inductive cs : Raft Cmd -> Raft Cmd -> Prop :=
| cs_tick now rf : cs rf (tick now rf).1
| cs_RequestVote now args rf rf' reply :
    RequestVote now args rf = Some (rf', reply) -> cs rf rf'
| cs_opinionReply args reply n rf rf' n' sp :
    opinionReply args reply n rf = (rf', n', sp) -> cs rf rf'
| cs_AppendEntries now args rf rf' reply :
    AppendEntries now args rf = Some (rf', reply) -> cs rf rf'
| cs_singleAppendReply i args reply rf rf' retry :
    singleAppendReply i args reply rf = Some (rf', retry) -> cs rf rf'
| cs_InstallSnapshot now args rf rf' reply msg :
    InstallSnapshot now args rf = Some (rf', reply, msg) -> cs rf rf'
| cs_helpInstallReply i args reply rf rf' :
    helpInstallReply i args reply rf = Some rf' -> cs rf rf'
| cs_Snapshot index snap rf rf' : Snapshot index snap rf = Some rf' -> cs rf rf'
| cs_Start c rf : cs rf (Start c rf).1
| cs_guardKick rf rf' msgs : guardKick rf = Some (rf', msgs) -> cs rf rf'
| cs_Kill rf : cs rf (Kill rf).

(** The fields that survive a crash. *)
Definition persistent rf : Z * Z * list (Entry Cmd) * Z * bytes :=
  (currentTerm rf, votedFor rf, log rf, snapIndex rf, snapshot rf).

(** What the persister holds determines the persistent fields: either the
    last [persist] wrote exactly them, or nothing was ever written and they
    still have the values [Make] gives them. *)
Definition durable rf : Prop :=
  persister rf = Save (persistedState rf) (snapshot rf)
  \/ (persister rf = MakePersister
      /\ persistent rf = (0, -1, [mkEntry (-1) None], 0, [])).

(** What may happen to the term and the vote. *)
Record vote_step rf rf' : Prop := {
  vs_me : me rf' = me rf;
  vs_peers : peers rf' = peers rf;
  vs_term : currentTerm rf <= currentTerm rf';
  vs_vote : currentTerm rf' = currentTerm rf ->
            votedFor rf = -1 \/ votedFor rf' = votedFor rf;
}.

(** What one critical section other than [opinionReply] may do: it does not
    make the peer a leader either, and loses no apply progress. *)
Record election_step rf rf' : Prop := {
  es_me : me rf' = me rf;
  es_peers : peers rf' = peers rf;
  es_term : currentTerm rf <= currentTerm rf';
  es_vote : currentTerm rf' = currentTerm rf ->
            votedFor rf = -1 \/ votedFor rf' = votedFor rf;
  es_leader : state rf' = Leader ->
              currentTerm rf' = currentTerm rf /\ state rf = Leader;
  es_applied : lastApplied rf <= lastApplied rf';
}.

(** Two peers that agree on the fields a crash keeps and on the persister
    are equally durable. *)
Lemma durable_ext rf rf' :
  persister rf' = persister rf -> persistent rf' = persistent rf ->
  durable rf -> durable rf'.
Proof.
  unfold durable, persistent, persistedState; intros Hp Hq.
  injection Hq as -> -> -> -> ->; by rewrite Hp.
Qed.

Lemma durable_persist rf : durable (persist rf).
Proof. by left. Qed.

Lemma election_step_refl rf : election_step rf rf.
Proof. split; naive_solver lia. Qed.

(** The same election fields, and no apply progress lost. *)
Definition same_election rf rf' : Prop :=
  me rf' = me rf /\ peers rf' = peers rf /\ currentTerm rf' = currentTerm rf /\
  votedFor rf' = votedFor rf /\ state rf' = state rf /\ lastApplied rf <= lastApplied rf'.

Lemma same_election_step rf rf' : same_election rf rf' -> election_step rf rf'.
Proof.
  intros (?&?&?&?&?&?); split; try congruence; try lia.
  intros; split; congruence.
Qed.

Lemma election_step_same_r rf rf' rf'' :
  election_step rf rf' -> same_election rf' rf'' -> election_step rf rf''.
Proof.
  intros [H1 H2 H3 H4 H5 H6] (?&?&?&?&?&?); split; try congruence; try lia.
  intros; destruct H5; [congruence|]; split; [congruence|done].
Qed.

Lemma newGen_step t rf : currentTerm rf < t -> election_step rf (newGen t rf).
Proof. intros; split; simpl; try done; lia. Qed.

Lemma newGen_if_step t rf :
  election_step rf (if t >? currentTerm rf then newGen t rf else rf).
Proof. case_if; [by apply newGen_step|apply election_step_refl]. Qed.

Lemma durable_newGen t rf : durable (newGen t rf).
Proof. apply durable_persist. Qed.

Lemma durable_newGen_if (b : bool) t rf : durable rf -> durable (if b then newGen t rf else rf).
Proof. destruct b; [intros; apply durable_persist|done]. Qed.

Lemma same_election_refl rf : same_election rf rf.
Proof. done. Qed.
End peer.

Create HintDb raft.
#[export] Hint Resolve election_step_refl same_election_step same_election_refl
  newGen_if_step newGen_step durable_persist durable_newGen durable_newGen_if : raft.

Section peer_ops.
Context {Cmd : Type} `{!GobType Cmd}.
Implicit Types (rf : Raft Cmd).

(** ** Operation by operation *)

Definition good_step rf rf' : Prop :=
  election_step rf rf' /\ (durable rf -> durable rf').

Lemma good_refl rf : good_step rf rf.
Proof. split; auto with raft. Qed.

(** An operation that leaves the persister and everything it stores alone. *)
Definition volatile rf1 rf2 : Prop :=
  same_election rf1 rf2 /\ persister rf2 = persister rf1 /\ persistent rf2 = persistent rf1.

Lemma good_volatile rf rf1 rf2 :
  good_step rf rf1 -> volatile rf1 rf2 -> good_step rf rf2.
Proof.
  intros [He Hd] (Hs & Hp & Hq); split; [by eapply election_step_same_r|].
  intros; eapply durable_ext; eauto.
Qed.

(** An operation that ends by persisting. *)
Lemma good_persist rf rf1 rf2 :
  good_step rf rf1 -> same_election rf1 rf2 -> good_step rf (persist rf2).
Proof.
  intros [He _] Hs; split; [|intros; apply durable_persist].
  by eapply election_step_same_r.
Qed.

Lemma good_newGen_if t rf : good_step rf (if t >? currentTerm rf then newGen t rf else rf).
Proof. split; auto with raft. Qed.

Lemma good_tick now rf : good_step rf (tick now rf).1.
Proof.
  unfold tick; case_if; [|apply good_refl]; simpl.
  split; [split; simpl; try done; lia|intros; apply durable_persist].
Qed.

Lemma good_tryVotingFor now c li lt rf rf1 rf' b :
  good_step rf rf1 -> tryVotingFor now c li lt rf1 = Some (rf', b) -> good_step rf rf'.
Proof.
  unfold tryVotingFor; intros [He Hd] H; inv_opt; case_if_in H; inv_opt; [|done].
  split; [|intros _; eapply durable_ext; [| |apply durable_persist]; done].
  destruct He as [G1 G2 G3 G4 G5 G6]; split; simpl; try done.
  intros Ht; destruct (G4 Ht); [by left|].
  repeat match goal with H : _ \/ _ |- _ => destruct H; zbool end; lia.
Qed.

Lemma good_RequestVote now args rf rf' reply :
  RequestVote now args rf = Some (rf', reply) -> good_step rf rf'.
Proof.
  unfold RequestVote; intros H.
  pose proof (good_newGen_if (rv_Term args) rf) as Hg; revert Hg H.
  generalize (if rv_Term args >? currentTerm rf then newGen (rv_Term args) rf else rf).
  intros rf1 Hg H; case_if_in H; inv_opt; [done|].
  destruct x as [rf2 g]; inv_opt; eauto using good_tryVotingFor.
Qed.

(** A reply to a vote request makes a leader of a candidate, in its term. *)
Lemma fine_opinionReply args reply n rf rf' n' sp :
  opinionReply args reply n rf = (rf', n', sp) ->
  vote_step rf rf' /\ (durable rf -> durable rf') /\ lastApplied rf <= lastApplied rf'.
Proof.
  unfold opinionReply; destruct (rvr_Term reply >? currentTerm rf) eqn:E; zbool.
  - simpl; rewrite andb_false_r; simpl; intros; inv_opt.
    split_and!; [split; simpl; try done; lia|auto with raft|simpl; lia].
  - intros H; assert (HF : vote_step rf rf /\ (durable rf -> durable rf) /\ lastApplied rf <= lastApplied rf)
      by (split_and!; [split; auto; lia|done|lia]).
    case_if_in H; [|by inv_opt]; case_if_in H; simpl in H; inv_opt; [|done].
    split_and!; [split; simpl; auto; lia|apply durable_ext; done|simpl; lia].
Qed.

Lemma volatile_refl rf : volatile rf rf.
Proof. done. Qed.

Lemma volatile_tryUpdateCommit c rf : volatile rf (tryUpdateCommit c rf).
Proof. unfold tryUpdateCommit; repeat case_if; done. Qed.

Lemma volatile_stepBack s t x l rf rf' : stepBack s t x l rf = Some rf' -> volatile rf rf'.
Proof. unfold stepBack; intros H; case_if_in H; [|inv_opt; case_if_in H]; inv_opt; done. Qed.

Lemma volatile_commitLoop fuel N rf rf' : commitLoop fuel N rf = Some rf' -> volatile rf rf'.
Proof.
  revert N; induction fuel as [|fuel IH]; simpl; intros N H; case_if_in H; inv_opt; try done.
  destruct x0; inv_opt; [done|eauto].
Qed.

Lemma good_reconcileEntries my your es rf rf1 rf' :
  good_step rf rf1 -> reconcileEntries my your es rf1 = Some rf' -> good_step rf rf'.
Proof.
  unfold reconcileEntries; intros Hg H; inv_opt; destruct x0; inv_opt.
  by apply (good_persist rf rf1).
Qed.

Lemma good_AppendEntries now args rf rf' reply :
  AppendEntries now args rf = Some (rf', reply) -> good_step rf rf'.
Proof.
  unfold AppendEntries; intros H.
  assert (Hg : good_step rf (observeLeader args rf)).
  { unfold observeLeader; case_if; [split; auto with raft|]. case_if; [|apply good_refl].
    split; [split; simpl; auto; try lia; done|apply durable_ext; done]. }
  revert Hg H; generalize (observeLeader args rf).
  intros rf1 Hg H; case_if_in H; [by inv_opt|].
  assert (Hg' : good_step rf (touched now rf1)) by (eapply good_volatile; done).
  revert Hg' H; generalize (touched now rf1); intros rf2 Hg2 H.
  repeat case_if_in H; inv_opt; try done; repeat case_if_in H; inv_opt; try done;
    try (eapply good_volatile; [|apply volatile_tryUpdateCommit]);
    eauto using good_reconcileEntries.
Qed.

Lemma good_singleAppendReply i args reply rf rf' retry :
  singleAppendReply i args reply rf = Some (rf', retry) -> good_step rf rf'.
Proof.
  destruct reply as [reply|]; simpl; intros H; inv_opt; [|apply good_refl].
  case_if_in H; [inv_opt; split; auto with raft|].
  case_if_in H; [inv_opt; apply good_refl|].
  case_if_in H; inv_opt; (eapply good_volatile; [apply good_refl|]).
  - eauto using volatile_stepBack.
  - match goal with H : updateCommitIndex _ = _ |- _ => apply volatile_commitLoop in H end.
    done.
Qed.

Lemma good_InstallSnapshot now args rf rf' reply msg :
  InstallSnapshot now args rf = Some (rf', reply, msg) -> good_step rf rf'.
Proof.
  unfold InstallSnapshot; intros H; case_if_in H; [inv_opt; apply good_refl|].
  pose proof (good_newGen_if (is_Term args) rf) as Hg; revert Hg H.
  generalize (if is_Term args >? currentTerm rf then newGen (is_Term args) rf else rf).
  intros rf1 Hg H; assert (Hg' : good_step rf (touched now rf1)) by (eapply good_volatile; done).
  revert Hg' H; generalize (touched now rf1); intros rf2 Hg2 H.
  case_if_in H; [by inv_opt|]; inv_opt.
  match goal with H : setSnap _ _ = _ |- _ => unfold setSnap in H; inv_opt end.
  match type of H with context [persist ?r] =>
    assert (Hg3 : good_step rf (persist r)) by (eapply good_persist; [exact Hg2|done]);
    revert Hg3 H; generalize (persist r) end.
  intros rf3 Hg3 H; case_if_in H; inv_opt; [|done].
  eapply good_volatile; [done|]; unfold volatile, same_election; simpl; split_and!; try done; lia.
Qed.

Lemma good_helpInstallReply i args reply rf rf' :
  helpInstallReply i args reply rf = Some rf' -> good_step rf rf'.
Proof.
  destruct reply as [reply|]; simpl; intros H; inv_opt; [|apply good_refl].
  case_if_in H; inv_opt; [split; auto with raft|].
  eapply good_volatile; [apply good_refl|done].
Qed.

Lemma good_Snapshot index snap rf rf' : Snapshot index snap rf = Some rf' -> good_step rf rf'.
Proof.
  unfold Snapshot; intros H; case_if_in H; inv_opt; [apply good_refl|].
  by eapply (good_persist rf rf); [apply good_refl|].
Qed.

Lemma good_Start c rf : good_step rf (Start c rf).1.
Proof.
  unfold Start; case_if; [apply good_refl|].
  by eapply (good_persist rf rf); [apply good_refl|].
Qed.

Lemma good_guardKick rf rf' msgs : guardKick rf = Some (rf', msgs) -> good_step rf rf'.
Proof.
  unfold guardKick; intros H; case_if_in H; inv_opt; simpl in *;
    (eapply good_volatile; [apply good_refl|]); [done|].
  unfold volatile, same_election; simpl; split_and!; try done; lia.
Qed.

Lemma good_fine rf rf' :
  good_step rf rf' -> vote_step rf rf' /\ (durable rf -> durable rf') /\ lastApplied rf <= lastApplied rf'.
Proof. intros [[] ?]; split_and!; [split|..]; done. Qed.

Lemma cs_fine rf rf' :
  cs rf rf' -> vote_step rf rf' /\ (durable rf -> durable rf') /\ lastApplied rf <= lastApplied rf'.
Proof.
  destruct 1; eauto using good_fine, good_tick, good_RequestVote, fine_opinionReply,
    good_AppendEntries, good_singleAppendReply, good_InstallSnapshot, good_helpInstallReply,
    good_Snapshot, good_Start, good_guardKick.
  apply good_fine; eapply good_volatile; [apply good_refl|done].
Qed.
End peer_ops.

Section life.
Context {Cmd : Type} `{!GobType Cmd}.
Implicit Types (rf : Raft Cmd).

(** ** Crashes

    A crash loses the peer and keeps its persister; a new process is built by
    [Make] on what the persister holds. *)

Definition restart (now : Z) rf : option (Raft Cmd) :=
  Make (peers rf) (me rf) (Copy (persister rf)) now.

Inductive lstep : Raft Cmd -> Raft Cmd -> Prop :=
| lstep_cs rf rf' : cs rf rf' -> lstep rf rf'
| lstep_crash now rf rf' : restart now rf = Some rf' -> lstep rf rf'.

(** The first start of a peer, on an empty persister. *)
Definition boot (n : nat) (i now : Z) : option (Raft Cmd) := Make n i MakePersister now.

Lemma boot_durable n i now rf : boot n i now = Some rf -> durable rf.
Proof. unfold boot, Make; simpl; intros; inv_opt; by right. Qed.

Lemma readPersist_persisted rf rf0 :
  readPersist (persistedState rf) rf0 =
  Some (set_snapshot (ReadSnapshot (persister rf0))
          (set_snapIndex (snapIndex rf)
            (set_log (log rf) (set_election (currentTerm rf) (state rf0) (votedFor rf) rf0)))).
Proof.
  unfold readPersist, persistedState, Encode; cbn [app].
  by repeat (rewrite Decode_cons; cbn [mbind option_bind]).
Qed.

Lemma restart_durable now rf :
  durable rf -> exists rf', restart now rf = Some rf'
    /\ persistent rf' = persistent rf /\ durable rf'
    /\ peers rf' = peers rf /\ me rf' = me rf
    /\ state rf' = Follower /\ commitIndex rf' = 0 /\ lastApplied rf' = 0.
Proof.
  unfold restart, Make, ReadRaftState, clone, Copy; intros [Hp|[Hp Hq]]; rewrite Hp.
  - unfold Save, clone; cbn [raftstate]; rewrite readPersist_persisted; eexists; split; [done|].
    split_and!; try done; left; done.
  - simpl; eexists; split; [done|]; injection Hq as Ht Hv Hl Hs Hn.
    split_and!; try done; [|by right]. unfold persistent; simpl; congruence.
Qed.

Lemma lstep_election rf rf' :
  durable rf -> lstep rf rf' ->
  durable rf' /\ currentTerm rf <= currentTerm rf'
  /\ (currentTerm rf' = currentTerm rf -> votedFor rf = -1 \/ votedFor rf' = votedFor rf).
Proof.
  intros Hd Hl; inversion Hl as [? ? Hcs|now ? ? Hr]; subst.
  - destruct (cs_fine _ _ Hcs) as ([] & ? & _); split_and!; auto.
  - destruct (restart_durable now _ Hd) as (rf'' & Hr' & Hq & ? & _).
    rewrite Hr in Hr'; inv_opt; injection Hq as ? ? ? ? ?.
    split_and!; [done|lia|intros; right; congruence].
Qed.

Lemma lsteps_election rf rf' :
  durable rf -> rtc lstep rf rf' ->
  durable rf' /\ currentTerm rf <= currentTerm rf'
  /\ (currentTerm rf' = currentTerm rf -> votedFor rf = -1 \/ votedFor rf' = votedFor rf).
Proof.
  intros Hd Hs; induction Hs as [rf|rf rf1 rf' H1 _ IH].
  - split_and!; [done|lia|by right].
  - destruct (lstep_election _ _ Hd H1) as (Hd1 & Ht1 & Hv1).
    destruct (IH Hd1) as (Hd2 & Ht2 & Hv2); split_and!; [done|lia|].
    intros; destruct Hv1, Hv2; try lia.
Qed.

(** C8: crash recovery. After any sequence of critical sections and crashes
    from the first boot, a crash at this point is recovered from: [Make] on
    the persister does not panic and rebuilds exactly the current term, the
    vote, the log, the snapshot and its index; the peer comes back as a
    follower with nothing committed or applied. *)
Theorem crash_recovery (n : nat) (i t0 now : Z) rf0 rf
    (Hboot : boot n i t0 = Some rf0) (Hrun : rtc lstep rf0 rf) :
  exists rf', restart now rf = Some rf'
    /\ persistent rf' = persistent rf
    /\ state rf' = Follower /\ commitIndex rf' = 0 /\ lastApplied rf' = 0.
Proof.
  destruct (lsteps_election _ _ (boot_durable _ _ _ _ Hboot) Hrun) as (Hd & _).
  destruct (restart_durable now _ Hd) as (rf' & ? & ? & _ & _ & _ & ? & ? & ?); eauto 10.
Qed.

(** C16: one vote per term. From any reachable state of a peer, however the
    peer continues (critical sections in any order, crashes and restarts
    included), its term never decreases, and within a term a vote that has
    been cast is never withdrawn nor changed. *)
Theorem vote_once (n : nat) (i t0 : Z) rf0 rf rf'
    (Hboot : boot n i t0 = Some rf0) (Hrun : rtc lstep rf0 rf) (Hmore : rtc lstep rf rf') :
  currentTerm rf <= currentTerm rf'
  /\ (currentTerm rf' = currentTerm rf -> votedFor rf <> -1 -> votedFor rf' = votedFor rf).
Proof.
  destruct (lsteps_election _ _ (boot_durable _ _ _ _ Hboot) Hrun) as (Hd & _).
  destruct (lsteps_election _ _ Hd Hmore) as (_ & ? & Hv).
  split; [done|]; intros Ht Hne; destruct (Hv Ht); congruence.
Qed.
End life.

(** ** Concrete lives *)

(** Peer 0 of 3 boots, and later stands for election in term 1. *)
Definition ex_booted : Raft Z := mkRaft 3 MakePersister 0 false false 0 Follower (-1) 0
  [mkEntry (-1) None] 0 0 [] [] 0 [].
Definition ex_candidate : Raft Z := (tick 1000 ex_booted).1.

(** A rival asks for its vote in the same term, and does not get it. *)
Definition ex_rival : RequestVoteArgs := mkRequestVoteArgs 1 2 0 (-1).

Lemma crash_recovery_witness :
  boot 3 0 0 = Some ex_booted /\ rtc lstep ex_booted ex_candidate
  /\ exists rf', restart 5 ex_candidate = Some rf' /\ persistent rf' = persistent ex_candidate
       /\ state rf' = Follower /\ commitIndex rf' = 0 /\ lastApplied rf' = 0.
Proof.
  assert (Hb : boot 3 0 0 = Some ex_booted) by reflexivity.
  assert (Hr : rtc lstep ex_booted ex_candidate)
    by (eapply rtc_once, lstep_cs, (cs_tick 1000)).
  split; [exact Hb|split; [exact Hr|]].
  exact (crash_recovery 3 0 0 5 ex_booted ex_candidate Hb Hr).
Defined.

Lemma vote_once_witness :
  exists rf', rtc lstep ex_candidate rf' /\ currentTerm ex_candidate <= currentTerm rf'
    /\ (currentTerm rf' = currentTerm ex_candidate -> votedFor ex_candidate <> -1 ->
        votedFor rf' = votedFor ex_candidate).
Proof.
  destruct (RequestVote 1001 ex_rival ex_candidate) as [[rf' reply]|] eqn:E;
    [|vm_compute in E; discriminate].
  assert (Hm : rtc lstep ex_candidate rf') by (eapply rtc_once, lstep_cs, cs_RequestVote, E).
  exists rf'; split; [exact Hm|].
  apply (vote_once 3 0 0 ex_booted ex_candidate rf'); [reflexivity| |exact Hm].
  eapply rtc_once, lstep_cs, (cs_tick 1000).
Defined.
