(* ===== verification/RaftLogFacts.v ===== *)
(** * Raft: correctness of log reconciliation

    [reconcileEntries] against a reference definition of the rule it
    implements ("if an existing entry conflicts with a new one, delete it and
    all that follow it; append any new entries not already in the log"), and
    the contract of the [AppendEntries] handler. *)

From S2P Require Import Prelude Gob RaftTypes RaftLog RaftElection RaftReplicate.

Section merge.
Context {Cmd : Type}.
Implicit Types (old new : list (Entry Cmd)) (e : Entry Cmd).

(** The first position at which both lists have an entry and the terms differ. *)
Fixpoint conflictAt old new : option nat :=
  match old, new with
  | a :: old', b :: new' =>
      if Term a =? Term b then S <$> conflictAt old' new' else Some 0%nat
  | _, _ => None
  end.

(** The reference rule. *)
Definition raftMerge old new : list (Entry Cmd) :=
  match conflictAt old new with
  | Some k => take k old ++ drop k new
  | None => old ++ drop (length old) new
  end.

Lemma raftMerge_nil_l new : raftMerge [] new = new.
Proof. unfold raftMerge; simpl; by rewrite drop_0. Qed.

Lemma raftMerge_nil_r old : raftMerge old [] = old.
Proof. unfold raftMerge; destruct old; simpl; by rewrite ?app_nil_r. Qed.

Lemma raftMerge_same a b old new :
  Term a = Term b -> raftMerge (a :: old) (b :: new) = a :: raftMerge old new.
Proof.
  intros H; unfold raftMerge; simpl; rewrite H, Z.eqb_refl.
  destruct (conflictAt old new); done.
Qed.

Lemma raftMerge_diff a b old new :
  Term a <> Term b -> raftMerge (a :: old) (b :: new) = b :: new.
Proof.
  intros H%Z.eqb_neq; unfold raftMerge; simpl; by rewrite H.
Qed.

(** Every statement about the rule goes by simultaneous induction on the two
    lists, a conflict ending it. *)
Lemma raftMerge_ind (P : list (Entry Cmd) -> list (Entry Cmd) -> list (Entry Cmd) -> Prop) :
  (forall new, P [] new new) -> (forall old, P old [] old) ->
  (forall a b old new, Term a = Term b -> P old new (raftMerge old new) ->
     P (a :: old) (b :: new) (a :: raftMerge old new)) ->
  (forall a b old new, Term a <> Term b -> P (a :: old) (b :: new) (b :: new)) ->
  forall old new, P old new (raftMerge old new).
Proof.
  intros H1 H2 H3 H4 old; induction old as [|a old IH]; intros new.
  - rewrite raftMerge_nil_l; apply H1.
  - destruct new as [|b new]; [rewrite raftMerge_nil_r; apply H2|].
    destruct (decide (Term a = Term b)).
    + rewrite raftMerge_same by done; auto.
    + rewrite raftMerge_diff by done; auto.
Qed.

Lemma raftMerge_terms old new :
  Term <$> take (length new) (raftMerge old new) = Term <$> new.
Proof.
  pattern old, new, (raftMerge old new); apply raftMerge_ind; clear; simpl; intros.
  - by rewrite firstn_all.
  - done.
  - by f_equal.
  - by rewrite firstn_all.
Qed.

Lemma raftMerge_length old new :
  (length new <= length (raftMerge old new) <= length old `max` length new)%nat.
Proof.
  pattern old, new, (raftMerge old new); apply raftMerge_ind; clear; simpl; intros; lia.
Qed.

Lemma raftMerge_no_conflict old new :
  conflictAt old new = None -> old `prefix_of` raftMerge old new.
Proof. unfold raftMerge; intros ->; by eexists. Qed.

Lemma raftMerge_prefix_known old new :
  (forall k a b, old !! k = Some a -> new !! k = Some b -> Term a = Term b -> a = b) ->
  new `prefix_of` raftMerge old new.
Proof.
  pattern old, new, (raftMerge old new); apply raftMerge_ind; clear; simpl; intros.
  - done.
  - apply prefix_nil.
  - rewrite (H1 0%nat a b) by done; apply prefix_cons, H0.
    intros k; apply (H1 (S k)).
  - done.
Qed.

(** Delivering the same entries again changes nothing. *)
Lemma raftMerge_idemp old new : raftMerge (raftMerge old new) new = raftMerge old new.
Proof.
  assert (Hself : forall l, raftMerge l l = l).
  { induction l; [done|]; rewrite raftMerge_same by done; congruence. }
  pattern old, new, (raftMerge old new); apply raftMerge_ind; clear -Hself; simpl; intros.
  - done.
  - apply raftMerge_nil_r.
  - rewrite raftMerge_same by done; congruence.
  - done.
Qed.
End merge.

Section logfacts.
Context {Cmd : Type} `{!GobType Cmd}.
Implicit Types (rf : Raft Cmd).

(** The slice holds at least the sentinel. *)
Definition wf_log rf : Prop := 1 <= len (log rf).

Lemma get_range rf i e : get rf i = Some e -> snapIndex rf <= i < logLength rf.
Proof. unfold get, logLength; intros ?%idx_Some_range; lia. Qed.

Lemma get_in_range rf i : snapIndex rf <= i < logLength rf -> exists e, get rf i = Some e.
Proof. unfold get, logLength; intros; apply idx_in_range; lia. Qed.

Lemma wf_log_last rf : wf_log rf -> exists e, get rf (logLength rf - 1) = Some e.
Proof. unfold wf_log; intros; apply get_in_range; unfold logLength; lia. Qed.

Lemma drop_idx {A} (l : list A) (i : Z) x :
  idx l i = Some x -> drop (Z.to_nat i) l = x :: drop (Z.to_nat (i + 1)) l.
Proof.
  intros H; pose proof (idx_Some_range _ _ _ H).
  replace (Z.to_nat (i + 1)) with (S (Z.to_nat i)) by lia.
  unfold idx in H; case_if_in H; [|done]. by apply drop_S.
Qed.

Lemma reconcileLoop_spec rest rf : forall myIdx,
  snapIndex rf <= myIdx <= logLength rf ->
  exists l r, reconcileLoop myIdx rest rf = Some (l, r)
    /\ l ++ r = take (Z.to_nat (myIdx - snapIndex rf)) (log rf)
                ++ raftMerge (drop (Z.to_nat (myIdx - snapIndex rf)) (log rf)) rest.
Proof.
  induction rest as [|e rest IH]; intros myIdx Hr; simpl.
  - exists (log rf), []; split; [done|].
    by rewrite raftMerge_nil_r, take_drop, app_nil_r.
  - case_if.
    + destruct (get_in_range rf myIdx ltac:(lia)) as [m Hm]; rewrite Hm; simpl.
      pose proof (drop_idx _ _ _ Hm) as Hd.
      case_if.
      * eexists _, _; split.
        -- rewrite slice_to_ok; [done|]. unfold logLength in *; lia.
        -- by rewrite Hd, raftMerge_diff.
      * destruct (IH (myIdx + 1) ltac:(lia)) as (l & r & -> & Hlr).
        exists l, r; split; [done|].
        rewrite Hlr, Hd, raftMerge_same by done.
        replace (myIdx + 1 - snapIndex rf) with (myIdx - snapIndex rf + 1) by lia.
        change (m :: ?x) with ([m] ++ x); rewrite app_assoc; f_equal.
        apply get_range in Hm as Hm'.
        replace (Z.to_nat (myIdx - snapIndex rf + 1)) with (S (Z.to_nat (myIdx - snapIndex rf))) by lia.
        apply take_S_r. unfold get, idx in Hm; by case_if_in Hm.
    + eexists _, _; split; [done|].
      rewrite take_ge, drop_ge, raftMerge_nil_l; [done| |];
        unfold logLength, len in *; lia.
Qed.

(** What the log is after [reconcileEntries]. *)
Lemma reconcile_merges myIdx yourIdx entries rf
    (Hmy : snapIndex rf <= myIdx <= logLength rf) (Hyour : 0 <= yourIdx <= len entries) :
  let k := Z.to_nat (myIdx - snapIndex rf) in
  reconcileEntries myIdx yourIdx entries rf =
  Some (persist (bEffortKick (set_log
         (take k (log rf) ++ raftMerge (drop k (log rf)) (drop (Z.to_nat yourIdx) entries)) rf))).
Proof.
  intros k; unfold reconcileEntries.
  rewrite slice_from_ok by done; simpl.
  destruct (reconcileLoop_spec (drop (Z.to_nat yourIdx) entries) rf myIdx Hmy)
    as (l & r & -> & Hlr); simpl.
  unfold batchAppend; simpl; subst k; by rewrite <- Hlr.
Qed.

(** C15: log reconciliation is the reference rule. Started at an index of the
    log, [reconcileEntries] never panics; the part of the log before that
    index is kept, what follows it is merged with the incoming entries by
    the rule "truncate at the first conflict, then append what is missing",
    and the new log is on disk. *)
Theorem reconcileEntries_raftMerge myIdx yourIdx entries rf
    (Hmy : snapIndex rf <= myIdx <= logLength rf) (Hyour : 0 <= yourIdx <= len entries) :
  let k := Z.to_nat (myIdx - snapIndex rf) in
  reconcileEntries myIdx yourIdx entries rf =
  Some (persist (bEffortKick (set_log
         (take k (log rf) ++ raftMerge (drop k (log rf)) (drop (Z.to_nat yourIdx) entries)) rf))).
Proof. by apply reconcile_merges. Qed.
End logfacts.

Section appendfacts.
Context {Cmd : Type} `{!GobType Cmd}.
Implicit Types (rf : Raft Cmd) (args : AppendEntriesArgs Cmd).

Lemma raftMerge_idx (old new : list (Entry Cmd)) k e :
  idx new k = Some e -> exists e', idx (raftMerge old new) k = Some e' /\ Term e' = Term e.
Proof.
  intros H; pose proof (idx_Some_range _ _ _ H) as Hk.
  assert (Ht : Term <$> idx (raftMerge old new) k = Some (Term e)).
  { rewrite <- (idx_take _ (length new)) by (unfold len in *; lia).
    rewrite <- idx_fmap, raftMerge_terms, idx_fmap, H; done. }
  apply fmap_Some in Ht as (e' & ? & ?); eauto.
Qed.

(** What [reconcileEntries] leaves behind, in terms of [get]. *)
Lemma reconcileEntries_get myIdx yourIdx entries rf :
  snapIndex rf <= myIdx <= logLength rf -> 0 <= yourIdx <= len entries ->
  exists rf', reconcileEntries myIdx yourIdx entries rf = Some rf'
    /\ currentTerm rf' = currentTerm rf /\ snapIndex rf' = snapIndex rf
    /\ commitIndex rf' = commitIndex rf /\ lastApplied rf' = lastApplied rf
    /\ myIdx + (len entries - yourIdx) <= logLength rf'
    /\ (forall i, i < myIdx -> get rf' i = get rf i)
    /\ (forall k e, yourIdx <= k -> idx entries k = Some e ->
          exists e', get rf' (myIdx + (k - yourIdx)) = Some e' /\ Term e' = Term e).
Proof.
  intros Hmy Hyour; eexists; split; [by apply reconcile_merges|].
  set (k0 := Z.to_nat (myIdx - snapIndex rf)).
  assert (Hk0 : Z.of_nat k0 = myIdx - snapIndex rf) by (unfold k0; lia).
  assert (Hlen : len (take k0 (log rf)) = myIdx - snapIndex rf).
  { rewrite len_take; unfold logLength in *; lia. }
  split_and!; try done.
  - unfold logLength at 1; simpl.
    pose proof (raftMerge_length (drop k0 (log rf)) (drop (Z.to_nat yourIdx) entries)) as HL.
    rewrite len_app, Hlen; unfold len; rewrite length_drop in HL; unfold len in Hyour; lia.
  - intros i Hi; unfold get; simpl.
    rewrite idx_app_l by lia; apply idx_take; lia.
  - intros k e Hk He; unfold get; simpl; rewrite idx_app_r by lia; rewrite Hlen.
    replace (_ - _) with (k - yourIdx) by lia.
    apply raftMerge_idx; rewrite idx_drop by lia; rewrite <- He; f_equal; lia.
Qed.

Lemma tryUpdateCommit_log c rf :
  log (tryUpdateCommit c rf) = log rf /\ snapIndex (tryUpdateCommit c rf) = snapIndex rf
  /\ currentTerm (tryUpdateCommit c rf) = currentTerm rf.
Proof. unfold tryUpdateCommit; repeat case_if; done. Qed.

Lemma observeLeader_log args rf :
  log (observeLeader args rf) = log rf /\ snapIndex (observeLeader args rf) = snapIndex rf
  /\ commitIndex (observeLeader args rf) = commitIndex rf
  /\ lastApplied (observeLeader args rf) = lastApplied rf
  /\ currentTerm (observeLeader args rf) = Z.max (currentTerm rf) (ae_Term args).
Proof. unfold observeLeader; repeat case_if; simpl; split_and!; try done; lia. Qed.

(** The conflict search finds the first index of the run of [xTerm] that ends
    at [x], without leaving the log. *)
Lemma xIndexLoop_spec fuel xTerm rf : forall x,
  snapIndex rf < x <= logLength rf -> (Z.to_nat (x - snapIndex rf - 1) <= fuel)%nat ->
  exists x', xIndexLoop fuel xTerm x rf = Some x'
    /\ snapIndex rf < x' <= x
    /\ (forall i, x' <= i < x -> Term <$> get rf i = Some xTerm)
    /\ (x' = snapIndex rf + 1 \/ exists e, get rf (x' - 1) = Some e /\ Term e <> xTerm).
Proof.
  induction fuel as [|fuel IH]; intros x Hx Hf; simpl; case_if; try lia.
  - exists x; split_and!; [done|lia|lia|lia|left; lia].
  - destruct (get_in_range rf (x - 1) ltac:(lia)) as [e He]; rewrite He; simpl; case_if.
    + destruct (IH (x - 1) ltac:(lia) ltac:(lia)) as (x' & -> & ? & Hrun & Hend).
      exists x'; split_and!; [done|lia|lia| |done].
      intros i Hi; destruct (decide (i = x - 1)) as [->|]; [by rewrite He; simpl; f_equal|].
      apply Hrun; lia.
    + exists x; split_and!; [done|lia|lia|lia|right; eauto].
  - exists x; split_and!; [done|lia|lia|lia|left; lia].
Qed.
End appendfacts.

Section contract.
Context {Cmd : Type} `{!GobType Cmd}.
Implicit Types (rf : Raft Cmd) (args : AppendEntriesArgs Cmd).

(** The consistency check of the paper: the follower's log covers
    [PrevLogIndex], by its snapshot or by an entry of the right term. *)
Definition matchesPrev args rf : Prop :=
  PrevLogIndex args <= snapIndex rf
  \/ exists p, get rf (PrevLogIndex args) = Some p /\ Term p = PrevLogTerm args.

Lemma get_ext rf rf' i : log rf' = log rf -> snapIndex rf' = snapIndex rf -> get rf' i = get rf i.
Proof. unfold get; by intros -> ->. Qed.

Lemma logLength_ext rf rf' :
  log rf' = log rf -> snapIndex rf' = snapIndex rf -> logLength rf' = logLength rf.
Proof. unfold logLength; by intros -> ->. Qed.

(** The two branches that accept the entries. *)
Definition accepted args rf rf' : Prop :=
  (forall i, i <= PrevLogIndex args -> get rf' i = get rf i)
  /\ (forall k e, idx (Entries args) k = Some e -> snapIndex rf < PrevLogIndex args + 1 + k ->
        exists e', get rf' (PrevLogIndex args + 1 + k) = Some e' /\ Term e' = Term e)
  /\ PrevLogIndex args + len (Entries args) < logLength rf'.

Lemma accept_reconciled args rf my your :
  snapIndex rf <= my <= logLength rf -> 0 <= your <= len (Entries args) ->
  my - your = PrevLogIndex args + 1 -> (your = 0 \/ my = snapIndex rf + 1) ->
  exists rf', reconcileEntries my your (Entries args) rf = Some rf'
    /\ currentTerm rf' = currentTerm rf /\ snapIndex rf' = snapIndex rf
    /\ commitIndex rf' = commitIndex rf /\ lastApplied rf' = lastApplied rf
    /\ accepted args rf rf'.
Proof.
  intros Hmy Hyour Heq Hor.
  destruct (reconcileEntries_get my your (Entries args) rf Hmy Hyour)
    as (rf' & HR & HT & HS & HC & HA & HL & Hold & Hnew).
  exists rf'; split_and!; try done; split_and!.
  - intros i Hi; apply Hold; lia.
  - intros k e He Hk; pose proof (idx_Some_range _ _ _ He).
    destruct (Hnew k e ltac:(lia) He) as (e' & Hg & Ht); exists e'; split; [|done].
    rewrite <- Hg; f_equal; lia.
  - lia.
Qed.

Lemma accepted_commit args rf rf' c : accepted args rf rf' -> accepted args rf (tryUpdateCommit c rf').
Proof.
  destruct (tryUpdateCommit_log c rf') as (Hl & Hs & _); intros (H1 & H2 & H3).
  split_and!.
  - intros; rewrite (get_ext rf') by done; auto.
  - intros; rewrite (get_ext rf') by done; auto.
  - by rewrite (logLength_ext rf').
Qed.

(** The reply of the rejecting branches: what the leader needs to back up. *)
Definition conflictInfo args rf reply : Prop :=
  (logLength rf <= PrevLogIndex args /\ XTerm reply = -1 /\ XLen reply = logLength rf)
  \/ (exists p, get rf (PrevLogIndex args) = Some p /\ Term p <> PrevLogTerm args
        /\ XTerm reply = Term p /\ snapIndex rf < XIndex reply <= PrevLogIndex args
        /\ (forall i, XIndex reply <= i <= PrevLogIndex args -> Term <$> get rf i = Some (Term p))
        /\ (XIndex reply = snapIndex rf + 1
            \/ exists e, get rf (XIndex reply - 1) = Some e /\ Term e <> Term p)).

Definition append_outcome args rf rf' reply : Prop :=
  currentTerm rf' = Z.max (currentTerm rf) (ae_Term args)
  /\ aer_Term reply = currentTerm rf' /\ snapIndex rf' = snapIndex rf
  /\ (Success reply = true <-> currentTerm rf <= ae_Term args /\ matchesPrev args rf)
  /\ (Success reply = true -> accepted args rf rf'
        /\ commitIndex rf' = if LeaderCommit args >? commitIndex rf
                             then goMin (LeaderCommit args) (logLength rf' - 1)
                             else commitIndex rf)
  /\ (Success reply = false ->
        log rf' = log rf /\ commitIndex rf' = commitIndex rf
        /\ (ae_Term args < currentTerm rf \/ conflictInfo args rf reply)).

(** After the term rules: the request is not stale, nothing but the election
    fields and the clock has changed. *)
Definition observed args rf rf2 : Prop :=
  log rf2 = log rf /\ snapIndex rf2 = snapIndex rf /\ commitIndex rf2 = commitIndex rf
  /\ currentTerm rf2 = Z.max (currentTerm rf) (ae_Term args)
  /\ currentTerm rf <= ae_Term args.

Lemma outcome_accept args rf rf2 rf3 c :
  observed args rf rf2 -> matchesPrev args rf -> accepted args rf2 rf3 ->
  currentTerm rf3 = currentTerm rf2 -> snapIndex rf3 = snapIndex rf2 ->
  commitIndex rf3 = commitIndex rf2 -> c = LeaderCommit args ->
  append_outcome args rf (tryUpdateCommit c rf3)
    (mkAppendEntriesReply (currentTerm rf2) true 0 0 0).
Proof.
  intros (Hl & Hs & Hc & Ht & Hle) Hm (H1 & H2 & H3) Ht3 Hs3 Hc3 ->.
  destruct (tryUpdateCommit_log (LeaderCommit args) rf3) as (? & ? & ?).
  split_and!; try (simpl; congruence); [done|]; intros _; split.
  - apply accepted_commit; split_and!; [|by rewrite <- Hs|done].
    intros; rewrite H1 by done; by apply get_ext.
  - rewrite (logLength_ext rf3) by done; unfold tryUpdateCommit.
    rewrite Hc3, Hc; case_if; [case_if|]; simpl; congruence.
Qed.

Lemma outcome_reject args rf rf2 reply :
  observed args rf rf2 -> ~ matchesPrev args rf -> conflictInfo args rf reply ->
  Success reply = false -> aer_Term reply = currentTerm rf2 ->
  append_outcome args rf rf2 reply.
Proof.
  intros (Hl & Hs & Hc & Ht & Hle) Hm Hi Hf Hr; split_and!; try congruence.
  - rewrite Hf; split; [done|]; by intros [].
  - intros _; split_and!; auto.
Qed.

(** [PrevLogIndex] inside the snapshot. *)
Lemma append_in_snapshot args rf rf2 :
  observed args rf rf2 -> wf_log rf -> PrevLogIndex args <= snapIndex rf2 ->
  snapIndex rf2 - PrevLogIndex args < len (Entries args) ->
  exists rf3, reconcileEntries (snapIndex rf2 + 1) (snapIndex rf2 - PrevLogIndex args)
                (Entries args) rf2 = Some rf3
    /\ append_outcome args rf (tryUpdateCommit (LeaderCommit args) rf3)
         (mkAppendEntriesReply (currentTerm rf2) true 0 0 0).
Proof.
  intros Ho Hwf Hp Hlen.
  destruct (accept_reconciled args rf2 (snapIndex rf2 + 1) (snapIndex rf2 - PrevLogIndex args))
    as (rf3 & HR & ? & ? & ? & ? & ?); [|lia|lia|by right|].
  { destruct Ho as (Hl & Hs & _); unfold wf_log, logLength in *; rewrite Hl; lia. }
  exists rf3; split; [done|]; apply outcome_accept; try done.
  left; destruct Ho as (_ & <- & _); lia.
Qed.

(** [PrevLogIndex] in the log, with another term. *)
Lemma append_conflict args rf rf2 p :
  observed args rf rf2 -> snapIndex rf2 < PrevLogIndex args < logLength rf2 ->
  get rf2 (PrevLogIndex args) = Some p -> Term p <> PrevLogTerm args ->
  exists x, xIndexLoop (Z.to_nat (PrevLogIndex args - snapIndex rf2)) (Term p)
              (PrevLogIndex args) rf2 = Some x
    /\ append_outcome args rf rf2 (mkAppendEntriesReply (currentTerm rf2) false (Term p) x (-1)).
Proof.
  intros Ho Hr Hp Hne.
  assert (Hget : forall i, get rf2 i = get rf i) by (intros; apply get_ext; apply Ho).
  destruct (xIndexLoop_spec (Z.to_nat (PrevLogIndex args - snapIndex rf2)) (Term p) rf2
              (PrevLogIndex args) ltac:(lia) ltac:(lia)) as (x & HX & Hx & Hrun & Hend).
  exists x; split; [done|]; pose proof Ho as (_ & Hs & _).
  apply outcome_reject; try done.
  - intros [|(p' & Hp' & ?)]; [lia|]. rewrite <- Hget in Hp'; congruence.
  - right; exists p; simpl; rewrite <- !Hget, <- Hs; split_and!; try done; try lia.
    intros i Hi; rewrite <- Hget; destruct (decide (i = PrevLogIndex args)) as [->|].
    + by rewrite Hp.
    + apply Hrun; lia.
Qed.

(** The handler returns, with one of the outcomes. *)
Lemma AppendEntries_outcome now args rf (Hwf : wf_log rf) :
  exists rf' reply, AppendEntries now args rf = Some (rf', reply)
                    /\ append_outcome args rf rf' reply.
Proof.
  unfold AppendEntries.
  destruct (observeLeader_log args rf) as (Hl & Hs & Hc & _ & Ht).
  revert Hl Hs Hc Ht; generalize (observeLeader args rf); intros rf1 Hl Hs Hc Ht.
  case_if.
  { eexists _, _; split; [done|]; split_and!; simpl; try done.
    - split; [done|]; intros []; lia.
    - intros _; split_and!; [done|done|left; lia]. }
  assert (Ho : observed args rf (touched now rf1)) by (split_and!; simpl; try done; lia).
  revert Ho; generalize (touched now rf1); clear Hl Hs Hc Ht; intros rf2 Ho.
  pose proof Ho as (Hl & Hs & _); pose proof (len_nonneg (Entries args)).
  case_if; [case_if|case_if].
  - eexists _, _; split; [done|]; apply outcome_accept; try done; [left; lia|].
    split_and!; [done| |unfold wf_log, logLength in *; rewrite Hl; lia].
    intros k e He; apply idx_Some_range in He; lia.
  - destruct (append_in_snapshot args rf rf2) as (rf3 & -> & ?); [done|done|lia|lia|].
    simpl; eauto.
  - eexists _, _; split; [done|]; apply outcome_reject; try done.
    + rewrite (logLength_ext rf rf2) in * by done.
      intros [|(p & Hp%get_range & _)]; lia.
    + left; simpl; rewrite (logLength_ext rf rf2) in * by done; split_and!; [lia|done|done].
  - destruct (get_in_range rf2 (PrevLogIndex args) ltac:(lia)) as [p Hp]; rewrite Hp; simpl.
    case_if.
    + destruct (append_conflict args rf rf2 p) as (x & -> & ?); [done|lia|done|done|].
      simpl; eauto.
    + destruct (accept_reconciled args rf2 (PrevLogIndex args + 1) 0)
        as (rf3 & -> & HT & ? & ? & ? & ?); [lia|lia|lia|by left|].
      simpl; eexists _, _; split; [done|].
      destruct (tryUpdateCommit_log (LeaderCommit args) rf3) as (_ & _ & ->); rewrite HT.
      apply outcome_accept; try done.
      right; exists p; by rewrite <- (get_ext rf rf2).
Qed.

(** C14: the AppendEntries contract. On any arguments the handler returns
    (no index is out of range); it adopts the larger term and reports it. It
    accepts exactly when the request is not from a stale term and the log
    matches at [PrevLogIndex]; then every incoming entry that is not covered
    by the snapshot is in the log, term for term, and everything up to
    [PrevLogIndex] is untouched, and the commit index only moves
    up to what the leader reports and the log holds. When it rejects, the log and the commit
    index are unchanged, and unless the term was stale the reply carries the
    length of a too short log, or the conflicting term with the first index
    of its run. *)
Theorem AppendEntries_contract now args rf (Hwf : wf_log rf) :
  exists rf' reply, AppendEntries now args rf = Some (rf', reply)
                    /\ append_outcome args rf rf' reply.
Proof. by apply AppendEntries_outcome. Qed.
End contract.

(** ** Concrete requests *)

(** A follower with entries of terms 1 1 2, and a leader of term 3 whose log
    reads 1 1 3 3. *)
Definition ex_follower : Raft Z := mkRaft 3 MakePersister 1 false false 2 Follower (-1) 0
  [mkEntry (-1) None; mkEntry 1 (Some 10); mkEntry 1 (Some 11); mkEntry 2 (Some 12)] 0 0 [] [] 0 [].
Definition ex_append : AppendEntriesArgs Z :=
  mkAppendEntriesArgs 3 0 2 1 [mkEntry 3 (Some 20); mkEntry 3 (Some 21)] 2.

Lemma reconcileEntries_raftMerge_witness :
  snapIndex ex_follower <= 3 <= logLength ex_follower
  /\ reconcileEntries 3 0 (Entries ex_append) ex_follower =
     Some (persist (bEffortKick (set_log
       [mkEntry (-1) None; mkEntry 1 (Some 10); mkEntry 1 (Some 11);
        mkEntry 3 (Some 20); mkEntry 3 (Some 21)] ex_follower))).
Proof.
  assert (H : snapIndex ex_follower <= 3 <= logLength ex_follower) by (vm_compute; split; discriminate).
  split; [exact H|].
  rewrite (reconcileEntries_raftMerge 3 0 (Entries ex_append) ex_follower H);
    [reflexivity|vm_compute; split; discriminate].
Defined.

Lemma AppendEntries_contract_witness :
  wf_log ex_follower
  /\ exists rf' reply, AppendEntries 7 ex_append ex_follower = Some (rf', reply)
                       /\ append_outcome ex_append ex_follower rf' reply.
Proof.
  assert (H : wf_log ex_follower) by (vm_compute; discriminate).
  split; [exact H|exact (AppendEntries_contract 7 ex_append ex_follower H)].
Defined.
