(* ===== verification/RaftCommit.v ===== *)
(** * Raft: advancing the commit index, and fast backup

    The commit rules of leader ([updateCommitIndex]) and follower
    ([tryUpdateCommit]), and the retry loop of [replicator]: the
    XTerm/XIndex/XLen exchange of [AppendEntries] and [stepBack] converges. *)

From S2P Require Import Prelude Gob RaftTypes RaftLog RaftElection RaftReplicate RaftLogFacts.

Section commit.
Context {Cmd : Type} `{!GobType Cmd}.
Implicit Types (rf L F : Raft Cmd) (args : AppendEntriesArgs Cmd).

(** The peers the leader knows to hold entry [N]. *)
Definition holds (N : Z) rf (i : Z) : bool :=
  (i =? me rf) || match idx (matchIndex rf) i with Some m => m >=? N | None => false end.

Definition holders (N : Z) rf : list Z := filter (holds N rf) (seqZ 0 (Z.of_nat (peers rf))).

(** The rule of the paper: a majority holds [N], which is of the current term. *)
Definition committable (N : Z) rf : Prop :=
  commitIndex rf < N /\ snapIndex rf < N < logLength rf
  /\ (peers rf / 2 < length (holders N rf))%nat
  /\ exists e, get rf N = Some e /\ Term e = currentTerm rf.

Lemma replicaCount_filter N rf ids :
  (forall i, i ∈ ids -> 0 <= i < len (matchIndex rf)) ->
  replicaCount N ids rf = Some (length (filter (holds N rf) ids)).
Proof.
  induction ids as [|i ids IH]; intros Hr; [done|]; simpl.
  rewrite IH by (intros j Hj; apply Hr; set_solver); simpl.
  rewrite filter_cons.
  assert (Hh : holds N rf i = (i =? me rf)
    || match idx (matchIndex rf) i with Some m => m >=? N | None => false end) by done.
  destruct (i =? me rf) eqn:E; simpl in *; [by rewrite Hh|].
  destruct (idx_in_range (matchIndex rf) i) as [m Hm]; [apply Hr; set_solver|].
  rewrite Hm in *; rewrite Hh; simpl; by destruct (m >=? N).
Qed.

Lemma holders_count N rf :
  len (matchIndex rf) = Z.of_nat (peers rf) ->
  replicaCount N (seqZ 0 (Z.of_nat (peers rf))) rf = Some (length (holders N rf)).
Proof.
  intros Hlen; apply replicaCount_filter.
  intros i Hi%elem_of_seqZ; lia.
Qed.

Definition commit_result rf rf' N0 : Prop :=
  (rf' = rf /\ forall N, N <= N0 -> ~ committable N rf)
  \/ (rf' = bEffortKick (set_commitIndex (commitIndex rf') rf)
      /\ committable (commitIndex rf') rf
      /\ forall N, N <= N0 -> committable N rf -> N <= commitIndex rf').

Lemma commitLoop_max rf fuel : forall N0,
  len (matchIndex rf) = Z.of_nat (peers rf) -> N0 < logLength rf ->
  (Z.to_nat (N0 - snapIndex rf) <= fuel)%nat ->
  exists rf', commitLoop fuel N0 rf = Some rf' /\ commit_result rf rf' N0.
Proof.
  induction fuel as [|fuel IH]; intros N0 Hlen HN Hf; cbn [commitLoop].
  all: destruct ((N0 >? commitIndex rf) && (N0 >? snapIndex rf)) eqn:E;
    [zbool|exists rf; split; [done|left; split; [done|]];
           intros N HN0 (? & ? & _); zbool; destruct E; zbool; lia].
  { lia. }
  rewrite holders_count by done; cbn [mbind option_bind].
  destruct (get_in_range rf N0 ltac:(lia)) as [e He].
  destruct (IH (N0 - 1) Hlen ltac:(lia) ltac:(lia)) as (rf2 & HL & Hres).
  assert (Hskip : ~ committable N0 rf -> commit_result rf rf2 N0).
  { intros Hno; destruct Hres as [[-> Hn]|(? & ? & Hn)]; [left|right]; split_and!; try done.
    - intros N Hle; destruct (decide (N = N0)) as [->|]; [done|apply Hn; lia].
    - intros N Hle Hc; destruct (decide (N = N0)) as [->|]; [done|apply Hn; [lia|done]]. }
  destruct (peers rf / 2 <? length (holders N0 rf))%nat eqn:Emaj; simpl.
  - apply Nat.ltb_lt in Emaj; rewrite He; simpl; case_if.
    + eexists; split; [done|right]; simpl; split_and!; [done| |lia].
      unfold committable; eauto 10.
    + exists rf2; split; [done|]; apply Hskip; intros (_ & _ & _ & e' & He' & ?); congruence.
  - apply Nat.ltb_ge in Emaj; exists rf2; split; [done|].
    apply Hskip; intros (_ & _ & ? & _); lia.
Qed.

(** [updateCommitIndex] returns, with the largest committable index. *)
Lemma updateCommitIndex_result rf
    (Hwf : wf_log rf) (Hlen : len (matchIndex rf) = Z.of_nat (peers rf)) :
  exists rf', updateCommitIndex rf = Some rf'
    /\ ((rf' = rf /\ forall N, ~ committable N rf)
        \/ (rf' = bEffortKick (set_commitIndex (commitIndex rf') rf)
            /\ committable (commitIndex rf') rf
            /\ forall N, committable N rf -> N <= commitIndex rf')).
Proof.
  destruct (commitLoop_max rf (Z.to_nat (logLength rf - snapIndex rf)) (logLength rf - 1))
    as (rf' & HR & [[-> Hn]|(? & ? & Hn)]); [done|lia|lia| |]; (eexists; split; [exact HR|]).
  - left; split; [done|]; intros N Hc; apply (Hn N); [|done].
    destruct Hc as (_ & ? & _); lia.
  - right; split_and!; try done; intros N Hc; apply Hn; [|done].
    destruct Hc as (_ & ? & _); lia.
Qed.

(** C17: the leader's commit rule. On a leader whose [matchIndex] has one
    slot per peer, [updateCommitIndex] returns, changes nothing but the
    commit index (and the wake-up token), and moves it exactly to the largest
    committable index: above the old commit index, held by a majority, of
    the current term; when there is none the peer is unchanged. *)
Theorem updateCommitIndex_max rf
    (Hwf : wf_log rf) (Hlen : len (matchIndex rf) = Z.of_nat (peers rf)) :
  exists rf', updateCommitIndex rf = Some rf'
    /\ ((rf' = rf /\ forall N, ~ committable N rf)
        \/ (rf' = bEffortKick (set_commitIndex (commitIndex rf') rf)
            /\ committable (commitIndex rf') rf
            /\ forall N, committable N rf -> N <= commitIndex rf')).
Proof. by apply updateCommitIndex_result. Qed.

(** What a leader sends reaches exactly to the end of its log. *)
Lemma singleAppendSend_suffix i L args :
  singleAppendSend i L = Some (SendAppend args) ->
  state L = Leader /\ ae_Term args = currentTerm L /\ LeaderCommit args = commitIndex L
  /\ idx (nextIndex L) i = Some (PrevLogIndex args + 1)
  /\ snapIndex L <= PrevLogIndex args
  /\ PrevLogIndex args + len (Entries args) = logLength L - 1
  /\ (exists p, get L (PrevLogIndex args) = Some p /\ PrevLogTerm args = Term p)
  /\ (forall k, 0 <= k -> idx (Entries args) k = get L (PrevLogIndex args + 1 + k)).
Proof.
  unfold singleAppendSend; intros H; case_if_in H; [done|]; inv_opt.
  case_if_in H; [done|]; inv_opt; unfold entriesFrom in *; simpl.
  match goal with Hs : slice_from _ _ = _ |- _ => apply slice_from_Some in Hs as [Hr ->] end.
  split_and!; try done; try lia.
  - match goal with Hi : idx _ i = Some _ |- _ => rewrite Hi end; f_equal; lia.
  - rewrite len_drop; unfold logLength in *; lia.
  - eauto.
  - intros k Hk; unfold get; rewrite idx_drop by done; f_equal; lia.
Qed.

(** The follower's commit rule. For a request built by a leader whose
    commit index is inside its log, the follower that accepts it sets its
    commit index by the rule of the paper, min(leaderCommit, index of the last
    new entry), although [tryUpdateCommit] takes the minimum with the end of
    the whole local log: the entries of a request always reach the end of the
    leader's log. *)
Theorem follower_commit_rule now i L F F' args reply
    (HwF : wf_log F) (HcL : commitIndex L < logLength L)
    (Hsend : singleAppendSend i L = Some (SendAppend args))
    (Hrecv : AppendEntries now args F = Some (F', reply)) (Hok : Success reply = true) :
  commitIndex F' =
  Z.max (commitIndex F) (Z.min (LeaderCommit args) (PrevLogIndex args + len (Entries args))).
Proof.
  destruct (singleAppendSend_suffix _ _ _ Hsend) as (_ & _ & HLC & _ & _ & Hend & _).
  destruct (AppendEntries_outcome now args F HwF) as (F2 & reply2 & HR & HO).
  rewrite Hrecv in HR; inv_opt.
  destruct HO as (_ & _ & _ & _ & Hacc & _); destruct (Hacc Hok) as ((_ & _ & Hlong) & ->).
  unfold goMin; repeat case_if; lia.
Qed.
End commit.

(** ** A concrete leader *)

(** Leader 0 of term 2 with entries of terms 1 2 2; peer 1 holds everything,
    peer 2 nothing. *)
Definition ex_leader : Raft Z := mkRaft 3 MakePersister 0 false false 2 Leader 0 0
  [mkEntry (-1) None; mkEntry 1 (Some 10); mkEntry 2 (Some 20); mkEntry 2 (Some 21)]
  1 1 [-1; 4; 3] [-1; 3; 0] 0 [].
Definition ex_lagging : Raft Z := mkRaft 3 MakePersister 2 false false 1 Follower (-1) 0
  [mkEntry (-1) None; mkEntry 1 (Some 10); mkEntry 2 (Some 20); mkEntry 2 (Some 21);
   mkEntry 2 (Some 22)] 0 0 [] [] 0 [].

Lemma updateCommitIndex_max_witness :
  wf_log ex_leader /\ len (matchIndex ex_leader) = Z.of_nat (peers ex_leader)
  /\ exists rf', updateCommitIndex ex_leader = Some rf' /\ commitIndex rf' = 3
       /\ committable 3 ex_leader.
Proof.
  assert (H1 : wf_log ex_leader) by (vm_compute; discriminate).
  assert (H2 : len (matchIndex ex_leader) = Z.of_nat (peers ex_leader)) by reflexivity.
  split; [exact H1|split; [exact H2|]].
  destruct (updateCommitIndex_max ex_leader H1 H2) as (rf' & HU & Hres).
  exists rf'; split; [exact HU|].
  assert (Hc : commitIndex rf' = 3) by (vm_compute in HU; injection HU as <-; reflexivity).
  split; [exact Hc|].
  destruct Hres as [(-> & _)|(_ & Hcm & _)]; [discriminate Hc|rewrite Hc in Hcm; exact Hcm].
Defined.

Lemma follower_commit_rule_witness :
  exists args F' reply, singleAppendSend 2 ex_leader = Some (SendAppend args)
    /\ AppendEntries 7 args ex_lagging = Some (F', reply) /\ Success reply = true
    /\ commitIndex F' = Z.max 0 (Z.min 1 (PrevLogIndex args + len (Entries args))).
Proof.
  destruct (singleAppendSend 2 ex_leader) as [[| |args]|] eqn:ES; try (vm_compute in ES; discriminate).
  destruct (AppendEntries 7 args ex_lagging) as [[F' reply]|] eqn:EA;
    [|vm_compute in ES; injection ES as <-; vm_compute in EA; discriminate].
  assert (HS : Success reply = true)
    by (vm_compute in ES; injection ES as <-; vm_compute in EA; injection EA as _ <-; reflexivity).
  assert (HL : LeaderCommit args = 1)
    by (vm_compute in ES; injection ES as <-; reflexivity).
  exists args, F', reply; split; [reflexivity|split; [exact EA|split; [exact HS|]]].
  rewrite <- HL.
  apply (follower_commit_rule 7 2 ex_leader ex_lagging F' args reply);
    [vm_compute; discriminate|reflexivity|exact ES|exact EA|exact HS].
Defined.
