(* ===== verification/RaftBackup.v ===== *)
(** * Raft: the retry loop of a replicator converges

    [replicator] repeats [singleAppend] while it asks for a retry. Against a
    follower that answers, every rejected request moves [nextIndex] strictly
    back, so the loop ends within [nextIndex - snapIndex] requests: either the
    follower holds the leader's log, or it is behind the leader's snapshot and
    [helpInstall] takes over. *)

From S2P Require Import Prelude Gob RaftTypes RaftLog RaftElection RaftReplicate RaftLogFacts.
From S2P Require Import RaftCommit.

Section backup.
Context {Cmd : Type} `{!GobType Cmd}.
Implicit Types (rf L F : Raft Cmd) (args : AppendEntriesArgs Cmd).

Inductive loopEnd : Type :=
| Finished (L F : Raft Cmd)          (* the loop ends without asking for a retry *)
| NeedSnapshot (L F : Raft Cmd).     (* the last iteration calls helpInstall *)

(** The inner loop [for retry { retry = rf.singleAppend(i) }] of leader [L]
    and peer [i] with state [F], every call being delivered and answered. *)
Fixpoint retryLoop (fuel : nat) (i now : Z) L F : option loopEnd :=
  match fuel with
  | O => None
  | S fuel =>
      d ← singleAppendSend i L;
      match d with
      | NotLeader => Some (Finished L F)
      | SendInstall => Some (NeedSnapshot L F)
      | SendAppend args =>
          '(F', reply) ← AppendEntries now args F;
          '(L', retry) ← singleAppendReply i args (Some reply) L;
          if (retry : bool) then retryLoop fuel i now L' F' else Some (Finished L' F')
      end
  end.

(** Raft's log matching between a leader's and a follower's log: entries of one
    term come from one leader's log, so where the follower has an entry of a
    term the leader has at or after that position, the leader has that term
    there too. *)
Definition coherent L F : Prop :=
  forall p q eF eL e, get F p = Some eF -> get L q = Some eL -> get L p = Some e ->
    p <= q -> snapIndex F < p -> snapIndex L <= p -> Term eF = Term eL -> Term e = Term eF.

Definition log_matching L F : Prop :=
  forall p p' eF eL a b, get F p = Some eF -> get L p = Some eL -> Term eF = Term eL ->
    snapIndex F < p' <= p -> snapIndex L < p' -> get F p' = Some a -> get L p' = Some b ->
    Term a = Term b.

(** Entries carry real terms; only the sentinel of a fresh log has term -1. *)
Definition terms_ok F : Prop := forall p e, snapIndex F < p -> get F p = Some e -> 0 <= Term e.

(** The state of the loop between two requests. *)
Record backing (i : Z) L F : Prop := {
  bk_leader : state L = Leader;
  bk_term : currentTerm F <= currentTerm L;
  bk_wfL : wf_log L;
  bk_wfF : wf_log F;
  bk_snapL : 0 <= snapIndex L;
  bk_snapF : 0 <= snapIndex F;
  bk_match : len (matchIndex L) = Z.of_nat (peers L);
  bk_next : len (nextIndex L) = Z.of_nat (peers L);
  bk_peer : 0 <= i < Z.of_nat (peers L);
  bk_coh : coherent L F;
  bk_lm : log_matching L F;
  bk_terms : terms_ok F;
}.

Lemma lastIndexLoop_spec fuel t rf : forall i,
  0 <= snapIndex rf -> i < logLength rf -> (Z.to_nat (i - snapIndex rf) <= fuel)%nat ->
  exists r, lastIndexLoop fuel t i rf = Some r
    /\ (r = -1 \/ snapIndex rf < r <= i /\ exists e, get rf r = Some e /\ Term e = t).
Proof.
  induction fuel as [|fuel IH]; intros i Hs Hi Hf; cbn [lastIndexLoop]; case_if; try lia; eauto.
  destruct (get_in_range rf i ltac:(lia)) as [e He]; rewrite He; simpl; case_if.
  - exists i; split; [done|right]; eauto with lia.
  - destruct (IH (i - 1) Hs ltac:(lia) ltac:(lia)) as (r & -> & [->|(? & ?)]); eauto.
    exists r; split; [done|right]; split; [lia|done].
Qed.

Lemma stepBack_sets i xt xi xl L F :
  backing i L F -> exists n, stepBack i xt xi xl L = Some (set_nextIndex n L)
    /\ exists ni, n = <[Z.to_nat i := ni]> (nextIndex L)
    /\ ((xt = -1 /\ ni = goMin xl (logLength L))
        \/ (xt <> -1 /\ ni = xi)
        \/ (xt <> -1 /\ snapIndex L < ni - 1 < logLength L
            /\ exists e, get L (ni - 1) = Some e /\ Term e = xt)).
Proof.
  intros [? ? Hw ? Hs ? Hm Hn Hp _ _ _]; unfold stepBack, lastIndexOfTerm.
  assert (Hu : forall x, upd (nextIndex L) i x = Some (<[Z.to_nat i := x]> (nextIndex L)))
    by (intros; apply upd_ok; lia).
  case_if; [rewrite Hu; simpl; eauto 10|].
  destruct (lastIndexLoop_spec (Z.to_nat (logLength L - snapIndex L)) xt L (logLength L - 1))
    as (r & -> & Hr); [done|lia|lia|]; simpl; case_if; rewrite Hu; simpl.
  - destruct Hr as [?|(? & e & ? & ?)]; [done|].
    eexists; split; [done|]; eexists; split; [done|]; right; right.
    split_and!; [done|lia|lia|]. exists e; split; [|done]. by replace (r + 1 - 1) with r by lia.
  - eexists; split; [done|]; eexists; split; [done|]; right; by left.
Qed.

(** [backing] only depends on the logs, the terms and the slot counts. *)
Lemma backing_ext i L F L' F' :
  backing i L F -> state L' = Leader -> currentTerm L' = currentTerm L ->
  currentTerm F' <= currentTerm L -> log L' = log L -> snapIndex L' = snapIndex L ->
  log F' = log F -> snapIndex F' = snapIndex F -> peers L' = peers L ->
  len (matchIndex L') = len (matchIndex L) -> len (nextIndex L') = len (nextIndex L) ->
  backing i L' F'.
Proof.
  intros [] ? ? ? Hl Hs Hl' Hs' Hp ? ?; unfold coherent, log_matching, terms_ok, wf_log in *.
  assert (HgL : forall p, get L' p = get L p) by (intros; by apply get_ext).
  assert (HgF : forall p, get F' p = get F p) by (intros; by apply get_ext).
  split; unfold coherent, log_matching, terms_ok, wf_log; rewrite ?Hl, ?Hl', ?Hs, ?Hs', ?Hp;
    try done; try congruence; try lia; intros *; rewrite ?HgL, ?HgF; eauto.
Qed.

(** The follower holds the leader's log, as far as neither snapshot covers it. *)
Definition caught_up L F : Prop :=
  forall p, snapIndex F < p -> snapIndex L < p < logLength L ->
    exists eF eL, get F p = Some eF /\ get L p = Some eL /\ Term eF = Term eL.

Lemma accepted_caught_up i L F F' args :
  backing i L F -> singleAppendSend i L = Some (SendAppend args) ->
  matchesPrev args F -> accepted args F F' -> snapIndex F' = snapIndex F -> caught_up L F'.
Proof.
  intros HB Hsend Hm (Hold & Hnew & _) Hs p Hp HpL; rewrite Hs in Hp.
  destruct (singleAppendSend_suffix _ _ _ Hsend) as (_ & _ & _ & _ & ? & Hend & (pL & HpL' & Hpt) & Hent).
  destruct (get_in_range L p ltac:(lia)) as [eL HeL].
  destruct (decide (p <= PrevLogIndex args)) as [Hle|Hgt].
  - destruct Hm as [|(pF & HpF & Hpt')]; [lia|].
    destruct (get_in_range F p) as [eF HeF]; [apply get_range in HpF; lia|].
    exists eF, eL; rewrite Hold by done; split_and!; try done.
    apply (bk_lm _ _ _ HB (PrevLogIndex args) p pF pL eF eL); try done; congruence || lia.
  - destruct (Hnew (p - PrevLogIndex args - 1) eL) as (eF & HeF & ?); [|lia|].
    { rewrite Hent by lia; rewrite <- HeL; f_equal; lia. }
    exists eF, eL; split_and!; try done. rewrite <- HeF; f_equal; lia.
Qed.

(** A rejected request moves [nextIndex] strictly back. *)
Lemma conflict_steps_back i L F args reply :
  backing i L F -> singleAppendSend i L = Some (SendAppend args) ->
  conflictInfo args F reply ->
  exists n ni, stepBack i (XTerm reply) (XIndex reply) (XLen reply) L = Some (set_nextIndex n L)
    /\ n = <[Z.to_nat i := ni]> (nextIndex L) /\ ni <= PrevLogIndex args.
Proof.
  intros HB Hsend HC.
  destruct (singleAppendSend_suffix _ _ _ Hsend) as (_ & _ & _ & _ & Hsn & Hend & (pL & HpL & Hpt) & _).
  destruct (stepBack_sets i (XTerm reply) (XIndex reply) (XLen reply) L F HB)
    as (n & HS & ni & Hn & Hcase); exists n, ni; split_and!; try done.
  pose proof (len_nonneg (Entries args)).
  destruct HC as [(Hshort & HX & HXL)|(pF & HpF & Hne & HX & Hxi & _ & _)].
  - destruct Hcase as [(_ & ->)|[(? & _)|(? & _)]]; [|congruence..].
    unfold goMin; case_if; lia.
  - assert (XTerm reply <> -1).
    { rewrite HX; pose proof (bk_terms _ _ _ HB (PrevLogIndex args) pF ltac:(lia) HpF); lia. }
    destruct Hcase as [(? & _)|[(_ & ->)|(_ & Hr & e & He & Ht)]]; [done|lia|].
    destruct (decide (ni <= PrevLogIndex args)) as [|Hlt]; [done|exfalso].
    apply Hne; rewrite Hpt; symmetry.
    apply (bk_coh _ _ _ HB (PrevLogIndex args) (ni - 1) pF e pL); try done; congruence || lia.
Qed.

(** One answered request: the loop stops with the follower caught up, or goes
    on with a smaller [nextIndex]. *)
Lemma answered_request i now L F args :
  backing i L F -> singleAppendSend i L = Some (SendAppend args) ->
  exists F' reply L' retry, AppendEntries now args F = Some (F', reply)
    /\ singleAppendReply i args (Some reply) L = Some (L', retry)
    /\ log L' = log L /\ snapIndex L' = snapIndex L /\ snapIndex F' = snapIndex F
    /\ ((retry = false /\ caught_up L F' /\ idx (matchIndex L') i = Some (logLength L - 1))
        \/ (retry = true /\ backing i L' F' /\ log F' = log F
            /\ exists ni, idx (nextIndex L') i = Some ni /\ ni <= PrevLogIndex args)).
Proof.
  intros HB Hsend; pose proof HB as [HL HT HwL HwF _ _ Hlm Hln Hi _ _ _].
  destruct (singleAppendSend_suffix _ _ _ Hsend) as (_ & Hterm & _ & _ & _ & Hend & _).
  destruct (AppendEntries_outcome now args F HwF) as (F' & reply & HA & Ht & Hr & Hs & Hiff & Hacc & Hrej).
  exists F', reply; unfold singleAppendReply.
  replace (aer_Term reply >? currentTerm L) with false by (symmetry; rewrite Z.gtb_ltb; apply Z.ltb_ge; lia).
  rewrite Hterm, Z.eqb_refl, (bool_decide_eq_true_2 _ HL); simpl.
  destruct (Success reply) eqn:ES; simpl.
  - destruct (Hacc eq_refl) as (Ha & _); destruct (proj1 Hiff eq_refl) as (_ & Hm).
    rewrite Hend, !upd_ok by lia; cbn [mbind option_bind].
    match goal with |- context [updateCommitIndex ?r] => set (L1 := r) end.
    destruct (updateCommitIndex_result L1) as (L2 & -> & Hres); [done|by unfold len; simpl; rewrite length_insert|].
    exists L2, false; cbn [mbind option_bind].
    assert (HL2 : log L2 = log L /\ snapIndex L2 = snapIndex L /\ matchIndex L2 = matchIndex L1)
      by (destruct Hres as [(-> & _)|(-> & _)]; done).
    destruct HL2 as (? & ? & ->); split_and!; try done; left; split_and!; try done.
    + eapply accepted_caught_up; eauto.
    + apply (idx_upd_eq (matchIndex L)), upd_ok; lia.
  - destruct (Hrej eq_refl) as (HlF & _ & [?|HC]); [lia|].
    destruct (conflict_steps_back i L F args reply HB Hsend HC) as (n & ni & -> & -> & Hni).
    eexists _, true; cbn [mbind option_bind]; split_and!; try done; right; split_and!; try done.
    + apply (backing_ext i L F); try done; [lia|]. simpl; unfold len; by rewrite length_insert.
    + exists ni; split; [|done]; simpl; apply (idx_upd_eq (nextIndex L)), upd_ok; lia.
Qed.

Lemma send_decision i L F ni :
  backing i L F -> idx (nextIndex L) i = Some ni -> ni <= logLength L ->
  (ni <= snapIndex L /\ singleAppendSend i L = Some SendInstall)
  \/ (exists args, snapIndex L < ni /\ singleAppendSend i L = Some (SendAppend args)
                   /\ PrevLogIndex args = ni - 1).
Proof.
  intros [HL _ _ _ _ _ _ _ _ _ _ _] Hni Hle; unfold singleAppendSend.
  rewrite (bool_decide_eq_true_2 _ HL), Hni; simpl; case_if; [left; split; [lia|done]|right].
  destruct (get_in_range L (ni - 1) ltac:(lia)) as [p ->]; simpl.
  unfold entriesFrom; rewrite slice_from_ok by (unfold logLength in *; lia); simpl.
  eexists; split_and!; [lia|done|done].
Qed.

Definition loop_post L F r : Prop :=
  match r with
  | Finished L' F' => log L' = log L /\ caught_up L F'
  | NeedSnapshot L' F' => log L' = log L /\ log F' = log F
  end.

(** The slot of peer [i] when the loop is over. *)
Definition loop_slot (i : Z) L r : Prop :=
  match r with
  | Finished L' _ => idx (matchIndex L') i = Some (logLength L - 1)
  | NeedSnapshot L' _ => exists ni, idx (nextIndex L') i = Some ni /\ ni <= snapIndex L
  end.

Lemma retryLoop_fuel i now fuel : forall L F ni,
  backing i L F -> idx (nextIndex L) i = Some ni -> ni <= logLength L ->
  (Z.to_nat (ni - snapIndex L) < fuel)%nat ->
  exists r, retryLoop fuel i now L F = Some r /\ loop_post L F r /\ loop_slot i L r.
Proof.
  induction fuel as [|fuel IH]; intros L F ni HB Hni Hle Hf; [lia|]; cbn [retryLoop].
  destruct (send_decision i L F ni HB Hni Hle) as [(Hn & ->)|(args & Hn & Hsend & Hprev)].
  { cbn [mbind option_bind]; eexists; split_and!; [done|done|by exists ni]. }
  rewrite Hsend; cbn [mbind option_bind].
  destruct (answered_request i now L F args HB Hsend)
    as (F' & reply & L' & retry & -> & HS & HlL & HsL & HsF & Hcase).
  cbn [mbind option_bind]; rewrite HS; cbn [mbind option_bind].
  destruct Hcase as [(-> & Hc & Hm)|(-> & HB' & HlF & ni' & Hni' & Hlt)].
  { eexists; split_and!; [done| |]; done. }
  assert (HLL : logLength L' = logLength L) by (by apply logLength_ext).
  destruct (IH L' F' ni' HB' Hni' ltac:(lia) ltac:(lia)) as (r & -> & Hp & Hs).
  exists r; split; [done|]; unfold loop_post, loop_slot, caught_up in *.
  destruct r as [L2 F2|L2 F2]; rewrite ?HLL, ?HsL in *; split; try done;
    destruct Hp as (Hp1 & Hp2); split; try congruence.
  intros p Hp Hr; destruct (Hp2 p Hp Hr) as (eF & eL & ? & HeL & ?).
  exists eF, eL; split_and!; try done. by rewrite <- (get_ext L L').
Qed.

End backup.

(** ** A concrete divergence *)

(** The leader's log has terms 1 1 4 4, the follower's 1 1 2 2 3: nextIndex
    starts at the end of the leader's log. *)
Definition ex_L : Raft Z := mkRaft 3 MakePersister 0 false false 4 Leader 0 0
  [mkEntry (-1) None; mkEntry 1 (Some 10); mkEntry 1 (Some 11); mkEntry 4 (Some 12);
   mkEntry 4 (Some 13)] 0 0 [-1; 5; 5] [-1; 0; 0] 0 [].
Definition ex_F : Raft Z := mkRaft 3 MakePersister 1 false false 3 Follower (-1) 0
  [mkEntry (-1) None; mkEntry 1 (Some 10); mkEntry 1 (Some 11); mkEntry 2 (Some 20);
   mkEntry 2 (Some 21); mkEntry 3 (Some 30)] 0 0 [] [] 0 [].

(** Case on the (at most six) positions at which a concrete log has an entry. *)
Ltac cases_get H :=
  let R := fresh in
  pose proof (get_range _ _ _ H) as R; unfold logLength, len in R; simpl in R;
  match type of H with
  | get _ ?p = _ =>
      let C := fresh in
      assert (p = 0 \/ p = 1 \/ p = 2 \/ p = 3 \/ p = 4 \/ p = 5) as C by (clear -R; lia);
      clear R; destruct C as [C|[C|[C|[C|[C|C]]]]]; subst p;
      vm_compute in H; try discriminate H; injection H as <-
  end.

Lemma ex_backing : backing 1 ex_L ex_F.
Proof.
  split; try reflexivity; try (vm_compute; discriminate); try (vm_compute; split; congruence).
  - intros p q eF eL e HF HL H Hpq HsF HsL Ht.
    cases_get HF; cases_get HL; simpl in *; try lia; vm_compute in H;
      try discriminate H; injection H as <-; simpl; lia.
  - intros p p' eF eL a b HF HL Ht Hp' HsL Ha Hb.
    cases_get HF; vm_compute in HL; try discriminate HL; injection HL as <-; simpl in *; try lia;
      cases_get Ha; vm_compute in Hb; try discriminate Hb; injection Hb as <-; simpl in *; lia.
  - intros p e Hp H; cases_get H; simpl in *; lia.
Qed.

