(* ===== verification/RaftSnapshotFacts.v ===== *)
(** * Raft: snapshots keep the log, and entries are applied once and in order *)

From S2P Require Import Prelude Gob RaftTypes RaftLog RaftElection RaftReplicate RaftSnapshot.
From S2P Require Import RaftPeer RaftLogFacts.

Section snapfacts.
Context {Cmd : Type} `{!GobType Cmd}.
Implicit Types (rf : Raft Cmd).

(** Replacing the part of the log up to index [s] by a sentinel of term [t]. *)
Lemma trimmed_get rf rf' s t c :
  snapIndex rf <= s -> snapIndex rf' = s ->
  log rf' = mkEntry t c :: drop (Z.to_nat (s + 1 - snapIndex rf)) (log rf) ->
  (forall i, s < i -> get rf' i = get rf i)
  /\ get rf' s = Some (mkEntry t c)
  /\ logLength rf' = Z.max (s + 1) (logLength rf).
Proof.
  intros Hs Hs' Hl; unfold get, logLength; rewrite Hl, Hs'; split_and!.
  - intros i Hi; rewrite idx_cons_S by lia; rewrite idx_drop by lia; f_equal; lia.
  - by rewrite Z.sub_diag.
  - rewrite len_cons, len_drop; lia.
Qed.

(** Taking a snapshot only trims. For an index of the log that is not
    yet covered, [Snapshot] returns, the entries after the index, the term at
    the index and the length of the log are what they were, everything up to
    the index is covered by the stored snapshot, and all of it is on disk;
    for an index already covered nothing changes, so snapshot goroutines that
    run late or out of order are harmless. *)
Theorem Snapshot_trims index snap rf (Hr : index < logLength rf) :
  exists rf', Snapshot index snap rf = Some rf'
    /\ (index <= snapIndex rf -> rf' = rf)
    /\ (snapIndex rf < index ->
          snapIndex rf' = index /\ snapshot rf' = snap
          /\ persister rf' = Save (persistedState rf') snap
          /\ logLength rf' = logLength rf
          /\ (forall i, index < i -> get rf' i = get rf i)
          /\ Term <$> get rf' index = Term <$> get rf index
          /\ commitIndex rf' = commitIndex rf /\ lastApplied rf' = lastApplied rf).
Proof.
  unfold Snapshot; case_if.
  { eexists; split; [done|]; split; [done|lia]. }
  destruct (get_in_range rf index ltac:(lia)) as [e He]; rewrite He; simpl.
  rewrite slice_from_ok by (unfold logLength in *; lia); simpl.
  eexists; split; [done|]; split; [lia|]; intros _.
  match goal with |- context [persist ?r] =>
    destruct (trimmed_get rf (persist r) index (Term e) None) as (Hg & Hs & HL) end;
    [lia|done|simpl; do 3 f_equal; lia|].
  split_and!; try done; [rewrite HL; lia|by rewrite Hs].
Qed.

(** Installing a snapshot. A request of a stale term is refused and one
    whose snapshot is not newer changes no log; a newer one makes the
    snapshot's index and term the new base of the log, keeps exactly the
    entries after it, is written to disk with the snapshot, and is handed to
    the service precisely when the service has not applied that far. *)
Theorem InstallSnapshot_installs now args rf :
  exists rf' reply msg, InstallSnapshot now args rf = Some (rf', reply, msg)
    /\ isr_Term reply = currentTerm rf'
    /\ currentTerm rf' = Z.max (currentTerm rf) (is_Term args)
    /\ (is_Term args < currentTerm rf -> rf' = rf /\ msg = None)
    /\ (LastIncludedIndex args <= snapIndex rf ->
          log rf' = log rf /\ snapIndex rf' = snapIndex rf /\ msg = None)
    /\ (currentTerm rf <= is_Term args -> snapIndex rf < LastIncludedIndex args ->
          snapIndex rf' = LastIncludedIndex args /\ snapshot rf' = Data args
          /\ persister rf' = Save (persistedState rf') (Data args)
          /\ logLength rf' = Z.max (LastIncludedIndex args + 1) (logLength rf)
          /\ (forall i, LastIncludedIndex args < i -> get rf' i = get rf i)
          /\ get rf' (LastIncludedIndex args) = Some (mkEntry (LastIncludedTerm args) None)
          /\ lastApplied rf' = Z.max (lastApplied rf) (LastIncludedIndex args)
          /\ msg = (if lastApplied rf <? LastIncludedIndex args
                    then Some (snapshotMsg args) else None)).
Proof.
  unfold InstallSnapshot; case_if.
  { eexists _, _, _; split; [done|]; simpl; split_and!; try done; lia. }
  set (rf1 := if is_Term args >? currentTerm rf then newGen (is_Term args) rf else rf).
  assert (H1 : log rf1 = log rf /\ snapIndex rf1 = snapIndex rf /\ lastApplied rf1 = lastApplied rf
               /\ currentTerm rf1 = Z.max (currentTerm rf) (is_Term args)).
  { unfold rf1; case_if; simpl; split_and!; try done; lia. }
  clearbody rf1; destruct H1 as (Hl & Hs & Ha & Ht).
  case_if; simpl in E0.
  { eexists _, _, _; split; [done|]; simpl; split_and!; try done; lia. }
  set (rf2 := touched now rf1).
  assert (Hkept : (if LastIncludedIndex args <? logLength rf2 - 1
                   then entriesFrom rf2 (LastIncludedIndex args + 1) else Some [])
                  = Some (drop (Z.to_nat (LastIncludedIndex args + 1 - snapIndex rf)) (log rf))).
  { unfold logLength, entriesFrom; simpl; rewrite Hl, Hs; case_if.
    - apply slice_from_ok; lia.
    - rewrite drop_ge; [done|unfold len in *; lia]. }
  rewrite Hkept; cbn [mbind option_bind]; unfold setSnap; simpl; rewrite Ha.
  match goal with |- context [persist ?r] =>
    destruct (trimmed_get rf (persist r) (LastIncludedIndex args) (LastIncludedTerm args) None)
      as (Hg & Hgs & HL); [lia|done|done|] end.
  case_if; eexists _, _, _; (split; [done|]); simpl; split_and!; try done; try lia.
  all: intros _ _; split_and!; try done; try lia.
Qed.
End snapfacts.

Section applying.
Context {Cmd : Type} `{!GobType Cmd}.
Implicit Types (rf : Raft Cmd).

Lemma collectApplies_spec rf ids :
  (forall i, i ∈ ids -> i < logLength rf) ->
  exists msgs, collectApplies ids rf = Some msgs
    /\ CommandIndex <$> msgs = filter (fun i => snapIndex rf < i) ids
    /\ Forall (fun m => exists e, get rf (CommandIndex m) = Some e
                                  /\ m = commandMsg (Command e) (CommandIndex m)) msgs.
Proof.
  induction ids as [|i ids IH]; intros Hr; [by exists []|]; simpl.
  destruct IH as (msgs & HM & Hidx & Hall); [intros; apply Hr; set_solver|].
  assert (i < logLength rf) by (apply Hr; set_solver); case_if.
  - exists msgs; split_and!; try done; rewrite filter_cons_False by lia; done.
  - destruct (get_in_range rf i ltac:(lia)) as [e He]; rewrite He, HM; simpl.
    eexists; split_and!; [done| |].
    + rewrite filter_cons_True by lia; simpl; by f_equal.
    + constructor; eauto.
Qed.

Lemma seqZ_split (lo m hi : Z) :
  lo <= m + 1 <= hi + 1 ->
  seqZ lo (hi + 1 - lo) = seqZ lo (m + 1 - lo) ++ seqZ (m + 1) (hi - m).
Proof.
  intros H; replace (hi + 1 - lo) with ((m + 1 - lo) + (hi - m)) by lia.
  rewrite seqZ_app by lia; f_equal; f_equal; lia.
Qed.

Lemma filter_seqZ (s lo hi : Z) :
  filter (fun i => s < i) (seqZ lo (hi + 1 - lo)) = seqZ (Z.max lo (s + 1)) (hi + 1 - Z.max lo (s + 1)).
Proof.
  destruct (decide (s + 1 <= lo)).
  - replace (Z.max lo (s + 1)) with lo by lia.
    apply filter_all; intros i Hi%elem_of_seqZ; lia.
  - replace (Z.max lo (s + 1)) with (s + 1) by lia; destruct (decide (s <= hi)).
    + rewrite (seqZ_split lo s hi) by lia; rewrite filter_app.
      rewrite (filter_none _ (seqZ lo _)) by (intros i Hi%elem_of_seqZ; lia).
      rewrite filter_all by (intros i Hi%elem_of_seqZ; lia); simpl; f_equal; lia.
    + rewrite filter_none by (intros i Hi%elem_of_seqZ; lia).
      by rewrite seqZ_nil by lia.
Qed.

(** One round of the apply loop. With the commit index inside the log,
    [guardKick] returns; it hands over exactly the committed entries that are
    neither applied nor covered by the snapshot, one message per index in
    increasing order without gaps, each with the command the log holds at
    that index, and nothing stays pending. *)
Theorem guardKick_delivers rf (Hc : commitIndex rf < logLength rf) :
  exists rf' msgs, guardKick rf = Some (rf', msgs)
    /\ lastApplied rf' = Z.max (lastApplied rf) (commitIndex rf)
    /\ log rf' = log rf /\ commitIndex rf' = commitIndex rf
    /\ (let base := Z.max (lastApplied rf) (snapIndex rf) in
        CommandIndex <$> msgs = seqZ (base + 1) (commitIndex rf - base))
    /\ Forall (fun m => exists e, get rf (CommandIndex m) = Some e
                        /\ m = commandMsg (Command e) (CommandIndex m)) msgs.
Proof.
  unfold guardKick; case_if; simpl in *.
  { eexists _, _; split; [done|]; simpl; split_and!; try done; try lia.
    by rewrite seqZ_nil by lia. }
  destruct (collectApplies_spec (set_wakeCh false rf)
              (seqZ (lastApplied rf + 1) (commitIndex rf + 1 - (lastApplied rf + 1))))
    as (msgs & -> & Hi & Ha); [intros i Hi%elem_of_seqZ; unfold logLength in *; simpl; lia|].
  simpl; eexists _, _; split; [done|]; simpl; split_and!; try done; try lia.
  rewrite Hi; simpl; rewrite filter_seqZ; f_equal; lia.
Qed.

(** A peer between two crashes, with the command indices it sends on
    [applyCh], in sending order. *)
Inductive ktrace : Raft Cmd -> list Z -> Raft Cmd -> Prop :=
| kt_nil rf : ktrace rf [] rf
| kt_kick rf rf1 rf2 msgs ks :
    guardKick rf = Some (rf1, msgs) -> ktrace rf1 ks rf2 ->
    ktrace rf ((CommandIndex <$> msgs) ++ ks) rf2
| kt_other rf rf1 rf2 ks : cs rf rf1 -> ktrace rf1 ks rf2 -> ktrace rf ks rf2.

Lemma collectApplies_indices ids rf msgs :
  collectApplies ids rf = Some msgs ->
  CommandIndex <$> msgs = filter (fun i => snapIndex rf < i) ids.
Proof.
  revert msgs; induction ids as [|i ids IH]; simpl; intros msgs H; inv_opt; [done|].
  case_if_in H.
  - rewrite filter_cons_False by lia; auto.
  - inv_opt; rewrite filter_cons_True by lia; simpl; f_equal; auto.
Qed.

Lemma guardKick_window rf rf' msgs :
  guardKick rf = Some (rf', msgs) ->
  StronglySorted Z.lt (CommandIndex <$> msgs)
  /\ forall i, i ∈ CommandIndex <$> msgs -> lastApplied rf < i <= lastApplied rf'.
Proof.
  unfold guardKick; intros H; case_if_in H; inv_opt; simpl in *; [split; [constructor|set_solver]|].
  match goal with Hc : collectApplies _ _ = _ |- _ => apply collectApplies_indices in Hc as -> end.
  simpl; rewrite filter_seqZ; split.
  - apply seqZ_sorted.
  - intros i Hi%elem_of_seqZ; lia.
Qed.

Lemma ktrace_window rf ks rf' :
  ktrace rf ks rf' ->
  lastApplied rf <= lastApplied rf' /\ StronglySorted Z.lt ks
  /\ forall i, i ∈ ks -> lastApplied rf < i <= lastApplied rf'.
Proof.
  induction 1 as [rf|rf rf1 rf2 msgs ks Hk _ (Hle & Hs & Hw)|rf rf1 rf2 ks Hc _ (Hle & Hs & Hw)].
  - split_and!; [lia|constructor|set_solver].
  - destruct (guardKick_window _ _ _ Hk) as (Hs1 & Hw1).
    destruct (cs_fine _ _ (cs_guardKick _ _ _ Hk)) as (_ & _ & ?).
    split_and!; [lia| |].
    + apply StronglySorted_app; split_and!; try done.
      intros i j Hi Hj; specialize (Hw1 i Hi); specialize (Hw j Hj); lia.
    + intros i [Hi|Hi]%elem_of_app; [specialize (Hw1 i Hi)|specialize (Hw i Hi)]; lia.
  - destruct (cs_fine _ _ Hc) as (_ & _ & ?); split_and!; [lia|done|].
    intros i Hi; specialize (Hw i Hi); lia.
Qed.

(** Entries are applied at most once and in log order. Whatever
    critical sections run between two crashes, the indices of the commands
    that the apply loop hands to the service are strictly increasing, all
    above what had been applied at the start. *)
Theorem applied_once_in_order rf ks rf' (Hrun : ktrace rf ks rf') :
  StronglySorted Z.lt ks /\ (forall i, i ∈ ks -> lastApplied rf < i <= lastApplied rf').
Proof. destruct (ktrace_window _ _ _ Hrun) as (_ & ? & ?); done. Qed.
End applying.

(** ** Concrete peers *)

(** Entries of terms 1 1 2 2, the first three committed, the first applied. *)
Definition ex_peer : Raft Z := mkRaft 3 MakePersister 0 false true 2 Follower (-1) 0
  [mkEntry (-1) None; mkEntry 1 (Some 10); mkEntry 1 (Some 11); mkEntry 2 (Some 12);
   mkEntry 2 (Some 13)] 3 1 [] [] 0 [].

Lemma Snapshot_trims_witness :
  2 < logLength ex_peer /\ snapIndex ex_peer < 2
  /\ exists rf', Snapshot 2 [GInt 5] ex_peer = Some rf' /\ snapIndex rf' = 2
       /\ logLength rf' = logLength ex_peer /\ get rf' 3 = get ex_peer 3.
Proof.
  assert (H : 2 < logLength ex_peer) by reflexivity.
  assert (H2 : snapIndex ex_peer < 2) by reflexivity.
  split; [exact H|split; [exact H2|]].
  destruct (Snapshot_trims 2 [GInt 5] ex_peer H) as (rf' & HS & _ & Hn).
  destruct (Hn H2) as (Hi & _ & _ & HL & Hg & _).
  exists rf'; split; [exact HS|split; [exact Hi|split; [exact HL|apply Hg; reflexivity]]].
Defined.

Lemma guardKick_delivers_witness :
  commitIndex ex_peer < logLength ex_peer
  /\ exists rf' msgs, guardKick ex_peer = Some (rf', msgs) /\ lastApplied rf' = 3
       /\ CommandIndex <$> msgs = [2; 3].
Proof.
  assert (H : commitIndex ex_peer < logLength ex_peer) by reflexivity.
  split; [exact H|].
  destruct (guardKick_delivers ex_peer H) as (rf' & msgs & HK & Ha & _ & _ & Hi & _).
  exists rf', msgs; split; [exact HK|split; [exact Ha|exact Hi]].
Defined.

Lemma applied_once_in_order_witness :
  exists rf', ktrace ex_peer [2; 3] rf' /\ StronglySorted Z.lt [2; 3]
    /\ (forall i, i ∈ [2; 3] -> lastApplied ex_peer < i <= lastApplied rf').
Proof.
  destruct (guardKick ex_peer) as [[rf' msgs]|] eqn:E; [|vm_compute in E; discriminate].
  assert (Hm : CommandIndex <$> msgs = [2; 3])
    by (vm_compute in E; injection E as _ <-; reflexivity).
  assert (Hk : ktrace ex_peer [2; 3] rf').
  { change [2; 3] with ([2; 3] ++ []); rewrite <- Hm; eapply kt_kick; [exact E|constructor]. }
  exists rf'; split; [exact Hk|exact (applied_once_in_order ex_peer [2; 3] rf' Hk)].
Defined.
