(* ===== verification/RaftCluster.v ===== *)
(** * Raft: the cluster

    The peers of one Raft group, with the goroutines that call each other's
    handlers. Everything the mutex of a peer protects happens in one event;
    between two events any other event may run, so the goroutines of
    [collectOpinion] and [replicator] interleave freely with the handlers, RPCs
    are delayed, reordered and lost, and peers crash and restart.

    - A [round] is one execution of [collectOpinion]: the counter its goroutines
      share. [rd_term] records the term the peer had when the round was started;
      no definition reads it but [timely].
    - A [vcall] is one goroutine of [collectOpinion]; a [rep] one [replicator].
    - [exec] performs one event; [None] means that the event is not possible in
      that state, or that the Go code panics. *)

From S2P Require Import Prelude Gob RaftTypes RaftLog RaftElection RaftReplicate RaftSnapshot.
From S2P Require Import RaftPeer.

Inductive vstage : Type :=
| VStart                                                   (* before its first critical section *)
| VSent (args : RequestVoteArgs)                           (* the request is under way *)
| VReplied (args : RequestVoteArgs) (reply : RequestVoteReply)  (* the reply is under way *)
| VDone.

Record vcall : Type := mkVcall {
  vc_owner : Z; vc_round : nat; vc_server : Z; vc_stage : vstage; vc_live : bool }.

Record round : Type := mkRound { rd_owner : Z; rd_term : Z; rd_supporter : nat }.

Inductive rstage {Cmd : Type} : Type :=
| RIdle
| RAppend (args : AppendEntriesArgs Cmd)
| RAppendReplied (args : AppendEntriesArgs Cmd) (reply : AppendEntriesReply)
| RInstall (args : InstallSnapshotArgs)
| RInstallReplied (args : InstallSnapshotArgs) (reply : InstallSnapshotReply).
Arguments rstage : clear implicits.

Record rep {Cmd : Type} : Type := mkRep {
  rp_owner : Z; rp_server : Z; rp_stage : rstage Cmd; rp_live : bool }.
Arguments rep : clear implicits.
Arguments mkRep {Cmd}.

Record cluster {Cmd : Type} : Type := mkCluster {
  nodes : list (Raft Cmd);
  rounds : list round;
  vcalls : list vcall;
  reps : list (rep Cmd);
}.
Arguments cluster : clear implicits.
Arguments mkCluster {Cmd}.

Inductive event {Cmd : Type} : Type :=
| ETick (i now : Z)                      (* an iteration of ticker *)
| EBuild (c : nat)                       (* collectOpinion: build the arguments *)
| EVote (c : nat) (now : Z)              (* the RequestVote handler runs *)
| EVoteReply (c : nat)                   (* collectOpinion: process the reply *)
| EVoteLost (c : nat)                    (* the call returns false *)
| ERepSend (r : nat)                     (* singleAppend up to its RPC *)
| ERepHandle (r : nat) (now : Z)         (* AppendEntries or InstallSnapshot runs *)
| ERepReply (r : nat)                    (* singleAppend or helpInstall after its RPC *)
| ERepLost (r : nat)
| EStart (i : Z) (command : Cmd)
| ESnapshot (i index : Z) (snap : bytes)
| EKick (i : Z)                          (* an iteration of guardKick *)
| ECrash (i now : Z).                    (* crash and restart from the persister *)
Arguments event : clear implicits.

Section exec.
Context {Cmd : Type} `{!GobType Cmd}.
Implicit Types (s : cluster Cmd) (rf : Raft Cmd).

Definition set_node (i : Z) rf s : option (cluster Cmd) :=
  ns ← upd (nodes s) i rf; Some (mkCluster ns (rounds s) (vcalls s) (reps s)).

Definition set_vstage (c : nat) (st : vstage) s : cluster Cmd :=
  mkCluster (nodes s) (rounds s)
    (alter (fun v => mkVcall (vc_owner v) (vc_round v) (vc_server v) st (vc_live v)) c (vcalls s))
    (reps s).

Definition set_rstage (r : nat) (st : rstage Cmd) s : cluster Cmd :=
  mkCluster (nodes s) (rounds s) (vcalls s)
    (alter (fun p => mkRep (rp_owner p) (rp_server p) st (rp_live p)) r (reps s)).

Definition set_supporter (r n : nat) s : cluster Cmd :=
  mkCluster (nodes s)
    (alter (fun rd => mkRound (rd_owner rd) (rd_term rd) n) r (rounds s)) (vcalls s) (reps s).

Definition spawn_reps (i : Z) (servers : list Z) s : cluster Cmd :=
  mkCluster (nodes s) (rounds s) (vcalls s)
    (reps s ++ ((fun j => mkRep i j RIdle true) <$> servers)).

(** [go rf.collectOpinion()]: a counter at 1 and one goroutine per other peer. *)
Definition collectOpinion rf s : cluster Cmd :=
  let others := filter (fun j => j <> me rf) (seqZ 0 (Z.of_nat (peers rf))) in
  mkCluster (nodes s) (rounds s ++ [mkRound (me rf) (currentTerm rf) 1])
    (vcalls s ++ ((fun j => mkVcall (me rf) (length (rounds s)) j VStart true) <$> others))
    (reps s).

(** The goroutines of a crashed process are gone; requests they sent may
    still be delivered. *)
Definition orphan (i : Z) s : cluster Cmd :=
  mkCluster (nodes s) (rounds s)
    ((fun v => mkVcall (vc_owner v) (vc_round v) (vc_server v) (vc_stage v)
                 (vc_live v && negb (vc_owner v =? i))) <$> vcalls s)
    ((fun p => mkRep (rp_owner p) (rp_server p) (rp_stage p)
                 (rp_live p && negb (rp_owner p =? i))) <$> reps s).

Definition execTick (i now : Z) s : option (cluster Cmd) :=
  rf ← idx (nodes s) i;
  if killed rf then None
  else
    let '(rf', started) := tick now rf in
    s ← set_node i rf' s;
    Some (if started : bool then collectOpinion rf' s else s).

Definition execBuild (c : nat) s : option (cluster Cmd) :=
  v ← vcalls s !! c;
  match vc_stage v with
  | VStart =>
      if vc_live v then
        rf ← idx (nodes s) (vc_owner v);
        args ← opinionArgs rf;
        Some (set_vstage c (VSent args) s)
      else None
  | _ => None
  end.

Definition execVote (c : nat) (now : Z) s : option (cluster Cmd) :=
  v ← vcalls s !! c;
  match vc_stage v with
  | VSent args =>
      rf ← idx (nodes s) (vc_server v);
      '(rf, reply) ← RequestVote now args rf;
      s ← set_node (vc_server v) rf s;
      Some (set_vstage c (VReplied args reply) s)
  | _ => None
  end.

Definition execVoteReply (c : nat) s : option (cluster Cmd) :=
  v ← vcalls s !! c;
  match vc_stage v with
  | VReplied args reply =>
      if vc_live v then
        rf ← idx (nodes s) (vc_owner v);
        rd ← rounds s !! vc_round v;
        let '(rf, supporter, spawned) := opinionReply args reply (rd_supporter rd) rf in
        s ← set_node (vc_owner v) rf s;
        Some (spawn_reps (vc_owner v) spawned
               (set_supporter (vc_round v) supporter (set_vstage c VDone s)))
      else None
  | _ => None
  end.

Definition execRepSend (r : nat) s : option (cluster Cmd) :=
  p ← reps s !! r;
  match rp_stage p with
  | RIdle =>
      if rp_live p then
        rf ← idx (nodes s) (rp_owner p);
        if killed rf then None
        else
          d ← singleAppendSend (rp_server p) rf;
          match d with
          | NotLeader => Some s
          | SendInstall => args ← helpInstallArgs rf; Some (set_rstage r (RInstall args) s)
          | SendAppend args => Some (set_rstage r (RAppend args) s)
          end
      else None
  | _ => None
  end.

Definition execRepHandle (r : nat) (now : Z) s : option (cluster Cmd) :=
  p ← reps s !! r;
  match rp_stage p with
  | RAppend args =>
      rf ← idx (nodes s) (rp_server p);
      '(rf, reply) ← AppendEntries now args rf;
      s ← set_node (rp_server p) rf s;
      Some (set_rstage r (RAppendReplied args reply) s)
  | RInstall args =>
      rf ← idx (nodes s) (rp_server p);
      '(rf, reply, _) ← InstallSnapshot now args rf;
      s ← set_node (rp_server p) rf s;
      Some (set_rstage r (RInstallReplied args reply) s)
  | _ => None
  end.

Definition execRepReply (r : nat) s : option (cluster Cmd) :=
  p ← reps s !! r;
  if rp_live p then
    rf ← idx (nodes s) (rp_owner p);
    rf ← match rp_stage p with
         | RAppendReplied args reply =>
             fst <$> singleAppendReply (rp_server p) args (Some reply) rf
         | RInstallReplied args reply => helpInstallReply (rp_server p) args (Some reply) rf
         | _ => None
         end;
    s ← set_node (rp_owner p) rf s;
    Some (set_rstage r RIdle s)
  else None.

Definition execRepLost (r : nat) s : option (cluster Cmd) :=
  p ← reps s !! r;
  if rp_live p then
    rf ← idx (nodes s) (rp_owner p);
    rf ← match rp_stage p with
         | RAppend args | RAppendReplied args _ => fst <$> singleAppendReply (rp_server p) args None rf
         | RInstall args | RInstallReplied args _ => helpInstallReply (rp_server p) args None rf
         | RIdle => None
         end;
    s ← set_node (rp_owner p) rf s;
    Some (set_rstage r RIdle s)
  else None.

Definition exec s (ev : event Cmd) : option (cluster Cmd) :=
  match ev with
  | ETick i now => execTick i now s
  | EBuild c => execBuild c s
  | EVote c now => execVote c now s
  | EVoteReply c => execVoteReply c s
  | EVoteLost c =>
      v ← vcalls s !! c;
      match vc_stage v with
      | VSent _ | VReplied _ _ => Some (set_vstage c VDone s)
      | _ => None
      end
  | ERepSend r => execRepSend r s
  | ERepHandle r now => execRepHandle r now s
  | ERepReply r => execRepReply r s
  | ERepLost r => execRepLost r s
  | EStart i command => rf ← idx (nodes s) i; set_node i (Start command rf).1 s
  | ESnapshot i index snap =>
      rf ← idx (nodes s) i; rf ← Snapshot index snap rf; set_node i rf s
  | EKick i => rf ← idx (nodes s) i; '(rf, _) ← guardKick rf; set_node i rf s
  | ECrash i now =>
      rf ← idx (nodes s) i; rf ← restart now rf; s ← set_node i rf s; Some (orphan i s)
  end.

Fixpoint run s (evs : list (event Cmd)) : option (cluster Cmd) :=
  match evs with
  | [] => Some s
  | ev :: evs => s ← exec s ev; run s evs
  end.

(** A goroutine of [collectOpinion] builds its arguments while the peer is
    still in the term the round was started for. *)
Definition timely s (ev : event Cmd) : bool :=
  match ev with
  | EBuild c =>
      match vcalls s !! c with
      | Some v =>
          match rounds s !! vc_round v, idx (nodes s) (vc_owner v) with
          | Some rd, Some rf => rd_term rd =? currentTerm rf
          | _, _ => false
          end
      | None => false
      end
  | _ => true
  end.

Fixpoint run_timely s (evs : list (event Cmd)) : option (cluster Cmd) :=
  match evs with
  | [] => Some s
  | ev :: evs => if timely s ev then s ← exec s ev; run_timely s evs else None
  end.

(** [n] freshly booted peers. *)
Definition init (n : nat) : option (cluster Cmd) :=
  ns ← mapM (fun i => boot n i 0) (seqZ 0 (Z.of_nat n));
  Some (mkCluster ns [] [] []).
End exec.
