(* ===== verification/RaftElectionSafety.v ===== *)
(** * Raft: election safety of the cluster

    At most one leader per term, provided every vote request is built in the
    term its [collectOpinion] round was started for; and an execution without
    that proviso in which two peers lead the same term. *)

From S2P Require Import Prelude Gob RaftTypes RaftLog RaftElection RaftReplicate RaftSnapshot.
From S2P Require Import RaftPeer RaftCluster.

Section safety.
Context {Cmd : Type} `{!GobType Cmd}.
Implicit Types (s : cluster Cmd) (rf : Raft Cmd).

(** The votes cast so far: voter, term, candidate. *)
Definition votes : Type := Z -> Z -> Z -> Prop.
Implicit Types V : votes.

(** A majority of voters for candidate [i] in term [t]. *)
Definition elected (n : nat) V (t i : Z) : Prop :=
  exists Q, NoDup Q /\ (n / 2 < length Q)%nat
    /\ forall q, q ∈ Q -> 0 <= q < Z.of_nat n /\ V q t i.

Record node_inv (n : nat) V s : Prop := {
  ni_len : len (nodes s) = Z.of_nat n;
  ni_node : forall i rf, idx (nodes s) i = Some rf -> me rf = i /\ peers rf = n /\ durable rf;
  ni_fun : forall q t c c', V q t c -> V q t c' -> c = c';
  ni_past : forall q t c rf, V q t c -> idx (nodes s) q = Some rf ->
              c <> -1 /\ t <= currentTerm rf /\ (t = currentTerm rf -> votedFor rf = c);
  ni_lead : forall i rf, idx (nodes s) i = Some rf -> state rf = Leader ->
              elected n V (currentTerm rf) i;
  ni_pos : forall i rf, idx (nodes s) i = Some rf -> 0 <= currentTerm rf;
}.

Record call_inv (n : nat) V s : Prop := {
  ci_range : forall c v, vcalls s !! c = Some v ->
               0 <= vc_owner v < Z.of_nat n /\ 0 <= vc_server v < Z.of_nat n
               /\ vc_server v <> vc_owner v
               /\ exists rd, rounds s !! vc_round v = Some rd /\ rd_owner rd = vc_owner v;
  ci_uniq : forall c c' v v', vcalls s !! c = Some v -> vcalls s !! c' = Some v' ->
              vc_round v = vc_round v' -> vc_server v = vc_server v' -> c = c';
  ci_args : forall c v rd args, vcalls s !! c = Some v -> rounds s !! vc_round v = Some rd ->
              (vc_stage v = VSent args \/ exists reply, vc_stage v = VReplied args reply) ->
              CandidateId args = vc_owner v /\ rv_Term args = rd_term rd;
  ci_vote : forall c v args reply, vcalls s !! c = Some v -> vc_stage v = VReplied args reply ->
              VoteGranted reply = true -> V (vc_server v) (rv_Term args) (CandidateId args);
  ci_round : forall r rd, rounds s !! r = Some rd ->
               exists S, NoDup S /\ length S = rd_supporter rd
                 /\ (forall q, q ∈ S -> 0 <= q < Z.of_nat n /\ V q (rd_term rd) (rd_owner rd))
                 /\ (forall q, q ∈ S -> q = rd_owner rd \/ exists c v, vcalls s !! c = Some v
                       /\ vc_round v = r /\ vc_server v = q /\ vc_stage v = VDone);
}.

Definition inv (n : nat) V s : Prop := node_inv n V s /\ call_inv n V s.

(** Two leaders of one term would share a voter. *)
Lemma elected_unique n V s t i j : node_inv n V s -> elected n V t i -> elected n V t j -> i = j.
Proof.
  intros HI (Q1 & N1 & M1 & H1) (Q2 & N2 & M2 & H2).
  destruct (quorum_intersection n Q1 Q2) as (q & Hq1 & Hq2); try done;
    [intros q Hq; by apply H1|intros q Hq; by apply H2|].
  eapply (ni_fun _ _ _ HI q); [by apply H1|by apply H2].
Qed.

(** ** One peer steps *)

(** The ghost votes after peer [i] moved to [rf']. *)
Definition cast (i : Z) rf' V : votes := fun q t c =>
  V q t c \/ (q = i /\ t = currentTerm rf' /\ c = votedFor rf' /\ c <> -1).

(** A step of the cluster: at most one peer moves, and with it the votes. *)
Definition next (n : nat) V s s' : Prop :=
  (nodes s' = nodes s /\ inv n V s')
  \/ exists i rf', upd (nodes s) i rf' = Some (nodes s') /\ inv n (cast i rf' V) s'.

Lemma cast_mono i rf' V q t c : V q t c -> cast i rf' V q t c.
Proof. by left. Qed.

Lemma elected_mono n V V' t i :
  (forall q t c, V q t c -> V' q t c) -> elected n V t i -> elected n V' t i.
Proof. intros H (Q & ? & ? & HQ); exists Q; split_and!; try done. naive_solver. Qed.

Lemma node_step n V s s' i rf rf' :
  node_inv n V s -> idx (nodes s) i = Some rf ->
  vote_step rf rf' -> (durable rf -> durable rf') ->
  (state rf' = Leader -> (state rf = Leader /\ currentTerm rf' = currentTerm rf)
                         \/ elected n (cast i rf' V) (currentTerm rf') i) ->
  upd (nodes s) i rf' = Some (nodes s') -> node_inv n (cast i rf' V) s'.
Proof.
  intros HI Hi [Hme Hpe Hte Hvo] Hd Hl Hu.
  assert (Hold : forall t c, V i t c -> t = currentTerm rf' -> votedFor rf' = c).
  { intros t c Hv ->; destruct (ni_past _ _ _ HI _ _ _ _ Hv Hi) as (? & ? & Heq).
    assert (Ht : currentTerm rf' = currentTerm rf) by lia.
    destruct (Hvo Ht); specialize (Heq Ht); congruence. }
  assert (Hother : forall j, i <> j -> idx (nodes s') j = idx (nodes s) j)
    by (intros; by eapply idx_upd_ne).
  pose proof (idx_upd_eq _ _ _ _ Hu) as Hself.
  destruct (ni_node _ _ _ HI _ _ Hi) as (? & ? & ?).
  split.
  - by rewrite (upd_len _ _ _ _ Hu), (ni_len _ _ _ HI).
  - intros j rfj Hj; destruct (decide (i = j)) as [->|Hne].
    + rewrite Hself in Hj; inv_opt; split_and!; [congruence|congruence|auto].
    + rewrite Hother in Hj by done; eauto using ni_node.
  - intros q t c c' [G1|(-> & -> & -> & ?)] [G2|(? & ? & -> & ?)]; subst; eauto using ni_fun.
    symmetry; eauto.
  - intros q t c rfq Hv Hq; destruct (decide (i = q)) as [->|Hne].
    + rewrite Hself in Hq; inv_opt; destruct Hv as [Hv|(_ & -> & -> & ?)]; [|split_and!; auto; lia].
      destruct (ni_past _ _ _ HI _ _ _ _ Hv Hi) as (? & ? & ?); split_and!; [done|lia|eauto].
    + rewrite Hother in Hq by done; destruct Hv as [Hv|(-> & _)]; [|done].
      eauto using ni_past.
  - intros j rfj Hj Lj; destruct (decide (i = j)) as [->|Hne].
    + rewrite Hself in Hj; inv_opt; destruct (Hl Lj) as [(Lr & ->)|]; [|done].
      eapply elected_mono; [|by eapply ni_lead]. by left.
    + rewrite Hother in Hj by done; eapply elected_mono; [|by eapply ni_lead]. by left.
  - intros j rfj Hj; destruct (decide (i = j)) as [->|Hne].
    + rewrite Hself in Hj; inv_opt. pose proof (ni_pos _ _ _ HI _ _ Hi); lia.
    + rewrite Hother in Hj by done; eauto using ni_pos.
Qed.

Lemma good_vote_step rf rf' : good_step rf rf' -> vote_step rf rf'.
Proof. intros H; apply good_fine in H; by destruct H. Qed.

(** Every critical section other than [opinionReply]. *)
Lemma good_node_step n V s s' i rf rf' :
  node_inv n V s -> idx (nodes s) i = Some rf -> good_step rf rf' ->
  upd (nodes s) i rf' = Some (nodes s') -> node_inv n (cast i rf' V) s'.
Proof.
  intros HI Hi Hg Hu; eapply node_step; eauto using good_vote_step; [apply Hg|].
  intros HL; left; destruct Hg as [[] _]; naive_solver.
Qed.

Lemma call_inv_mono n V V' s s' :
  (forall q t c, V q t c -> V' q t c) -> vcalls s' = vcalls s -> rounds s' = rounds s ->
  call_inv n V s -> call_inv n V' s'.
Proof.
  intros HV Hv Hr []; split; rewrite ?Hv, ?Hr; try done; [eauto|].
  intros r rd Hrd; destruct (ci_round0 r rd Hrd) as (S & ? & ? & HS & ?).
  exists S; split_and!; try done. naive_solver.
Qed.

(** ** The goroutines of collectOpinion *)

Lemma lookup_set_vstage c st s c' v' :
  vcalls (set_vstage c st s) !! c' = Some v' ->
  exists v, vcalls s !! c' = Some v /\ vc_owner v' = vc_owner v /\ vc_round v' = vc_round v
    /\ vc_server v' = vc_server v /\ ((c' = c /\ vc_stage v' = st) \/ (c' <> c /\ v' = v)).
Proof.
  simpl; rewrite list_lookup_alter; case_decide; subst.
  - intros Hx; inv_opt; subst; eexists; split; [done|]; simpl; auto 10.
  - intros Hx; eexists; split; [done|]; auto 10.
Qed.

Lemma lookup_set_vstage_done c st s c' v :
  vcalls s !! c' = Some v -> (c' = c -> st = VDone) -> vc_stage v = VDone ->
  exists v', vcalls (set_vstage c st s) !! c' = Some v' /\ vc_round v' = vc_round v
    /\ vc_server v' = vc_server v /\ vc_stage v' = VDone.
Proof.
  intros Hv Hst Hd; simpl; rewrite list_lookup_alter; case_decide; subst; rewrite Hv; simpl;
    eexists; split; auto.
Qed.

Lemma stage_step n V s c v st :
  call_inv n V s -> vcalls s !! c = Some v -> vc_stage v <> VDone ->
  (forall rd args, rounds s !! vc_round v = Some rd ->
     (st = VSent args \/ exists reply, st = VReplied args reply) ->
     CandidateId args = vc_owner v /\ rv_Term args = rd_term rd) ->
  (forall args reply, st = VReplied args reply -> VoteGranted reply = true ->
     V (vc_server v) (rv_Term args) (CandidateId args)) ->
  call_inv n V (set_vstage c st s).
Proof.
  intros HI Hc Hnd Hargs Hvote; split; change (rounds (set_vstage c st s)) with (rounds s).
  - intros c1 v1 (v0 & H0 & -> & -> & -> & _)%lookup_set_vstage; eauto using ci_range.
  - intros c1 c2 v1 v2 (u1 & H1 & _ & -> & -> & _)%lookup_set_vstage
      (u2 & H2 & _ & -> & -> & _)%lookup_set_vstage; eauto using ci_uniq.
  - intros c1 v1 rd args (v0 & H0 & -> & -> & _ & [(-> & ->)|(_ & ->)])%lookup_set_vstage;
      [|eauto using ci_args].
    rewrite Hc in H0; inv_opt; eauto.
  - intros c1 v1 args reply (v0 & H0 & _ & _ & -> & [(-> & ->)|(_ & ->)])%lookup_set_vstage;
      [|by apply (ci_vote _ _ _ HI c1)].
    rewrite Hc in H0; inv_opt; eauto.
  - intros r rd Hr; destruct (ci_round _ _ _ HI r rd Hr) as (Q & ? & ? & ? & HQ).
    exists Q; split_and!; try done; intros q Hq; destruct (HQ q Hq) as [|(c1 & v1 & Hv1 & ? & ? & ?)].
    { by left. }
    right; destruct (lookup_set_vstage_done c st s c1 v1) as (v' & ? & ? & ? & ?); try done.
    { intros ->; congruence. }
    exists c1, v'; split_and!; congruence.
Qed.

(** Counting a vote in the round's term. *)
Lemma count_step n V s c v rd args reply :
  call_inv n V s -> vcalls s !! c = Some v -> vc_stage v = VReplied args reply ->
  rounds s !! vc_round v = Some rd -> VoteGranted reply = true ->
  call_inv n V (set_supporter (vc_round v) (S (rd_supporter rd)) (set_vstage c VDone s))
  /\ exists Q, NoDup Q /\ length Q = S (rd_supporter rd)
       /\ forall q, q ∈ Q -> 0 <= q < Z.of_nat n /\ V q (rd_term rd) (rd_owner rd).
Proof.
  intros HI Hc Hst Hrd Hg.
  destruct (ci_range _ _ _ HI c v Hc) as (Ho & Hs & Hne & rd' & Hrd' & Hown).
  rewrite Hrd in Hrd'; inv_opt.
  destruct (ci_args _ _ _ HI c v rd' args Hc Hrd) as (Hcand & Hterm); [eauto|].
  pose proof (ci_vote _ _ _ HI c v args reply Hc Hst Hg) as Hv.
  destruct (ci_round _ _ _ HI _ _ Hrd) as (Q & HN & HL & HQ & HQd).
  assert (Hnew : vc_server v ∉ Q).
  { intros Hin; destruct (HQd _ Hin) as [|(c1 & v1 & Hc1 & Hr1 & Hs1 & Hd1)]; [congruence|].
    rewrite (ci_uniq _ _ _ HI c1 c v1 v Hc1 Hc Hr1 Hs1) in Hc1; congruence. }
  assert (HQ' : forall q, q ∈ vc_server v :: Q ->
                  0 <= q < Z.of_nat n /\ V q (rd_term rd') (rd_owner rd')).
  { intros q [->|Hq]%elem_of_cons; [|by apply HQ]. split; [done|]. congruence. }
  split; [|exists (vc_server v :: Q); split_and!; [by constructor|simpl; congruence|done]].
  assert (HI' : call_inv n V (set_vstage c VDone s)).
  { eapply stage_step; eauto; [congruence| |]; naive_solver. }
  assert (Hlk : forall r rd2, rounds (set_supporter (vc_round v) (S (rd_supporter rd'))
                   (set_vstage c VDone s)) !! r = Some rd2 ->
                 exists rd1, rounds s !! r = Some rd1 /\ rd_owner rd2 = rd_owner rd1
                   /\ rd_term rd2 = rd_term rd1
                   /\ ((r = vc_round v /\ rd_supporter rd2 = S (rd_supporter rd'))
                       \/ (r <> vc_round v /\ rd2 = rd1))).
  { intros r rd2; simpl; rewrite list_lookup_alter; case_decide; intros Hx; inv_opt; subst;
      eexists; split_and!; simpl; eauto. }
  destruct HI' as [G1 G2 G3 G4 G5]; split; try done.
  - intros c1 v1 Hc1; destruct (G1 c1 v1 Hc1) as (? & ? & ? & rd1 & Hrd1 & ?); split_and!; try lia; try done.
    simpl; rewrite list_lookup_alter; simpl in Hrd1; case_decide as Heq;
      rewrite ?Heq, Hrd1; simpl; eauto.
  - intros c1 v1 rd2 args1 Hc1 (rd1 & Hr1 & _ & -> & _)%Hlk Hst1; eauto.
  - intros r rd2 (rd1 & Hr1 & HO & HT & Hcase)%Hlk; destruct Hcase as [(-> & ->)|(? & ->)]; [|auto].
    rewrite Hrd in Hr1; inv_opt; exists (vc_server v :: Q); rewrite HO, HT.
    split_and!; [by constructor|simpl; congruence|done|].
    destruct (G5 _ _ Hrd) as (Q2 & _ & _ & _ & _).
    intros q [->|Hq]%elem_of_cons.
    + right; eexists c, _; simpl; rewrite list_lookup_alter_eq, Hc; simpl; done.
    + destruct (HQd q Hq) as [|(c1 & v1 & Hv1 & ? & ? & ?)]; [by left|right].
      destruct (lookup_set_vstage_done c VDone s c1 v1) as (v' & ? & ? & ? & ?); try done.
      exists c1, v'; split_and!; try congruence. done.
Qed.

(** A new round: its own vote is counted, nobody has been asked yet. *)
Lemma lookup_collect rf s c v :
  vcalls (collectOpinion rf s) !! c = Some v ->
  vcalls s !! c = Some v
  \/ exists k j, c = (length (vcalls s) + k)%nat
       /\ filter (fun j => j <> me rf) (seqZ 0 (Z.of_nat (peers rf))) !! k = Some j
       /\ v = mkVcall (me rf) (length (rounds s)) j VStart true.
Proof.
  simpl; intros [|(Hle & Hk)]%lookup_app_Some; [by left|right].
  apply list_lookup_fmap_Some in Hk as (j & -> & Hk).
  exists (c - length (vcalls s))%nat, j; split_and!; [lia|done|done].
Qed.

Lemma collect_step n V s rf :
  call_inv n V s -> 0 <= me rf < Z.of_nat n -> peers rf = n ->
  V (me rf) (currentTerm rf) (me rf) -> call_inv n V (collectOpinion rf s).
Proof.
  intros HI Hme Hp HV.
  set (others := filter (fun j => j <> me rf) (seqZ 0 (Z.of_nat (peers rf)))).
  assert (Hold : forall c v, vcalls s !! c = Some v -> (vc_round v < length (rounds s))%nat).
  { intros c v Hc; destruct (ci_range _ _ _ HI c v Hc) as (_ & _ & _ & rd & ?%lookup_lt_Some & _); done. }
  assert (HND : NoDup others) by (apply NoDup_filter, NoDup_seqZ).
  assert (Hoth : forall k j, others !! k = Some j -> 0 <= j < Z.of_nat n /\ j <> me rf).
  { intros k j Hk%list_elem_of_lookup_2; apply list_elem_of_filter in Hk as (? & Hj%elem_of_seqZ).
    rewrite Hp in Hj; split; [lia|done]. }
  assert (Hrd : forall r rd, rounds s !! r = Some rd -> rounds (collectOpinion rf s) !! r = Some rd)
    by (intros; simpl; by apply lookup_app_l_Some).
  split.
  - intros c v [Hc|(k & j & -> & Hk & ->)]%lookup_collect.
    + destruct (ci_range _ _ _ HI c v Hc) as (? & ? & ? & rd & ? & ?); split_and!; try lia; eauto.
    + destruct (Hoth k j Hk); split_and!; simpl; try lia; try done.
      eexists; rewrite lookup_app_r, Nat.sub_diag by lia; done.
  - intros c c' v v' [Hc|(k & j & -> & Hk & ->)]%lookup_collect
      [Hc'|(k' & j' & -> & Hk' & ->)]%lookup_collect; simpl; intros Hr Hs.
    + eauto using ci_uniq.
    + apply Hold in Hc; lia.
    + apply Hold in Hc'; lia.
    + subst; f_equal; by eapply NoDup_lookup.
  - intros c v rd args [Hc|(k & j & -> & Hk & ->)]%lookup_collect; [|intros _; naive_solver].
    pose proof (Hold c v Hc); simpl; rewrite lookup_app_l by done; eauto using ci_args.
  - intros c v args reply [Hc|(k & j & -> & Hk & ->)]%lookup_collect; [|done].
    by apply (ci_vote _ _ _ HI c).
  - intros r rd; simpl; intros [Hr|(Hle & Hr)]%lookup_app_Some.
    + destruct (ci_round _ _ _ HI r rd Hr) as (Q & ? & ? & ? & HQ); exists Q; split_and!; try done.
      intros q Hq; destruct (HQ q Hq) as [|(c & v & ? & ?)]; [by left|right].
      exists c, v; split; [by apply lookup_app_l_Some|done].
    + apply list_lookup_singleton_Some in Hr as (_ & <-); simpl.
      exists [me rf]; split_and!; try done; [apply NoDup_singleton| |];
        intros q ->%list_elem_of_singleton; [done|by left].
Qed.

Lemma orphan_step n V s i : call_inv n V s -> call_inv n V (orphan i s).
Proof.
  intros HI.
  assert (Hlk : forall c v, vcalls (orphan i s) !! c = Some v ->
            exists v0, vcalls s !! c = Some v0 /\ vc_owner v = vc_owner v0 /\ vc_round v = vc_round v0
              /\ vc_server v = vc_server v0 /\ vc_stage v = vc_stage v0).
  { simpl; intros c v (v0 & -> & ?)%list_lookup_fmap_Some; eauto 10. }
  split; change (rounds (orphan i s)) with (rounds s).
  - intros c v (v0 & ? & -> & -> & -> & _)%Hlk; eauto using ci_range.
  - intros c c' v v' (v0 & ? & _ & -> & -> & _)%Hlk (v1 & ? & _ & -> & -> & _)%Hlk; eauto using ci_uniq.
  - intros c v rd args (v0 & ? & -> & -> & _ & ->)%Hlk; eauto using ci_args.
  - intros c v args reply (v0 & ? & _ & _ & -> & ->)%Hlk; by apply (ci_vote _ _ _ HI c).
  - intros r rd Hr; destruct (ci_round _ _ _ HI r rd Hr) as (Q & ? & ? & ? & HQ); exists Q; split_and!; try done.
    intros q Hq; destruct (HQ q Hq) as [|(c & v & Hv & ? & ? & ?)]; [by left|right].
    eexists c, _; simpl; rewrite list_lookup_fmap, Hv; done.
Qed.

(** ** Events *)

Lemma set_node_Some i rf s s' :
  set_node i rf s = Some s' ->
  upd (nodes s) i rf = Some (nodes s') /\ rounds s' = rounds s /\ vcalls s' = vcalls s.
Proof. unfold set_node; intros H; inv_opt; done. Qed.

Lemma node_inv_nodes n V s s' : nodes s' = nodes s -> node_inv n V s -> node_inv n V s'.
Proof. intros Hn []; split; rewrite ?Hn; done. Qed.

Lemma inv_good n V s s' i rf rf' :
  inv n V s -> idx (nodes s) i = Some rf -> good_step rf rf' -> set_node i rf' s = Some s' -> next n V s s'.
Proof.
  intros [HN HC] Hi Hg (Hu & Hr & Hv)%set_node_Some. right; exists i, rf'; split; [done|].
  split; [by eapply good_node_step|]. eapply call_inv_mono; [apply cast_mono|done|done|done].
Qed.

Lemma inv_ext n V s s' : nodes s' = nodes s -> rounds s' = rounds s -> vcalls s' = vcalls s ->
  inv n V s -> inv n V s'.
Proof.
  intros Hn Hr Hv [HN HC]; split; [by eapply node_inv_nodes|]. by apply (call_inv_mono n V V s).
Qed.

Lemma next_same n V s s1 s' : nodes s' = nodes s1 -> rounds s' = rounds s1 -> vcalls s' = vcalls s1 ->
  next n V s s1 -> next n V s s'.
Proof.
  intros Hn Hr Hv [[E HI]|(i & rf' & Hu & HI)]; [left|right; exists i, rf']; rewrite Hn;
    (split; [done|by eapply inv_ext]).
Qed.

Lemma RequestVote_grant now args rf rf' reply :
  RequestVote now args rf = Some (rf', reply) -> VoteGranted reply = true ->
  currentTerm rf' = rv_Term args /\ votedFor rf' = CandidateId args.
Proof.
  unfold RequestVote; intros H Hg.
  assert (Hle : rv_Term args
    <= currentTerm (if rv_Term args >? currentTerm rf then newGen (rv_Term args) rf else rf))
    by (case_if; simpl; lia).
  revert Hle H; generalize (if rv_Term args >? currentTerm rf then newGen (rv_Term args) rf else rf).
  intros rf1 Hle H; case_if_in H; inv_opt; simpl in *; [done|].
  destruct x as [rf2 g]; inv_opt; simpl in Hg; subst.
  match goal with Ht : tryVotingFor _ _ _ _ _ = _ |- _ =>
    unfold tryVotingFor in Ht; inv_opt; case_if_in Ht; inv_opt; try done end.
  simpl; split; [lia|done].
Qed.

Lemma exec_tick n V s s' i now : inv n V s -> execTick i now s = Some s' -> next n V s s'.
Proof.
  unfold execTick; intros HI H; inv_opt; case_if_in H; [done|].
  match goal with Hi : idx _ _ = Some ?r |- _ => rename r into rf; rename Hi into Hi' end.
  pose proof (good_tick now rf) as Hg; destruct (tick now rf) as [rf' started] eqn:ET.
  simpl in Hg; inv_opt; destruct started; [|by eapply inv_good].
  destruct HI as [HN HC].
  match goal with Hs : set_node _ _ _ = Some ?t |- _ =>
    rename t into s1; apply set_node_Some in Hs as (Hu & Hr & Hv) end.
  destruct (ni_node _ _ _ HN _ _ Hi') as (Hme & Hpe & _).
  assert (Hrf : rf' = becomeCandidate rf) by (unfold tick in ET; case_if_in ET; congruence).
  right; exists i, rf'; split; [done|]; split.
  - eapply (node_inv_nodes _ _ s1); [done|by eapply good_node_step].
  - pose proof (idx_Some_range _ _ _ Hi'); pose proof (ni_len _ _ _ HN).
    apply collect_step.
    + eapply call_inv_mono; [apply cast_mono|done|done|done].
    + rewrite Hrf; simpl; lia.
    + by rewrite Hrf.
    + right; rewrite Hrf; simpl; split_and!; try done; lia.
Qed.

Lemma exec_build n V s s' c :
  inv n V s -> timely s (EBuild c) = true -> execBuild c s = Some s' -> next n V s s'.
Proof.
  unfold execBuild, timely; intros [HN HC] Ht H; inv_opt.
  rename x into v; rewrite H0 in Ht; destruct (vc_stage v) eqn:Est; try done.
  destruct (vc_live v); [|done]; inv_opt.
  rewrite H1 in Ht; unfold opinionArgs in *; inv_opt.
  left; split; [done|]; split; [by apply (node_inv_nodes n V s)|].
  eapply stage_step; eauto; [congruence| |naive_solver].
  intros rd args Hrd [Hst|(? & ?)]; [|done]; injection Hst as <-; simpl.
  rewrite Hrd in Ht; zbool.
  destruct (ni_node _ _ _ HN _ _ H1) as (? & _); split; [done|congruence].
Qed.

Lemma exec_vote n V s s' c now : inv n V s -> execVote c now s = Some s' -> next n V s s'.
Proof.
  unfold execVote; intros [HN HC] H; inv_opt.
  rename x into v; destruct (vc_stage v) as [|args| |] eqn:Est; try done; inv_opt.
  destruct x0 as [rf' reply]; inv_opt.
  match goal with Hs : set_node _ _ _ = Some ?t |- _ =>
    rename t into s1; apply set_node_Some in Hs as (Hu & Hr & Hv) end.
  rename H0 into Hc; match goal with Hi : idx _ _ = Some _ |- _ => rename Hi into Hi' end.
  match goal with HR : RequestVote _ _ _ = _ |- _ => rename HR into HR' end.
  set (V' := cast (vc_server v) rf' V).
  right; exists (vc_server v), rf'; split; [done|]; split; [eapply (node_inv_nodes _ _ s1); [done|eapply good_node_step; eauto using good_RequestVote]|].
  assert (HC' : call_inv n V' s1) by (eapply call_inv_mono; [apply cast_mono|done|done|done]).
  destruct (ci_range _ _ _ HC c v Hc) as (Ho & _ & _ & rd0 & Hrd0 & _).
  destruct (ci_args _ _ _ HC c v rd0 args Hc Hrd0) as (Hcand & Hterm); [by left|].
  eapply stage_step; eauto; [by rewrite Hv|congruence| |].
  - intros rd args1 Hrd [?|(? & Hst)]; [done|]; injection Hst as <- <-.
    rewrite Hr, Hrd0 in Hrd; inv_opt; done.
  - intros args1 reply1 Hst Hg; injection Hst as <- <-.
    destruct (RequestVote_grant _ _ _ _ _ HR' Hg) as (Ht & Hvf).
    right; split_and!; try done; lia.
Qed.

Lemma opinionReply_cases args reply m rf rf' m' sp :
  opinionReply args reply m rf = (rf', m', sp) ->
  (m' = m /\ good_step rf rf')
  \/ (VoteGranted reply = true /\ state rf = Candidate /\ currentTerm rf = rv_Term args
      /\ m' = S m /\ (rf' = rf \/ ((peers rf / 2 < S m)%nat /\ rf' = (becomeLeader rf).1))).
Proof.
  unfold opinionReply; destruct (rvr_Term reply >? currentTerm rf) eqn:E; zbool.
  - simpl; rewrite andb_false_r; simpl; intros; inv_opt; left; split; [done|].
    split; auto with raft.
  - intros H; case_if_in H; [|inv_opt; left; split; [done|apply good_refl]].
    case_if_in H; simpl in H; inv_opt; right; split_and!; auto.
    right; split; [by apply Nat.ltb_lt|done].
Qed.

Lemma good_becomeLeader_vote rf : vote_step rf (becomeLeader rf).1.
Proof. split; simpl; auto; lia. Qed.

Lemma exec_vote_reply n V s s' c : inv n V s -> execVoteReply c s = Some s' -> next n V s s'.
Proof.
  unfold execVoteReply; intros [HN HC] H; inv_opt.
  rename x into v, H0 into Hc; destruct (vc_stage v) as [| |args reply|] eqn:Est; try done.
  destruct (vc_live v); [|done]; inv_opt; rename x into rf, H0 into Hi, x0 into rd, H1 into Hrd.
  destruct (opinionReply args reply (rd_supporter rd) rf) as [[rf' m] sp] eqn:EO; inv_opt.
  rename x into s1, H0 into Hs; apply set_node_Some in Hs as (Hu & Hr & Hv).
  destruct (ci_range _ _ _ HC c v Hc) as (_ & _ & _ & rd0 & Hrd0 & Hown).
  rewrite Hrd in Hrd0; symmetry in Hrd0; inv_opt.
  destruct (ci_args _ _ _ HC c v rd args Hc Hrd) as (_ & Hterm); [eauto|].
  destruct (fine_opinionReply _ _ _ _ _ _ _ EO) as (Hvs & Hdur & _).
  set (V' := cast (vc_owner v) rf' V).
  assert (HC1 : call_inv n V' s1) by (eapply call_inv_mono; [apply cast_mono|done|done|done]).
  rewrite <- Hv in Hc; rewrite <- Hr in Hrd.
  right; exists (vc_owner v), rf'; split; [done|]; split.
  - eapply (node_inv_nodes _ _ s1); [done|]; eapply node_step; eauto.
    destruct (opinionReply_cases _ _ _ _ _ _ _ EO) as [(_ & [[] _])|(Hg & HSt & HT & -> & Hcase)].
    { intros HL; left; naive_solver. }
    destruct Hcase as [->|(Hmaj & ->)]; [intros; congruence|intros _; right].
    destruct (count_step n V' s1 c v rd args reply) as (_ & Q & ? & HQl & HQ); try done.
    exists Q; destruct (ni_node _ _ _ HN _ _ Hi) as (_ & Hpe & _).
    split_and!; [done|rewrite HQl, <- Hpe; exact Hmaj|].
    intros q Hq; destruct (HQ q Hq) as (? & HVq); split; [done|].
    change (currentTerm (becomeLeader rf).1) with (currentTerm rf).
    rewrite Hown in HVq; rewrite HT, Hterm; exact HVq.
  - eapply (call_inv_mono n V' V' (set_supporter (vc_round v) m (set_vstage c VDone s1))); try done.
    destruct (opinionReply_cases _ _ _ _ _ _ _ EO) as [(-> & _)|(Hg & _ & _ & -> & _)].
    + assert (Hsame : rounds (set_supporter (vc_round v) (rd_supporter rd) (set_vstage c VDone s1))
                      = rounds s1).
      { apply list_eq; intros r; simpl; rewrite list_lookup_alter; case_decide; [|done]; subst.
        rewrite Hrd; simpl; f_equal; by destruct rd. }
      eapply (call_inv_mono n V' V' (set_vstage c VDone s1)); [done|done|exact Hsame|].
      eapply stage_step; eauto; [congruence| |]; naive_solver.
    + by apply count_step with (args := args) (reply := reply).
Qed.

Lemma good_restart_vote now rf rf' :
  durable rf -> restart now rf = Some rf' -> vote_step rf rf' /\ durable rf' /\ state rf' = Follower.
Proof.
  intros Hd Hr; destruct (restart_durable now rf Hd) as (rf2 & Hr2 & Hq & ? & ? & ? & ? & _).
  rewrite Hr in Hr2; inv_opt; injection Hq as ? ? ? ? ?.
  split_and!; [split; try congruence; [lia|right; congruence]|done|done].
Qed.

Lemma exec_crash n V s s' i now : inv n V s -> exec s (ECrash i now) = Some s' -> next n V s s'.
Proof.
  simpl; intros [HN HC] H; inv_opt.
  rename x into rf, H0 into Hi, x0 into rf', H1 into HR, x1 into s1, H2 into Hs.
  apply set_node_Some in Hs as (Hu & Hr & Hv).
  destruct (ni_node _ _ _ HN _ _ Hi) as (_ & _ & Hd).
  destruct (good_restart_vote now rf rf' Hd HR) as (Hvs & Hd' & Hst).
  right; exists i, rf'; split; [done|]; split.
  - eapply (node_inv_nodes _ _ s1); [done|]; eapply node_step; eauto; congruence.
  - apply orphan_step; eapply call_inv_mono; [apply cast_mono|done|done|done].
Qed.

Lemma exec_rep n V s s' (ev : event Cmd) :
  inv n V s ->
  match ev with ERepSend _ | ERepHandle _ _ | ERepReply _ | ERepLost _ => True | _ => False end ->
  exec s ev = Some s' -> next n V s s'.
Proof.
  intros HI Hev; destruct ev; try done; clear Hev; cbn [exec].
  - unfold execRepSend; intros H; inv_opt; destruct (rp_stage x); try done.
    destruct (rp_live x); [|done]; inv_opt; case_if_in H; [done|]; inv_opt.
    destruct x1; inv_opt; left; (split; [done|]); first [exact HI|by eapply (inv_ext n V); [..|exact HI]].
  - unfold execRepHandle; intros H; inv_opt; destruct (rp_stage x); try done; inv_opt.
    + destruct x1; inv_opt; eapply (next_same n V s x1); [done..|].
      eapply inv_good; eauto using good_AppendEntries.
    + destruct x1 as [[rf' reply] msg]; inv_opt; eapply (next_same n V s x1); [done..|].
      eapply inv_good; eauto using good_InstallSnapshot.
  - unfold execRepReply; intros H; inv_opt; destruct (rp_live x); [|done]; inv_opt.
    eapply (next_same n V s x2); [done..|]; eapply inv_good; eauto.
    destruct (rp_stage x) as [|?|? ?|?|? ?]; try done; [|eauto using good_helpInstallReply].
    match goal with Hf : fst <$> _ = Some _ |- _ => apply fmap_Some in Hf as ([r1 b] & Hf & ->) end.
    eauto using good_singleAppendReply.
  - unfold execRepLost; intros H; inv_opt; destruct (rp_live x); [|done]; inv_opt.
    eapply (next_same n V s x2); [done..|]; eapply inv_good; eauto.
    destruct (rp_stage x); simpl in *; inv_opt; apply good_refl.
Qed.

Lemma exec_inv n V s s' ev : inv n V s -> timely s ev = true -> exec s ev = Some s' -> next n V s s'.
Proof.
  intros HI Ht H; destruct ev.
  - by eapply exec_tick.
  - by eapply exec_build.
  - by eapply exec_vote.
  - by eapply exec_vote_reply.
  - simpl in H; inv_opt; destruct HI as [HN HC].
    assert (vc_stage x <> VDone /\ s' = set_vstage c VDone s) as (Hst & ->)
      by (destruct (vc_stage x); by inv_opt).
    left; split; [done|]. split; [by apply (node_inv_nodes n V s)|eapply stage_step; eauto; naive_solver].
  - by refine (exec_rep _ _ _ _ _ HI _ H).
  - by refine (exec_rep _ _ _ _ _ HI _ H).
  - by refine (exec_rep _ _ _ _ _ HI _ H).
  - by refine (exec_rep _ _ _ _ _ HI _ H).
  - simpl in H; inv_opt; eapply inv_good; eauto using good_Start.
  - simpl in H; inv_opt; eapply inv_good; eauto using good_Snapshot.
  - simpl in H; inv_opt; destruct x0; inv_opt; eapply inv_good; eauto using good_guardKick.
  - by eapply exec_crash.
Qed.

Lemma init_inv n s : init n = Some s -> inv n (fun _ _ _ => False) s.
Proof.
  unfold init; intros H; inv_opt.
  assert (Hn : forall i rf, idx x i = Some rf -> boot n i 0 = Some rf).
  { intros i rf; unfold idx; case_if; [|done]; intros Hi.
    apply mapM_Some in H0; destruct (Forall2_lookup_r _ _ _ _ _ H0 Hi) as (j & Hj & Hb).
    apply lookup_seqZ in Hj as (-> & ?); rewrite <- Hb; f_equal; lia. }
  split; split; simpl; try done.
  - apply length_mapM in H0; unfold len; rewrite <- H0, length_seqZ; lia.
  - intros i rf Hi%Hn; split_and!; [..|by eapply boot_durable];
      unfold boot, Make in Hi; simpl in Hi; by inv_opt.
  - intros i rf Hi%Hn HL; unfold boot, Make in Hi; simpl in Hi; by inv_opt.
  - intros i rf Hi%Hn; unfold boot, Make in Hi; simpl in Hi; by inv_opt.
Qed.

Lemma next_inv n V s s' : next n V s s' -> exists V', (forall q t c, V q t c -> V' q t c) /\ inv n V' s'.
Proof. intros [[_ ?]|(i & rf' & _ & ?)]; [by exists V|]. exists (cast i rf' V); split; [by left|done]. Qed.

(** Votes are only added. *)
Lemma run_timely_inv n V s evs s' :
  inv n V s -> run_timely s evs = Some s' -> exists V', (forall q t c, V q t c -> V' q t c) /\ inv n V' s'.
Proof.
  revert s V; induction evs as [|ev evs IH]; simpl; intros s V HI H; inv_opt; [by exists V|].
  destruct (timely s ev) eqn:Et; [|done]; inv_opt.
  match goal with Hx : exec s ev = Some _ |- _ => destruct (next_inv _ _ _ _ (exec_inv n V s _ ev HI Et Hx)) as (V1 & HV1 & HI1) end.
  destruct (IH _ V1 HI1 H) as (V2 & HV2 & HI2). exists V2; split; [auto|done].
Qed.

(** A leader and a later leader of the same term are the same. *)
Lemma leader_once n V s1 evs s2 i j rfi rfj :
  inv n V s1 -> run_timely s1 evs = Some s2 -> idx (nodes s1) i = Some rfi -> idx (nodes s2) j = Some rfj ->
  state rfi = Leader -> state rfj = Leader -> currentTerm rfi = currentTerm rfj -> i = j.
Proof.
  intros HI1 Hrun Hi Hj Li Lj Ht. destruct (run_timely_inv n _ s1 evs s2 HI1 Hrun) as (V2 & HV & [HN2 _]).
  apply (elected_unique n V2 s2 (currentTerm rfj)); [done| |by apply (ni_lead _ _ _ HN2)].
  rewrite <- Ht. eapply elected_mono; [exact HV|]. by apply (ni_lead _ _ _ (proj1 HI1)).
Qed.

(** C2: election safety. In every execution of the cluster from [n] booted
    peers (arbitrary interleavings, message delays, reorderings and losses,
    crashes and restarts) in which each vote request is built in the term its
    round was started for, no two peers ever lead the same term: a peer that
    leads at one point and a peer that leads the same term at that point or any
    time after it are the same. *)
Theorem election_safety (n : nat) s0 evs1 s1 evs2 s2 i j rfi rfj
    (Hinit : init n = Some s0) (Hrun1 : run_timely s0 evs1 = Some s1) (Hrun2 : run_timely s1 evs2 = Some s2)
    (Hi : idx (nodes s1) i = Some rfi) (Hj : idx (nodes s2) j = Some rfj)
    (Li : state rfi = Leader) (Lj : state rfj = Leader)
    (Ht : currentTerm rfi = currentTerm rfj) :
  i = j.
Proof.
  destruct (run_timely_inv n _ s0 evs1 s1 (init_inv n s0 Hinit) Hrun1) as (V1 & _ & HI1).
  by eapply (leader_once n V1 s1 evs2 s2).
Qed.
End safety.

(** ** Concrete executions *)

(** Peer 0 of three stands, peer 1 votes for it, and it leads term 1. *)
Definition ex_election : list (event Z) :=
  [ETick 0 1000; EBuild 0; EVote 0 1001; EVoteReply 0].

Definition leaders (s : cluster Z) : list (Z * Z) :=
  (fun rf => (me rf, currentTerm rf)) <$> filter (fun rf => state rf = Leader) (nodes s).

(** Five peers. Peer 0 wins a vote in term 1; a goroutine of the same round
    only gets to build its arguments once peer 0 stands again, in term 2, and
    its vote is added to the counter of term 1. *)
Definition ex_stale_round : list (event Z) :=
  [ETick 0 1000; EBuild 0; EVote 0 1001; EVoteReply 0;
   ETick 0 1400; EBuild 1; EVote 1 1401; EVoteReply 1;
   ETick 3 1500; ETick 3 1900; EBuild 13; EVote 13 1901; EVoteReply 13;
   EBuild 15; EVote 15 1902; EVoteReply 15].

Definition no_cluster : cluster Z := mkCluster [] [] [] [].
Definition ex_start3 : cluster Z := default no_cluster (init 3).
Definition ex_elected : cluster Z := default no_cluster (run_timely ex_start3 ex_election).
Definition ex_winner : Raft Z := default ex_booted (idx (nodes ex_elected) 0).

(** A follower stands for term 2 and asks the leader for its vote. *)
Definition ex_next_leader : list (event Z) := [ETick 1 2000; EBuild 2; EVote 2 2001].
Definition ex_deposed : cluster Z := default no_cluster (run_timely ex_elected ex_next_leader).

Lemma election_safety_witness :
  init 3 = Some ex_start3 /\ run_timely ex_start3 ex_election = Some ex_elected
  /\ run_timely ex_elected ex_next_leader = Some ex_deposed
  /\ idx (nodes ex_elected) 0 = Some ex_winner /\ state ex_winner = Leader /\ currentTerm ex_winner = 1
  /\ forall j rfj, idx (nodes ex_deposed) j = Some rfj -> state rfj = Leader -> currentTerm rfj = 1 -> 0 = j.
Proof.
  assert (H1 : init 3 = Some ex_start3) by (vm_compute; reflexivity).
  assert (H2 : run_timely ex_start3 ex_election = Some ex_elected) by (vm_compute; reflexivity).
  assert (H2' : run_timely ex_elected ex_next_leader = Some ex_deposed) by (vm_compute; reflexivity).
  assert (H3 : idx (nodes ex_elected) 0 = Some ex_winner) by (vm_compute; reflexivity).
  assert (H4 : state ex_winner = Leader) by (vm_compute; reflexivity).
  assert (H5 : currentTerm ex_winner = 1) by (vm_compute; reflexivity).
  do 6 (split; [assumption|]); intros j rfj Hj Lj Ht.
  refine (election_safety 3 ex_start3 ex_election ex_elected ex_next_leader ex_deposed 0 j ex_winner rfj H1 H2 H2' H3 Hj H4 Lj _).
  rewrite H5, Ht; reflexivity.
Defined.

(** C23: Without the proviso election safety fails. The goroutines of
    [collectOpinion] read the peer's term when they build their request, not when
    the round starts, and count every granted vote of the peer's current term
    into the counter of their round. In this execution of five peers, a vote
    granted in term 1 and one granted in term 2 are added up: peer 0 becomes
    leader of term 2 with the votes of a minority, and so does peer 3 with a
    proper majority. *)
Theorem stale_round_two_leaders :
  exists s0 s, init 5 = Some s0 /\ run s0 ex_stale_round = Some s
    /\ leaders s = [(0, 2); (3, 2)].
Proof.
  exists (default no_cluster (init 5)).
  exists (default no_cluster (run (default no_cluster (init 5)) ex_stale_round)).
  split; [vm_compute; reflexivity|split; vm_compute; reflexivity].
Qed.

(** ** Replicators *)

(** The replicator goroutines of peer [i] for peer [j] that are running. *)
Definition replicators (i j : Z) (s : cluster Z) : nat :=
  length (filter (fun p => rp_owner p = i /\ rp_server p = j /\ rp_live p = true) (reps s)).

(** Peer 0 leads term 1, is deposed by the candidate of term 2, and is elected
    again in term 3. *)
Definition ex_second_term : list (event Z) :=
  [ETick 0 1000; EBuild 0; EVote 0 1001; EVoteReply 0;
   ETick 1 2000; EBuild 2; EVote 2 2001;
   ETick 0 3000; EBuild 4; EVote 4 3001; EVoteReply 4].

(** Replicators accumulate. The goroutine started for a peer when an
    election is won only ends when the process is killed, so a peer that is
    elected a second time runs two replicators for the same follower. *)
Theorem replicators_accumulate :
  exists s0 s, init 3 = Some s0 /\ run_timely s0 ex_second_term = Some s
    /\ leaders s = [(0, 3)] /\ replicators 0 1 s = 2%nat.
Proof.
  exists ex_start3, (default no_cluster (run_timely ex_start3 ex_second_term)).
  split; [vm_compute; reflexivity|split; [vm_compute; reflexivity|split; vm_compute; reflexivity]].
Qed.
