(* ===== verification/RaftPaths.v ===== *)
(** * Raft: the tree of entries, and leader completeness

    The entries leaders ever create form a tree: an entry is identified by its
    index and term, and has one command and one predecessor. A log is a path of
    the tree. This file is about the tree, the logs leaders had when they were
    elected, and the acknowledgements; [RaftLogSafety] shows that the cluster
    maintains them.

    From the quorums of an election and of a commitment follows that a later
    leader was elected with the committed entry in its log. *)

From S2P Require Import Prelude Gob RaftTypes RaftLog RaftElection RaftReplicate.
From S2P Require Import RaftLogFacts.

(** Index and term to command and term of the predecessor. *)
Notation tree Cmd := (gmap (Z * Z) (option Cmd * Z)).
(** Term to the leader and the log it was elected with. *)
Notation leaderLogs Cmd := (gmap Z (Z * list (Entry Cmd))).

Section paths.
Context {Cmd : Type}.
Notation ent := (Entry Cmd).
Implicit Types (l M L : list ent) (e : ent) (k t T u : Z).

Implicit Types (H : tree Cmd) (LL : leaderLogs Cmd).

Definition sentinel : ent := mkEntry (-1) None.

Definition path H l : Prop :=
  idx l 0 = Some sentinel
  /\ forall k e, 0 < k -> idx l k = Some e ->
       exists p, idx l (k - 1) = Some p /\ H !! (k, Term e) = Some (Command e, Term p).

Definition has l k t : Prop := exists e, idx l k = Some e /\ Term e = t.

#[global] Instance has_dec l k t : Decision (has l k t).
Proof.
  destruct (idx l k) as [e|] eqn:E; [destruct (decide (Term e = t))|].
  - left; by exists e.
  - right; intros (e' & ? & ?); congruence.
  - right; intros (e' & ? & ?); congruence.
Defined.

Lemma path_mono H H' l : H ⊆ H' -> path H l -> path H' l.
Proof.
  intros Hsub [H0 Hs]; split; [done|]; intros k e Hk He.
  destruct (Hs k e Hk He) as (p & ? & Hp); exists p; split; [done|]. by eapply lookup_weaken.
Qed.

Lemma path_len H l : path H l -> 1 <= len l.
Proof. intros [H0 _]; apply idx_Some_range in H0; lia. Qed.

Lemma path_has_tree H l k t : path H l -> 0 < k -> has l k t -> exists c p, H !! (k, t) = Some (c, p).
Proof. intros [_ Hs] Hk (e & He & <-). destruct (Hs k e Hk He) as (p & _ & ?); eauto. Qed.

(** Two paths that agree on the term of an entry agree up to it. *)
Lemma path_match H l1 l2 k e1 e2 :
  path H l1 -> path H l2 -> idx l1 k = Some e1 -> idx l2 k = Some e2 -> Term e1 = Term e2 ->
  forall m, m <= k -> idx l1 m = idx l2 m.
Proof.
  intros [B1 S1] [B2 S2]. assert (Hk : 0 <= k -> forall e1 e2, idx l1 k = Some e1 -> idx l2 k = Some e2 -> Term e1 = Term e2 ->
    forall m, m <= k -> idx l1 m = idx l2 m).
  { clear e1 e2; intros Hk; pattern k; apply natlike_ind; [| |done]; clear Hk k.
    - intros e1 e2 H1 H2 _ m Hm. destruct (decide (m = 0)) as [->|]; [congruence|].
      rewrite !idx_None; [done|lia|lia].
    - intros x Hx IH e1 e2 H1 H2 Ht m Hm.
      destruct (S1 (Z.succ x) e1 ltac:(lia) H1) as (p1 & P1 & T1), (S2 (Z.succ x) e2 ltac:(lia) H2) as (p2 & P2 & T2).
      rewrite Ht in T1; rewrite T1 in T2; injection T2 as Hc Hp.
      replace (Z.succ x - 1) with x in * by lia.
      destruct (decide (m = Z.succ x)) as [->|]; [|apply (IH p1 p2); try done; lia].
      rewrite H1, H2. destruct e1, e2; simpl in *; by subst. }
  intros H1 H2; apply Hk; try done. apply idx_Some_range in H1; lia.
Qed.

Lemma has_agree H l1 l2 k t m : path H l1 -> path H l2 -> has l1 k t -> has l2 k t -> m <= k -> idx l1 m = idx l2 m.
Proof. intros Hl1 Hl2 (a & Ha & <-) (b & Hb & Hab) Hm. by eapply (path_match H l1 l2 k a b). Qed.

Lemma agree_prefix M l : (forall m, m <= len M - 1 -> idx M m = idx l m) -> len M <= len l -> M `prefix_of` l.
Proof.
  intros Ha Hl; exists (drop (length M) l). rewrite <- (take_drop (length M) l) at 1. f_equal.
  apply idx_ext; rewrite len_take; [unfold len in *; lia|]. intros i Hi.
  rewrite idx_take by (unfold len in *; lia). symmetry; apply Ha; unfold len in *; lia.
Qed.

Lemma prefix_idx M l k : M `prefix_of` l -> k < len M -> idx l k = idx M k.
Proof. intros [x ->] Hk; by apply idx_app_l. Qed.

Lemma prefix_has M l k t : M `prefix_of` l -> has M k t -> has l k t.
Proof.
  intros Hp (e & He & Ht); exists e; split; [|done].
  rewrite (prefix_idx M l k Hp); [done|]. apply idx_Some_range in He; lia.
Qed.

Lemma path_prefix H M l k e1 e2 :
  path H M -> path H l -> idx M k = Some e1 -> idx l k = Some e2 -> Term e1 = Term e2 -> k = len M - 1 -> M `prefix_of` l.
Proof.
  intros HM Hl H1 H2 Ht ->; apply agree_prefix; [by eapply path_match|].
  apply idx_Some_range in H2; lia.
Qed.

(** ** Merging *)

Lemma merge_cases (X Y : list ent) :
  (forall (k : nat) a b, X !! k = Some a -> Y !! k = Some b -> Term a = Term b -> a = b) ->
  (Y `prefix_of` X /\ raftMerge X Y = X) \/ (~ Y `prefix_of` X /\ raftMerge X Y = Y).
Proof.
  revert Y; induction X as [|a X IH]; intros [|b Y] Hsame.
  - left; split; [done|]. apply raftMerge_nil_l.
  - right; split; [intros Hp; by apply prefix_nil_not in Hp|apply raftMerge_nil_l].
  - left; split; [apply prefix_nil|apply raftMerge_nil_r].
  - destruct (decide (Term a = Term b)) as [Ht|Ht].
    + rewrite raftMerge_same by done. assert (a = b) as -> by (by apply (Hsame 0%nat)).
      destruct (IH Y) as [[Hp ->]|[Hp ->]]; [intros k; apply (Hsame (S k))|left|right]; split; try done.
      * by apply prefix_cons.
      * intros Hq; apply Hp. by eapply prefix_cons_inv_2.
    + rewrite raftMerge_diff by done. right; split; [|done]. intros Hq; apply Ht. by apply prefix_cons_inv_1 in Hq as ->.
Qed.

(** Appending the entries of [M] after a common entry gives one of the two. *)
Lemma merge_paths H l M p a b :
  path H l -> path H M -> idx l p = Some a -> idx M p = Some b -> Term a = Term b ->
  let l' := take (Z.to_nat (p + 1)) l ++ raftMerge (drop (Z.to_nat (p + 1)) l) (drop (Z.to_nat (p + 1)) M) in
  (M `prefix_of` l /\ l' = l) \/ (~ M `prefix_of` l /\ l' = M).
Proof.
  intros Hl HM Ha Hb Ht; cbv zeta. pose proof (path_match H l M p a b Hl HM Ha Hb Ht) as Hag.
  pose proof (idx_Some_range _ _ _ Ha) as Ra; pose proof (idx_Some_range _ _ _ Hb) as Rb.
  set (n := Z.to_nat (p + 1)). assert (Hn : Z.of_nat n = p + 1) by (unfold n; lia).
  assert (Htake : take n l = take n M).
  { apply idx_ext; rewrite !len_take; [lia|]. intros i Hi. rewrite !idx_take by lia. apply Hag; lia. }
  assert (Hsame : forall (k : nat) x y, drop n l !! k = Some x -> drop n M !! k = Some y -> Term x = Term y -> x = y).
  { intros k x y Hx Hy Hxy; rewrite lookup_drop in Hx, Hy. set (j := Z.of_nat (n + k)%nat).
    assert (Ej : Z.to_nat j = (n + k)%nat) by (unfold j; lia).
    assert (Hix : idx l j = Some x) by (unfold idx, j; rewrite Nat2Z.id; case_if; [done|lia]).
    assert (Hiy : idx M j = Some y) by (unfold idx, j; rewrite Nat2Z.id; case_if; [done|lia]).
    pose proof (path_match H l M j x y Hl HM Hix Hiy Hxy j ltac:(lia)). congruence. }
  destruct (merge_cases (drop n l) (drop n M) Hsame) as [[Hp ->]|[Hp ->]]; [left|right].
  - split; [|apply take_drop]. rewrite <- (take_drop n M), <- (take_drop n l), Htake. by apply prefix_app.
  - split; [|by rewrite Htake, take_drop]. intros Hq; apply Hp.
    rewrite <- (take_drop n M), <- (take_drop n l), Htake in Hq. by apply prefix_app_inv in Hq.
Qed.

(** ** Leaders *)

(** Entries of a term extend the log of the term's leader, one after the other. *)
Definition treeOk H LL : Prop :=
  forall k T c p, H !! (k, T) = Some (c, p) ->
    exists o L, LL !! T = Some (o, L) /\ 1 <= len L <= k
      /\ (k = len L -> Term <$> idx L (k - 1) = Some p)
      /\ (len L < k -> p = T /\ is_Some (H !! (k - 1, T))).

Definition leadersOk H LL : Prop :=
  forall T o L, LL !! T = Some (o, L) -> path H L /\ forall k e, idx L k = Some e -> Term e < T.

(** [M] is a log the leader of [T] had in that term. *)
Definition ledBy H LL T M : Prop :=
  path H M /\ exists o L, LL !! T = Some (o, L) /\ L `prefix_of` M
    /\ forall k e, len L <= k -> idx M k = Some e -> Term e = T.

Lemma term_down H LL l k T :
  treeOk H LL -> leadersOk H LL -> path H l -> 0 < k -> has l k T ->
  exists o L, LL !! T = Some (o, L) /\ 1 <= len L <= k /\ L `prefix_of` l /\ forall j, len L <= j <= k -> has l j T.
Proof.
  intros Ht HL Hl Hk Hh. destruct (path_has_tree H l k T Hl Hk Hh) as (c & p & Hc).
  destruct (Ht _ _ _ _ Hc) as (o & L & HLT & Hlen & _ & _). exists o, L.
  assert (Hsteps : forall d, 0 <= d -> d <= k - len L -> has l (k - d) T).
  { intros d Hd; pattern d; apply natlike_ind; [by rewrite Z.sub_0_r| |done]. clear d Hd; intros d Hd IH Hd'.
    destruct (IH ltac:(lia)) as (e & He & Te).
    destruct (proj2 Hl (k - d) e ltac:(lia) He) as (q & Hq & HT); rewrite Te in HT.
    destruct (Ht _ _ _ _ HT) as (o' & L' & HLT' & _ & _ & Hgt). rewrite HLT in HLT'; injection HLT' as <- <-.
    destruct (Hgt ltac:(lia)) as [Hq' _]. exists q; split; [|done]. by replace (k - Z.succ d) with (k - d - 1) by lia. }
  assert (Hdown : forall j, len L <= j <= k -> has l j T).
  { intros j Hj; replace j with (k - (k - j)) by lia. apply Hsteps; lia. }
  split_and!; try done; try lia. destruct (Hdown (len L) ltac:(lia)) as (e & He & Te).
  destruct (proj2 Hl (len L) e ltac:(lia) He) as (q & Hq & HT); rewrite Te in HT.
  destruct (Ht _ _ _ _ HT) as (o' & L' & HLT' & _ & Heq & _). rewrite HLT in HLT'; injection HLT' as <- <-.
  specialize (Heq eq_refl). apply fmap_Some in Heq as (b & Hb & Tb).
  eapply (path_prefix H L l (len L - 1) b q); try done. by eapply (HL T o).
Qed.

(** A path with an entry of term [T] and a log of the leader of [T] are
    comparable. *)
Lemma led_compare H LL l k T M :
  treeOk H LL -> leadersOk H LL -> path H l -> 0 < k -> has l k T -> ledBy H LL T M ->
  (len M <= k -> M `prefix_of` l) /\ (k < len M -> has M k T).
Proof.
  intros Ht HL Hl Hk Hh (HM & o & L & HLT & Hp & Hterm).
  destruct (term_down H LL l k T Ht HL Hl Hk Hh) as (o' & L' & HLT' & Hlen & Hpl & Hdown).
  rewrite HLT in HLT'; injection HLT' as <- <-. split.
  - intros Hle; destruct (decide (len M = len L)) as [E|E].
    + destruct Hp as [x ->]. rewrite len_app in E. assert (x = []) as ->; [|by rewrite app_nil_r].
      destruct x; [done|]. rewrite len_cons in E; pose proof (len_nonneg x); lia.
    + pose proof (prefix_length _ _ Hp). destruct (idx_in_range M (len M - 1)) as [e He]; [unfold len in *; lia|].
      assert (HeT : Term e = T) by (apply (Hterm (len M - 1)); [unfold len in *; lia|done]).
      destruct (Hdown (len M - 1)) as (e' & He' & ?); [unfold len in *; lia|].
      eapply (path_prefix H M l (len M - 1) e e'); try done. congruence.
  - intros Hlt; destruct (idx_in_range M k) as [e He]; [lia|]. exists e; split; [done|]. apply (Hterm k); [lia|done].
Qed.

(** The log of the leader of a later entry's term is in every path to it. *)
Lemma led_below H LL l k T o L :
  treeOk H LL -> leadersOk H LL -> path H l -> 0 < k -> has l k T -> LL !! T = Some (o, L) -> L `prefix_of` l.
Proof.
  intros Ht HL Hl Hk Hh HLT; destruct (term_down H LL l k T Ht HL Hl Hk Hh) as (o' & L' & HLT' & _ & Hp & _).
  rewrite HLT in HLT'; by injection HLT' as <- <-.
Qed.

(** ** Leader completeness *)

Definition lastTerm l : option Z := Term <$> idx l (len l - 1).

(** The comparison of [tryVotingFor]: a log with last index [li] and term [lt]
    is at least as up to date as [l]. *)
Definition upToDate (li lt : Z) l : Prop :=
  exists tl, lastTerm l = Some tl /\ (tl < lt \/ (tl = lt /\ len l - 1 <= li)).

Definition lacks LL u k t : Prop := exists o L, LL !! u = Some (o, L) /\ ~ has L k t.

(** Acknowledgements: [A q k t] says that [q] had the entry [k], [t] in its log
    while its term was [t]. *)
Implicit Types A : Z -> Z -> Z -> Prop.

(** The log [l] with which [q] votes in term [T] has every entry it
    acknowledged earlier, unless a leader in between did without. *)
Definition goodVote LL A (q T : Z) l : Prop :=
  forall k t, 0 < k -> t < T -> A q k t -> has l k t \/ exists u, t < u < T /\ lacks LL u k t.

Definition majority (n : nat) (P : Z -> Prop) : Prop :=
  exists Q, NoDup Q /\ (n / 2 < length Q)%nat /\ forall q, q ∈ Q -> 0 <= q < Z.of_nat n /\ P q.

Definition committed (n : nat) A k t : Prop := majority n (fun q => A q k t).

Definition electedOk (n : nat) H LL A : Prop :=
  forall T o L, LL !! T = Some (o, L) ->
    majority n (fun q => exists l tl, path H l /\ lastTerm L = Some tl /\ upToDate (len L - 1) tl l /\ goodVote LL A q T l).

Lemma majority_meet n P P' : majority n P -> majority n P' -> exists q, P q /\ P' q.
Proof.
  intros (Q & HN & Hl & HQ) (Q' & HN' & Hl' & HQ').
  destruct (quorum_intersection n Q Q') as (q & Hq & Hq'); try done;
    [intros q Hq; by apply HQ|intros q Hq; by apply HQ'|].
  exists q; split; [by apply HQ|by apply HQ'].
Qed.

(** Terms do not decrease along a path. *)
Lemma path_sorted H LL l j k t t' :
  treeOk H LL -> leadersOk H LL -> path H l -> has l j t -> has l k t' -> j <= k -> t <= t'.
Proof.
  intros Ht HL Hl Hj Hk Hle; destruct (decide (j = k)) as [->|].
  { destruct Hj as (e & He & <-), Hk as (e' & He' & <-). rewrite He in He'; by injection He' as ->. }
  assert (0 <= j) by (destruct Hj as (e & He & _); apply idx_Some_range in He; lia).
  destruct (term_down H LL l k t' Ht HL Hl ltac:(lia) Hk) as (o & L & HLT & Hlen & Hp & Hdown).
  destruct Hj as (e & He & <-). destruct (decide (len L <= j)) as [Hlj|Hlj].
  - destruct (Hdown j ltac:(lia)) as (e' & He' & <-). rewrite He in He'; injection He' as ->; lia.
  - rewrite (prefix_idx L l j Hp) in He by lia. destruct (HL _ _ _ HLT) as [_ HLt]. specialize (HLt j e He). lia.
Qed.

Lemma leader_complete n H LL A k t :
  treeOk H LL -> leadersOk H LL -> electedOk n H LL A -> committed n A k t -> 0 < k ->
  forall T o L, t < T -> LL !! T = Some (o, L) -> has L k t.
Proof.
  intros Ht HL He Hc Hk. assert (Hind : forall d T o L, (Z.to_nat (T - t) <= d)%nat -> t < T -> LL !! T = Some (o, L) -> has L k t).
  2:{ intros T o L HT HLT; by eapply (Hind (Z.to_nat (T - t))). }
  induction d as [|d IH]; intros T o L Hd HT HLT; [lia|].
  destruct (majority_meet _ _ _ (He T o L HLT) Hc) as (q & (l & tl & Hl & Htl & (tv & Htv & Hup) & Hgood) & HA).
  destruct (HL T o L HLT) as [HpL HtL].
  assert (Hhas : has l k t).
  { destruct (Hgood k t Hk HT HA) as [|(u & Hu & o' & L' & HLu & Hn)]; [done|].
    destruct Hn; eapply (IH u); [lia|lia|done]. }
  apply fmap_Some in Htl as (eL & HeL & ->), Htv as (el & Hel & ->).
  assert (Hkl : k <= len l - 1) by (destruct Hhas as (x & Hx & _); apply idx_Some_range in Hx; lia).
  assert (Htk : t <= Term el) by (eapply (path_sorted H LL l k (len l - 1)); try done; by eexists).
  destruct Hup as [Hup|[Hup Hlen]].
  - assert (HkL : 0 < len L - 1).
    { pose proof (path_len _ _ HpL). destruct (decide (len L - 1 = 0)) as [E|]; [|lia].
      destruct HpL as [HpL0 _]. rewrite E, HpL0 in HeL; injection HeL as <-. simpl in Hup.
      assert (Hm1 : -1 <= Term el); [|lia].
      destruct Hl as [Hl0 Hls]. eapply (path_sorted H LL l 0 (len l - 1)); [done|done|by split| | |lia]; by eexists. }
    assert (HhL : has L (len L - 1) (Term eL)) by (by eexists).
    destruct (term_down H LL L (len L - 1) (Term eL) Ht HL HpL HkL HhL) as (o' & L' & HLu & _ & Hp & _).
    eapply prefix_has; [exact Hp|]. specialize (HtL _ _ HeL). eapply (IH (Term eL)); [lia|lia|done].
  - assert (HkL : 0 < len l - 1) by lia.
    assert (HhL : has L (len L - 1) (Term eL)) by (by eexists).
    assert (HkL' : 0 < len L - 1) by lia.
    destruct (term_down H LL L (len L - 1) (Term eL) Ht HL HpL HkL' HhL) as (o1 & L1 & HLu & Hlen1 & _ & Hdown).
    assert (Hhl : has l (len l - 1) (Term eL)) by (eexists; split; [done|congruence]).
    destruct (term_down H LL l (len l - 1) (Term eL) Ht HL Hl HkL Hhl) as (o2 & L2 & HLu2 & Hlen2 & _ & _).
    rewrite HLu in HLu2; injection HLu2 as <- <-.
    destruct (Hdown (len l - 1) ltac:(lia)) as (x & Hx & Tx).
    destruct Hhas as (y & Hy & Ty). exists y; split; [|done]. rewrite <- Hy.
    eapply (path_match H L l (len l - 1) x el); try done. congruence.
Qed.
End paths.
