(* ===== verification/RaftLogSafety.v ===== *)
(** * Raft: the logs of the cluster are paths of one tree

    The invariant of the cluster behind log matching, leader completeness and
    state-machine safety, stated of a cluster whose peers keep their whole logs,
    and what a step of one peer has to satisfy to preserve it. [RaftWhole]
    relates the peers of the program, which trim their logs, to such a cluster. *)

From S2P Require Import Prelude Gob RaftTypes RaftLog RaftElection RaftReplicate RaftSnapshot.
From S2P Require Import RaftPeer RaftLogFacts RaftCommit RaftCluster RaftElectionSafety RaftPaths.

Section inv.
Context {Cmd : Type} `{!GobType Cmd}.
Implicit Types (s : cluster Cmd) (rf : Raft Cmd) (l M L : list (Entry Cmd)).
Implicit Types (V : votes) (H : tree Cmd) (LL : leaderLogs Cmd) (A : Z -> Z -> Z -> Prop).
Context (n : nat).

(** An entry at [c] or later that [l] has is committed. *)
Definition commitOk A (c : Z) l : Prop :=
  c <= 0 \/ exists k t, c <= k /\ has l k t /\ committed n A k t.

(** An entry at [k] or later was committed in term [T] or before. *)
Definition safe H A (k T : Z) : Prop :=
  exists l kc tc, path H l /\ has l kc tc /\ committed n A kc tc /\ 0 < k <= kc /\ tc <= T.

(** The last entry of a snapshot through [s], of term [t], was committed in term
    [T] or before. *)
Definition snapOk H A (T s t : Z) : Prop :=
  (s = 0 /\ t = -1)
  \/ exists l kc tc, path H l /\ has l kc tc /\ committed n A kc tc /\ 0 < s <= kc /\ tc <= T
       /\ Term <$> idx l s = Some t.

(** What the leader knows about its followers: they have acknowledged what it
    created, or it is committed anyway. *)
Definition matchOk H A rf : Prop :=
  forall j m, idx (matchIndex rf) j = Some m ->
    m < len (log rf)
    /\ forall k, 0 < k <= m -> is_Some (H !! (k, currentTerm rf)) ->
         A j k (currentTerm rf) \/ safe H A k (currentTerm rf).

Record leading H LL A (i : Z) rf : Prop := {
  ld_log : exists L, LL !! currentTerm rf = Some (i, L) /\ L `prefix_of` log rf
             /\ forall k e, len L <= k -> idx (log rf) k = Some e -> Term e = currentTerm rf;
  ld_all : forall k, is_Some (H !! (k, currentTerm rf)) -> k < len (log rf);
  ld_match : matchOk H A rf;
}.

Record node_ok H LL A (i : Z) rf : Prop := {
  no_snap : snapIndex rf = 0;
  no_pos : 0 <= currentTerm rf;
  no_path : path H (log rf);
  no_terms : forall k e, idx (log rf) k = Some e -> Term e <= currentTerm rf;
  no_acked : forall k, 0 < k -> has (log rf) k (currentTerm rf) -> A i k (currentTerm rf);
  no_commit : commitOk A (commitIndex rf) (log rf);
  no_leader : state rf = Leader -> leading H LL A i rf;
}.

(** [q] votes in term [t] for a candidate with log [lc]. *)
Definition evidence H LL A (q t : Z) (lc : list (Entry Cmd)) : Prop :=
  exists l tl, path H l /\ lastTerm lc = Some tl /\ upToDate (len lc - 1) tl l /\ goodVote LL A q t l.

(** An [AppendEntries] request of [o], made from its log [M]. *)
Definition msg_ok H LL A s (args : AppendEntriesArgs Cmd) (o : Z) : Prop :=
  exists M, ledBy H LL (ae_Term args) M /\ (exists L, LL !! ae_Term args = Some (o, L))
    /\ 0 <= PrevLogIndex args < len M
    /\ Term <$> idx M (PrevLogIndex args) = Some (PrevLogTerm args)
    /\ Entries args = drop (Z.to_nat (PrevLogIndex args + 1)) M
    /\ commitOk A (LeaderCommit args) M
    /\ forall rf, idx (nodes s) o = Some rf -> state rf = Leader -> currentTerm rf = ae_Term args ->
         len M <= len (log rf).

Definition rep_ok H LL A s (p : rep Cmd) : Prop :=
  rp_owner p <> rp_server p
  /\ match rp_stage p with
     | RIdle => True
     | RAppend args => msg_ok H LL A s args (rp_owner p)
     | RAppendReplied args reply =>
         msg_ok H LL A s args (rp_owner p)
         /\ (Success reply = true -> forall k, 0 < k <= PrevLogIndex args + len (Entries args) ->
               is_Some (H !! (k, ae_Term args)) -> A (rp_server p) k (ae_Term args) \/ safe H A k (ae_Term args))
     | RInstall args | RInstallReplied args _ =>
         (exists L, LL !! is_Term args = Some (rp_owner p, L))
         /\ snapOk H A (is_Term args) (LastIncludedIndex args) (LastIncludedTerm args)
     end.

(** A vote request speaks of the log its sender has as long as it is a candidate
    in a term without a leader. *)
Definition ask_ok LL s (v : vcall) : Prop :=
  forall args, (vc_stage v = VSent args \/ exists reply, vc_stage v = VReplied args reply) ->
    exists rf, idx (nodes s) (vc_owner v) = Some rf /\ CandidateId args = vc_owner v
      /\ rv_Term args <= currentTerm rf
      /\ (LL !! rv_Term args = None -> currentTerm rf = rv_Term args -> state rf = Candidate ->
            LastLogIndex args = len (log rf) - 1 /\ lastTerm (log rf) = Some (LastLogTerm args)).

Record log_inv V H LL A s : Prop := {
  lg_tree : treeOk H LL;
  lg_leaders : leadersOk H LL;
  lg_elected : forall T o L, LL !! T = Some (o, L) ->
    majority n (fun q => V q T o /\ evidence H LL A q T L);
  lg_led : forall T o L, LL !! T = Some (o, L) -> exists rf, idx (nodes s) o = Some rf
    /\ (T < currentTerm rf \/ (T = currentTerm rf /\ state rf <> Candidate));
  lg_node : forall i rf, idx (nodes s) i = Some rf -> node_ok H LL A i rf;
  lg_acks : forall q k t, A q k t -> exists rf, idx (nodes s) q = Some rf /\ t <= currentTerm rf
    /\ (0 < k -> has (log rf) k t \/ exists u, t < u <= currentTerm rf /\ lacks LL u k t);
  lg_cast : forall i rf, idx (nodes s) i = Some rf -> votedFor rf <> -1 -> V i (currentTerm rf) (votedFor rf);
  lg_cand : forall q t c, V q t c -> exists rf, idx (nodes s) c = Some rf /\ t <= currentTerm rf
    /\ (LL !! t = None -> currentTerm rf = t -> state rf = Candidate -> evidence H LL A q t (log rf));
  lg_calls : forall c v, vcalls s !! c = Some v -> ask_ok LL s v;
  lg_reps : forall r p, reps s !! r = Some p -> rep_ok H LL A s p;
}.

Lemma lg_electedOk V H LL A s : log_inv V H LL A s -> electedOk n H LL A.
Proof.
  intros HI T o L HL; destruct (lg_elected _ _ _ _ _ HI T o L HL) as (Q & ? & ? & HQ).
  exists Q; split_and!; try done. intros q Hq; destruct (HQ q Hq) as (? & _ & l & tl & ?); split; [done|]. by exists l, tl.
Qed.

(** A committed entry is in the log of every later leader. *)
Lemma lg_complete V H LL A s k t T o L :
  log_inv V H LL A s -> committed n A k t -> 0 < k -> t < T -> LL !! T = Some (o, L) -> has L k t.
Proof.
  intros HI Hc Hk HT HL. eapply (leader_complete n H LL A k t); try done;
    [apply HI|apply HI|by eapply lg_electedOk].
Qed.

(** ** Growth of the ghost state *)

Definition ackNow s A : Z -> Z -> Z -> Prop := fun q k t =>
  A q k t \/ (0 < k /\ exists rf, idx (nodes s) q = Some rf /\ t = currentTerm rf /\ has (log rf) k t).

Lemma committed_mono A A' k t :
  (forall q k t, A q k t -> A' q k t) -> committed n A k t -> committed n A' k t.
Proof. intros HA (Q & ? & ? & HQ); exists Q; split_and!; try done. naive_solver. Qed.

Lemma commitOk_mono A A' c l l' :
  (forall q k t, A q k t -> A' q k t) -> (forall k t, 0 < k -> committed n A k t -> has l k t -> has l' k t) ->
  commitOk A c l -> commitOk A' c l'.
Proof.
  intros HA Hl [|(k & t & Hk & Hh & Hc)]; [by left|]. destruct (decide (0 < k)); [|left; lia].
  right; exists k, t; split_and!; eauto using committed_mono.
Qed.

Lemma safe_mono H H' A A' k T :
  H ⊆ H' -> (forall q k t, A q k t -> A' q k t) -> safe H A k T -> safe H' A' k T.
Proof.
  intros HH HA (l & kc & tc & ? & ? & ? & ? & ?); exists l, kc, tc; split_and!; eauto using path_mono, committed_mono; lia.
Qed.

Lemma snapOk_mono H H' A A' T T' (s t : Z) :
  H ⊆ H' -> (forall q k t, A q k t -> A' q k t) -> T <= T' -> snapOk H A T s t -> snapOk H' A' T' s t.
Proof.
  intros HH HA HT [|(l & kc & tc & ? & ? & ? & ? & ? & ?)]; [by left|right].
  exists l, kc, tc; split_and!; eauto using path_mono, committed_mono; lia.
Qed.

(** What the snapshot covers is committed. *)
Lemma snapOk_safe H A T (s t k : Z) : snapOk H A T s t -> 0 < k <= s -> safe H A k T.
Proof. intros [[-> _]|(l & kc & tc & ? & ? & ? & ? & ? & ?)] Hk; [lia|]. exists l, kc, tc; split_and!; done || lia. Qed.

Lemma lacks_mono LL LL' u k t : LL ⊆ LL' -> lacks LL u k t -> lacks LL' u k t.
Proof. intros Hs (o & L & HL & ?); exists o, L; split; [by eapply lookup_weaken|done]. Qed.

Lemma goodVote_mono LL LL' A A' q T l :
  LL ⊆ LL' -> (forall k t, t < T -> A' q k t -> A q k t) -> goodVote LL A q T l -> goodVote LL' A' q T l.
Proof.
  intros HL HA Hg k t Hk Ht Ha; destruct (Hg k t Hk Ht (HA k t Ht Ha)) as [|(u & ? & ?)]; [by left|right].
  exists u; split; [done|by eapply lacks_mono].
Qed.

Lemma evidence_mono H H' LL LL' A A' q t lc :
  H ⊆ H' -> LL ⊆ LL' -> (forall k u, u < t -> A' q k u -> A q k u) ->
  evidence H LL A q t lc -> evidence H' LL' A' q t lc.
Proof.
  intros HH HL HA (l & tl & Hp & Hlt & Hu & Hg); exists l, tl; split_and!; try done.
  - by eapply path_mono.
  - by eapply goodVote_mono.
Qed.

Lemma ledBy_mono H H' LL LL' T M : H ⊆ H' -> LL ⊆ LL' -> ledBy H LL T M -> ledBy H' LL' T M.
Proof.
  intros HH HL (HM & o & L & HLT & ? & ?); split; [by eapply path_mono|]. exists o, L; split_and!; try done.
  by eapply lookup_weaken.
Qed.

(** ** One peer moves *)

(** What the step of a peer from [rf] to [rf'] may do to the ghost state. *)
Record move H LL H' LL' rf rf' : Prop := {
  mv_H : H ⊆ H';
  mv_LL : LL ⊆ LL';
  mv_tree : treeOk H' LL';
  mv_leaders : leadersOk H' LL';
  mv_term : currentTerm rf <= currentTerm rf';
  mv_keep : forall k t, 0 < k -> t <= currentTerm rf -> has (log rf) k t ->
    has (log rf') k t \/ exists u, t < u <= currentTerm rf' /\ lacks LL' u k t;
  mv_cand : currentTerm rf' = currentTerm rf -> state rf' = Candidate ->
    state rf = Candidate /\ (log rf' = log rf \/ is_Some (LL !! currentTerm rf));
  mv_lead : state rf' = Leader -> currentTerm rf' = currentTerm rf
    /\ ((state rf = Leader /\ len (log rf) <= len (log rf')) \/ LL !! currentTerm rf = None);
  mv_grow : forall k T, is_Some (H' !! (k, T)) -> is_Some (H !! (k, T))
    \/ (state rf = Leader /\ T = currentTerm rf /\ k = len (log rf));
}.

(** The acknowledgements after the step, seen from before it. *)
Lemma ackNow_new V H LL A s s' i rf' q k t :
  log_inv V H LL A s -> upd (nodes s) i rf' = Some (nodes s') -> ackNow s' A q k t ->
  A q k t \/ (q = i /\ t = currentTerm rf' /\ 0 < k /\ has (log rf') k t).
Proof.
  intros HI Hu [|(Hk & rf1 & Hq & -> & Hh)]; [by left|]. destruct (decide (q = i)) as [->|Hne].
  - rewrite (idx_upd_eq _ _ _ _ Hu) in Hq; injection Hq as <-. by right.
  - rewrite (idx_upd_ne _ _ _ _ _ Hu) in Hq by congruence. left. by apply (lg_node _ _ _ _ _ HI q rf1 Hq).
Qed.

Lemma ackNow_mono s A q k t : A q k t -> ackNow s A q k t.
Proof. by left. Qed.

(** A vote fixes the acknowledgements of earlier terms. *)
Lemma ackNow_voted V H LL A s s' i rf rf' q t c k u :
  node_inv n V s -> log_inv V H LL A s -> idx (nodes s) i = Some rf -> currentTerm rf <= currentTerm rf' ->
  upd (nodes s) i rf' = Some (nodes s') -> V q t c -> u < t -> ackNow s' A q k u -> A q k u.
Proof.
  intros HN HI Hi Ht Hu HV Hut HA. destruct (ackNow_new _ _ _ _ _ _ _ _ _ _ _ HI Hu HA) as [|(-> & -> & _)]; [done|].
  destruct (ni_past _ _ _ HN _ _ _ _ HV Hi) as (_ & ? & _); lia.
Qed.

Lemma leading_other H LL A A' H' LL' i rf j rfj :
  H ⊆ H' -> LL ⊆ LL' -> (forall q k t, A q k t -> A' q k t) -> leading H LL A j rfj ->
  (forall k, is_Some (H' !! (k, currentTerm rfj)) -> is_Some (H !! (k, currentTerm rfj))
     \/ (state rf = Leader /\ currentTerm rfj = currentTerm rf /\ k = len (log rf))) ->
  (state rf = Leader -> leading H LL A i rf) -> i <> j -> leading H' LL' A' j rfj.
Proof.
  intros HH HL HA [(L & HLj & Hp & Ht) Hall Hm] Hg Hi Hne.
  assert (Hold : forall k, is_Some (H' !! (k, currentTerm rfj)) -> is_Some (H !! (k, currentTerm rfj))).
  { intros k Hk; destruct (Hg k Hk) as [|(HS & Et & _)]; [done|]. destruct (ld_log _ _ _ _ _ (Hi HS)) as (L' & HLi & _).
    rewrite <- Et, HLj in HLi; congruence. }
  split; [exists L; split_and!; try done; by eapply lookup_weaken|eauto|].
  intros q m Hq; destruct (Hm q m Hq) as [? Hk]; split; [done|]. intros k Hkm Hs.
  destruct (Hk k Hkm) as [|Hsafe]; [auto|left; auto|right; by eapply safe_mono].
Qed.

Lemma msg_move V H LL A s H' LL' A' s' i rf rf' args o :
  log_inv V H LL A s -> move H LL H' LL' rf rf' -> idx (nodes s) i = Some rf ->
  upd (nodes s) i rf' = Some (nodes s') -> (forall q k t, A q k t -> A' q k t) ->
  msg_ok H LL A s args o -> msg_ok H' LL' A' s' args o.
Proof.
  intros HI Hm Hi Hu HA (M & HM & (L & HL) & Hp & Ht & He & Hc & Hlen).
  exists M; split_and!; try done; try lia.
  - eapply ledBy_mono; [apply Hm|apply Hm|done].
  - exists L; eapply lookup_weaken; [done|apply Hm].
  - by eapply commitOk_mono.
  - intros rf1 Ho HS HT; destruct (decide (o = i)) as [->|].
    + rewrite (idx_upd_eq _ _ _ _ Hu) in Ho; injection Ho as <-.
      destruct (mv_lead _ _ _ _ _ _ Hm HS) as [Et [[HSr Hl]|HN]].
      * etransitivity; [|exact Hl]. apply Hlen; try done. congruence.
      * rewrite <- Et, HT, HL in HN; done.
    + rewrite (idx_upd_ne _ _ _ _ _ Hu) in Ho by congruence. by apply Hlen.
Qed.

(** Entries created after a request was made are not covered by it. *)
Lemma msg_old V H LL A s H' LL' i rf rf' args o k :
  log_inv V H LL A s -> move H LL H' LL' rf rf' -> idx (nodes s) i = Some rf ->
  msg_ok H LL A s args o -> k <= PrevLogIndex args + len (Entries args) ->
  is_Some (H' !! (k, ae_Term args)) -> is_Some (H !! (k, ae_Term args)).
Proof.
  intros HI Hm Hi (M & HM & (L & HL) & Hp & Ht & He & Hc & Hlen) Hk HH.
  destruct (mv_grow _ _ _ _ _ _ Hm k _ HH) as [|(HS & Et & ->)]; [done|].
  destruct (lg_node _ _ _ _ _ HI i rf Hi) as [_ _ _ _ _ _ Hld].
  destruct (ld_log _ _ _ _ _ (Hld HS)) as (L' & HL' & _).
  rewrite <- Et, HL in HL'; injection HL' as -> ->. specialize (Hlen rf Hi HS (eq_sym Et)).
  rewrite He, len_drop in Hk. lia.
Qed.

Lemma rep_move V H LL A s H' LL' s' i rf rf' p :
  log_inv V H LL A s -> move H LL H' LL' rf rf' -> idx (nodes s) i = Some rf ->
  upd (nodes s) i rf' = Some (nodes s') -> rep_ok H LL A s p -> rep_ok H' LL' (ackNow s' A) s' p.
Proof.
  intros HI Hm Hi Hu [Hne Hst]; split; [done|]. destruct (rp_stage p); try done.
  - by eapply msg_move; eauto using ackNow_mono.
  - destruct Hst as [Hmsg Hack]; split; [by eapply msg_move; eauto using ackNow_mono|].
    intros HS k Hk HH.
    assert (HH0 : is_Some (H !! (k, ae_Term args))) by (eapply (msg_old V H LL A s H' LL' i rf rf'); try done; lia).
    destruct (Hack HS k Hk HH0) as [|Hsafe]; [by left; left|right]. eapply safe_mono; [apply Hm| |done]. by left.
  - destruct Hst as [(L & HL) Hsn]; split; [exists L; eapply lookup_weaken; [done|apply Hm]|].
    eapply snapOk_mono; [apply Hm|by left|reflexivity|done].
  - destruct Hst as [(L & HL) Hsn]; split; [exists L; eapply lookup_weaken; [done|apply Hm]|].
    eapply snapOk_mono; [apply Hm|by left|reflexivity|done].
Qed.

Lemma ask_move s s' H LL H' LL' i rf rf' v :
  move H LL H' LL' rf rf' -> idx (nodes s) i = Some rf -> upd (nodes s) i rf' = Some (nodes s') ->
  ask_ok LL s v -> ask_ok LL' s' v.
Proof.
  intros Hm Hi Hu Ha args Hst; destruct (Ha args Hst) as (rfo & Ho & Hc & Ht & Hlog).
  destruct (decide (vc_owner v = i)) as [E|E].
  - rewrite E in *; rewrite Hi in Ho; injection Ho as <-. exists rf'; rewrite (idx_upd_eq _ _ _ _ Hu).
    pose proof (mv_term _ _ _ _ _ _ Hm). split_and!; try done; [lia|]. intros HN Et HS.
    assert (HN' : LL !! rv_Term args = None) by (eapply lookup_weaken_None; [done|apply Hm]).
    assert (Etr : currentTerm rf = rv_Term args) by lia.
    destruct (mv_cand _ _ _ _ _ _ Hm) as [HSr [->|Hl]]; [lia|done|by apply Hlog|].
    rewrite Etr, HN' in Hl; by destruct Hl.
  - exists rfo; rewrite (idx_upd_ne _ _ _ _ _ Hu) by congruence. split_and!; try done.
    intros HN; apply Hlog. eapply lookup_weaken_None; [done|apply Hm].
Qed.

(** The vote the step leaves behind. *)
Definition vote_ok V H' LL' A' s' (i : Z) rf' : Prop :=
  votedFor rf' <> -1 ->
  V i (currentTerm rf') (votedFor rf')
  \/ exists rfc, idx (nodes s') (votedFor rf') = Some rfc /\ currentTerm rf' <= currentTerm rfc
     /\ (LL' !! currentTerm rf' = None -> currentTerm rfc = currentTerm rf' -> state rfc = Candidate ->
         evidence H' LL' A' i (currentTerm rf') (log rfc)).

Lemma move_cand V H LL A s H' LL' s' i rf rf' q t c :
  node_inv n V s -> log_inv V H LL A s -> move H LL H' LL' rf rf' -> idx (nodes s) i = Some rf ->
  upd (nodes s) i rf' = Some (nodes s') -> V q t c ->
  exists rfc, idx (nodes s') c = Some rfc /\ t <= currentTerm rfc
    /\ (LL' !! t = None -> currentTerm rfc = t -> state rfc = Candidate -> evidence H' LL' (ackNow s' A) q t (log rfc)).
Proof.
  intros HN HI Hm Hi Hu HV; destruct (lg_cand _ _ _ _ _ HI q t c HV) as (rfc & Hc & Ht & He).
  assert (Hev : LL' !! t = None -> currentTerm rfc = t -> state rfc = Candidate ->
                evidence H' LL' (ackNow s' A) q t (log rfc)).
  { intros HN' Et HS; eapply evidence_mono; [apply Hm|apply Hm| |apply He; try done].
    - intros k u Hut; eapply (ackNow_voted V H LL A s s' i rf rf'); try done; apply Hm.
    - eapply lookup_weaken_None; [done|apply Hm]. }
  destruct (decide (c = i)) as [->|].
  - rewrite Hi in Hc; injection Hc as <-. exists rf'; rewrite (idx_upd_eq _ _ _ _ Hu).
    pose proof (mv_term _ _ _ _ _ _ Hm). split_and!; [done|lia|]. intros HN' Et HS.
    assert (Etr : currentTerm rf = t) by lia.
    destruct (mv_cand _ _ _ _ _ _ Hm) as [HSr [->|Hl]]; [lia|done|by apply Hev|].
    assert (HN0 : LL !! t = None) by (eapply lookup_weaken_None; [done|apply Hm]).
    rewrite Etr, HN0 in Hl; by destruct Hl.
  - exists rfc; rewrite (idx_upd_ne _ _ _ _ _ Hu) by congruence. done.
Qed.

Lemma move_acks V H LL A s H' LL' s' i rf rf' q k t :
  log_inv V H LL A s -> move H LL H' LL' rf rf' -> idx (nodes s) i = Some rf ->
  upd (nodes s) i rf' = Some (nodes s') -> ackNow s' A q k t ->
  exists rfq, idx (nodes s') q = Some rfq /\ t <= currentTerm rfq
    /\ (0 < k -> has (log rfq) k t \/ exists u, t < u <= currentTerm rfq /\ lacks LL' u k t).
Proof.
  intros HI Hm Hi Hu HA; pose proof (mv_term _ _ _ _ _ _ Hm) as Hmt.
  destruct (ackNow_new _ _ _ _ _ _ _ _ _ _ _ HI Hu HA) as [HAo|(-> & -> & Hk & Hh)].
  2:{ exists rf'; rewrite (idx_upd_eq _ _ _ _ Hu); split_and!; [done|lia|by left]. }
  destruct (lg_acks _ _ _ _ _ HI q k t HAo) as (rfq & Hq & Ht & Hor).
  destruct (decide (q = i)) as [->|].
  - rewrite Hi in Hq; injection Hq as <-. exists rf'; rewrite (idx_upd_eq _ _ _ _ Hu).
    split_and!; [done|lia|]. intros Hk; destruct (Hor Hk) as [Hh|(u & Hu' & Hl)]; [by eapply Hm|right].
    exists u; split; [lia|]. eapply lacks_mono; [apply Hm|done].
  - exists rfq; rewrite (idx_upd_ne _ _ _ _ _ Hu) by congruence. split_and!; [done|lia|]. intros Hk.
    destruct (Hor Hk) as [|(u & Hu' & Hl)]; [by left|right; exists u; split; [lia|]]. eapply lacks_mono; [apply Hm|done].
Qed.

(** The invariant after a step of one peer; the goroutines stay where they are. *)
Lemma move_inv V H LL A s H' LL' s' i rf rf' :
  node_inv n V s -> log_inv V H LL A s -> idx (nodes s) i = Some rf ->
  upd (nodes s) i rf' = Some (nodes s') -> vcalls s' = vcalls s -> reps s' = reps s ->
  move H LL H' LL' rf rf' -> node_ok H' LL' (ackNow s' A) i rf' -> vote_ok V H' LL' (ackNow s' A) s' i rf' ->
  (forall T o L, LL' !! T = Some (o, L) -> LL !! T = Some (o, L)
     \/ (o = i /\ T = currentTerm rf' /\ state rf' = Leader
         /\ majority n (fun q => cast i rf' V q T o /\ evidence H' LL' (ackNow s' A) q T L))) ->
  log_inv (cast i rf' V) H' LL' (ackNow s' A) s'.
Proof.
  intros HN HI Hi Hu Hvc Hrp Hm Hok Hvote Hnew.
  split; try (by apply Hm).
  - intros T o L HL; destruct (Hnew T o L HL) as [HLo|(_ & _ & _ & Hmaj)]; [|done].
    destruct (lg_elected _ _ _ _ _ HI T o L HLo) as (Q & ? & ? & HQ); exists Q; split_and!; try done.
    intros q Hq; destruct (HQ q Hq) as (? & HV & He); split; [done|]; split; [by apply cast_mono|].
    eapply evidence_mono; [apply Hm|apply Hm| |done]. intros k u Hut; eapply (ackNow_voted V H LL A s s' i rf rf'); try done; apply Hm.
  - intros T o L HL; destruct (Hnew T o L HL) as [HLo|(-> & -> & HS & _)].
    2:{ exists rf'; rewrite (idx_upd_eq _ _ _ _ Hu); split; [done|right]. split; [done|by rewrite HS]. }
    destruct (lg_led _ _ _ _ _ HI T o L HLo) as (rfo & Ho & Hor). destruct (decide (o = i)) as [->|].
    + rewrite Hi in Ho; injection Ho as <-. exists rf'; rewrite (idx_upd_eq _ _ _ _ Hu); split; [done|].
      pose proof (mv_term _ _ _ _ _ _ Hm). destruct (decide (T < currentTerm rf')); [by left|right].
      split; [lia|]. intros HS; destruct (mv_cand _ _ _ _ _ _ Hm) as [HSr _]; [lia|done|]. naive_solver lia.
    + exists rfo; rewrite (idx_upd_ne _ _ _ _ _ Hu) by congruence. done.
  - intros j rfj Hj; destruct (decide (i = j)) as [->|Hne].
    + rewrite (idx_upd_eq _ _ _ _ Hu) in Hj; injection Hj as <-. done.
    + rewrite (idx_upd_ne _ _ _ _ _ Hu) in Hj by congruence.
      destruct (lg_node _ _ _ _ _ HI j rfj Hj) as [? ? Hp ? Ha Hc Hl]; split; try done.
      * eapply path_mono; [apply Hm|done].
      * intros k Hk Hh; left; auto.
      * eapply commitOk_mono; [by left| |done]. done.
      * intros HS; eapply (leading_other H LL A _ H' LL' i rf j); [apply Hm|apply Hm|by left|auto| | |done].
        -- intros k Hk; destruct (mv_grow _ _ _ _ _ _ Hm k _ Hk) as [|(? & ? & ?)]; auto.
        -- intros HSr; by apply (lg_node _ _ _ _ _ HI i rf Hi).
  - intros q k t HA; by eapply move_acks.
  - intros j rfj Hj Hv; destruct (decide (i = j)) as [->|Hne].
    + rewrite (idx_upd_eq _ _ _ _ Hu) in Hj; injection Hj as <-. by right.
    + rewrite (idx_upd_ne _ _ _ _ _ Hu) in Hj by congruence. left. by apply (lg_cast _ _ _ _ _ HI).
  - intros q t c [HV|(-> & -> & -> & Hc)]; [by eapply move_cand|].
    destruct (Hvote Hc) as [HV|(rfc & ? & ? & He)]; [by eapply move_cand|]. exists rfc; auto.
  - intros c v; rewrite Hvc; intros Hv. eapply ask_move; try done. by eapply HI.
  - intros r p; rewrite Hrp; intros Hr. eapply rep_move; try done. by eapply HI.
Qed.
End inv.
