(* ===== verification/RaftLogSteps.v ===== *)
(** * Raft: the steps of a peer and the tree of entries

    What each kind of step of a peer that keeps its whole log does to the log,
    the commit index and the bookkeeping of a leader, and that the invariant of
    [RaftLogSafety] survives it. *)

From S2P Require Import Prelude Gob RaftTypes RaftLog RaftElection RaftReplicate RaftSnapshot.
From S2P Require Import RaftPeer RaftLogFacts RaftCommit RaftCluster RaftElectionSafety RaftPaths RaftLogSafety.

Section calm.
Context {Cmd : Type} `{!GobType Cmd}.
Implicit Types (rf : Raft Cmd).

(** Steps that leave the log alone and create no leader. *)
Record calm rf rf' : Prop := {
  cm_log : log rf' = log rf;
  cm_snap : snapIndex rf' = snapIndex rf;
  cm_commit : commitIndex rf' = commitIndex rf \/ commitIndex rf' = 0;
  cm_term : currentTerm rf <= currentTerm rf';
  cm_cand : currentTerm rf' = currentTerm rf -> state rf' = Candidate -> state rf = Candidate;
  cm_lead : state rf' = Leader ->
    state rf = Leader /\ currentTerm rf' = currentTerm rf /\ matchIndex rf' = matchIndex rf;
}.

(** The vote is the one cast before, or withdrawn in a new term. *)
Definition kept rf rf' : Prop :=
  votedFor rf' = -1 \/ (currentTerm rf' = currentTerm rf /\ votedFor rf' = votedFor rf).

Definition calm_kept rf rf' : Prop := calm rf rf' /\ kept rf rf'.

Lemma calm_refl rf : calm_kept rf rf.
Proof. split; [split; auto; lia|by right]. Qed.

Lemma calm_newGen t rf : currentTerm rf < t -> calm_kept rf (newGen t rf).
Proof. intros; split; [split; simpl; auto; try done; lia|by left]. Qed.

Lemma calm_newGen_if t rf : calm_kept rf (if t >? currentTerm rf then newGen t rf else rf).
Proof. case_if; [by apply calm_newGen|apply calm_refl]. Qed.

(** Same log, same term and state: only the volatile bookkeeping differs. *)
Lemma calm_same rf rf1 rf2 :
  calm_kept rf rf1 -> log rf2 = log rf1 -> snapIndex rf2 = snapIndex rf1 -> commitIndex rf2 = commitIndex rf1 ->
  currentTerm rf2 = currentTerm rf1 -> state rf2 = state rf1 -> votedFor rf2 = votedFor rf1 ->
  matchIndex rf2 = matchIndex rf1 -> calm_kept rf rf2.
Proof.
  intros [[] Hk] El Es Ec Et ES Ev Em; split; [split|unfold kept in *]; rewrite ?El, ?Es, ?Ec, ?Et, ?ES, ?Ev, ?Em; done.
Qed.

Lemma calm_observe now args rf : calm_kept rf (touched now (observeLeader args rf)).
Proof.
  eapply (calm_same rf (observeLeader args rf)); try done. unfold observeLeader; case_if; [by apply calm_newGen|].
  case_if; [|apply calm_refl]. split; [split; simpl; auto; try done; lia|by right].
Qed.

Lemma calm_stepBack i xt xi xl rf rf' : stepBack i xt xi xl rf = Some rf' -> calm_kept rf rf'.
Proof.
  unfold stepBack; intros H; case_if_in H; [|inv_opt; case_if_in H]; inv_opt;
    (eapply calm_same; [apply calm_refl|done..]).
Qed.

Lemma calm_guardKick rf rf' msgs : guardKick rf = Some (rf', msgs) -> calm_kept rf rf'.
Proof.
  unfold guardKick; intros H; case_if_in H; inv_opt; (eapply calm_same; [apply calm_refl|done..]).
Qed.

Lemma calm_InstallSnapshot now args rf rf' reply msg :
  LastIncludedIndex args <= snapIndex rf -> InstallSnapshot now args rf = Some (rf', reply, msg) -> calm_kept rf rf'.
Proof.
  unfold InstallSnapshot; intros Hs H; case_if_in H; [inv_opt; apply calm_refl|].
  pose proof (calm_newGen_if (is_Term args) rf) as Hg; revert Hg H.
  generalize (if is_Term args >? currentTerm rf then newGen (is_Term args) rf else rf). intros rf1 Hg H.
  case_if_in H; [inv_opt; by eapply (calm_same rf rf1)|].
  destruct Hg as [[] _]. simpl in *; zbool; lia.
Qed.

Lemma calm_restart now rf rf' : durable rf -> restart now rf = Some rf' -> calm_kept rf rf'.
Proof.
  intros Hd Hr; destruct (restart_durable now rf Hd) as (rf2 & Hr2 & Hq & _ & _ & _ & HS & HC & _).
  rewrite Hr in Hr2; inv_opt; injection Hq as ? ? ? ? ?.
  split; [split; auto; [lia|congruence|congruence]|by right].
Qed.

Lemma tick_cases now rf : (tick now rf).1 = rf \/ tick now rf = (becomeCandidate rf, true).
Proof. unfold tick; case_if; auto. Qed.

Lemma calm_becomeCandidate rf : calm rf (becomeCandidate rf).
Proof. split; simpl; auto; try done; lia. Qed.

(** The handler of vote requests: the vote is granted to a candidate whose log
    is up to date, in its term. *)
Lemma calm_RequestVote now args rf rf' reply :
  RequestVote now args rf = Some (rf', reply) ->
  calm rf rf' /\ (kept rf rf' \/ (currentTerm rf' = rv_Term args /\ votedFor rf' = CandidateId args
    /\ exists e, get rf (logLength rf - 1) = Some e
        /\ (Term e < LastLogTerm args \/ (Term e = LastLogTerm args /\ logLength rf - 1 <= LastLogIndex args)))).
Proof.
  unfold RequestVote; intros H.
  pose proof (calm_newGen_if (rv_Term args) rf) as Hg.
  assert (Hle : rv_Term args
    <= currentTerm (if rv_Term args >? currentTerm rf then newGen (rv_Term args) rf else rf)) by (case_if; simpl; lia).
  revert Hle Hg H; generalize (if rv_Term args >? currentTerm rf then newGen (rv_Term args) rf else rf).
  intros rf1 Hle Hg H; case_if_in H; inv_opt; [split; [apply Hg|left; apply Hg]|].
  destruct x as [rf2 g]; inv_opt.
  match goal with Ht : tryVotingFor _ _ _ _ _ = _ |- _ => unfold tryVotingFor in Ht; inv_opt; case_if_in Ht; inv_opt end.
  2:{ split; [apply Hg|left; apply Hg]. }
  destruct Hg as [[El Es Ec Et EC EL] _]; split; [split; simpl; auto|right].
  simpl; split_and!; [lia|done|].
  match goal with Hx : get _ _ = Some ?e |- _ => exists e; unfold get, logLength in *; rewrite Es, El in * end.
  split; [done|]. zbool. repeat match goal with H : _ \/ _ |- _ => destruct H; zbool end; lia.
Qed.
End calm.

Section quiet.
Context {Cmd : Type} `{!GobType Cmd}.
Implicit Types (s : cluster Cmd) (rf : Raft Cmd) (l M L : list (Entry Cmd)).
Implicit Types (V : votes) (H : tree Cmd) (LL : leaderLogs Cmd) (A : Z -> Z -> Z -> Prop).
Context (n : nat).

(** Steps that keep the log; the commit index and [matchIndex] may move. *)
Record quiet H A rf rf' : Prop := {
  qt_log : log rf' = log rf;
  qt_snap : snapIndex rf' = snapIndex rf;
  qt_term : currentTerm rf <= currentTerm rf';
  qt_cand : currentTerm rf' = currentTerm rf -> state rf' = Candidate -> state rf = Candidate;
  qt_lead : state rf' = Leader -> state rf = Leader /\ currentTerm rf' = currentTerm rf;
  qt_commit : commitOk n A (commitIndex rf') (log rf);
  qt_match : state rf' = Leader -> matchOk n H A rf';
}.

Lemma matchOk_same H A rf rf' :
  matchIndex rf' = matchIndex rf -> log rf' = log rf -> currentTerm rf' = currentTerm rf ->
  matchOk n H A rf -> matchOk n H A rf'.
Proof. unfold matchOk; intros -> -> ->; done. Qed.

Lemma calm_quiet H LL A i rf rf' : node_ok n H LL A i rf -> calm rf rf' -> quiet H A rf rf'.
Proof.
  intros HN [El Es Ec Et EC EL]; split; try done.
  - intros HS; destruct (EL HS) as (? & ? & _); done.
  - destruct Ec as [->| ->]; [apply HN|by left].
  - intros HS; destruct (EL HS) as (HSr & ? & ?). apply (matchOk_same H A rf); try done. by apply (no_leader _ _ _ _ _ _ HN).
Qed.

Lemma vote_kept V H LL A s s' i rf rf' :
  log_inv n V H LL A s -> idx (nodes s) i = Some rf -> kept rf rf' -> forall H' LL' A', vote_ok V H' LL' A' s' i rf'.
Proof.
  intros HI Hi Hk H' LL' A' Hv. destruct Hk as [|[Et Ev]]; [done|].
  left; rewrite Et, Ev. apply (lg_cast _ _ _ _ _ _ HI); [done|congruence].
Qed.

Lemma quiet_inv V H LL A s s' i rf rf' :
  node_inv n V s -> log_inv n V H LL A s -> idx (nodes s) i = Some rf ->
  upd (nodes s) i rf' = Some (nodes s') -> vcalls s' = vcalls s -> reps s' = reps s ->
  quiet H A rf rf' -> vote_ok V H LL (ackNow s' A) s' i rf' ->
  log_inv n (cast i rf' V) H LL (ackNow s' A) s'.
Proof.
  intros HN HI Hi Hu Hvc Hrp [El Es Et EC EL Ec Em] Hv; pose proof (lg_node _ _ _ _ _ _ HI i rf Hi) as [N1 N2 N3 N4 N5 N6 N7].
  eapply (move_inv n V H LL A s H LL s' i rf rf'); try done; [split; try done; try (by apply HI)| |by left].
  - rewrite El; by left.
  - intros Ht HS; split; [auto|by left].
  - intros HS; destruct (EL HS) as [? ?]; split; [done|left]. rewrite El; done.
  - by left.
  - split; rewrite ?El, ?Es; try done; [lia| | |eapply commitOk_mono; [by left|done|done]|].
    + intros k e He; specialize (N4 k e He); lia.
    + intros k Hk Hh; right; split; [done|]. exists rf'; rewrite (idx_upd_eq _ _ _ _ Hu), El; done.
    + intros HS; destruct (EL HS) as [HSr Ht]; destruct (N7 HSr) as [L1 L2 _].
      split; rewrite ?El, ?Ht; try done. intros j m Hj; destruct (Em HS j m Hj) as [? Hk]; split; [done|].
      intros k Hkm Hs; destruct (Hk k Hkm Hs) as [|Hsafe]; [left; by left|right]. eapply safe_mono; [done| |done]. by left.
Qed.

(** Every calm step but a vote. *)
Lemma calm_inv V H LL A s s' i rf rf' :
  node_inv n V s -> log_inv n V H LL A s -> idx (nodes s) i = Some rf -> calm_kept rf rf' ->
  upd (nodes s) i rf' = Some (nodes s') -> vcalls s' = vcalls s -> reps s' = reps s ->
  log_inv n (cast i rf' V) H LL (ackNow s' A) s'.
Proof.
  intros HN HI Hi [Hc Hk] Hu Hvc Hrp. eapply quiet_inv; try done; [|by eapply vote_kept].
  eapply calm_quiet; [by eapply HI|done].
Qed.

(** ** The leader's bookkeeping *)

Lemma replicaCount_holders N rf ids c :
  NoDup ids -> replicaCount N ids rf = Some c ->
  exists Q, NoDup Q /\ length Q = c
    /\ forall q, q ∈ Q -> q ∈ ids /\ (q = me rf \/ exists m, idx (matchIndex rf) q = Some m /\ N <= m).
Proof.
  revert c; induction ids as [|i ids IH]; simpl; intros c Hnd Hc; inv_opt; [by exists []; split_and!; [constructor|done|set_solver]|].
  apply NoDup_cons in Hnd as [Hni Hnd].
  match goal with Hr : replicaCount _ _ _ = Some ?x |- _ => destruct (IH x Hnd Hr) as (Q & HN & HL & HQ) end.
  assert (Hskip : forall q, q ∈ Q -> q ∈ i :: ids /\ (q = me rf \/ exists m, idx (matchIndex rf) q = Some m /\ N <= m)).
  { intros q Hq; destruct (HQ q Hq); split; [by right|done]. }
  assert (Hadd : (i = me rf \/ exists m, idx (matchIndex rf) i = Some m /\ N <= m) ->
    exists Q, NoDup Q /\ length Q = S x /\ forall q, q ∈ Q -> q ∈ i :: ids
      /\ (q = me rf \/ exists m, idx (matchIndex rf) q = Some m /\ N <= m)).
  { intros Hi; exists (i :: Q); split_and!; [constructor; [|done]|simpl; congruence|].
    - intros Hq; destruct (HQ i Hq); done.
    - intros q [->|Hq]%elem_of_cons; [split; [by left|done]|by apply Hskip]. }
  case_if_in Hc; inv_opt; [by apply Hadd; left|]. case_if; [apply Hadd; right; eauto|by exists Q].
Qed.

Lemma commitLoop_Some fuel N rf rf' :
  commitLoop fuel N rf = Some rf' ->
  rf' = rf \/ exists N' c e, rf' = bEffortKick (set_commitIndex N' rf) /\ snapIndex rf < N'
    /\ replicaCount N' (seqZ 0 (Z.of_nat (peers rf))) rf = Some c /\ (peers rf / 2 < c)%nat
    /\ get rf N' = Some e /\ Term e = currentTerm rf.
Proof.
  revert N; induction fuel as [|fuel IH]; simpl; intros N Hc; case_if_in Hc; inv_opt; try (by left).
  destruct x0; inv_opt; [|eauto]. right; exists N, x.
  match goal with Hx : _ = Some true |- _ => case_if_in Hx; [|done]; apply fmap_Some in Hx as (e & He & Hte) end.
  symmetry in Hte; zbool. exists e; split_and!; try done. by apply Nat.ltb_lt.
Qed.

(** What was committed in its term or before is in the log of a leader. *)
Lemma safe_leader V H LL A s i rf k :
  log_inv n V H LL A s -> idx (nodes s) i = Some rf -> state rf = Leader -> safe n H A k (currentTerm rf) ->
  commitOk n A k (log rf).
Proof.
  intros HI Hi HS (l & kc & tc & Hl & Hh & Hc & Hk & Ht).
  pose proof (lg_node _ _ _ _ _ _ HI i rf Hi) as HN.
  destruct (no_leader _ _ _ _ _ _ HN HS) as [(L & HL & Hp & HT) Hall _].
  right; exists kc, tc; split_and!; [lia| |done]. destruct (decide (tc = currentTerm rf)) as [->|].
  - destruct (led_compare H LL l kc (currentTerm rf) (log rf)) as [_ Hx]; [apply HI|apply HI|done|lia|done| |].
    + split; [apply HN|]. by exists i, L.
    + apply Hx, Hall. destruct (path_has_tree H l kc (currentTerm rf) Hl ltac:(lia) Hh) as (c & p & ->); eauto.
  - eapply prefix_has; [exact Hp|]. eapply (lg_complete n V H LL A s kc tc); try done; lia.
Qed.

Lemma either_all {P : Z -> Prop} {Y : Prop} (Q : list Z) :
  (forall q, q ∈ Q -> P q \/ Y) -> (forall q, q ∈ Q -> P q) \/ Y.
Proof.
  induction Q as [|q Q IH]; intros HQ; [left; intros q Hq; by apply elem_of_nil in Hq|].
  destruct (HQ q ltac:(left)) as [Hq|]; [|by right]. destruct IH as [HQ'|]; [intros; apply HQ; by right| |by right].
  left; intros q' [->|]%elem_of_cons; auto.
Qed.

(** A leader commits an entry of its term once a majority acknowledged it. *)
Lemma leader_commits V H LL A s i rf N c mi :
  log_inv n V H LL A s -> idx (nodes s) i = Some rf -> state rf = Leader -> me rf = i -> peers rf = n ->
  matchOk n H A (set_matchIndex mi rf) -> 0 < N -> has (log rf) N (currentTerm rf) ->
  replicaCount N (seqZ 0 (Z.of_nat n)) (set_matchIndex mi rf) = Some c -> (n / 2 < c)%nat ->
  commitOk n A N (log rf).
Proof.
  intros HI Hi HS Hme Hpe Hmatch HN Hh Hrc Hmaj; pose proof (lg_node _ _ _ _ _ _ HI i rf Hi) as Hok.
  destruct (replicaCount_holders _ _ _ _ (NoDup_seqZ _ _) Hrc) as (Q & HQN & HQl & HQ).
  destruct (either_all (P := fun q => A q N (currentTerm rf)) (Y := safe n H A N (currentTerm rf)) Q) as [Hall|Hsafe].
  - intros q Hq; destruct (HQ q Hq) as (_ & [->|(m & Hm & Hle)]).
    + left; simpl; rewrite Hme. by apply (no_acked _ _ _ _ _ _ Hok).
    + destruct (Hmatch q m Hm) as [_ Hk]; simpl in Hk; apply Hk; [lia|]. destruct (path_has_tree H (log rf) N (currentTerm rf) (no_path _ _ _ _ _ _ Hok) HN Hh) as (x & p & ->); eauto.
  - right; exists N, (currentTerm rf); split_and!; [lia|done|]. exists Q; split_and!; [done|by rewrite HQl|].
    intros q Hq; destruct (HQ q Hq) as (Hr%elem_of_seqZ & _). split; [lia|auto].
  - by eapply safe_leader.
Qed.

Lemma matchOk_upd H A rf rf' j m mi :
  matchOk n H A rf -> upd (matchIndex rf) j m = Some mi -> matchIndex rf' = mi -> log rf' = log rf ->
  currentTerm rf' = currentTerm rf -> m < len (log rf) ->
  (forall k, 0 < k <= m -> is_Some (H !! (k, currentTerm rf)) ->
     A j k (currentTerm rf) \/ safe n H A k (currentTerm rf)) -> matchOk n H A rf'.
Proof.
  unfold matchOk; intros Hm Hu -> -> -> Hlt HA q x Hq. destruct (decide (q = j)) as [->|].
  - rewrite (idx_upd_eq _ _ _ _ Hu) in Hq; injection Hq as <-. done.
  - rewrite (idx_upd_ne _ _ _ _ _ Hu) in Hq by congruence. by apply Hm.
Qed.

End quiet.

Section accept.
Context {Cmd : Type} `{!GobType Cmd}.
Implicit Types (s : cluster Cmd) (rf : Raft Cmd) (l M L : list (Entry Cmd)) (args : AppendEntriesArgs Cmd).
Implicit Types (V : votes) (H : tree Cmd) (LL : leaderLogs Cmd) (A : Z -> Z -> Z -> Prop).
Context (n : nat).

(** What a peer that accepts the entries of [M] becomes. *)
Record accepts args M rf rf' : Prop := {
  ac_case : (M `prefix_of` log rf /\ log rf' = log rf) \/ (~ M `prefix_of` log rf /\ log rf' = M);
  ac_snap : snapIndex rf' = snapIndex rf;
  ac_term : currentTerm rf' = ae_Term args;
  ac_mono : currentTerm rf <= currentTerm rf';
  ac_state : state rf' <> Candidate;
  ac_lead : state rf' = Leader -> state rf = Leader /\ currentTerm rf' = currentTerm rf;
  ac_kept : kept rf rf';
  ac_commit : commitIndex rf' = commitIndex rf \/ commitIndex rf' <= Z.max 0 (LeaderCommit args);
}.

(** A peer does not lead a term another peer leads. *)
Lemma not_leader V H LL A s i rf rf' T o L :
  log_inv n V H LL A s -> idx (nodes s) i = Some rf -> LL !! T = Some (o, L) -> o <> i -> currentTerm rf' = T ->
  (state rf' = Leader -> state rf = Leader /\ currentTerm rf' = currentTerm rf) -> state rf' <> Leader.
Proof.
  intros HI Hi HL Hne Et Hlead HS; destruct (Hlead HS) as [HSr Ht].
  destruct (ld_log _ _ _ _ _ _ (no_leader _ _ _ _ _ _ (lg_node _ _ _ _ _ _ HI i rf Hi) HSr)) as (L' & HL' & _).
  rewrite <- Ht, Et, HL in HL'; congruence.
Qed.

Lemma ledBy_terms H LL T M k e : leadersOk H LL -> ledBy H LL T M -> idx M k = Some e -> Term e <= T.
Proof.
  intros HL (_ & o & L & HLT & Hp & Ht) He. destruct (decide (len L <= k)).
  - by rewrite (Ht k e).
  - rewrite (prefix_idx L M k Hp) in He by lia. destruct (HL _ _ _ HLT) as [_ Hlt]. specialize (Hlt k e He). lia.
Qed.

(** Replacing a log by the leader's loses only entries the leader of the term
    was elected without. *)
Lemma led_keeps H LL l M T k t :
  treeOk H LL -> leadersOk H LL -> path H l -> ledBy H LL T M -> ~ M `prefix_of` l ->
  0 < k -> t <= T -> has l k t -> has M k t \/ (t < T /\ lacks LL T k t).
Proof.
  intros Ht HL Hl HM Hn Hk Hle Hh; destruct (decide (t = T)) as [->|].
  - left; destruct (led_compare H LL l k T M) as [Hc1 Hc2]; try done.
    apply Hc2. destruct (decide (k < len M)); [done|]. destruct Hn; apply Hc1; lia.
  - destruct (decide (has M k t)) as [|Hnk]; [by left|right; split; [lia|]].
    destruct HM as (_ & o & L & HLT & Hp & _). exists o, L; split; [done|]. intros ?; by apply Hnk, (prefix_has L M).
Qed.

Lemma accept_inv V H LL A s s' i rf rf' args o M :
  node_inv n V s -> log_inv n V H LL A s -> idx (nodes s) i = Some rf ->
  upd (nodes s) i rf' = Some (nodes s') -> vcalls s' = vcalls s -> reps s' = reps s ->
  ledBy H LL (ae_Term args) M -> (exists L, LL !! ae_Term args = Some (o, L)) -> o <> i ->
  commitOk n A (LeaderCommit args) M -> accepts args M rf rf' ->
  log_inv n (cast i rf' V) H LL (ackNow s' A) s' /\ M `prefix_of` log rf'.
Proof.
  intros HN HI Hi Hu Hvc Hrp HM (Lo & HLo) Hne Hcm Hac.
  pose proof (lg_node _ _ _ _ _ _ HI i rf Hi) as [N1 N2 N3 N4 N5 N6 N7].
  pose proof (lg_tree _ _ _ _ _ _ HI) as Htree; pose proof (lg_leaders _ _ _ _ _ _ HI) as Hlead.
  destruct Hac as [Hcase Es Et Em ES EL Ek Ec].
  assert (HnL : state rf' <> Leader) by (by eapply (not_leader V H LL A s i rf)).
  assert (Hpre : M `prefix_of` log rf') by (destruct Hcase as [[? ->]|[_ ->]]; done).
  assert (Hkeep : forall k t, 0 < k -> t <= ae_Term args -> has (log rf) k t ->
            has (log rf') k t \/ (t < ae_Term args /\ lacks LL (ae_Term args) k t)).
  { intros k t Hk Hle Hh; destruct Hcase as [[_ ->]|[Hn ->]]; [by left|]. by eapply led_keeps. }
  assert (Hcommit : commitOk n A (commitIndex rf') (log rf')).
  { destruct Ec as [->|Hle].
    - eapply commitOk_mono; [done| |exact N6]. intros k t Hk Hc Hh.
      destruct (Hkeep k t Hk) as [|(Hlt & o' & L & HL & Hn)]; [|done|done|].
      + destruct Hh as (e & He & <-). specialize (N4 k e He); lia.
      + destruct Hn. by eapply (lg_complete n V H LL A s k t).
    - destruct Hcm as [|(k & t & Hk & Hh & Hc)]; [left; lia|]. destruct (decide (commitIndex rf' <= 0)); [by left|].
      right; exists k, t; split_and!; [lia|by eapply prefix_has|done]. }
  split; [|done]. eapply (move_inv n V H LL A s H LL s' i rf rf'); try done; [split; try done| |by eapply vote_kept|by left].
  - intros k t Hk Hle Hh; destruct (Hkeep k t Hk) as [|[? ?]]; [lia|done|by left|right].
    exists (ae_Term args); split; [lia|done].
  - by left.
  - split; try done; [congruence|lia| | | |eapply commitOk_mono; [by left|done|done]].
    + destruct Hcase as [[_ ->]|[_ ->]]; [done|apply HM].
    + intros k e He; destruct Hcase as [[_ El']|[_ El']]; rewrite El' in He.
      * specialize (N4 k e He); lia.
      * rewrite Et. by eapply ledBy_terms.
    + intros k Hk Hh; right; split; [done|]. exists rf'; rewrite (idx_upd_eq _ _ _ _ Hu); done.
Qed.

(** A peer that accepted a request acknowledges the entries of its term. *)
Lemma accept_acks V H LL A s s' i rf' T M k :
  log_inv n V H LL A s -> upd (nodes s) i rf' = Some (nodes s') -> currentTerm rf' = T -> ledBy H LL T M ->
  M `prefix_of` log rf' -> 0 < k < len M -> is_Some (H !! (k, T)) -> ackNow s' A i k T.
Proof.
  intros HI Hu Ht (_ & o & L & HLT & Hp & HT) HM Hk [[c p] Hc].
  destruct (lg_tree _ _ _ _ _ _ HI _ _ _ _ Hc) as (o' & L' & HLT' & Hlen & _).
  rewrite HLT in HLT'; injection HLT' as <- <-.
  right; split; [lia|]. exists rf'; rewrite (idx_upd_eq _ _ _ _ Hu); split_and!; try done.
  eapply prefix_has; [done|]. destruct (idx_in_range M k) as [e He]; [lia|]. exists e; split; [done|]. eapply (HT k); [lia|done].
Qed.

(** ** A new entry *)

Lemma idx_last_app l (e : Entry Cmd) : idx (l ++ [e]) (len l) = Some e.
Proof.
  pose proof (len_nonneg l). unfold idx; case_if; [|lia]. rewrite lookup_app_r by (unfold len; lia).
  by replace (Z.to_nat (len l) - length l)%nat with 0%nat by (unfold len; lia).
Qed.

(** The leader of [T] adds an entry after its last one. *)
Lemma grow_tree H LL l T o L c last :
  treeOk H LL -> leadersOk H LL -> path H l -> LL !! T = Some (o, L) -> L `prefix_of` l ->
  (forall k e, len L <= k -> idx l k = Some e -> Term e = T) -> idx l (len l - 1) = Some last ->
  H !! (len l, T) = None -> treeOk (<[(len l, T) := (c, Term last)]> H) LL.
Proof.
  intros Ht HL Hl HLT Hp HT Hlast Hfresh k u c' p'; rewrite lookup_insert_Some; intros [[Heq Hv]|[_ Hk]].
  - injection Heq as <- <-; injection Hv as <- <-. destruct (HL T o L HLT) as [HpL _].
    pose proof (path_len _ _ HpL); pose proof (prefix_length _ _ Hp).
    exists o, L; split_and!; try done; [unfold len in *; lia| |].
    + intros E; rewrite <- (prefix_idx L l) by (done || lia). by rewrite Hlast.
    + intros Hlt. split; [apply (HT (len l - 1)); [lia|done]|].
      destruct (path_has_tree H l (len l - 1) T Hl ltac:(lia)) as (c1 & p1 & Hc1).
      { exists last; split; [done|]. apply (HT (len l - 1)); [lia|done]. }
      rewrite lookup_insert_ne by (intros [=]; lia). eauto.
  - destruct (Ht _ _ _ _ Hk) as (o' & L' & ? & ? & ? & Hgt). exists o', L'; split_and!; try done; try lia.
    intros Hlt; destruct (Hgt Hlt) as [-> [x Hx]]. split; [done|]. exists x.
    eapply lookup_weaken; [done|by apply insert_subseteq].
Qed.

Lemma grow_path H l T c last :
  path H l -> idx l (len l - 1) = Some last -> H !! (len l, T) = None ->
  path (<[(len l, T) := (c, Term last)]> H) (l ++ [mkEntry T c]).
Proof.
  intros Hl Hlast Hfresh; pose proof (path_len _ _ Hl). split; [rewrite idx_app_l; [apply Hl|lia]|].
  intros k e Hk [[Hlt He]|[-> ->]]%idx_snoc.
  - destruct (proj2 Hl k e Hk He) as (p & Hp1 & Hp2).
    exists p; rewrite idx_app_l by lia. split; [done|]. eapply lookup_weaken; [done|by apply insert_subseteq].
  - exists last; rewrite idx_app_l by lia. split; [done|]. by rewrite lookup_insert_eq.
Qed.

(** The leader's own view after the entry. *)
Lemma grow_leading H LL A A' i rf rf' c (last : Entry Cmd) :
  leading n H LL A i rf -> log rf' = log rf ++ [mkEntry (currentTerm rf) c] -> currentTerm rf' = currentTerm rf ->
  matchIndex rf' = matchIndex rf -> (forall q k t, A q k t -> A' q k t) ->
  H !! (len (log rf), currentTerm rf) = None ->
  leading n (<[(len (log rf), currentTerm rf) := (c, Term last)]> H) LL A' i rf'.
Proof.
  intros [(L & HL & Hp & HT) Hall Hm] Hlog Ht Hmi HA Hfresh.
  assert (Hlen : len (log rf') = len (log rf) + 1) by (rewrite Hlog, len_app; done).
  assert (Hnew : forall k, is_Some (<[(len (log rf), currentTerm rf) := (c, Term last)]> H !! (k, currentTerm rf)) ->
            is_Some (H !! (k, currentTerm rf)) \/ k = len (log rf)).
  { intros k [x Hx]; apply lookup_insert_Some in Hx as [[Heq _]|[_ Hx]]; [injection Heq as ->; auto|eauto]. }
  split; rewrite ?Ht.
  - exists L; rewrite Hlog; split_and!; [done|by apply prefix_app_r|].
    intros k e Hk [[_ He]|[_ ->]]%idx_snoc; [by eapply HT|done].
  - intros k Hk; destruct (Hnew k Hk) as [Ho| ->]; [specialize (Hall k Ho)|]; lia.
  - intros j m; rewrite Hmi, Ht; intros Hj; destruct (Hm j m Hj) as [Hlt Hk]; split; [lia|].
    intros k Hkm Hs. destruct (Hnew k Hs) as [Ho| ->]; [|lia].
    destruct (Hk k Hkm Ho) as [|Hsafe]; [left; auto|right]. eapply safe_mono; [by apply insert_subseteq|done|done].
Qed.

Lemma command_inv V H LL A s s' i rf c :
  node_inv n V s -> log_inv n V H LL A s -> idx (nodes s) i = Some rf -> state rf = Leader ->
  let rf' := append (mkEntry (currentTerm rf) (Some c)) rf in
  upd (nodes s) i rf' = Some (nodes s') -> vcalls s' = vcalls s -> reps s' = reps s ->
  exists H', H ⊆ H' /\ (forall kt c' p, H' !! kt = Some (c', p) -> H !! kt = Some (c', p) \/ c' = Some c)
    /\ log_inv n (cast i rf' V) H' LL (ackNow s' A) s'.
Proof.
  intros HN HI Hi HS rf' Hu Hvc Hrp.
  pose proof (lg_node _ _ _ _ _ _ HI i rf Hi) as [N1 N2 N3 N4 N5 N6 N7]. pose proof (N7 HS) as Hld.
  destruct (ld_log _ _ _ _ _ _ Hld) as (L & HL & Hp & HT).
  pose proof (path_len _ _ N3) as Hlen. destruct (idx_in_range (log rf) (len (log rf) - 1)) as [last Hlast]; [lia|].
  assert (Hfresh : H !! (len (log rf), currentTerm rf) = None).
  { destruct (H !! _) eqn:E; [|done]. pose proof (ld_all _ _ _ _ _ _ Hld (len (log rf)) ltac:(rewrite E; eauto)). lia. }
  set (H' := <[(len (log rf), currentTerm rf) := (Some c, Term last)]> H). exists H'.
  assert (HH : H ⊆ H') by (by apply insert_subseteq).
  assert (Hpre : log rf `prefix_of` log rf') by (by apply prefix_app_r). split; [done|]. split.
  { intros kt c' p [[_ [= <- _]]|[_ Hk]]%lookup_insert_Some; auto. }
  eapply (move_inv n V H LL A s H' LL s' i rf rf'); try done; [split; try done| | |by left].
  - eapply grow_tree; try done; apply HI.
  - intros T' o L' HL'; destruct (lg_leaders _ _ _ _ _ _ HI T' o L' HL') as [? ?]; split; [by eapply path_mono|done].
  - intros k t _ _ Hh; left. by eapply prefix_has.
  - intros _ HS'; simpl in HS'; congruence.
  - intros _; split; [done|left; split; [done|]]. simpl; rewrite len_app; change (len [_]) with 1; lia.
  - intros k u [x Hx]; apply lookup_insert_Some in Hx as [[Heq _]|[_ Hx]]; [injection Heq as <- <-|]; eauto.
  - split; try done.
    + by apply grow_path.
    + intros k e [[_ He]|[_ ->]]%idx_snoc; [by apply (N4 k e)|done].
    + intros k Hk Hh; right; split; [done|]. exists rf'; rewrite (idx_upd_eq _ _ _ _ Hu); done.
    + eapply commitOk_mono; [by left| |exact N6]. intros k t _ _ Hh. by eapply prefix_has.
    + intros _; apply (grow_leading H LL A); try done. by left.
  - eapply vote_kept; [done|done|]. by right.
Qed.
End accept.

Section elect.
Context {Cmd : Type} `{!GobType Cmd}.
Implicit Types (s : cluster Cmd) (rf : Raft Cmd) (l M L : list (Entry Cmd)).
Implicit Types (V : votes) (H : tree Cmd) (LL : leaderLogs Cmd) (A : Z -> Z -> Z -> Prop).
Context (n : nat).

(** ** Votes *)

(** The log of a peer is evidence for its vote in a term without a leader. *)
Lemma goodVote_now V H LL A s s' i rf rf' :
  log_inv n V H LL A s -> idx (nodes s) i = Some rf -> upd (nodes s) i rf' = Some (nodes s') ->
  currentTerm rf <= currentTerm rf' -> LL !! currentTerm rf' = None -> goodVote LL (ackNow s' A) i (currentTerm rf') (log rf).
Proof.
  intros HI Hi Hu Ht HN k t Hk Hlt HA.
  destruct (ackNow_new _ _ _ _ _ _ _ _ _ _ _ _ HI Hu HA) as [HAo|(_ & -> & _)]; [|lia].
  destruct (lg_acks _ _ _ _ _ _ HI i k t HAo) as (rf1 & Hi1 & Hle & Hh). rewrite Hi in Hi1; injection Hi1 as <-.
  destruct (Hh Hk) as [|(u & Hu' & Hl)]; [by left|right]. exists u; split; [|done].
  assert (u <> currentTerm rf'); [|lia]. intros ->. destruct Hl as (o & L & HL & _). congruence.
Qed.

Lemma lastTerm_path H l : path H l -> exists t, lastTerm l = Some t.
Proof.
  intros Hp; pose proof (path_len _ _ Hp). destruct (idx_in_range l (len l - 1)) as [e He]; [lia|].
  exists (Term e); unfold lastTerm; by rewrite He.
Qed.

(** A peer that stands votes for itself. *)
Lemma candidate_inv V H LL A s s' i rf :
  node_inv n V s -> log_inv n V H LL A s -> idx (nodes s) i = Some rf -> me rf = i ->
  upd (nodes s) i (becomeCandidate rf) = Some (nodes s') -> vcalls s' = vcalls s -> reps s' = reps s ->
  log_inv n (cast i (becomeCandidate rf) V) H LL (ackNow s' A) s'.
Proof.
  intros HN HI Hi Hme Hu Hvc Hrp; pose proof (lg_node _ _ _ _ _ _ HI i rf Hi) as Hok.
  eapply quiet_inv; try done; [eapply calm_quiet; [done|apply calm_becomeCandidate]|].
  intros _; right; exists (becomeCandidate rf); simpl; rewrite Hme. rewrite (idx_upd_eq _ _ _ _ Hu).
  split_and!; [done|lia|]. intros HLN _ _.
  destruct (lastTerm_path H (log rf)) as [t Ht]; [apply Hok|].
  exists (log rf), t; split_and!; [apply Hok|done|exists t; split; [done|right; lia]|].
  apply (goodVote_now V H LL A s s' i rf (becomeCandidate rf)); try done; simpl; lia.
Qed.

(** A vote is granted. *)
Lemma vote_inv V H LL A s s' i rf rf' args o :
  node_inv n V s -> log_inv n V H LL A s -> idx (nodes s) i = Some rf -> o <> i ->
  upd (nodes s) i rf' = Some (nodes s') -> vcalls s' = vcalls s -> reps s' = reps s ->
  calm rf rf' -> currentTerm rf' = rv_Term args -> votedFor rf' = CandidateId args ->
  upToDate (LastLogIndex args) (LastLogTerm args) (log rf) ->
  (exists rfo, idx (nodes s) o = Some rfo /\ CandidateId args = o /\ rv_Term args <= currentTerm rfo
     /\ (LL !! rv_Term args = None -> currentTerm rfo = rv_Term args -> state rfo = Candidate ->
           LastLogIndex args = len (log rfo) - 1 /\ lastTerm (log rfo) = Some (LastLogTerm args))) ->
  log_inv n (cast i rf' V) H LL (ackNow s' A) s'.
Proof.
  intros HN HI Hi Hne Hu Hvc Hrp Hc Ht Hv Hup (rfo & Ho & Hcand & Hle & Hlog).
  pose proof (lg_node _ _ _ _ _ _ HI i rf Hi) as Hok.
  eapply quiet_inv; try done; [by eapply calm_quiet|].
  intros _; right; exists rfo; rewrite Hv, Hcand, (idx_upd_ne _ _ _ _ _ Hu) by congruence.
  split_and!; [done|lia|]. intros HLN Et HS.
  destruct (Hlog ltac:(congruence) ltac:(congruence) HS) as [Hli Hlt].
  exists (log rf), (LastLogTerm args); rewrite <- Hli; split_and!; try done; [apply Hok|].
  eapply goodVote_now; try done. apply Hc.
Qed.

(** ** A new leader *)

Lemma leads_first V H LL A s i rf V' :
  node_inv n V s -> log_inv n V H LL A s -> idx (nodes s) i = Some rf -> state rf = Candidate ->
  (forall q c, V' q (currentTerm rf) c -> V q (currentTerm rf) c) -> elected n V' (currentTerm rf) i ->
  LL !! currentTerm rf = None.
Proof.
  intros HN HI Hi HS HV Hel. destruct (LL !! currentTerm rf) as [[o L]|] eqn:HL; [|done].
  destruct (majority_meet n _ _ (lg_elected _ _ _ _ _ _ HI _ _ _ HL) Hel) as (q & (HVo & _) & HVi%HV).
  assert (o = i) as -> by (by eapply (ni_fun _ _ _ HN q)).
  destruct (lg_led _ _ _ _ _ _ HI _ _ _ HL) as (rf1 & Hi1 & [?|[_ ?]]); rewrite Hi in Hi1; injection Hi1 as <-; [lia|done].
Qed.

Lemma becomeLeader_match H A rf : path H (log rf) -> forall ni, matchOk n H A (set_nextIndex ni (becomeLeader rf).1).
Proof.
  intros Hp ni j m Hj; pose proof (path_len _ _ Hp). simpl in *.
  rewrite idx_fmap in Hj. apply fmap_Some in Hj as (x & _ & ->). case_if; split; lia.
Qed.

Lemma elect_inv V H LL A s s' i rf ni :
  let rf' := set_nextIndex ni (becomeLeader rf).1 in
  node_inv n V s -> log_inv n V H LL A s -> idx (nodes s) i = Some rf -> state rf = Candidate ->
  upd (nodes s) i rf' = Some (nodes s') -> vcalls s' = vcalls s -> reps s' = reps s ->
  elected n (cast i rf' V) (currentTerm rf) i ->
  log_inv n (cast i rf' V) H (<[currentTerm rf := (i, log rf)]> LL) (ackNow s' A) s'.
Proof.
  intros rf' HN HI Hi HS Hu Hvc Hrp Hel; pose proof (lg_node _ _ _ _ _ _ HI i rf Hi) as [N1 N2 N3 N4 N5 N6 N7].
  set (T := currentTerm rf) in *. set (LL' := <[T := (i, log rf)]> LL).
  assert (Hold : forall q c, cast i rf' V q T c -> V q T c).
  { intros q c [|(-> & _ & -> & Hv)]; [done|]. by apply (lg_cast _ _ _ _ _ _ HI i rf). }
  pose proof (leads_first V H LL A s i rf _ HN HI Hi HS Hold Hel) as HLN.
  assert (Hnone : forall k, ~ is_Some (H !! (k, T))).
  { intros k [[c p] Hc]. destruct (lg_tree _ _ _ _ _ _ HI _ _ _ _ Hc) as (o & L & HL & _). unfold T in HL; congruence. }
  assert (Hlt : forall k e, idx (log rf) k = Some e -> Term e < T).
  { intros k e He; specialize (N4 k e He). destruct (decide (Term e = T)) as [Et|]; [|lia].
    pose proof (idx_Some_range _ _ _ He). destruct (decide (k = 0)) as [->|].
    - destruct N3 as [N3 _]; rewrite N3 in He; injection He as <-. simpl in *; unfold T in *; lia.
    - destruct (path_has_tree H (log rf) k T N3 ltac:(lia)) as (c & p & Hc); [by exists e|]. destruct (Hnone k); eauto. }
  assert (HLL : LL ⊆ LL') by (by apply insert_subseteq).
  eapply (move_inv n V H LL A s H LL' s' i rf rf'); try done; [split; try done| | |].
  - intros k u c p Hc; destruct (lg_tree _ _ _ _ _ _ HI _ _ _ _ Hc) as (o & L & HL & ?). exists o, L; split; [by eapply lookup_weaken|done].
  - intros u o L HL; apply lookup_insert_Some in HL as [[<- [= <- <-]]|[_ HL]]; [done|by apply (lg_leaders _ _ _ _ _ _ HI u o)].
  - by left.
  - intros _; split; [done|by right].
  - by left.
  - split; try done.
    + intros k Hk Hh; right; split; [done|]. exists rf'; rewrite (idx_upd_eq _ _ _ _ Hu); done.
    + eapply commitOk_mono; [by left|done|exact N6].
    + intros _; split; [| |by apply becomeLeader_match].
      * exists (log rf); unfold LL'; simpl. rewrite lookup_insert_eq; split_and!; try done.
        intros k e Hk He%idx_Some_range; lia.
      * intros k Hk; by destruct (Hnone k).
  - eapply vote_kept; [done|done|]. by right.
  - intros u o L HL; apply lookup_insert_Some in HL as [[<- [= <- <-]]|[_ HL]]; [right|by left].
    split_and!; try done. destruct Hel as (Q & ? & ? & HQ); exists Q; split_and!; try done.
    intros q Hq; destruct (HQ q Hq) as [? HVq]; split; [done|split; [done|]].
    destruct (lg_cand _ _ _ _ _ _ HI q T i (Hold q i HVq)) as (rf1 & Hi1 & _ & Hev).
    rewrite Hi in Hi1; injection Hi1 as <-. eapply evidence_mono; [done|done| |by apply Hev].
    intros k v Hv; eapply (ackNow_voted n V H LL A s s' i rf rf'); try done. by apply Hold.
Qed.

End elect.

Section install.
Context {Cmd : Type} `{!GobType Cmd}.
Implicit Types (s : cluster Cmd) (rf : Raft Cmd) (l M L : list (Entry Cmd)).
Implicit Types (V : votes) (H : tree Cmd) (LL : leaderLogs Cmd) (A : Z -> Z -> Z -> Prop).
Context (n : nat).

(** ** The part of a committed path a snapshot covers *)

Lemma idx_take_upto l (x k : Z) : 0 <= x -> k <= x -> idx (take (Z.to_nat (x + 1)) l) k = idx l k.
Proof. intros ? ?; apply idx_take; lia. Qed.

Lemma path_take H l (x : Z) : 0 <= x -> path H l -> path H (take (Z.to_nat (x + 1)) l).
Proof.
  intros Hx [H0 Hs]; split; [by rewrite idx_take_upto by lia|]. intros k e Hk He.
  pose proof (idx_Some_range _ _ _ He) as Hr; rewrite len_take in Hr. rewrite idx_take_upto in He by lia.
  destruct (Hs k e Hk He) as (p & ? & ?); exists p; rewrite idx_take_upto by lia. done.
Qed.

(** Nothing a peer had acknowledged is lost by replacing a log that ends at [x]
    or before by the committed path through [x], unless the leader of [T] was
    elected without. *)
Lemma covered_keeps V H LL A s l P kc tc T o L (x k t : Z) :
  log_inv n V H LL A s -> path H l -> has l kc tc -> committed n A kc tc -> 0 < x <= kc -> tc <= T ->
  LL !! T = Some (o, L) -> path H P -> len P <= x + 1 -> 0 < k -> t <= T -> has P k t ->
  has (take (Z.to_nat (x + 1)) l) k t \/ (t < T /\ lacks LL T k t).
Proof.
  intros HI Hl Hh Hc Hx Ht HL HP Hlen Hk Hle HhP.
  pose proof (lg_tree _ _ _ _ _ _ HI) as Htree; pose proof (lg_leaders _ _ _ _ _ _ HI) as Hlead.
  assert (Hkx : k <= x) by (destruct HhP as (e & He%idx_Some_range & _); lia).
  destruct (decide (has l k t)) as [Hlk|Hn].
  { left; destruct Hlk as (e & He & Hte); exists e; split; [by rewrite idx_take_upto by lia|done]. }
  right. destruct (Hlead T o L HL) as [HpL _]. destruct (decide (tc = T)) as [->|Hne].
  - destruct (term_down H LL l kc T Htree Hlead Hl ltac:(lia) Hh) as (o1 & L1 & HL1 & Hlen1 & Hp1 & Hd1).
    rewrite HL in HL1; injection HL1 as <- <-. split.
    + destruct (decide (t = T)) as [->|]; [exfalso|lia].
      destruct (term_down H LL P k T Htree Hlead HP Hk HhP) as (o2 & L2 & HL2 & Hlen2 & _).
      rewrite HL in HL2; injection HL2 as <- <-. apply Hn, Hd1; lia.
    + exists o, L; split; [done|]. intros HLk; apply Hn. by eapply prefix_has.
  - assert (HLc : has L kc tc) by (eapply (lg_complete n V H LL A s kc tc); try done; lia). split.
    + destruct (decide (t = T)) as [->|]; [exfalso|lia].
      destruct (term_down H LL P k T Htree Hlead HP Hk HhP) as (o2 & L2 & HL2 & Hlen2 & _).
      rewrite HL in HL2; injection HL2 as <- <-. destruct HLc as (e & He%idx_Some_range & _); lia.
    + exists o, L; split; [done|]. intros (e & He & Hte); apply Hn; exists e; split; [|done].
      rewrite <- He; symmetry. destruct HLc as (a & Ha & Hta), Hh as (b & Hb & Htb).
      apply (path_match H L l kc a b); try done; [congruence|lia].
Qed.

(** A peer whose log ends at [x] or before installs the snapshot through [x]. *)
Lemma install_inv V H LL A s s' i rf rf' T o L l kc tc (x : Z) :
  node_inv n V s -> log_inv n V H LL A s -> idx (nodes s) i = Some rf ->
  upd (nodes s) i rf' = Some (nodes s') -> vcalls s' = vcalls s -> reps s' = reps s ->
  LL !! T = Some (o, L) -> o <> i -> currentTerm rf <= T -> currentTerm rf' = T ->
  path H l -> has l kc tc -> committed n A kc tc -> 0 < x <= kc -> tc <= T -> len (log rf) <= x + 1 ->
  log rf' = take (Z.to_nat (x + 1)) l -> snapIndex rf' = 0 -> commitIndex rf' = 0 ->
  (state rf' = Leader -> state rf = Leader /\ currentTerm rf' = currentTerm rf) ->
  (currentTerm rf' = currentTerm rf -> state rf' = Candidate -> state rf = Candidate) -> kept rf rf' ->
  log_inv n (cast i rf' V) H LL (ackNow s' A) s'.
Proof.
  intros HN HI Hi Hu Hvc Hrp HL Hne Hle Et Hl Hh Hc Hx Htc Hlen El Es Ec Elead Ecand Ek.
  pose proof (lg_node _ _ _ _ _ _ HI i rf Hi) as [N1 N2 N3 N4 N5 N6 N7].
  assert (HnL : state rf' <> Leader) by (by eapply (not_leader n V H LL A s i rf)).
  eapply (move_inv n V H LL A s H LL s' i rf rf'); try done; [split; try done; try (by apply HI)| |by eapply vote_kept|by left].
  - lia.
  - intros k t Hk Ht HP. rewrite El.
    destruct (covered_keeps V H LL A s l (log rf) kc tc T o L x k t) as [|[? ?]]; try done; [lia|by left|right].
    exists T; split; [lia|done].
  - intros Ht HS; split; [auto|right]. rewrite <- Ht, Et, HL; eauto.
  - by left.
  - split; try done; [lia| | | |by left; rewrite Ec].
    + rewrite El; apply path_take; [lia|done].
    + intros k e He. rewrite El in He. pose proof (idx_Some_range _ _ _ He) as Hr; rewrite len_take in Hr.
      rewrite idx_take_upto in He by lia. rewrite Et; etrans; [|exact Htc].
      eapply (path_sorted H LL l k kc); [apply HI|apply HI|done|by eexists|done|lia].
    + intros k Hk Hh'; right; split; [done|]. exists rf'; rewrite (idx_upd_eq _ _ _ _ Hu); done.
Qed.
End install.
