(* ===== verification/RaftWhole.v ===== *)
(** * Raft: the whole log of a peer that trims its own

    A peer of the program keeps the part of its log after its snapshot. The
    theorems about logs speak of whole logs, so every peer is paired with the
    path its log is the end of: [whole] is the peer with that path as its log,
    [view] relates the two. A commit index that the snapshot covers counts as
    zero in the whole peer, since what the snapshot covers is committed anyway.

    The path agrees with the snapshot on the term of the last entry covered,
    unless a snapshot was installed over a diverged log whose end the handler
    kept; the first [AppendEntries] accepted after it removes that end. *)

From S2P Require Import Prelude Gob RaftTypes RaftLog RaftElection RaftReplicate RaftSnapshot.
From S2P Require Import RaftPeer RaftLogFacts RaftCommit RaftCluster RaftElectionSafety RaftPaths RaftLogSafety.
From S2P Require Import RaftLogSteps.

Section whole.
Context {Cmd : Type} `{!GobType Cmd}.
Implicit Types (rf : Raft Cmd) (l M L P : list (Entry Cmd)).
Implicit Types (V : votes) (H : tree Cmd) (LL : leaderLogs Cmd) (A : Z -> Z -> Z -> Prop).
Context (n : nat).

Definition uncovered rf : Z := if commitIndex rf <=? snapIndex rf then 0 else commitIndex rf.

Definition whole P rf : Raft Cmd :=
  persist (set_commitIndex (uncovered rf) (set_snapIndex 0 (set_log P rf))).

(** The log of [rf] is what its snapshot leaves of [P]. *)
Record view H A P rf : Prop := {
  vw_range : 0 <= snapIndex rf < len P;
  vw_log : exists e0, log rf = e0 :: drop (Z.to_nat (snapIndex rf + 1)) P
    /\ snapOk n H A (currentTerm rf) (snapIndex rf) (Term e0)
    /\ (snapIndex rf < len P - 1 \/ Term <$> idx P (snapIndex rf) = Some (Term e0))
    /\ (state rf = Leader -> Term <$> idx P (snapIndex rf) = Some (Term e0));
}.

Lemma view_len H A P rf : view H A P rf -> logLength rf = len P.
Proof. intros [Hr (e0 & El & _)]; unfold logLength. rewrite El, len_cons, len_drop. lia. Qed.

Lemma view_get H A P rf k : view H A P rf -> snapIndex rf < k -> get rf k = idx P k.
Proof.
  intros [Hr (e0 & El & _)] Hk; unfold get. rewrite El, idx_cons_S, idx_drop by lia. f_equal; lia.
Qed.

Lemma view_from H A P rf k x : view H A P rf -> snapIndex rf < k -> entriesFrom rf k = Some x -> x = drop (Z.to_nat k) P.
Proof.
  intros [Hr (e0 & El & _)] Hk He; unfold entriesFrom in He. apply slice_from_Some in He as [_ ->]. rewrite El.
  replace (Z.to_nat (k - snapIndex rf)) with (S (Z.to_nat (k - snapIndex rf - 1))) by lia.
  simpl; rewrite drop_drop. f_equal; lia.
Qed.

(** The entry a leader reads at the snapshot's index or after. *)
Lemma view_leader H A P rf k e :
  view H A P rf -> state rf = Leader -> snapIndex rf <= k -> get rf k = Some e -> Term <$> idx P k = Some (Term e).
Proof.
  intros Hv HS Hk He; destruct (decide (k = snapIndex rf)) as [->|].
  - destruct Hv as [Hr (e0 & El & _ & _ & HL)]; unfold get in He. rewrite El, Z.sub_diag, idx_cons_0 in He.
    injection He as <-. by apply HL.
  - by rewrite (view_get H A P) in He by (done || lia); rewrite He.
Qed.

Lemma view_last H A P rf e : view H A P rf -> get rf (logLength rf - 1) = Some e -> lastTerm P = Some (Term e).
Proof.
  intros Hv; rewrite (view_len H A P rf Hv); unfold lastTerm. destruct (decide (snapIndex rf < len P - 1)) as [Hlt|Hge].
  - by rewrite (view_get H A P) by done; intros ->.
  - destruct Hv as [Hr (e0 & El & _ & [|Ht] & _)]; [lia|].
    assert (len P - 1 = snapIndex rf) as -> by lia.
    unfold get; rewrite El, Z.sub_diag, idx_cons_0. by intros [= <-].
Qed.

Lemma view_mono H H' A A' P rf :
  H ⊆ H' -> (forall q k t, A q k t -> A' q k t) -> view H A P rf -> view H' A' P rf.
Proof.
  intros HH HA [Hr (e0 & ? & ? & ? & ?)]; split; [done|]. exists e0; split_and!; try done.
  by eapply snapOk_mono.
Qed.

Lemma view_same H A P rf rf' :
  view H A P rf -> log rf' = log rf -> snapIndex rf' = snapIndex rf -> currentTerm rf <= currentTerm rf' ->
  (state rf' = Leader -> state rf = Leader) -> view H A P rf'.
Proof.
  intros [Hr (e0 & El & Hs & Hd & HL)] Elog Esn Et ES; split; rewrite Esn; [done|]. exists e0; rewrite Elog.
  split_and!; auto. by eapply snapOk_mono.
Qed.

Lemma view_calm H A P rf rf' : view H A P rf -> calm rf rf' -> view H A P rf'.
Proof. intros Hv []; eapply view_same; try done. naive_solver. Qed.

Lemma whole_calm P rf rf' : calm rf rf' -> calm (whole P rf) (whole P rf').
Proof.
  intros [El Es Ec Et EC EL]; split; simpl; try done. unfold uncovered; rewrite Es.
  destruct Ec as [->| ->]; [by left|right; by case_if].
Qed.

Lemma whole_kept P P' rf rf' : kept rf rf' -> kept (whole P rf) (whole P' rf').
Proof. done. Qed.

Lemma whole_calm_kept P rf rf' : calm_kept rf rf' -> calm_kept (whole P rf) (whole P rf').
Proof. intros [? ?]; split; [by apply whole_calm|by apply whole_kept]. Qed.

(** What the snapshot covers is committed, and the rest is as the whole peer says. *)
Lemma view_commit V H LL A (s : cluster Cmd) i P rf :
  log_inv n V H LL A s -> idx (nodes s) i = Some (whole P rf) -> view H A P rf -> state rf = Leader ->
  commitOk n A (commitIndex rf) P.
Proof.
  intros HI Hi Hv HS; destruct (decide (commitIndex rf <= snapIndex rf)) as [Hc|Hc].
  - destruct (decide (0 < commitIndex rf)); [|left; lia]. destruct Hv as [Hr (e0 & _ & Hs & _)].
    apply (safe_leader n V H LL A s i (whole P rf)); try done. eapply snapOk_safe; [exact Hs|lia].
  - pose proof (no_commit _ _ _ _ _ _ (lg_node _ _ _ _ _ _ HI i _ Hi)) as Hco. simpl in Hco; unfold uncovered in Hco.
    by case_if_in Hco; [lia|].
Qed.
End whole.

Section wholes.
Context {Cmd : Type} `{!GobType Cmd}.
Implicit Types (s : cluster Cmd) (rf : Raft Cmd) (l M L P : list (Entry Cmd)) (PP : list (list (Entry Cmd))).
Implicit Types (V : votes) (H : tree Cmd) (LL : leaderLogs Cmd) (A : Z -> Z -> Z -> Prop).
Context (n : nat).

(** The cluster with whole peers, and the invariant of the cluster of the program. *)
Definition wholes PP s : cluster Cmd :=
  mkCluster (zip_with whole PP (nodes s)) (rounds s) (vcalls s) (reps s).

Record winv V H LL A PP s : Prop := {
  wi_log : log_inv n V H LL A (wholes PP s);
  wi_len : length PP = length (nodes s);
  wi_view : forall i P rf, idx PP i = Some P -> idx (nodes s) i = Some rf -> view n H A P rf;
}.

Lemma idx_wholes PP s i rf :
  idx (nodes (wholes PP s)) i = Some rf
  <-> exists P rf0, idx PP i = Some P /\ idx (nodes s) i = Some rf0 /\ rf = whole P rf0.
Proof.
  unfold idx; case_if; [|naive_solver]. simpl; rewrite lookup_zip_with_Some. naive_solver.
Qed.

Lemma upd_wholes PP s s' i P rf' :
  length PP = length (nodes s) -> upd (nodes s) i rf' = Some (nodes s') ->
  upd (nodes (wholes PP s)) i (whole P rf') = Some (nodes (wholes (<[Z.to_nat i := P]> PP) s')).
Proof.
  intros Hl Hu; pose proof Hu as [Hr Hi]%upd_Some. rewrite upd_ok.
  - simpl; rewrite Hi. by rewrite insert_zip_with.
  - simpl; unfold len in *. rewrite length_zip_with; lia.
Qed.

Lemma idx_upd_path PP s s' i j P P' rf' rf1 :
  length PP = length (nodes s) -> upd (nodes s) i rf' = Some (nodes s') ->
  idx (<[Z.to_nat i := P]> PP) j = Some P' -> idx (nodes s') j = Some rf1 ->
  (i = j /\ P' = P /\ rf1 = rf') \/ (idx PP j = Some P' /\ idx (nodes s) j = Some rf1).
Proof.
  intros Hl Hu; pose proof Hu as [Hr _]%upd_Some; destruct (decide (i = j)) as [->|Hne].
  - rewrite (idx_upd_eq _ _ _ _ Hu). unfold idx; case_if; [|done].
    rewrite list_lookup_insert_eq by (unfold len in *; lia). left; split; [done|]. split; congruence.
  - rewrite (idx_upd_ne _ _ _ _ _ Hu Hne). unfold idx; case_if; [|done].
    rewrite list_lookup_insert_ne by lia. by right.
Qed.

Lemma winv_node V H LL A PP s i rf :
  winv V H LL A PP s -> idx (nodes s) i = Some rf ->
  exists P, idx PP i = Some P /\ idx (nodes (wholes PP s)) i = Some (whole P rf) /\ view n H A P rf
    /\ node_ok n H LL A i (whole P rf).
Proof.
  intros [HI Hl Hv] Hi; pose proof (idx_Some_range _ _ _ Hi) as Hr.
  destruct (idx_in_range PP i) as [P HP]; [unfold len in *; lia|].
  assert (Hw : idx (nodes (wholes PP s)) i = Some (whole P rf)) by (apply idx_wholes; eauto).
  exists P; split_and!; eauto. by apply (lg_node _ _ _ _ _ _ HI).
Qed.

Lemma node_inv_wholes V PP s : length PP = length (nodes s) -> node_inv n V s -> node_inv n V (wholes PP s).
Proof.
  intros Hl [N1 N2 N3 N4 N5 N6]; split.
  - simpl; unfold len in *; rewrite length_zip_with; lia.
  - intros i rf (P & rf0 & _ & Hi & ->)%idx_wholes. destruct (N2 i rf0 Hi) as (? & ? & _); split_and!; try done.
    apply durable_persist.
  - done.
  - intros q t c rf HV (P & rf0 & _ & Hi & ->)%idx_wholes. by apply (N4 q t c rf0).
  - intros i rf (P & rf0 & _ & Hi & ->)%idx_wholes. by apply (N5 i rf0).
  - intros i rf (P & rf0 & _ & Hi & ->)%idx_wholes. by apply (N6 i rf0).
Qed.

(** Peer [i] moves to [rf'], its path becomes [P']. *)
Lemma winv_step V V' H LL A PP s H' LL' A' s' i rf' P' :
  winv V H LL A PP s -> upd (nodes s) i rf' = Some (nodes s') ->
  H ⊆ H' -> (forall q k t, A q k t -> A' q k t) -> view n H' A' P' rf' ->
  log_inv n V' H' LL' A' (wholes (<[Z.to_nat i := P']> PP) s') -> winv V' H' LL' A' (<[Z.to_nat i := P']> PP) s'.
Proof.
  intros [HI Hl Hv] Hu HH HA Hview HI'; split; [done| |].
  - rewrite length_insert, Hl. apply upd_Some in Hu as [_ ->]. by rewrite length_insert.
  - intros j Pj rfj HP Hj. destruct (idx_upd_path PP s s' i j P' Pj rf' rfj) as [(_ & -> & ->)|[? ?]]; try done.
    eapply view_mono; eauto.
Qed.

(** The same with the acknowledgements of the whole peers. *)
Lemma winv_ack V V' H LL A PP s H' LL' s' i rf' P' :
  winv V H LL A PP s -> upd (nodes s) i rf' = Some (nodes s') -> H ⊆ H' -> view n H' A P' rf' ->
  let w := wholes (<[Z.to_nat i := P']> PP) s' in
  log_inv n V' H' LL' (ackNow w A) w -> winv V' H' LL' (ackNow w A) (<[Z.to_nat i := P']> PP) s'.
Proof.
  intros HI Hu HH Hv w HI'; eapply winv_step; try done; [by left|].
  eapply view_mono; [reflexivity| |exact Hv]. by left.
Qed.
End wholes.

Section appending.
Context {Cmd : Type} `{!GobType Cmd}.
Implicit Types (s : cluster Cmd) (rf : Raft Cmd) (l M L P : list (Entry Cmd)) (args : AppendEntriesArgs Cmd).
Implicit Types (V : votes) (H : tree Cmd) (LL : leaderLogs Cmd) (A : Z -> Z -> Z -> Prop).
Context (n : nat).

(** A leader that was elected after a snapshot was taken has what it covers. *)
Lemma snap_in_led V H LL A s M T (x t : Z) :
  log_inv n V H LL A s -> ledBy H LL T M -> snapOk n H A T x t -> 0 <= x < len M -> Term <$> idx M x = Some t.
Proof.
  intros HI HM [[-> ->]|(l & kc & tc & Hl & Hh & Hc & Hx & Htc & Ht)] Hr; [destruct HM as [[-> _] _]; done|].
  pose proof (lg_tree _ _ _ _ _ _ HI) as Htree; pose proof (lg_leaders _ _ _ _ _ _ HI) as Hlead.
  rewrite <- Ht; f_equal. destruct (decide (tc < T)).
  - destruct HM as (HM & o & L & HLT & Hp & _).
    symmetry; apply (has_agree H l M kc tc); try done; [|lia].
    eapply prefix_has; [exact Hp|]. eapply (lg_complete n V H LL A s); try done; lia.
  - assert (tc = T) as -> by lia. destruct (led_compare H LL l kc T M) as [Hc1 Hc2]; try done; [lia|].
    destruct (decide (kc < len M)).
    + symmetry; apply (has_agree H l M kc T); try done; [apply HM|by apply Hc2|lia].
    + symmetry; apply prefix_idx; [apply Hc1; lia|lia].
Qed.

Lemma tryUpdateCommit_fields c rf :
  let rf' := tryUpdateCommit c rf in
  log rf' = log rf /\ snapIndex rf' = snapIndex rf /\ currentTerm rf' = currentTerm rf /\ state rf' = state rf
  /\ votedFor rf' = votedFor rf /\ matchIndex rf' = matchIndex rf
  /\ (commitIndex rf' = commitIndex rf \/ commitIndex rf' <= c).
Proof.
  unfold tryUpdateCommit; repeat case_if; simpl; split_and!; auto; right; unfold goMin; case_if; lia.
Qed.

Lemma observe_term now args rf rf1 :
  rf1 = touched now (observeLeader args rf) -> currentTerm rf1 <= ae_Term args ->
  currentTerm rf1 = ae_Term args /\ state rf1 <> Candidate.
Proof.
  unfold observeLeader; intros ->; repeat case_if; simpl; intros Hle; split; try done; try lia.
  match goal with Hx : _ \/ _ |- _ => destruct Hx; zbool; [done|lia] end.
Qed.

(** The ways through the handler. *)
Lemma AppendEntries_forms now args rf rf' reply :
  AppendEntries now args rf = Some (rf', reply) ->
  (Success reply = false /\ calm_kept rf rf')
  \/ exists rf1 rf2, calm_kept rf rf1 /\ currentTerm rf1 = ae_Term args /\ state rf1 <> Candidate
      /\ rf' = tryUpdateCommit (LeaderCommit args) rf2
      /\ ((len (Entries args) <= snapIndex rf - PrevLogIndex args /\ rf2 = rf1)
          \/ (0 <= snapIndex rf - PrevLogIndex args < len (Entries args)
              /\ reconcileEntries (snapIndex rf + 1) (snapIndex rf - PrevLogIndex args) (Entries args) rf1 = Some rf2)
          \/ (snapIndex rf < PrevLogIndex args
              /\ (exists a, get rf (PrevLogIndex args) = Some a /\ Term a = PrevLogTerm args)
              /\ reconcileEntries (PrevLogIndex args + 1) 0 (Entries args) rf1 = Some rf2)).
Proof.
  unfold AppendEntries; intros HR. pose proof (observe_term now args rf _ eq_refl) as Hobs.
  pose proof (calm_observe now args rf) as Hc. case_if_in HR; [inv_opt; left; split; [done|]; by eapply calm_same|].
  destruct Hobs as [Hot HoS]; [done|].
  revert Hc HR Hot HoS; generalize (touched now (observeLeader args rf)); intros rf1 Hc HR Hot HoS.
  pose proof (cm_log _ _ (proj1 Hc)) as El; pose proof (cm_snap _ _ (proj1 Hc)) as Es. rewrite Es in HR.
  case_if_in HR; [case_if_in HR; inv_opt; right; exists rf1|].
  - exists rf1; split_and!; try done. left; split; [lia|done].
  - eexists; split_and!; try done. right; left; split; [lia|done].
  - case_if_in HR; inv_opt; [left; split; [done|]; exact Hc|].
    case_if_in HR; inv_opt; [left; split; [done|]; exact Hc|].
    right; exists rf1; eexists; split_and!; try done. right; right; split; [lia|]. split; [|done].
    exists x; split; [|done]. unfold get in *; by rewrite <- Es, <- El.
Qed.

(** Reconciling after the snapshot, in terms of the path. *)
Lemma view_reconcile H A P rf rf2 (q y : Z) es :
  view n H A P rf -> snapIndex rf < q <= len P -> 0 <= y <= len es -> reconcileEntries q y es rf = Some rf2 ->
  exists e0, log rf = e0 :: drop (Z.to_nat (snapIndex rf + 1)) P
    /\ rf2 = persist (bEffortKick (set_log (e0 :: drop (Z.to_nat (snapIndex rf + 1))
          (take (Z.to_nat q) P ++ raftMerge (drop (Z.to_nat q) P) (drop (Z.to_nat y) es))) rf)).
Proof.
  intros Hv Hq Hy; pose proof (view_len n H A P rf Hv) as Hlen. destruct Hv as [Hr (e0 & El & _)].
  unfold reconcileEntries. rewrite slice_from_ok by done; simpl.
  destruct (reconcileLoop_spec (drop (Z.to_nat y) es) rf q) as (l & r & -> & Hlr); [lia|].
  simpl; intros [= <-]. exists e0; split; [done|]. unfold batchAppend; simpl. rewrite Hlr.
  assert (Hm : take (Z.to_nat (q - snapIndex rf)) (log rf) ++ raftMerge (drop (Z.to_nat (q - snapIndex rf)) (log rf)) (drop (Z.to_nat y) es)
    = e0 :: drop (Z.to_nat (snapIndex rf + 1)) (take (Z.to_nat q) P ++ raftMerge (drop (Z.to_nat q) P) (drop (Z.to_nat y) es))); [|by rewrite Hm].
  rewrite El. set (d := Z.to_nat (snapIndex rf + 1)).
  replace (Z.to_nat (q - snapIndex rf)) with (S (Z.to_nat q - d)) by (unfold d; lia). simpl. f_equal.
  rewrite drop_app_le by (rewrite length_take; unfold d, len in *; lia).
  rewrite drop_drop. replace (d + (Z.to_nat q - d))%nat with (Z.to_nat q) by (unfold d; lia).
  f_equal. rewrite take_drop_commute. do 2 f_equal. unfold d; lia.
Qed.

(** What accepting the entries of [M] does to the path and the view. *)
Lemma view_accepts H A args M P P' rf rf1 rf2 e0 :
  view n H A P rf -> log rf = e0 :: drop (Z.to_nat (snapIndex rf + 1)) P ->
  calm_kept rf rf1 -> currentTerm rf1 = ae_Term args -> state rf1 <> Candidate ->
  (M `prefix_of` P /\ P' = P) \/ (~ M `prefix_of` P /\ P' = M) ->
  rf2 = persist (bEffortKick (set_log (e0 :: drop (Z.to_nat (snapIndex rf + 1)) P') rf1)) ->
  snapIndex rf < len M -> Term <$> idx M (snapIndex rf) = Some (Term e0) ->
  let rf' := tryUpdateCommit (LeaderCommit args) rf2 in
  accepts args M (whole P rf) (whole P' rf') /\ view n H A P' rf'.
Proof.
  intros [Hr (e0' & El' & Hs & _)] El [[_ Es Ec Et _ EL] Hk] Ht HS Hcase -> Hsn HM rf'.
  rewrite El in El'; injection El' as <-.
  destruct (tryUpdateCommit_fields (LeaderCommit args) (persist (bEffortKick
     (set_log (e0 :: drop (Z.to_nat (snapIndex rf + 1)) P') rf1)))) as (F1 & F2 & F3 & F4 & F5 & _ & F7).
  fold rf' in F1, F2, F3, F4, F5, F7; simpl in *.
  assert (HPM : M `prefix_of` P') by (destruct Hcase as [[? ->]|[_ ->]]; done).
  pose proof (prefix_length _ _ HPM) as HlenM. split.
  - split; simpl; rewrite ?F3, ?F4; try done; try lia.
    + intros HSL; destruct (EL HSL) as (? & ? & _); done.
    + unfold kept in *; simpl; by rewrite F3, F5.
    + unfold uncovered; rewrite F2, Es. case_if; [right; lia|]. case_if; zbool; lia.
  - assert (HP' : Term <$> idx P' (snapIndex rf) = Some (Term e0)) by (by rewrite (prefix_idx M P')).
    split; rewrite F2, Es; [unfold len in *; lia|]. exists e0; rewrite F1, F3; split_and!; auto.
    by eapply snapOk_mono; [done|done| |exact Hs].
Qed.
(** Merging after the snapshot gives the end of one of the two paths, even if
    the log had diverged at the snapshot. *)
Lemma merge_at_snap H P M (x t : Z) :
  path H P -> path H M -> 0 <= x < len P -> x < len M - 1 -> Term <$> idx M x = Some t ->
  (x < len P - 1 \/ Term <$> idx P x = Some t) ->
  let d := Z.to_nat (x + 1) in
  exists P', ((M `prefix_of` P /\ P' = P) \/ (~ M `prefix_of` P /\ P' = M))
    /\ drop d (take d P ++ raftMerge (drop d P) (drop d M)) = drop d P'.
Proof.
  intros HP HM Hx HxM Ht Hor d. destruct (idx_in_range P x) as [a Ha]; [lia|]. destruct (idx_in_range M x) as [b Hb]; [lia|].
  rewrite Hb in Ht; simpl in Ht; injection Ht as <-. destruct (decide (Term a = Term b)) as [Hab|Hab].
  - destruct (merge_paths H P M x a b HP HM Ha Hb Hab) as [[? E]|[? E]]; fold d in E; rewrite E; eauto 6.
  - rewrite Ha in Hor; simpl in Hor. destruct Hor as [Hlt|]; [|congruence].
    destruct (idx_in_range P (x + 1)) as [a' Ha']; [lia|]. destruct (idx_in_range M (x + 1)) as [b' Hb']; [lia|].
    exists M; split.
    + right; split; [|done]. intros Hp. rewrite (prefix_idx M P x Hp), Hb in Ha by lia. congruence.
    + unfold d; rewrite (drop_idx P _ _ Ha'), (drop_idx M _ _ Hb'), raftMerge_diff.
      * rewrite drop_app_ge by (rewrite length_take; unfold len in *; lia). rewrite length_take, Nat.min_l by (unfold len in *; lia).
        by rewrite Nat.sub_diag.
      * intros Ht. pose proof (path_match H P M (x + 1) a' b' HP HM Ha' Hb' Ht x ltac:(lia)). congruence.
Qed.

(** What the snapshot covers already is not looked at again. *)
Lemma view_covered H A P rf rf1 c :
  view n H A P rf -> calm_kept rf rf1 -> c <= snapIndex rf ->
  let rf' := tryUpdateCommit c rf1 in calm_kept (whole P rf) (whole P rf') /\ view n H A P rf'.
Proof.
  intros Hv [[El Es Ec Emt EC EL] Hk] Hle rf'; destruct (tryUpdateCommit_fields c rf1) as (F1 & F2 & F3 & F4 & F5 & F6 & F7).
  fold rf' in F1, F2, F3, F4, F5, F6, F7. split.
  - split; [|unfold kept in *; simpl; by rewrite F3, F5]. split; simpl; rewrite ?F3, ?F4, ?F6; try done.
    unfold uncovered; rewrite F2, Es. destruct F7 as [->|F7]; [destruct Ec as [->| ->]; [by left|right; by case_if]|].
    right; case_if; [done|lia].
  - eapply view_same; [exact Hv|..]; rewrite ?F1, ?F2, ?F3, ?F4; try done. intros HS; by apply EL.
Qed.

(** The handler, seen from the whole peer: nothing happens, or what is new was
    covered by the snapshot already, or the peer accepts the entries. *)
Lemma append_cases V H LL A s i P rf rf' reply args M now :
  log_inv n V H LL A s -> node_ok n H LL A i (whole P rf) -> view n H A P rf ->
  ledBy H LL (ae_Term args) M -> 0 <= PrevLogIndex args < len M ->
  Term <$> idx M (PrevLogIndex args) = Some (PrevLogTerm args) ->
  Entries args = drop (Z.to_nat (PrevLogIndex args + 1)) M -> commitOk n A (LeaderCommit args) M ->
  AppendEntries now args rf = Some (rf', reply) ->
  (Success reply = false /\ calm_kept rf rf')
  \/ (calm_kept (whole P rf) (whole P rf') /\ view n H A P rf' /\ len M - 1 <= snapIndex rf' /\ currentTerm rf' = ae_Term args)
  \/ exists P', accepts args M (whole P rf) (whole P' rf') /\ view n H A P' rf'.
Proof.
  intros HI Hok Hv HM Hp Ht He Hco HR; pose proof (no_path _ _ _ _ _ _ Hok) as HP; simpl in HP.
  destruct (AppendEntries_forms _ _ _ _ _ HR) as [|(rf1 & rf2 & Hc & Et & ES & -> & Hcases)]; [by left|right].
  pose proof (cm_snap _ _ (proj1 Hc)) as Es. pose proof (view_calm n H A P rf rf1 Hv (proj1 Hc)) as Hv1.
  assert (Hle : len (Entries args) = len M - (PrevLogIndex args + 1)) by (rewrite He, len_drop; lia).
  pose proof Hv as [Hr (e0 & El & Hs & Hor & HL)]. destruct Hcases as [[Hcov ->]|Hcases].
  { assert (HLC : LeaderCommit args <= snapIndex rf).
    { destruct Hco as [|(k & t & Hk & (e & He'%idx_Some_range & _) & _)]; lia. }
    left; destruct (view_covered H A P rf rf1 (LeaderCommit args) Hv Hc HLC) as [? ?].
    destruct (tryUpdateCommit_fields (LeaderCommit args) rf1) as (_ & F2 & F3 & _).
    split_and!; [done|done|rewrite F2; lia|congruence]. }
  right; assert (Hs' : snapOk n H A (ae_Term args) (snapIndex rf) (Term e0)).
  { eapply snapOk_mono; [done|done| |exact Hs]. rewrite <- Et. apply Hc. }
  assert (HlenM : snapIndex rf < len M - 1 \/ snapIndex rf < PrevLogIndex args).
  { destruct Hcases as [[? _]|[? _]]; lia. }
  assert (HMs : Term <$> idx M (snapIndex rf) = Some (Term e0)) by (eapply (snap_in_led V H LL A s); try done; lia).
  assert (Hfin : forall (q y : Z) P', snapIndex rf < q <= len P -> 0 <= y <= len (Entries args) ->
    ((M `prefix_of` P /\ P' = P) \/ (~ M `prefix_of` P /\ P' = M)) ->
    drop (Z.to_nat (snapIndex rf + 1)) (take (Z.to_nat q) P ++ raftMerge (drop (Z.to_nat q) P) (drop (Z.to_nat y) (Entries args)))
      = drop (Z.to_nat (snapIndex rf + 1)) P' ->
    reconcileEntries q y (Entries args) rf1 = Some rf2 ->
    exists P', accepts args M (whole P rf) (whole P' (tryUpdateCommit (LeaderCommit args) rf2))
      /\ view n H A P' (tryUpdateCommit (LeaderCommit args) rf2)).
  { intros q y P' Hq Hy HP' Hd Hrec; exists P'.
    destruct (view_reconcile H A P rf1 rf2 q y (Entries args) Hv1) as (e1 & E1 & E2); try done; [by rewrite Es|].
    rewrite (cm_log _ _ (proj1 Hc)), Es, El in E1; injection E1 as <-. rewrite Es, Hd in E2.
    eapply (view_accepts H A args M P P' rf rf1 rf2 e0); try done; lia. }
  destruct Hcases as [[Hnew Hrec]|(Hlt & (a & Ha & Hta) & Hrec)].
  - destruct (merge_at_snap H P M (snapIndex rf) (Term e0)) as (P' & HP' & Hd); try done; [apply HM|lia|].
    eapply (Hfin _ _ P'); [| |exact HP'| |exact Hrec]; [lia|lia|]. rewrite He, drop_drop.
    replace (Z.to_nat (PrevLogIndex args + 1) + Z.to_nat (snapIndex rf - PrevLogIndex args))%nat
      with (Z.to_nat (snapIndex rf + 1)) by lia. done.
  - rewrite (view_get n H A P) in Ha by done.
    destruct (idx_in_range M (PrevLogIndex args) Hp) as [b Hb]. rewrite Hb in Ht; injection Ht as Htb.
    pose proof (idx_Some_range _ _ _ Ha).
    destruct (merge_paths H P M (PrevLogIndex args) a b) as [[? E]|[? E]]; try done; [apply HM|congruence| |].
    + eapply (Hfin (PrevLogIndex args + 1) 0 P); [lia|lia|by left| |exact Hrec]. by rewrite He, drop_0, E.
    + eapply (Hfin (PrevLogIndex args + 1) 0 M); [lia|lia|by right| |exact Hrec]. by rewrite He, drop_0, E.
Qed.
End appending.
