(* ===== verification/RaftWholeSteps.v ===== *)
(** * Raft: the steps of a peer that trims its log

    What every kind of step of a peer of the program does to its path and its
    view, so that the invariant of [RaftLogSafety], stated of the whole peers of
    [RaftWhole], survives it: calm steps, votes, elections, [Start],
    [AppendEntries], [Snapshot], [InstallSnapshot] and the replies to the two
    RPCs of a replicator. *)

From S2P Require Import Prelude Gob RaftTypes RaftLog RaftElection RaftReplicate RaftSnapshot.
From S2P Require Import RaftPeer RaftLogFacts RaftCommit RaftCluster RaftElectionSafety RaftPaths RaftLogSafety.
From S2P Require Import RaftLogSteps RaftWhole.

Section steps.
Context {Cmd : Type} `{!GobType Cmd}.
Implicit Types (s : cluster Cmd) (rf : Raft Cmd) (l M L P : list (Entry Cmd)) (PP : list (list (Entry Cmd))).
Implicit Types (V : votes) (H : tree Cmd) (LL : leaderLogs Cmd) (A : Z -> Z -> Z -> Prop).
Context (n : nat).

(** ** Steps of one peer of the program

    The goroutines stay where they are; the path of the peer is replaced. *)

Definition moves V H LL A s' i rf' : Prop :=
  exists A' PP', (forall q k t, A q k t -> A' q k t) /\ winv n (cast i rf' V) H LL A' PP' s'.

Lemma moves_to V H LL A PP s s' i rf' P' :
  winv n V H LL A PP s -> upd (nodes s) i rf' = Some (nodes s') -> view n H A P' rf' ->
  (let w := wholes (<[Z.to_nat i := P']> PP) s' in
   upd (nodes (wholes PP s)) i (whole P' rf') = Some (nodes w) -> log_inv n (cast i (whole P' rf') V) H LL (ackNow w A) w) ->
  moves V H LL A s' i rf'.
Proof.
  intros HI Hu Hv Hw; eexists _, (<[Z.to_nat i := P']> PP).
  split; [|eapply winv_ack; [exact HI|exact Hu|done|exact Hv|]]; [by left|].
  apply Hw, upd_wholes; [apply HI|done].
Qed.

Lemma calm_step V H LL A PP s s' i P rf rf' :
  node_inv n V s -> winv n V H LL A PP s -> idx (nodes s) i = Some rf -> idx PP i = Some P ->
  calm_kept (whole P rf) (whole P rf') -> view n H A P rf' ->
  upd (nodes s) i rf' = Some (nodes s') -> vcalls s' = vcalls s -> reps s' = reps s -> moves V H LL A s' i rf'.
Proof.
  intros HN HI Hi HP Hc Hv Hu Hvc Hrp. eapply moves_to; try done; intros w Hw.
  eapply (calm_inv n V H LL A (wholes PP s)); try done; [|apply HI|apply idx_wholes; eauto].
  apply node_inv_wholes; [apply HI|done].
Qed.

Lemma quiet_step V H LL A PP s s' i P rf rf' :
  node_inv n V s -> winv n V H LL A PP s -> idx (nodes s) i = Some rf -> idx PP i = Some P ->
  quiet n H A (whole P rf) (whole P rf') -> kept rf rf' -> view n H A P rf' ->
  upd (nodes s) i rf' = Some (nodes s') -> vcalls s' = vcalls s -> reps s' = reps s -> moves V H LL A s' i rf'.
Proof.
  intros HN HI Hi HP Hq Hk Hv Hu Hvc Hrp. assert (Hi' : idx (nodes (wholes PP s)) i = Some (whole P rf)) by (apply idx_wholes; eauto).
  eapply moves_to; try done; intros w Hw.
  eapply (quiet_inv n V H LL A (wholes PP s)); try done; [apply node_inv_wholes; [apply HI|done]|apply HI|].
  eapply vote_kept; [apply HI|exact Hi'|done].
Qed.

(** A step that changes neither the log nor the snapshot. *)
Lemma calm_moves V H LL A PP s s' i rf rf' :
  node_inv n V s -> winv n V H LL A PP s -> idx (nodes s) i = Some rf -> calm_kept rf rf' ->
  upd (nodes s) i rf' = Some (nodes s') -> vcalls s' = vcalls s -> reps s' = reps s -> moves V H LL A s' i rf'.
Proof.
  intros HN HI Hi Hc Hu Hvc Hrp; destruct (winv_node n V H LL A PP s i rf HI Hi) as (P & HP & _ & Hv & _).
  eapply (calm_step V H LL A PP s s' i P rf); try done; [by apply whole_calm_kept|]. eapply view_calm; [exact Hv|apply Hc].
Qed.

Lemma candidate_step V H LL A PP s s' i rf :
  node_inv n V s -> winv n V H LL A PP s -> idx (nodes s) i = Some rf -> me rf = i ->
  upd (nodes s) i (becomeCandidate rf) = Some (nodes s') -> vcalls s' = vcalls s -> reps s' = reps s ->
  moves V H LL A s' i (becomeCandidate rf).
Proof.
  intros HN HI Hi Hme Hu Hvc Hrp; destruct (winv_node n V H LL A PP s i rf HI Hi) as (P & HP & Hi' & Hv & _).
  eapply (moves_to V H LL A PP s s' i _ P); try done; [eapply view_calm; [exact Hv|apply calm_becomeCandidate]|].
  intros w Hw. apply (candidate_inv n V H LL A (wholes PP s) w i (whole P rf)); try done; [|apply HI].
  apply node_inv_wholes; [apply HI|done].
Qed.

(** A vote request is answered. *)
Lemma vote_step V H LL A PP s s' i rf rf' args reply now v :
  node_inv n V s -> winv n V H LL A PP s -> idx (nodes s) i = Some rf -> RequestVote now args rf = Some (rf', reply) ->
  ask_ok LL (wholes PP s) v -> vc_stage v = VSent args -> vc_owner v <> i ->
  upd (nodes s) i rf' = Some (nodes s') -> vcalls s' = vcalls s -> reps s' = reps s -> moves V H LL A s' i rf'.
Proof.
  intros HN HI Hi HR Hask Hst Hne Hu Hvc Hrp.
  destruct (calm_RequestVote now args rf rf' reply HR) as [Hc [Hk|(Et & Ev & e & He & Hup)]]; [by eapply calm_moves|].
  destruct (winv_node n V H LL A PP s i rf HI Hi) as (P & HP & Hi' & Hv & _).
  eapply (moves_to V H LL A PP s s' i _ P); try done; [by eapply view_calm|]. intros w Hw.
  eapply (vote_inv n V H LL A (wholes PP s) w i (whole P rf) _ args (vc_owner v)); try done;
    [apply node_inv_wholes; [apply HI|done]|apply HI|by apply whole_calm| |apply Hask; by left].
  exists (Term e); split; [by eapply view_last|]. by rewrite (view_len n H A P rf Hv) in Hup.
Qed.

(** An [AppendEntries] request is handled; a success acknowledges its entries. *)
Lemma append_step V H LL A PP s s' i rf rf' args reply now o :
  node_inv n V s -> winv n V H LL A PP s -> idx (nodes s) i = Some rf ->
  AppendEntries now args rf = Some (rf', reply) -> msg_ok n H LL A (wholes PP s) args o -> o <> i ->
  upd (nodes s) i rf' = Some (nodes s') -> vcalls s' = vcalls s -> reps s' = reps s ->
  exists A' PP', (forall q k t, A q k t -> A' q k t) /\ winv n (cast i rf' V) H LL A' PP' s'
    /\ (Success reply = true -> forall k, 0 < k <= PrevLogIndex args + len (Entries args) ->
          is_Some (H !! (k, ae_Term args)) -> A' i k (ae_Term args) \/ safe n H A' k (ae_Term args)).
Proof.
  intros HN HI Hi HR (M & HM & Ho & Hp & Ht & He & Hc & _) Hne Hu Hvc Hrp.
  destruct (winv_node n V H LL A PP s i rf HI Hi) as (P & HP & Hi' & Hv & Hok).
  destruct (append_cases n V H LL A (wholes PP s) i P rf rf' reply args M now)
    as [[Hf Hcalm]|[(Hcalm & Hv' & Hcov & Et)|(P' & Hac & Hv')]]; try done; [apply HI| | |].
  - destruct (calm_moves V H LL A PP s s' i rf rf') as (A' & PP' & ? & ?); try done.
    exists A', PP'; split_and!; try done. by rewrite Hf.
  - destruct (calm_step V H LL A PP s s' i P rf rf') as (A' & PP' & HA & HW); try done.
    exists A', PP'; split_and!; try done. intros _ k Hk _; right.
    apply (safe_mono n H H A A'); try done. rewrite <- Et. destruct Hv' as [_ (e0 & _ & Hs & _)].
    eapply snapOk_safe; [exact Hs|]. rewrite He, len_drop in Hk; lia.
  - set (w := wholes (<[Z.to_nat i := P']> PP) s').
    assert (Hw : upd (nodes (wholes PP s)) i (whole P' rf') = Some (nodes w)) by (apply upd_wholes; [apply HI|done]).
    destruct (accept_inv n V H LL A (wholes PP s) w i (whole P rf) (whole P' rf') args o M) as [HI' Hpre]; try done;
      [apply node_inv_wholes; [apply HI|done]|apply HI|].
    exists (ackNow w A), (<[Z.to_nat i := P']> PP); split; [by left|]. split; [by eapply winv_ack|].
    intros _ k Hk Hh; left. eapply (accept_acks n V H LL A (wholes PP s) w i (whole P' rf') _ M); try done;
      [apply HI|apply Hac|]. rewrite He, len_drop in Hk; lia.
Qed.

(** ** Snapshots *)

Lemma InstallSnapshot_forms now args rf rf' reply msg :
  InstallSnapshot now args rf = Some (rf', reply, msg) ->
  calm_kept rf rf'
  \/ exists rf1 x, calm_kept rf rf1 /\ currentTerm rf1 = is_Term args /\ snapIndex rf < LastIncludedIndex args
      /\ (if LastIncludedIndex args <? logLength rf1 - 1 then entriesFrom rf1 (LastIncludedIndex args + 1) else Some []) = Some x
      /\ log rf' = mkEntry (LastIncludedTerm args) None :: x /\ snapIndex rf' = LastIncludedIndex args
      /\ currentTerm rf' = currentTerm rf1 /\ state rf' = state rf1 /\ votedFor rf' = votedFor rf1
      /\ matchIndex rf' = matchIndex rf1
      /\ (commitIndex rf' = commitIndex rf1 \/ commitIndex rf' = LastIncludedIndex args).
Proof.
  unfold InstallSnapshot; intros HR; case_if_in HR; [inv_opt; left; apply calm_refl|].
  pose proof (calm_newGen_if (is_Term args) rf) as Hg.
  assert (Het : currentTerm (if is_Term args >? currentTerm rf then newGen (is_Term args) rf else rf) = is_Term args)
    by (case_if; simpl; lia).
  revert Het Hg HR; generalize (if is_Term args >? currentTerm rf then newGen (is_Term args) rf else rf). intros rf1 Het Hg HR.
  pose proof (cm_snap _ _ (proj1 Hg)) as Es.
  case_if_in HR; [inv_opt; left; by eapply (calm_same rf rf1)|right]. simpl in *; rewrite Es in *.
  inv_opt.
  exists (touched now rf1), x; split; [by eapply (calm_same rf rf1)|].
  case_if_in HR; inv_opt; simpl; split_and!; try done; auto.
Qed.

(** A snapshot is installed: the end of the log after it stays, or the path is
    the committed one the snapshot covers. *)
Lemma install_step V H LL A PP s s' i rf rf' args reply msg now o :
  node_inv n V s -> winv n V H LL A PP s -> idx (nodes s) i = Some rf ->
  InstallSnapshot now args rf = Some (rf', reply, msg) -> o <> i ->
  (exists L, LL !! is_Term args = Some (o, L)) ->
  snapOk n H A (is_Term args) (LastIncludedIndex args) (LastIncludedTerm args) ->
  upd (nodes s) i rf' = Some (nodes s') -> vcalls s' = vcalls s -> reps s' = reps s -> moves V H LL A s' i rf'.
Proof.
  intros HN HI Hi HR Hne (L & HL) Hsn Hu Hvc Hrp.
  destruct (InstallSnapshot_forms _ _ _ _ _ _ HR) as [Hc|(rf1 & x & Hc & Et & Hlt & Hx & El & Es & Et' & ES & Ev & Em & Ec)];
    [by eapply calm_moves|].
  destruct (winv_node n V H LL A PP s i rf HI Hi) as (P & HP & Hi' & Hv & Hok).
  assert (Hlead : state rf' = Leader -> state rf = Leader /\ currentTerm rf' = currentTerm rf).
  { rewrite ES, Et'; intros HS. destruct (cm_lead _ _ (proj1 Hc) HS) as (? & ? & _); done. }
  assert (HnL : state rf' <> Leader).
  { apply (not_leader n V H LL A (wholes PP s) i (whole P rf) rf' (is_Term args) o L); try done; [apply HI|congruence]. }
  pose proof (view_calm n H A P rf rf1 Hv (proj1 Hc)) as Hv1. rewrite (view_len n H A P rf1 Hv1) in Hx.
  pose proof (cm_snap _ _ (proj1 Hc)) as Es1. pose proof (cm_term _ _ (proj1 Hc)) as Hmono.
  pose proof (vw_range _ _ _ _ _ Hv) as Hr.
  case_if_in Hx.
  - apply (view_from n H A P) in Hx; [|done|lia]. apply (calm_step V H LL A PP s s' i P rf rf'); try done.
    + split; [|unfold kept; simpl; rewrite Et', Ev; apply Hc]. destruct Hc as [[_ _ Ec1 _ EC _] _].
      split; simpl; try done; [|lia|by rewrite ES, Et']. unfold uncovered; rewrite Es.
      destruct Ec as [->| ->]; [|right; case_if; lia]. case_if; [by right|]. destruct Ec1 as [Ec1|Ec1]; rewrite Ec1 in *; [|by right].
      left; case_if; lia.
    + split; rewrite Es; [lia|]. eexists; split; [by rewrite El, Hx|]. simpl. rewrite Et', Et. split_and!; done || lia || (left; lia).
  - injection Hx as <-. destruct Hsn as [[? _]|(l & kc & tc & Hl & Hh & Hcm & Hxk & Htc & Ht)]; [lia|].
    set (P' := take (Z.to_nat (LastIncludedIndex args + 1)) l).
    assert (HlP : len P' = LastIncludedIndex args + 1).
    { destruct Hh as (e & He%idx_Some_range & _). unfold P'; rewrite len_take; lia. }
    apply (moves_to V H LL A PP s s' i rf' P'); try done.
    + split; rewrite Es; [lia|]. eexists; rewrite El; split; [|simpl; rewrite Et', Et; split_and!].
      * by rewrite drop_ge by (unfold len in *; lia).
      * right; exists l, kc, tc; split_and!; done || lia.
      * right. unfold P'; rewrite idx_take_upto by lia. done.
      * done.
    + intros w Hw. apply (install_inv n V H LL A (wholes PP s) w i (whole P rf) (whole P' rf') (is_Term args) o L l kc tc (LastIncludedIndex args));
        try done; simpl; try lia; try congruence; [apply node_inv_wholes; [apply HI|done]|apply HI| | |].
      * unfold uncovered; rewrite Es. destruct Ec as [->| ->]; [|by case_if; lia]. case_if; [done|].
        pose proof (no_commit _ _ _ _ _ _ Hok) as Hco; simpl in Hco; unfold uncovered in Hco.
        destruct (cm_commit _ _ (proj1 Hc)) as [Ec1|Ec1]; [|lia]. rewrite Ec1 in *.
        case_if_in Hco; [lia|]. destruct Hco as [|(k & t & Hk & (e & He%idx_Some_range & _) & _)]; lia.
      * rewrite ES, Et'. apply Hc.
      * unfold kept; simpl; rewrite Et', Ev. apply Hc.
Qed.

(** The service trims the log at an index it knows to be committed. *)
Lemma Snapshot_step V H LL A PP s s' i rf rf' index snap :
  node_inv n V s -> winv n V H LL A PP s -> idx (nodes s) i = Some rf ->
  index <= Z.max (snapIndex rf) (commitIndex rf) -> Snapshot index snap rf = Some rf' ->
  upd (nodes s) i rf' = Some (nodes s') -> vcalls s' = vcalls s -> reps s' = reps s -> moves V H LL A s' i rf'.
Proof.
  intros HN HI Hi Hix HS Hu Hvc Hrp. unfold Snapshot in HS; case_if_in HS; inv_opt.
  { eapply calm_moves; try done; apply calm_refl. }
  match goal with Hg : get rf index = Some ?x, Ht : slice_from _ _ = Some ?y |- _ =>
    rename x into e, Hg into He, y into tl; apply slice_from_Some in Ht as [_ ->] end.
  destruct (winv_node n V H LL A PP s i rf HI Hi) as (P & HP & Hi' & Hv & Hok).
  pose proof Hv as [Hr (e0 & El & _)]. rewrite (view_get n H A P rf) in He by done.
  pose proof (idx_Some_range _ _ _ He) as Hre. eapply (calm_step V H LL A PP s s' i P rf); try done.
  - split; [|by right]. split; simpl; try done. unfold uncovered; simpl. case_if; [by right|left]. case_if; [lia|done].
  - split; simpl; [lia|]. exists (mkEntry (Term e) None); simpl; rewrite He. split_and!; auto.
    + f_equal. rewrite El. replace (Z.to_nat (index - snapIndex rf + 1)) with (S (Z.to_nat (index - snapIndex rf))) by lia.
      simpl. rewrite drop_drop. f_equal; lia.
    + pose proof (no_commit _ _ _ _ _ _ Hok) as Hco; simpl in Hco; unfold uncovered in Hco. case_if_in Hco; [lia|].
      destruct Hco as [|(k & t & Hk & Hh & Hc)]; [lia|right].
      exists P, k, t; split_and!; try done; try lia; [apply Hok| |by rewrite He].
      destruct Hh as (x & Hx & <-). by apply (no_terms _ _ _ _ _ _ Hok k).
Qed.

(** ** The leader *)

Lemma elect_view V V' H LL A s s' i P rf ni :
  log_inv n V H LL A s -> log_inv n V' H (<[currentTerm rf := (i, P)]> LL) (ackNow s' A) s' ->
  LL !! currentTerm rf = None -> view n H A P rf -> view n H A P (set_nextIndex ni (becomeLeader rf).1).
Proof.
  intros HI HI' HN [Hr (e0 & El & Hs & Hor & _)]; split; [done|]. exists e0; split_and!; try done. intros _; simpl.
  destruct Hs as [[Hs0 Ht]|(l & kc & tc & Hl & Hh & Hc & Hx & Htc & Ht)].
  - rewrite Hs0, Ht. pose proof (lg_leaders _ _ _ _ _ _ HI' (currentTerm rf) i P ltac:(apply lookup_insert_eq)) as [[-> _] _]. done.
  - rewrite <- Ht; f_equal. destruct (decide (tc = currentTerm rf)) as [->|].
    { destruct (path_has_tree H l kc (currentTerm rf) Hl ltac:(lia) Hh) as (c & p & Hcp).
      destruct (lg_tree _ _ _ _ _ _ HI _ _ _ _ Hcp) as (? & ? & HL & _). congruence. }
    assert (HLP : <[currentTerm rf := (i, P)]> LL !! currentTerm rf = Some (i, P)) by apply lookup_insert_eq.
    symmetry; apply (has_agree H l P kc tc); try done; [by apply (lg_leaders _ _ _ _ _ _ HI' _ _ _ HLP)| |lia].
    eapply (lg_complete n _ H _ (ackNow s' A) s' kc tc); try done; [|lia|lia]. eapply committed_mono; [|done]. by left.
Qed.

Lemma elect_step V H LL A PP s s' i rf :
  let rf' := (becomeLeader rf).1 in
  node_inv n V s -> winv n V H LL A PP s -> idx (nodes s) i = Some rf -> state rf = Candidate ->
  upd (nodes s) i rf' = Some (nodes s') -> vcalls s' = vcalls s -> reps s' = reps s ->
  elected n (cast i rf' V) (currentTerm rf) i ->
  exists LL' A' PP', (forall q k t, A q k t -> A' q k t) /\ winv n (cast i rf' V) H LL' A' PP' s'.
Proof.
  intros rf' HN HI Hi HS Hu Hvc Hrp Hel.
  destruct (winv_node n V H LL A PP s i rf HI Hi) as (P & HP & Hi' & Hv & Hok).
  set (w := wholes (<[Z.to_nat i := P]> PP) s').
  assert (Hw : upd (nodes (wholes PP s)) i (whole P rf') = Some (nodes w)) by (apply upd_wholes; [apply HI|done]).
  assert (HNw : node_inv n V (wholes PP s)) by (apply node_inv_wholes; [apply HI|done]).
  assert (HI' : log_inv n (cast i rf' V) H (<[currentTerm rf := (i, P)]> LL) (ackNow w A) w).
  { apply (elect_inv n V H LL A (wholes PP s) w i (whole P rf) (nextIndex rf')); try done. apply HI. }
  assert (HLN : LL !! currentTerm rf = None).
  { apply (leads_first n V H LL A (wholes PP s) i (whole P rf) (cast i rf' V)); try done; [apply HI|].
    intros q c [|(-> & _ & -> & Hne)]; [done|]. by apply (lg_cast _ _ _ _ _ _ (wi_log _ _ _ _ _ _ _ HI) i (whole P rf)). }
  exists (<[currentTerm rf := (i, P)]> LL), (ackNow w A), (<[Z.to_nat i := P]> PP). split; [by left|].
  eapply winv_ack; try done. by apply (elect_view V (cast i rf' V) H LL A (wholes PP s) w i P rf (nextIndex rf')); [apply HI|..].
Qed.

(** A leader adds a command. *)
Lemma start_step V H LL A PP s s' i rf c :
  let rf' := append (mkEntry (currentTerm rf) (Some c)) rf in
  node_inv n V s -> winv n V H LL A PP s -> idx (nodes s) i = Some rf -> state rf = Leader ->
  upd (nodes s) i rf' = Some (nodes s') -> vcalls s' = vcalls s -> reps s' = reps s ->
  exists H' A' PP', H ⊆ H' /\ (forall kt c' p, H' !! kt = Some (c', p) -> H !! kt = Some (c', p) \/ c' = Some c)
    /\ (forall q k t, A q k t -> A' q k t) /\ winv n (cast i rf' V) H' LL A' PP' s'.
Proof.
  intros rf' HN HI Hi HS Hu Hvc Hrp. destruct (winv_node n V H LL A PP s i rf HI Hi) as (P & HP & Hi' & Hv & Hok).
  set (P' := P ++ [mkEntry (currentTerm rf) (Some c)]). set (w := wholes (<[Z.to_nat i := P']> PP) s').
  assert (Hw : upd (nodes (wholes PP s)) i (whole P' rf') = Some (nodes w)) by (apply upd_wholes; [apply HI|done]).
  destruct (command_inv n V H LL A (wholes PP s) w i (whole P rf) c) as (H' & HH & Hnew & HI'); try done;
    [apply node_inv_wholes; [apply HI|done]|apply HI|].
  exists H', (ackNow w A), (<[Z.to_nat i := P']> PP). split; [done|]. split; [done|]. split; [by left|]. eapply winv_ack; try done.
  destruct Hv as [Hr (e0 & El & Hs & Hor & HL)]. assert (HlP : len P' = len P + 1) by (unfold P'; rewrite len_app; done).
  split; simpl; [lia|]. exists e0; split_and!.
  - rewrite El; unfold P'. rewrite drop_app_le by (unfold len in *; lia). done.
  - by eapply snapOk_mono.
  - left; lia.
  - intros HSL. unfold P'; rewrite idx_app_l by lia. by apply HL.
Qed.

Lemma replicaCount_ext N ids rf rf' :
  me rf' = me rf -> matchIndex rf' = matchIndex rf -> replicaCount N ids rf' = replicaCount N ids rf.
Proof. intros Hm Hmi; induction ids as [|j ids IH]; simpl; [done|]. by rewrite IH, Hm, Hmi. Qed.

(** The reply to an [AppendEntries]. *)
Lemma append_reply V H LL A PP s i j P rf rf' args reply retry :
  winv n V H LL A PP s -> idx (nodes s) i = Some rf -> idx PP i = Some P -> me rf = i -> peers rf = n ->
  msg_ok n H LL A (wholes PP s) args i ->
  (Success reply = true -> forall k, 0 < k <= PrevLogIndex args + len (Entries args) ->
     is_Some (H !! (k, ae_Term args)) -> A j k (ae_Term args) \/ safe n H A k (ae_Term args)) ->
  singleAppendReply j args (Some reply) rf = Some (rf', retry) ->
  quiet n H A (whole P rf) (whole P rf') /\ kept rf rf' /\ view n H A P rf'.
Proof.
  intros HI Hi HP Hme Hpe%inj_eq Hmsg Hack; simpl; intros HR.
  destruct (winv_node n V H LL A PP s i rf HI Hi) as (P0 & HP0 & Hi' & Hv & Hok). rewrite HP in HP0; injection HP0 as <-.
  assert (Hcalm : calm_kept rf rf' -> quiet n H A (whole P rf) (whole P rf') /\ kept rf rf' /\ view n H A P rf').
  { intros [Hc ?]; split_and!; [eapply calm_quiet; [exact Hok|by apply whole_calm]|done|by eapply view_calm]. }
  case_if_in HR; [inv_opt; by apply Hcalm, calm_newGen|].
  case_if_in HR; [inv_opt; apply Hcalm, calm_refl|].
  case_if_in HR; inv_opt; [eapply Hcalm, calm_stepBack; done|].
  match goal with Hx : currentTerm rf = ae_Term args, Hy : state rf = Leader |- _ => rename Hx into Et, Hy into HS end.
  match goal with Hx : upd (matchIndex rf) _ _ = Some ?l, Hy : upd (nextIndex rf) _ _ = Some ?l', Hz : updateCommitIndex _ = _ |- _ =>
    rename Hx into Hum, l into mi, l' into ni, Hz into Huc end.
  destruct Hmsg as (M & HM & (L & HL) & Hp & Ht & He & Hc & Hlen).
  assert (Hm1 : matchOk n H A (set_matchIndex mi (whole P rf))).
  { eapply (matchOk_upd n H A (whole P rf) _ j); try done; [by apply (no_leader _ _ _ _ _ _ Hok)| |].
    - rewrite He, len_drop. specialize (Hlen (whole P rf) Hi' HS Et). lia.
    - simpl; rewrite Et. by apply Hack. }
  assert (Hv1 : view n H A P rf') by (destruct (commitLoop_Some _ _ _ _ Huc) as [->|(N & c & e & -> & _)]; eapply view_same; try done; simpl; lia).
  split; [|split; [destruct (commitLoop_Some _ _ _ _ Huc) as [->|(N & c & e & -> & _)]; by right|done]].
  destruct (commitLoop_Some _ _ _ _ Huc) as [->|(N & c & e & -> & HN & Hrc & Hmaj & Hg & Hte)]; split; try done; try (simpl; lia); [apply Hok|].
  simpl in HN, Hmaj. pose proof (vw_range _ _ _ _ _ Hv).
  simpl; unfold uncovered; simpl; case_if; [lia|]. apply Nat2Z.inj in Hpe; simpl in Hrc; rewrite Hpe in *.
  apply (leader_commits n V H LL A (wholes PP s) (me rf) (whole P rf) N c mi); try done; [apply HI|lia| |].
  - exists e; split; [|done]. simpl. rewrite <- (view_get n H A P rf N Hv HN). exact Hg.
  - rewrite <- Hrc. by apply replicaCount_ext.
Qed.

(** The reply to an [InstallSnapshot]. *)
Lemma install_reply V H LL A PP s i j P rf rf' args reply :
  winv n V H LL A PP s -> idx (nodes s) i = Some rf -> idx PP i = Some P ->
  (exists L, LL !! is_Term args = Some (i, L)) ->
  snapOk n H A (is_Term args) (LastIncludedIndex args) (LastIncludedTerm args) ->
  helpInstallReply j args (Some reply) rf = Some rf' ->
  quiet n H A (whole P rf) (whole P rf') /\ kept rf rf' /\ view n H A P rf'.
Proof.
  intros HI Hi HP (L & HL) Hsn; simpl; intros HR.
  destruct (winv_node n V H LL A PP s i rf HI Hi) as (P0 & HP0 & Hi' & Hv & Hok). rewrite HP in HP0; injection HP0 as <-.
  case_if_in HR; inv_opt.
  { destruct (calm_newGen (isr_Term reply) rf) as [Hc ?]; [done|].
    split_and!; [eapply calm_quiet; [exact Hok|by apply whole_calm]|done|by eapply view_calm]. }
  split_and!; [|by right|eapply view_same; try done; simpl; lia].
  split; try done; try (simpl; lia); [apply Hok|]. intros HS. simpl in HS.
  assert (Hle : is_Term args <= currentTerm rf).
  { destruct (lg_led _ _ _ _ _ _ (wi_log _ _ _ _ _ _ _ HI) _ _ _ HL) as (rf1 & Hi1 & Hor).
    rewrite Hi' in Hi1; injection Hi1 as <-. simpl in Hor; lia. }
  eapply (matchOk_upd n H A (whole P rf)); try done; [by apply (no_leader _ _ _ _ _ _ Hok)| |].
  - simpl. pose proof (vw_range _ _ _ _ _ Hv). destruct (decide (0 < LastIncludedIndex args)); [|lia].
    destruct (safe_leader n V H LL A (wholes PP s) i (whole P rf) (LastIncludedIndex args)) as [|(k & t & Hk & (e & He%idx_Some_range & _) & _)];
      try done; [apply HI| |lia|simpl in *; lia].
    eapply snapOk_safe; [|split; [done|reflexivity]]. by eapply snapOk_mono.
  - intros k Hk _; right. eapply snapOk_safe; [|exact Hk]. by eapply snapOk_mono.
Qed.

(** ** What a peer sends *)

Lemma opinion_ask V H LL A PP s i rf args v :
  winv n V H LL A PP s -> idx (nodes s) i = Some rf -> opinionArgs rf = Some args -> me rf = i ->
  vc_owner v = i -> vc_stage v = VSent args -> ask_ok LL (wholes PP s) v.
Proof.
  intros HI Hi Ha Hme Ho Hst args' Hargs; rewrite Hst in Hargs.
  assert (args' = args) as -> by (destruct Hargs as [[=]|(? & ?)]; congruence).
  destruct (winv_node n V H LL A PP s i rf HI Hi) as (P & HP & Hi' & Hv & _).
  unfold opinionArgs in Ha; inv_opt; simpl. rewrite Ho; exists (whole P rf); split_and!; try done; try (simpl; lia).
  intros _ _ _; rewrite (view_len n H A P rf Hv); simpl. split; [done|by eapply view_last].
Qed.

Lemma append_send V H LL A PP s i j rf args :
  winv n V H LL A PP s -> idx (nodes s) i = Some rf -> singleAppendSend j rf = Some (SendAppend args) ->
  msg_ok n H LL A (wholes PP s) args i.
Proof.
  intros HI Hi Hd; destruct (winv_node n V H LL A PP s i rf HI Hi) as (P & HP & Hi' & Hv & Hok).
  unfold singleAppendSend in Hd; case_if_in Hd; [done|]; inv_opt; case_if_in Hd; [done|]; inv_opt.
  match goal with HS : state rf = Leader |- _ => rename HS into HSl end.
  match goal with Hg : get rf _ = Some ?e |- _ => rename Hg into Hget, e into p end.
  match goal with Hx : entriesFrom rf _ = Some _ |- _ => apply (view_from n H A P) in Hx as ->; [|done|lia] end.
  apply (view_leader n H A P rf) in Hget; [|done|done|lia].
  destruct (no_leader _ _ _ _ _ _ Hok HSl) as [(L & HL & HpL & HT) _ _].
  exists P; simpl; rewrite Hget; split_and!; try done.
  - split; [apply Hok|]. by exists i, L.
  - by exists L.
  - apply fmap_Some in Hget as (e & He%idx_Some_range & _); lia.
  - apply fmap_Some in Hget as (e & He%idx_Some_range & _); lia.
  - eapply (view_commit n V H LL A (wholes PP s)); try done. apply HI.
  - intros rf1 Hi1; change (idx (nodes (wholes PP s)) i = Some rf1) in Hi1; rewrite Hi' in Hi1; injection Hi1 as <-. done.
Qed.

Lemma install_send V H LL A PP s i rf args :
  winv n V H LL A PP s -> idx (nodes s) i = Some rf -> state rf = Leader -> helpInstallArgs rf = Some args ->
  (exists L, LL !! is_Term args = Some (i, L))
  /\ snapOk n H A (is_Term args) (LastIncludedIndex args) (LastIncludedTerm args).
Proof.
  intros HI Hi HS Ha; destruct (winv_node n V H LL A PP s i rf HI Hi) as (P & HP & Hi' & Hv & Hok).
  destruct (no_leader _ _ _ _ _ _ Hok HS) as [(L & HL & _) _ _].
  destruct Hv as [Hr (e0 & El & Hs & _)]. unfold helpInstallArgs, getSnap in Ha.
  rewrite El, idx_cons_0 in Ha; simpl in Ha; injection Ha as <-; simpl. split; [by exists L|done].
Qed.
End steps.
