(* ===== verification/RaftStateSafety.v ===== *)
(** * Raft: log matching, leader completeness, state-machine safety

    Every event of the cluster preserves the invariant of [RaftLogSafety], stated
    of the whole peers of [RaftWhole]; from it follow the safety theorems about
    logs, commit indices and the messages delivered to the services. The service
    is assumed to take a snapshot only of what it knows to be committed. *)

From S2P Require Import Prelude Gob RaftTypes RaftLog RaftElection RaftReplicate RaftSnapshot.
From S2P Require Import RaftPeer RaftLogFacts RaftCluster RaftElectionSafety RaftPaths RaftLogSafety RaftLogSteps.
From S2P Require Import RaftWhole RaftWholeSteps.

Section events.
Context {Cmd : Type} `{!GobType Cmd}.
Implicit Types (s : cluster Cmd) (rf : Raft Cmd) (l M L P : list (Entry Cmd)) (PP : list (list (Entry Cmd))).
Implicit Types (V : votes) (H : tree Cmd) (LL : leaderLogs Cmd) (A : Z -> Z -> Z -> Prop).
Context (n : nat).

(** ** The goroutines *)

Lemma ask_ok_nodes LL s s' v : nodes s' = nodes s -> ask_ok LL s v -> ask_ok LL s' v.
Proof. unfold ask_ok; intros ->; done. Qed.

Lemma ask_ok_same LL s v v' : vc_owner v' = vc_owner v -> vc_stage v' = vc_stage v -> ask_ok LL s v -> ask_ok LL s v'.
Proof. unfold ask_ok; intros -> ->; done. Qed.

Lemma rep_ok_nodes H LL A s s' p : nodes s' = nodes s -> rep_ok n H LL A s p -> rep_ok n H LL A s' p.
Proof. unfold rep_ok, msg_ok; intros ->; done. Qed.

Lemma winv_ext V H LL A PP s s' :
  winv n V H LL A PP s -> nodes s' = nodes s ->
  (forall c v, vcalls s' !! c = Some v -> ask_ok LL (wholes PP s) v) ->
  (forall r p, reps s' !! r = Some p -> rep_ok n H LL A (wholes PP s) p) -> winv n V H LL A PP s'.
Proof.
  intros [[] Hl Hv] Hn Hc Hr; assert (Hw : nodes (wholes PP s') = nodes (wholes PP s)) by (simpl; by rewrite Hn).
  split; rewrite ?Hn; try done. split; rewrite ?Hw; try done; eauto using ask_ok_nodes, rep_ok_nodes.
Qed.

Lemma log_vstage V H LL A PP s c st :
  winv n V H LL A PP s ->
  (forall v, vcalls s !! c = Some v -> ask_ok LL (wholes PP s) (mkVcall (vc_owner v) (vc_round v) (vc_server v) st (vc_live v))) ->
  winv n V H LL A PP (set_vstage c st s).
Proof.
  intros HI Hst; eapply winv_ext; [done|done| |apply HI].
  intros c' v' (v & Hv & Eo & _ & _ & [[-> Es]|[_ ->]])%lookup_set_vstage; [|by eapply (lg_calls _ _ _ _ _ _ (wi_log _ _ _ _ _ _ _ HI))].
  by eapply ask_ok_same; [| |by apply Hst].
Qed.

Lemma log_vdone V H LL A PP s c : winv n V H LL A PP s -> winv n V H LL A PP (set_vstage c VDone s).
Proof. intros HI; apply log_vstage; [done|]. intros v _ args [?|(? & ?)]; done. Qed.

Lemma lookup_set_rstage r st s r' p' :
  reps (set_rstage r st s) !! r' = Some p' ->
  (r' <> r /\ reps s !! r' = Some p')
  \/ (r' = r /\ exists p, reps s !! r = Some p /\ p' = mkRep (rp_owner p) (rp_server p) st (rp_live p)).
Proof.
  simpl; rewrite list_lookup_alter; case_decide; subst; [|by left]. intros Hx; inv_opt. right; eauto.
Qed.

Lemma winv_rep V H LL A PP s r p : winv n V H LL A PP s -> reps s !! r = Some p -> rep_ok n H LL A (wholes PP s) p.
Proof. intros HI; apply (lg_reps _ _ _ _ _ _ (wi_log _ _ _ _ _ _ _ HI)). Qed.

Lemma log_rstage V H LL A PP s r st :
  winv n V H LL A PP s ->
  (forall p, reps s !! r = Some p -> rep_ok n H LL A (wholes PP s) (mkRep (rp_owner p) (rp_server p) st (rp_live p))) ->
  winv n V H LL A PP (set_rstage r st s).
Proof.
  intros HI Hst; eapply winv_ext; [done|done|apply HI|].
  intros r' p' [[_ Hp]|[-> (p & Hp & ->)]]%lookup_set_rstage; [by eapply winv_rep|auto].
Qed.

Lemma log_ridle V H LL A PP s r : winv n V H LL A PP s -> winv n V H LL A PP (set_rstage r RIdle s).
Proof. intros HI; apply log_rstage; [done|]. intros p Hp; split; [|done]. by destruct (winv_rep _ _ _ _ _ _ _ _ HI Hp). Qed.

Lemma log_supporter V H LL A PP s r m : winv n V H LL A PP s -> winv n V H LL A PP (set_supporter r m s).
Proof. intros HI; eapply winv_ext; [done|done|apply HI|apply HI]. Qed.

Lemma log_spawn V H LL A PP s i js :
  winv n V H LL A PP s -> (forall j, j ∈ js -> i <> j) -> winv n V H LL A PP (spawn_reps i js s).
Proof.
  intros HI Hjs; eapply winv_ext; [done|done|apply HI|]. simpl; intros r p [Hr|(_ & Hr)]%lookup_app_Some.
  - by eapply winv_rep.
  - apply list_lookup_fmap_Some in Hr as (j & -> & Hj%list_elem_of_lookup_2). split; [by apply Hjs|done].
Qed.

Lemma log_collect V H LL A PP s rf : winv n V H LL A PP s -> winv n V H LL A PP (collectOpinion rf s).
Proof.
  intros HI; eapply winv_ext; [done|done| |apply HI].
  intros c v [Hv|(k & j & _ & _ & ->)]%lookup_collect; [by eapply (lg_calls _ _ _ _ _ _ (wi_log _ _ _ _ _ _ _ HI))|].
  intros args [?|(? & ?)]; done.
Qed.

Lemma log_orphan V H LL A PP s i : winv n V H LL A PP s -> winv n V H LL A PP (orphan i s).
Proof.
  intros HI; eapply winv_ext; [done|done| |]; simpl.
  - intros c v (v0 & -> & Hv)%list_lookup_fmap_Some.
    eapply ask_ok_same; [..|by eapply (lg_calls _ _ _ _ _ _ (wi_log _ _ _ _ _ _ _ HI))]; done.
  - intros r p (p0 & -> & Hp)%list_lookup_fmap_Some. by apply (winv_rep _ _ _ _ _ _ r p0 HI).
Qed.

(** ** Steps of the cluster *)

(** The tree and the acknowledgements only grow, the tree by entries with the
    commands [F]. *)
Definition grows (F : option Cmd -> Prop) V H A s : Prop :=
  exists H' LL' A' PP', H ⊆ H' /\ (forall kt c p, H' !! kt = Some (c, p) -> H !! kt = Some (c, p) \/ F c)
    /\ (forall q k t, A q k t -> A' q k t) /\ winv n V H' LL' A' PP' s.

Definition log_next (F : option Cmd -> Prop) V H A s s' : Prop :=
  (nodes s' = nodes s /\ grows F V H A s')
  \/ exists i rf', upd (nodes s) i rf' = Some (nodes s') /\ grows F (cast i rf' V) H A s'.

Lemma grows_same F V H LL A PP s : winv n V H LL A PP s -> grows F V H A s.
Proof. intros HI; exists H, LL, A, PP; split_and!; auto. Qed.

Lemma set_node_reps i rf s s' : set_node i rf s = Some s' ->
  upd (nodes s) i rf = Some (nodes s') /\ vcalls s' = vcalls s /\ reps s' = reps s.
Proof. unfold set_node; intros HS; inv_opt; done. Qed.

Lemma inv_equiv V V' s : (forall q t c, V q t c <-> V' q t c) -> inv n V s -> inv n V' s.
Proof.
  intros HV [[] HC]; split; [|by eapply (call_inv_mono n V V' s); [intros; by apply HV|..]].
  split; try done.
  - intros q t c c' H1%HV H2%HV; eauto.
  - intros q t c rf H1%HV; eauto.
  - intros i rf Hi HS. eapply elected_mono; [|by eauto]. intros; by apply HV.
Qed.

Lemma cast_same V H LL A PP s i rf :
  winv n V H LL A PP s -> idx (nodes s) i = Some rf -> forall q t c, V q t c <-> cast i rf V q t c.
Proof.
  intros HI Hi q t c; split; [by left|]. intros [|(-> & -> & -> & Hv)]; [done|].
  destruct (winv_node n V H LL A PP s i rf HI Hi) as (P & _ & Hi' & _).
  by apply (lg_cast _ _ _ _ _ _ (wi_log _ _ _ _ _ _ _ HI) i (whole P rf)).
Qed.

(** The two invariants speak of the same step. *)
Lemma next_cast V H LL A PP s s' i rf' :
  winv n V H LL A PP s -> next n V s s' -> upd (nodes s) i rf' = Some (nodes s') -> inv n (cast i rf' V) s'.
Proof.
  intros HI Hn Hu; pose proof (idx_upd_eq _ _ _ _ Hu) as Hi'.
  destruct Hn as [[En HI']|(j & rfj & Hj & HI')].
  - rewrite En in Hi'. eapply inv_equiv; [by eapply cast_same|done].
  - destruct (decide (i = j)) as [->|Hne].
    + rewrite (idx_upd_eq _ _ _ _ Hj) in Hi'; by injection Hi' as ->.
    + pose proof (idx_upd_eq _ _ _ _ Hj) as Hj'.
      rewrite (idx_upd_ne _ _ _ _ _ Hj) in Hi' by congruence. rewrite (idx_upd_ne _ _ _ _ _ Hu) in Hj' by congruence.
      eapply inv_equiv; [|exact HI']. intros q t c.
      rewrite <- (cast_same V H LL A PP s j rfj HI Hj'). by apply (cast_same V H LL A PP s i rf').
Qed.

Lemma log_next_inv F V H LL A PP s s' :
  winv n V H LL A PP s -> next n V s s' -> log_next F V H A s s' ->
  exists V', inv n V' s' /\ grows F V' H A s'.
Proof.
  intros HI Hn [(En & HI')|(i & rf' & Hu & HI')].
  - destruct Hn as [[_ Hinv]|(j & rfj & Hj & Hinv)]; [by exists V|].
    exists V; split; [|done]. pose proof (idx_upd_eq _ _ _ _ Hj) as Hj'. rewrite En in Hj'.
    eapply inv_equiv; [|exact Hinv]. intros q t c; symmetry; by apply (cast_same V H LL A PP s).
  - exists (cast i rf' V); split; [|done]. by eapply next_cast.
Qed.

(** A step of one peer, after which its goroutine moves on. *)
Lemma log_moves F V H LL A s s1 s' i rf' :
  upd (nodes s) i rf' = Some (nodes s1) -> moves n V H LL A s1 i rf' -> nodes s' = nodes s1 ->
  (forall A' PP', winv n (cast i rf' V) H LL A' PP' s1 -> winv n (cast i rf' V) H LL A' PP' s') -> log_next F V H A s s'.
Proof.
  intros Hu (A' & PP' & HA & HI) Hn Hs; right; exists i, rf'; rewrite Hn; split; [done|].
  exists H, LL, A', PP'; split_and!; auto.
Qed.

Lemma log_calm F V H LL A PP s s1 s' i rf rf' :
  node_inv n V s -> winv n V H LL A PP s -> idx (nodes s) i = Some rf -> calm_kept rf rf' -> set_node i rf' s = Some s1 ->
  nodes s' = nodes s1 ->
  (forall A' PP', winv n (cast i rf' V) H LL A' PP' s1 -> winv n (cast i rf' V) H LL A' PP' s') -> log_next F V H A s s'.
Proof.
  intros HN HI Hi Hc (Hu & Hvc & Hrp)%set_node_reps Hn Hs. eapply log_moves; [exact Hu| |done|done]. by eapply calm_moves.
Qed.

(** ** Events *)

Lemma log_tick F V H LL A PP s s' i now :
  inv n V s -> winv n V H LL A PP s -> execTick i now s = Some s' -> log_next F V H A s s'.
Proof.
  unfold execTick, tick; intros [HN _] HI HR; inv_opt; rename x into rf, H0 into Hi; case_if_in HR; [done|].
  case_if_in HR; inv_opt; match goal with Hx : set_node _ _ _ = Some ?x |- _ => rename x into s1, Hx into Hs end.
  - apply set_node_reps in Hs as (Hu & Hvc & Hrp). eapply log_moves; [exact Hu| |done|intros; by apply log_collect].
    eapply candidate_step; try done. by apply (ni_node _ _ _ HN).
  - eapply (log_calm _ V H LL A PP s s1 s1 i rf rf); try done. apply calm_refl.
Qed.

Lemma log_build F V H LL A PP s s' c :
  inv n V s -> winv n V H LL A PP s -> execBuild c s = Some s' -> log_next F V H A s s'.
Proof.
  unfold execBuild; intros [HN _] HI HR; inv_opt; rename x into v, H0 into Hv.
  destruct (vc_stage v) eqn:Est; try done. destruct (vc_live v); [|done]; inv_opt; rename x into rf, H0 into Hi, x0 into args, H1 into Ha.
  left; split; [done|]. apply (grows_same _ _ _ LL _ PP), log_vstage; [done|]. rewrite Hv; intros v' [= <-].
  eapply opinion_ask; try done. by apply (ni_node _ _ _ HN).
Qed.

Lemma log_vote F V H LL A PP s s' c now :
  inv n V s -> winv n V H LL A PP s -> execVote c now s = Some s' -> log_next F V H A s s'.
Proof.
  unfold execVote; intros [HN HC] HI HR; inv_opt; rename x into v, H0 into Hv.
  destruct (vc_stage v) as [|args| |] eqn:Est; try done; inv_opt. rename x into rf, H0 into Hi.
  destruct x0 as [rf' reply]; inv_opt; rename H1 into HRv, x into s1, H0 into Hs.
  destruct (ci_range _ _ _ HC c v Hv) as (_ & _ & Hne & _). apply set_node_reps in Hs as (Hu & Hvc & Hrp).
  assert (Hask : forall LL PP A V s, winv n V H LL A PP s -> vcalls s !! c = Some v -> ask_ok LL (wholes PP s) v).
  { intros LL0 PP0 A0 V0 s0 HI0; apply (lg_calls _ _ _ _ _ _ (wi_log _ _ _ _ _ _ _ HI0)). }
  eapply log_moves; [exact Hu|eapply (vote_step n V H LL A PP s s1 _ rf rf' args reply now v); eauto; congruence|done|].
  intros A' PP' HI1. apply log_vstage; [done|]. rewrite Hvc, Hv; intros v' [= <-] args' Hst; simpl in *.
  apply (Hask LL PP' A' _ s1 HI1); [congruence|]. left. destruct Hst as [[=]|(? & [= ->])]; congruence.
Qed.

Lemma opinionReply_calm args reply m rf rf' m' sp :
  opinionReply args reply m rf = (rf', m', sp) ->
  (calm_kept rf rf' /\ sp = []) \/ (state rf = Candidate /\ rf' = (becomeLeader rf).1 /\ sp = (becomeLeader rf).2).
Proof.
  unfold opinionReply; destruct (rvr_Term reply >? currentTerm rf) eqn:E; zbool.
  - simpl; rewrite andb_false_r; simpl; intros HR; inv_opt. left; split; [by apply calm_newGen|done].
  - intros HR; case_if_in HR; [|inv_opt; left; split; [apply calm_refl|done]].
    case_if_in HR; simpl in HR; inv_opt; [by right|left; split; [apply calm_refl|done]].
Qed.

Lemma log_vote_reply F V H LL A PP s s' c :
  inv n V s -> winv n V H LL A PP s -> next n V s s' -> execVoteReply c s = Some s' -> log_next F V H A s s'.
Proof.
  unfold execVoteReply; intros [HN HC] HI Hnext HR; inv_opt; rename x into v, H0 into Hv.
  destruct (vc_stage v) as [| |args reply|] eqn:Est; try done.
  destruct (vc_live v); [|done]; inv_opt; rename x into rf, H0 into Hi, x0 into rd.
  destruct (opinionReply args reply (rd_supporter rd) rf) as [[rf' m] sp] eqn:EO; inv_opt. rename x into s1, H0 into Hs.
  destruct (opinionReply_calm _ _ _ _ _ _ _ EO) as [[Hc ->]|(HS & -> & ->)].
  - eapply (log_calm _ V H LL A PP s s1); try done. intros A1 PP1 HI1.
    apply log_spawn; [by apply log_supporter, log_vdone|set_solver].
  - apply set_node_reps in Hs as (Hu & Hvc & Hrp). right; eexists (vc_owner v), _; split; [exact Hu|].
    destruct (ni_node _ _ _ HN _ _ Hi) as (Hme & _).
    assert (Hel : inv n (cast (vc_owner v) (becomeLeader rf).1 V) (spawn_reps (vc_owner v) (becomeLeader rf).2
        (set_supporter (vc_round v) m (set_vstage c VDone s1)))) by (by eapply next_cast).
    destruct Hel as [[_ _ _ _ Hel] _]. specialize (Hel _ _ (idx_upd_eq _ _ _ _ Hu) eq_refl).
    destruct (elect_step n V H LL A PP s s1 (vc_owner v) rf) as (LL1 & A1 & PP1 & HA & HI1); try done.
    exists H, LL1, A1, PP1; split; [done|]. split; [by left|]. split; [done|].
    apply log_spawn; [by apply log_supporter, log_vdone|].
    intros j; simpl; rewrite Hme. intros [? _]%list_elem_of_filter; congruence.
Qed.

Lemma log_rep_send F V H LL A PP s s' r :
  inv n V s -> winv n V H LL A PP s -> execRepSend r s = Some s' -> log_next F V H A s s'.
Proof.
  unfold execRepSend; intros [HN _] HI HR; inv_opt; rename x into p, H0 into Hp; destruct (rp_stage p); try done.
  destruct (rp_live p); [|done]; inv_opt; rename x into rf, H0 into Hi; case_if_in HR; [done|]; inv_opt.
  rename x into d, H0 into Hd. destruct (winv_rep _ _ _ _ _ _ _ _ HI Hp) as [Hne _].
  left; destruct d as [| |args]; inv_opt; (split; [done|]); apply (grows_same _ _ _ LL _ PP); [done| |];
    (apply log_rstage; [done|]); rewrite Hp; intros p' [= <-]; (split; [done|]); simpl.
  - assert (HS : state rf = Leader) by (unfold singleAppendSend in Hd; by case_if_in Hd).
    by apply (install_send n V H LL A PP s _ rf).
  - by eapply append_send.
Qed.

Lemma log_rep_handle F V H LL A PP s s' r now :
  inv n V s -> winv n V H LL A PP s -> execRepHandle r now s = Some s' -> log_next F V H A s s'.
Proof.
  unfold execRepHandle; intros [HN _] HI HR; inv_opt; rename x into p, H0 into Hp.
  destruct (winv_rep _ _ _ _ _ _ _ _ HI Hp) as [Hne Hst].
  destruct (rp_stage p) as [|args| |args|] eqn:Est; try done; inv_opt; rename x into rf, H0 into Hi.
  - destruct x0 as [rf' reply]; inv_opt; rename x into s1, H0 into Hs, H1 into HA.
    apply set_node_reps in Hs as (Hu & Hvc & Hrp).
    destruct (append_step n V H LL A PP s s1 (rp_server p) rf rf' args reply now (rp_owner p)) as (A' & PP' & HA' & HI' & Hack); try done.
    right; exists (rp_server p), rf'; split; [done|]. exists H, LL, A', PP'; split_and!; try done; [by left|].
    apply log_rstage; [done|]. rewrite Hrp, Hp; intros p' [= <-]; split; [done|]; simpl. split; [|done].
    destruct (winv_rep _ _ _ _ _ _ r p HI') as [_ Hm]; [congruence|]. by rewrite Est in Hm.
  - destruct x0 as [[rf' reply] msg]; inv_opt; rename x into s1, H0 into Hs, H1 into HA.
    apply set_node_reps in Hs as (Hu & Hvc & Hrp). destruct Hst as [HL Hsn].
    eapply log_moves; [exact Hu|by eapply (install_step n V H LL A PP s s1 _ rf rf' args)|done|].
    intros A' PP' HI'. apply log_rstage; [done|]. rewrite Hrp, Hp; intros p' [= <-]; split; [done|]; simpl.
    destruct (winv_rep _ _ _ _ _ _ r p HI') as [_ Hm]; [congruence|]. by rewrite Est in Hm.
Qed.

Lemma log_rep_reply F V H LL A PP s s' r :
  inv n V s -> winv n V H LL A PP s -> execRepReply r s = Some s' -> log_next F V H A s s'.
Proof.
  unfold execRepReply; intros [HN _] HI HR; inv_opt; rename x into p, H0 into Hp.
  destruct (rp_live p); [|done]; inv_opt; rename x into rf, H0 into Hi, x0 into rf', H1 into Hrf, x1 into s1, H2 into Hs.
  destruct (winv_rep _ _ _ _ _ _ _ _ HI Hp) as [Hne Hst]. destruct (ni_node _ _ _ HN _ _ Hi) as (Hme & Hpe & _).
  apply set_node_reps in Hs as (Hu & Hvc & Hrp). destruct (winv_node n V H LL A PP s _ rf HI Hi) as (P & HP & _).
  assert (Hq : quiet n H A (whole P rf) (whole P rf') /\ kept rf rf' /\ view n H A P rf').
  { destruct (rp_stage p) as [| |args reply| |args reply] eqn:Est; try done.
    - apply fmap_Some in Hrf as ([rf1 retry] & Hrf & ->). destruct Hst as [Hm Hack]. by eapply append_reply.
    - destruct Hst as [HL Hsn]. by eapply install_reply. }
  destruct Hq as (Hq & Hk & Hv). eapply log_moves; [exact Hu|by eapply quiet_step|done|]. intros; by apply log_ridle.
Qed.

Lemma log_rep_lost F V H LL A PP s s' r :
  inv n V s -> winv n V H LL A PP s -> execRepLost r s = Some s' -> log_next F V H A s s'.
Proof.
  unfold execRepLost; intros [HN _] HI HR; inv_opt; rename x into p, H0 into Hp.
  destruct (rp_live p); [|done]; inv_opt; rename x into rf, H0 into Hi, x0 into rf', H1 into Hrf, x1 into s1, H2 into Hs.
  assert (rf' = rf) as -> by (destruct (rp_stage p); simpl in *; by inv_opt).
  eapply (log_calm _ V H LL A PP s s1); try done; [apply calm_refl|]. intros; by apply log_ridle.
Qed.

Lemma log_start F V H LL A PP s s' i c :
  inv n V s -> winv n V H LL A PP s -> exec s (EStart i c) = Some s' -> F (Some c) -> log_next F V H A s s'.
Proof.
  simpl; intros [HN _] HI HR HF; inv_opt; rename x into rf, H0 into Hi. unfold Start in HR; case_if_in HR.
  - eapply (log_calm _ V H LL A PP s s'); try done. apply calm_refl.
  - apply set_node_reps in HR as (Hu & Hvc & Hrp). right; eexists i, _; split; [exact Hu|].
    destruct (start_step n V H LL A PP s s' i rf c) as (H' & A' & PP' & ? & Hnew & ? & ?); try done.
    exists H', LL, A', PP'; split_and!; try done. intros kt c' p Hk; destruct (Hnew kt c' p Hk) as [| ->]; auto.
Qed.

(** The executions considered: the service takes a snapshot of what its peer
    knows to be committed, or of what the previous snapshot covers. *)
Definition served s (ev : event Cmd) : bool :=
  match ev with
  | ESnapshot i index _ =>
      match idx (nodes s) i with
      | Some rf => index <=? Z.max (snapIndex rf) (commitIndex rf)
      | None => false
      end
  | _ => true
  end.

Fixpoint run_served s (evs : list (event Cmd)) : option (cluster Cmd) :=
  match evs with
  | [] => Some s
  | ev :: evs => if timely s ev && served s ev then s ← exec s ev; run_served s evs else None
  end.

(** The commands an event hands to a peer. *)
Definition started (ev : event Cmd) (c : option Cmd) : Prop :=
  match ev with EStart _ command => c = Some command | _ => False end.

Lemma exec_log V H LL A PP s s' ev :
  inv n V s -> winv n V H LL A PP s -> next n V s s' -> served s ev = true -> exec s ev = Some s' ->
  log_next (started ev) V H A s s'.
Proof.
  intros Hinv HI Hn Hsv HR; pose proof Hinv as [HN _]; destruct ev; try done;
    eauto using log_tick, log_build, log_vote, log_vote_reply, log_rep_send, log_rep_handle, log_rep_reply, log_rep_lost, log_start.
  - simpl in HR; inv_opt. left; destruct (vc_stage x); inv_opt; (split; [done|]); by apply (grows_same _ _ _ LL _ PP), log_vdone.
  - by eapply log_start.
  - simpl in HR, Hsv; inv_opt; rename x into rf, H0 into Hi. rewrite Hi in Hsv. apply set_node_reps in HR as (Hu & Hvc & Hrp).
    eapply log_moves; [exact Hu| |done|done]. eapply (Snapshot_step n V H LL A PP s s' i rf _ index snap); try done. by apply Z.leb_le.
  - simpl in HR; inv_opt; destruct x0; inv_opt. eapply (log_calm _ V H LL A PP s s'); eauto using calm_guardKick.
  - simpl in HR; inv_opt; rename x into rf, H0 into Hi. destruct (ni_node _ _ _ HN _ _ Hi) as (_ & _ & Hd).
    eapply (log_calm _ V H LL A PP s x1); eauto using calm_restart, log_orphan.
Qed.

Lemma run_log V H LL A PP s evs s' :
  inv n V s -> winv n V H LL A PP s -> run_served s evs = Some s' ->
  exists V', inv n V' s' /\ grows (fun _ => True) V' H A s'.
Proof.
  revert V H LL A PP s; induction evs as [|ev evs IH]; simpl; intros V H LL A PP s Hinv HI HR; inv_opt.
  { exists V; split; [done|by eapply grows_same]. }
  destruct (timely s ev) eqn:Et; [|done]. destruct (served s ev) eqn:Es; [|done]. simpl in HR; inv_opt.
  match goal with Hx : exec s ev = Some _ |- _ => pose proof (exec_inv n V s _ ev Hinv Et Hx) as Hn;
    pose proof (exec_log V H LL A PP s _ ev Hinv HI Hn Es Hx) as Hl end.
  destruct (log_next_inv _ V H LL A PP s _ HI Hn Hl) as (V1 & Hinv1 & H1 & LL1 & A1 & PP1 & HH1 & _ & HA1 & HI1).
  destruct (IH V1 H1 LL1 A1 PP1 _ Hinv1 HI1 HR) as (V2 & Hinv2 & H2 & LL2 & A2 & PP2 & HH2 & _ & HA2 & HI2).
  exists V2; split; [done|]. exists H2, LL2, A2, PP2; split_and!; [by etransitivity|by right|by eauto|done].
Qed.

Lemma init_nodes s i rf : init n = Some s -> idx (nodes s) i = Some rf -> boot n i 0 = Some rf.
Proof.
  unfold init; intros HR; inv_opt; simpl. unfold idx; case_if; [|done]; intros Hi.
  apply mapM_Some in H; destruct (Forall2_lookup_r _ _ _ _ _ H Hi) as (j & Hj & Hb).
  apply lookup_seqZ in Hj as (-> & ?); rewrite <- Hb; f_equal; lia.
Qed.

Lemma boot_ok i rf : boot n i 0 = Some rf ->
  currentTerm rf = 0 /\ state rf = Follower /\ votedFor rf = -1 /\ log rf = [sentinel] /\ snapIndex rf = 0 /\ commitIndex rf = 0.
Proof. unfold boot, Make; simpl; intros HR; by inv_opt. Qed.

Lemma init_log s : init n = Some s ->
  winv n (fun _ _ _ => False) ∅ ∅ (fun _ _ _ => False) (replicate (length (nodes s)) [sentinel]) s.
Proof.
  intros HR. assert (Hc : vcalls s = [] /\ reps s = []) by (unfold init in HR; by inv_opt). destruct Hc as [Hc Hr].
  set (PP := replicate (length (nodes s)) [sentinel]).
  assert (HP : forall i P, idx PP i = Some P -> P = [sentinel]).
  { intros i P; unfold idx; case_if; [|done]. intros [-> _]%lookup_replicate; done. }
  split; [|by unfold PP; rewrite length_replicate|].
  2:{ intros i P rf ->%HP Hi; destruct (boot_ok i rf (init_nodes s i rf HR Hi)) as (Et & ES & Ev & El & Es & Ec).
      split; rewrite Es; [done|]. exists sentinel; rewrite El; split_and!; try done; [by left|by right]. }
  assert (Hi : forall i rf, idx (nodes (wholes PP s)) i = Some rf ->
    currentTerm rf = 0 /\ state rf = Follower /\ votedFor rf = -1 /\ log rf = [sentinel] /\ snapIndex rf = 0 /\ commitIndex rf = 0).
  { intros i rf (P & rf0 & ->%HP & Hi & ->)%idx_wholes; destruct (boot_ok i rf0 (init_nodes s i rf0 HR Hi)) as (Et & ES & Ev & El & Es & Ec).
    simpl; unfold uncovered. rewrite Es, Ec. by split_and!. }
  split; simpl; rewrite ?Hc, ?Hr; try (intros ? ? ? Hx; try intros Hy; by rewrite lookup_empty in *); try done.
  - intros i rf (Et & ES & Ev & El & Es & Ec)%Hi.
    split; rewrite ?Et, ?ES, ?El, ?Es, ?Ec; try done.
    + split; [done|]. intros k e Hk He%idx_Some_range. change (len [sentinel]) with 1 in He; lia.
    + intros k e He. pose proof (idx_Some_range _ _ _ He) as Hk. change (len [sentinel]) with 1 in Hk.
      assert (k = 0) as -> by lia. injection He as <-. done.
    + intros k Hk (e & He%idx_Some_range & _). change (len [sentinel]) with 1 in He; lia.
    + by left.
  - intros i rf (_ & _ & Ev & _)%Hi. congruence.
Qed.

(** Two states of an execution. *)
Lemma reachable_log s0 evs1 s1 evs2 s2 :
  init n = Some s0 -> run_served s0 evs1 = Some s1 -> run_served s1 evs2 = Some s2 ->
  exists V1 H1 LL1 A1 PP1 V2 H2 LL2 A2 PP2, winv n V1 H1 LL1 A1 PP1 s1 /\ winv n V2 H2 LL2 A2 PP2 s2
    /\ H1 ⊆ H2 /\ (forall q k t, A1 q k t -> A2 q k t).
Proof.
  intros Hi HR1 HR2.
  destruct (run_log _ _ _ _ _ s0 evs1 s1 (init_inv n s0 Hi) (init_log s0 Hi) HR1) as (V1 & Hinv1 & H1 & LL1 & A1 & PP1 & _ & _ & _ & HI1).
  destruct (run_log _ _ _ _ _ s1 evs2 s2 Hinv1 HI1 HR2) as (V2 & _ & H2 & LL2 & A2 & PP2 & ? & _ & ? & HI2).
  by exists V1, H1, LL1, A1, PP1, V2, H2, LL2, A2, PP2.
Qed.
End events.

Section agreement.
Context {Cmd : Type} `{!GobType Cmd}.
Implicit Types (s : cluster Cmd) (rf : Raft Cmd) (l M L P : list (Entry Cmd)) (PP : list (list (Entry Cmd))).
Implicit Types (V : votes) (H : tree Cmd) (LL : leaderLogs Cmd) (A : Z -> Z -> Z -> Prop).
Context (n : nat).

(** A committed entry is in every path that reaches an entry of its term or of
    a later one. *)
Lemma commit_reaches H LL A l1 l2 k1 t1 k2 t2 :
  treeOk H LL -> leadersOk H LL -> electedOk n H LL A -> path H l1 -> path H l2 ->
  has l1 k1 t1 -> committed n A k1 t1 -> has l2 k2 t2 -> 0 < k1 -> 0 < k2 -> t1 <= t2 -> (t1 = t2 -> k1 <= k2) ->
  has l2 k1 t1.
Proof.
  intros Ht HL He Hl1 Hl2 Hh1 Hc Hh2 Hk1 Hk2 Hle Heq.
  destruct (term_down H LL l2 k2 t2 Ht HL Hl2 Hk2 Hh2) as (o & L & HLT & Hlen & Hp & Hdown).
  destruct (decide (t1 = t2)) as [->|].
  - destruct (term_down H LL l1 k1 t2 Ht HL Hl1 Hk1 Hh1) as (o' & L' & HLT' & Hlen' & _).
    rewrite HLT in HLT'; injection HLT' as <- <-. apply Hdown. specialize (Heq eq_refl); lia.
  - eapply prefix_has; [exact Hp|]. eapply (leader_complete n H LL A k1 t1); try done. lia.
Qed.

Lemma commit_agree H LL A l1 l2 c1 c2 k :
  treeOk H LL -> leadersOk H LL -> electedOk n H LL A -> path H l1 -> path H l2 ->
  commitOk n A c1 l1 -> commitOk n A c2 l2 -> 0 < k <= c1 -> k <= c2 -> idx l1 k = idx l2 k.
Proof.
  intros Ht HL He Hl1 Hl2 [|(k1 & t1 & Hk1 & Hh1 & Hc1)] [|(k2 & t2 & Hk2 & Hh2 & Hc2)] Hkc1 Hkc2; try lia.
  assert (Hor : (t1 <= t2 /\ (t1 = t2 -> k1 <= k2)) \/ (t2 <= t1 /\ (t2 = t1 -> k2 <= k1))) by lia.
  destruct Hor as [[Hle Heq]|[Hle Heq]].
  - apply (has_agree H l1 l2 k1 t1); try done; [|lia].
    apply (commit_reaches H LL A l1 l2 k1 t1 k2 t2); done || lia.
  - symmetry; apply (has_agree H l2 l1 k2 t2); try done; [|lia].
    apply (commit_reaches H LL A l2 l1 k2 t2 k1 t1); done || lia.
Qed.

(** What a peer knows to be committed after its snapshot. *)
Lemma view_commitOk H LL A i P rf k :
  node_ok n H LL A i (whole P rf) -> snapIndex rf < k <= commitIndex rf -> commitOk n A (commitIndex rf) P.
Proof.
  intros Hok Hk; pose proof (no_commit _ _ _ _ _ _ Hok) as Hco; simpl in Hco; unfold uncovered in Hco.
  by case_if_in Hco; [lia|].
Qed.

(** Everything a peer knows to be committed, its snapshot included, was
    committed in its term or before. *)
Lemma commit_safe H LL A i P rf k :
  node_ok n H LL A i (whole P rf) -> view n H A P rf -> 0 < k <= commitIndex rf -> safe n H A k (currentTerm rf).
Proof.
  intros Hok Hv Hk; destruct (decide (k <= snapIndex rf)).
  - destruct Hv as [_ (e0 & _ & Hs & _)]. eapply snapOk_safe; [exact Hs|lia].
  - destruct (view_commitOk H LL A i P rf k Hok) as [|(k1 & t1 & Hk1 & Hh1 & Hc1)]; [lia|lia|].
    exists P, k1, t1; split_and!; try done; try lia; [apply Hok|].
    destruct Hh1 as (e & He & <-). by apply (no_terms _ _ _ _ _ _ Hok k1).
Qed.

(** The messages of an iteration of [guardKick] are committed entries. *)
Lemma collectApplies_msgs ids rf msgs m :
  collectApplies ids rf = Some msgs -> m ∈ msgs ->
  CommandIndex m ∈ ids /\ snapIndex rf < CommandIndex m
  /\ exists e, get rf (CommandIndex m) = Some e /\ m = commandMsg (Command e) (CommandIndex m).
Proof.
  revert msgs; induction ids as [|i ids IH]; simpl; intros msgs HR Hm; inv_opt; [set_solver|].
  case_if_in HR; [destruct (IH _ HR Hm); split; [by right|done]|]. inv_opt.
  apply elem_of_cons in Hm as [->|Hm]; [split; [by left|]; simpl; eauto|].
  match goal with Hc : collectApplies _ _ = Some _ |- _ => destruct (IH _ Hc Hm); split; [by right|done] end.
Qed.

Lemma guardKick_msgs rf rf' msgs m :
  guardKick rf = Some (rf', msgs) -> m ∈ msgs ->
  snapIndex rf < CommandIndex m <= commitIndex rf
  /\ exists e, get rf (CommandIndex m) = Some e /\ m = commandMsg (Command e) (CommandIndex m).
Proof.
  unfold guardKick; simpl; intros HR Hm; case_if_in HR; inv_opt; [set_solver|].
  match goal with Hc : collectApplies _ _ = Some _ |- _ => destruct (collectApplies_msgs _ _ _ _ Hc Hm) as (Hi%elem_of_seqZ & ? & ?) end.
  simpl in *; split; [lia|done].
Qed.

(** C5: log matching. In every execution from booted peers (any
    interleaving, message delay, reordering, loss, crash and restart, with each
    vote request built in the term of its round; snapshots are taken of
    committed entries, sent and installed), if the logs of two peers have an
    entry of the same term at the same index, they agree on that entry and on
    everything before it that neither has trimmed. *)
Theorem log_matching s0 evs s i j rfi rfj k ei ej
    (Hinit : init n = Some s0) (Hrun : run_served s0 evs = Some s)
    (Hi : idx (nodes s) i = Some rfi) (Hj : idx (nodes s) j = Some rfj)
    (Hki : get rfi k = Some ei) (Hkj : get rfj k = Some ej) (Ht : Term ei = Term ej) :
  forall m, snapIndex rfi < m <= k -> snapIndex rfj < m -> get rfi m = get rfj m.
Proof.
  destruct (reachable_log n s0 evs s [] s) as (V & H & LL & A & PP & _ & _ & _ & _ & _ & HI & _); [done|done|done|].
  destruct (winv_node _ _ _ _ _ _ _ _ _ HI Hi) as (Pi & _ & _ & Vi & Ni), (winv_node _ _ _ _ _ _ _ _ _ HI Hj) as (Pj & _ & _ & Vj & Nj).
  intros m Hmi Hmj. rewrite (view_get n H A Pi rfi k) in Hki by (done || lia). rewrite (view_get n H A Pj rfj k) in Hkj by (done || lia).
  rewrite (view_get n H A Pi) by (done || lia). rewrite (view_get n H A Pj) by (done || lia).
  apply (path_match H _ _ k ei ej); try done; [apply Ni|apply Nj|lia].
Qed.


End agreement.

(** ** A concrete execution *)

(** Peer 0 leads term 1, appends a command and replicates it to peer 1, which
    then learns that it is committed. *)
Definition ex_replicate : list (event Z) :=
  ex_election ++ [EStart 0 7; ERepSend 0; ERepHandle 0 1002; ERepReply 0].
Definition ex_learn : list (event Z) := [ERepSend 0; ERepHandle 0 1003].

(** Peer 0 delivers it, trims its log, and appends another command; peer 2,
    which has nothing, gets the snapshot and the new entry. *)
Definition ex_trim : list (event Z) :=
  [EKick 0; ESnapshot 0 1 []; EStart 0 8; ERepSend 1; ERepHandle 1 1004; ERepReply 1;
   ERepSend 1; ERepHandle 1 1005; ERepReply 1].
Definition ex_learn2 : list (event Z) := [ERepSend 1; ERepHandle 1 1006].

Definition ex_trimmed : cluster Z := default no_cluster (run_served ex_start3 (ex_replicate ++ ex_trim)).
Definition ex_learnt : cluster Z := default no_cluster (run_served ex_trimmed ex_learn2).
Definition ex_leader0 : Raft Z := default ex_booted (idx (nodes ex_trimmed) 0).
Definition ex_leader1 : Raft Z := default ex_booted (idx (nodes ex_learnt) 0).
Definition ex_follower : Raft Z := default ex_booted (idx (nodes ex_trimmed) 2).
Definition ex_follower1 : Raft Z := default ex_booted (idx (nodes ex_learnt) 2).

Lemma ex_trimmed_run : run_served ex_start3 (ex_replicate ++ ex_trim) = Some ex_trimmed.
Proof. vm_compute; reflexivity. Qed.

Lemma ex_learnt_run : run_served ex_trimmed ex_learn2 = Some ex_learnt.
Proof. vm_compute; reflexivity. Qed.

Lemma log_matching_witness :
  run_served ex_start3 (ex_replicate ++ ex_trim) = Some ex_trimmed
  /\ (forall m, 1 < m <= 2 -> get ex_leader0 m = get ex_follower m) /\ get ex_follower 2 = Some (mkEntry 1 (Some 8)).
Proof.
  split; [exact ex_trimmed_run|]. split; [|vm_compute; reflexivity]. intros m Hm.
  refine (log_matching 3 ex_start3 (ex_replicate ++ ex_trim) ex_trimmed 0 2 ex_leader0 ex_follower 2
            (mkEntry 1 (Some 8)) (mkEntry 1 (Some 8)) _ ex_trimmed_run _ _ _ _ _ m _ _);
    try (vm_compute; reflexivity); [exact Hm|exact (proj1 Hm)].
Defined.


