(* ===== verification/RaftApply.v ===== *)
(** * Raft: how far a peer has come

    Which events of the cluster move [lastApplied] and the snapshot of a peer,
    where the snapshots under way come from, and what [guardKick] sends: the
    entries committed after the last one applied or covered by the snapshot, in
    order. Used for the services that read what the peers apply. *)

From S2P Require Import Prelude Gob RaftTypes RaftLog RaftElection RaftReplicate RaftSnapshot.
From S2P Require Import RaftPeer RaftLogFacts RaftSnapshotFacts RaftCluster RaftElectionSafety RaftPaths RaftLogSafety.
From S2P Require Import RaftLogSteps RaftWhole RaftWholeSteps RaftStateSafety.

(** ** What the critical sections move *)

Section applied.
Context {Cmd : Type} `{!GobType Cmd}.
Implicit Types (rf : Raft Cmd) (s : cluster Cmd).

Definition marks rf : Z * Z * bytes := (lastApplied rf, snapIndex rf, snapshot rf).

(** Nothing but the commit index has moved, and that one forward. *)
Definition progress rf rf' : Prop := marks rf' = marks rf /\ commitIndex rf <= commitIndex rf'.

Lemma progress_same rf rf' : marks rf' = marks rf -> commitIndex rf' = commitIndex rf -> progress rf rf'.
Proof. intros ? E; split; [done|rewrite E; lia]. Qed.

Lemma progress_trans rf1 rf2 rf3 : progress rf1 rf2 -> progress rf2 rf3 -> progress rf1 rf3.
Proof. intros [? ?] [? ?]; split; [congruence|lia]. Qed.

Lemma progress_newGen (b : bool) t rf : progress rf (if b then newGen t rf else rf).
Proof. by destruct b; apply progress_same. Qed.

Lemma progress_RequestVote now args rf rf' reply : RequestVote now args rf = Some (rf', reply) -> progress rf rf'.
Proof.
  unfold RequestVote; intros HR. eapply progress_trans; [apply (progress_newGen (rv_Term args >? currentTerm rf) (rv_Term args))|].
  revert HR; generalize (if rv_Term args >? currentTerm rf then newGen (rv_Term args) rf else rf).
  intros rf1 HR; case_if_in HR; inv_opt; [by apply progress_same|]. destruct x as [rf2 g]; inv_opt.
  match goal with Ht : tryVotingFor _ _ _ _ _ = _ |- _ => unfold tryVotingFor in Ht; inv_opt; case_if_in Ht; inv_opt; by apply progress_same end.
Qed.

Lemma progress_opinionReply args reply m rf rf' m' sp : opinionReply args reply m rf = (rf', m', sp) -> progress rf rf'.
Proof.
  unfold opinionReply; intros HR. eapply progress_trans; [apply (progress_newGen (rvr_Term reply >? currentTerm rf) (rvr_Term reply))|].
  revert HR; generalize (if rvr_Term reply >? currentTerm rf then newGen (rvr_Term reply) rf else rf).
  intros rf1 HR. case_if_in HR; [case_if_in HR; simpl in HR|]; inv_opt; by apply progress_same.
Qed.

Lemma commitLoop_progress fuel N rf rf' : commitLoop fuel N rf = Some rf' -> progress rf rf'.
Proof.
  revert N; induction fuel as [|fuel IH]; simpl; intros N Hc; case_if_in Hc; inv_opt; try (by apply progress_same).
  destruct x0; inv_opt; [|eauto]. split; simpl; [done|]. zbool. lia.
Qed.

Lemma progress_singleAppendReply j args reply rf rf' retry :
  singleAppendReply j args reply rf = Some (rf', retry) -> progress rf rf'.
Proof.
  destruct reply as [reply|]; simpl; intros HR; [|inv_opt; by apply progress_same]. repeat case_if_in HR; inv_opt; try by apply progress_same.
  - match goal with Hs : stepBack _ _ _ _ _ = _ |- _ => unfold stepBack in Hs; repeat case_if_in Hs; inv_opt; repeat case_if_in Hs; inv_opt; by apply progress_same end.
  - match goal with Hs : updateCommitIndex ?r = _ |- _ => apply (progress_trans rf r); [by apply progress_same|by eapply commitLoop_progress] end.
Qed.

Lemma progress_helpInstallReply j args reply rf rf' : helpInstallReply j args reply rf = Some rf' -> progress rf rf'.
Proof. destruct reply as [reply|]; simpl; intros HR; [|inv_opt; by apply progress_same]. case_if_in HR; inv_opt; by apply progress_same. Qed.

Lemma progress_Start c rf : progress rf (Start c rf).1.
Proof. unfold Start; case_if; by apply progress_same. Qed.

Lemma progress_tick now rf : progress rf (tick now rf).1.
Proof. unfold tick; case_if; by apply progress_same. Qed.

(** The handler either knows no more about what is committed, or sets the
    commit index within the log that it would have without this knowledge. *)
Definition withCommit (c : Z) (args : AppendEntriesArgs Cmd) : AppendEntriesArgs Cmd :=
  mkAppendEntriesArgs (ae_Term args) (ae_LeaderId args) (PrevLogIndex args) (PrevLogTerm args) (Entries args) c.

Lemma tryUpdateCommit_none c rf : c <= commitIndex rf -> tryUpdateCommit c rf = rf.
Proof. unfold tryUpdateCommit; intros; by case_if; [lia|]. Qed.

Lemma AppendEntries_commit now args rf rf' reply c :
  AppendEntries now args rf = Some (rf', reply) -> commitIndex rf = c ->
  marks rf' = marks rf /\ (commitIndex rf' = c
  \/ exists rf0 reply0, AppendEntries now (withCommit c args) rf = Some (rf0, reply0)
       /\ commitIndex rf0 = c /\ c < LeaderCommit args /\ commitIndex rf' = goMin (LeaderCommit args) (logLength rf0 - 1)).
Proof.
  assert (Hr : forall a b es (r r' : Raft Cmd), reconcileEntries a b es r = Some r' -> marks r' = marks r /\ commitIndex r' = commitIndex r)
    by (intros a b es r r'; unfold reconcileEntries; intros Hx; inv_opt; destruct x0; by inv_opt).
  assert (Hend : forall r : Raft Cmd, commitIndex r = c ->
    let r' := tryUpdateCommit (LeaderCommit args) r in marks r' = marks r
    /\ (commitIndex r' = c \/ (tryUpdateCommit c r = r /\ c < LeaderCommit args /\ commitIndex r' = goMin (LeaderCommit args) (logLength r - 1)))).
  { intros r Er; split; [unfold tryUpdateCommit; by repeat case_if|]. rewrite (tryUpdateCommit_none c) by lia.
    unfold tryUpdateCommit; repeat case_if; simpl; auto; right; split_and!; done || lia. }
  unfold AppendEntries; change (observeLeader (withCommit c args) rf) with (observeLeader args rf). cbv zeta.
  assert (Hob : marks (observeLeader args rf) = marks rf /\ commitIndex (observeLeader args rf) = commitIndex rf)
    by (unfold observeLeader; repeat case_if; done).
  destruct Hob as [<- <-]. generalize (observeLeader args rf); clear rf; intros rf HR Ec. cbn [withCommit ae_Term PrevLogIndex PrevLogTerm Entries LeaderCommit].
  case_if_in HR; [inv_opt; auto|].
  change (marks rf) with (marks (touched now rf)). change (commitIndex rf = c) with (commitIndex (touched now rf) = c) in Ec.
  clear E; revert HR Ec; generalize (touched now rf); clear rf; intros rf HR Ec.
  repeat case_if_in HR; inv_opt; try (by auto); repeat case_if_in HR; inv_opt; try (by auto).
  - destruct (Hend rf eq_refl) as [? [|(E' & ? & ?)]]; [by auto|]. split; [done|]. right; rewrite E'. by eexists _, _.
  - match goal with Hx : reconcileEntries _ _ _ _ = Some ?r |- _ => destruct (Hr _ _ _ _ _ Hx) as [Em Ec']; destruct (Hend r) as [? [|(E' & ? & ?)]] end;
      [congruence|by split; [congruence|left]|]. split; [congruence|]. right.
    match goal with Hx : reconcileEntries _ _ _ _ = Some _ |- _ => rewrite Hx end. simpl; rewrite E'. eexists _, _; split_and!; done || congruence.
  - match goal with Hx : reconcileEntries _ _ _ _ = Some ?r |- _ => destruct (Hr _ _ _ _ _ Hx) as [Em Ec']; destruct (Hend r) as [? [|(E' & ? & ?)]] end;
      [congruence|by split; [congruence|left]|]. split; [congruence|]. right.
    match goal with Hg : get rf _ = Some _ |- _ => rewrite Hg end. cbn [mbind option_bind]. case_if; [exfalso; lia|].
    match goal with Hx : reconcileEntries _ _ _ _ = Some _ |- _ => rewrite Hx end. simpl; rewrite E'. eexists _, _; split_and!; done || congruence.
Qed.

Lemma InstallSnapshot_turn now args rf rf' reply m :
  InstallSnapshot now args rf = Some (rf', reply, m) ->
  (progress rf rf' /\ m = None)
  \/ (snapIndex rf < LastIncludedIndex args /\ snapIndex rf' = LastIncludedIndex args /\ snapshot rf' = Data args
      /\ if lastApplied rf <? LastIncludedIndex args
         then lastApplied rf' = LastIncludedIndex args /\ commitIndex rf' = LastIncludedIndex args /\ m = Some (snapshotMsg args)
         else lastApplied rf' = lastApplied rf /\ commitIndex rf' = commitIndex rf /\ m = None).
Proof.
  unfold InstallSnapshot; intros HR; case_if_in HR; [inv_opt; left; split; [by apply progress_same|done]|].
  assert (Hg : marks (if is_Term args >? currentTerm rf then newGen (is_Term args) rf else rf) = marks rf
    /\ commitIndex (if is_Term args >? currentTerm rf then newGen (is_Term args) rf else rf) = commitIndex rf) by (by case_if).
  revert Hg HR; generalize (if is_Term args >? currentTerm rf then newGen (is_Term args) rf else rf). intros rf1 [Hm Hc] HR.
  pose proof Hm as [= Ela Esi Esn]. case_if_in HR; [inv_opt; left; split; [by apply progress_same|done]|right]. simpl in *; inv_opt.
  rewrite <- Ela, <- Esi, <- Hc. case_if_in HR; inv_opt; simpl; split_and!; try done; zbool; case_if; try lia; split_and!; done.
Qed.

(** What an event does to peer [i]. *)
Inductive turn s (ev : event Cmd) (i : Z) rf rf' : Prop :=
| turn_progress : progress rf rf' -> turn s ev i rf rf'
| turn_kick msgs : ev = EKick i -> guardKick rf = Some (rf', msgs) -> turn s ev i rf rf'
| turn_crash now : ev = ECrash i now -> restart now rf = Some rf' -> turn s ev i rf rf'
| turn_snapshot index data : ev = ESnapshot i index data -> Snapshot index data rf = Some rf' -> turn s ev i rf rf'
| turn_install r now p args reply m :
    ev = ERepHandle r now -> reps s !! r = Some p -> rp_server p = i -> rp_stage p = RInstall args ->
    InstallSnapshot now args rf = Some (rf', reply, m) -> turn s ev i rf rf'.

Lemma turn_node s s' ev j rfj rfj' i rf rf' :
  idx (nodes s) j = Some rfj -> upd (nodes s) j rfj' = Some (nodes s') -> turn s ev j rfj rfj' ->
  idx (nodes s) i = Some rf -> idx (nodes s') i = Some rf' -> turn s ev i rf rf'.
Proof.
  intros Hj Hu Ht Hi Hi'. destruct (decide (j = i)) as [->|].
  - rewrite (idx_upd_eq _ _ _ _ Hu) in Hi'. congruence.
  - rewrite (idx_upd_ne _ _ _ _ _ Hu) in Hi' by done. assert (rf' = rf) as -> by congruence. apply turn_progress. by apply progress_same.
Qed.

Lemma turn_same s s' ev i rf rf' :
  nodes s' = nodes s -> idx (nodes s) i = Some rf -> idx (nodes s') i = Some rf' -> turn s ev i rf rf'.
Proof. intros ->; intros. assert (rf' = rf) as -> by congruence. apply turn_progress. by apply progress_same. Qed.

(** The snapshot that a replicator has under way. *)
Definition underWay (p : rep Cmd) : option InstallSnapshotArgs :=
  match rp_stage p with RInstall args | RInstallReplied args _ => Some args | _ => None end.
End applied.

(** The peer and the goroutines after a [set_node]. *)
Ltac peer_set Hu E :=
  match goal with Hs : set_node _ _ _ = Some _ |- _ => apply set_node_reps in Hs as (Hu & _ & E) end.

Section turns.
Context {Cmd : Type} `{!GobType Cmd}.
Implicit Types (rf : Raft Cmd) (s : cluster Cmd).
Implicit Types (V : votes) (H : tree Cmd) (LL : leaderLogs Cmd) (A : Z -> Z -> Z -> Prop).
Context (n : nat).

(** A peer knows nothing to be committed that is not in its log. *)
Lemma commit_in_log H LL A i P rf :
  node_ok n H LL A i (whole P rf) -> view n H A P rf -> commitIndex rf < logLength rf.
Proof.
  intros Hok Hv. rewrite (view_len n H A P rf Hv). pose proof (vw_range _ _ _ _ _ Hv).
  destruct (decide (commitIndex rf <= snapIndex rf)); [lia|].
  destruct (view_commitOk n H LL A i P rf (commitIndex rf) Hok) as [|(k & t & Hk & (e & He%idx_Some_range & _) & _)]; lia.
Qed.

(** [AppendEntries] never takes back what is committed. *)
Lemma append_progress V H LL A PP s i rf rf' args reply now o :
  node_inv n V s -> winv n V H LL A PP s -> idx (nodes s) i = Some rf -> msg_ok n H LL A (wholes PP s) args o -> o <> i ->
  AppendEntries now args rf = Some (rf', reply) -> progress rf rf'.
Proof.
  intros HN HI Hi Hm Hne HR. destruct (AppendEntries_commit _ _ _ _ _ _ HR eq_refl) as [? [|(rf0 & reply0 & HR0 & Ec & Hlt & Ec')]];
    [by apply progress_same|]. split; [done|]. rewrite Ec'.
  pose proof (idx_Some_range _ _ _ Hi) as Hrg. pose proof (upd_ok (nodes s) i rf0 Hrg) as Hu0.
  set (s0 := mkCluster (<[Z.to_nat i := rf0]> (nodes s)) (rounds s) (vcalls s) (reps s)).
  destruct (append_step n V H LL A PP s s0 i rf rf0 (withCommit (commitIndex rf) args) reply0 now o) as (A' & PP' & _ & HI0 & _); try done.
  { destruct Hm as (M & ? & ? & ? & ? & ? & Hc & ?). exists M. do 5 (split; [done|]). split; [|done]. simpl.
    destruct Hc as [|(k & t & Hk & ? & ?)]; [by left; lia|]. right; exists k, t; split_and!; try done; lia. }
  destruct (winv_node n _ H LL A' PP' s0 i rf0 HI0) as (P & _ & _ & Hv0 & Hok0); [by apply (idx_upd_eq (nodes s) i rf0)|].
  pose proof (commit_in_log H LL A' i P rf0 Hok0 Hv0). unfold goMin; case_if; lia.
Qed.

Lemma exec_turn V H LL A PP s s' ev i rf rf' :
  inv n V s -> winv n V H LL A PP s -> exec s ev = Some s' ->
  idx (nodes s) i = Some rf -> idx (nodes s') i = Some rf' -> turn s ev i rf rf'.
Proof.
  intros [HN HC] HI HR Hi Hi'; destruct ev; simpl in HR.
  - unfold execTick in HR; inv_opt; case_if_in HR; [done|]. pose proof (progress_tick now x) as Ht.
    destruct (tick now x) as [rf1 started]; inv_opt. peer_set Hu Er.
    assert (Hi1 : idx (nodes x0) i = Some rf') by (by destruct started). eapply (turn_node s x0); [|exact Hu| |exact Hi|exact Hi1]; [done|by apply turn_progress].
  - unfold execBuild in HR; inv_opt. destruct (vc_stage x), (vc_live x); inv_opt; by eapply turn_same.
  - unfold execVote in HR; inv_opt. destruct (vc_stage x); inv_opt. destruct x1; inv_opt.
    peer_set Hu Er. eapply turn_node; [|exact Hu| |exact Hi|exact Hi']; [eassumption|apply turn_progress; by eapply progress_RequestVote].
  - unfold execVoteReply in HR; inv_opt. destruct (vc_stage x), (vc_live x); inv_opt.
    destruct (opinionReply _ _ _ _) as [[rf1 m] sp] eqn:EO; inv_opt. peer_set Hu Er.
    eapply turn_node; [|exact Hu| |exact Hi|exact Hi']; [eassumption|apply turn_progress; by eapply progress_opinionReply].
  - inv_opt. destruct (vc_stage x); inv_opt; by eapply turn_same.
  - unfold execRepSend in HR; inv_opt. destruct (rp_stage x), (rp_live x); inv_opt. case_if_in HR; inv_opt.
    destruct x1; inv_opt; by eapply turn_same.
  - unfold execRepHandle in HR; inv_opt. match goal with Hp : reps s !! _ = Some ?p |- _ => pose proof (winv_rep _ _ _ _ _ _ _ _ _ HI Hp) as [Hne Hst]; rename p into p0, Hp into Hp0 end.
    destruct (rp_stage p0) as [|args| |args|] eqn:Est; inv_opt.
    + destruct x0; inv_opt. peer_set Hu Er. eapply turn_node; [|exact Hu| |exact Hi|exact Hi']; [eassumption|apply turn_progress; by eapply append_progress].
    + destruct x0 as [[rf1 ?] ?]; inv_opt. peer_set Hu Er. eapply turn_node; [|exact Hu| |exact Hi|exact Hi']; [eassumption|by eapply turn_install].
  - unfold execRepReply in HR; inv_opt. destruct (rp_live x); inv_opt. peer_set Hu Er.
    eapply turn_node; [|exact Hu| |exact Hi|exact Hi']; [eassumption|apply turn_progress]. destruct (rp_stage x); inv_opt; [|by eapply progress_helpInstallReply].
    match goal with Hf : singleAppendReply _ _ _ _ = Some ?y |- _ => destruct y as [rf1 b] end. subst; cbn [fst]. by eapply progress_singleAppendReply.
  - unfold execRepLost in HR; inv_opt. destruct (rp_live x); inv_opt. peer_set Hu Er.
    eapply turn_node; [|exact Hu| |exact Hi|exact Hi']; [eassumption|apply turn_progress]. destruct (rp_stage x); simpl in *; inv_opt; by apply progress_same.
  - inv_opt. peer_set Hu Er. eapply turn_node; [|exact Hu| |exact Hi|exact Hi']; [eassumption|apply turn_progress; apply progress_Start].
  - inv_opt. peer_set Hu Er. eapply turn_node; [|exact Hu| |exact Hi|exact Hi']; [eassumption|by eapply turn_snapshot].
  - inv_opt. destruct x0; inv_opt. peer_set Hu Er. eapply turn_node; [|exact Hu| |exact Hi|exact Hi']; [eassumption|by eapply turn_kick].
  - inv_opt. peer_set Hu Er. eapply turn_node; [|exact Hu| |exact Hi|exact Hi']; [eassumption|by eapply turn_crash].
Qed.

(** A snapshot under way was under way before, or is the one of its sender. *)
Lemma exec_underWay s s' (ev : event Cmd) r p args :
  exec s ev = Some s' -> reps s' !! r = Some p -> underWay p = Some args ->
  (exists r p, reps s !! r = Some p /\ underWay p = Some args)
  \/ (exists i rf, idx (nodes s) i = Some rf /\ snapIndex rf = LastIncludedIndex args /\ snapshot rf = Data args).
Proof.
  intros HR Hp Ha.
  assert (Hset : forall x st s1, s' = set_rstage x st s1 -> reps s1 = reps s ->
    (forall q, reps s !! x = Some q -> underWay (mkRep (rp_owner q) (rp_server q) st (rp_live q)) = Some args ->
       underWay q = Some args \/ exists i rf, idx (nodes s) i = Some rf /\ snapIndex rf = LastIncludedIndex args /\ snapshot rf = Data args) ->
    (exists r p, reps s !! r = Some p /\ underWay p = Some args)
    \/ (exists i rf, idx (nodes s) i = Some rf /\ snapIndex rf = LastIncludedIndex args /\ snapshot rf = Data args)).
  { intros x st s1 -> E Hst. apply lookup_set_rstage in Hp as [[_ Hq]|[-> (q & Hq & ->)]]; rewrite E in Hq; [eauto|].
    destruct (Hst q Hq Ha); eauto. }
  assert (Hsame : reps s' = reps s -> exists r p, reps s !! r = Some p /\ underWay p = Some args)
    by (intros E; rewrite E in Hp; eauto).
  assert (Hspawn : forall i js s1, s' = spawn_reps i js s1 -> reps s1 = reps s -> exists r p, reps s !! r = Some p /\ underWay p = Some args).
  { intros i js s1 -> E; simpl in Hp. rewrite E in Hp. apply lookup_app_Some in Hp as [|[_ (j & -> & _)%list_lookup_fmap_Some]]; [eauto|done]. }
  destruct ev; simpl in HR.
  - unfold execTick in HR; inv_opt; case_if_in HR; [done|]. destruct (tick now x) as [rf' started]; inv_opt.
    peer_set Hu Er. left; apply Hsame. by destruct started.
  - unfold execBuild in HR; inv_opt. destruct (vc_stage x), (vc_live x); inv_opt; left; by apply Hsame.
  - unfold execVote in HR; inv_opt. destruct (vc_stage x); inv_opt. destruct x1; inv_opt. peer_set Hu Er. left; by apply Hsame.
  - unfold execVoteReply in HR; inv_opt. destruct (vc_stage x), (vc_live x); inv_opt.
    destruct (opinionReply _ _ _ _) as [[rf' m] sp] eqn:EO; inv_opt. peer_set Hu Er. left; by eapply Hspawn; [reflexivity|].
  - inv_opt. destruct (vc_stage x); inv_opt; left; by apply Hsame.
  - unfold execRepSend in HR; inv_opt. destruct (rp_stage x), (rp_live x); inv_opt. case_if_in HR; inv_opt.
    destruct x1; inv_opt; [left; by apply Hsame| |by eapply Hset; [reflexivity|..]].
    eapply Hset; [reflexivity|done|]. intros q _; unfold underWay; simpl. intros [= <-]. right.
    unfold helpInstallArgs in *; inv_opt; simpl. eauto.
  - unfold execRepHandle in HR; inv_opt. rename x into p0, H into Hp0. destruct (rp_stage p0) eqn:Est; inv_opt.
    + destruct x0; inv_opt. peer_set Hu Er. by eapply Hset; [reflexivity|..].
    + destruct x0 as [[rf' ?] ?]; inv_opt. peer_set Hu Er. eapply Hset; [reflexivity|done|]. intros q Hq; unfold underWay; simpl. intros [= <-].
      left. rewrite Hp0 in Hq; injection Hq as <-. by rewrite Est.
  - unfold execRepReply in HR; inv_opt. destruct (rp_live x); inv_opt. peer_set Hu Er. by eapply Hset; [reflexivity|..].
  - unfold execRepLost in HR; inv_opt. destruct (rp_live x); inv_opt. peer_set Hu Er. by eapply Hset; [reflexivity|..].
  - inv_opt. peer_set Hu Er. left; by apply Hsame.
  - inv_opt. peer_set Hu Er. left; by apply Hsame.
  - inv_opt. destruct x0; inv_opt. peer_set Hu Er. left; by apply Hsame.
  - inv_opt. peer_set Hu Er. left. simpl in Hp. rewrite Er in Hp. apply list_lookup_fmap_Some in Hp as (q & -> & Hq). exists r, q; split; [done|exact Ha].
Qed.

Lemma exec_nodes_back V s s' i rf' : next n V s s' -> idx (nodes s') i = Some rf' -> exists rf, idx (nodes s) i = Some rf.
Proof.
  intros Hn Hi; apply idx_in_range. apply idx_Some_range in Hi.
  destruct Hn as [[E _]|(j & rfj & Hu & _)]; [by rewrite E in Hi|]. by rewrite (upd_len _ _ _ _ Hu) in Hi.
Qed.

(** ** The index a peer has come to *)

(** What it has applied, or has a snapshot of. *)
Definition covers rf : Z := Z.max (lastApplied rf) (snapIndex rf).

(** It has applied nothing it does not know to be committed. *)
Definition capped rf : Prop := lastApplied rf <= Z.max (commitIndex rf) (snapIndex rf).

Lemma covers_progress rf rf' : progress rf rf' -> covers rf' = covers rf.
Proof. intros [[= E1 E2 _] _]; unfold covers; congruence. Qed.

Lemma guardKick_fields rf rf' msgs :
  guardKick rf = Some (rf', msgs) ->
  snapIndex rf' = snapIndex rf /\ snapshot rf' = snapshot rf /\ commitIndex rf' = commitIndex rf
  /\ lastApplied rf' = Z.max (lastApplied rf) (commitIndex rf).
Proof. unfold guardKick; intros HK; case_if_in HK; inv_opt; simpl in *; split_and!; done || lia. Qed.

Lemma Snapshot_fields index data rf rf' :
  Snapshot index data rf = Some rf' ->
  lastApplied rf' = lastApplied rf /\ commitIndex rf' = commitIndex rf
  /\ if index <=? snapIndex rf then rf' = rf else snapIndex rf' = index /\ snapshot rf' = data.
Proof. unfold Snapshot; destruct (index <=? snapIndex rf); intros HS; by inv_opt. Qed.

Lemma restart_fields now rf rf' :
  durable rf -> restart now rf = Some rf' ->
  snapIndex rf' = snapIndex rf /\ snapshot rf' = snapshot rf /\ commitIndex rf' = 0 /\ lastApplied rf' = 0 /\ durable rf'.
Proof.
  intros Hd Hr. destruct (restart_durable now rf Hd) as (rf2 & Hr2 & Hq & Hd' & _ & _ & _ & Hc & Hla).
  rewrite Hr in Hr2; injection Hr2 as <-. injection Hq as ? ? ? ? ?. by split_and!.
Qed.

Lemma turn_capped s ev i rf rf' : turn s ev i rf rf' -> durable rf -> 0 <= snapIndex rf -> capped rf -> capped rf'.
Proof.
  unfold capped; intros [Hp|msgs _ HK|now _ HR|index data _ HS|r now p args reply m _ _ _ _ HIn] Hd Hpos Hc.
  - destruct Hp as [[= -> -> _] ?]. lia.
  - destruct (guardKick_fields _ _ _ HK) as (-> & _ & -> & ->). lia.
  - destruct (restart_fields _ _ _ Hd HR) as (-> & _ & -> & -> & _). lia.
  - destruct (Snapshot_fields _ _ _ _ HS) as (-> & -> & Hif). case_if_in Hif; [by subst|]. destruct Hif as [-> _]; lia.
  - destruct (InstallSnapshot_turn _ _ _ _ _ _ HIn) as [[[[= -> -> _] ?] _]|(? & -> & _ & Hif)]; [lia|].
    case_if_in Hif; destruct Hif as (-> & -> & _); lia.
Qed.

(** ** Executions without snapshots *)

Definition applies (ev : event Cmd) : bool := match ev with EKick _ | ECrash _ _ => true | _ => false end.

(** The services take no snapshot. Then no peer has one and none is sent. *)
Definition snapless (ev : event Cmd) : bool := match ev with ESnapshot _ _ _ => false | _ => true end.

Record untrimmed s : Prop := {
  un_node : forall i rf, idx (nodes s) i = Some rf -> snapIndex rf = 0 /\ snapshot rf = [];
  un_rep : forall r p args, reps s !! r = Some p -> underWay p = Some args -> LastIncludedIndex args = 0;
}.

Lemma underWay_install (p : rep Cmd) args : rp_stage p = RInstall args -> underWay p = Some args.
Proof. unfold underWay; by intros ->. Qed.

(** A peer that is sent no snapshot beyond its own gets none. *)
Lemma untrimmed_install s r p args now rf rf' reply m :
  untrimmed s -> reps s !! r = Some p -> rp_stage p = RInstall args -> snapIndex rf = 0 ->
  InstallSnapshot now args rf = Some (rf', reply, m) -> progress rf rf' /\ m = None.
Proof.
  intros HU Hp Hst Hs HIn. destruct (InstallSnapshot_turn _ _ _ _ _ _ HIn) as [|(Hlt & _)]; [done|].
  rewrite (un_rep _ HU r p args Hp (underWay_install p args Hst)) in Hlt; lia.
Qed.

Lemma exec_marks V H LL A PP s s' ev i rf rf' :
  inv n V s -> winv n V H LL A PP s -> untrimmed s -> snapless ev = true -> applies ev = false -> exec s ev = Some s' ->
  idx (nodes s) i = Some rf -> idx (nodes s') i = Some rf' -> marks rf' = marks rf.
Proof.
  intros Hinv HI HU Hsn Hap HR Hi Hi'.
  destruct (exec_turn V H LL A PP s s' ev i rf rf' Hinv HI HR Hi Hi') as [Hp|msgs -> _|now -> _|index data -> _|r now p args reply m _ Hp _ Hst HIn]; try done.
  - apply Hp.
  - apply (untrimmed_install s r p args now rf rf' reply m HU Hp Hst); [by apply (un_node _ HU i)|done].
Qed.

Lemma exec_untrimmed V H LL A PP s s' ev :
  inv n V s -> winv n V H LL A PP s -> next n V s s' -> untrimmed s -> snapless ev = true -> exec s ev = Some s' -> untrimmed s'.
Proof.
  intros Hinv HI Hn HU Hsn HR; split.
  - intros i rf' Hi'. destruct (exec_nodes_back V _ _ i rf' Hn Hi') as [rf Hi]. pose proof (un_node _ HU _ _ Hi) as Hs.
    destruct (exec_turn V H LL A PP s s' ev i rf rf' Hinv HI HR Hi Hi') as [[[= _ -> ->] _]|msgs _ HK|now _ HRs|index data -> _|r now p args reply m _ Hp _ Hst HIn]; try done.
    + by destruct (guardKick_fields _ _ _ HK) as (-> & -> & _).
    + destruct (ni_node _ _ _ (proj1 Hinv) _ _ Hi) as (_ & _ & Hd). by destruct (restart_fields _ _ _ Hd HRs) as (-> & -> & _).
    + destruct (untrimmed_install s r p args now rf rf' reply m HU Hp Hst (proj1 Hs) HIn) as [[[= _ -> ->] _] _]. done.
  - intros r p args Hp Ha. destruct (exec_underWay s s' ev r p args HR Hp Ha) as [(r0 & p0 & Hp0 & Ha0)|(i & rf & Hi & <- & _)].
    + by apply (un_rep _ HU r0 p0).
    + by apply (un_node _ HU i rf).
Qed.

Lemma snapless_served s ev : snapless ev = true -> served s ev = true.
Proof. by destruct ev. Qed.

Lemma init_untrimmed s : init n = Some s -> untrimmed s.
Proof.
  intros HI; split; [intros i rf Hi; pose proof (init_nodes n s i rf HI Hi) as Hb; unfold boot, Make in Hb; simpl in Hb; by inv_opt|].
  intros r p args; unfold init in HI; by inv_opt.
Qed.
End turns.

Section settled.
Context {Cmd : Type} `{!GobType Cmd}.
Implicit Types (rf : Raft Cmd) (s : cluster Cmd) (m : ApplyMsg Cmd) (msgs : list (ApplyMsg Cmd)).
Implicit Types (V : votes) (H : tree Cmd) (LL : leaderLogs Cmd) (A : Z -> Z -> Z -> Prop).
Context (n : nat).

(** [v] is the value of a committed entry at [k]. *)
Definition settled H A (k : Z) (v : option Cmd) : Prop :=
  exists l k1 t1 e, path H l /\ has l k1 t1 /\ committed n A k1 t1 /\ 0 < k <= k1 /\ idx l k = Some e /\ Command e = v.

Lemma settled_mono H H' A A' k v :
  H ⊆ H' -> (forall q k t, A q k t -> A' q k t) -> settled H A k v -> settled H' A' k v.
Proof.
  intros HH HA (l & k1 & t1 & e & Hp & Hh & Hc & ? & ? & ?). exists l, k1, t1, e; split_and!; try done; try lia.
  - by eapply path_mono.
  - by eapply committed_mono.
Qed.

Lemma settled_fun V H LL A s k v v' : log_inv n V H LL A s -> settled H A k v -> settled H A k v' -> v = v'.
Proof.
  intros HI (l & k1 & t1 & e & Hp & Hh & Hc & Hk & He & <-) (l' & k1' & t1' & e' & Hp' & Hh' & Hc' & Hk' & He' & <-).
  assert (Hl : idx l k = idx l' k); [|congruence].
  apply (commit_agree n H LL A l l' k k); try done; try lia; [apply HI|apply HI|by eapply lg_electedOk|right|right].
  - exists k1, t1; split_and!; [lia|done|done].
  - exists k1', t1'; split_and!; [lia|done|done].
Qed.

Lemma kick_msgs H LL A i P rf rf' msgs :
  node_ok n H LL A i (whole P rf) -> view n H A P rf -> 0 <= covers rf -> guardKick rf = Some (rf', msgs) ->
  CommandIndex <$> msgs = seqZ (covers rf + 1) (len msgs) /\ covers rf' = covers rf + len msgs
  /\ forall m, m ∈ msgs -> m = commandMsg (msgCommand m) (CommandIndex m) /\ settled H A (CommandIndex m) (msgCommand m).
Proof.
  intros HN Hv Hla HK. pose proof (vw_range _ _ _ _ _ Hv) as Hr.
  destruct (guardKick_delivers rf) as (rf1 & msgs1 & HK1 & _ & _ & _ & Hix & _); [by eapply commit_in_log|].
  rewrite HK in HK1; injection HK1 as <- <-. cbv zeta in Hix. fold (covers rf) in Hix.
  assert (Hlen : len msgs = Z.max 0 (commitIndex rf - covers rf)).
  { unfold len. rewrite <- (length_fmap CommandIndex), Hix, length_seqZ. lia. }
  split_and!.
  - rewrite Hix, Hlen. destruct (decide (0 <= commitIndex rf - covers rf)); [f_equal; lia|]. by rewrite !seqZ_nil by lia.
  - destruct (guardKick_fields _ _ _ HK) as (E1 & _ & _ & E2). rewrite Hlen; unfold covers in *; rewrite E1, E2. lia.
  - intros m Hin. destruct (guardKick_msgs _ _ _ _ HK Hin) as (Hrg & e & He & ->). split; [done|].
    destruct (view_commitOk n H LL A i P rf (CommandIndex m) HN) as [|(k1 & t1 & Hk1 & Hh & Hc)]; [lia|lia|].
    rewrite (view_get n H A P) in He by (done || lia). simpl in *.
    exists P, k1, t1, e; split_and!; try done; try lia. apply HN.
Qed.
End settled.
