(* ===== verification/RaftSlots.v ===== *)
(** * Raft: the leaders' tables, and no panic

    What keeps the goroutines of the cluster from panicking: the tables
    [nextIndex] and [matchIndex] have an entry per peer as long as a goroutine of
    the leader may use them, [nextIndex] never points beyond the log, whatever a
    delayed reply says, and a leader has a live [replicator] for every peer. *)

From S2P Require Import Prelude Gob RaftTypes RaftLog RaftElection RaftReplicate RaftSnapshot.
From S2P Require Import RaftPeer RaftLogFacts RaftCommit RaftBackup RaftCluster RaftElectionSafety RaftPaths.
From S2P Require Import RaftLogSafety RaftLogSteps RaftWhole RaftWholeSteps RaftStateSafety RaftApply RaftSnapshotFacts.

(** ** Steps of a peer that leave its tables alone *)

Section steady.
Context {Cmd : Type} `{!GobType Cmd}.
Implicit Types (rf : Raft Cmd).

Definition tables rf : list Z * list Z * bool := (nextIndex rf, matchIndex rf, dead rf).

Record steady rf rf' : Prop := {
  sd_tables : tables rf' = tables rf;
  sd_snap : snapIndex rf <= snapIndex rf';
  sd_lead : state rf' = Leader -> state rf = Leader /\ logLength rf <= logLength rf';
}.

Lemma steady_refl rf : steady rf rf.
Proof. by split. Qed.

Lemma steady_trans rf1 rf2 rf3 : steady rf1 rf2 -> steady rf2 rf3 -> steady rf1 rf3.
Proof. intros [T1 S1 L1] [T2 S2 L2]; split; [congruence|lia|]. intros HL; destruct (L2 HL) as [HL2 ?], (L1 HL2). split; [done|lia]. Qed.

Lemma steady_newGen_if (b : bool) t rf : steady rf (if b then newGen t rf else rf).
Proof. by destruct b. Qed.

Lemma steady_tick now rf : steady rf (tick now rf).1.
Proof. unfold tick; case_if; by split. Qed.

Lemma steady_RequestVote now args rf rf' reply : RequestVote now args rf = Some (rf', reply) -> steady rf rf'.
Proof.
  unfold RequestVote. pose proof (steady_newGen_if (rv_Term args >? currentTerm rf) (rv_Term args) rf) as H1.
  revert H1; generalize (if rv_Term args >? currentTerm rf then newGen (rv_Term args) rf else rf); intros rf1 H1 HR.
  case_if_in HR; inv_opt; [done|]. destruct x as [rf2 b]; inv_opt. eapply steady_trans; [exact H1|].
  unfold tryVotingFor in *; inv_opt. match goal with Hx : context [if ?c then _ else _] |- _ => destruct c; inv_opt end; by split.
Qed.

Lemma steady_opinionReply args reply m rf rf' m' sp :
  opinionReply args reply m rf = (rf', m', sp) -> (steady rf rf' /\ sp = []) \/ (rf', sp) = becomeLeader rf.
Proof.
  unfold opinionReply. destruct (rvr_Term reply >? currentTerm rf); simpl.
  - rewrite andb_false_r; simpl; intros; inv_opt. left; split; [by split|done].
  - case_if; [case_if|]; intros; inv_opt; [|left; split; [apply steady_refl|done]..].
    by right.
Qed.

Lemma reconcileEntries_fields my your es rf rf' :
  reconcileEntries my your es rf = Some rf' -> tables rf' = tables rf /\ snapIndex rf' = snapIndex rf /\ state rf' = state rf.
Proof. unfold reconcileEntries; intros; inv_opt. destruct x0; inv_opt. done. Qed.

Lemma tryUpdateCommit_tables c rf : tables (tryUpdateCommit c rf) = tables rf.
Proof. unfold tryUpdateCommit; repeat case_if; done. Qed.

Lemma observed_steady now args rf :
  (state rf = Leader -> currentTerm rf <> ae_Term args) ->
  let rf1 := touched now (observeLeader args rf) in
  steady rf rf1 /\ (currentTerm rf1 <= ae_Term args -> state rf1 <> Leader).
Proof.
  intros Hne; unfold observeLeader; repeat case_if; simpl; (split; [by split|]); intros Hle HL; try done; specialize (Hne HL); lia.
Qed.

Lemma steady_AppendEntries now args rf rf' reply :
  (state rf = Leader -> currentTerm rf <> ae_Term args) -> AppendEntries now args rf = Some (rf', reply) -> steady rf rf'.
Proof.
  intros Hne HR; unfold AppendEntries in HR. destruct (observed_steady now args rf Hne) as [Hs Hl].
  assert (Ho : steady rf (observeLeader args rf)) by (destruct Hs as [T S L]; by split).
  case_if_in HR; [by inv_opt|]. change (currentTerm (touched now (observeLeader args rf))) with (currentTerm (observeLeader args rf)) in Hl.
  revert Hs Hl HR; generalize (touched now (observeLeader args rf)); intros rf1 [T1 S1 _] Hl HR.
  specialize (Hl ltac:(lia)).
  assert (Hd : forall rf2, tables rf2 = tables rf1 -> snapIndex rf2 = snapIndex rf1 -> state rf2 = state rf1 -> steady rf rf2)
    by (intros rf2 E1 E2 E3; split; [congruence|lia|congruence]).
  assert (Hu : forall rf2, tables rf2 = tables rf1 /\ snapIndex rf2 = snapIndex rf1 /\ state rf2 = state rf1 -> steady rf (tryUpdateCommit (LeaderCommit args) rf2)).
  { intros rf2 (E1 & E2 & E3). destruct (tryUpdateCommit_fields (LeaderCommit args) rf2) as (_ & F2 & _ & F4 & _).
    apply Hd; rewrite ?tryUpdateCommit_tables; congruence. }
  repeat (case_if_in HR; inv_opt); try (by apply Hu); try (by apply Hd); try (apply Hu; by eapply reconcileEntries_fields).
Qed.

Lemma steady_InstallSnapshot now args rf rf' reply msg :
  InstallSnapshot now args rf = Some (rf', reply, msg) -> steady rf rf'.
Proof.
  unfold InstallSnapshot; intros HR; case_if_in HR; inv_opt; [apply steady_refl|].
  assert (H1 : steady rf (touched now (if is_Term args >? currentTerm rf then newGen (is_Term args) rf else rf))) by (case_if; by split).
  revert H1 HR; generalize (touched now (if is_Term args >? currentTerm rf then newGen (is_Term args) rf else rf)); intros rf1 H1 HR.
  case_if_in HR; inv_opt; [done|]. eapply steady_trans; [exact H1|].
  match goal with Hk : _ = Some x |- _ => rename x into kept, Hk into Hkept end.
  unfold setSnap in *; simpl in *; inv_opt.
  assert (Hle : logLength rf1 <= 1 + len kept + LastIncludedIndex args).
  { case_if_in Hkept; inv_opt; [|rewrite len_nil; lia].
    unfold entriesFrom in Hkept; apply slice_from_Some in Hkept as [? ->]. rewrite len_drop; unfold logLength in *; lia. }
  case_if_in HR; inv_opt; (split; [done|simpl; lia|]); intros HL; (split; [exact HL|]); unfold logLength at 2; simpl; rewrite len_cons; lia.
Qed.

Lemma steady_Snapshot index data rf rf' : Snapshot index data rf = Some rf' -> steady rf rf'.
Proof.
  unfold Snapshot; intros HR; case_if_in HR; inv_opt; [apply steady_refl|].
  match goal with Ht : slice_from _ _ = Some _ |- _ => apply slice_from_Some in Ht as [? ->] end.
  split; [done|simpl; lia|]. intros HL; split; [exact HL|]. unfold logLength in *; simpl.
  rewrite len_cons, len_drop; lia.
Qed.

Lemma steady_Start c rf : steady rf (Start c rf).1.
Proof.
  unfold Start; case_if; [apply steady_refl|]. split; [done|done|]. intros HL; split; [exact HL|].
  unfold logLength; simpl. rewrite len_app; pose proof (len_nonneg [mkEntry (currentTerm rf) (Some c)]); lia.
Qed.

Lemma steady_guardKick rf rf' msgs : guardKick rf = Some (rf', msgs) -> steady rf rf'.
Proof. unfold guardKick; intros HR; case_if_in HR; inv_opt; by split. Qed.

(** ** The replies that write the tables *)

(** Two tables of [n] entries, none of which points beyond the log of a leader. *)
Definition sized (n : nat) rf : Prop := len (nextIndex rf) = Z.of_nat n /\ len (matchIndex rf) = Z.of_nat n.
Definition inside rf : Prop := forall j ni, idx (nextIndex rf) j = Some ni -> ni <= logLength rf.

(** What the leader reads in a rejection that is not of a later term. *)
Definition backsUp (args : AppendEntriesArgs Cmd) (reply : AppendEntriesReply) : Prop :=
  Success reply = false -> ae_Term args < aer_Term reply \/ XTerm reply = -1 \/ XIndex reply <= PrevLogIndex args.

Lemma inside_upd rf j ni l :
  inside rf -> upd (nextIndex rf) j ni = Some l -> ni <= logLength rf -> inside (set_nextIndex l rf).
Proof.
  intros Hi Hu Hle k x; simpl; destruct (decide (j = k)) as [->|Hne].
  - rewrite (idx_upd_eq _ _ _ _ Hu). by intros [= <-].
  - rewrite (idx_upd_ne _ _ _ _ _ Hu Hne). apply Hi.
Qed.

Lemma AppendEntries_backsUp now args rf rf' reply :
  wf_log rf -> AppendEntries now args rf = Some (rf', reply) -> backsUp args reply.
Proof.
  intros Hwf HR HF. destruct (AppendEntries_outcome now args rf Hwf) as (rf2 & reply2 & HR2 & Ht & Hr & _ & _ & _ & Hrej).
  rewrite HR in HR2; injection HR2 as <- <-. destruct (Hrej HF) as (_ & _ & [?|[(_ & ? & _)|(p & _ & _ & _ & ? & _)]]); lia.
Qed.

Lemma stepBack_inside n i xt xi xl rf :
  len (nextIndex rf) = Z.of_nat n -> 0 <= i < Z.of_nat n -> 0 <= snapIndex rf -> xt = -1 \/ xi <= logLength rf ->
  exists ni l, stepBack i xt xi xl rf = Some (set_nextIndex l rf) /\ upd (nextIndex rf) i ni = Some l /\ ni <= logLength rf.
Proof.
  intros Hn Hi Hs Hx; unfold stepBack, lastIndexOfTerm.
  assert (Hu : forall x, upd (nextIndex rf) i x = Some (<[Z.to_nat i := x]> (nextIndex rf))) by (intros; apply upd_ok; lia).
  case_if; [rewrite Hu; eexists _, _; split_and!; [done|apply Hu|unfold goMin; case_if; lia]|].
  destruct (lastIndexLoop_spec (Z.to_nat (logLength rf - snapIndex rf)) xt rf (logLength rf - 1)) as (r & -> & Hr); [done|lia|lia|].
  simpl; case_if; rewrite Hu; eexists _, _; (split_and!; [done|apply Hu|]).
  - destruct Hr as [|[? _]]; [done|lia].
  - destruct Hx; [done|lia].
Qed.

(** The tables of the leader after a reply. *)
Record replied (n : nat) rf rf' : Prop := {
  rd_sized : sized n rf';
  rd_inside : state rf' = Leader -> state rf = Leader /\ inside rf';
  rd_same : dead rf' = dead rf /\ log rf' = log rf /\ snapIndex rf' = snapIndex rf;
}.

Lemma replied_same n rf rf' :
  sized n rf -> (state rf = Leader -> inside rf) -> tables rf' = tables rf -> (state rf' = Leader -> state rf = Leader) ->
  log rf' = log rf -> snapIndex rf' = snapIndex rf -> replied n rf rf'.
Proof.
  intros [Hn Hm] Hi [= En Em Ed] Hl El Es; split; [by split; rewrite ?En, ?Em| |done].
  intros HL; split; [auto|]. unfold inside; rewrite En, (logLength_ext rf rf') by done. apply Hi; auto.
Qed.

Lemma singleAppendReply_replied n i args reply rf :
  wf_log rf -> peers rf = n -> sized n rf -> 0 <= i < Z.of_nat n -> 0 <= snapIndex rf -> (state rf = Leader -> inside rf) ->
  backsUp args reply ->
  (state rf = Leader -> currentTerm rf = ae_Term args -> 0 <= PrevLogIndex args /\ PrevLogIndex args + len (Entries args) < logLength rf) ->
  exists rf' retry, singleAppendReply i args (Some reply) rf = Some (rf', retry) /\ replied n rf rf'.
Proof.
  intros Hwf Hpe Hsz Hi Hs Hin Hb Hend; unfold singleAppendReply. pose proof (replied_same n rf) as Hsame.
  case_if; [eexists _, _; split; [done|]; by apply Hsame|].
  destruct (negb (currentTerm rf =? ae_Term args)) eqn:E1; simpl; [eexists _, _; split; [done|]; by apply Hsame|].
  destruct (bool_decide (state rf = Leader)) eqn:E2; simpl; [|eexists _, _; split; [done|]; by apply Hsame].
  zbool. destruct (Hend E2 E1) as [Hp Hlt]. pose proof (len_nonneg (Entries args)) as Hle. destruct Hsz as [Hn Hm].
  destruct (Success reply) eqn:ES; simpl.
  - rewrite !upd_ok by lia; cbn [mbind option_bind].
    match goal with |- context [updateCommitIndex ?r] => set (rf1 := r) end.
    assert (Hm1 : len (matchIndex rf1) = Z.of_nat (peers rf1)) by (unfold rf1, len; simpl; rewrite length_insert; unfold len in Hm; lia).
    destruct (updateCommitIndex_result rf1 Hwf Hm1) as (rf2 & -> & Hres).
    exists rf2, false; split; [done|].
    assert (Ef : (nextIndex rf2, matchIndex rf2, dead rf2, log rf2, snapIndex rf2, state rf2)
      = (nextIndex rf1, matchIndex rf1, dead rf1, log rf1, snapIndex rf1, state rf1)) by (destruct Hres as [[-> _]|[-> _]]; done).
    injection Ef as F1 F2 F3 F4 F5 F6. split; [|intros _; split; [done|]|done].
    + split; rewrite ?F1, ?F2; unfold rf1, len; simpl; rewrite length_insert; unfold len in Hn, Hm; lia.
    + unfold inside; rewrite F1, (logLength_ext rf rf2) by done. unfold rf1; simpl.
      apply (inside_upd rf i (PrevLogIndex args + len (Entries args) + 1)); [by apply Hin|apply upd_ok; lia|lia].
  - destruct (stepBack_inside n i (XTerm reply) (XIndex reply) (XLen reply) rf) as (ni & l & -> & Hu & Hni); try done.
    { destruct (Hb ES) as [|[|]]; [lia|by left|right; lia]. }
    exists (set_nextIndex l rf), true; split; [done|]. split; [|intros _; split; [done|]|done].
    + split; simpl; [by rewrite (upd_len _ _ _ _ Hu)|done].
    + eapply inside_upd; eauto.
Qed.

Lemma helpInstallReply_replied n i args reply rf :
  wf_log rf -> sized n rf -> 0 <= i < Z.of_nat n -> (state rf = Leader -> inside rf) -> LastIncludedIndex args <= snapIndex rf ->
  exists rf', helpInstallReply i args (Some reply) rf = Some rf' /\ replied n rf rf'.
Proof.
  intros Hwf Hsz Hi Hin Hle; unfold helpInstallReply. case_if; [eexists; split; [done|]; by apply replied_same|].
  destruct Hsz as [Hn Hm]. rewrite !upd_ok by lia; cbn [mbind option_bind]. eexists; split; [done|]. split; [|intros HL; split; [done|]|done].
  - split; unfold len in *; simpl; rewrite length_insert; lia.
  - apply (inside_upd rf i (LastIncludedIndex args + 1)); [by apply Hin|apply upd_ok; lia|]. unfold wf_log, logLength in *; lia.
Qed.
End steady.

(** ** The tables of the cluster *)

Section slots.
Context {Cmd : Type} `{!GobType Cmd}.
Implicit Types (s : cluster Cmd) (rf : Raft Cmd) (p : rep Cmd) (i j : Z) (r : nat).
Implicit Types (V : votes) (H : tree Cmd) (LL : leaderLogs Cmd) (A : Z -> Z -> Z -> Prop).
Context (n : nat).

(** A goroutine of peer [i] calls peer [j]. *)
Definition works s i j : Prop :=
  exists r p, reps s !! r = Some p /\ rp_owner p = i /\ rp_server p = j /\ rp_live p = true.

Record slots s : Prop := {
  sl_alive : forall i rf, idx (nodes s) i = Some rf -> dead rf = false;
  sl_sized : forall i rf, idx (nodes s) i = Some rf -> state rf = Leader \/ (exists j, works s i j) -> sized n rf;
  sl_inside : forall i rf, idx (nodes s) i = Some rf -> state rf = Leader -> inside rf;
  sl_range : forall r p, reps s !! r = Some p -> 0 <= rp_owner p < Z.of_nat n /\ 0 <= rp_server p < Z.of_nat n;
  sl_reply : forall r p args reply, reps s !! r = Some p -> rp_stage p = RAppendReplied args reply -> backsUp args reply;
  sl_install : forall r p args rf, reps s !! r = Some p -> rp_live p = true -> underWay p = Some args ->
    idx (nodes s) (rp_owner p) = Some rf -> LastIncludedIndex args <= snapIndex rf;
  sl_works : forall i j rf, idx (nodes s) i = Some rf -> state rf = Leader -> 0 <= j < Z.of_nat n -> j <> i -> works s i j;
}.

Lemma works_reps s s' i j : reps s' = reps s -> works s' i j <-> works s i j.
Proof. unfold works; by intros ->. Qed.

Lemma slots_ext s s' : nodes s' = nodes s -> reps s' = reps s -> slots s -> slots s'.
Proof. intros En Er []; split; rewrite ?En, ?Er; unfold works in *; rewrite ?Er; done. Qed.

Lemma slots_node s s' i rf rf' :
  slots s -> idx (nodes s) i = Some rf -> upd (nodes s) i rf' = Some (nodes s') -> reps s' = reps s ->
  dead rf' = dead rf -> (sized n rf -> sized n rf') -> snapIndex rf <= snapIndex rf' ->
  (state rf' = Leader -> state rf = Leader /\ (inside rf -> inside rf')) -> slots s'.
Proof.
  intros [S1 S2 S3 S4 S5 S6 S7] Hi Hu Er Hd Hsz Hsn HL.
  assert (Hat : forall j rfj, idx (nodes s') j = Some rfj -> (j = i /\ rfj = rf') \/ (j <> i /\ idx (nodes s) j = Some rfj)).
  { intros j rfj; destruct (decide (i = j)) as [->|Hne]; [rewrite (idx_upd_eq _ _ _ _ Hu); intros [= ->]; by left|].
    rewrite (idx_upd_ne _ _ _ _ _ Hu Hne); by right. }
  split; unfold works; rewrite ?Er; try done.
  - intros j rfj [[-> ->]|[_ Hj]]%Hat; [rewrite Hd|]; eauto.
  - intros j rfj [[-> ->]|[_ Hj]]%Hat Hor; [|by eapply S2]. apply Hsz, (S2 i rf Hi). destruct Hor as [HS|]; [left; by apply HL|by right].
  - intros j rfj [[-> ->]|[_ Hj]]%Hat HS; [|eauto]. destruct (HL HS) as [HS' Hin]. eapply Hin, S3; eauto.
  - intros r p args rfj Hr Hl Ha [[E ->]|[_ Hj]]%Hat; [|eauto]. etrans; [|exact Hsn]. eapply (S6 r p); try done. by rewrite E.
  - intros j k rfj [[-> ->]|[_ Hj]]%Hat HS; [|by eapply S7]. eapply S7; [done|by apply HL].
Qed.

Lemma slots_steady s s' i rf rf' :
  slots s -> idx (nodes s) i = Some rf -> upd (nodes s) i rf' = Some (nodes s') -> reps s' = reps s -> steady rf rf' -> slots s'.
Proof.
  intros HS Hi Hu Er [Ht Hsn HL]. pose proof Ht as [= En Em Ed]. eapply slots_node; try done.
  - unfold sized; by rewrite En, Em.
  - intros HS'; destruct (HL HS') as [? Hle]; split; [done|]. unfold inside; rewrite En. intros Hin j ni Hj; specialize (Hin j ni Hj); lia.
Qed.

Lemma slots_replied s s' i rf rf' :
  slots s -> idx (nodes s) i = Some rf -> upd (nodes s) i rf' = Some (nodes s') -> reps s' = reps s -> replied n rf rf' -> slots s'.
Proof.
  intros HS Hi Hu Er [Hsz Hin (Hd & Hl & Hsn)]. eapply slots_node; try done; [by rewrite Hsn|].
  intros HS'; destruct (Hin HS'); by split.
Qed.

Lemma lookup_rstage r st s r' p' :
  reps (set_rstage r st s) !! r' = Some p' -> exists p, reps s !! r' = Some p /\ rp_owner p' = rp_owner p /\ rp_server p' = rp_server p
    /\ rp_live p' = rp_live p /\ ((r' = r /\ rp_stage p' = st) \/ (r' <> r /\ p' = p)).
Proof. intros [[? ?]|[-> (p & ? & ->)]]%lookup_set_rstage; eauto 10. Qed.

Lemma works_rstage r st s i j : works s i j -> works (set_rstage r st s) i j.
Proof.
  intros (r' & p & Hr & Ho & Hs & Hl). destruct (decide (r = r')) as [<-|Hne].
  - exists r; eexists; simpl; rewrite list_lookup_alter_eq, Hr; simpl; split; [done|]. done.
  - exists r', p; simpl; by rewrite list_lookup_alter_ne.
Qed.

Lemma slots_rstage r st s :
  slots s ->
  (forall p args reply, reps s !! r = Some p -> st = RAppendReplied args reply -> backsUp args reply) ->
  (forall p args rf, reps s !! r = Some p -> rp_live p = true -> underWay (mkRep (rp_owner p) (rp_server p) st true) = Some args ->
     idx (nodes s) (rp_owner p) = Some rf -> LastIncludedIndex args <= snapIndex rf) ->
  slots (set_rstage r st s).
Proof.
  intros [S1 S2 S3 S4 S5 S6 S7] Hrep Hins; split; try done.
  - intros i rf Hi [HS|[j (r' & p' & (p & Hr & Ho & Hsv & Hl & _)%lookup_rstage & ? & ? & ?)]]; [by eapply S2; eauto|].
    eapply S2; [done|right]. exists (rp_server p), r', p; split_and!; congruence.
  - intros r' p' (p & Hr & -> & -> & _)%lookup_rstage. eauto.
  - intros r' p' args reply (p & Hr & _ & _ & _ & [[-> ->]|[_ ->]])%lookup_rstage; eauto.
  - intros r' p' args rf (p & Hr & -> & _ & -> & [[-> Hst]|[_ ->]])%lookup_rstage; [|eauto].
    intros Hl Ha. eapply Hins; try done. unfold underWay in *; simpl. by rewrite <- Hst.
  - intros i j rf Hi HS Hj Hne; apply works_rstage. by eapply S7.
Qed.

Lemma slots_ridle r s : slots s -> slots (set_rstage r RIdle s).
Proof. intros HS; by apply slots_rstage. Qed.
End slots.

(** ** No event panics *)

Section running.
Context {Cmd : Type} `{!GobType Cmd}.
Implicit Types (s : cluster Cmd) (rf : Raft Cmd) (p : rep Cmd) (i j : Z) (r c : nat).
Implicit Types (V : votes) (H : tree Cmd) (LL : leaderLogs Cmd) (A : Z -> Z -> Z -> Prop).
Context (n : nat).

(** The goroutine an event speaks of is there and has come to that point. *)
Definition possible s (ev : event Cmd) : bool :=
  match ev with
  | ETick i _ | EStart i _ | ESnapshot i _ _ | EKick i | ECrash i _ => (0 <=? i) && (i <? len (nodes s))
  | EBuild c => match vcalls s !! c with Some (mkVcall _ _ _ VStart live) => live | _ => false end
  | EVote c _ => match vcalls s !! c with Some (mkVcall _ _ _ (VSent _) _) => true | _ => false end
  | EVoteReply c => match vcalls s !! c with Some (mkVcall _ _ _ (VReplied _ _) live) => live | _ => false end
  | EVoteLost c =>
      match vcalls s !! c with Some (mkVcall _ _ _ (VSent _ | VReplied _ _) _) => true | _ => false end
  | ERepSend r => match reps s !! r with Some (mkRep _ _ RIdle live) => live | _ => false end
  | ERepHandle r _ => match reps s !! r with Some (mkRep _ _ (RAppend _ | RInstall _) _) => true | _ => false end
  | ERepReply r =>
      match reps s !! r with Some (mkRep _ _ (RAppendReplied _ _ | RInstallReplied _ _) live) => live | _ => false end
  | ERepLost r => match reps s !! r with Some (mkRep _ _ RIdle _) | None => false | Some (mkRep _ _ _ live) => live end
  end.

Record healthy V H LL A PP s : Prop := {
  he_inv : inv n V s;
  he_log : winv n V H LL A PP s;
  he_slots : slots n s;
}.

Record sane_peer i rf : Prop := {
  sp_range : 0 <= i < Z.of_nat n;
  sp_me : me rf = i;
  sp_peers : peers rf = n;
  sp_log : wf_log rf;
  sp_snap : 0 <= snapIndex rf;
  sp_commit : commitIndex rf < logLength rf;
  sp_durable : durable rf;
}.

Lemma healthy_peer V H LL A PP s i rf : healthy V H LL A PP s -> idx (nodes s) i = Some rf -> sane_peer i rf.
Proof.
  intros [[HN _] HI HS] Hi. destruct (ni_node _ _ _ HN _ _ Hi) as (? & ? & ?). pose proof (idx_Some_range _ _ _ Hi) as Hr.
  rewrite (ni_len _ _ _ HN) in Hr. destruct (winv_node n V H LL A PP s i rf HI Hi) as (P & _ & _ & Hv & Hok).
  split; try done; [|by apply Hv|by eapply commit_in_log].
  destruct (vw_log _ _ _ _ _ Hv) as (e0 & El & _). unfold wf_log; rewrite El, len_cons. pose proof (len_nonneg (drop (Z.to_nat (snapIndex rf + 1)) P)); lia.
Qed.

Lemma healthy_wf V H LL A PP s i rf : healthy V H LL A PP s -> idx (nodes s) i = Some rf -> wf_log rf.
Proof. intros HS Hi. apply (sp_log i), (healthy_peer V H LL A PP s); done. Qed.

Lemma healthy_at V H LL A PP s i : healthy V H LL A PP s -> 0 <= i < Z.of_nat n -> exists rf, idx (nodes s) i = Some rf.
Proof. intros [[HN _] _ _] Hi. apply idx_in_range. by rewrite (ni_len _ _ _ HN). Qed.

Lemma set_node_ok s i rf rf' : idx (nodes s) i = Some rf ->
  exists s', set_node i rf' s = Some s' /\ upd (nodes s) i rf' = Some (nodes s') /\ rounds s' = rounds s /\ vcalls s' = vcalls s /\ reps s' = reps s.
Proof.
  intros Hi; apply idx_Some_range in Hi. unfold set_node. rewrite upd_ok by done; cbn [mbind option_bind].
  by eexists.
Qed.

(** The peer moves on by a step that leaves its tables alone. *)
Lemma runs_steady s i rf rf' :
  slots n s -> idx (nodes s) i = Some rf -> steady rf rf' ->
  exists s', set_node i rf' s = Some s' /\ slots n s' /\ rounds s' = rounds s /\ vcalls s' = vcalls s /\ reps s' = reps s.
Proof.
  intros HS Hi Hst. destruct (set_node_ok s i rf rf' Hi) as (s' & Hset & Hu & ? & ? & Er). exists s'; split_and!; try done.
  by eapply slots_steady.
Qed.

Lemma msg_inside V H LL A PP s args i rf :
  healthy V H LL A PP s -> msg_ok n H LL A (wholes PP s) args i -> idx (nodes s) i = Some rf -> state rf = Leader ->
  currentTerm rf = ae_Term args -> 0 <= PrevLogIndex args /\ PrevLogIndex args + len (Entries args) < logLength rf.
Proof.
  intros [_ HI _] (M & _ & _ & Hp & _ & He & _ & Hlen) Hi HS Ht. destruct (winv_node n V H LL A PP s i rf HI Hi) as (P & _ & Hw & Hv & _).
  specialize (Hlen _ Hw HS Ht). simpl in Hlen. rewrite (view_len n H A P rf Hv). rewrite He, len_drop. lia.
Qed.

Definition goes s (ev : event Cmd) : Prop := exists s', exec s ev = Some s' /\ slots n s'.

Lemma goes_tick V H LL A PP s i now : healthy V H LL A PP s -> possible s (ETick i now) = true -> goes s (ETick i now).
Proof.
  intros HS Hp; simpl in Hp; zbool. destruct (healthy_at V H LL A PP s i HS) as [rf Hi]; [rewrite (ni_len _ _ _ (proj1 (he_inv _ _ _ _ _ _ HS))) in *; lia|].
  unfold goes, exec, execTick. rewrite Hi; cbn [mbind option_bind]. unfold killed; rewrite (sl_alive _ _ (he_slots _ _ _ _ _ _ HS) i rf Hi).
  pose proof (steady_tick now rf) as Hst. destruct (tick now rf) as [rf' started].
  destruct (runs_steady s i rf rf' (he_slots _ _ _ _ _ _ HS) Hi Hst) as (s1 & -> & HS1 & _ & _ & Er). cbn [mbind option_bind].
  eexists; split; [done|]. destruct started; [|done]. by apply (slots_ext n s1).
Qed.

Lemma opinionArgs_ok rf : wf_log rf -> exists args, opinionArgs rf = Some args.
Proof. intros Hwf; unfold opinionArgs. destruct (wf_log_last rf Hwf) as [e ->]. simpl; eauto. Qed.

Lemma goes_build V H LL A PP s c : healthy V H LL A PP s -> possible s (EBuild c) = true -> goes s (EBuild c).
Proof.
  intros HS Hp; simpl in Hp. destruct (vcalls s !! c) as [v|] eqn:Hv; [|done]. destruct (ci_range _ _ _ (proj2 (he_inv _ _ _ _ _ _ HS)) c v Hv) as (Ho & _).
  destruct v as [o rd sv st live]; simpl in *. destruct st; try done. subst.
  destruct (healthy_at V H LL A PP s o HS Ho) as [rf Hi]. unfold goes, exec, execBuild. rewrite Hv; simpl. rewrite Hi; simpl.
  destruct (opinionArgs_ok rf) as [args ->]; [by eapply healthy_wf|]. simpl.
  eexists; split; [done|]. apply (slots_ext n s); [done|done|by eapply he_slots].
Qed.

Lemma RequestVote_ok now args rf : wf_log rf -> exists rf' reply, RequestVote now args rf = Some (rf', reply).
Proof.
  intros Hwf; unfold RequestVote. set (rf1 := if rv_Term args >? currentTerm rf then newGen (rv_Term args) rf else rf).
  assert (H1 : wf_log rf1) by (unfold rf1; by case_if). case_if; [eauto|].
  unfold tryVotingFor. destruct (wf_log_last rf1 H1) as [e ->]. simpl. match goal with |- context [if ?b then Some _ else Some _] => destruct b end; simpl; eauto.
Qed.

Lemma goes_vote V H LL A PP s c now : healthy V H LL A PP s -> possible s (EVote c now) = true -> goes s (EVote c now).
Proof.
  intros HS Hp; simpl in Hp. destruct (vcalls s !! c) as [v|] eqn:Hv; [|done]. destruct (ci_range _ _ _ (proj2 (he_inv _ _ _ _ _ _ HS)) c v Hv) as (_ & Hsv & _).
  destruct v as [o rd sv st live]; simpl in *. destruct st as [|args| |]; try done.
  destruct (healthy_at V H LL A PP s sv HS Hsv) as [rf Hi]. unfold goes, exec, execVote. rewrite Hv; simpl. rewrite Hi; simpl.
  destruct (RequestVote_ok now args rf) as (rf' & reply & HR); [by eapply healthy_wf|]. rewrite HR; simpl.
  destruct (runs_steady s sv rf rf') as (s1 & -> & HS1 & _ & _ & Er); [by eapply he_slots|done|by eapply steady_RequestVote|]. simpl.
  eexists; split; [done|]. by apply (slots_ext n s1).
Qed.

Lemma works_app s s' l i j : reps s' = reps s ++ l -> works s' i j <-> works s i j \/ exists p, p ∈ l /\ rp_owner p = i /\ rp_server p = j /\ rp_live p = true.
Proof.
  intros Er; unfold works; rewrite Er; split.
  - intros (r & p & [Hr|[_ Hr]]%lookup_app_Some & Hp); [left; eauto|right; exists p; split; [by eapply list_elem_of_lookup_2|done]].
  - intros [(r & p & Hr & Hp)|(p & [k Hk]%list_elem_of_lookup & Hp)]; [exists r, p; split; [by apply lookup_app_l_Some|done]|].
    exists (length (reps s) + k)%nat, p; split; [|done]. by rewrite lookup_app_r, Nat.add_sub_swap, Nat.sub_diag by lia.
Qed.

(** A new leader makes its tables and starts its replicators. *)
Lemma slots_elected s s' i rf :
  slots n s -> idx (nodes s) i = Some rf -> sane_peer i rf -> upd (nodes s) i (becomeLeader rf).1 = Some (nodes s') ->
  reps s' = reps s ++ ((fun j => mkRep i j RIdle true) <$> (becomeLeader rf).2) -> slots n s'.
Proof.
  intros HS Hi [Hr Hme Hpe Hwf Hsn _ _] Hu Er.
  set (l := (fun j => mkRep i j RIdle true : rep Cmd) <$> (becomeLeader rf).2) in Er.
  assert (Hl : forall p, p ∈ l <-> exists j, p = mkRep i j RIdle true /\ j <> i /\ 0 <= j < Z.of_nat n).
  { intros p; unfold l; rewrite list_elem_of_fmap. simpl. setoid_rewrite list_elem_of_filter. setoid_rewrite elem_of_seqZ. rewrite Hme, Hpe. naive_solver. }
  set (s1 := mkCluster (nodes s') (rounds s) (vcalls s) (reps s)).
  destruct HS as [S1 S2 S3 S4 S5 S6 S7].
  assert (Hat : forall j rfj, idx (nodes s') j = Some rfj -> (j = i /\ rfj = (becomeLeader rf).1) \/ (j <> i /\ idx (nodes s) j = Some rfj)).
  { intros j rfj; destruct (decide (i = j)) as [->|Hne]; [rewrite (idx_upd_eq _ _ _ _ Hu); intros [= <-]; by left|].
    rewrite (idx_upd_ne _ _ _ _ _ Hu Hne); by right. }
  assert (Hrep : forall r p, reps s' !! r = Some p -> reps s !! r = Some p \/ p ∈ l).
  { rewrite Er; intros r p [|[_ ?]]%lookup_app_Some; [by left|right; by eapply list_elem_of_lookup_2]. }
  split.
  - intros j rfj [[-> ->]|[_ Hj]]%Hat; [apply (S1 i rf Hi)|eauto].
  - intros j rfj [[-> ->]|[Hne Hj]]%Hat Hor.
    + unfold sized, len; simpl. rewrite !length_fmap, length_seqZ. lia.
    + eapply S2; [done|]. destruct Hor as [|[k Hk]]; [by left|right; exists k]. apply (works_app s s' l _ _ Er) in Hk as [|(p & (k' & -> & _)%Hl & E & _)]; [done|simpl in E; congruence].
  - intros j rfj [[-> ->]|[_ Hj]]%Hat HS; [|eauto]. intros k ni; simpl. rewrite idx_fmap. intros (x & _ & ->)%fmap_Some.
    unfold logLength, wf_log in *; simpl; case_if; lia.
  - intros r p [Hp|(k & -> & _ & ?)%Hl]%Hrep; [eauto|done].
  - intros r p args reply [Hp|(k & -> & _ & ?)%Hl]%Hrep; [eauto|done].
  - intros r p args rfj [Hp|(k & -> & _ & ?)%Hl]%Hrep Hlv Ha; [|done]. intros [[E ->]|[_ Hj]]%Hat; [|eauto].
    apply (S6 r p args rf); try done. by rewrite E.
  - intros j k rfj [[-> ->]|[_ Hj]]%Hat HS Hk Hne; apply (works_app s s' l _ _ Er); [right|left; by eapply S7].
    exists (mkRep i k RIdle true); split; [|done]. apply Hl; eauto.
Qed.

Lemma goes_vote_reply V H LL A PP s c : healthy V H LL A PP s -> possible s (EVoteReply c) = true -> goes s (EVoteReply c).
Proof.
  intros HS Hp; simpl in Hp. destruct (vcalls s !! c) as [v|] eqn:Hv; [|done].
  destruct (ci_range _ _ _ (proj2 (he_inv _ _ _ _ _ _ HS)) c v Hv) as (Ho & _ & _ & rd & Hrd & _).
  destruct v as [o rn sv st live]; simpl in *. destruct st as [| |args reply|]; try done. subst.
  destruct (healthy_at V H LL A PP s o HS Ho) as [rf Hi]. unfold goes, exec, execVoteReply. rewrite Hv; simpl. rewrite Hi; simpl. rewrite Hrd; simpl.
  destruct (opinionReply args reply (rd_supporter rd) rf) as [[rf' m] sp] eqn:EO.
  destruct (set_node_ok s o rf rf' Hi) as (s1 & -> & Hu & _ & _ & Er). simpl.
  eexists; split; [done|]. destruct (steady_opinionReply _ _ _ _ _ _ _ EO) as [[Hst ->]|E].
  - apply (slots_ext n s1); [done|simpl; by rewrite app_nil_r|]. eapply slots_steady; [by eapply he_slots|exact Hi|exact Hu|done|done].
  - eapply (slots_elected s _ o rf); [by eapply he_slots|done|by eapply healthy_peer| |]; destruct (becomeLeader rf) as [rf1 sp1]; injection E as -> ->; [exact Hu|simpl; by rewrite Er].
Qed.

Lemma goes_vote_lost V H LL A PP s c : healthy V H LL A PP s -> possible s (EVoteLost c) = true -> goes s (EVoteLost c).
Proof.
  intros HS Hp; simpl in Hp. unfold goes; simpl. destruct (vcalls s !! c) as [[o rn sv st live]|]; [|done]; simpl.
  destruct st; try done; (eexists; split; [done|]); (apply (slots_ext n s); [done|done|by eapply he_slots]).
Qed.

(** What a [replicator] of a leader sends. *)
Lemma singleAppendSend_ok i j rf :
  sane_peer i rf -> (state rf = Leader -> sized n rf /\ inside rf) -> 0 <= j < Z.of_nat n -> exists d, singleAppendSend j rf = Some d.
Proof.
  intros [_ _ _ Hwf Hs _ _] HL Hj; unfold singleAppendSend. destruct (bool_decide (state rf = Leader)) eqn:E; simpl; [|eauto].
  zbool. destruct (HL E) as [[Hn _] Hin]. destruct (idx_in_range (nextIndex rf) j) as [ni Hni]; [lia|]. rewrite Hni; simpl.
  specialize (Hin j ni Hni). case_if; [eauto|]. destruct (get_in_range rf (ni - 1)) as [e ->]; [lia|]. simpl.
  unfold entriesFrom; rewrite slice_from_ok by (unfold logLength in *; lia). simpl; eauto.
Qed.

Lemma helpInstallArgs_ok rf : wf_log rf -> exists args, helpInstallArgs rf = Some args /\ LastIncludedIndex args = snapIndex rf.
Proof.
  intros Hwf; unfold helpInstallArgs, getSnap. destruct (idx_in_range (log rf) 0) as [e ->]; [unfold wf_log in Hwf; lia|]. simpl; by eexists.
Qed.

Lemma goes_rep_send V H LL A PP s r : healthy V H LL A PP s -> possible s (ERepSend r) = true -> goes s (ERepSend r).
Proof.
  intros HS Hp; simpl in Hp. pose proof (he_slots _ _ _ _ _ _ HS) as Hsl. destruct (reps s !! r) as [p|] eqn:Hr; [|done].
  destruct (sl_range _ _ Hsl r p Hr) as [Ho Hsv]. destruct p as [o sv st live]; simpl in *. destruct st; try done. subst.
  destruct (healthy_at V H LL A PP s o HS Ho) as [rf Hi]. pose proof (healthy_peer V H LL A PP s o rf HS Hi) as Hpe.
  unfold goes, exec, execRepSend. rewrite Hr; simpl. rewrite Hi; simpl. unfold killed; rewrite (sl_alive _ _ Hsl o rf Hi).
  destruct (singleAppendSend_ok o sv rf Hpe) as [d ->]; [|done|].
  { intros HL; split; [by eapply (sl_sized _ _ Hsl); eauto|by eapply (sl_inside _ _ Hsl)]. }
  simpl. destruct d as [| |args]; [eauto| |].
  - destruct (helpInstallArgs_ok rf (sp_log _ _ Hpe)) as (args & -> & Ha); simpl. eexists; split; [done|].
    apply slots_rstage; [done|done|]. intros p args' rf1; rewrite Hr; intros [= <-] _ [= <-]; simpl. rewrite Hi; intros [= <-]; lia.
  - eexists; split; [done|]. by apply slots_rstage.
Qed.

Lemma InstallSnapshot_ok now args rf : wf_log rf -> exists rf' reply msg, InstallSnapshot now args rf = Some (rf', reply, msg).
Proof.
  intros Hwf; unfold InstallSnapshot. case_if; [eauto|].
  set (rf1 := touched now (if is_Term args >? currentTerm rf then newGen (is_Term args) rf else rf)). case_if; [eauto|].
  assert (Hk : exists kept, (if LastIncludedIndex args <? logLength rf1 - 1 then entriesFrom rf1 (LastIncludedIndex args + 1) else Some []) = Some kept).
  { case_if; [|eauto]. unfold entriesFrom; rewrite slice_from_ok by (unfold logLength in *; lia). eauto. }
  destruct Hk as [kept ->]; cbn [mbind option_bind]. unfold setSnap; simpl. case_if; eauto.
Qed.

Lemma goes_rep_handle V H LL A PP s r now : healthy V H LL A PP s -> possible s (ERepHandle r now) = true -> goes s (ERepHandle r now).
Proof.
  intros HS Hp; simpl in Hp. pose proof (he_slots _ _ _ _ _ _ HS) as Hsl. destruct (reps s !! r) as [p|] eqn:Hr; [|done].
  destruct (sl_range _ _ Hsl r p Hr) as [Ho Hsv]. destruct (winv_rep n V H LL A PP s r p (he_log _ _ _ _ _ _ HS) Hr) as [Hne Hmsg].
  destruct p as [o sv st live]; simpl in *. destruct (healthy_at V H LL A PP s sv HS Hsv) as [rf Hi].
  pose proof (healthy_wf V H LL A PP s sv rf HS Hi) as Hwf. unfold goes, exec, execRepHandle. rewrite Hr; simpl.
  destruct st as [|args| |args|]; try done; rewrite Hi; simpl.
  - destruct (AppendEntries_outcome now args rf Hwf) as (rf' & reply & HA & _). rewrite HA; simpl.
    destruct (runs_steady s sv rf rf' Hsl Hi) as (s1 & -> & HS1 & _ & _ & Er).
    { eapply steady_AppendEntries; [|exact HA]. intros HL Et. destruct Hmsg as (M & _ & [L HLT] & _).
      destruct (winv_node n V H LL A PP s sv rf (he_log _ _ _ _ _ _ HS) Hi) as (P & _ & _ & _ & Hok).
      destruct (ld_log _ _ _ _ _ _ (no_leader _ _ _ _ _ _ Hok HL)) as (L' & HL' & _). simpl in HL'. congruence. }
    simpl. eexists; split; [done|]. apply slots_rstage; [done| |done]. intros p args' reply' _ [= <- <-]. by eapply AppendEntries_backsUp.
  - destruct (InstallSnapshot_ok now args rf Hwf) as (rf' & reply & msg & HR). rewrite HR; simpl.
    destruct (runs_steady s sv rf rf' Hsl Hi) as (s1 & -> & HS1 & _ & _ & Er); [by eapply steady_InstallSnapshot|].
    simpl. eexists; split; [done|]. apply slots_rstage; [done|done|]. intros p args' rf1; rewrite Er, Hr; intros [= <-] Hlv [= <-] Hi1; simpl in *.
    eapply (sl_install _ _ HS1 r); [by rewrite Er|done|done|done].
Qed.

Lemma goes_rep_reply V H LL A PP s r : healthy V H LL A PP s -> possible s (ERepReply r) = true -> goes s (ERepReply r).
Proof.
  intros HS Hp; simpl in Hp. pose proof (he_slots _ _ _ _ _ _ HS) as Hsl. destruct (reps s !! r) as [p|] eqn:Hr; [|done].
  destruct (sl_range _ _ Hsl r p Hr) as [Ho Hsv]. destruct (winv_rep n V H LL A PP s r p (he_log _ _ _ _ _ _ HS) Hr) as [Hne Hmsg].
  destruct (healthy_at V H LL A PP s _ HS Ho) as [rf Hi]. pose proof (healthy_peer V H LL A PP s _ rf HS Hi) as Hpe.
  assert (Hlv : rp_live p = true) by (destruct p as [o sv [] live]; simpl in *; done).
  assert (Hsz : sized n rf) by (eapply (sl_sized _ _ Hsl); [exact Hi|]; right; exists (rp_server p), r, p; done).
  pose proof (sl_inside _ _ Hsl _ _ Hi) as Hin. unfold goes, exec, execRepReply. rewrite Hr; cbn [mbind option_bind]. rewrite Hlv, Hi; cbn [mbind option_bind].
  assert (Hstep : exists rf', match rp_stage p with
         | RAppendReplied args reply => fst <$> singleAppendReply (rp_server p) args (Some reply) rf
         | RInstallReplied args reply => helpInstallReply (rp_server p) args (Some reply) rf
         | _ => None end = Some rf' /\ replied n rf rf').
  { destruct (rp_stage p) as [| |args reply| |args reply] eqn:Est; try by destruct p as [? ? ? ?]; simpl in *; subst.
    - destruct Hmsg as [Hmsg _]. destruct (singleAppendReply_replied n (rp_server p) args reply rf) as (rf' & retry & -> & Hrep); try done; try apply Hpe.
      + by apply (sl_reply _ _ Hsl r p).
      + by eapply msg_inside.
      + simpl; eauto.
    - apply helpInstallReply_replied; try done; [apply Hpe|]. eapply (sl_install _ _ Hsl r p); try done. unfold underWay; by rewrite Est. }
  destruct Hstep as (rf' & -> & Hrep). simpl.
  destruct (set_node_ok s (rp_owner p) rf rf' Hi) as (s1 & -> & Hu & _ & _ & Er). simpl.
  eexists; split; [done|]. apply slots_ridle. by eapply slots_replied.
Qed.

Lemma goes_rep_lost V H LL A PP s r : healthy V H LL A PP s -> possible s (ERepLost r) = true -> goes s (ERepLost r).
Proof.
  intros HS Hp; simpl in Hp. pose proof (he_slots _ _ _ _ _ _ HS) as Hsl. destruct (reps s !! r) as [p|] eqn:Hr; [|done].
  destruct (sl_range _ _ Hsl r p Hr) as [Ho _]. destruct p as [o sv st live]; simpl in *. destruct (healthy_at V H LL A PP s o HS Ho) as [rf Hi].
  unfold goes, exec, execRepLost. rewrite Hr; cbn [mbind option_bind rp_live rp_owner rp_stage rp_server].
  assert (live = true) as -> by (by destruct st). rewrite Hi; cbn [mbind option_bind].
  destruct (runs_steady s o rf rf Hsl Hi (steady_refl rf)) as (s1 & Hset & HS1 & _).
  destruct st; try done; simpl; rewrite Hset; simpl; (eexists; split; [done|by apply slots_ridle]).
Qed.

Lemma goes_node V H LL A PP s ev i (f : Raft Cmd -> option (Raft Cmd)) :
  healthy V H LL A PP s -> 0 <= i < len (nodes s) -> exec s ev = (rf ← idx (nodes s) i; rf ← f rf; set_node i rf s) ->
  (forall rf, idx (nodes s) i = Some rf -> sane_peer i rf -> exists rf', f rf = Some rf' /\ steady rf rf') -> goes s ev.
Proof.
  intros HS Hi E Hf. destruct (idx_in_range _ _ Hi) as [rf Hrf]. unfold goes; rewrite E, Hrf; cbn [mbind option_bind].
  destruct (Hf rf Hrf) as (rf' & -> & Hst); [by eapply healthy_peer|]. cbn [mbind option_bind].
  destruct (runs_steady s i rf rf' (he_slots _ _ _ _ _ _ HS) Hrf Hst) as (s1 & -> & HS1 & _). eauto.
Qed.

(** The goroutines of a crashed peer are gone with its tables. *)
Lemma slots_crash s s1 i rf rf' now :
  slots n s -> idx (nodes s) i = Some rf -> restart now rf = Some rf' -> durable rf -> upd (nodes s) i rf' = Some (nodes s1) ->
  reps s1 = reps s -> slots n (orphan i s1).
Proof.
  intros [S1 S2 S3 S4 S5 S6 S7] Hi HR Hd Hu Er.
  assert (HF : state rf' = Follower /\ dead rf' = false).
  { destruct (restart_durable now rf Hd) as (rf2 & HR2 & _ & _ & _ & _ & ? & _). rewrite HR in HR2; injection HR2 as <-. split; [done|].
    unfold restart, Make, readPersist in HR. destruct (ReadRaftState (Copy (persister rf))); inv_opt; [done|]. repeat (destruct x as [? ?] || destruct x0 as [? ?] || destruct x1 as [? ?] || destruct x2 as [? ?]; inv_opt). done. }
  destruct HF as [HF Hal].
  assert (Hat : forall j rfj, idx (nodes s1) j = Some rfj -> (j = i /\ rfj = rf') \/ (j <> i /\ idx (nodes s) j = Some rfj)).
  { intros j rfj; destruct (decide (i = j)) as [->|Hne]; [rewrite (idx_upd_eq _ _ _ _ Hu); intros [= <-]; by left|].
    rewrite (idx_upd_ne _ _ _ _ _ Hu Hne); by right. }
  assert (Hrep : forall r p, reps (orphan i s1) !! r = Some p -> exists p0, reps s !! r = Some p0 /\ rp_owner p = rp_owner p0 /\ rp_server p = rp_server p0
      /\ rp_stage p = rp_stage p0 /\ (rp_live p = true -> rp_live p0 = true /\ rp_owner p0 <> i)).
  { simpl; rewrite Er; intros r p (p0 & -> & Hp)%list_lookup_fmap_Some. exists p0; split_and!; try done. simpl.
    intros [? Hne]%andb_true_iff; split; [done|]. zbool; done. }
  split; change (nodes (orphan i s1)) with (nodes s1).
  - intros j rfj [[-> ->]|[_ Hj]]%Hat; eauto.
  - intros j rfj [[-> ->]|[_ Hj]]%Hat Hor.
    + exfalso; destruct Hor as [HS|[k (r & p & Hp & Ho & _ & Hl)]]; [congruence|]. destruct (Hrep r p Hp) as (p0 & _ & E & _ & _ & Hl0).
      destruct (Hl0 Hl); congruence.
    + eapply S2; [done|]. destruct Hor as [|[k (r & p & Hp & Ho & Hsv & Hl)]]; [by left|right; exists k].
      destruct (Hrep r p Hp) as (p0 & Hp0 & E & E' & _ & Hl0). exists r, p0; destruct (Hl0 Hl); split_and!; congruence.
  - intros j rfj [[-> ->]|[_ Hj]]%Hat HS; [congruence|eauto].
  - intros r p (p0 & Hp0 & -> & -> & _)%Hrep; eauto.
  - intros r p args reply (p0 & Hp0 & _ & _ & -> & _)%Hrep; eauto.
  - intros r p args rfj (p0 & Hp0 & -> & _ & Est & Hl)%Hrep Hlv Ha Hj. destruct (Hl Hlv) as [Hl0 Hne].
    destruct (Hat _ _ Hj) as [[E _]|[_ Hj0]]; [done|]. eapply (S6 r p0); try done. unfold underWay in *; by rewrite <- Est.
  - intros j k rfj [[-> ->]|[Hne Hj]]%Hat HS Hk Hkj; [congruence|]. destruct (S7 j k rfj Hj HS Hk Hkj) as (r & p & Hp & Ho & Hsv & Hl).
    exists r; eexists; split; [simpl; by rewrite list_lookup_fmap, Er, Hp|]. simpl; rewrite Ho, Hl. split_and!; try done.
    simpl. destruct (Z.eqb_spec j i); done.
Qed.

Lemma goes_crash V H LL A PP s i now : healthy V H LL A PP s -> possible s (ECrash i now) = true -> goes s (ECrash i now).
Proof.
  intros HS Hp; simpl in Hp; zbool. destruct (idx_in_range (nodes s) i) as [rf Hi]; [lia|].
  pose proof (healthy_peer V H LL A PP s i rf HS Hi) as Hpe. destruct (restart_durable now rf (sp_durable _ _ Hpe)) as (rf' & HR & _).
  unfold goes, exec. rewrite Hi; cbn [mbind option_bind]. rewrite HR; cbn [mbind option_bind].
  destruct (set_node_ok s i rf rf' Hi) as (s1 & -> & Hu & _ & _ & Er). cbn [mbind option_bind]. eexists; split; [done|].
  eapply slots_crash; try done; [by eapply he_slots|apply Hpe].
Qed.

Lemma healthy_goes V H LL A PP s ev : healthy V H LL A PP s -> possible s ev = true -> served s ev = true -> goes s ev.
Proof.
  intros HS Hp Hsv. assert (Hr : forall i, (0 <=? i) && (i <? len (nodes s)) = true -> 0 <= i < len (nodes s)) by (intros i E; zbool; lia).
  destruct ev; eauto using goes_tick, goes_build, goes_vote, goes_vote_reply, goes_vote_lost, goes_rep_send, goes_rep_handle, goes_rep_reply, goes_rep_lost, goes_crash.
  - eapply (goes_node _ _ _ _ _ s _ i (fun rf => Some (Start command rf).1)); [done|by apply Hr|done|].
    intros rf _ _; eexists; split; [done|apply steady_Start].
  - eapply (goes_node _ _ _ _ _ s _ i (fun rf => Snapshot index snap rf)); [done|by apply Hr|done|].
    intros rf Hi Hpe; simpl in Hsv; rewrite Hi in Hsv; zbool. pose proof (sp_commit _ _ Hpe). pose proof (sp_log _ _ Hpe).
    destruct (Snapshot_trims index snap rf) as (rf' & HR & _); [unfold wf_log, logLength in *; lia|].
    exists rf'; split; [done|by eapply steady_Snapshot].
  - eapply (goes_node _ _ _ _ _ s _ i (fun rf => fst <$> guardKick rf)); [done|by apply Hr| |].
    + simpl; destruct (idx (nodes s) i) as [rf|]; [|done]; simpl. by destruct (guardKick rf) as [[? ?]|].
    + intros rf Hi Hpe. destruct (guardKick_delivers rf (sp_commit _ _ Hpe)) as (rf' & msgs & HR & _). rewrite HR.
      eexists; split; [done|by eapply steady_guardKick].
Qed.

Lemma exec_possible s s' ev : exec s ev = Some s' -> possible s ev = true.
Proof.
  assert (Hr : forall i rf, idx (nodes s) i = Some rf -> (0 <=? i) && (i <? len (nodes s)) = true).
  { intros i rf Hi%idx_Some_range. rewrite andb_true_iff, Z.leb_le, Z.ltb_lt. lia. }
  destruct ev; simpl.
  1: unfold execTick. 2: unfold execBuild. 3: unfold execVote. 4: unfold execVoteReply. 6: unfold execRepSend.
  7: unfold execRepHandle. 8: unfold execRepReply. 9: unfold execRepLost.
  all: intros HR; inv_opt; try (by eapply Hr).
  all: match goal with Hx : _ !! _ = Some ?x |- _ => rewrite Hx; destruct x as [? ? ? ?] || destruct x as [? ? ? ? ?] end; simpl in *.
  all: match goal with |- context [match ?st with _ => _ end] => destruct st end; try done; simpl in *.
  all: repeat match goal with Hx : (if ?b then _ else _) = Some _ |- _ => destruct b; inv_opt end; try done.
Qed.

Lemma exec_healthy V H LL A PP s s' ev :
  healthy V H LL A PP s -> timely s ev = true -> served s ev = true -> exec s ev = Some s' ->
  exists V H LL A PP, healthy V H LL A PP s'.
Proof.
  intros HS Ht Hsv HR. pose proof (exec_inv n V s s' ev (he_inv _ _ _ _ _ _ HS) Ht HR) as Hn.
  destruct (log_next_inv n (started ev) V H LL A PP s s' (he_log _ _ _ _ _ _ HS) Hn) as (V1 & Hinv & H1 & LL1 & A1 & PP1 & _ & _ & _ & HI).
  { apply (exec_log n V H LL A PP s s' ev); try done; [by eapply he_inv|by eapply he_log]. }
  exists V1, H1, LL1, A1, PP1; split; try done.
  destruct (healthy_goes V H LL A PP s ev HS) as (s2 & HR2 & Hsl); [by eapply exec_possible|done|]. congruence.
Qed.

Lemma init_slots s : init n = Some s -> slots n s.
Proof.
  intros HI. assert (Hr : reps s = []) by (unfold init in HI; by inv_opt).
  assert (Hp : forall i rf, idx (nodes s) i = Some rf -> state rf = Follower /\ dead rf = false).
  { intros i rf Hi; pose proof (init_nodes n s i rf HI Hi) as Hb; unfold boot, Make in Hb; simpl in Hb; by inv_opt. }
  split; unfold works; rewrite ?Hr; try done.
  - intros i rf Hi; by apply (Hp i).
  - intros i rf Hi [HL|(j & r & p & Hx & _)]; [|done]. destruct (Hp i rf Hi); congruence.
  - intros i rf Hi HL. destruct (Hp i rf Hi); congruence.
  - intros i j rf Hi HL. destruct (Hp i rf Hi); congruence.
Qed.

Lemma init_healthy s : init n = Some s -> exists V H LL A PP, healthy V H LL A PP s.
Proof. intros HI. eexists _, _, _, _, _; split; [by apply init_inv|by apply init_log|by apply init_slots]. Qed.

Lemma run_healthy V H LL A PP s s' evs :
  healthy V H LL A PP s -> run_served s evs = Some s' -> exists V H LL A PP, healthy V H LL A PP s'.
Proof.
  revert V H LL A PP s; induction evs as [|ev evs IH]; simpl; intros V H LL A PP s HS HR; inv_opt; [eauto 10|].
  destruct (timely s ev) eqn:Et; [|done]. destruct (served s ev) eqn:Es; [|done]. simpl in HR; inv_opt.
  match goal with Hx : exec s ev = Some _ |- _ => destruct (exec_healthy V H LL A PP s _ ev HS Et Es Hx) as (V1 & H1 & LL1 & A1 & PP1 & HS1) end.
  by eapply IH.
Qed.

Lemma reachable_healthy s0 evs s : init n = Some s0 -> run_served s0 evs = Some s -> exists V H LL A PP, healthy V H LL A PP s.
Proof. intros HI HR. destruct (init_healthy s0 HI) as (V & H & LL & A & PP & HS). by eapply run_healthy. Qed.

(** C6: No peer panics. In every execution (with snapshots of what a peer knows
    to be committed, and vote requests built in the term of their round) every
    event whose goroutine has come to that point can happen: no handler, no
    goroutine of an election and no replicator ever indexes its log, its
    [nextIndex] or its [matchIndex] out of range, whatever requests and replies
    were delayed, lost, reordered or left behind by a crash, and a restarted peer
    can decode what it persisted. *)
Theorem cluster_never_panics s0 evs s ev
    (Hinit : init n = Some s0) (Hrun : run_served s0 evs = Some s)
    (Hpos : possible s ev = true) (Hsv : served s ev = true) :
  is_Some (exec s ev).
Proof.
  destruct (reachable_healthy s0 evs s Hinit Hrun) as (V & H & LL & A & PP & HS).
  destruct (healthy_goes V H LL A PP s ev HS Hpos Hsv) as (s' & HR & _). eauto.
Qed.
End running.

Lemma cluster_never_panics_witness :
  possible ex_trimmed (ERepSend 1) = true /\ is_Some (exec ex_trimmed (ERepSend 1)).
Proof.
  assert (Hp : possible ex_trimmed (ERepSend 1) = true) by (vm_compute; reflexivity).
  split; [exact Hp|].
  apply (cluster_never_panics 3 ex_start3 (ex_replicate ++ ex_trim) ex_trimmed (ERepSend 1));
    [vm_compute; reflexivity|exact ex_trimmed_run|exact Hp|reflexivity].
Defined.
