(* ===== verification/RaftProgress.v ===== *)
(** * Raft: a majority that can communicate makes progress

    From every reachable state of the cluster and for every majority of its
    peers there is a continuation in which only these peers act, none of them
    crashes, and a new command is committed by all of them: nothing that was
    lost, delayed or left behind by crashes, partitions and elections can block
    the algorithm.

    The continuation has the phases of Raft: a peer of the highest term asks for
    votes, so that no peer of the majority leads an older term; the one with the
    most up-to-date log wins an election ([campaign]); the leader brings every
    log in line ([sync]), commits, and tells the others. *)

From S2P Require Import Prelude Gob RaftTypes RaftLog RaftElection RaftReplicate RaftSnapshot.
From S2P Require Import RaftPeer RaftLogFacts RaftCommit RaftBackup RaftCluster RaftElectionSafety RaftPaths.
From S2P Require Import RaftLogSafety RaftLogSteps RaftWhole RaftWholeSteps RaftStateSafety RaftApply RaftSlots RaftSnapshotFacts.

(** ** Executions in which only some peers act *)

Section within.
Context {Cmd : Type} `{!GobType Cmd}.
Implicit Types (s : cluster Cmd) (rf L F : Raft Cmd) (i j : Z) (r c : nat) (Q : list Z).

(** The peer that acts is one of [Q], and does not crash. *)
Definition within Q s (ev : event Cmd) : bool :=
  match ev with
  | ETick i _ | EStart i _ | EKick i => bool_decide (i ∈ Q)
  | EBuild c | EVoteReply c => match vcalls s !! c with Some v => bool_decide (vc_owner v ∈ Q) | None => false end
  | EVote c _ => match vcalls s !! c with Some v => bool_decide (vc_server v ∈ Q) | None => false end
  | ERepSend r | ERepReply r | ERepLost r =>
      match reps s !! r with Some p => bool_decide (rp_owner p ∈ Q) | None => false end
  | ERepHandle r _ => match reps s !! r with Some p => bool_decide (rp_server p ∈ Q) | None => false end
  | EVoteLost _ | ESnapshot _ _ _ | ECrash _ _ => false
  end.

Fixpoint run_within Q s (evs : list (event Cmd)) : option (cluster Cmd) :=
  match evs with
  | [] => Some s
  | ev :: evs => if timely s ev && within Q s ev then s ← exec s ev; run_within Q s evs else None
  end.

Definition reach Q s s' : Prop := exists evs, run_within Q s evs = Some s'.

Lemma reach_refl Q s : reach Q s s.
Proof. by exists []. Qed.

Lemma reach_step Q s s1 s' ev : timely s ev = true -> within Q s ev = true -> exec s ev = Some s1 -> reach Q s1 s' -> reach Q s s'.
Proof. intros Ht Hw HR [evs He]. exists (ev :: evs); simpl. by rewrite Ht, Hw, HR. Qed.

Lemma reach_trans Q s1 s2 s3 : reach Q s1 s2 -> reach Q s2 s3 -> reach Q s1 s3.
Proof.
  intros [evs He] H23; revert s1 He; induction evs as [|ev evs IH]; simpl; intros s1 He; [by injection He as ->|].
  destruct (timely s1 ev) eqn:Et; [|done]. destruct (within Q s1 ev) eqn:Ew; [|done]. simpl in He; inv_opt.
  eapply reach_step; eauto.
Qed.

Lemma reach_one Q s s' ev : timely s ev = true -> within Q s ev = true -> exec s ev = Some s' -> reach Q s s'.
Proof. intros; eapply reach_step; eauto using reach_refl. Qed.

Lemma run_within_served Q s evs s' : run_within Q s evs = Some s' -> run_served s evs = Some s'.
Proof.
  revert s; induction evs as [|ev evs IH]; simpl; intros s HR; [done|].
  destruct (timely s ev); [|done]. destruct (within Q s ev) eqn:Ew; [|done]. simpl in HR; inv_opt.
  assert (served s ev = true) as -> by (by destruct ev). simpl. match goal with Hx : exec s ev = Some _ |- _ => rewrite Hx end. by apply IH.
Qed.
End within.

(** ** One peer brings another up to date *)

Section sync.
Context {Cmd : Type} `{!GobType Cmd}.
Implicit Types (s : cluster Cmd) (rf L F : Raft Cmd) (i j k : Z) (r : nat) (Q : list Z).
Implicit Types (V : votes) (H : tree Cmd) (LL : leaderLogs Cmd) (A : Z -> Z -> Z -> Prop).
Context (n : nat).

Definition good s : Prop := exists V H LL A PP, healthy n V H LL A PP s.

Lemma good_reach Q s s' : good s -> reach Q s s' -> good s'.
Proof. intros (V & H & LL & A & PP & HS) [evs HR%run_within_served]. by eapply run_healthy. Qed.

(** What a leader and another peer of its term or before have in common. *)
Lemma good_backing s i j L F :
  good s -> idx (nodes s) i = Some L -> idx (nodes s) j = Some F -> i <> j -> state L = Leader -> currentTerm F <= currentTerm L ->
  backing j L F.
Proof.
  intros (V & H & LL & A & PP & HS) Hi Hj Hne HL Ht. pose proof (he_log _ _ _ _ _ _ _ HS) as HI.
  pose proof (healthy_peer n V H LL A PP s i L HS Hi) as [_ _ HpL HwL HsL _ _]. pose proof (healthy_peer n V H LL A PP s j F HS Hj) as [Hr _ _ HwF HsF _ _].
  destruct (sl_sized _ _ (he_slots _ _ _ _ _ _ _ HS) i L Hi (or_introl HL)) as [Hn Hm].
  destruct (winv_node n V H LL A PP s i L HI Hi) as (PL & _ & _ & VL & NL), (winv_node n V H LL A PP s j F HI Hj) as (PF & _ & _ & VF & NF).
  pose proof (no_path _ _ _ _ _ _ NL) as PtL; pose proof (no_path _ _ _ _ _ _ NF) as PtF; simpl in PtL, PtF.
  pose proof (lg_tree _ _ _ _ _ _ (wi_log _ _ _ _ _ _ _ HI)) as Htree; pose proof (lg_leaders _ _ _ _ _ _ (wi_log _ _ _ _ _ _ _ HI)) as Hlead.
  assert (GF : forall p e, snapIndex F < p -> get F p = Some e -> has PF p (Term e)).
  { intros p e Hp He. rewrite (view_get n H A PF) in He by done. by exists e. }
  assert (GL : forall p e, get L p = Some e -> has PL p (Term e)).
  { intros p e He. pose proof (get_range _ _ _ He). pose proof (view_leader n H A PL L p e VL HL ltac:(lia) He) as Hx.
    apply fmap_Some in Hx as (x & Hx & E). by exists x. }
  assert (Heq : forall (l : list (Entry Cmd)) p t t', has l p t -> has l p t' -> t = t') by (intros l p t t' (e & He & <-) (e' & He' & <-); congruence).
  split; try done; try lia; try congruence.
  - intros p q eF eL e HeF HeL He Hpq Hsp Hsl Et. pose proof (GF p eF Hsp HeF) as X1. pose proof (GL q eL HeL) as X2. pose proof (GL p e He) as X3.
    rewrite <- Et in X2. destruct (term_down H LL PF p (Term eF) Htree Hlead PtF ltac:(lia) X1) as (o1 & L1 & E1 & Hl1 & _).
    destruct (term_down H LL PL q (Term eF) Htree Hlead PtL ltac:(lia) X2) as (o2 & L2 & E2 & _ & _ & Hdown).
    rewrite E1 in E2; injection E2 as <- <-. eapply Heq; [exact X3|]. apply Hdown; lia.
  - intros p p' eF eL a b HeF HeL Et Hp Hs' Ha Hb. pose proof (GF p eF ltac:(lia) HeF) as X1. pose proof (GL p eL HeL) as X2. rewrite <- Et in X2.
    pose proof (has_agree H PF PL p (Term eF) p' PtF PtL X1 X2 ltac:(lia)) as Hag.
    destruct (GF p' a ltac:(lia) Ha) as (x & Hx & <-), (GL p' b Hb) as (y & Hy & <-). congruence.
  - intros p e Hp He. pose proof (GF p e Hp He) as X1. destruct (term_down H LL PF p (Term e) Htree Hlead PtF ltac:(lia) X1) as (o & L1 & E1 & _).
    destruct (Hlead _ _ _ E1) as [[H0 _] Hlt]. specialize (Hlt 0 _ H0). simpl in Hlt; lia.
Qed.

(** A snapshot covers nothing that a leader of the same term or later lacks. *)
Lemma good_snap s i j L F :
  good s -> idx (nodes s) i = Some L -> idx (nodes s) j = Some F -> state L = Leader -> currentTerm F <= currentTerm L ->
  snapIndex F < logLength L.
Proof.
  intros (V & H & LL & A & PP & HS) Hi Hj HL Ht. pose proof (he_log _ _ _ _ _ _ _ HS) as HI.
  destruct (winv_node n V H LL A PP s i L HI Hi) as (PL & _ & HwL & VL & NL), (winv_node n V H LL A PP s j F HI Hj) as (PF & _ & _ & VF & NF).
  pose proof (vw_range _ _ _ _ _ VF) as Hr. rewrite (view_len n H A PL L VL). pose proof (path_len H PL (no_path _ _ _ _ _ _ NL)) as HlL; simpl in HlL.
  destruct (decide (snapIndex F = 0)); [lia|]. destruct (vw_log _ _ _ _ _ VF) as (e0 & _ & Hsn & _).
  destruct (snapOk_safe n H A _ _ _ (snapIndex F) Hsn ltac:(lia)) as (l & kc & tc & Hl & Hh & Hc & Hk & Htc).
  destruct (safe_leader n V H LL A (wholes PP s) i (whole PL L) (snapIndex F)) as [|(k2 & t2 & Hk2 & (e & He%idx_Some_range & _) & _)];
    [by apply HI|done|done| |simpl in *; lia|simpl in He; lia].
  exists l, kc, tc; split_and!; try done; simpl; lia.
Qed.

(** *** The steps of a replicator *)

Lemma upd_id {X} (l : list X) i x : idx l i = Some x -> upd l i x = Some l.
Proof.
  intros Hi; pose proof (idx_Some_range _ _ _ Hi). rewrite upd_ok by done. f_equal. apply list_insert_id.
  unfold idx in Hi; by case_if_in Hi.
Qed.

(** The leader's goroutine for peer [j] gives up the call it is in. *)
Lemma becomes_idle Q s i j L :
  good s -> idx (nodes s) i = Some L -> state L = Leader -> i ∈ Q -> 0 <= j < Z.of_nat n -> j <> i ->
  exists s' r, reach Q s s' /\ nodes s' = nodes s /\ reps s' !! r = Some (mkRep i j RIdle true).
Proof.
  intros (V & H & LL & A & PP & HS) Hi HL HQ Hj Hne.
  destruct (sl_works _ _ (he_slots _ _ _ _ _ _ _ HS) i j L Hi HL Hj Hne) as (r & [o sv st lv] & Hr & Ho & Hsv & Hl); simpl in *; subst.
  assert (Hst : st = RIdle \/ st <> RIdle) by (destruct st; (by left) || (by right)).
  destruct Hst as [->|Hst]; [exists s, r; split_and!; [apply reach_refl|done|done]|].
  exists (set_rstage r RIdle s), r; split_and!; [|done|simpl; by rewrite list_lookup_alter_eq, Hr].
  eapply (reach_one Q s _ (ERepLost r)); [done|simpl; rewrite Hr; by apply bool_decide_eq_true|].
  simpl; unfold execRepLost. rewrite Hr; simpl. rewrite Hi; simpl.
  destruct st; try done; simpl; unfold set_node; rewrite (upd_id _ _ _ Hi); by destruct s.
Qed.

(** A call of the leader, its execution and its reply. *)
Lemma exchange Q s i j r L F L' F' now st1 st2 :
  reps s !! r = Some (mkRep i j RIdle true) -> i ∈ Q -> j ∈ Q -> i <> j -> idx (nodes s) i = Some L -> idx (nodes s) j = Some F ->
  exec s (ERepSend r) = Some (set_rstage r st1 s) ->
  (forall s1, reps s1 !! r = Some (mkRep i j st1 true) -> idx (nodes s1) j = Some F ->
     exec s1 (ERepHandle r now) = (s2 ← set_node j F' s1; Some (set_rstage r st2 s2))) ->
  (forall s2, reps s2 !! r = Some (mkRep i j st2 true) -> idx (nodes s2) i = Some L ->
     exec s2 (ERepReply r) = (s3 ← set_node i L' s2; Some (set_rstage r RIdle s3))) ->
  exists s', reach Q s s' /\ nodes s' = <[Z.to_nat i := L']> (<[Z.to_nat j := F']> (nodes s)) /\ reps s' !! r = Some (mkRep i j RIdle true).
Proof.
  intros Hr Hi HjQ Hne HL HF Hsend Hhandle Hreply.
  set (s1 := set_rstage r st1 s). set (s2 := set_rstage r st2 (mkCluster (<[Z.to_nat j := F']> (nodes s)) (rounds s) (vcalls s) (reps s1))).
  set (s3 := set_rstage r RIdle (mkCluster (<[Z.to_nat i := L']> (nodes s2)) (rounds s) (vcalls s) (reps s2))).
  assert (H1 : reps s1 !! r = Some (mkRep i j st1 true)) by (simpl; by rewrite list_lookup_alter_eq, Hr).
  assert (H2 : reps s2 !! r = Some (mkRep i j st2 true)) by (simpl; by rewrite !list_lookup_alter_eq, Hr).
  assert (Uj : upd (nodes s) j F' = Some (nodes s2)) by (apply upd_ok; by eapply idx_Some_range).
  assert (HL2 : idx (nodes s2) i = Some L) by (by rewrite (idx_upd_ne _ _ _ _ _ Uj)).
  exists s3; split_and!; [|done|simpl; by rewrite !list_lookup_alter_eq, Hr].
  eapply (reach_step Q s s1 _ (ERepSend r)); [done|simpl; rewrite Hr; by apply bool_decide_eq_true|done|].
  eapply (reach_step Q s1 s2 _ (ERepHandle r now)); [done|simpl in *; rewrite H1; by apply bool_decide_eq_true| |].
  { rewrite (Hhandle s1 H1 HF). unfold set_node. change (nodes s1) with (nodes s). by rewrite Uj. }
  eapply (reach_one Q s2 s3 (ERepReply r)); [done|simpl in *; rewrite H2; by apply bool_decide_eq_true|].
  rewrite (Hreply s2 H2 HL2). unfold set_node. rewrite upd_ok by (by eapply idx_Some_range). done.
Qed.

Lemma append_exchange Q s i j r L F args now F' reply L' retry :
  reps s !! r = Some (mkRep i j RIdle true) -> i ∈ Q -> j ∈ Q -> i <> j -> idx (nodes s) i = Some L -> idx (nodes s) j = Some F ->
  dead L = false -> singleAppendSend j L = Some (SendAppend args) -> AppendEntries now args F = Some (F', reply) ->
  singleAppendReply j args (Some reply) L = Some (L', retry) ->
  exists s', reach Q s s' /\ nodes s' = <[Z.to_nat i := L']> (<[Z.to_nat j := F']> (nodes s)) /\ reps s' !! r = Some (mkRep i j RIdle true).
Proof.
  intros Hr Hi HjQ Hne HL HF Hd Hsend Happ Hrep.
  eapply (exchange Q s i j r L F L' F' now (RAppend args) (RAppendReplied args reply)); try done.
  - unfold exec, execRepSend. rewrite Hr; cbn [mbind option_bind rp_stage rp_live rp_owner rp_server]. rewrite HL; cbn [mbind option_bind].
    unfold killed; by rewrite Hd, Hsend.
  - intros s1 H1 HF1. unfold exec, execRepHandle. rewrite H1; cbn [mbind option_bind rp_stage rp_server]. rewrite HF1; cbn [mbind option_bind]. by rewrite Happ.
  - intros s2 H2 HL2. unfold exec, execRepReply. rewrite H2; cbn [mbind option_bind rp_stage rp_server rp_live rp_owner]. rewrite HL2; cbn [mbind option_bind].
    by rewrite Hrep.
Qed.

(** The same with a snapshot. *)
Lemma install_exchange Q s i j r L F args now F' reply msg L' :
  reps s !! r = Some (mkRep i j RIdle true) -> i ∈ Q -> j ∈ Q -> i <> j -> idx (nodes s) i = Some L -> idx (nodes s) j = Some F ->
  dead L = false -> singleAppendSend j L = Some SendInstall -> helpInstallArgs L = Some args ->
  InstallSnapshot now args F = Some (F', reply, msg) -> helpInstallReply j args (Some reply) L = Some L' ->
  exists s', reach Q s s' /\ nodes s' = <[Z.to_nat i := L']> (<[Z.to_nat j := F']> (nodes s)) /\ reps s' !! r = Some (mkRep i j RIdle true).
Proof.
  intros Hr Hi HjQ Hne HL HF Hd Hsend Hargs Hins Hrep.
  eapply (exchange Q s i j r L F L' F' now (RInstall args) (RInstallReplied args reply)); try done.
  - unfold exec, execRepSend. rewrite Hr; cbn [mbind option_bind rp_stage rp_live rp_owner rp_server]. rewrite HL; cbn [mbind option_bind].
    unfold killed; rewrite Hd, Hsend; cbn [mbind option_bind]. by rewrite Hargs.
  - intros s1 H1 HF1. unfold exec, execRepHandle. rewrite H1; cbn [mbind option_bind rp_stage rp_server]. rewrite HF1; cbn [mbind option_bind]. by rewrite Hins.
  - intros s2 H2 HL2. unfold exec, execRepReply. rewrite H2; cbn [mbind option_bind rp_stage rp_server rp_live rp_owner]. rewrite HL2; cbn [mbind option_bind].
    by rewrite Hrep.
Qed.

(** *** What a round does to the two peers *)

(** The leader stays what it is. *)
Record leads L L' : Prop := {
  le_state : state L' = Leader;
  le_term : currentTerm L' = currentTerm L;
  le_log : log L' = log L;
  le_snap : snapIndex L' = snapIndex L;
  le_peers : peers L' = peers L;
  le_me : me L' = me L;
  le_commit : commitIndex L <= commitIndex L';
}.

Lemma leads_refl L : state L = Leader -> leads L L.
Proof. by split. Qed.

Lemma leads_trans L1 L2 L3 : leads L1 L2 -> leads L2 L3 -> leads L1 L3.
Proof. intros [] []; split; try congruence; lia. Qed.

Lemma leads_length L L' : leads L L' -> logLength L' = logLength L.
Proof. intros []; by apply logLength_ext. Qed.

Lemma reply_effect j args reply L L' retry :
  wf_log L -> len (matchIndex L) = Z.of_nat (peers L) -> state L = Leader -> currentTerm L = ae_Term args -> aer_Term reply <= currentTerm L ->
  singleAppendReply j args (Some reply) L = Some (L', retry) ->
  leads L L' /\ retry = negb (Success reply) /\ (forall k, k <> j -> idx (matchIndex L') k = idx (matchIndex L) k)
  /\ (retry = false -> forall N, ~ committable N L').
Proof.
  intros Hwf Hm HL Ht Hr; unfold singleAppendReply. destruct (aer_Term reply >? currentTerm L) eqn:E; [zbool; lia|].
  rewrite Ht, Z.eqb_refl, (bool_decide_eq_true_2 _ HL); simpl. destruct (Success reply); simpl; intros HR; inv_opt.
  - match goal with Hx : upd (matchIndex L) j _ = Some ?m |- _ => rename m into mi, Hx into Hu1 end.
    match goal with Hx : updateCommitIndex ?r = Some _ |- _ => set (L1 := r) in *; rename Hx into HU end.
    assert (Hm1 : len (matchIndex L1) = Z.of_nat (peers L1)) by (simpl; by rewrite (upd_len _ _ _ _ Hu1)).
    destruct (updateCommitIndex_result L1 Hwf Hm1) as (L2 & HU2 & Hres). rewrite HU in HU2; injection HU2 as <-.
    assert (Hmi : forall k, k <> j -> idx mi k = idx (matchIndex L) k) by (intros k Hk; by eapply idx_upd_ne).
    destruct Hres as [[-> Hno]|(E2 & Hc & Hmax)]; [split_and!; try done; by split|].
    assert (Hf : leads L1 L') by (rewrite E2; split; try done; destruct Hc as [? _]; simpl in *; lia).
    assert (Hmm : matchIndex L' = mi) by (by rewrite E2).
    split_and!; [destruct Hf; by split|done|by rewrite Hmm|].
    intros _ N HN. assert (HN1 : committable N L1).
    { destruct HN as (H1 & H2 & H3 & e & He & Hte). pose proof (leads_length L1 L' Hf). destruct Hf. unfold committable. split_and!; try lia.
      - unfold holders, holds in *. rewrite Hmm in H3. by rewrite <- le_peers0, <- le_me0.
      - exists e; split; [by rewrite <- (get_ext L1 L')|congruence]. }
    specialize (Hmax N HN1). destruct HN as (? & _); lia.
  - match goal with Hx : stepBack _ _ _ _ _ = Some _ |- _ => rename Hx into HS end. unfold stepBack in HS. assert (Hn : exists l, L' = set_nextIndex l L).
    { case_if_in HS; inv_opt; [eauto|]. case_if_in HS; inv_opt; eauto. }
    destruct Hn as [l ->]. by split_and!.
Qed.

Record synced (j : Z) L L' F F' : Prop := {
  sy_leads : leads L L';
  sy_match : idx (matchIndex L') j = Some (logLength L - 1);
  sy_other : forall k, k <> j -> idx (matchIndex L') k = idx (matchIndex L) k;
  sy_done : forall N, ~ committable N L';
  sy_term : currentTerm F' = currentTerm L;
  sy_log : caught_up L F';
  sy_commit : commitIndex L <= commitIndex F';
  sy_snap : snapIndex F' <= Z.max (snapIndex F) (snapIndex L);
}.

(** One request: the follower is up to date, or the next one starts earlier. *)
Lemma sync_request j now L F args :
  backing j L F -> commitIndex L < logLength L -> singleAppendSend j L = Some (SendAppend args) ->
  exists F' reply L' retry, AppendEntries now args F = Some (F', reply) /\ singleAppendReply j args (Some reply) L = Some (L', retry)
    /\ leads L L' /\ currentTerm F' = currentTerm L /\ snapIndex F' = snapIndex F
    /\ (forall k, k <> j -> idx (matchIndex L') k = idx (matchIndex L) k)
    /\ ((retry = false /\ synced j L L' F F')
        \/ (retry = true /\ ~ matchesPrev args F /\ exists ni, idx (nextIndex L') j = Some ni /\ ni <= PrevLogIndex args)).
Proof.
  intros HB Hc Hsend. destruct (answered_request j now L F args HB Hsend) as (F' & reply & L' & retry & HA & HR & HlL & HsL & HsF & Hcase).
  destruct (singleAppendSend_suffix _ _ _ Hsend) as (HL & Hterm & HLC & _ & _ & Hend & _).
  destruct (AppendEntries_outcome now args F (bk_wfF _ _ _ HB)) as (F2 & reply2 & HA2 & Ht & Hr & _ & Hiff & Hacc & _).
  rewrite HA in HA2; injection HA2 as <- <-. pose proof (bk_term _ _ _ HB) as Hle.
  destruct (reply_effect j args reply L L' retry) as (Hlead & Eretry & Hoth & Hdone); try done; [apply HB|apply HB|lia|].
  exists F', reply, L', retry; split_and!; try done; [lia|]. destruct Hcase as [(-> & Hcu & Hm)|(-> & _ & _ & ni & Hni & Hlt)]; [left|right].
  - assert (HS : Success reply = true) by (by destruct (Success reply)). destruct (Hacc HS) as ((_ & _ & Hlen) & Ecom).
    split; [done|]. split; try done; [by apply Hdone|lia| |lia]. rewrite Ecom, HLC. unfold goMin; repeat case_if; lia.
  - split_and!; [done| |eauto]. intros Hm. assert (HS : Success reply = true) by (apply Hiff; split; [lia|done]). by rewrite HS in Eretry.
Qed.

(** A snapshot round leaves the follower with the leader's snapshot or a later
    one, and [nextIndex] right after the leader's. *)
Lemma install_round j now L F args :
  sized n L -> 0 <= j < Z.of_nat n -> state L = Leader -> currentTerm F <= currentTerm L -> helpInstallArgs L = Some args ->
  exists F' reply msg L', InstallSnapshot now args F = Some (F', reply, msg) /\ helpInstallReply j args (Some reply) L = Some L'
    /\ leads L L' /\ currentTerm F' = currentTerm L /\ (forall k, k <> j -> idx (matchIndex L') k = idx (matchIndex L) k)
    /\ idx (nextIndex L') j = Some (snapIndex L + 1) /\ snapIndex F' = Z.max (snapIndex F) (snapIndex L).
Proof.
  intros [Hn Hm] Hj HL Hle Ha. assert (Hargs : is_Term args = currentTerm L /\ LastIncludedIndex args = snapIndex L)
    by (unfold helpInstallArgs in Ha; by inv_opt).
  destruct Hargs as [Et Ei]. destruct (InstallSnapshot_installs now args F) as (F' & reply & msg & HR & Hr & Ht & _ & Hold & Hnew).
  exists F', reply, msg. unfold helpInstallReply. destruct (isr_Term reply >? currentTerm L) eqn:E; [zbool; lia|].
  rewrite !upd_ok by lia; cbn [mbind option_bind]. eexists; split; [done|]. split; [done|]. split; [by split|]. split_and!; [lia| | |].
  - intros k Hk; simpl. eapply idx_upd_ne; [apply upd_ok; lia|congruence].
  - simpl. rewrite (idx_upd_eq _ _ _ _ (upd_ok (nextIndex L) j (LastIncludedIndex args + 1) ltac:(lia))). by rewrite Ei.
  - rewrite Ei in *. destruct (decide (snapIndex L <= snapIndex F)) as [Hs|Hs]; [destruct (Hold Hs) as (_ & -> & _); lia|].
    destruct (Hnew ltac:(lia) ltac:(lia)) as (-> & _). lia.
Qed.

Lemma good_facts s i rf : good s -> idx (nodes s) i = Some rf ->
  sane_peer n i rf /\ dead rf = false /\ (state rf = Leader -> sized n rf /\ inside rf).
Proof.
  intros (V & H & LL & A & PP & HS) Hi. pose proof (he_slots _ _ _ _ _ _ _ HS) as Hsl. split; [by eapply healthy_peer|].
  split; [by eapply (sl_alive _ _ Hsl)|]. intros HL; split; [eapply (sl_sized _ _ Hsl); eauto|by eapply (sl_inside _ _ Hsl)].
Qed.

Lemma two_updates {X} (l : list X) i j x y : i <> j -> 0 <= i < len l -> 0 <= j < len l ->
  let l' := <[Z.to_nat i := x]> (<[Z.to_nat j := y]> l) in
  idx l' i = Some x /\ idx l' j = Some y /\ len l' = len l /\ forall k, k <> i -> k <> j -> idx l' k = idx l k.
Proof.
  intros Hne Hi Hj l'. pose proof (upd_ok l j y Hj) as U1. assert (Hl : len (<[Z.to_nat j := y]> l) = len l) by (by eapply upd_len).
  assert (Hi2 : 0 <= i < len (<[Z.to_nat j := y]> l)) by (by rewrite Hl). pose proof (upd_ok _ i x Hi2) as U2. split_and!.
  - by apply (idx_upd_eq _ _ _ _ U2).
  - unfold l'; rewrite (idx_upd_ne _ _ _ _ _ U2 Hne). by apply (idx_upd_eq _ _ _ _ U1).
  - unfold l'; by rewrite (upd_len _ _ _ _ U2).
  - intros k Hki Hkj. unfold l'; rewrite (idx_upd_ne _ _ _ _ _ U2), (idx_upd_ne _ _ _ _ _ U1) by congruence. done.
Qed.

Lemma twice_updated {X} (l : list X) i j x y x' y' : i <> j -> 0 <= i -> 0 <= j ->
  <[Z.to_nat i := x']> (<[Z.to_nat j := y']> (<[Z.to_nat i := x]> (<[Z.to_nat j := y]> l))) = <[Z.to_nat i := x']> (<[Z.to_nat j := y']> l).
Proof.
  intros Hne Hi Hj. rewrite (list_insert_insert_ne (<[Z.to_nat j := y]> l) (Z.to_nat j) (Z.to_nat i)) by lia. by rewrite !list_insert_insert_eq.
Qed.

Lemma synced_trans j L L1 L2 F F1 F2 :
  leads L L1 -> (forall k, k <> j -> idx (matchIndex L1) k = idx (matchIndex L) k) -> snapIndex F1 <= Z.max (snapIndex F) (snapIndex L) ->
  synced j L1 L2 F1 F2 -> synced j L L2 F F2.
Proof.
  intros HL Ho Hs [HL2 Hm Ho2 Hd Ht Hc Hco Hs2]. pose proof (leads_length _ _ HL) as Hlen. pose proof HL as []. split; try done.
  - by eapply leads_trans.
  - by rewrite Hm, Hlen.
  - intros k Hk; by rewrite Ho2, Ho.
  - congruence.
  - intros p Hp HpL. destruct (Hc p Hp) as (eF & eL & ? & HeL & ?); [rewrite Hlen; lia|]. exists eF, eL; split_and!; try done.
    by rewrite <- (get_ext L L1).
  - lia.
  - lia.
Qed.

Lemma append_round Q s i j r L F args :
  good s -> reps s !! r = Some (mkRep i j RIdle true) -> i ∈ Q -> j ∈ Q -> i <> j -> idx (nodes s) i = Some L -> idx (nodes s) j = Some F ->
  state L = Leader -> currentTerm F <= currentTerm L -> singleAppendSend j L = Some (SendAppend args) ->
  exists s' L' F', reach Q s s' /\ nodes s' = <[Z.to_nat i := L']> (<[Z.to_nat j := F']> (nodes s)) /\ reps s' !! r = Some (mkRep i j RIdle true)
    /\ leads L L' /\ currentTerm F' = currentTerm L /\ snapIndex F' = snapIndex F
    /\ (forall k, k <> j -> idx (matchIndex L') k = idx (matchIndex L) k)
    /\ (synced j L L' F F' \/ (~ matchesPrev args F /\ exists ni, idx (nextIndex L') j = Some ni /\ ni <= PrevLogIndex args)).
Proof.
  intros HG Hr HiQ HjQ Hne HiL HjF HL Ht Hsend. destruct (good_facts s i L HG HiL) as ([_ _ _ _ _ Hc _] & Hd & _).
  pose proof (good_backing s i j L F HG HiL HjF Hne HL Ht) as HB.
  destruct (sync_request j 0 L F args HB Hc Hsend) as (F' & reply & L' & retry & HA & HR & Hlead & Htm & Hsn & Ho & Hcase).
  destruct (append_exchange Q s i j r L F args 0 F' reply L' retry) as (s' & Hre & Hn & Hrp); try done.
  exists s', L', F'; split_and!; try done. destruct Hcase as [[_ ?]|(_ & ? & ?)]; [by left|by right].
Qed.

(** A follower behind the snapshot is sent it, and then accepts the next call. *)
Lemma sync_install Q s i j r L F :
  good s -> reps s !! r = Some (mkRep i j RIdle true) -> i ∈ Q -> j ∈ Q -> i <> j -> idx (nodes s) i = Some L -> idx (nodes s) j = Some F ->
  state L = Leader -> currentTerm F <= currentTerm L -> singleAppendSend j L = Some SendInstall ->
  exists s' L' F', reach Q s s' /\ nodes s' = <[Z.to_nat i := L']> (<[Z.to_nat j := F']> (nodes s)) /\ synced j L L' F F'.
Proof.
  intros HG Hr HiQ HjQ Hne HiL HjF HL Ht Hsend.
  pose proof (idx_Some_range _ _ _ HiL) as Hli; pose proof (idx_Some_range _ _ _ HjF) as Hlj.
  destruct (good_facts s i L HG HiL) as ([_ _ _ HwL _ _ _] & Hd & Htab); destruct (Htab HL) as [Hsz _].
  destruct (good_facts s j F HG HjF) as ([Hrj _ _ _ _ _ _] & _ & _).
  destruct (helpInstallArgs_ok L HwL) as (args & Hargs & _).
  destruct (install_round j 0 L F args Hsz Hrj HL Ht Hargs) as (F1 & reply & msg & L1 & HI & HR & Hlead & Htm & Ho & Hn1 & Hsn).
  destruct (install_exchange Q s i j r L F args 0 F1 reply msg L1) as (s1 & Hre & Hnod & Hr1); try done.
  destruct (two_updates (nodes s) i j L1 F1 Hne Hli Hlj) as (E1 & E2 & _ & _); rewrite <- Hnod in E1, E2.
  assert (HG1 : good s1) by (by eapply good_reach).
  pose proof (le_term _ _ Hlead) as Elt; pose proof (le_snap _ _ Hlead) as Els; pose proof (le_state _ _ Hlead) as HL1.
  pose proof (good_backing s1 i j L1 F1 HG1 E1 E2 Hne HL1 ltac:(lia)) as HB1.
  destruct (good_facts s1 i L1 HG1 E1) as (_ & _ & Htab1); destruct (Htab1 HL1) as [_ Hin1].
  destruct (send_decision j L1 F1 _ HB1 Hn1 (Hin1 j _ Hn1)) as [[? _]|(args1 & _ & Hsend1 & Hprev1)]; [lia|].
  destruct (append_round Q s1 i j r L1 F1 args1) as (s2 & L2 & F2 & Hre2 & Hnod2 & _ & _ & _ & _ & _ & Hcase); try done; [lia|].
  destruct Hcase as [Hsy|[Hno _]]; [|destruct Hno; left; lia].
  exists s2, L2, F2; split_and!; [by eapply reach_trans|by rewrite Hnod2, Hnod, twice_updated by lia|].
  apply (synced_trans j L L1 L2 F F1 F2); [exact Hlead|exact Ho|lia|exact Hsy].
Qed.

(** The leader repeats its calls until the follower has its log. *)
Lemma sync_fuel Q fuel : forall s i j r L F ni,
  good s -> reps s !! r = Some (mkRep i j RIdle true) -> i ∈ Q -> j ∈ Q -> i <> j -> idx (nodes s) i = Some L -> idx (nodes s) j = Some F ->
  state L = Leader -> currentTerm F <= currentTerm L -> idx (nextIndex L) j = Some ni -> (Z.to_nat (ni - snapIndex L) <= fuel)%nat ->
  exists s' L' F', reach Q s s' /\ nodes s' = <[Z.to_nat i := L']> (<[Z.to_nat j := F']> (nodes s)) /\ synced j L L' F F'.
Proof.
  induction fuel as [|fuel IH]; intros s i j r L F ni HG Hr HiQ HjQ Hne HiL HjF HL Ht Hni Hfu;
    destruct (good_facts s i L HG HiL) as (_ & _ & Htab); destruct (Htab HL) as [_ Hin];
    pose proof (good_backing s i j L F HG HiL HjF Hne HL Ht) as HB;
    (destruct (send_decision j L F ni HB Hni (Hin j ni Hni)) as [[_ Hsend]|(args & Hlt & Hsend & Hprev)]; [by eapply sync_install|]).
  { lia. }
  pose proof (idx_Some_range _ _ _ HiL) as Hli; pose proof (idx_Some_range _ _ _ HjF) as Hlj.
  destruct (append_round Q s i j r L F args) as (s1 & L1 & F1 & Hre & Hnod & Hr1 & Hlead & Htm & Hsn & Ho & Hcase); try done.
  destruct Hcase as [Hsy|(_ & ni1 & Hn1 & Hl1)]; [exists s1, L1, F1; done|].
  destruct (two_updates (nodes s) i j L1 F1 Hne Hli Hlj) as (E1 & E2 & _ & _); rewrite <- Hnod in E1, E2.
  pose proof (le_term _ _ Hlead) as Elt; pose proof (le_snap _ _ Hlead) as Els.
  destruct (IH s1 i j r L1 F1 ni1) as (s2 & L2 & F2 & Hre2 & Hnod2 & Hsy); try done; [by eapply good_reach|apply Hlead|lia|lia|].
  exists s2, L2, F2; split_and!; [by eapply reach_trans|by rewrite Hnod2, Hnod, twice_updated by lia|].
  apply (synced_trans j L L1 L2 F F1 F2); [exact Hlead|exact Ho|lia|exact Hsy].
Qed.

Lemma sync Q s i j L F :
  good s -> i ∈ Q -> j ∈ Q -> i <> j -> idx (nodes s) i = Some L -> idx (nodes s) j = Some F ->
  state L = Leader -> currentTerm F <= currentTerm L ->
  exists s' L' F', reach Q s s' /\ nodes s' = <[Z.to_nat i := L']> (<[Z.to_nat j := F']> (nodes s)) /\ synced j L L' F F'.
Proof.
  intros HG HiQ HjQ Hne HiL HjF HL Ht. destruct (good_facts s j F HG HjF) as ([Hrj _ _ _ _ _ _] & _ & _).
  destruct (becomes_idle Q s i j L HG HiL HL HiQ Hrj ltac:(congruence)) as (s1 & r & Hre & En & Hr). rewrite <- En in HiL, HjF.
  assert (HG1 : good s1) by (by eapply good_reach). destruct (good_facts s1 i L HG1 HiL) as (_ & _ & Htab); destruct (Htab HL) as [[Hn _] _].
  destruct (idx_in_range (nextIndex L) j) as [ni Hni]; [lia|].
  destruct (sync_fuel Q _ s1 i j r L F ni HG1 Hr HiQ HjQ Hne HiL HjF HL Ht Hni (Nat.le_refl _)) as (s2 & L2 & F2 & Hre2 & Hnod & Hsy).
  exists s2, L2, F2; split_and!; [by eapply reach_trans|by rewrite Hnod, En|done].
Qed.

(** The leader does so with every peer in a list. *)
Lemma sync_all Q (b : Z) js : forall s i L,
  NoDup js -> (forall j, j ∈ js -> j ∈ Q /\ j <> i /\ 0 <= j < Z.of_nat n) -> good s -> i ∈ Q -> idx (nodes s) i = Some L -> state L = Leader -> snapIndex L < b ->
  (forall q F, q ∈ js -> idx (nodes s) q = Some F -> currentTerm F <= currentTerm L /\ snapIndex F < b) ->
  exists s' L', reach Q s s' /\ idx (nodes s') i = Some L' /\ leads L L' /\ (js = [] -> L' = L) /\ (js <> [] -> forall N, ~ committable N L')
    /\ (forall j, j ∈ js -> idx (matchIndex L') j = Some (logLength L - 1)) /\ (forall j, j ∉ js -> idx (matchIndex L') j = idx (matchIndex L) j)
    /\ (forall j, j ∈ js -> exists F, idx (nodes s') j = Some F /\ currentTerm F = currentTerm L /\ caught_up L F
         /\ commitIndex L <= commitIndex F /\ snapIndex F < b)
    /\ (forall q, q <> i -> q ∉ js -> idx (nodes s') q = idx (nodes s) q).
Proof.
  induction js as [|j js IH]; intros s i L Hnd Hjs HG HiQ HiL HL Hb Hot.
  { exists s, L; split_and!; try done; [apply reach_refl|..]; intros ? Hin; by apply elem_of_nil in Hin. }
  apply NoDup_cons in Hnd as [Hnin Hnd]. destruct (Hjs j ltac:(left)) as (HjQ & Hne & Hrj).
  assert (HjF : exists F, idx (nodes s) j = Some F).
  { destruct HG as (V & H & LL & A & PP & HS). by eapply healthy_at. }
  destruct HjF as [F HjF]. destruct (Hot j F ltac:(left) HjF) as [Ht Hsf].
  destruct (sync Q s i j L F) as (s1 & L1 & F1 & Hre & Hnod & Hsy); try done.
  pose proof (idx_Some_range _ _ _ HiL) as Hli; pose proof (idx_Some_range _ _ _ HjF) as Hlj.
  destruct (two_updates (nodes s) i j L1 F1 ltac:(congruence) Hli Hlj) as (E1 & E2 & _ & Eo); rewrite <- Hnod in E1, E2, Eo.
  destruct Hsy as [Hlead Hm Ho Hdone Htm Hcu Hco Hsn]. pose proof (leads_length _ _ Hlead) as Hlen. pose proof Hlead as [HL1 Et El Es _ _ Hcm].
  destruct (IH s1 i L1) as (s2 & L2 & Hre2 & HiL2 & Hlead2 & Hnil & Hdone2 & Hm2 & Ho2 & HF2 & Hq2); try done.
  { intros k Hk; apply Hjs; by right. }
  { by eapply good_reach. }
  { by rewrite Es. }
  { intros q G Hq HqG. rewrite Eo in HqG; [|destruct (Hjs q); [by right|tauto]|intros ->; done]. rewrite Et. apply (Hot q G); [by right|done]. }
  exists s2, L2. rewrite Hlen in Hm2. split_and!.
  - by eapply reach_trans.
  - done.
  - by eapply leads_trans.
  - done.
  - intros _. destruct js as [|j' js']; [by rewrite Hnil|by apply Hdone2].
  - intros k [->|Hk]%elem_of_cons; [by rewrite Ho2|by apply Hm2].
  - intros k Hk. rewrite not_elem_of_cons in Hk. rewrite Ho2 by tauto. apply Ho; tauto.
  - intros k [->|Hk]%elem_of_cons.
    + exists F1. rewrite Hq2, E2 by done. split_and!; try done. lia.
    + destruct (HF2 k Hk) as (G & HkG & G1 & G2 & G3 & G4). exists G; split_and!; try done; [congruence| |lia].
      intros p Hp HpL. destruct (G2 p Hp) as (eF & eL & ? & HeL & ?); [lia|]. exists eF, eL; split_and!; try done. by rewrite <- (get_ext L L1).
  - intros q Hqi Hq. rewrite not_elem_of_cons in Hq. rewrite Hq2 by tauto. apply Eo; tauto.
Qed.

Lemma good_entry s i j k L F a b :
  good s -> idx (nodes s) i = Some L -> idx (nodes s) j = Some F -> snapIndex L < k -> snapIndex F < k ->
  get L k = Some a -> get F k = Some b -> Term a = Term b -> a = b.
Proof.
  intros (V & H & LL & A & PP & HS) Hi Hj HsL HsF Ha Hb Ht. pose proof (he_log _ _ _ _ _ _ _ HS) as HI.
  destruct (winv_node n V H LL A PP s i L HI Hi) as (PL & _ & _ & VL & NL), (winv_node n V H LL A PP s j F HI Hj) as (PF & _ & _ & VF & NF).
  rewrite (view_get n H A PL) in Ha by done. rewrite (view_get n H A PF) in Hb by done.
  pose proof (path_match H PL PF k a b (no_path _ _ _ _ _ _ NL) (no_path _ _ _ _ _ _ NF) Ha Hb Ht k ltac:(lia)). congruence.
Qed.

(** What a majority holds the leader commits. *)
Lemma quorum_commits Q k L e :
  peers L = n -> NoDup Q -> (n / 2 < length Q)%nat -> (forall q, q ∈ Q -> 0 <= q < Z.of_nat n) ->
  (forall q, q ∈ Q -> q = me L \/ idx (matchIndex L) q = Some k) -> snapIndex L < k < logLength L ->
  get L k = Some e -> Term e = currentTerm L -> (forall N, ~ committable N L) -> k <= commitIndex L.
Proof.
  intros Hpe Hnd Hmaj Hr Hh Hk He Ht Hno. destruct (decide (k <= commitIndex L)) as [|Hc]; [done|]. destruct (Hno k).
  split; [lia|]. split; [done|]. split; [|eauto]. rewrite Hpe. eapply Nat.lt_le_trans; [exact Hmaj|].
  apply submseteq_length, NoDup_submseteq; [done|]. intros q Hq. unfold holders. apply list_elem_of_filter. split.
  - unfold holds. apply Is_true_eq_left, orb_true_iff. destruct (Hh q Hq) as [->| ->]; [left; apply Z.eqb_refl|right; rewrite Z.geb_leb; apply Z.leb_refl].
  - apply elem_of_seqZ. rewrite Hpe. specialize (Hr q Hq); lia.
Qed.

(** A leader whom nobody in a majority is ahead of gets a command committed. *)
Lemma leader_commits_command Q s i L c :
  (2 <= n)%nat -> NoDup Q -> (n / 2 < length Q)%nat -> (forall q, q ∈ Q -> 0 <= q < Z.of_nat n) ->
  good s -> i ∈ Q -> idx (nodes s) i = Some L -> state L = Leader ->
  (forall q F, q ∈ Q -> idx (nodes s) q = Some F -> currentTerm F <= currentTerm L) ->
  exists s' k T, reach Q s s' /\ forall q, q ∈ Q -> exists F, idx (nodes s') q = Some F
    /\ snapIndex F < k <= commitIndex F /\ get F k = Some (mkEntry T (Some c)).
Proof.
  intros Hn Hnd Hmaj Hr HG HiQ HiL HL Hot. set (k := logLength L). set (L1 := (Start c L).1).
  destruct (good_facts s i L HG HiL) as ([Hri Hme Hpe HwL HsL _ _] & _ & _).
  assert (E1 : L1 = append (mkEntry (currentTerm L) (Some c)) L) by (unfold L1, Start; by rewrite (bool_decide_eq_true_2 _ HL)).
  destruct (set_node_ok s i L L1 HiL) as (s1 & Hset & Hu & _).
  assert (Hre1 : reach Q s s1).
  { eapply (reach_one Q s s1 (EStart i c)); [done|by apply bool_decide_eq_true|]. simpl. by rewrite HiL. }
  assert (HG1 : good s1) by (by eapply good_reach). pose proof (idx_upd_eq _ _ _ _ Hu) as HiL1.
  assert (Hlen1 : logLength L1 = k + 1).
  { rewrite E1; unfold k, logLength; simpl. rewrite len_app, len_cons, len_nil. lia. }
  assert (Hge1 : get L1 k = Some (mkEntry (currentTerm L) (Some c))).
  { rewrite E1; unfold get; simpl. unfold k, logLength. replace (len (log L) + snapIndex L - snapIndex L) with (len (log L)) by lia. by rewrite idx_middle. }
  assert (F1 : state L1 = Leader /\ currentTerm L1 = currentTerm L /\ snapIndex L1 = snapIndex L /\ me L1 = i /\ peers L1 = n) by (by rewrite E1).
  destruct F1 as (HL1 & Et1 & Es1 & Em1 & Ep1). set (js := filter (fun q => q <> i) Q).
  assert (Hsk : snapIndex L < k) by (unfold k, logLength, wf_log in *; lia).
  assert (Hjs : forall j, j ∈ js <-> j <> i /\ j ∈ Q) by (intros j; unfold js; by rewrite list_elem_of_filter).
  assert (Hjs' : forall j, j ∈ js -> j ∈ Q /\ j <> i /\ 0 <= j < Z.of_nat n) by (intros j [? ?]%Hjs; auto).
  assert (Hndj : NoDup js) by (by apply NoDup_filter).
  assert (Hne : js <> []).
  { intros E. assert (Hall : forall q, q ∈ Q -> q ∈ [i]).
    { intros q Hq. destruct (decide (q = i)) as [->|Hqi]; [left|]. assert (Hin : q ∈ js) by (by apply Hjs). rewrite E in Hin; by apply elem_of_nil in Hin. }
    pose proof (submseteq_length _ _ (NoDup_submseteq _ _ Hnd Hall)) as Hle; simpl in Hle.
    assert (1 <= n / 2)%nat by (by apply (Nat.div_le_lower_bound n 2 1)). lia. }
  destruct (sync_all Q k js s1 i L1) as (s2 & L2 & Hre2 & HiL2 & Hlead2 & _ & Hdone2 & Hm2 & _ & HF2 & _); try done; [lia| |].
  { intros q F [Hqi Hq]%Hjs HqF. rewrite (idx_upd_ne _ _ _ _ _ Hu) in HqF by congruence. rewrite Et1. split; [by apply (Hot q)|].
    apply (good_snap s i q L F); try done. by apply (Hot q). }
  pose proof (leads_length _ _ Hlead2) as Hlen2. pose proof Hlead2 as [HL2 Et2 El2 Es2 Ep2 Em2 _].
  assert (Hge2 : get L2 k = Some (mkEntry (currentTerm L) (Some c))) by (by rewrite (get_ext L1 L2)).
  assert (Hc2 : k <= commitIndex L2).
  { apply (quorum_commits Q k L2 (mkEntry (currentTerm L) (Some c))); try done; [congruence| |lia|simpl; congruence|by apply Hdone2].
    intros q Hq; destruct (decide (q = i)) as [->|Hqi]; [left; congruence|right]. rewrite Hm2 by (by apply Hjs). f_equal; lia. }
  assert (HG2 : good s2) by (by eapply good_reach).
  destruct (sync_all Q k js s2 i L2) as (s3 & L3 & Hre3 & HiL3 & Hlead3 & _ & _ & _ & _ & HF3 & _); try done; [lia| |].
  { intros q F Hq HqF. destruct (HF2 q Hq) as (F' & HqF' & Ht & _ & _ & Hs). rewrite HqF in HqF'; injection HqF' as <-. split; [lia|done]. }
  pose proof Hlead3 as [HL3 Et3 El3 Es3 _ _ Hc3].
  assert (Hge3 : get L3 k = Some (mkEntry (currentTerm L) (Some c))) by (by rewrite (get_ext L2 L3)).
  exists s3, k, (currentTerm L); split; [by eapply reach_trans; [|eapply reach_trans]|]. intros q Hq. destruct (decide (q = i)) as [->|Hqi].
  - exists L3; split_and!; try done; lia.
  - destruct (HF3 q) as (F & HqF & Ht & Hcu & Hco & Hs); [by apply Hjs|]. exists F; split_and!; try done; [lia|].
    destruct (Hcu k Hs) as (eF & eL & HeF & HeL & Hee); [lia|]. rewrite HeF. f_equal.
    apply (good_entry s3 q i k F L3); try done; [by eapply good_reach|lia|congruence].
Qed.
End sync.

(** ** An election *)

Section campaign.
Context {Cmd : Type} `{!GobType Cmd}.
Implicit Types (s : cluster Cmd) (rf B L F : Raft Cmd) (i j k q : Z) (r c : nat).
Context (n : nat).

(** The term and the index of the last entry, and their order. *)
Definition lastOf rf : option (Z * Z) := (fun e => (Term e, logLength rf - 1)) <$> get rf (logLength rf - 1).
Definition atMost (x y : Z * Z) : Prop := x.1 < y.1 \/ (x.1 = y.1 /\ x.2 <= y.2).

Lemma topmost (key : Z -> Z * Z) (Q : list Z) : Q <> [] -> exists m, m ∈ Q /\ forall q, q ∈ Q -> atMost (key q) (key m).
Proof.
  induction Q as [|x Q IH]; [done|]; intros _. destruct (decide (Q = [])) as [->|Hne].
  { exists x; split; [left|]. intros q ->%list_elem_of_singleton. right; done. }
  destruct (IH Hne) as (m & Hm & Hall). assert (Hor : atMost (key x) (key m) \/ atMost (key m) (key x)) by (unfold atMost; lia).
  destruct Hor as [Hle|Hle]; [exists m; split; [by right|]|exists x; split; [left|]]; intros q [->|Hq]%elem_of_cons; try done; [by apply Hall|by right|].
  specialize (Hall q Hq). unfold atMost in *; lia.
Qed.

Definition same rf rf' : Prop := log rf' = log rf /\ snapIndex rf' = snapIndex rf.

Lemma same_last rf rf' : same rf rf' -> lastOf rf' = lastOf rf.
Proof. intros [El Es]; unfold lastOf. by rewrite (logLength_ext rf rf'), (get_ext rf rf') by done. Qed.

Lemma same_trans rf1 rf2 rf3 : same rf1 rf2 -> same rf2 rf3 -> same rf1 rf3.
Proof. intros [] []; split; congruence. Qed.

(** A vote request of a later term. *)
Lemma vote_effect now args F : currentTerm F < rv_Term args -> wf_log F ->
  exists F' reply, RequestVote now args F = Some (F', reply) /\ same F F' /\ currentTerm F' = rv_Term args /\ state F' = Follower
    /\ rvr_Term reply = rv_Term args
    /\ (forall l, lastOf F = Some l -> atMost l (LastLogTerm args, LastLogIndex args) -> VoteGranted reply = true).
Proof.
  intros Ht Hwf; unfold RequestVote. destruct (rv_Term args >? currentTerm F) eqn:E; zbool; [|lia]. simpl. rewrite Z.ltb_irrefl.
  unfold tryVotingFor. change (get (newGen (rv_Term args) F)) with (get F). change (logLength (newGen (rv_Term args) F)) with (logLength F).
  destruct (wf_log_last F Hwf) as [e He]. rewrite He; cbn [mbind option_bind].
  change (votedFor (newGen (rv_Term args) F) =? -1) with true; cbn [orb andb].
  match goal with |- context [if ?b then Some _ else Some _] => destruct b eqn:Eb end; cbn [mbind option_bind];
    (eexists _, _; split; [done|]); split_and!; try done. simpl.
  intros l; unfold lastOf; rewrite He; intros [= <-]; unfold atMost; simpl; intros Hle. exfalso.
  zbool. match goal with Hx : _ \/ _, Hy : (_ =? _) = false \/ _ |- _ => destruct Hy; zbool; lia end.
Qed.

(** The three steps of a vote goroutine whose call is not lost. *)
Lemma ballot s (Q : list Z) b B rd T m c j F args F' reply B' m' sp :
  b ∈ Q -> j ∈ Q -> j <> b -> vcalls s !! c = Some (mkVcall b rd j VStart true) -> rounds s !! rd = Some (mkRound b T m) ->
  idx (nodes s) b = Some B -> currentTerm B = T -> idx (nodes s) j = Some F ->
  opinionArgs B = Some args -> RequestVote 0 args F = Some (F', reply) -> opinionReply args reply m B = (B', m', sp) ->
  exists s', reach Q s s' /\ idx (nodes s') b = Some B' /\ idx (nodes s') j = Some F'
    /\ (forall k, k <> b -> k <> j -> idx (nodes s') k = idx (nodes s) k)
    /\ rounds s' !! rd = Some (mkRound b T m') /\ (forall ck, c <> ck -> vcalls s' !! ck = vcalls s !! ck).
Proof.
  intros HbQ HjQ Hjb Hc Hrd HB HBt HF Hargs HRV EO.
  set (s1 := set_vstage c (VSent args) s).
  set (s2 := set_vstage c (VReplied args reply) (mkCluster (<[Z.to_nat j := F']> (nodes s)) (rounds s) (vcalls s1) (reps s))).
  set (s3 := spawn_reps b sp (set_supporter rd m' (set_vstage c VDone (mkCluster (<[Z.to_nat b := B']> (nodes s2)) (rounds s) (vcalls s2) (reps s))))).
  assert (H1 : vcalls s1 !! c = Some (mkVcall b rd j (VSent args) true)) by (simpl; by rewrite list_lookup_alter_eq, Hc).
  assert (H2 : vcalls s2 !! c = Some (mkVcall b rd j (VReplied args reply) true)) by (simpl; by rewrite !list_lookup_alter_eq, Hc).
  assert (Uj : upd (nodes s) j F' = Some (nodes s2)) by (apply upd_ok; by eapply idx_Some_range).
  assert (HB2 : idx (nodes s2) b = Some B) by (by rewrite (idx_upd_ne _ _ _ _ _ Uj)).
  assert (Ub : upd (nodes s2) b B' = Some (nodes s3)) by (apply upd_ok; by eapply idx_Some_range).
  exists s3; split_and!.
  - eapply (reach_step Q s s1 _ (EBuild c)); [simpl; rewrite Hc; simpl; rewrite Hrd, HB, HBt; apply Z.eqb_refl|simpl; rewrite Hc; by apply bool_decide_eq_true| |].
    { unfold exec, execBuild. rewrite Hc; cbn [mbind option_bind vc_stage vc_live vc_owner]. rewrite HB; cbn [mbind option_bind]. by rewrite Hargs. }
    eapply (reach_step Q s1 s2 _ (EVote c 0)); [done|simpl in *; rewrite H1; by apply bool_decide_eq_true| |].
    { unfold exec, execVote. rewrite H1; cbn [mbind option_bind vc_stage vc_server]. change (nodes s1) with (nodes s). rewrite HF; cbn [mbind option_bind].
      rewrite HRV; cbn [mbind option_bind]. unfold set_node. change (nodes s1) with (nodes s). by rewrite Uj. }
    eapply (reach_one Q s2 s3 (EVoteReply c)); [done|simpl in *; rewrite H2; by apply bool_decide_eq_true|].
    unfold exec, execVoteReply. rewrite H2; cbn [mbind option_bind vc_stage vc_live vc_owner vc_round]. rewrite HB2; cbn [mbind option_bind].
    change (rounds s2) with (rounds s). rewrite Hrd; cbn [mbind option_bind rd_supporter]. rewrite EO. unfold set_node. by rewrite Ub.
  - by apply (idx_upd_eq _ _ _ _ Ub).
  - rewrite (idx_upd_ne _ _ _ _ _ Ub) by congruence. by apply (idx_upd_eq _ _ _ _ Uj).
  - intros k Hkb Hkj. by rewrite (idx_upd_ne _ _ _ _ _ Ub), (idx_upd_ne _ _ _ _ _ Uj) by congruence.
  - simpl; by rewrite list_lookup_alter_eq, Hrd.
  - intros ck Hk. simpl; by rewrite !list_lookup_alter_ne.
Qed.

(** Peer [b] asks for votes in term [T]: [js] are the peers of [Q] it has not yet asked. *)
Section round.
Context (s0 : cluster Cmd) (Q : list Z) (b : Z) (B0 : Raft Cmd) (rd : nat) (T : Z).

Definition best : Prop :=
  forall q F0 l lb, q ∈ Q -> idx (nodes s0) q = Some F0 -> lastOf F0 = Some l -> lastOf B0 = Some lb -> atMost l lb.

Record camp (js : list Z) s : Prop := {
  ca_good : good n s;
  ca_round : exists m, rounds s !! rd = Some (mkRound b T m) /\ (m <= n / 2)%nat /\ (best -> m + length js = length Q)%nat;
  ca_cand : exists B, idx (nodes s) b = Some B /\ state B = Candidate /\ currentTerm B = T /\ same B0 B;
  ca_calls : forall j, j ∈ js -> exists c, vcalls s !! c = Some (mkVcall b rd j VStart true);
  ca_rest : forall j, j ∈ js -> idx (nodes s) j = idx (nodes s0) j;
  ca_done : forall q, q ∈ Q -> q <> b -> q ∉ js -> exists F0 F, idx (nodes s0) q = Some F0 /\ idx (nodes s) q = Some F
    /\ currentTerm F = T /\ state F = Follower /\ same F0 F;
}.

(** The round is over: [b] leads, and no peer of [Q] is ahead of it. *)
Definition won s : Prop := exists L, idx (nodes s) b = Some L /\ state L = Leader /\ currentTerm L = T
  /\ forall q F, q ∈ Q -> idx (nodes s) q = Some F -> currentTerm F <= T.

Hypothesis others : forall q, q ∈ Q -> 0 <= q < Z.of_nat n /\ exists F0, idx (nodes s0) q = Some F0 /\ (q <> b -> currentTerm F0 < T).

Lemma camp_terms js s : camp js s -> (forall j, j ∈ js -> j ∈ Q /\ j <> b) -> forall q F, q ∈ Q -> idx (nodes s) q = Some F -> currentTerm F <= T.
Proof.
  intros [HG Hrd (B & HB & _ & Et & _) Hc Hrest Hdone] Hjs q F Hq HF. destruct (decide (q = b)) as [->|Hne]; [rewrite HB in HF; injection HF as <-; lia|].
  destruct (decide (q ∈ js)) as [Hin|Hin].
  - rewrite (Hrest q Hin) in HF. destruct (others q Hq) as (_ & F0 & H0 & Hlt). rewrite H0 in HF; injection HF as <-. specialize (Hlt Hne); lia.
  - destruct (Hdone q Hq Hne Hin) as (_ & F1 & _ & H1 & E & _). rewrite H1 in HF; injection HF as <-. lia.
Qed.

Lemma opinionReply_current args reply m B :
  rvr_Term reply = T -> currentTerm B = T -> rv_Term args = T -> state B = Candidate -> peers B = n ->
  opinionReply args reply m B =
    if VoteGranted reply then if (n / 2 <? S m)%nat then ((becomeLeader B).1, S m, (becomeLeader B).2) else (B, S m, []) else (B, m, []).
Proof.
  intros Er Et Ea HC Hp; unfold opinionReply. rewrite Er, Et, Z.gtb_ltb, Z.ltb_irrefl, Ea, Et, Z.eqb_refl, (bool_decide_eq_true_2 _ HC), Hp.
  destruct (VoteGranted reply); done.
Qed.

(** The peer asks one more. *)
Lemma camp_step j js s :
  NoDup (j :: js) -> b ∈ Q -> (forall k, k ∈ j :: js -> k ∈ Q /\ k <> b) -> camp (j :: js) s ->
  exists s', reach Q s s' /\ (won s' \/ camp js s').
Proof.
  intros Hnd HbQ Hjs HC. pose proof HC as [HG (m & Hrd & Hm & Hbest) (B & HB & HBc & HBt & HBs) Hcalls Hrest Hdone].
  apply NoDup_cons in Hnd as [Hnin Hnd]. destruct (Hjs j ltac:(left)) as [HjQ Hjb]. destruct (Hcalls j ltac:(left)) as [c Hc].
  destruct (others j HjQ) as (Hrj & F & HF0 & Hlt). specialize (Hlt Hjb). assert (HF : idx (nodes s) j = Some F) by (by rewrite Hrest; [|left]).
  destruct (good_facts n s b B HG HB) as ([_ Hme Hpe HwB _ _ _] & _ & _). destruct (good_facts n s j F HG HF) as ([_ _ _ HwF _ _ _] & _ & _).
  destruct (wf_log_last B HwB) as [eB HeB]. set (args := mkRequestVoteArgs T b (logLength B - 1) (Term eB)).
  assert (Hargs : opinionArgs B = Some args) by (unfold opinionArgs; rewrite HeB; cbn [mbind option_bind]; by rewrite HBt, Hme).
  destruct (vote_effect 0 args F) as (F' & reply & HRV & HFs & HFt & HFf & Hrt & Hgrant); [done|done|].
  destruct (opinionReply args reply m B) as [[B' m'] sp] eqn:EO.
  destruct (ballot s Q b B rd T m c j F args F' reply B' m' sp) as (s3 & Hre & HB3 & HF3 & Hat & Hrd3 & Hcs); try done.
  assert (Hcont : B' = B -> (m' <= n / 2)%nat -> (best -> m' = S m) -> camp js s3).
  { intros -> Hm' Hg. split.
    - by eapply good_reach.
    - exists m'; split; [done|]. split; [done|]. intros Hb; rewrite (Hg Hb). specialize (Hbest Hb); simpl in Hbest; lia.
    - by exists B.
    - intros k Hk. destruct (Hcalls k ltac:(by right)) as [ck Hck]. exists ck. assert (Hne : c <> ck) by (intros ->; rewrite Hck in Hc; congruence).
      by rewrite Hcs.
    - intros k Hk. destruct (Hjs k ltac:(by right)). rewrite Hat by (done || intros ->; done). apply Hrest; by right.
    - intros q Hq Hqb Hqj. destruct (decide (q = j)) as [->|Hqne]; [by exists F, F'|]. rewrite Hat by done. apply Hdone; try done.
      by rewrite not_elem_of_cons. }
  exists s3; split; [done|]. rewrite (opinionReply_current args reply m B Hrt HBt eq_refl HBc Hpe) in EO.
  assert (HLB : lastOf B0 = Some (Term eB, logLength B - 1)) by (rewrite <- (same_last _ _ HBs); unfold lastOf; by rewrite HeB).
  destruct (VoteGranted reply) eqn:EG; [destruct (n / 2 <? S m)%nat eqn:EM|]; injection EO as <- <- <-.
  - left. eexists; split; [exact HB3|]. split; [done|]. split; [done|]. intros q G Hq HqG.
    destruct (decide (q = b)) as [->|Hqb]; [rewrite HB3 in HqG; injection HqG as <-; simpl; lia|].
    destruct (decide (q = j)) as [->|Hqj]; [rewrite HF3 in HqG; injection HqG as <-; rewrite HFt; simpl; lia|].
    rewrite Hat in HqG by done. by eapply (camp_terms (j :: js) s HC).
  - right. apply Hcont; [done| |done]. apply Nat.ltb_ge in EM; lia.
  - right. apply Hcont; [done|done|]. intros Hb. exfalso.
    destruct (wf_log_last F HwF) as [eF HeF]. assert (HLF : lastOf F = Some (Term eF, logLength F - 1)) by (unfold lastOf; by rewrite HeF).
    pose proof (Hgrant _ HLF (Hb j F _ _ HjQ HF0 HLF HLB)). congruence.
Qed.

Lemma camp_run js : forall s, NoDup js -> b ∈ Q -> (forall k, k ∈ js -> k ∈ Q /\ k <> b) -> camp js s ->
  exists s', reach Q s s' /\ (won s' \/ camp [] s').
Proof.
  induction js as [|j js IH]; intros s Hnd HbQ Hjs HC; [exists s; split; [apply reach_refl|by right]|].
  destruct (camp_step j js s Hnd HbQ Hjs HC) as (s1 & Hre & [Hw|HC1]); [exists s1; split; [done|by left]|].
  apply NoDup_cons in Hnd as [_ Hnd]. destruct (IH s1 Hnd HbQ) as (s2 & Hre2 & Hor); [intros k Hk; apply Hjs; by right|done|].
  exists s2; split; [by eapply reach_trans|done].
Qed.
End round.
End campaign.

(** ** Progress *)

Section progress.
Context {Cmd : Type} `{!GobType Cmd}.
Implicit Types (s : cluster Cmd) (rf B L F : Raft Cmd) (i j k q b : Z) (r c : nat) (Q : list Z).
Context (n : nat).

Lemma without_length Q b : NoDup Q -> b ∈ Q -> S (length (filter (fun q => q <> b) Q)) = length Q.
Proof.
  intros Hnd Hb. assert (Hp : Q ≡ₚ b :: filter (fun q => q <> b) Q); [|by rewrite Hp at 2].
  apply NoDup_Permutation; [done| |].
  - constructor; [by rewrite list_elem_of_filter; intros [? _]|by apply NoDup_filter].
  - intros q. rewrite elem_of_cons, list_elem_of_filter. destruct (decide (q = b)) as [->|]; tauto.
Qed.

(** A peer that does not lead starts a round. *)
Lemma camp_start Q s b B :
  (2 <= n)%nat -> NoDup Q -> b ∈ Q -> (forall q, q ∈ Q -> 0 <= q < Z.of_nat n) -> good n s -> idx (nodes s) b = Some B -> state B <> Leader ->
  exists s', reach Q s s' /\ camp n s Q b B (length (rounds s)) (currentTerm B + 1) (filter (fun q => q <> b) Q) s'.
Proof.
  intros Hn Hnd HbQ Hr HG HB HnL. destruct (good_facts n s b B HG HB) as ([_ Hme Hpe _ _ _ _] & Hd & _).
  set (now := lastTouchedAt B + SELECTION_TIMEOUT + 1). set (B1 := becomeCandidate B).
  assert (Ht : tick now B = (B1, true)).
  { unfold tick. rewrite (bool_decide_eq_false_2 _ HnL). case_if; [done|]. unfold now in *; lia. }
  destruct (set_node_ok s b B B1 HB) as (s1 & Hset & Hu & Ern & Evc & Erp). set (s2 := collectOpinion B1 s1).
  assert (Hre : reach Q s s2).
  { eapply (reach_one Q s s2 (ETick b now)); [done|by apply bool_decide_eq_true|]. unfold exec, execTick. rewrite HB; cbn [mbind option_bind].
    unfold killed; rewrite Hd, Ht, Hset. done. }
  exists s2; split; [done|]. pose proof (idx_upd_eq _ _ _ _ Hu) as HB1.
  assert (Hjs : forall j, j ∈ filter (fun q => q <> b) Q <-> j <> b /\ j ∈ Q) by (intros j; by rewrite list_elem_of_filter).
  split.
  - by eapply good_reach.
  - exists 1%nat; split; [|split; [by apply (Nat.div_le_lower_bound n 2 1)|intros _; by apply without_length]].
    simpl. rewrite Ern, lookup_app_r, Nat.sub_diag by lia. by rewrite Hme.
  - exists B1. split_and!; done.
  - intros j [Hjb HjQ]%Hjs. specialize (Hr j HjQ).
    assert (Hin : j ∈ filter (fun k => k <> me B1) (seqZ 0 (Z.of_nat (peers B1)))).
    { apply list_elem_of_filter; split; [simpl; congruence|]. apply elem_of_seqZ. simpl; rewrite Hpe; lia. }
    apply list_elem_of_lookup in Hin as [x Hx]. exists (length (vcalls s1) + x)%nat. simpl.
    rewrite lookup_app_r, Nat.add_sub_swap, Nat.sub_diag by lia. simpl in Hx |- *. rewrite list_lookup_fmap, Hx. simpl. by rewrite Ern, Hme.
  - intros j [Hjb _]%Hjs. by apply (idx_upd_ne _ _ _ _ _ Hu).
  - intros q Hq Hqb Hnot. destruct Hnot; by apply Hjs.
Qed.

(** A peer that nobody of the majority is ahead of wins, or at least ends every
    older leadership; it wins if its log is the best. *)
Lemma campaign Q s b B :
  (2 <= n)%nat -> NoDup Q -> (n / 2 < length Q)%nat -> b ∈ Q -> (forall q, q ∈ Q -> 0 <= q < Z.of_nat n) ->
  good n s -> idx (nodes s) b = Some B -> state B <> Leader -> (forall q F, q ∈ Q -> idx (nodes s) q = Some F -> currentTerm F <= currentTerm B) ->
  exists s', reach Q s s'
    /\ ((exists L, idx (nodes s') b = Some L /\ state L = Leader /\ forall q F, q ∈ Q -> idx (nodes s') q = Some F -> currentTerm F <= currentTerm L)
        \/ (~ best s Q B /\ forall q F, q ∈ Q -> idx (nodes s') q = Some F -> state F <> Leader /\ currentTerm F = currentTerm B + 1)).
Proof.
  intros Hn Hnd Hmaj HbQ Hr HG HB HnL Htop. destruct (camp_start Q s b B Hn Hnd HbQ Hr HG HB HnL) as (s1 & Hre & HC).
  destruct (camp_run n s Q b B (length (rounds s)) (currentTerm B + 1)) with (js := filter (fun q => q <> b) Q) (s := s1) as (s2 & Hre2 & Hor); try done.
  - intros q Hq; split; [by apply Hr|]. destruct HG as (V & H & LL & A & PP & HS). destruct (healthy_at n V H LL A PP s q HS (Hr q Hq)) as [F HF].
    exists F; split; [done|]. intros _; specialize (Htop q F Hq HF); lia.
  - by apply NoDup_filter.
  - intros k; rewrite list_elem_of_filter; tauto.
  - exists s2; split; [by eapply reach_trans|]. destruct Hor as [(L & HL & HLs & HLt & Hall)|[_ (m & _ & Hm & Hbest) (B' & HB' & Hc & Hbt & _) _ _ Hdone]].
    + left; exists L; split_and!; try done. intros q F Hq HF; rewrite HLt. by apply (Hall q).
    + right; split; [intros Hb; specialize (Hbest Hb); simpl in Hbest; lia|]. intros q F Hq HF. destruct (decide (q = b)) as [->|Hne].
      * rewrite HB' in HF; injection HF as <-. split; [congruence|done].
      * destruct (Hdone q Hq Hne) as (_ & F1 & _ & HF1 & ? & Hs & _); [apply not_elem_of_nil|]. rewrite HF1 in HF; injection HF as <-. split; [congruence|done].
Qed.

(** A majority gets a leader. *)
Lemma elects Q s :
  (2 <= n)%nat -> NoDup Q -> (n / 2 < length Q)%nat -> (forall q, q ∈ Q -> 0 <= q < Z.of_nat n) -> good n s ->
  exists s' i L, reach Q s s' /\ i ∈ Q /\ idx (nodes s') i = Some L /\ state L = Leader
    /\ forall q F, q ∈ Q -> idx (nodes s') q = Some F -> currentTerm F <= currentTerm L.
Proof.
  intros Hn Hnd Hmaj Hr HG. assert (Hne : Q <> []) by (intros ->; simpl in Hmaj; lia).
  assert (Hat : forall s, good n s -> forall q, q ∈ Q -> exists F, idx (nodes s) q = Some F).
  { intros s1 (V & H & LL & A & PP & HS) q Hq. eapply healthy_at; [exact HS|by apply Hr]. }
  destruct (topmost (fun q => (from_option currentTerm 0 (idx (nodes s) q), 0)) Q Hne) as (m & Hm & Htop). destruct (Hat s HG m Hm) as [M HM].
  assert (Htm : forall q F, q ∈ Q -> idx (nodes s) q = Some F -> currentTerm F <= currentTerm M).
  { intros q F Hq HF. specialize (Htop q Hq). unfold atMost in Htop; rewrite HM, HF in Htop; simpl in Htop. lia. }
  destruct (decide (state M = Leader)) as [HL|HnL]; [exists s, m, M; split_and!; try done; apply reach_refl|].
  destruct (campaign Q s m M) as (s1 & Hre1 & [(L & HL & HLs & Hall)|[_ Hq1]]); try done; [by exists s1, m, L|].
  assert (HG1 : good n s1) by (by eapply good_reach).
  destruct (topmost (fun q => default (0, 0) (idx (nodes s1) q ≫= lastOf)) Q Hne) as (b & Hb & Hbest). destruct (Hat s1 HG1 b Hb) as [B HB].
  destruct (Hq1 b B Hb HB) as [HnB HtB].
  destruct (campaign Q s1 b B) as (s2 & Hre2 & [(L & HL & HLs & Hall)|[Hno _]]); try done.
  - intros q F Hq HF. destruct (Hq1 q F Hq HF); lia.
  - exists s2, b, L; split_and!; try done. by eapply reach_trans.
  - destruct Hno. intros q F0 l lb Hq HF Hl Hlb. specialize (Hbest q Hq). rewrite HF, HB in Hbest; simpl in Hbest. by rewrite Hl, Hlb in Hbest.
Qed.

End progress.

(** A group of one peer is a dead end from the start: [collectOpinion] counts the
    votes when a reply comes, and there is nobody to send one. *)
Section single.
Context {Cmd : Type} `{!GobType Cmd}.
Implicit Types (s : cluster Cmd) (rf : Raft Cmd).

Lemma single_step V H LL A PP s s' ev i rf' :
  healthy 1 V H LL A PP s -> exec s ev = Some s' -> idx (nodes s') i = Some rf' -> state rf' = Leader ->
  exists rf, idx (nodes s) i = Some rf /\ state rf = Leader.
Proof.
  intros HS HR Hi HL.
  assert (Hv : forall c v, vcalls s !! c = Some v -> False).
  { intros c v Hc. destruct (ci_range _ _ _ (proj2 (he_inv _ _ _ _ _ _ _ HS)) c v Hc) as (? & ? & ? & _). lia. }
  assert (Hp : forall r p, reps s !! r = Some p -> False).
  { intros r p Hr. destruct (sl_range _ _ (he_slots _ _ _ _ _ _ _ HS) r p Hr). destruct (winv_rep 1 V H LL A PP s r p (he_log _ _ _ _ _ _ _ HS) Hr) as [? _]. lia. }
  assert (Hnode : forall s1 j rf rf1, nodes s1 = nodes s' -> idx (nodes s) j = Some rf -> set_node j rf1 s = Some s1 ->
    (state rf1 = Leader -> state rf = Leader) -> exists rf, idx (nodes s) i = Some rf /\ state rf = Leader).
  { intros s1 j rf rf1 En Hj (Hu & _)%set_node_reps Hst. rewrite <- En in Hi. destruct (decide (j = i)) as [->|Hne].
    - rewrite (idx_upd_eq _ _ _ _ Hu) in Hi; injection Hi as ->. eauto.
    - rewrite (idx_upd_ne _ _ _ _ _ Hu Hne) in Hi. eauto. }
  pose proof (exec_possible s s' ev HR) as Hpos.
  destruct ev; simpl in Hpos; try (by destruct (vcalls s !! c) eqn:E; [by apply Hv in E|]); try (by destruct (reps s !! r) eqn:E; [by apply Hp in E|]).
  - unfold exec, execTick in HR; inv_opt. case_if_in HR; [done|]. pose proof (steady_tick now x) as [_ _ Hst]. destruct (tick now x) as [rf1 st]; inv_opt.
    eapply (Hnode _ i0 x rf1); [|done|done|by intros; apply Hst]. by destruct st.
  - simpl in HR; inv_opt. eapply (Hnode _ i0); [done|done|exact HR|]. apply steady_Start.
  - simpl in HR; inv_opt. eapply (Hnode _ i0); [done|done|exact HR|]. intros. eapply (sd_lead _ _ (steady_Snapshot _ _ _ _ H1)); done.
  - simpl in HR; inv_opt. destruct x0 as [rf1 msgs]. eapply (Hnode _ i0); [done|done|exact HR|]. intros. eapply (sd_lead _ _ (steady_guardKick _ _ _ H1)); done.
  - simpl in HR; inv_opt. eapply (Hnode _ i0); [|done|done|]; [done|]. intros E.
    destruct (restart_durable now x) as (rf2 & HR2 & _ & _ & _ & _ & ? & _); [by eapply sp_durable, healthy_peer|]. congruence.
Qed.

Theorem single_peer_never_leads s0 evs s i rf :
  init 1 = Some s0 -> run_served s0 evs = Some s -> idx (nodes s) i = Some rf -> state rf <> Leader.
Proof.
  intros HI HR Hi HL. destruct (init_healthy 1 s0 HI) as (V & H & LL & A & PP & HS).
  assert (H0 : forall i rf, idx (nodes s0) i = Some rf -> state rf <> Leader).
  { intros j rfj Hj E. pose proof (init_nodes 1 s0 j rfj HI Hj) as Hb; unfold boot, Make in Hb; simpl in Hb; by inv_opt. }
  clear HI. revert V H LL A PP s0 HS HR H0; induction evs as [|ev evs IH]; simpl; intros V H LL A PP s0 HS HR H0; [injection HR as ->; by eapply H0|].
  destruct (timely s0 ev) eqn:Et; [|done]. destruct (served s0 ev) eqn:Es; [|done]. simpl in HR. destruct (exec s0 ev) as [s1|] eqn:E; [|done]. simpl in HR.
  destruct (exec_healthy 1 V H LL A PP s0 s1 ev HS Et Es E) as (V1 & H1 & LL1 & A1 & PP1 & HS1).
  apply (IH V1 H1 LL1 A1 PP1 s1 HS1 HR). intros j rfj Hj E'. destruct (single_step V H LL A PP s0 s1 ev j rfj HS E Hj E') as (rfj0 & Hj0 & ?). by apply (H0 j rfj0).
Qed.
End single.

