(* ===== verification/KvServer.v ===== *)
(** * kvraft: the server

    Models [kvraft/common.go], [kvraft/help_snapshot.go] and [kvraft/server.go]:
    the state machine that [guardApply] drives from [applyCh], and the [Get] and
    [PutAppend] handlers that wait for their operation to be applied.

    A channel made by a handler is an index into [chans]; the entry says
    whether the capacity-one channel holds a signal. Strings are Go strings. *)

From S2P Require Import Prelude GoFmt Gob RaftTypes RaftLog RaftElection RaftReplicate.
From S2P Require Import RaftSnapshot.

#[local] Open Scope string_scope.
#[local] Open Scope Z_scope.

Definition OpType : Type := string.
Definition OpGet : OpType := "Get".
Definition OpPut : OpType := "Put".
Definition OpAppend : OpType := "Append".

Definition Err : Type := string.
Definition OK : Err := "OK".
Definition ErrNoKey : Err := "ErrNoKey".
Definition ErrWrongLeader : Err := "ErrWrongLeader".

Record Op : Type := mkOp {
  Type_ : OpType; Key : string; Value : string; ClientId : Z; SeqNum : Z }.

Record GetArgs : Type := mkGetArgs { ga_Key : string; ga_ClientId : Z; ga_SeqNum : Z }.
Record GetReply : Type := mkGetReply { gr_Value : string; gr_Err : Err }.
Record PutAppendArgs : Type := mkPutAppendArgs {
  pa_Key : string; pa_Value : string; pa_Op : string; pa_ClientId : Z; pa_SeqNum : Z }.
Record PutAppendReply : Type := mkPutAppendReply { pr_Err : Err }.

#[export] Instance gob_Op : GobType Op.
Proof.
  refine {|
  to_gob o := to_gob (Type_ o, Key o, Value o, ClientId o, SeqNum o);
  from_gob v := (fun '(t, k, x, c, s) => mkOp t k x c s)
                <$> (from_gob v : option (string * string * string * Z * Z));
  from_to_gob := _ |}.
  intros [t k x c s]; cbn beta; by rewrite from_to_gob.
Defined.

(** [fmt.Sprintf("%d@%d", clientId, seqNum)] *)
Definition helpKey (clientId seqNum : Z) : string := pretty clientId +:+ "@" +:+ pretty seqNum.

Record KVServer : Type := mkKVServer {
  chanMap : gmap string nat;
  chans : list bool;
  lastSeq : gmap Z Z;
  kvMap : gmap string string;
  kv_dead : bool;
  kv_lastApplied : Z;
  maxraftstate : Z;
}.

Definition set_chans (cm : gmap string nat) (cs : list bool) (kv : KVServer) : KVServer :=
  mkKVServer cm cs (lastSeq kv) (kvMap kv) (kv_dead kv) (kv_lastApplied kv) (maxraftstate kv).
Definition set_data (ls : gmap Z Z) (m : gmap string string) (a : Z) (kv : KVServer) : KVServer :=
  mkKVServer (chanMap kv) (chans kv) ls m (kv_dead kv) a (maxraftstate kv).

(** ** Snapshots *)

Definition encodeSnapshot (kv : KVServer) : bytes :=
  let w := Encode [] (kvMap kv) in
  let w := Encode w (lastSeq kv) in
  Encode w (kv_lastApplied kv).

Definition decodeSnapshot (data : bytes) (kv : KVServer) : KVServer :=
  match data with
  | [] => kv
  | _ =>
      default kv (
        '(m, r) ← @Decode (gmap string string) _ data;
        '(ls, r) ← @Decode (gmap Z Z) _ r;
        '(la, r) ← @Decode Z _ r;
        Some (set_data ls m la kv))
  end.

(** ** Applying *)

(** A missing key of a Go map reads as the zero value. *)
Definition seqOf (kv : KVServer) (c : Z) : Z := default 0 (lastSeq kv !! c).

Definition execOp (op : Op) (m : gmap string string) : gmap string string :=
  if String.eqb (Type_ op) OpPut then <[Key op := Value op]> m
  else if String.eqb (Type_ op) OpAppend
  then <[Key op := default "" (m !! Key op) +:+ Value op]> m
  else m.

(** [notifyAndUnlock]: a non-blocking send on the channel registered for the key. *)
Definition notify (key : string) (kv : KVServer) : KVServer :=
  match chanMap kv !! key with
  | Some ch => set_chans (chanMap kv) (<[ch := true]> (chans kv)) kv
  | None => kv
  end.

(** The iteration of [guardApply] for a command: the new state, and the
    arguments of the [rf.Snapshot] call it starts, if any. [size] is the
    persister's [RaftStateSize]. *)
Definition applyCommand (size : Z) (op : Op) (index : Z) (kv : KVServer)
    : KVServer * option (Z * bytes) :=
  let key := helpKey (ClientId op) (SeqNum op) in
  if SeqNum op <=? seqOf kv (ClientId op) then
    (notify key (set_data (lastSeq kv) (kvMap kv) index kv), None)
  else
    let kv := notify key
      (set_data (<[ClientId op := SeqNum op]> (lastSeq kv)) (execOp op (kvMap kv)) index kv) in
    (kv, if negb (maxraftstate kv =? -1) && (size >? maxraftstate kv)
         then Some (kv_lastApplied kv, encodeSnapshot kv) else None).

(** One iteration of [guardApply]; [None] is the panic of the type assertion on
    a nil command. *)
Definition guardApply (size : Z) (msg : ApplyMsg Op) (kv : KVServer)
    : option (KVServer * option (Z * bytes)) :=
  if SnapshotValid msg then
    let kv := decodeSnapshot (Snapshot_ msg) kv in
    Some (set_data (lastSeq kv) (kvMap kv) (SnapshotIndex msg) kv, None)
  else
    op ← msgCommand msg;
    Some (applyCommand size op (CommandIndex msg) kv).

(** ** The server and its handlers *)

Definition StartKVServer (ps : Persister) (maxraft : Z) : KVServer :=
  let kv := mkKVServer ∅ [] ∅ ∅ false 0 maxraft in
  match ReadSnapshot ps with
  | [] => kv
  | snapshot => decodeSnapshot snapshot kv
  end.

Definition kvKill (kv : KVServer) : KVServer :=
  mkKVServer (chanMap kv) (chans kv) (lastSeq kv) (kvMap kv) true (kv_lastApplied kv) (maxraftstate kv).

(** The critical section that installs a fresh channel under the key, and the
    deferred one that removes the key. *)
Definition register (key : string) (kv : KVServer) : KVServer * nat :=
  (set_chans (<[key := length (chans kv)]> (chanMap kv)) (chans kv ++ [false]) kv, length (chans kv)).

Definition unregister (key : string) (kv : KVServer) : KVServer :=
  set_chans (delete key (chanMap kv)) (chans kv) kv.

(** How the wait of a handler ends: [Start] refused, the channel signalled, or
    500 ms passed. *)
Inductive waitEnd : Type := Refused | Signalled | TimedOut.

Definition getOp (args : GetArgs) : Op :=
  mkOp OpGet (ga_Key args) "" (ga_ClientId args) (ga_SeqNum args).

Definition putAppendOp (args : PutAppendArgs) : Op :=
  mkOp (pa_Op args) (pa_Key args) (pa_Value args) (pa_ClientId args) (pa_SeqNum args).

(** [Get] up to the select: register, then [rf.Start]. *)
Definition GetBegin (args : GetArgs) (kv : KVServer) (rf : Raft Op)
    : KVServer * nat * Raft Op * bool :=
  let '(kv, ch) := register (helpKey (ga_ClientId args) (ga_SeqNum args)) kv in
  let '(rf, (_, _, ok)) := Start (getOp args) rf in
  (kv, ch, rf, ok).

(** [Get] from the end of its wait: the reply, read from the map as it is now,
    and the deferred cleanup. *)
Definition GetEnd (args : GetArgs) (w : waitEnd) (kv : KVServer) : KVServer * GetReply :=
  let reply :=
    match w with
    | Signalled =>
        match kvMap kv !! ga_Key args with
        | Some val => mkGetReply val OK
        | None => mkGetReply "" ErrNoKey
        end
    | Refused | TimedOut => mkGetReply "" ErrWrongLeader
    end in
  (unregister (helpKey (ga_ClientId args) (ga_SeqNum args)) kv, reply).

Definition PutAppendBegin (args : PutAppendArgs) (kv : KVServer) (rf : Raft Op)
    : KVServer * nat * Raft Op * bool :=
  let '(kv, ch) := register (helpKey (pa_ClientId args) (pa_SeqNum args)) kv in
  let '(rf, (_, _, ok)) := Start (putAppendOp args) rf in
  (kv, ch, rf, ok).

Definition PutAppendEnd (args : PutAppendArgs) (w : waitEnd) (kv : KVServer)
    : KVServer * PutAppendReply :=
  (unregister (helpKey (pa_ClientId args) (pa_SeqNum args)) kv,
   mkPutAppendReply match w with Signalled => OK | Refused | TimedOut => ErrWrongLeader end).
