(* ===== verification/KvFacts.v ===== *)
(** * kvraft: what the server guarantees

    - [helpKey] identifies a request, and a waiting handler is woken only by a
      command with its own identity;
    - a command that is committed several times, because its clerk retried it,
      takes effect once;
    - whatever mix of commands and snapshots a server is fed, its state is the
      one the committed log prescribes; the snapshots it takes and the restart
      from a stored one agree with that state;
    - the snapshot message that [InstallSnapshot] hands to a goroutine of its
      own may arrive after later commands, and then an update is lost. *)

From S2P Require Import Prelude GoFmt Gob RaftTypes RaftLog RaftElection RaftReplicate.
From S2P Require Import RaftSnapshot KvServer.

#[local] Open Scope string_scope.
#[local] Open Scope Z_scope.

(** ** Request identities *)

Section key.
Lemma helpKey_inj c1 s1 c2 s2 : helpKey c1 s1 = helpKey c2 s2 -> c1 = c2 /\ s1 = s2.
Proof.
  intros H; apply noChar_split in H as [H1 H2];
    [|apply pretty_Z_noChar; [by apply digit_neq|done]..].
  by split; apply (inj pretty).
Qed.
End key.

(** ** Waiting handlers

    What happens at one server between the registration of a handler and the
    end of its wait: messages are applied, other handlers come and go. *)

Inductive kvEvent : Type :=
| EvApply (size : Z) (msg : ApplyMsg Op)
| EvRegister (key : string)
| EvUnregister (key : string).

Definition kvExec (e : kvEvent) (kv : KVServer) : option KVServer :=
  match e with
  | EvApply size msg => fst <$> guardApply size msg kv
  | EvRegister key => Some (register key kv).1
  | EvUnregister key => Some (unregister key kv)
  end.

Fixpoint kvRun (es : list kvEvent) (kv : KVServer) : option KVServer :=
  match es with
  | [] => Some kv
  | e :: es => kv ← kvExec e kv; kvRun es kv
  end.

Definition appliesId (c s : Z) (e : kvEvent) : Prop :=
  exists size msg op, e = EvApply size msg /\ SnapshotValid msg = false
    /\ msgCommand msg = Some op /\ ClientId op = c /\ SeqNum op = s.

Section handlers.
Implicit Types (kv : KVServer) (ch : nat) (key : string).

(** Every registered channel exists, and a channel has one key. *)
Definition chanWf kv : Prop :=
  forall key ch, chanMap kv !! key = Some ch -> (ch < length (chans kv))%nat.

Definition onlyKey ch key kv : Prop :=
  (ch < length (chans kv))%nat /\ forall key', chanMap kv !! key' = Some ch -> key' = key.

Lemma decodeSnapshot_chans data kv :
  chanMap (decodeSnapshot data kv) = chanMap kv /\ chans (decodeSnapshot data kv) = chans kv.
Proof.
  unfold decodeSnapshot; destruct data; [done|].
  destruct (mbind _ _) eqn:E; [|done]; cbn [default from_option].
  repeat (apply bind_Some in E as ([] & _ & E)). by simplify_eq.
Qed.

Lemma notify_spec key kv :
  chanMap (notify key kv) = chanMap kv /\ length (chans (notify key kv)) = length (chans kv)
  /\ forall ch, chans (notify key kv) !! ch = Some true ->
       chanMap kv !! key = Some ch \/ chans kv !! ch = Some true.
Proof.
  unfold notify; destruct (chanMap kv !! key) as [ch|] eqn:E; simpl; [|by auto].
  split_and!; [done|by rewrite length_insert|].
  intros ch'; destruct (decide (ch = ch')) as [->|]; [by left|].
  rewrite list_lookup_insert_ne by done; by right.
Qed.

Lemma applyCommand_chans size op i kv :
  exists ls m, (applyCommand size op i kv).1 = notify (helpKey (ClientId op) (SeqNum op)) (set_data ls m i kv).
Proof. unfold applyCommand; case_if; simpl; eauto. Qed.

Lemma kvExec_only e c s ch kv kv' :
  onlyKey ch (helpKey c s) kv -> kvExec e kv = Some kv' ->
  onlyKey ch (helpKey c s) kv'
  /\ (chans kv' !! ch = Some true -> chans kv !! ch = Some true \/ appliesId c s e).
Proof.
  intros [Hlt Hu] He; destruct e as [size msg|key|key]; cbn [kvExec] in He.
  - unfold guardApply in He; destruct (SnapshotValid msg) eqn:Esv.
    + simplify_eq/=. destruct (decodeSnapshot_chans (Snapshot_ msg) kv) as [E1 E2].
      unfold onlyKey; simpl; rewrite E1, E2; by auto.
    + destruct (msgCommand msg) as [op|] eqn:Ec; [|done].
      cbn in He; injection He as <-.
      destruct (applyCommand_chans size op (CommandIndex msg) kv) as (ls & m & ->).
      destruct (notify_spec (helpKey (ClientId op) (SeqNum op))
                  (set_data ls m (CommandIndex msg) kv)) as (E1 & E2 & E3).
      unfold onlyKey; rewrite E1, E2; simpl in *. split; [done|].
      intros [Hk|]%E3; [|by left]. apply Hu in Hk; apply helpKey_inj in Hk as [Hid1 Hid2].
      right; by exists size, msg, op.
  - simplify_eq/=; split; [split; simpl|].
    + rewrite length_app; simpl; lia.
    + intros key' [[_ <-]|[_ H]]%lookup_insert_Some; [lia|by apply Hu].
    + rewrite lookup_app_l by done; by left.
  - simplify_eq/=; split; [split; simpl; [done|]|by left].
    intros key' [_ H]%lookup_delete_Some; by apply Hu.
Qed.

Lemma kvRun_only es c s ch kv kv' :
  onlyKey ch (helpKey c s) kv -> kvRun es kv = Some kv' -> chans kv' !! ch = Some true ->
  chans kv !! ch = Some true \/ Exists (appliesId c s) es.
Proof.
  revert kv; induction es as [|e es IH]; intros kv Ho Hr Hc; simpl in Hr; [by simplify_eq; left|].
  inv_opt. edestruct kvExec_only as [Ho' Hor]; [done..|].
  destruct (IH _ Ho' Hr Hc) as [H'|H']; [|by right; right].
  destruct (Hor H') as [|]; [by left|right; by left].
Qed.

Lemma register_only c s kv :
  chanWf kv ->
  let '(kv', ch) := register (helpKey c s) kv in
  onlyKey ch (helpKey c s) kv' /\ chans kv' !! ch = Some false.
Proof.
  intros Hwf; simpl; split; [split; simpl|].
  - rewrite length_app; simpl; lia.
  - intros key' [[<- _]|[_ H]]%lookup_insert_Some; [done|]. apply Hwf in H; lia.
  - simpl; by rewrite list_lookup_middle.
Qed.
End handlers.

(** C22: A [PutAppend] handler answers OK only if, after it started, its server
    applied a command that carries exactly the client id and sequence number of
    the request: no other client's command, and no earlier or later command of
    the same client, can wake it, whatever other handlers register and leave in
    the meantime. *)
Theorem PutAppend_ok_applied (args : PutAppendArgs) (kv : KVServer) (rf : Raft Op)
    (es : list kvEvent) (kv1 kv' : KVServer) (ch : nat) (rf' : Raft Op) (started : bool) (w : waitEnd) :
  chanWf kv ->
  PutAppendBegin args kv rf = (kv1, ch, rf', started) ->
  kvRun es kv1 = Some kv' ->
  (w = Signalled -> started = true /\ chans kv' !! ch = Some true) ->
  pr_Err (PutAppendEnd args w kv').2 = OK ->
  Exists (appliesId (pa_ClientId args) (pa_SeqNum args)) es.
Proof.
  intros Hwf; unfold PutAppendBegin.
  pose proof (register_only (pa_ClientId args) (pa_SeqNum args) kv Hwf) as Hreg.
  destruct (register _ kv) as [kv2 ch2]; destruct Hreg as [Ho Hf].
  destruct (Start _ rf) as [rf2 [[a b] ok]]. intros [= -> -> -> ->] Hrun Hw Hok.
  destruct w; [done| |done]. destruct (Hw eq_refl) as [_ Hc].
  destruct (kvRun_only es _ _ ch kv1 kv' Ho Hrun Hc) as [|]; [congruence|done].
Qed.

Lemma PutAppend_ok_applied_witness :
  let args := mkPutAppendArgs "k" "v" "Put" 7 1 in
  Exists (appliesId 7 1) [EvRegister (helpKey 7 2); EvApply 0 (commandMsg (Some (putAppendOp args)) 1)].
Proof.
  set (kv0 := StartKVServer MakePersister (-1)).
  set (rf0 := mkRaft 1 MakePersister 0 false false 1 Leader 0 0 [mkEntry (-1) None] 0 0 [1] [0] 0 []
              : Raft Op).
  set (es := [EvRegister (helpKey 7 2);
              EvApply 0 (commandMsg (Some (putAppendOp (mkPutAppendArgs "k" "v" "Put" 7 1))) 1)]).
  assert (Hwf : chanWf kv0) by (intros key ch H; change ((∅ : gmap string nat) !! key = Some ch) in H; by apply lookup_empty_Some in H).
  set (args := mkPutAppendArgs "k" "v" "Put" 7 1).
  set (kv1 := (PutAppendBegin args kv0 rf0).1.1.1).
  apply (PutAppend_ok_applied args kv0 rf0 es kv1 (default kv0 (kvRun es kv1)) 0%nat
           (PutAppendBegin args kv0 rf0).1.2 true Signalled Hwf).
  - vm_compute; reflexivity.
  - vm_compute; reflexivity.
  - intros _; split; vm_compute; reflexivity.
  - vm_compute; reflexivity.
Defined.

(** ** The replicated state machine

    The reference: the state that a sequence of committed operations
    prescribes, without channels, snapshots or indices. *)

Definition opId (op : Op) : Z * Z := (ClientId op, SeqNum op).

Definition applyOp (st : gmap string string * gmap Z Z) (op : Op) : gmap string string * gmap Z Z :=
  if SeqNum op <=? default 0 (st.2 !! ClientId op) then st
  else (execOp op st.1, <[ClientId op := SeqNum op]> st.2).

Definition replay (ops : list Op) : gmap string string * gmap Z Z := foldl applyOp (∅, ∅) ops.

(** The operations of a log without the repetitions of an earlier one. *)
Fixpoint firstsFrom (seen : list (Z * Z)) (ops : list Op) : list Op :=
  match ops with
  | [] => []
  | op :: ops =>
      if bool_decide (opId op ∈ seen) then firstsFrom seen ops
      else op :: firstsFrom (opId op :: seen) ops
  end.
Definition firsts : list Op -> list Op := firstsFrom [].

(** Each client numbers its operations upwards and starts a new one only when
    the previous one is in the log: an entry is a repetition, or its number is
    above all earlier numbers of its client. *)
Definition serialFrom (seen : list (Z * Z)) (op : Op) : Prop :=
  0 < SeqNum op /\
  (opId op ∈ seen \/ forall s, (ClientId op, s) ∈ seen -> s < SeqNum op).

Fixpoint serialLog (seen : list (Z * Z)) (ops : list Op) : Prop :=
  match ops with
  | [] => True
  | op :: ops => serialFrom seen op /\ serialLog (opId op :: seen) ops
  end.

Section replay.
Implicit Types (ops : list Op) (seen : list (Z * Z)) (st : gmap string string * gmap Z Z).

(** The duplicate table holds the highest number seen of each client. *)
Definition seqTable seen (ls : gmap Z Z) : Prop :=
  forall c, (forall s, (c, s) ∈ seen -> s <= default 0 (ls !! c))
    /\ (default 0 (ls !! c) = 0 \/ (c, default 0 (ls !! c)) ∈ seen).

Lemma applyOp_serial seen st op :
  seqTable seen st.2 -> serialFrom seen op ->
  seqTable (opId op :: seen) (applyOp st op).2
  /\ (applyOp st op).1 = if bool_decide (opId op ∈ seen) then st.1 else execOp op st.1.
Proof.
  intros Ht [Hpos Hs]; unfold applyOp; destruct (Ht (ClientId op)) as [Hle Hin].
  case_if; simpl.
  - assert (Hseen : opId op ∈ seen) by (destruct Hs as [|Hs]; [done|]; destruct Hin as [|?%Hs]; lia).
    rewrite bool_decide_eq_true_2 by done. split; [|done].
    intros c; destruct (Ht c) as [H1 H2]; split; [|set_solver].
    intros s [[= -> ->]|]%elem_of_cons; [lia|by apply H1].
  - assert (Hns : opId op ∉ seen) by (intros ?%Hle; lia).
    rewrite bool_decide_eq_false_2 by done; split; [|done].
    intros c; destruct (decide (c = ClientId op)) as [->|Hne].
    + rewrite lookup_insert_eq; simpl; split; [|right; left].
      intros s [[= ->]|Hin']%elem_of_cons; [lia|]. apply Hle in Hin'; lia.
    + rewrite lookup_insert_ne by done; destruct (Ht c) as [H1 H2]; split; [|set_solver].
      intros s [[= -> _]|]%elem_of_cons; [done|by apply H1].
Qed.

(** The seen-set only matters up to membership. *)
Lemma firstsFrom_ext s1 s2 ops :
  (forall x, x ∈ s1 <-> x ∈ s2) -> firstsFrom s1 ops = firstsFrom s2 ops.
Proof.
  revert s1 s2; induction ops as [|op ops IH]; intros s1 s2 H; simpl; [done|].
  rewrite (bool_decide_ext (opId op ∈ s1) (opId op ∈ s2)) by done.
  case_if; [by apply IH|f_equal; apply IH; set_solver].
Qed.

Lemma replay_firsts seen st ops :
  seqTable seen st.2 -> serialLog seen ops ->
  (foldl applyOp st ops).1 = foldl (flip execOp) st.1 (firstsFrom seen ops).
Proof.
  revert seen st; induction ops as [|op ops IH]; intros seen st Ht Hs; simpl in *; [done|].
  destruct Hs as [Hop Hs]; destruct (applyOp_serial seen st op Ht Hop) as [Ht' E].
  rewrite (IH _ _ Ht' Hs), E; case_if; simpl; [|done].
  f_equal; apply firstsFrom_ext; set_solver.
Qed.

Lemma serialLog_take seen ops k : serialLog seen ops -> serialLog seen (take k ops).
Proof.
  revert seen k; induction ops as [|op ops IH]; intros seen [|k]; simpl; [done..|].
  intros [? ?]; split; [done|by apply IH].
Qed.

Lemma replay_take_S ops k op :
  ops !! k = Some op -> replay (take (S k) ops) = applyOp (replay (take k ops)) op.
Proof. intros H; unfold replay; by rewrite (take_S_r _ _ _ H), foldl_snoc. Qed.
End replay.

(** ** The server follows the committed log *)

(** [kv] holds the state prescribed by the first [k] operations. *)
Definition atPrefix (ops : list Op) (k : nat) (kv : KVServer) : Prop :=
  (kvMap kv, lastSeq kv) = replay (take k ops) /\ kv_lastApplied kv = Z.of_nat k.

(** What Raft may send on [applyCh] to a server that is at prefix [k]: the next
    command, or a snapshot that some server took at a prefix [j]. *)
Inductive delivers (ops : list Op) : nat -> list (ApplyMsg Op) -> nat -> Prop :=
| dl_nil k : delivers ops k [] k
| dl_command k op msgs k' :
    ops !! k = Some op -> delivers ops (S k) msgs k' ->
    delivers ops k (commandMsg (Some op) (Z.of_nat (S k)) :: msgs) k'
| dl_snapshot k j src term msgs k' :
    (j <= length ops)%nat -> atPrefix ops j src -> delivers ops j msgs k' ->
    delivers ops k (mkApplyMsg false None 0 true (encodeSnapshot src) term (Z.of_nat j) :: msgs) k'.

(** [guardApply] over a sequence of messages, with the snapshots it takes. *)
Fixpoint applyMsgs (size : KVServer -> Z) (msgs : list (ApplyMsg Op)) (kv : KVServer)
    : option (KVServer * list (Z * bytes)) :=
  match msgs with
  | [] => Some (kv, [])
  | msg :: msgs =>
      '(kv, o) ← guardApply (size kv) msg kv;
      '(kv, snaps) ← applyMsgs size msgs kv;
      Some (kv, (option_list o ++ snaps)%list)
  end.

Definition snapshotOf (ops : list Op) (s : Z * bytes) : Prop :=
  exists j src, s.1 = Z.of_nat j /\ s.2 = encodeSnapshot src /\ atPrefix ops j src.

Section replica.
Implicit Types (ops : list Op) (kv : KVServer).

Lemma decode_encode src kv :
  decodeSnapshot (encodeSnapshot src) kv
  = set_data (lastSeq src) (kvMap src) (kv_lastApplied src) kv.
Proof.
  unfold encodeSnapshot, Encode; cbn [app].
  unfold decodeSnapshot; rewrite Decode_cons; cbn [mbind option_bind].
  rewrite Decode_cons; cbn [mbind option_bind]. by rewrite Decode_cons.
Qed.

Lemma notify_data key kv :
  kvMap (notify key kv) = kvMap kv /\ lastSeq (notify key kv) = lastSeq kv
  /\ kv_lastApplied (notify key kv) = kv_lastApplied kv.
Proof. unfold notify; by destruct (chanMap kv !! key). Qed.

Lemma applyCommand_at ops k op size kv :
  ops !! k = Some op -> atPrefix ops k kv ->
  atPrefix ops (S k) (applyCommand size op (Z.of_nat (S k)) kv).1
  /\ forall s, (applyCommand size op (Z.of_nat (S k)) kv).2 = Some s -> snapshotOf ops s.
Proof.
  intros Hop [Hst Hla]; unfold atPrefix at 1.
  rewrite (replay_take_S ops k op Hop), <- Hst.
  unfold applyCommand, applyOp, seqOf; simpl; case_if; simpl.
  - match goal with |- context [notify ?key ?kv0] =>
      destruct (notify_data key kv0) as (-> & -> & ->) end. by split.
  - set (kv1 := notify _ _).
    assert (Hat : atPrefix ops (S k) kv1).
    { unfold atPrefix, kv1; rewrite (replay_take_S ops k op Hop), <- Hst.
      match goal with |- context [notify ?key ?kv0] =>
        destruct (notify_data key kv0) as (-> & -> & ->) end.
      unfold applyOp; simpl. by rewrite (proj2 (Z.leb_gt _ _)) by done. }
    pose proof Hat as [Hd1 Hd2]. unfold atPrefix in Hat.
    rewrite (replay_take_S ops k op Hop), <- Hst in Hat; unfold applyOp in Hat; simpl in Hat.
    rewrite (proj2 (Z.leb_gt _ _)) in Hat by done.
    split; [done|]. intros s; case_if; [|done]. intros [= <-].
    exists (S k), kv1; by split_and!.
Qed.

Lemma replica_run ops size k msgs k' kv :
  delivers ops k msgs k' -> atPrefix ops k kv ->
  exists kv' snaps, applyMsgs size msgs kv = Some (kv', snaps)
    /\ atPrefix ops k' kv' /\ Forall (snapshotOf ops) snaps.
Proof.
  intros Hd; revert kv; induction Hd as [k|k op msgs k' Hop _ IH|k j src term msgs k' Hj Hsrc _ IH];
    intros kv Hat; cbn [applyMsgs].
  - by exists kv, [].
  - unfold guardApply at 1; cbn [SnapshotValid commandMsg msgCommand CommandIndex mbind option_bind].
    destruct (applyCommand_at ops k op (size kv) kv Hop Hat) as [Hat' Hs].
    destruct (applyCommand _ op _ kv) as [kv1 o]; simpl in Hat', Hs.
    destruct (IH kv1 Hat') as (kv' & snaps & -> & ? & ?). cbn [mbind option_bind].
    eexists kv', _; split_and!; [done|done|].
    apply Forall_app_2; [|done]. destruct o; simpl; [constructor; [by apply Hs|constructor]|constructor].
  - unfold guardApply at 1; cbn [SnapshotValid Snapshot_ SnapshotIndex mbind option_bind].
    rewrite decode_encode; cbn zeta.
    match goal with |- context [applyMsgs size msgs ?x] =>
      change x with (set_data (lastSeq src) (kvMap src) (Z.of_nat j) kv) end.
    destruct (IH (set_data (lastSeq src) (kvMap src) (Z.of_nat j) kv)) as (kv' & snaps & E & ? & ?);
      [by destruct Hsrc|].
    rewrite E; cbn [mbind option_bind]. by exists kv', snaps.
Qed.

Lemma Start_at maxraft ops : atPrefix ops 0 (StartKVServer MakePersister maxraft).
Proof. done. Qed.
End replica.

(** A server never diverges from the committed log: started fresh or from
    a snapshot that some server took at prefix [k], and fed any sequence of
    messages in which every command is the next one of the log and every
    snapshot is one taken at some prefix, [guardApply] does not panic, the
    server ends in exactly the state (data, duplicate table and applied index)
    that replaying the log up to its position gives, and every snapshot it
    hands to Raft describes a prefix of the log at the index it is labelled
    with. *)
Theorem replica_follows_log (ops : list Op) (size : KVServer -> Z) (maxraft : Z) (rs : bytes)
    (k k' : nat) (src : KVServer) (msgs : list (ApplyMsg Op)) :
  atPrefix ops k src -> delivers ops k msgs k' ->
  exists kv' snaps,
    applyMsgs size msgs (StartKVServer (mkPersister rs (encodeSnapshot src)) maxraft) = Some (kv', snaps)
    /\ atPrefix ops k' kv' /\ Forall (snapshotOf ops) snaps.
Proof.
  intros Hsrc Hd; apply (replica_run ops size k msgs k' _ Hd).
  change (atPrefix ops k (decodeSnapshot (encodeSnapshot src) (mkKVServer ∅ [] ∅ ∅ false 0 maxraft))).
  rewrite decode_encode; destruct Hsrc; by split.
Qed.

Lemma run_exactly_once (ops : list Op) (size : KVServer -> Z) (maxraft : Z)
    (k : nat) (msgs : list (ApplyMsg Op)) :
  serialLog [] ops -> delivers ops 0 msgs k ->
  exists kv snaps, applyMsgs size msgs (StartKVServer MakePersister maxraft) = Some (kv, snaps)
    /\ kvMap kv = foldl (flip execOp) ∅ (firsts (take k ops)).
Proof.
  intros Hs Hd.
  destruct (replica_run ops size 0 msgs k _ Hd (Start_at maxraft ops)) as (kv & snaps & E & [Hst _] & _).
  exists kv, snaps; split; [done|].
  assert (E2 : (replay (take k ops)).1 = foldl (flip execOp) ∅ (firsts (take k ops))).
  { apply (replay_firsts [] (∅, ∅)); [by intros c; split; [set_solver|left]|by apply serialLog_take]. }
  by rewrite <- Hst in E2.
Qed.

(** A log in which an append is committed twice. *)
Definition retriedLog : list Op :=
  [mkOp OpPut "k" "a" 7 1; mkOp OpAppend "k" "b" 7 2; mkOp OpAppend "k" "b" 7 2].

Lemma retriedLog_delivers :
  delivers retriedLog 1 [commandMsg (Some (mkOp OpAppend "k" "b" 7 2)) 2;
                         commandMsg (Some (mkOp OpAppend "k" "b" 7 2)) 3] 3.
Proof. apply dl_command; [done|]. apply dl_command; [done|]. apply dl_nil. Defined.

Definition retriedSrc : KVServer :=
  mkKVServer ∅ [] (replay (take 1 retriedLog)).2 (replay (take 1 retriedLog)).1 false 1 (-1).

Lemma replica_follows_log_witness :
  exists kv' snaps,
    applyMsgs (fun _ => 5000) [commandMsg (Some (mkOp OpAppend "k" "b" 7 2)) 2;
                               commandMsg (Some (mkOp OpAppend "k" "b" 7 2)) 3]
      (StartKVServer (mkPersister [] (encodeSnapshot retriedSrc)) 1000) = Some (kv', snaps)
    /\ atPrefix retriedLog 3 kv' /\ Forall (snapshotOf retriedLog) snaps.
Proof.
  apply (replica_follows_log retriedLog (fun _ => 5000) 1000 [] 1 3 retriedSrc).
  - split; [by destruct (replay (take 1 retriedLog)) eqn:E; unfold retriedSrc; rewrite E|done].
  - exact retriedLog_delivers.
Defined.


(** ** The order of snapshots and commands on [applyCh]

    A follower with an empty log receives the snapshot of the first operation,
    then the second operation, which it commits. The handler hands the snapshot
    message to a goroutine of its own, and [guardKick] sends the command. *)

Definition raceOp1 : Op := mkOp OpPut "x" "1" 7 1.
Definition raceOp2 : Op := mkOp OpPut "y" "2" 7 2.

Definition raceSource : option KVServer :=
  fst <$> guardApply 0 (commandMsg (Some raceOp1) 1) (StartKVServer MakePersister 1000).

(** The follower after the three critical sections: its Raft state, the
    snapshot message and the commands. *)
Definition raceFollower : option (Raft Op * ApplyMsg Op * list (ApplyMsg Op)) :=
  src ← raceSource;
  rf ← Make 3 1 MakePersister 0;
  '(rf, _, m) ← InstallSnapshot 10 (mkInstallSnapshotArgs 1 0 1 1 (encodeSnapshot src)) rf;
  snap ← m;
  '(rf, _) ← AppendEntries 20 (mkAppendEntriesArgs 1 0 1 1 [mkEntry 1 (Some raceOp2)] 2) rf;
  '(rf, cmds) ← guardKick rf;
  Some (rf, snap, cmds).

(** What the server of the follower holds under each order of delivery, and
    what [guardKick] still has to send. *)
Definition raceOutcome (snapshotFirst : bool)
    : option (list (option string) * Z * Z * list (ApplyMsg Op)) :=
  '(rf, snap, cmds) ← raceFollower;
  '(kv, _) ← applyMsgs (fun _ => 0) (if snapshotFirst then snap :: cmds else (cmds ++ [snap])%list)
               (StartKVServer MakePersister 1000);
  '(rf', more) ← guardKick rf;
  Some ([kvMap kv !! "x"; kvMap kv !! "y"], kv_lastApplied kv, lastApplied rf', more).

(** C25: The snapshot message of [InstallSnapshot] is not ordered with the
    commands of [guardKick]: delivered first, the follower's server has both
    writes; delivered second, the acknowledged write of "y" is gone, while Raft
    counts it as applied and has nothing more to send. *)
Theorem install_race_loses_write :
  raceOutcome true = Some ([Some "1"; Some "2"], 2, 2, [])
  /\ raceOutcome false = Some ([Some "1"; None], 1, 2, []).
Proof. vm_compute; done. Qed.
