(* ===== verification/KvClerk.v ===== *)
(** * kvraft: the clerk

    Models [kvraft/client.go]. The outcome of each RPC of a clerk's loop comes
    from the network and the servers: the loops take the sequence of outcomes,
    [None] for a call that returned false, and also give the requests they
    sent. A loop that has used up the outcomes is still running. *)

From S2P Require Import Prelude Gob RaftTypes RaftSnapshot KvServer KvFacts.

#[local] Open Scope string_scope.
#[local] Open Scope Z_scope.

Record Clerk : Type := mkClerk {
  servers : nat;        (* len(ck.servers) *)
  clientId : Z;
  seqNum : Z;
  leader : Z;
}.

(** [nrand] is the random client id. *)
Definition MakeClerk (n : nat) (nrand : Z) : Clerk := mkClerk n nrand 1 0.

Definition nextLeader (ck : Clerk) : Clerk :=
  mkClerk (servers ck) (clientId ck) (seqNum ck) ((leader ck + 1) mod Z.of_nat (servers ck)).
Definition nextSeq (ck : Clerk) : Clerk :=
  mkClerk (servers ck) (clientId ck) (seqNum ck + 1) (leader ck).

(** One iteration of [Get]: the request, then the clerk and, if the loop
    returns, the value. *)
Definition GetArgs_of (key : string) (ck : Clerk) : GetArgs :=
  mkGetArgs key (clientId ck) (seqNum ck).

Definition GetIter (reply : option GetReply) (ck : Clerk) : Clerk * option string :=
  match reply with
  | None => (nextLeader ck, None)
  | Some reply =>
      if String.eqb (gr_Err reply) ErrWrongLeader then (nextLeader ck, None)
      else
        let ck := nextSeq ck in
        if String.eqb (gr_Err reply) ErrNoKey then (ck, Some "")
        else if String.eqb (gr_Err reply) OK then (ck, Some (gr_Value reply))
        else (ck, None)
  end.

Fixpoint Get (key : string) (replies : list (option GetReply)) (ck : Clerk)
    : Clerk * list (Z * GetArgs) * option string :=
  match replies with
  | [] => (ck, [], None)
  | reply :: replies =>
      let sent := (leader ck, GetArgs_of key ck) in
      match GetIter reply ck with
      | (ck, Some v) => (ck, [sent], Some v)
      | (ck, None) =>
          let '(ck, sents, r) := Get key replies ck in (ck, sent :: sents, r)
      end
  end.

(** One iteration of [PutAppend]: whether the loop returns. *)
Definition PutAppendArgs_of (key value op : string) (ck : Clerk) : PutAppendArgs :=
  mkPutAppendArgs key value op (clientId ck) (seqNum ck).

Definition PutAppendIter (reply : option PutAppendReply) (ck : Clerk) : Clerk * bool :=
  match reply with
  | None => (nextLeader ck, false)
  | Some reply =>
      if String.eqb (pr_Err reply) ErrWrongLeader then (nextLeader ck, false)
      else if String.eqb (pr_Err reply) OK then (nextSeq ck, true)
      else (ck, false)
  end.

Fixpoint PutAppend (key value op : string) (replies : list (option PutAppendReply)) (ck : Clerk)
    : Clerk * list (Z * PutAppendArgs) * bool :=
  match replies with
  | [] => (ck, [], false)
  | reply :: replies =>
      let sent := (leader ck, PutAppendArgs_of key value op ck) in
      match PutAppendIter reply ck with
      | (ck, true) => (ck, [sent], true)
      | (ck, false) =>
          let '(ck, sents, r) := PutAppend key value op replies ck in (ck, sent :: sents, r)
      end
  end.

Definition Put (key value : string) := PutAppend key value "Put".
Definition Append (key value : string) := PutAppend key value "Append".

(** ** Retrying *)

Section retry.
Implicit Types (ck : Clerk).

(** The answers that make a clerk try the next server. *)
Definition refused {R} (err : R -> Err) (reply : option R) : Prop :=
  match reply with None => True | Some r => err r = ErrWrongLeader end.

(** The server the clerk asks in its [i]-th attempt. *)
Definition attempt (ck : Clerk) (i : nat) : Z := (leader ck + Z.of_nat i) mod Z.of_nat (servers ck).

Definition clerkWf (ck : Clerk) : Prop := 0 <= leader ck < Z.of_nat (servers ck).

Definition atAttempt (ck : Clerk) (i : nat) : Clerk :=
  mkClerk (servers ck) (clientId ck) (seqNum ck) (attempt ck i).

Lemma atAttempt_0 ck : clerkWf ck -> atAttempt ck 0 = ck.
Proof.
  unfold clerkWf, atAttempt, attempt; intros; destruct ck; simpl in *.
  f_equal; rewrite Z.add_0_r; by apply Z.mod_small.
Qed.

Lemma nextLeader_attempt ck i :
  clerkWf ck -> nextLeader (atAttempt ck i) = atAttempt ck (S i).
Proof.
  unfold clerkWf, nextLeader, atAttempt, attempt; intros; simpl; f_equal.
  rewrite Zplus_mod_idemp_l; f_equal; lia.
Qed.

Lemma PutAppendIter_refused reply ck :
  refused pr_Err reply -> PutAppendIter reply ck = (nextLeader ck, false).
Proof. destruct reply as [[e]|]; simpl; [intros ->|]; done. Qed.

Lemma GetIter_refused reply ck :
  refused gr_Err reply -> GetIter reply ck = (nextLeader ck, None).
Proof. destruct reply as [[v e]|]; simpl; [intros ->|]; done. Qed.

Lemma PutAppend_from k v op ck i fails rest :
  clerkWf ck -> Forall (refused pr_Err) fails ->
  PutAppend k v op (fails ++ Some (mkPutAppendReply OK) :: rest)%list (atAttempt ck i)
  = (nextSeq (atAttempt ck (i + length fails)),
     (fun j => (attempt ck j, PutAppendArgs_of k v op ck)) <$> seq i (S (length fails)), true).
Proof.
  intros Hwf; revert i; induction fails as [|r fails IH]; intros i Hf; simpl.
  - by rewrite Nat.add_0_r.
  - apply Forall_cons in Hf as [Hr Hf].
    rewrite PutAppendIter_refused, nextLeader_attempt, IH by done.
    by rewrite Nat.add_succ_r.
Qed.

Lemma Get_from k ck i fails reply rest :
  clerkWf ck -> Forall (refused gr_Err) fails -> gr_Err reply ∈ [OK; ErrNoKey] ->
  Get k (fails ++ Some reply :: rest)%list (atAttempt ck i)
  = (nextSeq (atAttempt ck (i + length fails)),
     (fun j => (attempt ck j, GetArgs_of k ck)) <$> seq i (S (length fails)),
     Some (if decide (gr_Err reply = OK) then gr_Value reply else "")).
Proof.
  intros Hwf Hf Hr; revert i; induction Hf as [|r fails Hx Hf IH]; intros i; simpl.
  - rewrite Nat.add_0_r. destruct reply as [v e]; simpl in *.
    repeat (apply elem_of_cons in Hr as [->|Hr]); [done|done|by apply elem_of_nil in Hr].
  - rewrite GetIter_refused, nextLeader_attempt, IH by done.
    by rewrite Nat.add_succ_r.
Qed.
End retry.

(** A [PutAppend] that meets any number of lost calls and wrong leaders
    before a server answers OK sends one request per attempt, to the servers in
    round-robin order from the remembered leader; every one of them carries the
    same client id and sequence number, so the servers can recognise the
    retries; the loop returns at the first OK, the sequence number has then
    grown by exactly one, and the answering server is the new remembered
    leader. *)
Theorem PutAppend_retries (key value op : string) (ck : Clerk)
    (fails rest : list (option PutAppendReply)) :
  clerkWf ck -> Forall (refused pr_Err) fails ->
  PutAppend key value op (fails ++ Some (mkPutAppendReply OK) :: rest)%list ck
  = (mkClerk (servers ck) (clientId ck) (seqNum ck + 1) (attempt ck (length fails)),
     (fun j => (attempt ck j, mkPutAppendArgs key value op (clientId ck) (seqNum ck)))
       <$> seq 0 (S (length fails)), true).
Proof.
  intros Hwf Hf; rewrite <- (atAttempt_0 ck Hwf) at 1.
  by rewrite PutAppend_from.
Qed.

Lemma PutAppend_retries_witness :
  PutAppend "k" "v" "Put" [None; Some (mkPutAppendReply ErrWrongLeader); Some (mkPutAppendReply OK)]
    (MakeClerk 3 42)
  = (mkClerk 3 42 2 2,
     [(0, mkPutAppendArgs "k" "v" "Put" 42 1); (1, mkPutAppendArgs "k" "v" "Put" 42 1);
      (2, mkPutAppendArgs "k" "v" "Put" 42 1)], true).
Proof.
  apply (PutAppend_retries "k" "v" "Put" (MakeClerk 3 42)
           [None; Some (mkPutAppendReply ErrWrongLeader)] []).
  - unfold clerkWf; simpl; lia.
  - by repeat constructor.
Defined.

(** The same for [Get]: the retries repeat the same request identity, and
    the value returned is the one of the first accepting answer, the empty
    string when that answer says that the key is absent. *)
Theorem Get_retries (key : string) (ck : Clerk) (fails rest : list (option GetReply)) (reply : GetReply) :
  clerkWf ck -> Forall (refused gr_Err) fails -> gr_Err reply ∈ [OK; ErrNoKey] ->
  Get key (fails ++ Some reply :: rest)%list ck
  = (mkClerk (servers ck) (clientId ck) (seqNum ck + 1) (attempt ck (length fails)),
     (fun j => (attempt ck j, mkGetArgs key (clientId ck) (seqNum ck))) <$> seq 0 (S (length fails)),
     Some (if decide (gr_Err reply = OK) then gr_Value reply else "")).
Proof.
  intros Hwf Hf Hr; rewrite <- (atAttempt_0 ck Hwf) at 1.
  by rewrite Get_from.
Qed.

Lemma Get_retries_witness :
  Get "k" [None; Some (mkGetReply "v" OK)] (MakeClerk 3 42)
  = (mkClerk 3 42 2 1, [(0, mkGetArgs "k" 42 1); (1, mkGetArgs "k" 42 1)], Some "v").
Proof.
  apply (Get_retries "k" (MakeClerk 3 42) [None] [] (mkGetReply "v" OK)).
  - unfold clerkWf; simpl; lia.
  - by repeat constructor.
  - left.
Defined.

(** ** Clerks and the committed log

    Any number of clerks, each running one [PutAppend] or [Get] at a time. A
    request that was ever sent may be committed at any later time, any number
    of times. A clerk gets an accepting answer only for an operation that is
    in the log ([PutAppend_ok_applied]). *)

Record system : Type := mkSystem {
  clerks : gmap Z (Clerk * option Op);    (* by client id; the call under way *)
  requests : list Op;                     (* every request ever sent *)
  committed : list Op;
}.

Inductive call : Type := CGet (key : string) | CPutAppend (key value op : string).

(** The operation a server proposes for the request of a call. *)
Definition callOp (c : call) (ck : Clerk) : Op :=
  match c with
  | CGet key => getOp (GetArgs_of key ck)
  | CPutAppend key value op => putAppendOp (PutAppendArgs_of key value op ck)
  end.

(** What an accepting or refusing iteration makes of the clerk. *)
Definition afterReply (ok : bool) (op : Op) (ck : Clerk) : Clerk :=
  if String.eqb (Type_ op) OpGet
  then (GetIter (Some (mkGetReply "" (if ok then OK else ErrWrongLeader))) ck).1
  else (PutAppendIter (Some (mkPutAppendReply (if ok then OK else ErrWrongLeader))) ck).1.

Inductive sysStep : system -> system -> Prop :=
| st_make n id s :
    clerks s !! id = None -> (forall op, op ∈ requests s -> ClientId op <> id) ->
    sysStep s (mkSystem (<[id := (MakeClerk n id, None)]> (clerks s)) (requests s) (committed s))
| st_call id ck c s :
    clerks s !! id = Some (ck, None) ->
    sysStep s (mkSystem (<[id := (ck, Some (callOp c ck))]> (clerks s)) (requests s) (committed s))
| st_send id ck op s :
    clerks s !! id = Some (ck, Some op) ->
    sysStep s (mkSystem (clerks s) (op :: requests s) (committed s))
| st_commit op s :
    op ∈ requests s ->
    sysStep s (mkSystem (clerks s) (requests s) (committed s ++ [op])%list)
| st_refused id ck op s :
    clerks s !! id = Some (ck, Some op) ->
    sysStep s (mkSystem (<[id := (afterReply false op ck, Some op)]> (clerks s)) (requests s) (committed s))
| st_accepted id ck op s :
    clerks s !! id = Some (ck, Some op) -> opId op ∈ opId <$> committed s ->
    sysStep s (mkSystem (<[id := (afterReply true op ck, None)]> (clerks s)) (requests s) (committed s)).

Definition sysInit : system := mkSystem ∅ [] [].

Section serial.
Implicit Types (s : system) (ck : Clerk).

(** A clerk uses its own id; what it sent has the current number, or a smaller
    one that is committed. *)
Definition sysInv s : Prop :=
  serialLog [] (committed s)
  /\ committed s ⊆ requests s
  /\ (forall id ck o, clerks s !! id = Some (ck, o) ->
        clientId ck = id /\ 0 < seqNum ck
        /\ from_option (fun op => opId op = (id, seqNum ck)) True o
        /\ (o = None -> forall op, op ∈ requests s -> ClientId op = id -> SeqNum op < seqNum ck))
  /\ (forall op, op ∈ requests s -> exists ck o, clerks s !! ClientId op = Some (ck, o)
        /\ 0 < SeqNum op <= seqNum ck
        /\ (SeqNum op < seqNum ck -> opId op ∈ opId <$> committed s)).

Lemma callOp_id c ck : opId (callOp c ck) = (clientId ck, seqNum ck).
Proof. by destruct c. Qed.

Lemma afterReply_spec ok op ck :
  clientId (afterReply ok op ck) = clientId ck
  /\ seqNum (afterReply ok op ck) = if ok then seqNum ck + 1 else seqNum ck.
Proof. unfold afterReply; case_if; by destruct ok. Qed.

Lemma serialLog_snoc seen ops op :
  serialLog seen (ops ++ [op])%list <->
  serialLog seen ops /\ serialFrom (reverse (opId <$> ops) ++ seen)%list op.
Proof.
  revert seen; induction ops as [|o ops IH]; intros seen; [simpl; tauto|].
  rewrite fmap_cons, reverse_cons, <- (assoc app); simpl; rewrite IH; tauto.
Qed.

Lemma sysInv_commit s op :
  sysInv s -> op ∈ requests s ->
  sysInv (mkSystem (clerks s) (requests s) (committed s ++ [op])%list).
Proof.
  intros (Hser & Hsub & Hck & Hreq) Hop; unfold sysInv; simpl.
  destruct (Hreq op Hop) as (ck & o & Hc & Hpos & Hlt).
  split_and!.
  - apply serialLog_snoc; split; [done|split; [lia|]].
    rewrite app_nil_r; setoid_rewrite elem_of_reverse.
    destruct (decide (SeqNum op < seqNum ck)) as [Hl|Hl]; [left; auto|].
    destruct (decide (opId op ∈ opId <$> committed s)) as [|Hno]; [by left|right].
    intros n (op' & Heq & Hin)%list_elem_of_fmap.
    destruct (Hreq op' (Hsub _ Hin)) as (ck' & o' & Hc' & Hpos' & _).
    unfold opId in Heq; simplify_eq.
    rewrite <- H in Hc'; simplify_eq.
    destruct (decide (SeqNum op' = SeqNum op)) as [E|]; [|lia].
    destruct Hno; apply list_elem_of_fmap; exists op'; split; [|done].
    unfold opId; congruence.
  - intros x [Hx|Hx%list_elem_of_singleton]%elem_of_app; [by apply Hsub|by subst].
  - done.
  - intros op' Hop'; destruct (Hreq op' Hop') as (ck' & o' & Hc' & Hp' & Hl').
    exists ck', o'; split_and!; [done|lia|lia|]. intros ?%Hl'; rewrite fmap_app; apply elem_of_app; by left.
Qed.

(** Changing the call state of one clerk, its numbers only growing. *)
Lemma sysInv_clerk s id ck o ck' o' :
  sysInv s -> clerks s !! id = Some (ck, o) -> clientId ck' = id -> seqNum ck <= seqNum ck' ->
  from_option (fun op => opId op = (id, seqNum ck')) True o' ->
  (o' = None -> forall op, op ∈ requests s -> ClientId op = id -> SeqNum op < seqNum ck') ->
  (seqNum ck < seqNum ck' -> (id, seqNum ck) ∈ opId <$> committed s /\ seqNum ck' = seqNum ck + 1) ->
  sysInv (mkSystem (<[id := (ck', o')]> (clerks s)) (requests s) (committed s)).
Proof.
  intros (Hser & Hsub & Hck & Hreq) Hc Hid Hle Ho Hidle Hadv; unfold sysInv; simpl.
  split_and!; [done|done| |].
  - intros id' ck1 o1 [[<- [= <- <-]]|[Hne Hc1]]%lookup_insert_Some; [|by apply Hck].
    destruct (Hck _ _ _ Hc) as (_ & ? & _). split_and!; [done|lia|done|done].
  - intros op Hop; destruct (Hreq op Hop) as (ck1 & o1 & Hc1 & Hp & Hl).
    destruct (decide (ClientId op = id)) as [E|Hne]; [|rewrite lookup_insert_ne by done; eauto].
    rewrite E in Hc1; simplify_eq. rewrite E, lookup_insert_eq.
    exists ck', o'; split_and!; [done|lia|lia|]. intros Hlt.
    destruct (decide (SeqNum op < seqNum ck)) as [|Hge]; [by apply Hl|].
    destruct Hadv as [Hin _]; [lia|]. unfold opId at 1; rewrite E.
    by replace (SeqNum op) with (seqNum ck) by lia.
Qed.

Lemma sysInv_make s n id :
  sysInv s -> clerks s !! id = None -> (forall op, op ∈ requests s -> ClientId op <> id) ->
  sysInv (mkSystem (<[id := (MakeClerk n id, None)]> (clerks s)) (requests s) (committed s)).
Proof.
  intros (Hser & Hsub & Hck & Hreq) Hnone Hfresh; unfold sysInv; simpl.
  split_and!; [done|done| |].
  - intros id' ck1 o1 [[<- [= <- <-]]|[Hne Hc1]]%lookup_insert_Some; [|by apply Hck].
    split_and!; [done|done|done|]. intros _ op Hop E; by destruct (Hfresh op Hop).
  - intros op Hop; rewrite lookup_insert_ne by (intros E; by destruct (Hfresh op Hop)).
    by apply Hreq.
Qed.

Lemma sysInv_send s id ck op :
  sysInv s -> clerks s !! id = Some (ck, Some op) ->
  sysInv (mkSystem (clerks s) (op :: requests s) (committed s)).
Proof.
  intros (Hser & Hsub & Hck & Hreq) Hc; unfold sysInv; simpl.
  destruct (Hck _ _ _ Hc) as (Hid & Hpos & Hop & _); injection Hop as Ecid Eseq.
  split_and!; [done|intros x Hx; right; by apply Hsub| |].
  - intros id' ck' o' Hc'; destruct (Hck _ _ _ Hc') as (? & ? & ? & Hidle); split_and!; [done..|].
    intros Ho op' [->|Hin]%elem_of_cons E; [|by apply Hidle].
    assert (id' = id) as -> by congruence. simplify_eq.
  - intros op' [->|Hin]%elem_of_cons; [|by apply Hreq].
    exists ck, (Some op); rewrite Ecid; split_and!; [done|lia|lia|lia].
Qed.

Lemma sysInv_step s s' : sysInv s -> sysStep s s' -> sysInv s'.
Proof.
  intros Hi Hst; pose proof Hi as (_ & _ & Hck & Hreq); destruct Hst as
    [n id s Hn Hf|id ck c s Hc|id ck op s Hc|op s Hop|id ck op s Hc|id ck op s Hc Hin].
  - by apply sysInv_make.
  - destruct (Hck _ _ _ Hc) as (Hid & _). eapply sysInv_clerk; [done|done|done|lia| |done|lia].
    simpl; by rewrite callOp_id, Hid.
  - by eapply sysInv_send.
  - by apply sysInv_commit.
  - destruct (Hck _ _ _ Hc) as (Hid & _ & Ho & _).
    destruct (afterReply_spec false op ck) as [E1 E2].
    eapply sysInv_clerk; [done|done|congruence|lia| |done|lia]. simpl; by rewrite E2.
  - destruct (Hck _ _ _ Hc) as (Hid & _ & Ho & _).
    destruct (afterReply_spec true op ck) as [E1 E2].
    eapply sysInv_clerk; [done|done|congruence|lia|done| |].
    + intros _ op' Hop' E; destruct (Hreq op' Hop') as (ck1 & o1 & Hc1 & ? & _).
      rewrite E in Hc1; simplify_eq; lia.
    + intros _; simpl in Ho; rewrite <- Ho; split; [done|lia].
Qed.

Lemma sysInv_init : sysInv sysInit.
Proof.
  split_and!; [done|done| |].
  - intros id ck o H; simpl in H; by rewrite lookup_empty in H.
  - intros op H; simpl in H; by apply elem_of_nil in H.
Qed.

Lemma sysInv_reachable s : rtc sysStep sysInit s -> sysInv s.
Proof.
  intros Hr; cut (forall s0, sysInv s0 -> rtc sysStep s0 s -> sysInv s); [eauto using sysInv_init|].
  clear Hr; intros s0 Hi Hr; induction Hr; eauto using sysInv_step.
Qed.
End serial.

(** C13: End to end, exactly once: in every execution of any number of clerks
    that follow [client.go], with requests delayed, reordered, repeated and
    committed any number of times, a server that has been fed the committed
    log up to position [k], through commands and snapshots in any mix, holds
    the data obtained by executing each distinct operation once, in the order
    in which the operations were first committed. *)
Theorem clerks_exactly_once (s : system) (size : KVServer -> Z) (maxraft : Z)
    (k : nat) (msgs : list (ApplyMsg Op)) :
  rtc sysStep sysInit s -> delivers (committed s) 0 msgs k ->
  exists kv snaps, applyMsgs size msgs (StartKVServer MakePersister maxraft) = Some (kv, snaps)
    /\ kvMap kv = foldl (flip execOp) ∅ (firsts (take k (committed s))).
Proof. intros [Hs _]%sysInv_reachable Hd; by apply run_exactly_once. Qed.

Lemma clerks_exactly_once_witness :
  exists kv snaps,
    applyMsgs (fun _ => 0) [commandMsg (Some (mkOp OpAppend "k" "b" 7 1)) 1;
                            commandMsg (Some (mkOp OpAppend "k" "b" 7 1)) 2]
      (StartKVServer MakePersister (-1)) = Some (kv, snaps)
    /\ kvMap kv = foldl (flip execOp) ∅ (firsts (take 2
          [mkOp OpAppend "k" "b" 7 1; mkOp OpAppend "k" "b" 7 1])).
Proof.
  set (op := mkOp OpAppend "k" "b" 7 1); set (ck := MakeClerk 3 7).
  set (cks := <[7 := (ck, Some op)]> (<[7 := (ck, None)]> ∅) : gmap Z (Clerk * option Op)).
  apply (clerks_exactly_once (mkSystem cks [op] [op; op]) (fun _ => 0) (-1) 2).
  - eapply rtc_l; [apply (st_make 3 7 sysInit); [done|]|].
    { intros o H; by apply elem_of_nil in H. }
    eapply rtc_l; [apply (st_call 7 ck (CPutAppend "k" "b" "Append")); done|].
    eapply rtc_l; [apply (st_send 7 ck op); done|].
    eapply rtc_l; [apply (st_commit op); left|].
    eapply rtc_l; [apply (st_commit op); left|]. apply rtc_refl.
  - apply dl_command; [done|]. apply dl_command; [done|]. apply dl_nil.
Defined.
