(* ===== verification/MrCoordinator.v ===== *)
(** * MapReduce: the coordinator

    Models [mr/coordinator.go] and [mr/rpc.go]. A slot of [mapTask] or
    [reduceTask] that holds a nil pointer is [None]: following it, or indexing
    outside the slice, panics, which makes a handler return [None]. Times are in
    nanoseconds; [now] is the clock read by the call. *)

From S2P Require Import Prelude.

#[local] Open Scope string_scope.
#[local] Open Scope Z_scope.

Inductive TaskStatus : Type := Todo | Doing | Done.

#[export] Instance TaskStatus_eq_dec : EqDecision TaskStatus.
Proof. solve_decision. Defined.

Record MapTask : Type := mkMapTask { filename : string; m_status : TaskStatus; m_assignedAt : Z }.
Record ReduceTask : Type := mkReduceTask { r_status : TaskStatus; r_assignedAt : Z }.

Record Coordinator : Type := mkCoordinator {
  phase : Z;                          (* 0=map, 1=reduce, 2=done *)
  mapTask : list (option MapTask);
  reduceTask : list (option ReduceTask);
  capX : Z;
  capY : Z;
}.

Definition TaskNone : Z := 0.
Definition TaskMap : Z := 1.
Definition TaskReduce : Z := 2.
Definition TaskExit : Z := -99.

Record TaskAssignment : Type := mkTaskAssignment {
  TaskType : Z; Filename : string; LowerX : Z; LowerY : Z; X : Z; Y : Z }.
Record TaskCompletion : Type := mkTaskCompletion { tc_LowerX : Z; tc_LowerY : Z }.

Definition Second : Z := 1000000000.

(** [c.server()], the last statement of the constructor, only opens the socket. *)
Definition MakeCoordinator (fnames : list string) (nReduce : nat) : Coordinator :=
  mkCoordinator 0
    (None :: ((fun f => Some (mkMapTask f Todo 0)) <$> fnames))
    (replicate (nReduce + 1) None)
    (len fnames) (Z.of_nat nReduce).

Fixpoint fillReduceLoop (ys : list Z) (ts : list (option ReduceTask)) : option (list (option ReduceTask)) :=
  match ys with
  | [] => Some ts
  | y :: ys => ts ← upd ts y (Some (mkReduceTask Todo 0)); fillReduceLoop ys ts
  end.

Definition fillReduce (c : Coordinator) : option Coordinator :=
  ts ← fillReduceLoop (seqZ 1 (capY c)) (reduceTask c);
  Some (mkCoordinator (phase c) (mapTask c) ts (capX c) (capY c)).

(** The scan of [fetchMap]: the task found (0 if none), the number of tasks not
    yet done, and the slots. *)
Fixpoint fetchMapLoop (now : Z) (xs : list Z) (taskLeft : Z) (ts : list (option MapTask))
    : option (Z * Z * list (option MapTask)) :=
  match xs with
  | [] => Some (0, taskLeft, ts)
  | x :: xs =>
      slot ← idx ts x;
      tp ← slot;
      match m_status tp with
      | Todo => Some (x, taskLeft, ts)
      | Doing =>
          if now - m_assignedAt tp >? 15 * Second then
            ts ← upd ts x (Some (mkMapTask (filename tp) Todo (m_assignedAt tp)));
            Some (x, taskLeft, ts)
          else fetchMapLoop now xs taskLeft ts
      | Done => fetchMapLoop now xs (taskLeft - 1) ts
      end
  end.

Definition fetchMap (now : Z) (c : Coordinator) : option (Z * Coordinator) :=
  '(x, taskLeft, ts) ← fetchMapLoop now (seqZ 1 (capX c)) (capX c) (mapTask c);
  if x >? 0 then Some (x, mkCoordinator (phase c) ts (reduceTask c) (capX c) (capY c))
  else if taskLeft =? 0 then
    c ← fillReduce (mkCoordinator 1 ts (reduceTask c) (capX c) (capY c));
    Some (0, c)
  else Some (0, mkCoordinator (phase c) ts (reduceTask c) (capX c) (capY c)).

Fixpoint fetchReduceLoop (now : Z) (ys : list Z) (taskLeft : Z) (ts : list (option ReduceTask))
    : option (Z * Z * list (option ReduceTask)) :=
  match ys with
  | [] => Some (0, taskLeft, ts)
  | y :: ys =>
      slot ← idx ts y;
      tp ← slot;
      match r_status tp with
      | Todo => Some (y, taskLeft, ts)
      | Doing =>
          if now - r_assignedAt tp >? 10 * Second then
            ts ← upd ts y (Some (mkReduceTask Todo (r_assignedAt tp)));
            Some (y, taskLeft, ts)
          else fetchReduceLoop now ys taskLeft ts
      | Done => fetchReduceLoop now ys (taskLeft - 1) ts
      end
  end.

Definition fetchReduce (now : Z) (c : Coordinator) : option (Z * Coordinator) :=
  '(y, taskLeft, ts) ← fetchReduceLoop now (seqZ 1 (capY c)) (capY c) (reduceTask c);
  if y >? 0 then Some (y, mkCoordinator (phase c) (mapTask c) ts (capX c) (capY c))
  else if taskLeft =? 0 then Some (0, mkCoordinator 2 (mapTask c) ts (capX c) (capY c))
  else Some (0, mkCoordinator (phase c) (mapTask c) ts (capX c) (capY c)).

(** The [RequestTask] handler. *)
Definition RequestTask (now : Z) (c : Coordinator) : option (Coordinator * TaskAssignment) :=
  '(x, c) ← (if phase c =? 0 then fetchMap now c else Some (0, c));
  '(y, c) ← (if phase c =? 1 then fetchReduce now c else Some (0, c));
  if phase c =? 2 then Some (c, mkTaskAssignment TaskExit "" 0 0 (capX c) (capY c))
  else if x >? 0 then
    slot ← idx (mapTask c) x;
    tp ← slot;
    ts ← upd (mapTask c) x (Some (mkMapTask (filename tp) Doing now));
    Some (mkCoordinator (phase c) ts (reduceTask c) (capX c) (capY c),
          mkTaskAssignment TaskMap (filename tp) x 0 (capX c) (capY c))
  else if y >? 0 then
    slot ← idx (reduceTask c) y;
    tp ← slot;
    ts ← upd (reduceTask c) y (Some (mkReduceTask Doing now));
    Some (mkCoordinator (phase c) (mapTask c) ts (capX c) (capY c),
          mkTaskAssignment TaskReduce "" 0 y (capX c) (capY c))
  else Some (c, mkTaskAssignment TaskNone "" 0 0 (capX c) (capY c)).

(** The [ResponseTask] handler: each condition reads its task only if the
    number is not 0. *)
Definition ResponseTask (tcp : TaskCompletion) (c : Coordinator) : option Coordinator :=
  doneX ← (if negb (tc_LowerX tcp =? 0) then
             slot ← idx (mapTask c) (tc_LowerX tcp); tp ← slot;
             Some (if decide (m_status tp = Done) then None else Some tp)
           else Some None);
  match doneX with
  | Some tp =>
      ts ← upd (mapTask c) (tc_LowerX tcp) (Some (mkMapTask (filename tp) Done (m_assignedAt tp)));
      Some (mkCoordinator (phase c) ts (reduceTask c) (capX c) (capY c))
  | None =>
      doneY ← (if negb (tc_LowerY tcp =? 0) then
                 slot ← idx (reduceTask c) (tc_LowerY tcp); tp ← slot;
                 Some (if decide (r_status tp = Done) then None else Some tp)
               else Some None);
      match doneY with
      | Some tp =>
          ts ← upd (reduceTask c) (tc_LowerY tcp) (Some (mkReduceTask Done (r_assignedAt tp)));
          Some (mkCoordinator (phase c) (mapTask c) ts (capX c) (capY c))
      | None => Some c
      end
  end.

(** The [Done] method that [main/mrcoordinator.go] polls. *)
Definition isDone (c : Coordinator) : bool := phase c =? 2.

(** The example handler of the lab skeleton. *)
Definition Example_ (argX : Z) : Z := argX + 1.
