(* ===== verification/MrCoordinatorFacts.v ===== *)
(** * MapReduce: what the coordinator guarantees

    The coordinator is run against any workers: they ask for tasks at arbitrary
    times, and report tasks that were assigned before, in any order, late,
    repeatedly, or never. The [history] of assignments and reports is the
    observable behaviour; [contract] says what it promises. *)

From S2P Require Import Prelude MrCoordinator.

#[local] Open Scope Z_scope.

(** ** Slots *)

Section slots.
Context {A : Type}.
Implicit Types (ts : list (option A)).

(** The task a slot points to. *)
Definition task ts (x : Z) : option A := mjoin (idx ts x).

Lemma task_Some ts x a : task ts x = Some a <-> idx ts x = Some (Some a).
Proof. unfold task; destruct (idx ts x) as [[]|]; naive_solver. Qed.

Lemma task_upd ts x a ts' z :
  upd ts x (Some a) = Some ts' -> task ts' z = if decide (z = x) then Some a else task ts z.
Proof.
  intros Hu; unfold task; destruct (decide (z = x)) as [->|]; [by rewrite (idx_upd_eq _ _ _ _ Hu)|].
  by rewrite (idx_upd_ne _ _ _ _ _ Hu) by done.
Qed.

Lemma task_range ts x a : task ts x = Some a -> 0 <= x < len ts.
Proof. intros Ht; apply task_Some, idx_Some_range in Ht; lia. Qed.
End slots.

(** ** The two scans are one *)

Section scan.
Context {A : Type} (st : A -> TaskStatus) (assignedAt : A -> Z) (reset : A -> A) (timeout : Z).
Implicit Types (ts : list (option A)) (xs : list Z).

Fixpoint scan (now : Z) xs (taskLeft : Z) ts : option (Z * Z * list (option A)) :=
  match xs with
  | [] => Some (0, taskLeft, ts)
  | x :: xs =>
      slot ← idx ts x;
      tp ← slot;
      match st tp with
      | Todo => Some (x, taskLeft, ts)
      | Doing =>
          if now - assignedAt tp >? timeout then
            ts ← upd ts x (Some (reset tp)); Some (x, taskLeft, ts)
          else scan now xs taskLeft ts
      | Done => scan now xs (taskLeft - 1) ts
      end
  end.

(** The task may be given out at time [now]. *)
Definition ready (now : Z) (a : A) : Prop :=
  st a = Todo \/ (st a = Doing /\ now - assignedAt a > timeout).

Definition doneAt ts (x : Z) : Prop := from_option (fun a => st a = Done) False (task ts x).

#[global] Instance doneAt_dec ts x : Decision (doneAt ts x).
Proof. unfold doneAt; destruct (task ts x); simpl; apply _. Defined.

(** How many of the tasks are not done. *)
Definition undone ts xs : nat := length (filter (fun x => ~ doneAt ts x) xs).

Lemma undone_le ts xs : (undone ts xs <= length xs)%nat.
Proof. apply length_filter. Qed.

Lemma undone_0 ts xs : undone ts xs = 0%nat <-> forall x, x ∈ xs -> doneAt ts x.
Proof.
  unfold undone; rewrite length_zero_iff_nil; split.
  - intros E x Hx; destruct (decide (doneAt ts x)) as [|Hn]; [done|].
    assert (x ∈ filter (fun x => ~ doneAt ts x) xs) as Hf by (by apply list_elem_of_filter).
    rewrite E in Hf; by apply elem_of_nil in Hf.
  - intros Hall; apply filter_none; intros x Hx Hn; by apply Hn, Hall.
Qed.

(** What a scan finds: the first ready task, or nothing and the number of
    tasks that are not done. *)
Definition scanFound now xs ts (x : Z) ts' : Prop :=
  x ∈ xs /\ (exists a, task ts x = Some a /\ ready now a)
  /\ len ts' = len ts /\ (forall z, z <> x -> task ts' z = task ts z)
  /\ exists a a', task ts x = Some a /\ task ts' x = Some a' /\ (a' = a \/ a' = reset a).

Lemma scan_spec now xs taskLeft ts :
  (forall x, x ∈ xs -> 0 < x /\ is_Some (task ts x)) ->
  exists x left ts', scan now xs taskLeft ts = Some (x, left, ts')
    /\ ((0 < x /\ scanFound now xs ts x ts')
        \/ (x = 0 /\ ts' = ts /\ (forall z a, z ∈ xs -> task ts z = Some a -> ~ ready now a)
            /\ left = taskLeft - len xs + Z.of_nat (undone ts xs))).
Proof.
  revert taskLeft; induction xs as [|x xs IH]; intros taskLeft Hall; simpl.
  { exists 0, taskLeft, ts; split; [done|right]; split_and!; [done|done| |unfold undone, len; simpl; lia].
    intros z a Hz; by apply elem_of_nil in Hz. }
  destruct (Hall x) as [Hx [a Ha]]; [left|].
  pose proof Ha as Hi; apply task_Some in Hi; rewrite Hi; simpl.
  assert (Hrest : st a <> Todo -> ~ ready now a -> forall taskLeft',
    taskLeft' = taskLeft - (if decide (st a = Done) then 1 else 0) ->
    exists x' left ts', scan now xs taskLeft' ts = Some (x', left, ts')
    /\ ((0 < x' /\ scanFound now (x :: xs) ts x' ts')
        \/ (x' = 0 /\ ts' = ts /\ (forall z a, z ∈ x :: xs -> task ts z = Some a -> ~ ready now a)
            /\ left = taskLeft - len (x :: xs) + Z.of_nat (undone ts (x :: xs))))).
  { intros HnT Hnr taskLeft' ->.
    edestruct (IH (taskLeft - (if decide (st a = Done) then 1 else 0))) as (x' & left & ts' & E & Hc);
      [intros z Hz; apply Hall; by right|].
    exists x', left, ts'; split; [done|].
    destruct Hc as [[? (Hin & Hf)]|(-> & -> & Hno & ->)]; [left|right].
    - split; [done|]. split; [by right|done].
    - split_and!; [done|done| |].
      + intros z b [->|Hz]%elem_of_cons Hb; [by simplify_eq|by eapply Hno].
      + assert (Hda : doneAt ts x <-> st a = Done) by (unfold doneAt; by rewrite Ha).
        unfold undone; rewrite filter_cons, len_cons.
        destruct (decide (st a = Done)) as [Hd|Hd].
        * rewrite decide_False by tauto; lia.
        * rewrite decide_True by tauto; simpl; lia. }
  unfold ready in Hrest; destruct (st a) eqn:Est.
  - exists x, taskLeft, ts; split; [done|left]. split; [done|].
    split_and!; [left| |done|done|exists a, a; auto]. exists a; split; [done|by left].
  - destruct (now - assignedAt a >? timeout) eqn:Et; zbool.
    + rewrite upd_ok by (eapply task_range; done); simpl.
      set (ts' := <[Z.to_nat x := Some (reset a)]> ts).
      assert (Hu : upd ts x (Some (reset a)) = Some ts') by (apply upd_ok; by eapply task_range).
      exists x, taskLeft, ts'; split; [done|left]. split; [done|].
      split_and!; [left| |by eapply upd_len| |].
      * exists a; split; [done|]; right; split; [done|lia].
      * intros z Hz; rewrite (task_upd _ _ _ _ z Hu); by rewrite decide_False.
      * exists a, (reset a); rewrite (task_upd _ _ _ _ x Hu), decide_True by done; auto.
    + apply Hrest; [done| |simpl; lia]. intros [|[_ ?]]; [done|lia].
  - apply Hrest; [done| |simpl; lia]. intros [|[? _]]; done.
Qed.
End scan.

Lemma fetchMapLoop_scan now xs n ts :
  fetchMapLoop now xs n ts
  = scan m_status m_assignedAt (fun t => mkMapTask (filename t) Todo (m_assignedAt t)) (15 * Second) now xs n ts.
Proof.
  revert n; induction xs as [|x xs IH]; intros n; simpl; [done|].
  destruct (idx ts x) as [[t|]|]; simpl; [|done..]. destruct (m_status t); [done| |done].
  by destruct (_ >? _).
Qed.

Lemma fetchReduceLoop_scan now xs n ts :
  fetchReduceLoop now xs n ts
  = scan r_status r_assignedAt (fun t => mkReduceTask Todo (r_assignedAt t)) (10 * Second) now xs n ts.
Proof.
  revert n; induction xs as [|x xs IH]; intros n; simpl; [done|].
  destruct (idx ts x) as [[t|]|]; simpl; [|done..]. destruct (r_status t); [done| |done].
  by destruct (_ >? _).
Qed.

(** ** Histories *)

Inductive hEvent : Type :=
| HAssign (now : Z) (a : TaskAssignment)
| HReport (tcp : TaskCompletion).

(** Newest event first. *)
Definition history : Type := list hEvent.

Definition mapReported (h : history) (x : Z) : Prop := HReport (mkTaskCompletion x 0) ∈ h.
Definition reduceReported (h : history) (y : Z) : Prop := HReport (mkTaskCompletion 0 y) ∈ h.

(** When the task was last given out. *)
Fixpoint lastMap (h : history) (x : Z) : option Z :=
  match h with
  | [] => None
  | HAssign now a :: h =>
      if (TaskType a =? TaskMap) && (LowerX a =? x) then Some now else lastMap h x
  | HReport _ :: h => lastMap h x
  end.

Fixpoint lastReduce (h : history) (y : Z) : option Z :=
  match h with
  | [] => None
  | HAssign now a :: h =>
      if (TaskType a =? TaskReduce) && (LowerY a =? y) then Some now else lastReduce h y
  | HReport _ :: h => lastReduce h y
  end.

Section contract.
Variables X Y : Z.      (* the number of map and of reduce tasks *)

Definition mapsReported (h : history) : Prop := forall x, 1 <= x <= X -> mapReported h x.
Definition reducesReported (h : history) : Prop := forall y, 1 <= y <= Y -> reduceReported h y.

(** A task may be given out: it is not finished, and whoever had it before
    has had it for more than [timeout]. *)
Definition mayAssign (timeout now : Z) (last : option Z) : Prop :=
  match last with None => True | Some t => now - t > timeout end.

(** A task cannot be given out: it is finished or somebody has it. *)
Definition busy (timeout now : Z) (reported : Prop) (last : option Z) : Prop :=
  reported \/ exists t, last = Some t /\ now - t <= timeout.

(** What an answer to [RequestTask] says, given what happened before. *)
Definition answerOk (now : Z) (a : TaskAssignment) (h : history) : Prop :=
  (TaskType a = TaskMap /\ 1 <= LowerX a <= X /\ LowerY a = 0
     /\ ~ mapReported h (LowerX a) /\ mayAssign (15 * Second) now (lastMap h (LowerX a)))
  \/ (TaskType a = TaskReduce /\ 1 <= LowerY a <= Y /\ LowerX a = 0 /\ mapsReported h
     /\ ~ reduceReported h (LowerY a) /\ mayAssign (10 * Second) now (lastReduce h (LowerY a)))
  \/ (TaskType a = TaskExit /\ mapsReported h /\ reducesReported h)
  \/ (TaskType a = TaskNone
     /\ ((~ mapsReported h
          /\ forall x, 1 <= x <= X -> busy (15 * Second) now (mapReported h x) (lastMap h x))
         \/ (mapsReported h /\ ~ reducesReported h
          /\ forall y, 1 <= y <= Y -> busy (10 * Second) now (reduceReported h y) (lastReduce h y)))).

Fixpoint contract (h : history) : Prop :=
  match h with
  | [] => True
  | HAssign now a :: h => answerOk now a h /\ contract h
  | HReport _ :: h => contract h
  end.
End contract.

(** A worker reports the number of a task it was given. *)
Definition wasAssigned (h : history) (tcp : TaskCompletion) : Prop :=
  exists now a, HAssign now a ∈ h
    /\ ((TaskType a = TaskMap /\ tcp = mkTaskCompletion (LowerX a) 0)
        \/ (TaskType a = TaskReduce /\ tcp = mkTaskCompletion 0 (LowerY a))).

Inductive coordStep : Coordinator * history -> Coordinator * history -> Prop :=
| cs_request now c c' a h :
    RequestTask now c = Some (c', a) -> coordStep (c, h) (c', HAssign now a :: h)
| cs_report tcp c c' h :
    wasAssigned h tcp -> ResponseTask tcp c = Some c' -> coordStep (c, h) (c', HReport tcp :: h).

(** ** The invariant *)

(** The status of a task and what the history says of it. *)
Definition taskRel (reported : Prop) (last : option Z) (s : TaskStatus) (at_ : Z) : Prop :=
  match s with
  | Todo => ~ reported /\ last = None
  | Doing => ~ reported /\ last = Some at_
  | Done => reported
  end.

#[export] Instance taskRel_proper : Proper (iff ==> eq ==> eq ==> eq ==> iff) taskRel.
Proof. intros P Q HPQ l ? <- st ? <- at_ ? <-; unfold taskRel; destruct st; tauto. Qed.

Definition mapRel (h : history) (x : Z) (t : MapTask) : Prop :=
  taskRel (mapReported h x) (lastMap h x) (m_status t) (m_assignedAt t).
Definition reduceRel (h : history) (y : Z) (t : ReduceTask) : Prop :=
  taskRel (reduceReported h y) (lastReduce h y) (r_status t) (r_assignedAt t).

(** Given and reported numbers are those of tasks. *)
Definition evOk (c : Coordinator) (e : hEvent) : Prop :=
  match e with
  | HAssign _ a =>
      (TaskType a = TaskMap -> 1 <= LowerX a <= capX c)
      /\ (TaskType a = TaskReduce -> phase c <> 0 /\ 1 <= LowerY a <= capY c)
  | HReport tcp =>
      (exists x, tcp = mkTaskCompletion x 0 /\ 1 <= x <= capX c)
      \/ (exists y, tcp = mkTaskCompletion 0 y /\ phase c <> 0 /\ 1 <= y <= capY c)
  end.

Record coordInv (c : Coordinator) (h : history) : Prop := {
  ci_phase : phase c = 0 \/ phase c = 1 \/ phase c = 2;
  ci_capX : 0 <= capX c;
  ci_capY : 0 <= capY c;
  ci_lenY : len (reduceTask c) = capY c + 1;
  ci_map : forall x, 1 <= x <= capX c -> exists t, task (mapTask c) x = Some t /\ mapRel h x t;
  ci_reduce : phase c <> 0 ->
    forall y, 1 <= y <= capY c -> exists t, task (reduceTask c) y = Some t /\ reduceRel h y t;
  ci_mapsDone : phase c <> 0 -> mapsReported (capX c) h;
  ci_reducesDone : phase c = 2 -> reducesReported (capY c) h;
  ci_events : Forall (evOk c) h;
}.

Section invariant.
Implicit Types (c : Coordinator) (h : history).

Lemma elem_seqZ1 n x : x ∈ seqZ 1 n <-> 1 <= x <= n.
Proof. rewrite elem_of_seqZ; lia. Qed.

Lemma fillReduceLoop_spec ys ts :
  (forall y, y ∈ ys -> 0 <= y < len ts) ->
  exists ts', fillReduceLoop ys ts = Some ts' /\ len ts' = len ts
    /\ forall y, task ts' y = if decide (y ∈ ys) then Some (mkReduceTask Todo 0) else task ts y.
Proof.
  revert ts; induction ys as [|y ys IH]; intros ts Hr; cbn [fillReduceLoop].
  { exists ts; split_and!; [done|done|intros y; by rewrite decide_False by apply not_elem_of_nil]. }
  pose proof (upd_ok ts y (Some (mkReduceTask Todo 0)) (Hr y ltac:(left))) as Hu.
  rewrite Hu; cbn [mbind option_bind]; pose proof (upd_len _ _ _ _ Hu) as Hl.
  destruct (IH (<[Z.to_nat y:=Some (mkReduceTask Todo 0)]> ts)) as (ts' & -> & Hl' & Ht).
  { intros z Hz; rewrite Hl; apply Hr; by right. }
  exists ts'; split_and!; [done|lia|]. intros z; rewrite Ht, (task_upd _ _ _ _ z Hu).
  repeat case_decide; set_solver.
Qed.

(** A slot whose status agrees with the history is given out only if the
    contract allows it, and kept back only if the task is busy. *)
Lemma taskRel_ready {A} (st : A -> TaskStatus) (at_ : A -> Z) timeout now reported last a :
  taskRel reported last (st a) (at_ a) ->
  (ready st at_ timeout now a -> ~ reported /\ mayAssign timeout now last)
  /\ (~ ready st at_ timeout now a -> busy timeout now reported last).
Proof.
  unfold taskRel, ready, busy; destruct (st a) eqn:E; intros Hr.
  - destruct Hr as [? ->]; split; [done|]. intros Hn; destruct Hn; by left.
  - destruct Hr as [? ->]; simpl; split.
    + intros [|[_ ?]]; [done|]. split; [done|lia].
    + intros Hn; right; exists (at_ a); split; [done|].
      destruct (decide (now - at_ a > timeout)); [|lia]. destruct Hn; by right.
  - split; [intros [|[]]; done|by left].
Qed.

Lemma taskRel_done {A} (st : A -> TaskStatus) (at_ : A -> Z) reported last a :
  taskRel reported last (st a) (at_ a) -> (st a = Done <-> reported).
Proof. unfold taskRel; destruct (st a); naive_solver. Qed.

(** An assignment reports nothing, and only touches the task it names. *)
Lemma assign_reported now a h :
  (forall x, mapReported (HAssign now a :: h) x <-> mapReported h x)
  /\ (forall y, reduceReported (HAssign now a :: h) y <-> reduceReported h y).
Proof. unfold mapReported, reduceReported; split; intros; rewrite elem_of_cons; naive_solver. Qed.

Lemma mapRel_assign now a h x t :
  TaskType a <> TaskMap \/ LowerX a <> x -> mapRel h x t -> mapRel (HAssign now a :: h) x t.
Proof.
  intros Hne Hr; unfold mapRel in *; rewrite (proj1 (assign_reported now a h) x).
  cbn [lastMap]; case_if; [|done]. naive_solver.
Qed.

Lemma reduceRel_assign now a h y t :
  TaskType a <> TaskReduce \/ LowerY a <> y -> reduceRel h y t -> reduceRel (HAssign now a :: h) y t.
Proof.
  intros Hne Hr; unfold reduceRel in *; rewrite (proj2 (assign_reported now a h) y).
  cbn [lastReduce]; case_if; [|done]. naive_solver.
Qed.

Lemma inv_answer now a c c' h :
  coordInv c h -> phase c' = phase c -> capX c' = capX c -> capY c' = capY c ->
  len (reduceTask c') = len (reduceTask c) ->
  (forall x, 1 <= x <= capX c -> exists t, task (mapTask c') x = Some t /\ mapRel (HAssign now a :: h) x t) ->
  (phase c <> 0 -> forall y, 1 <= y <= capY c ->
     exists t, task (reduceTask c') y = Some t /\ reduceRel (HAssign now a :: h) y t) ->
  evOk c (HAssign now a) ->
  coordInv c' (HAssign now a :: h).
Proof.
  intros [] Hp HX HY Hl Hm Hr He; destruct (assign_reported now a h) as [Em Er].
  split; rewrite ?Hp, ?HX, ?HY, ?Hl; try done.
  - intros Hp0 x Hx; by apply Em, ci_mapsDone0.
  - intros Hp2 y Hy; by apply Er, ci_reducesDone0.
  - apply (Forall_impl (evOk c)); [by constructor|].
    intros [|]; simpl; by rewrite Hp, HX, HY.
Qed.

Lemma inv_keep now a c h :
  coordInv c h -> TaskType a <> TaskMap -> TaskType a <> TaskReduce -> coordInv c (HAssign now a :: h).
Proof.
  intros Hi Hm Hr; apply (inv_answer now a c c h Hi); try done.
  - intros x Hx; destruct (ci_map _ _ Hi x Hx) as (t & ? & ?); eauto using mapRel_assign.
  - intros Hp y Hy; destruct (ci_reduce _ _ Hi Hp y Hy) as (t & ? & ?); eauto using reduceRel_assign.
Qed.

Lemma inv_assignMap now f x c h ts tp :
  coordInv c h -> 1 <= x <= capX c -> ~ mapReported h x ->
  (forall z, task ts z = if decide (z = x) then Some (mkMapTask tp Doing now) else task (mapTask c) z) ->
  let a := mkTaskAssignment TaskMap f x 0 (capX c) (capY c) in
  coordInv (mkCoordinator (phase c) ts (reduceTask c) (capX c) (capY c)) (HAssign now a :: h).
Proof.
  intros Hi Hx Hnr Hts a; apply (inv_answer now a c _ h Hi); try done.
  - simpl; intros z Hz; rewrite Hts; case_decide as E.
    + eexists; split; [done|]. unfold mapRel; rewrite (proj1 (assign_reported now a h) z), E; simpl.
      by rewrite Z.eqb_refl.
    + destruct (ci_map _ _ Hi z Hz) as (t & ? & ?); exists t; split; [done|].
      apply mapRel_assign; [by right; simpl|done].
  - simpl; intros Hp y Hy; destruct (ci_reduce _ _ Hi Hp y Hy) as (t & ? & ?); exists t; split; [done|].
    apply reduceRel_assign; [by left|done].
Qed.

Lemma inv_assignReduce now y c h ts :
  coordInv c h -> phase c <> 0 -> 1 <= y <= capY c -> ~ reduceReported h y ->
  len ts = len (reduceTask c) ->
  (forall z, task ts z = if decide (z = y) then Some (mkReduceTask Doing now) else task (reduceTask c) z) ->
  let a := mkTaskAssignment TaskReduce "" 0 y (capX c) (capY c) in
  coordInv (mkCoordinator (phase c) (mapTask c) ts (capX c) (capY c)) (HAssign now a :: h).
Proof.
  intros Hi Hp Hy Hnr Hl Hts a; apply (inv_answer now a c _ h Hi); try done.
  - simpl; intros x Hx; destruct (ci_map _ _ Hi x Hx) as (t & ? & ?); exists t; split; [done|].
    apply mapRel_assign; [by left|done].
  - simpl; intros _ z Hz; rewrite Hts; case_decide as E.
    + eexists; split; [done|]. unfold reduceRel; rewrite (proj2 (assign_reported now a h) z), E; simpl.
      by rewrite Z.eqb_refl.
    + destruct (ci_reduce _ _ Hi Hp z Hz) as (t & ? & ?); exists t; split; [done|].
      apply reduceRel_assign; [by right; simpl|done].
Qed.

(** In the map phase no reduce task has been given out or reported. *)
Lemma phase0_reduce c h y : coordInv c h -> phase c = 0 -> ~ reduceReported h y /\ lastReduce h y = None.
Proof.
  intros [] Hp; split.
  - intros Hr; eapply Forall_forall in ci_events0; [|exact Hr].
    destruct ci_events0 as [(x & [= <- ->] & ?)|(? & _ & ? & _)]; [lia|done].
  - clear -ci_events0 Hp; induction h as [|[now a|tcp] h IH]; simpl; [done| |].
    + apply Forall_cons in ci_events0 as [[_ He] ?]. case_if; [|by apply IH].
      by destruct He as [? _].
    + apply Forall_cons in ci_events0 as [? ?]; by apply IH.
Qed.

Lemma inv_toReduce c h ts :
  coordInv c h -> phase c = 0 -> mapsReported (capX c) h -> len ts = len (reduceTask c) ->
  (forall y, 1 <= y <= capY c -> task ts y = Some (mkReduceTask Todo 0)) ->
  coordInv (mkCoordinator 1 (mapTask c) ts (capX c) (capY c)) h.
Proof.
  intros Hi Hp Hm Hl Hts; pose proof (phase0_reduce c h) as H0; destruct Hi; split; simpl; auto; try lia.
  - intros _ y Hy; exists (mkReduceTask Todo 0); split; [by apply Hts|]. by apply H0.
  - eapply Forall_impl; [done|]. intros [|]; simpl; naive_solver lia.
Qed.

Lemma inv_toDone c h :
  coordInv c h -> phase c = 1 -> reducesReported (capY c) h ->
  coordInv (mkCoordinator 2 (mapTask c) (reduceTask c) (capX c) (capY c)) h.
Proof.
  intros Hi Hp Hr; destruct Hi; split; simpl; auto; try lia.
  - intros _; apply ci_reduce0; lia.
  - intros _; apply ci_mapsDone0; lia.
  - eapply Forall_impl; [done|]. intros [|]; simpl; naive_solver lia.
Qed.
End invariant.

(** ** The handlers *)

Section handlers.
Implicit Types (c : Coordinator) (h : history).

(** [fetchMap] in the map phase: a task to give out, the reduce phase, or
    nothing to do. *)
Definition fetchMapResult now c h (x : Z) c' : Prop :=
  (1 <= x <= capX c /\ ~ mapReported h x /\ mayAssign (15 * Second) now (lastMap h x)
     /\ exists ts t, c' = mkCoordinator (phase c) ts (reduceTask c) (capX c) (capY c)
          /\ task ts x = Some t /\ (forall z, z <> x -> task ts z = task (mapTask c) z))
  \/ (x = 0 /\ phase c' = 1 /\ capX c' = capX c /\ capY c' = capY c
      /\ mapsReported (capX c) h /\ coordInv c' h)
  \/ (x = 0 /\ c' = c /\ ~ mapsReported (capX c) h
      /\ forall z, 1 <= z <= capX c -> busy (15 * Second) now (mapReported h z) (lastMap h z)).

Lemma map_done_iff c h x :
  coordInv c h -> 1 <= x <= capX c -> (doneAt m_status (mapTask c) x <-> mapReported h x).
Proof.
  intros Hi Hx; destruct (ci_map _ _ Hi x Hx) as (t & Ht & Hr); unfold doneAt; rewrite Ht; simpl.
  by apply (taskRel_done m_status m_assignedAt) in Hr.
Qed.

Lemma reduce_done_iff c h y :
  coordInv c h -> phase c <> 0 -> 1 <= y <= capY c ->
  (doneAt r_status (reduceTask c) y <-> reduceReported h y).
Proof.
  intros Hi Hp Hy; destruct (ci_reduce _ _ Hi Hp y Hy) as (t & Ht & Hr); unfold doneAt; rewrite Ht; simpl.
  by apply (taskRel_done r_status r_assignedAt) in Hr.
Qed.

Lemma len_seqZ1 n : 0 <= n -> len (seqZ 1 n) = n.
Proof. intros; unfold len; rewrite length_seqZ; lia. Qed.

Lemma undone_maps c h :
  coordInv c h -> (undone m_status (mapTask c) (seqZ 1 (capX c)) = 0%nat <-> mapsReported (capX c) h).
Proof.
  intros Hi; rewrite undone_0; unfold mapsReported.
  setoid_rewrite elem_seqZ1; split; intros H x Hx; apply (map_done_iff c h x Hi Hx); auto.
Qed.

Lemma undone_reduces c h :
  coordInv c h -> phase c <> 0 ->
  (undone r_status (reduceTask c) (seqZ 1 (capY c)) = 0%nat <-> reducesReported (capY c) h).
Proof.
  intros Hi Hp; rewrite undone_0; unfold reducesReported.
  setoid_rewrite elem_seqZ1; split; intros H x Hx; apply (reduce_done_iff c h x Hi Hp Hx); auto.
Qed.

Lemma fetchMap_spec now c h :
  coordInv c h -> phase c = 0 ->
  exists x c', fetchMap now c = Some (x, c') /\ fetchMapResult now c h x c'.
Proof.
  intros Hi Hp; unfold fetchMap; rewrite fetchMapLoop_scan.
  edestruct (scan_spec m_status m_assignedAt (fun t => mkMapTask (filename t) Todo (m_assignedAt t))
    (15 * Second) now (seqZ 1 (capX c)) (capX c) (mapTask c)) as (x & left & ts & -> & Hc).
  { intros x Hx%elem_seqZ1; split; [lia|]. destruct (ci_map _ _ Hi x Hx) as (t & -> & _); eauto. }
  cbn [mbind option_bind]; destruct Hc as [[Hx (Hin & (a & Ha & Hrd) & _ & Hoth & (b & b' & _ & Hb' & _))]
    |(-> & -> & Hno & ->)].
  - apply elem_seqZ1 in Hin; destruct (ci_map _ _ Hi x Hin) as (t & Ht & Hr); simplify_eq.
    destruct (taskRel_ready m_status m_assignedAt (15 * Second) now _ _ a Hr) as [Hok _].
    replace (x >? 0) with true by (symmetry; apply Z.gtb_lt; lia).
    eexists _, _; split; [done|]. left; split; [done|]. destruct (Hok Hrd).
    split_and!; [done|done|]. by exists ts, b'.
  - simpl; rewrite len_seqZ1 by apply (ci_capX _ _ Hi).
    pose proof (undone_maps c h Hi) as Hu; case_if.
    + destruct Hu as [Hu _]. specialize (Hu ltac:(lia)).
      unfold fillReduce; simpl.
      destruct (fillReduceLoop_spec (seqZ 1 (capY c)) (reduceTask c)) as (ts & -> & Hl & Ht).
      { intros y Hy%elem_seqZ1; rewrite (ci_lenY _ _ Hi); lia. }
      simpl; eexists _, _; split; [done|]. right; left; split_and!; try done.
      apply (inv_toReduce c h); [done..|]. intros y Hy; rewrite Ht, decide_True; [done|by apply elem_seqZ1].
    + eexists 0, c; split; [by destruct c|]. right; right; split_and!; try done.
      { intros Hm%Hu; lia. }
      intros z Hz; destruct (ci_map _ _ Hi z Hz) as (t & Ht & Hr).
      apply (taskRel_ready m_status m_assignedAt (15 * Second) now _ _ t Hr).
      eapply Hno; [by apply elem_seqZ1|done].
Qed.

Definition fetchReduceResult now c h (y : Z) c' : Prop :=
  (1 <= y <= capY c /\ ~ reduceReported h y /\ mayAssign (10 * Second) now (lastReduce h y)
     /\ exists ts t, c' = mkCoordinator (phase c) (mapTask c) ts (capX c) (capY c)
          /\ len ts = len (reduceTask c)
          /\ task ts y = Some t /\ (forall z, z <> y -> task ts z = task (reduceTask c) z))
  \/ (y = 0 /\ phase c' = 2 /\ capX c' = capX c /\ capY c' = capY c
      /\ reducesReported (capY c) h /\ coordInv c' h)
  \/ (y = 0 /\ c' = c /\ ~ reducesReported (capY c) h
      /\ forall z, 1 <= z <= capY c -> busy (10 * Second) now (reduceReported h z) (lastReduce h z)).

Lemma fetchReduce_spec now c h :
  coordInv c h -> phase c = 1 ->
  exists y c', fetchReduce now c = Some (y, c') /\ fetchReduceResult now c h y c'.
Proof.
  intros Hi Hp; unfold fetchReduce; rewrite fetchReduceLoop_scan.
  assert (Hp0 : phase c <> 0) by lia.
  edestruct (scan_spec r_status r_assignedAt (fun t => mkReduceTask Todo (r_assignedAt t))
    (10 * Second) now (seqZ 1 (capY c)) (capY c) (reduceTask c)) as (y & left & ts & -> & Hc).
  { intros y Hy%elem_seqZ1; split; [lia|]. destruct (ci_reduce _ _ Hi Hp0 y Hy) as (t & -> & _); eauto. }
  cbn [mbind option_bind]; destruct Hc as [[Hy (Hin & (a & Ha & Hrd) & Hl & Hoth & (b & b' & _ & Hb' & _))]
    |(-> & -> & Hno & ->)].
  - apply elem_seqZ1 in Hin; destruct (ci_reduce _ _ Hi Hp0 y Hin) as (t & Ht & Hr); simplify_eq.
    destruct (taskRel_ready r_status r_assignedAt (10 * Second) now _ _ a Hr) as [Hok _].
    replace (y >? 0) with true by (symmetry; apply Z.gtb_lt; lia).
    eexists _, _; split; [done|]. left; split; [done|]. destruct (Hok Hrd).
    split_and!; [done|done|]. by exists ts, b'.
  - simpl; rewrite len_seqZ1 by apply (ci_capY _ _ Hi).
    pose proof (undone_reduces c h Hi Hp0) as Hu; case_if.
    + destruct Hu as [Hu _]. specialize (Hu ltac:(lia)).
      eexists _, _; split; [done|]. right; left; split_and!; try done.
      by apply (inv_toDone c h).
    + eexists 0, c; split; [by destruct c|]. right; right; split_and!; try done.
      { intros Hm%Hu; lia. }
      intros z Hz; destruct (ci_reduce _ _ Hi Hp0 z Hz) as (t & Ht & Hr).
      apply (taskRel_ready r_status r_assignedAt (10 * Second) now _ _ t Hr).
      eapply Hno; [by apply elem_seqZ1|done].
Qed.

(** [RequestTask] after its first [if], and after its second. *)
Definition requestEnd now (x y : Z) c : option (Coordinator * TaskAssignment) :=
  if phase c =? 2 then Some (c, mkTaskAssignment TaskExit "" 0 0 (capX c) (capY c))
  else if x >? 0 then
    slot ← idx (mapTask c) x;
    tp ← slot;
    ts ← upd (mapTask c) x (Some (mkMapTask (filename tp) Doing now));
    Some (mkCoordinator (phase c) ts (reduceTask c) (capX c) (capY c),
          mkTaskAssignment TaskMap (filename tp) x 0 (capX c) (capY c))
  else if y >? 0 then
    slot ← idx (reduceTask c) y;
    tp ← slot;
    ts ← upd (reduceTask c) y (Some (mkReduceTask Doing now));
    Some (mkCoordinator (phase c) (mapTask c) ts (capX c) (capY c),
          mkTaskAssignment TaskReduce "" 0 y (capX c) (capY c))
  else Some (c, mkTaskAssignment TaskNone "" 0 0 (capX c) (capY c)).

Definition requestTail now (x : Z) c : option (Coordinator * TaskAssignment) :=
  '(y, c) ← (if phase c =? 1 then fetchReduce now c else Some (0, c)); requestEnd now x y c.

Lemma RequestTask_tail now c :
  RequestTask now c
  = ('(x, c) ← (if phase c =? 0 then fetchMap now c else Some (0, c)); requestTail now x c).
Proof. done. Qed.

(** The handler answers, as the contract says, and keeps the invariant. *)
Definition answers now c h (r : option (Coordinator * TaskAssignment)) : Prop :=
  exists c' a, r = Some (c', a) /\ answerOk (capX c) (capY c) now a h
    /\ capX c' = capX c /\ capY c' = capY c /\ coordInv c' (HAssign now a :: h)
    /\ (TaskType a = TaskExit -> phase c' = 2).

Lemma answers_exit now c h x y :
  coordInv c h -> phase c = 2 -> answers now c h (requestEnd now x y c).
Proof.
  intros Hi Hp; unfold requestEnd; rewrite Hp; simpl.
  eexists _, _; split; [done|]. split_and!; [|done|done|by apply inv_keep|done].
  right; right; left; split_and!; [done|apply (ci_mapsDone _ _ Hi); lia|by apply (ci_reducesDone _ _ Hi)].
Qed.

Lemma answers_map now c h x ts t :
  coordInv c h -> phase c = 0 -> 1 <= x <= capX c -> ~ mapReported h x ->
  mayAssign (15 * Second) now (lastMap h x) ->
  task ts x = Some t -> (forall z, z <> x -> task ts z = task (mapTask c) z) ->
  answers now c h (requestEnd now x 0 (mkCoordinator 0 ts (reduceTask c) (capX c) (capY c))).
Proof.
  intros Hi Hp Hx Hnr Hmay Ht Hoth; unfold requestEnd; simpl.
  replace (x >? 0) with true by (symmetry; apply Z.gtb_lt; lia).
  rewrite (proj1 (task_Some _ _ _) Ht); cbn [mbind option_bind].
  pose proof (upd_ok ts x (Some (mkMapTask (filename t) Doing now)) (task_range ts x t Ht)) as Hu.
  rewrite Hu; cbn [mbind option_bind].
  eexists _, _; split; [done|]. split_and!; [|done|done| |done].
  - left; split_and!; simpl; done || lia.
  - pose proof (inv_assignMap now (filename t) x c h (<[Z.to_nat x:=Some (mkMapTask (filename t) Doing now)]> ts)
      (filename t) Hi Hx Hnr) as H; rewrite Hp in H; apply H.
    intros z; rewrite (task_upd _ _ _ _ z Hu). case_decide; [done|by apply Hoth].
Qed.

Lemma answers_tail_1 now c h :
  coordInv c h -> phase c = 1 -> answers now c h (requestTail now 0 c).
Proof.
  intros Hi Hp; unfold requestTail; rewrite Hp; simpl.
  assert (Hm : mapsReported (capX c) h) by (apply (ci_mapsDone _ _ Hi); lia).
  destruct (fetchReduce_spec now c h Hi Hp) as (y & c' & -> & Hc); cbn [mbind option_bind].
  destruct Hc as [(Hy & Hnr & Hmay & ts & t & -> & Hl & Ht & Hoth)|[(-> & Hp' & HX & HY & Hr & Hi')|(-> & -> & Hno & Hb)]].
  - unfold requestEnd; rewrite Hp; simpl.
    replace (y >? 0) with true by (symmetry; apply Z.gtb_lt; lia).
    rewrite (proj1 (task_Some _ _ _) Ht); cbn [mbind option_bind].
    pose proof (upd_ok ts y (Some (mkReduceTask Doing now)) (task_range ts y t Ht)) as Hu.
    rewrite Hu; cbn [mbind option_bind].
    eexists _, _; split; [done|]. split_and!; [|done|done| |done].
    + right; left; split_and!; simpl; done || lia.
    + pose proof (inv_assignReduce now y c h (<[Z.to_nat y:=Some (mkReduceTask Doing now)]> ts)
        Hi ltac:(lia) Hy Hnr) as H; rewrite Hp in H; apply H.
      * by rewrite (upd_len _ _ _ _ Hu).
      * intros z; rewrite (task_upd _ _ _ _ z Hu). case_decide; [done|by apply Hoth].
  - destruct (answers_exit now c' h 0 0 Hi' Hp') as (c2 & a & E & Ha & ? & ? & ? & ?).
    rewrite HX, HY in *. exists c2, a; split_and!; congruence || done.
  - unfold requestEnd; rewrite Hp; simpl. eexists _, _; split; [done|].
    split_and!; [|done|done|by apply inv_keep|done].
    right; right; right; split; [done|right]; done.
Qed.

Lemma RequestTask_answers now c h : coordInv c h -> answers now c h (RequestTask now c).
Proof.
  intros Hi; rewrite RequestTask_tail.
  destruct (ci_phase _ _ Hi) as [Hp|[Hp|Hp]]; rewrite Hp; simpl.
  - destruct (fetchMap_spec now c h Hi Hp) as (x & c' & -> & Hc); cbn [mbind option_bind].
    destruct Hc as [(Hx & Hnr & Hmay & ts & t & -> & Ht & Hoth)|[(-> & Hp' & HX & HY & Hm & Hi')|(-> & -> & Hno & Hb)]].
    + unfold requestTail; rewrite Hp; cbn -[requestEnd]. by eapply answers_map.
    + destruct (answers_tail_1 now c' h Hi' Hp') as (c2 & a & E & Ha & ? & ? & ? & ?).
      rewrite HX, HY in *. exists c2, a; split_and!; congruence || done.
    + unfold requestTail, requestEnd; rewrite Hp; simpl. rewrite Hp; simpl.
      eexists _, _; split; [done|]. split_and!; [|done|done|by apply inv_keep|done].
      right; right; right; split; [done|left]; done.
  - by apply answers_tail_1.
  - unfold requestTail; rewrite Hp; cbn -[requestEnd]. by apply answers_exit.
Qed.

(** A report only adds itself to what is reported. *)
Lemma mapReported_report tcp h x :
  mapReported (HReport tcp :: h) x <-> tcp = mkTaskCompletion x 0 \/ mapReported h x.
Proof. unfold mapReported; rewrite elem_of_cons; naive_solver. Qed.

Lemma reduceReported_report tcp h y :
  reduceReported (HReport tcp :: h) y <-> tcp = mkTaskCompletion 0 y \/ reduceReported h y.
Proof. unfold reduceReported; rewrite elem_of_cons; naive_solver. Qed.

Lemma mapRel_report tcp h x t :
  tcp <> mkTaskCompletion x 0 \/ m_status t = Done -> mapRel h x t -> mapRel (HReport tcp :: h) x t.
Proof.
  unfold mapRel, taskRel; cbn [lastMap]; destruct (m_status t);
    rewrite mapReported_report; naive_solver.
Qed.

Lemma reduceRel_report tcp h y t :
  tcp <> mkTaskCompletion 0 y \/ r_status t = Done -> reduceRel h y t -> reduceRel (HReport tcp :: h) y t.
Proof.
  unfold reduceRel, taskRel; cbn [lastReduce]; destruct (r_status t);
    rewrite reduceReported_report; naive_solver.
Qed.

Lemma inv_report tcp c c' h :
  coordInv c h -> phase c' = phase c -> capX c' = capX c -> capY c' = capY c ->
  len (reduceTask c') = len (reduceTask c) ->
  (forall x, 1 <= x <= capX c -> exists t, task (mapTask c') x = Some t /\ mapRel (HReport tcp :: h) x t) ->
  (phase c <> 0 -> forall y, 1 <= y <= capY c ->
     exists t, task (reduceTask c') y = Some t /\ reduceRel (HReport tcp :: h) y t) ->
  evOk c (HReport tcp) ->
  coordInv c' (HReport tcp :: h).
Proof.
  intros [] Hp HX HY Hl Hm Hr He; split; rewrite ?Hp, ?HX, ?HY, ?Hl; try done.
  - intros Hp0 x Hx; apply mapReported_report; right; by apply ci_mapsDone0.
  - intros Hp2 y Hy; apply reduceReported_report; right; by apply ci_reducesDone0.
  - apply (Forall_impl (evOk c)); [by constructor|].
    intros [|]; simpl; by rewrite Hp, HX, HY.
Qed.

Lemma report_map c h x :
  coordInv c h -> 1 <= x <= capX c ->
  exists c', ResponseTask (mkTaskCompletion x 0) c = Some c'
    /\ phase c' = phase c /\ capX c' = capX c /\ capY c' = capY c
    /\ coordInv c' (HReport (mkTaskCompletion x 0) :: h).
Proof.
  intros Hi Hx; destruct (ci_map _ _ Hi x Hx) as (t & Ht & Hr).
  assert (He : evOk c (HReport (mkTaskCompletion x 0))) by (left; eauto).
  assert (Hred : phase c <> 0 -> forall y, 1 <= y <= capY c -> exists t,
    task (reduceTask c) y = Some t /\ reduceRel (HReport (mkTaskCompletion x 0) :: h) y t).
  { intros Hp y Hy; destruct (ci_reduce _ _ Hi Hp y Hy) as (u & ? & ?); exists u; split; [done|].
    apply reduceRel_report; [left; intros [=]; lia|done]. }
  unfold ResponseTask; simpl; replace (x =? 0) with false by (symmetry; apply Z.eqb_neq; lia); simpl.
  rewrite (proj1 (task_Some _ _ _) Ht); cbn [mbind option_bind].
  destruct (decide (m_status t = Done)) as [Hd|Hd].
  - exists c; split_and!; try done. apply (inv_report _ c c h); try done.
    intros z Hz; destruct (ci_map _ _ Hi z Hz) as (u & Hu & ?); exists u; split; [done|].
    apply mapRel_report; [|done]. destruct (decide (z = x)) as [->|]; [right; by simplify_eq|left; congruence].
  - pose proof (upd_ok (mapTask c) x (Some (mkMapTask (filename t) Done (m_assignedAt t)))
      (task_range _ _ _ Ht)) as Hu; rewrite Hu; cbn [mbind option_bind].
    eexists; split_and!; [done..|]. apply (inv_report _ c _ h); try done.
    intros z Hz; simpl; rewrite (task_upd _ _ _ _ z Hu); case_decide as E.
    + eexists; split; [done|]. subst z; unfold mapRel; simpl. apply mapReported_report; by left.
    + destruct (ci_map _ _ Hi z Hz) as (u & ? & ?); exists u; split; [done|].
      apply mapRel_report; [left; congruence|done].
Qed.

Lemma report_reduce c h y :
  coordInv c h -> phase c <> 0 -> 1 <= y <= capY c ->
  exists c', ResponseTask (mkTaskCompletion 0 y) c = Some c'
    /\ phase c' = phase c /\ capX c' = capX c /\ capY c' = capY c
    /\ coordInv c' (HReport (mkTaskCompletion 0 y) :: h).
Proof.
  intros Hi Hp Hy; destruct (ci_reduce _ _ Hi Hp y Hy) as (t & Ht & Hr).
  assert (He : evOk c (HReport (mkTaskCompletion 0 y))) by (right; eauto).
  assert (Hmap : forall x, 1 <= x <= capX c -> exists t,
    task (mapTask c) x = Some t /\ mapRel (HReport (mkTaskCompletion 0 y) :: h) x t).
  { intros x Hx; destruct (ci_map _ _ Hi x Hx) as (u & ? & ?); exists u; split; [done|].
    apply mapRel_report; [left; intros [=]; lia|done]. }
  unfold ResponseTask; simpl; replace (y =? 0) with false by (symmetry; apply Z.eqb_neq; lia); simpl.
  rewrite (proj1 (task_Some _ _ _) Ht); cbn [mbind option_bind].
  destruct (decide (r_status t = Done)) as [Hd|Hd].
  - exists c; split_and!; try done. apply (inv_report _ c c h); try done.
    intros _ z Hz; destruct (ci_reduce _ _ Hi Hp z Hz) as (u & Hu & ?); exists u; split; [done|].
    apply reduceRel_report; [|done]. destruct (decide (z = y)) as [->|]; [right; by simplify_eq|left; congruence].
  - pose proof (upd_ok (reduceTask c) y (Some (mkReduceTask Done (r_assignedAt t)))
      (task_range _ _ _ Ht)) as Hu; rewrite Hu; cbn [mbind option_bind].
    eexists; split_and!; [done..|]. apply (inv_report _ c _ h); try done.
    { simpl; by rewrite (upd_len _ _ _ _ Hu). }
    intros _ z Hz; simpl; rewrite (task_upd _ _ _ _ z Hu); case_decide as E.
    + eexists; split; [done|]. subst z; unfold reduceRel; simpl. apply reduceReported_report; by left.
    + destruct (ci_reduce _ _ Hi Hp z Hz) as (u & ? & ?); exists u; split; [done|].
      apply reduceRel_report; [left; congruence|done].
Qed.

Lemma ResponseTask_ok c h tcp :
  coordInv c h -> wasAssigned h tcp ->
  exists c', ResponseTask tcp c = Some c' /\ phase c' = phase c
    /\ capX c' = capX c /\ capY c' = capY c /\ coordInv c' (HReport tcp :: h).
Proof.
  intros Hi (now & a & Hin & Ht).
  pose proof (ci_events _ _ Hi) as He; eapply Forall_forall in He; [|exact Hin].
  destruct He as [Hm Hr]; destruct Ht as [[Ht ->]|[Ht ->]].
  - by apply report_map, Hm.
  - apply report_reduce; [done|by apply Hr..].
Qed.
End handlers.
