(* ===== verification/MrContract.v ===== *)
(** * MapReduce: the scheduling contract

    The theorems on the coordinator: what every history satisfies, that the
    handlers never panic, and that a job finishes as soon as one worker keeps
    working, however many others died. *)

From S2P Require Import Prelude MrCoordinator MrCoordinatorFacts.

#[local] Open Scope string_scope.
#[local] Open Scope Z_scope.

Section reachable.
Variables (fnames : list string) (nReduce : nat).

Definition start : Coordinator * history := (MakeCoordinator fnames nReduce, []).

Definition reachInv (s : Coordinator * history) : Prop :=
  coordInv s.1 s.2 /\ capX s.1 = len fnames /\ capY s.1 = Z.of_nat nReduce
  /\ contract (len fnames) (Z.of_nat nReduce) s.2.

Lemma start_inv : reachInv start.
Proof.
  split_and!; [|done..]. split; simpl; try done; try lia; try apply len_nonneg.
  - unfold len; rewrite length_replicate; lia.
  - intros x Hx; unfold task. rewrite idx_cons_S by lia.
    destruct (idx_in_range fnames (x - 1) ltac:(lia)) as [f Hf].
    exists (mkMapTask f Todo 0); split; [|by split; [apply not_elem_of_nil|]].
    unfold idx in *; case_if; [|done]. by rewrite list_lookup_fmap, Hf.
Qed.

Lemma step_inv s s' : reachInv s -> coordStep s s' -> reachInv s'.
Proof.
  intros (Hi & HX & HY & Hc) Hst; destruct Hst as [now c c' a h E|tcp c c' h Hw E]; simpl in *.
  - destruct (RequestTask_answers now c h Hi) as (c2 & a2 & E2 & Ha & EX & EY & Hi2 & _).
    rewrite E in E2; injection E2 as <- <-. split_and!; simpl; [done|congruence|congruence|].
    rewrite HX, HY in Ha; by split.
  - destruct (ResponseTask_ok c h tcp Hi Hw) as (c2 & E2 & _ & EX & EY & Hi2).
    rewrite E in E2; injection E2 as <-. split_and!; simpl; [done|congruence|congruence|done].
Qed.

Lemma reach_inv s : rtc coordStep start s -> reachInv s.
Proof.
  intros Hr; cut (forall s0, reachInv s0 -> rtc coordStep s0 s -> reachInv s); [eauto using start_inv|].
  clear Hr; intros s0 H0 Hr; induction Hr; eauto using step_inv.
Qed.
End reachable.

(** C19: Scheduling: in every execution, each map task that is handed out is an
    unreported one that nobody was given in the last 15 s; a reduce task is
    handed out only when all map tasks were reported, under the same rule with
    10 s; a worker is told to exit only when every task was reported; it is told
    to wait only when every task of the phase is reported or was handed out
    within its timeout, and some task is missing. The job counts as done only
    when every map and every reduce task was reported. *)
Theorem coordinator_contract (fnames : list string) (nReduce : nat) (c : Coordinator) (h : history) :
  rtc coordStep (start fnames nReduce) (c, h) ->
  contract (len fnames) (Z.of_nat nReduce) h
  /\ (isDone c = true -> mapsReported (len fnames) h /\ reducesReported (Z.of_nat nReduce) h).
Proof.
  intros (Hi & HX & HY & Hc)%reach_inv; simpl in *; split; [done|].
  unfold isDone; intros Hd%Z.eqb_eq; rewrite <- HX, <- HY.
  split; [apply (ci_mapsDone _ _ Hi); lia|by apply (ci_reducesDone _ _ Hi)].
Qed.

(** C21: The handlers never index outside the task slices nor follow a nil
    task: in every reachable state [RequestTask] answers, and [ResponseTask]
    accepts the report of any task that was handed out, also late or repeated
    ones and ones that arrive after the phase changed. *)
Theorem coordinator_never_panics (fnames : list string) (nReduce : nat) (c : Coordinator) (h : history) :
  rtc coordStep (start fnames nReduce) (c, h) ->
  (forall now, is_Some (RequestTask now c))
  /\ (forall tcp, wasAssigned h tcp -> is_Some (ResponseTask tcp c)).
Proof.
  intros (Hi & _)%reach_inv; simpl in *; split.
  - intros now; destruct (RequestTask_answers now c h Hi) as (c' & a & -> & _); eauto.
  - intros tcp Hw; destruct (ResponseTask_ok c h tcp Hi Hw) as (c' & -> & _); eauto.
Qed.

(** ** Progress *)

(** One round of a worker that completes what it is given: [eachCall] of
    [mr/worker.go] with successful calls. *)
Definition serveOne (now : Z) (s : Coordinator * history) : option (Coordinator * history) :=
  '(c, a) ← RequestTask now s.1;
  let h := HAssign now a :: s.2 in
  let report tcp := c ← ResponseTask tcp c; Some (c, HReport tcp :: h) in
  if TaskType a =? TaskMap then report (mkTaskCompletion (LowerX a) 0)
  else if TaskType a =? TaskReduce then report (mkTaskCompletion 0 (LowerY a))
  else Some (c, h).

Fixpoint serve (times : list Z) (s : Coordinator * history) : option (Coordinator * history) :=
  match times with
  | [] => Some s
  | now :: times => s ← serveOne now s; serve times s
  end.

Section progress.
Implicit Types (c : Coordinator) (h : history).

#[local] Instance hEvent_eq_dec : EqDecision hEvent.
Proof. unfold EqDecision, Decision; repeat decide equality. Defined.

Definition missing (report : Z -> hEvent) (xs : list Z) h : nat :=
  length (filter (fun x => report x ∉ h) xs).

(** The tasks nobody reported yet. *)
Definition remaining (X Y : Z) h : nat :=
  missing (fun x => HReport (mkTaskCompletion x 0)) (seqZ 1 X) h
  + missing (fun y => HReport (mkTaskCompletion 0 y)) (seqZ 1 Y) h.

(** Whoever holds an unreported task has had it for too long. *)
Definition stale (now : Z) h : Prop :=
  (forall x t, ~ mapReported h x -> lastMap h x = Some t -> now - t > 15 * Second)
  /\ (forall y t, ~ reduceReported h y -> lastReduce h y = Some t -> now - t > 10 * Second).

Lemma missing_cons report xs h e : (missing report xs (e :: h) <= missing report xs h)%nat.
Proof.
  unfold missing; induction xs as [|x xs IH]; [done|].
  rewrite !filter_cons; repeat case_decide; simpl; try lia; set_solver.
Qed.

Lemma missing_report (report : Z -> hEvent) xs h x :
  x ∈ xs -> report x ∉ h -> (missing report xs (report x :: h) < missing report xs h)%nat.
Proof.
  intros Hin Hn; induction xs as [|z xs IH]; [by apply elem_of_nil in Hin|].
  pose proof (missing_cons report xs h (report x)) as Hle; unfold missing in *.
  rewrite !filter_cons; apply elem_of_cons in Hin as [<-|Hin].
  - rewrite decide_False by set_solver. rewrite decide_True by done; simpl; lia.
  - specialize (IH Hin); repeat case_decide; simpl; try lia; set_solver.
Qed.

Lemma missing_length report xs h : (missing report xs h <= length xs)%nat.
Proof. apply length_filter. Qed.

Lemma stale_report now h tcp : stale now h -> stale now (HReport tcp :: h).
Proof.
  intros [Hm Hr]; split; intros z t Hn; simpl; intros Hl.
  - eapply Hm; [|done]. intros H; apply Hn, mapReported_report; by right.
  - eapply Hr; [|done]. intros H; apply Hn, reduceReported_report; by right.
Qed.

(** An answer that is reported at once leaves nothing fresh behind. *)
Lemma stale_answer now' now a h tcp :
  stale now' h ->
  (TaskType a = TaskMap -> tcp = mkTaskCompletion (LowerX a) 0) ->
  (TaskType a = TaskReduce -> tcp = mkTaskCompletion 0 (LowerY a)) ->
  stale now' (HReport tcp :: HAssign now a :: h).
Proof.
  intros [Hm Hr] E1 E2; split; intros z t Hn; simpl.
  - rewrite mapReported_report, (proj1 (assign_reported now a h)) in Hn.
    case_if; [|intros; eapply Hm; [|done]; tauto].
    destruct Hn; left; rewrite E1 by done; congruence.
  - rewrite reduceReported_report, (proj2 (assign_reported now a h)) in Hn.
    case_if; [|intros; eapply Hr; [|done]; tauto].
    destruct Hn; left; rewrite E2 by done; congruence.
Qed.

Lemma stale_other now' now a h :
  stale now' h -> TaskType a <> TaskMap -> TaskType a <> TaskReduce -> stale now' (HAssign now a :: h).
Proof.
  intros [Hm Hr] H1 H2; split; intros z t Hn; simpl; (case_if; [done|]).
  - rewrite (proj1 (assign_reported now a h)) in Hn; by apply Hm.
  - rewrite (proj2 (assign_reported now a h)) in Hn; by apply Hr.
Qed.

Lemma stale_not_busy now h x :
  stale now h -> busy (15 * Second) now (mapReported h x) (lastMap h x) -> mapReported h x.
Proof.
  intros [Hm _] [|(t & Hl & Ht)]; [done|].
  destruct (decide (HReport (mkTaskCompletion x 0) ∈ h)) as [|Hn]; [done|].
  specialize (Hm x t Hn Hl); lia.
Qed.

Lemma stale_not_busy_reduce now h y :
  stale now h -> busy (10 * Second) now (reduceReported h y) (lastReduce h y) -> reduceReported h y.
Proof.
  intros [_ Hm] [|(t & Hl & Ht)]; [done|].
  destruct (decide (HReport (mkTaskCompletion 0 y) ∈ h)) as [|Hn]; [done|].
  specialize (Hm y t Hn Hl); lia.
Qed.

(** What one round achieves when nobody else holds a fresh task. *)
Definition advances s s' : Prop :=
  coordInv s'.1 s'.2 /\ capX s'.1 = capX s.1 /\ capY s'.1 = capY s.1
  /\ (forall now, stale now s.2 -> stale now s'.2)
  /\ (phase s'.1 = 2 \/ (phase s.1 <> 2 /\
       (remaining (capX s.1) (capY s.1) s'.2 < remaining (capX s.1) (capY s.1) s.2)%nat)).

Lemma remaining_map X Y h now a x :
  1 <= x <= X -> ~ mapReported h x ->
  (remaining X Y (HReport (mkTaskCompletion x 0) :: HAssign now a :: h) < remaining X Y h)%nat.
Proof.
  intros Hx Hn; unfold remaining.
  pose proof (missing_report (fun x => HReport (mkTaskCompletion x 0)) (seqZ 1 X) (HAssign now a :: h) x
    (proj2 (elem_seqZ1 X x) Hx) (fun H => Hn (proj1 (proj1 (assign_reported now a h) x) H))) as H1.
  pose proof (missing_cons (fun x => HReport (mkTaskCompletion x 0)) (seqZ 1 X) h (HAssign now a)).
  pose proof (missing_cons (fun y => HReport (mkTaskCompletion 0 y)) (seqZ 1 Y) h (HAssign now a)).
  pose proof (missing_cons (fun y => HReport (mkTaskCompletion 0 y)) (seqZ 1 Y) (HAssign now a :: h)
    (HReport (mkTaskCompletion x 0))). simpl in *; lia.
Qed.

Lemma remaining_reduce X Y h now a y :
  1 <= y <= Y -> ~ reduceReported h y ->
  (remaining X Y (HReport (mkTaskCompletion 0 y) :: HAssign now a :: h) < remaining X Y h)%nat.
Proof.
  intros Hx Hn; unfold remaining.
  pose proof (missing_report (fun y => HReport (mkTaskCompletion 0 y)) (seqZ 1 Y) (HAssign now a :: h) y
    (proj2 (elem_seqZ1 Y y) Hx) (fun H => Hn (proj1 (proj2 (assign_reported now a h) y) H))) as H1.
  pose proof (missing_cons (fun y => HReport (mkTaskCompletion 0 y)) (seqZ 1 Y) h (HAssign now a)).
  pose proof (missing_cons (fun x => HReport (mkTaskCompletion x 0)) (seqZ 1 X) h (HAssign now a)).
  pose proof (missing_cons (fun x => HReport (mkTaskCompletion x 0)) (seqZ 1 X) (HAssign now a :: h)
    (HReport (mkTaskCompletion 0 y))). simpl in *; lia.
Qed.

Lemma serveOne_advances now c h :
  coordInv c h -> stale now h -> exists s', serveOne now (c, h) = Some s' /\ advances (c, h) s'.
Proof.
  intros Hi Hst; unfold serveOne; simpl.
  destruct (RequestTask_answers now c h Hi) as (c1 & a & -> & Ha & EX & EY & Hi1 & Hex).
  cbn [mbind option_bind]; set (h1 := HAssign now a :: h).
  destruct Ha as [(Ht & Hx & _ & Hn & _)|[(Ht & Hy & _ & _ & Hn & _)|[(Ht & _)|(Ht & Hw)]]]; rewrite Ht; simpl.
  - destruct (ResponseTask_ok c1 h1 (mkTaskCompletion (LowerX a) 0) Hi1) as (c2 & -> & Ep & EX2 & EY2 & Hi2).
    { exists now, a; split; [left|by left]. }
    eexists; split; [done|]; split_and!; simpl; [done|congruence|congruence| |].
    + intros now' Hs; apply stale_answer; [done|done|by rewrite Ht].
    + right; split; [intros Hp; apply Hn, (ci_mapsDone _ _ Hi); lia|by apply remaining_map].
  - destruct (ResponseTask_ok c1 h1 (mkTaskCompletion 0 (LowerY a)) Hi1) as (c2 & -> & Ep & EX2 & EY2 & Hi2).
    { exists now, a; split; [left|by right]. }
    eexists; split; [done|]; split_and!; simpl; [done|congruence|congruence| |].
    + intros now' Hs; apply stale_answer; [done|by rewrite Ht|done].
    + right; split; [intros Hp; by apply Hn, (ci_reducesDone _ _ Hi)|by apply remaining_reduce].
  - eexists; split; [done|]; split_and!; simpl; [done|done|done| |left; by apply Hex].
    intros now' Hs; apply stale_other; [done|by rewrite Ht..].
  - exfalso; destruct Hw as [[Hno Hb]|(_ & Hno & Hb)]; apply Hno.
    + intros x Hx; by apply (stale_not_busy now), Hb.
    + intros y Hy; by apply (stale_not_busy_reduce now), Hb.
Qed.

Lemma serve_finishes times c h :
  coordInv c h -> (forall now, now ∈ times -> stale now h) ->
  phase c = 2 \/ (remaining (capX c) (capY c) h < length times)%nat ->
  exists s', serve times (c, h) = Some s' /\ isDone s'.1 = true.
Proof.
  revert c h; induction times as [|now times IH]; intros c h Hi Hst Hm; cbn [serve].
  { destruct Hm as [Hp|Hm]; [|simpl in Hm; lia]. eexists; split; [done|]. by apply Z.eqb_eq. }
  destruct (serveOne_advances now c h Hi) as ([c' h'] & -> & Hi' & EX & EY & Hs' & Hd); [apply Hst; left|].
  cbn [mbind option_bind]; apply IH; simpl in *; [done|..].
  - intros now' Hin; apply Hs', Hst; by right.
  - rewrite EX, EY; destruct Hd as [|[Hp Hlt]]; [by left|right]. destruct Hm; [done|lia].
Qed.

Lemma lastMap_elem h x t : lastMap h x = Some t -> exists a, HAssign t a ∈ h.
Proof.
  induction h as [|[now a|tcp] h IH]; simpl; [done| |intros [a ?]%IH; exists a; by right].
  case_if; [intros [= ->]; exists a; left|intros [b ?]%IH; exists b; by right].
Qed.

Lemma lastReduce_elem h x t : lastReduce h x = Some t -> exists a, HAssign t a ∈ h.
Proof.
  induction h as [|[now a|tcp] h IH]; simpl; [done| |intros [a ?]%IH; exists a; by right].
  case_if; [intros [= ->]; exists a; left|intros [b ?]%IH; exists b; by right].
Qed.

Lemma remaining_le X Y h : (remaining X Y h <= Z.to_nat X + Z.to_nat Y)%nat.
Proof.
  unfold remaining.
  pose proof (missing_length (fun x => HReport (mkTaskCompletion x 0)) (seqZ 1 X) h).
  pose proof (missing_length (fun y => HReport (mkTaskCompletion 0 y)) (seqZ 1 Y) h).
  rewrite length_seqZ in *; lia.
Qed.
End progress.

(** C20: Progress: after any execution, even one in which every other worker
    died with tasks in its hands, one worker that completes what it is given
    finishes the job: if it starts more than 15 s after the last assignment,
    it needs at most one request per task and one more, and then [Done] is
    true. *)
Theorem coordinator_finishes (fnames : list string) (nReduce : nat) (c : Coordinator) (h : history)
    (times : list Z) :
  rtc coordStep (start fnames nReduce) (c, h) ->
  (forall now t a, now ∈ times -> HAssign t a ∈ h -> now - t > 15 * Second) ->
  (length fnames + nReduce < length times)%nat ->
  exists s', serve times (c, h) = Some s' /\ isDone s'.1 = true.
Proof.
  intros (Hi & HX & HY & _)%reach_inv Hst Hlen; simpl in *; apply serve_finishes; [done| |right].
  - intros now Hin; split; intros z t _ Hl.
    + apply lastMap_elem in Hl as [a Ha]; by eapply Hst.
    + apply lastReduce_elem in Hl as [a Ha]. specialize (Hst now t a Hin Ha); unfold Second in *; lia.
  - pose proof (remaining_le (capX c) (capY c) h); rewrite HX, HY in *; unfold len in *; lia.
Qed.

(** Two files, one reduce task: a worker takes the first map task and dies. *)
Definition demoHist : history := [HAssign 0 (mkTaskAssignment TaskMap "a" 1 0 2 1)].
Definition demoCoord : Coordinator :=
  mkCoordinator 0 [None; Some (mkMapTask "a" Doing 0); Some (mkMapTask "b" Todo 0)] [None; None] 2 1.

Lemma demo_reachable : rtc coordStep (start ["a"; "b"] 1) (demoCoord, demoHist).
Proof. eapply rtc_l; [by apply cs_request|apply rtc_refl]. Defined.

Lemma coordinator_contract_witness :
  contract 2 1 demoHist /\ (isDone demoCoord = true -> mapsReported 2 demoHist /\ reducesReported 1 demoHist).
Proof. exact (coordinator_contract ["a"; "b"] 1 demoCoord demoHist demo_reachable). Defined.

Lemma coordinator_never_panics_witness :
  (forall now, is_Some (RequestTask now demoCoord))
  /\ (forall tcp, wasAssigned demoHist tcp -> is_Some (ResponseTask tcp demoCoord)).
Proof. exact (coordinator_never_panics ["a"; "b"] 1 demoCoord demoHist demo_reachable). Defined.

Lemma coordinator_finishes_witness :
  exists s', serve [16 * Second; 17 * Second; 18 * Second; 19 * Second] (demoCoord, demoHist) = Some s'
    /\ isDone s'.1 = true.
Proof.
  apply (coordinator_finishes ["a"; "b"] 1 demoCoord demoHist); [apply demo_reachable| |simpl; lia].
  intros now t a Hn Ha; apply list_elem_of_singleton in Ha; injection Ha as -> _.
  unfold Second in *; repeat (apply elem_of_cons in Hn as [->|Hn]; [lia|]). by apply elem_of_nil in Hn.
Defined.
