(* ===== verification/MrWorker.v ===== *)
(** * MapReduce: the worker and the sequential reference

    Models [mr/worker.go] and [main/mrsequential.go].

    The file system is a map from names to contents. A content is a sequence of
    chunks: plain text, or an object written by the JSON encoder. The decoder
    reads back the objects one by one and fails on anything else. Whether the
    system calls succeed comes from the environment ([osEnv]). Go leaves the
    iteration order of a map open, and [sort.Sort] the order of equal keys: both
    are arguments. *)

From S2P Require Import Prelude GoFmt MrCoordinator.
From Stdlib Require Import Ascii.

#[local] Open Scope string_scope.
#[local] Open Scope Z_scope.

Record KeyValue : Type := mkKeyValue { Key : string; Value : string }.

#[export] Instance KeyValue_eq_dec : EqDecision KeyValue.
Proof. solve_decision. Defined.

(** ** Choosing the reduce task *)

(** [hash/fnv] New32a: 32-bit FNV-1a. *)
Fixpoint fnv32a (h : Z) (s : string) : Z :=
  match s with
  | "" => h
  | String c s => fnv32a ((Z.lxor h (Z.of_N (N_of_ascii c)) * 16777619) mod 2 ^ 32) s
  end.

Definition ihash (key : string) : Z := Z.land (fnv32a 2166136261 key) 0x7fffffff.

(** [None] is the division by zero. *)
Definition yOf (key : string) (Y : Z) : option Z :=
  if Y =? 0 then None else Some (Z.rem (ihash key) Y + 1).

(** ** Files *)

Inductive chunk : Type := Txt (s : string) | Obj (kv : KeyValue).
Notation fileSystem := (gmap string (list chunk)).

Record osEnv : Type := mkOsEnv {
  can_create : string -> bool; can_write : string -> bool; can_rename : string -> bool }.

Section worker.
Context (jsonText : KeyValue -> string).      (* how an object looks as text *)
Context (os : osEnv).
Context (mapf : string -> string -> list KeyValue) (reducef : string -> list string -> string).
Context (order : nat -> gmap string (list string) -> list (string * list string)).
Implicit Types (fs : fileSystem).

Definition contents (c : list chunk) : string :=
  foldr (fun k s => match k with Txt t => t | Obj kv => jsonText kv end +:+ s) "" c.

Definition interName (x y : Z) : string := "mr-" +:+ pretty x +:+ "-" +:+ pretty y.
Definition outName (y : Z) : string := "mr-out-" +:+ pretty (y - 1).

(** The result of a function that returns an error: the file system and
    whether the error is nil. *)
Fixpoint writeChunks (name : string) (cs : list chunk) fs : fileSystem * bool :=
  match cs with
  | [] => (fs, true)
  | c :: cs =>
      if can_write os name
      then writeChunks name cs (<[name := (default [] (fs !! name) ++ [c])%list]> fs)
      else (fs, false)
  end.

Definition rename (old new : string) fs : fileSystem * bool :=
  match fs !! old with
  | Some c => if can_rename os old then (<[new := c]> (delete old fs), true) else (fs, false)
  | None => (fs, false)
  end.

Definition intermediateFileWriter (name : string) (kvs : list KeyValue) fs : fileSystem * bool :=
  let tmp := name +:+ ".tmp" in
  if can_create os tmp then
    match writeChunks tmp (Obj <$> kvs) (<[tmp := []]> fs) with
    | (fs, true) => rename tmp name fs
    | (fs, false) => (fs, false)
    end
  else (fs, false).

Fixpoint divide (kvs : list KeyValue) (Y : Z) (mp : gmap Z (list KeyValue)) : option (gmap Z (list KeyValue)) :=
  match kvs with
  | [] => Some mp
  | kv :: kvs =>
      y ← yOf (Key kv) Y;
      divide kvs Y (<[y := (default [] (mp !! y) ++ [kv])%list]> mp)
  end.

Fixpoint writeBuckets (x : Z) (ys : list Z) (mp : gmap Z (list KeyValue)) fs : fileSystem * bool :=
  match ys with
  | [] => (fs, true)
  | y :: ys =>
      match intermediateFileWriter (interName x y) (default [] (mp !! y)) fs with
      | (fs, true) => writeBuckets x ys mp fs
      | (fs, false) => (fs, false)
      end
  end.

Definition mapper (name : string) (x Y : Z) fs : option (fileSystem * bool) :=
  match fs !! name with
  | None => Some (fs, false)
  | Some c =>
      let kvs := mapf name (contents c) in
      mp ← divide kvs Y ∅;
      Some (writeBuckets x (seqZ 1 Y) mp fs)
  end.

(** The decoding loop of one intermediate file; [None] is a decoding error. *)
Fixpoint decodeFile (cs : list chunk) (mp : gmap string (list string)) : option (gmap string (list string)) :=
  match cs with
  | [] => Some mp
  | Obj kv :: cs => decodeFile cs (<[Key kv := (default [] (mp !! Key kv) ++ [Value kv])%list]> mp)
  | Txt _ :: _ => None
  end.

Fixpoint readBuckets (xs : list Z) (y : Z) (mp : gmap string (list string)) fs
    : option (gmap string (list string)) :=
  match xs with
  | [] => Some mp
  | x :: xs =>
      cs ← fs !! interName x y;
      mp ← decodeFile cs mp;
      readBuckets xs y mp fs
  end.

(** ["%v %v\n"] *)
Definition outLine (key output : string) : chunk :=
  Txt (key +:+ " " +:+ output +:+ String "010"%char "").

(** [seed] stands for what decides the order of [range mp] in this run. *)
Definition reducer (seed : nat) (y X : Z) fs : fileSystem * bool :=
  match readBuckets (seqZ 1 X) y ∅ fs with
  | None => (fs, false)
  | Some mp =>
      if can_create os (outName y) then
        writeChunks (outName y)
          ((fun '(key, vals) => outLine key (reducef key vals)) <$> order seed mp)
          (<[outName y := []]> fs)
      else (fs, false)
  end.

(** [eachCall]: [request] is the answer to [RequestTask], [None] if the call
    failed. The result: the files, the report to send if any, and the pair
    (exit, wait). *)
Definition eachCall (seed : nat) (request : option TaskAssignment) fs
    : option (fileSystem * option TaskCompletion * (bool * bool)) :=
  match request with
  | None => Some (fs, None, (false, true))
  | Some tap =>
      if TaskType tap =? TaskExit then Some (fs, None, (true, false))
      else if TaskType tap =? TaskNone then Some (fs, None, (false, true))
      else if TaskType tap =? TaskMap then
        '(fs, ok) ← mapper (Filename tap) (LowerX tap) (Y tap) fs;
        Some (fs, if ok : bool then Some (mkTaskCompletion (LowerX tap) 0) else None, (false, false))
      else if TaskType tap =? TaskReduce then
        let '(fs, ok) := reducer seed (LowerY tap) (X tap) fs in
        Some (fs, if ok : bool then Some (mkTaskCompletion 0 (LowerY tap)) else None, (false, false))
      else Some (fs, None, (false, false))
  end.

(** ** The sequential program *)

(** [ByKey.Less] *)
Definition Less (a b : KeyValue) : bool := String.ltb (Key a) (Key b).

(** Reading and mapping the inputs; [None] is [log.Fatalf]. *)
Fixpoint readInputs (fnames : list string) fs : option (list KeyValue) :=
  match fnames with
  | [] => Some []
  | f :: fnames =>
      c ← fs !! f;
      rest ← readInputs fnames fs;
      Some (mapf f (contents c) ++ rest)%list
  end.

(** The inner loop: the values of the entries that follow with the same key,
    and the rest. *)
Fixpoint run (key : string) (l : list KeyValue) : list string * list KeyValue :=
  match l with
  | kv :: l' =>
      if String.eqb (Key kv) key then let '(vs, rest) := run key l' in (Value kv :: vs, rest)
      else ([], l)
  | [] => ([], [])
  end.

Fixpoint groups (fuel : nat) (l : list KeyValue) : list (string * list string) :=
  match fuel, l with
  | S fuel, kv :: l =>
      let '(vs, rest) := run (Key kv) l in (Key kv, Value kv :: vs) :: groups fuel rest
  | _, _ => []
  end.

Definition mrsequential (sort : list KeyValue -> list KeyValue) (fnames : list string) fs
    : option fileSystem :=
  intermediate ← readInputs fnames fs;
  let intermediate := sort intermediate in
  Some (<["mr-out-0" :=
           (fun '(key, vals) => outLine key (reducef key vals)) <$> groups (length intermediate) intermediate]> fs).
End worker.
