(* ===== verification/MrFiles.v ===== *)
(** * MapReduce: the files the workers write

    Which file a worker writes with which contents, and that the grouping of
    the reducers, taken together, is the grouping of the sequential program. *)

From S2P Require Import Prelude GoFmt MrCoordinator MrCoordinatorFacts MrWorker.
From Stdlib Require Import Ascii.

#[local] Open Scope string_scope.
#[local] Open Scope Z_scope.

(** ** Buckets *)

Definition bucketOf (Y : Z) (key : string) : Z := Z.rem (ihash key) Y + 1.

Lemma ihash_range key : 0 <= ihash key < 2 ^ 31.
Proof.
  unfold ihash; change 0x7fffffff with (Z.ones 31); rewrite Z.land_ones by lia.
  by apply Z.mod_pos_bound.
Qed.

Lemma bucketOf_range Y key : 0 < Y -> 1 <= bucketOf Y key <= Y.
Proof.
  intros; unfold bucketOf; pose proof (ihash_range key).
  rewrite Z.rem_mod_nonneg by lia. pose proof (Z.mod_pos_bound (ihash key) Y); lia.
Qed.

Lemma yOf_bucketOf Y key : 0 < Y -> yOf key Y = Some (bucketOf Y key).
Proof. intros; unfold yOf; case_if; [lia|done]. Qed.

(** The part of [kvs] that goes to reduce task [y]. *)
Definition bucket (Y y : Z) (kvs : list KeyValue) : list KeyValue :=
  filter (fun kv => bucketOf Y (Key kv) = y) kvs.

Lemma divide_spec kvs Y mp :
  0 < Y -> exists mp', divide kvs Y mp = Some mp'
    /\ forall y, default [] (mp' !! y) = (default [] (mp !! y) ++ bucket Y y kvs)%list.
Proof.
  intros HY; revert mp; induction kvs as [|kv kvs IH]; intros mp; simpl.
  { exists mp; split; [done|]. intros; by rewrite app_nil_r. }
  rewrite yOf_bucketOf by done; simpl.
  destruct (IH (<[bucketOf Y (Key kv):=(default [] (mp !! bucketOf Y (Key kv)) ++ [kv])%list]> mp))
    as (mp' & -> & Hmp).
  exists mp'; split; [done|]. intros y; rewrite Hmp; unfold bucket; rewrite filter_cons.
  destruct (decide (bucketOf Y (Key kv) = y)) as [->|].
  - rewrite lookup_insert_eq; simpl; by rewrite <- (assoc app).
  - by rewrite lookup_insert_ne.
Qed.

(** The buckets [divide] makes are those of the existing reduce tasks. *)
Lemma divide_keys kvs Y mp mp' :
  0 < Y -> divide kvs Y mp = Some mp' -> (forall y, is_Some (mp !! y) -> 1 <= y <= Y) -> forall y, is_Some (mp' !! y) -> 1 <= y <= Y.
Proof.
  intros HY; revert mp; induction kvs as [|kv kvs IH]; intros mp; simpl; [by intros [= <-]|].
  rewrite yOf_bucketOf by done; cbn [mbind option_bind]. intros Hd Hmp; apply (IH _ Hd). intros y.
  destruct (decide (bucketOf Y (Key kv) = y)) as [<-|Hne]; [intros _; by apply bucketOf_range|].
  rewrite lookup_insert_ne by done. apply Hmp.
Qed.

(** ** Names *)

Section names.
Lemma interName_noChar c x y :
  (forall n, pretty_N_char n <> c) -> noChar c "mr-" -> 0 <= x -> 0 <= y -> noChar c (interName x y).
Proof.
  intros Hd Hmr Hx Hy; unfold interName; repeat apply noChar_app; try by apply pretty_nonneg_noChar.
  - done.
  - simpl in *; naive_solver.
Qed.

Lemma interName_inj x y x' y' :
  0 <= x -> 0 <= y -> 0 <= x' -> 0 <= y' -> interName x y = interName x' y' -> x = x' /\ y = y'.
Proof.
  intros ???? H; unfold interName in H; simpl in H; simplify_eq/=.
  apply noChar_split in H as [Hx Hy]; [|by apply pretty_nonneg_noChar; [by apply digit_neq|]..].
  by split; apply (inj pretty).
Qed.

Lemma outName_inj y y' : outName y = outName y' -> y = y'.
Proof. intros H; unfold outName in H; simpl in H; simplify_eq/=. lia. Qed.

Lemma noChar_sep (c : ascii) s t : ~ noChar c (s +:+ String c t).
Proof. induction s; simpl; naive_solver. Qed.

Lemma interName_tmp x y x' y' :
  0 <= x -> 0 <= y -> interName x y <> interName x' y' +:+ ".tmp".
Proof.
  intros Hx Hy E. pose proof (interName_noChar "." x y) as Hn; rewrite E in Hn.
  eapply (noChar_sep "."), Hn; [by apply digit_neq|by simpl; naive_solver|done|done].
Qed.

Lemma outName_hasO y : ~ noChar "o" (outName y).
Proof. simpl; naive_solver. Qed.

Lemma interName_out x y y' : 0 <= x -> 0 <= y -> interName x y <> outName y'.
Proof.
  intros Hx Hy E; apply (outName_hasO y'); rewrite <- E.
  apply interName_noChar; [by apply digit_neq|by simpl; naive_solver|done|done].
Qed.

Lemma interTmp_out x y y' : 0 <= x -> 0 <= y -> interName x y +:+ ".tmp" <> outName y'.
Proof.
  intros Hx Hy E; apply (outName_hasO y'); rewrite <- E. apply noChar_app; [|by simpl; naive_solver].
  apply interName_noChar; [by apply digit_neq|by simpl; naive_solver|done|done].
Qed.

(** Inputs do not have the names of the worker's own files. *)
Definition isInput (f : string) : Prop := String.prefix "mr-" f = false.

Lemma isInput_neq f s : isInput f -> f <> "mr-" +:+ s.
Proof. unfold isInput; intros H ->. assert (E : String.prefix "mr-" ("mr-" +:+ s) = true) by (by destruct s). congruence. Qed.

Lemma isInput_inter f x y : isInput f -> f <> interName x y /\ f <> interName x y +:+ ".tmp".
Proof. intros H; split; by apply isInput_neq. Qed.

Lemma isInput_out f y : isInput f -> f <> outName y.
Proof. intros H; by apply (isInput_neq f ("out-" +:+ pretty (y - 1))). Qed.
End names.

(** ** Grouping by key *)

Definition valuesOf (kvs : list KeyValue) (k : string) : list string :=
  Value <$> filter (fun kv => Key kv = k) kvs.
Definition keysOf (kvs : list KeyValue) : list string := remove_dups (Key <$> kvs).

(** The groups of [kvs], one per key. *)
Definition grouping (kvs : list KeyValue) : list (string * list string) :=
  (fun k => (k, valuesOf kvs k)) <$> keysOf kvs.

Section grouping.
Implicit Types (kvs : list KeyValue) (mp : gmap string (list string)).

Lemma elem_keysOf kvs k : k ∈ keysOf kvs <-> k ∈ Key <$> kvs.
Proof. apply elem_of_remove_dups. Qed.

Lemma valuesOf_app k1 k2 k : valuesOf (k1 ++ k2)%list k = (valuesOf k1 k ++ valuesOf k2 k)%list.
Proof. unfold valuesOf; by rewrite filter_app, fmap_app. Qed.

Lemma valuesOf_nil kvs k : k ∉ Key <$> kvs -> valuesOf kvs k = [].
Proof.
  intros Hn; unfold valuesOf; rewrite filter_none; [done|].
  intros kv Hin E; apply Hn, list_elem_of_fmap; eauto.
Qed.

(** [mp] holds the groups of [kvs] and nothing else. *)
Definition isGrouping kvs mp : Prop :=
  forall k, mp !! k = if decide (k ∈ Key <$> kvs) then Some (valuesOf kvs k) else None.

Lemma decodeFile_grouping kvs more mp :
  isGrouping kvs mp ->
  exists mp', decodeFile (Obj <$> more) mp = Some mp' /\ isGrouping (kvs ++ more)%list mp'.
Proof.
  revert kvs mp; induction more as [|kv more IH]; intros kvs mp Hg; simpl.
  { exists mp; split; [done|]. by rewrite app_nil_r. }
  replace (kvs ++ kv :: more)%list with ((kvs ++ [kv]) ++ more)%list by by rewrite <- (assoc app).
  apply IH; intros k; rewrite fmap_app, valuesOf_app; simpl.
  unfold valuesOf at 2; rewrite filter_cons, filter_nil.
  assert (Hd : default [] (mp !! Key kv) = valuesOf kvs (Key kv)).
  { rewrite Hg; case_decide; [done|]. by rewrite valuesOf_nil. }
  destruct (decide (Key kv = k)) as [<-|Hne].
  - rewrite lookup_insert_eq, decide_True by set_solver. by rewrite Hd.
  - rewrite lookup_insert_ne, Hg by done; simpl; rewrite app_nil_r.
    repeat case_decide; set_solver.
Qed.

Lemma elem_grouping kvs k vs :
  (k, vs) ∈ grouping kvs <-> k ∈ Key <$> kvs /\ vs = valuesOf kvs k.
Proof.
  unfold grouping; rewrite list_elem_of_fmap; setoid_rewrite elem_keysOf; naive_solver.
Qed.

Lemma NoDup_grouping kvs : NoDup (grouping kvs).
Proof. apply NoDup_fmap; [intros ?? [=]; done|apply NoDup_remove_dups]. Qed.

Lemma isGrouping_list kvs mp : isGrouping kvs mp -> map_to_list mp ≡ₚ grouping kvs.
Proof.
  intros Hg; apply NoDup_Permutation; [apply NoDup_map_to_list|apply NoDup_grouping|].
  - intros [k vs]; rewrite elem_of_map_to_list, Hg.
    rewrite elem_grouping. case_decide; naive_solver.
Qed.

(** *** The run-length grouping of a sorted list *)

Definition byKey (a b : KeyValue) : Prop := Less b a = false.

Lemma byKey_antisym a b : byKey a b -> byKey b a -> Key a = Key b.
Proof.
  unfold byKey, Less, String.ltb. rewrite (String.compare_antisym (Key a)).
  destruct (String.compare (Key b) (Key a)) eqn:E; simpl; try done.
  intros _ _; symmetry; by apply String.compare_eq_iff.
Qed.

Lemma byKey_key a b c : Key a = Key b -> byKey a c -> byKey b c.
Proof. unfold byKey, Less; by intros ->. Qed.

Lemma run_sorted kv l :
  StronglySorted byKey (kv :: l) ->
  run (Key kv) l = (valuesOf l (Key kv), filter (fun b => Key b <> Key kv) l).
Proof.
  induction l as [|b l IH]; intros Hs; [done|].
  inversion Hs as [|? ? Hs' Hall]; subst; inversion Hs' as [|? ? Hs'' Hb]; subst.
  apply Forall_cons in Hall as [Hab Hal].
  unfold valuesOf; rewrite !filter_cons; cbn [run].
  destruct (String.eqb_spec (Key b) (Key kv)) as [E|E].
  - rewrite IH by (by constructor). rewrite (decide_True (P := Key b = Key kv)) by done.
    by rewrite (decide_False (P := Key b <> Key kv)) by tauto.
  - rewrite (decide_False (P := Key b = Key kv)), (decide_True (P := Key b <> Key kv)) by done.
    assert (Hno : forall c, c ∈ l -> Key c <> Key kv).
    { intros c Hc Ec; apply E. eapply Forall_forall in Hb; [|exact Hc].
      symmetry; apply byKey_antisym; [done|]. unfold byKey, Less in *; by rewrite <- Ec. }
    rewrite filter_none by done. by rewrite filter_all by done.
Qed.

Lemma grouping_cons kv l :
  grouping (kv :: l)
  ≡ₚ (Key kv, Value kv :: valuesOf l (Key kv)) :: grouping (filter (fun b => Key b <> Key kv) l).
Proof.
  set (l' := filter (fun b => Key b <> Key kv) l).
  assert (Hk : forall k, k ∈ Key <$> l' <-> k <> Key kv /\ k ∈ Key <$> l).
  { intros k; unfold l'; rewrite !list_elem_of_fmap; setoid_rewrite list_elem_of_filter; naive_solver. }
  assert (Hv : forall k, k <> Key kv -> valuesOf (kv :: l) k = valuesOf l' k).
  { intros k Hne; unfold valuesOf, l'; rewrite filter_cons, decide_False by congruence.
    f_equal; rewrite list_filter_filter; apply list_filter_iff; intros b; naive_solver. }
  assert (Hself : valuesOf (kv :: l) (Key kv) = Value kv :: valuesOf l (Key kv)).
  { unfold valuesOf; by rewrite filter_cons, decide_True. }
  apply NoDup_Permutation; [apply NoDup_grouping|constructor; [|apply NoDup_grouping]|].
  - intros [Hin _]%elem_grouping; apply Hk in Hin; naive_solver.
  - intros [k vs]; rewrite elem_of_cons, !elem_grouping, Hk, fmap_cons, elem_of_cons.
    destruct (decide (k = Key kv)) as [->|Hne]; [rewrite Hself|rewrite Hv by done]; naive_solver.
Qed.

Lemma groups_grouping fuel l :
  StronglySorted byKey l -> (length l <= fuel)%nat -> groups fuel l ≡ₚ grouping l.
Proof.
  revert l; induction fuel as [|fuel IH]; intros [|kv l] Hs Hf; simpl in *; try done; [lia|].
  rewrite run_sorted, grouping_cons by done. apply Permutation_cons; [done|].
  apply IH; [apply StronglySorted_filter; by inversion Hs|].
  pose proof (length_filter (fun b => Key b <> Key kv) l); lia.
Qed.

Lemma valuesOf_perm k1 k2 k : k1 ≡ₚ k2 -> valuesOf k1 k ≡ₚ valuesOf k2 k.
Proof. intros H; unfold valuesOf; by rewrite H. Qed.
End grouping.

(** ** The reduce tasks partition the groups *)

Section partition.
Context {A : Type} (f : A -> Z).

Lemma filter_partition (ys : list Z) (l : list A) :
  NoDup ys -> (forall a, a ∈ l -> f a ∈ ys) ->
  l ≡ₚ concat ((fun y => filter (fun a => f a = y) l) <$> ys).
Proof.
  intros Hn; revert l; induction Hn as [|y ys Hy Hn IH]; intros l Hf; simpl.
  { destruct l as [|a l]; [done|]. exfalso; eapply not_elem_of_nil, Hf; left. }
  rewrite <- (filter_app_complement (fun a => f a = y) l) at 1; apply Permutation_app_head.
  rewrite (IH (filter (fun a => f a <> y) l)).
  - apply eq_subrelation; [apply _|]. f_equal; apply list_fmap_ext; intros i y' Hy'.
    assert (y' <> y) by (intros ->; apply Hy; by eapply list_elem_of_lookup_2).
    rewrite list_filter_filter; apply list_filter_iff; intros a; naive_solver.
  - intros a [Hne Ha]%list_elem_of_filter; apply Hf in Ha; set_solver.
Qed.
End partition.

Lemma grouping_bucket Y y kvs :
  grouping (bucket Y y kvs) ≡ₚ filter (fun g => bucketOf Y g.1 = y) (grouping kvs).
Proof.
  apply NoDup_Permutation; [apply NoDup_grouping|apply NoDup_filter, NoDup_grouping|].
  intros [k vs]; rewrite list_elem_of_filter, !elem_grouping; simpl.
  assert (Hk : k ∈ Key <$> bucket Y y kvs <-> bucketOf Y k = y /\ k ∈ Key <$> kvs).
  { unfold bucket; rewrite !list_elem_of_fmap; setoid_rewrite list_elem_of_filter; naive_solver. }
  assert (Hv : bucketOf Y k = y -> valuesOf (bucket Y y kvs) k = valuesOf kvs k).
  { intros E; unfold valuesOf, bucket; f_equal; rewrite list_filter_filter.
    apply list_filter_iff; intros kv; naive_solver. }
  rewrite Hk; naive_solver.
Qed.

Lemma grouping_partition Y kvs :
  0 < Y -> grouping kvs ≡ₚ concat ((fun y => grouping (bucket Y y kvs)) <$> seqZ 1 Y).
Proof.
  intros HY; rewrite (filter_partition (fun g => bucketOf Y g.1) (seqZ 1 Y) (grouping kvs)).
  - induction (seqZ 1 Y) as [|y ys IH]; simpl; [done|]. by rewrite IH, grouping_bucket.
  - apply NoDup_seqZ.
  - intros g _; apply elem_seqZ1. by apply bucketOf_range.
Qed.

Lemma bucket_concat Y y (kvss : list (list KeyValue)) :
  bucket Y y (concat kvss) = concat (bucket Y y <$> kvss).
Proof. induction kvss as [|kvs kvss IH]; [done|]. rewrite fmap_cons; cbn [concat]; rewrite <- IH; apply filter_app. Qed.

(** C40: no pair is lost between map and reduce. For any positive number of
    reduce tasks the mapper's division does not panic, the hash of a key is a
    non-negative 31-bit integer, every bucket has the number of a reduce task
    (so the loop from 1 to Y writes all of them), equal keys share a bucket, and
    the buckets together hold exactly the pairs that were emitted. *)
Theorem divide_covers kvs Y (HY : 0 < Y) :
  exists mp, divide kvs Y ∅ = Some mp
    /\ (forall y, is_Some (mp !! y) -> 1 <= y <= Y)
    /\ (forall kv, kv ∈ kvs -> 0 <= ihash (Key kv) < 2 ^ 31
        /\ exists y, yOf (Key kv) Y = Some y /\ 1 <= y <= Y /\ kv ∈ default [] (mp !! y))
    /\ concat ((fun y => default [] (mp !! y)) <$> seqZ 1 Y) ≡ₚ kvs.
Proof.
  destruct (divide_spec kvs Y ∅ HY) as (mp & Hd & Hmp). exists mp. setoid_rewrite Hmp. simpl. split_and!; [done| | |].
  - eapply divide_keys; [done..|]. intros y [? Hy]; by rewrite lookup_empty in Hy.
  - intros kv Hin. split; [apply ihash_range|]. exists (bucketOf Y (Key kv)). split_and!; [by apply yOf_bucketOf|by apply bucketOf_range..|].
    rewrite lookup_empty; simpl. by apply list_elem_of_filter.
  - symmetry. etrans; [apply (filter_partition (fun kv => bucketOf Y (Key kv)) (seqZ 1 Y))|].
    + apply NoDup_seqZ.
    + intros kv _; apply elem_seqZ1. by apply bucketOf_range.
    + apply eq_subrelation; [apply _|]. done.
Qed.

Lemma divide_covers_witness :
  exists mp, divide [mkKeyValue "a" "1"; mkKeyValue "b" "2"; mkKeyValue "a" "3"] 2 ∅ = Some mp
    /\ concat ((fun y => default [] (mp !! y)) <$> seqZ 1 2) ≡ₚ [mkKeyValue "a" "1"; mkKeyValue "b" "2"; mkKeyValue "a" "3"].
Proof.
  destruct (divide_covers [mkKeyValue "a" "1"; mkKeyValue "b" "2"; mkKeyValue "a" "3"] 2) as (mp & H1 & _ & _ & H2); [lia|].
  exists mp; split; [exact H1|exact H2].
Defined.

(** ** Writing and reading *)

Section files.
Context (jsonText : KeyValue -> string) (os : osEnv).
Context (mapf : string -> string -> list KeyValue) (reducef : string -> list string -> string).
Context (order : nat -> gmap string (list string) -> list (string * list string)).
Hypothesis create_ok : forall n, can_create os n = true.
Hypothesis write_ok : forall n, can_write os n = true.
Hypothesis rename_ok : forall n, can_rename os n = true.
Implicit Types (fs : fileSystem).

Lemma writeChunks_ok name cs fs c0 :
  fs !! name = Some c0 -> writeChunks os name cs fs = (<[name := (c0 ++ cs)%list]> fs, true).
Proof using write_ok.
  revert fs c0; induction cs as [|c cs IH]; intros fs c0 Hc; cbn [writeChunks].
  - by rewrite app_nil_r, (insert_id (M := gmap string)).
  - rewrite write_ok, Hc; cbn [default from_option]. rewrite (IH _ (c0 ++ [c])%list) by apply lookup_insert_eq.
    by rewrite insert_insert_eq, <- (assoc app).
Qed.

Lemma intermediateFileWriter_ok name kvs fs :
  intermediateFileWriter os name kvs fs = (<[name := Obj <$> kvs]> (delete (name +:+ ".tmp") fs), true).
Proof using create_ok write_ok rename_ok.
  unfold intermediateFileWriter; rewrite create_ok.
  rewrite (writeChunks_ok _ _ _ []) by apply lookup_insert_eq; simpl.
  unfold rename; rewrite lookup_insert_eq, rename_ok. by rewrite insert_insert_eq, delete_insert_eq.
Qed.

(** A run of the mapper writes the buckets of [x] and touches no other file. *)
Definition onlyInter (x : Z) (ys : list Z) fs fs' : Prop :=
  forall n, (forall y, y ∈ ys -> n <> interName x y /\ n <> interName x y +:+ ".tmp") -> fs' !! n = fs !! n.

Lemma writeBuckets_ok x ys mp fs :
  0 <= x -> NoDup ys -> (forall y, y ∈ ys -> 0 <= y) ->
  exists fs', writeBuckets os x ys mp fs = (fs', true)
    /\ (forall y, y ∈ ys -> fs' !! interName x y = Some (Obj <$> default [] (mp !! y)))
    /\ onlyInter x ys fs fs'.
Proof using create_ok write_ok rename_ok.
  intros Hx Hn; revert fs; induction Hn as [|y ys Hy Hn IH]; intros fs Hpos; simpl.
  { exists fs; split_and!; [done|intros y H; by apply elem_of_nil in H|done]. }
  rewrite intermediateFileWriter_ok.
  destruct (IH (<[interName x y:=Obj <$> default [] (mp !! y)]> (delete (interName x y +:+ ".tmp") fs)))
    as (fs' & -> & Hb & Ho); [intros; apply Hpos; by right|].
  exists fs'; split_and!; [done| |].
  - intros y' [->|Hin]%elem_of_cons; [|by apply Hb].
    rewrite Ho; [by rewrite lookup_insert_eq|]. intros y' Hin; split.
    + intros [_ E]%interName_inj; [by subst|done|apply Hpos; left|done|apply Hpos; by right].
    + apply interName_tmp; [done|apply Hpos; left].
  - intros n Hn'; rewrite Ho by (intros; apply Hn'; by right).
    destruct (Hn' y ltac:(left)) as [H1 H2].
    by rewrite lookup_insert_ne, lookup_delete_ne.
Qed.

Lemma mapper_ok name c x Y fs :
  fs !! name = Some c -> 0 <= x -> 0 < Y ->
  exists fs', mapper jsonText os mapf name x Y fs = Some (fs', true)
    /\ (forall y, 1 <= y <= Y ->
          fs' !! interName x y = Some (Obj <$> bucket Y y (mapf name (contents jsonText c))))
    /\ onlyInter x (seqZ 1 Y) fs fs'.
Proof using create_ok write_ok rename_ok.
  intros Hc Hx HY; unfold mapper; rewrite Hc.
  destruct (divide_spec (mapf name (contents jsonText c)) Y ∅ HY) as (mp & -> & Hmp); simpl.
  destruct (writeBuckets_ok x (seqZ 1 Y) mp fs) as (fs' & -> & Hb & Ho);
    [done|apply NoDup_seqZ|intros y ?%elem_seqZ1; lia|].
  exists fs'; split_and!; [done| |done]. intros y Hy; rewrite Hb by (by apply elem_seqZ1).
  by rewrite Hmp, lookup_empty.
Qed.

Lemma readBuckets_ok (b : Z -> list KeyValue) xs y fs kvs mp :
  (forall x, x ∈ xs -> fs !! interName x y = Some (Obj <$> b x)) -> isGrouping kvs mp ->
  exists mp', readBuckets xs y mp fs = Some mp' /\ isGrouping (kvs ++ concat (b <$> xs))%list mp'.
Proof using Type.
  revert kvs mp; induction xs as [|x xs IH]; intros kvs mp Hf Hg; cbn [readBuckets].
  { exists mp; split; [done|]. simpl; by rewrite app_nil_r. }
  rewrite Hf by left; cbn [mbind option_bind].
  destruct (decodeFile_grouping kvs (b x) mp Hg) as (mp' & -> & Hg'); cbn [mbind option_bind].
  destruct (IH _ mp' ltac:(intros; apply Hf; by right) Hg') as (mp'' & -> & Hg'').
  exists mp''; split; [done|]. rewrite fmap_cons; cbn [concat]. by rewrite (assoc app).
Qed.

Lemma isGrouping_empty : isGrouping [] ∅.
Proof using Type. intros k; by rewrite lookup_empty. Qed.

Definition outLines (gs : list (string * list string)) : list chunk :=
  (fun '(key, vals) => outLine key (reducef key vals)) <$> gs.

(** A run of the reducer writes a line for each group of its bucket, in some
    order, and touches no other file. *)
Lemma reducer_ok seed y X (b : Z -> list KeyValue) fs :
  (forall mp, order seed mp ≡ₚ map_to_list mp) ->
  (forall x, 1 <= x <= X -> fs !! interName x y = Some (Obj <$> b x)) ->
  exists cs, reducer os reducef order seed y X fs = (<[outName y := cs]> fs, true)
    /\ cs ≡ₚ outLines (grouping (concat (b <$> seqZ 1 X))).
Proof using create_ok write_ok.
  intros Hord Hf; unfold reducer.
  destruct (readBuckets_ok b (seqZ 1 X) y fs [] ∅) as (mp & -> & Hg);
    [intros x ?%elem_seqZ1; by apply Hf|apply isGrouping_empty|].
  rewrite create_ok, (writeChunks_ok _ _ _ []) by apply lookup_insert_eq.
  rewrite insert_insert_eq; eexists; split; [done|].
  simpl; apply fmap_Permutation. by rewrite Hord, (isGrouping_list _ _ Hg).
Qed.
End files.

(** ** The lines of the output *)

Section lines.
Context (reducef : string -> list string -> string).

(** The sequential program's lines, up to the order of lines and values. *)
Lemma groups_lines kvs srt :
  (forall k vs vs', vs ≡ₚ vs' -> reducef k vs = reducef k vs') ->
  srt ≡ₚ kvs -> StronglySorted byKey srt ->
  ((fun '(key, vals) => outLine key (reducef key vals)) <$> groups (length srt) srt)
  ≡ₚ outLines reducef (grouping kvs).
Proof.
  intros Hred Hp Hs. unfold outLines.
  rewrite (groups_grouping (length srt) srt Hs (le_n _)); unfold grouping, keysOf.
  rewrite <- !list_fmap_compose.
  assert (Hk : remove_dups (Key <$> srt) ≡ₚ remove_dups (Key <$> kvs)).
  { apply NoDup_Permutation; [apply NoDup_remove_dups..|].
    intros k; rewrite !elem_of_remove_dups. by rewrite Hp. }
  rewrite Hk; apply eq_subrelation; [apply _|].
  apply list_fmap_ext; intros i k _; simpl. by rewrite (Hred k _ _ (valuesOf_perm _ _ k Hp)).
Qed.

#[export] Instance outLines_perm : Proper (Permutation ==> Permutation) (outLines reducef).
Proof. intros g1 g2 Hg; by apply fmap_Permutation. Qed.

Lemma concat_fmap_lines (gss : Z -> list (string * list string)) ys :
  outLines reducef (concat (gss <$> ys))
  = concat ((fun y => outLines reducef (gss y)) <$> ys).
Proof.
  induction ys as [|y ys IH]; [done|]. rewrite !fmap_cons; cbn [concat].
  rewrite <- IH; apply fmap_app.
Qed.

Lemma concat_perm {A} (f g : Z -> list A) ys :
  (forall y, y ∈ ys -> f y ≡ₚ g y) -> concat (f <$> ys) ≡ₚ concat (g <$> ys).
Proof.
  induction ys as [|y ys IH]; intros H; [done|]. rewrite !fmap_cons; cbn [concat].
  rewrite (H y) by left. by rewrite IH by (intros; apply H; by right).
Qed.
End lines.
