(* ===== verification/MrJob.v ===== *)
(** * MapReduce: a whole job

    The coordinator, any number of workers and the shared file system. A worker
    may execute a task it was given at any later time, also after the task was
    given to somebody else and finished, and its report may be delayed or lost.
    The execution of one task is atomic here; the interleaving of two writers of
    the same temporary file, which the README lists as an open problem, is not
    covered. *)

From S2P Require Import Prelude GoFmt MrCoordinator MrCoordinatorFacts MrContract MrWorker MrFiles.

#[local] Open Scope string_scope.
#[local] Open Scope Z_scope.

(** ** The file names in the assignments *)

Section names.
Implicit Types (c : Coordinator).

Definition fileOf c (z : Z) : option string := filename <$> task (mapTask c) z.

Lemma fileOf_upd ts x t t' ts' z :
  task ts x = Some t -> filename t' = filename t -> upd ts x (Some t') = Some ts' ->
  filename <$> task ts' z = filename <$> task ts z.
Proof.
  intros Ht Hf Hu; rewrite (task_upd _ _ _ _ z Hu); case_decide as E; [|done].
  subst z; by rewrite Ht; simpl; rewrite Hf.
Qed.

Lemma fetchMapLoop_files now xs n ts x l ts' z :
  fetchMapLoop now xs n ts = Some (x, l, ts') -> filename <$> task ts' z = filename <$> task ts z.
Proof.
  revert n; induction xs as [|w xs IH]; intros n H; simpl in H; [by simplify_eq|].
  inv_opt. destruct (m_status _); [by simplify_eq| |by eapply IH].
  case_if_in H; [|by eapply IH]. inv_opt. eapply fileOf_upd; [by apply task_Some| |done]; done.
Qed.

Lemma fetchMap_files now c x c' z : fetchMap now c = Some (x, c') -> fileOf c' z = fileOf c z.
Proof.
  unfold fetchMap; intros H; inv_opt. destruct x0 as [[w l] ts].
  pose proof (fetchMapLoop_files _ _ _ _ _ _ _ z H0) as E.
  repeat case_if_in H; inv_opt; try done. unfold fillReduce in *; inv_opt; done.
Qed.

Lemma fetchReduce_files now c y c' z : fetchReduce now c = Some (y, c') -> fileOf c' z = fileOf c z.
Proof.
  unfold fetchReduce; intros H; inv_opt. destruct x as [[w l] ts].
  repeat case_if_in H; inv_opt; done.
Qed.

Lemma RequestTask_files now c c' a z :
  RequestTask now c = Some (c', a) ->
  fileOf c' z = fileOf c z /\ (TaskType a = TaskMap -> fileOf c (LowerX a) = Some (Filename a))
  /\ X a = capX c' /\ Y a = capY c'.
Proof.
  unfold RequestTask; intros H; inv_opt. destruct x as [x c1]; inv_opt. destruct x0 as [y c2].
  assert (E1 : forall w, fileOf c1 w = fileOf c w).
  { intros w; case_if_in H0; [by eapply fetchMap_files|by simplify_eq]. }
  assert (E2 : forall w, fileOf c2 w = fileOf c w).
  { intros w; rewrite <- E1; case_if_in H1; [by eapply fetchReduce_files|by simplify_eq]. }
  case_if_in H; [by inv_opt; rewrite E2|]. case_if_in H; [|case_if_in H; inv_opt; by rewrite <- E2].
  inv_opt; subst. unfold fileOf in *; simpl. assert (Ht : task (mapTask c2) x = Some x1) by (by apply task_Some).
  split_and!; [|intros _; rewrite <- E2; by rewrite Ht|done|done].
  rewrite <- E2; eapply fileOf_upd; [exact Ht| |done]; done.
Qed.

Lemma ResponseTask_files tcp c c' z : ResponseTask tcp c = Some c' -> fileOf c' z = fileOf c z.
Proof.
  unfold ResponseTask; intros H; inv_opt. destruct x as [t|]; inv_opt.
  - case_if_in H0; [|done]. inv_opt. case_decide; inv_opt; subst.
    eapply fileOf_upd; [by apply task_Some| |done]; done.
  - destruct x; inv_opt; done.
Qed.
End names.

(** ** The system *)

Record job : Type := mkJob {
  coord : Coordinator;
  hist : history;
  reports : list TaskCompletion;     (* sent, not necessarily received *)
  files : fileSystem;
}.

Section job.
Context (jsonText : KeyValue -> string) (os : osEnv).
Context (mapf : string -> string -> list KeyValue) (reducef : string -> list string -> string).
Context (order : nat -> gmap string (list string) -> list (string * list string)).
Context (fnames : list string) (nReduce : nat) (fs0 : fileSystem).

Inductive jobStep : job -> job -> Prop :=
| js_request now c' a s :
    RequestTask now (coord s) = Some (c', a) ->
    jobStep s (mkJob c' (HAssign now a :: hist s) (reports s) (files s))
| js_work seed now a fs' rep flags s :
    HAssign now a ∈ hist s ->
    eachCall jsonText os mapf reducef order seed (Some a) (files s) = Some (fs', rep, flags) ->
    jobStep s (mkJob (coord s) (hist s) (option_list rep ++ reports s)%list fs')
| js_report tcp c' s :
    tcp ∈ reports s -> ResponseTask tcp (coord s) = Some c' ->
    jobStep s (mkJob c' (HReport tcp :: hist s) (reports s) (files s)).

Definition jobInit : job := mkJob (MakeCoordinator fnames nReduce) [] [] fs0.

(** What map task [x] emits, and what it all emits together. *)
Definition emitted (x : Z) : list KeyValue :=
  match idx fnames (x - 1) with
  | Some f => mapf f (contents jsonText (default [] (fs0 !! f)))
  | None => []
  end.
Definition allEmitted : list KeyValue := concat (emitted <$> seqZ 1 (len fnames)).

Let nY : Z := Z.of_nat nReduce.

(** The files of a finished task. *)
Definition mapWritten (fs : fileSystem) (x : Z) : Prop :=
  forall y, 1 <= y <= nY -> fs !! interName x y = Some (Obj <$> bucket nY y (emitted x)).
Definition reduceWritten (fs : fileSystem) (y : Z) : Prop :=
  exists cs, fs !! outName y = Some cs /\ cs ≡ₚ outLines reducef (grouping (bucket nY y allEmitted)).

Definition written (fs : fileSystem) (tcp : TaskCompletion) : Prop :=
  (forall x, tcp = mkTaskCompletion x 0 -> 0 < x -> mapWritten fs x)
  /\ (forall y, tcp = mkTaskCompletion 0 y -> 0 < y -> reduceWritten fs y).

Definition assignOk (e : hEvent) : Prop :=
  match e with
  | HAssign _ a =>
      (TaskType a = TaskMap -> idx fnames (LowerX a - 1) = Some (Filename a) /\ Y a = nY)
      /\ (TaskType a = TaskReduce -> X a = len fnames)
  | HReport _ => True
  end.

Record jobInv (s : job) : Prop := {
  ji_reach : rtc coordStep (start fnames nReduce) (coord s, hist s);
  ji_files : forall z f, fileOf (coord s) z = Some f -> idx fnames (z - 1) = Some f;
  ji_assign : Forall assignOk (hist s);
  ji_reports : forall tcp, tcp ∈ reports s -> wasAssigned (hist s) tcp /\ written (files s) tcp;
  ji_reported : forall tcp, HReport tcp ∈ hist s -> written (files s) tcp;
  ji_inputs : forall f, f ∈ fnames -> files s !! f = fs0 !! f;
}.

Lemma MakeCoordinator_files z f :
  fileOf (MakeCoordinator fnames nReduce) z = Some f -> idx fnames (z - 1) = Some f.
Proof.
  unfold fileOf; intros (t & Ht & ->)%fmap_Some; apply task_Some in Ht; simpl in Ht.
  pose proof (idx_Some_range _ _ _ Ht) as Hr; destruct (decide (z = 0)) as [->|Hz]; [done|].
  rewrite idx_cons_S in Ht by lia. unfold idx in *; case_if; [|done].
  rewrite list_lookup_fmap in Ht. by destruct (fnames !! _); simplify_eq/=.
Qed.

Lemma jobInv_init : jobInv jobInit.
Proof.
  split; simpl; [apply rtc_refl|apply MakeCoordinator_files|constructor| | |done].
  - intros tcp H; by apply elem_of_nil in H.
  - intros tcp H; by apply elem_of_nil in H.
Qed.

Lemma wasAssigned_cons h e tcp : wasAssigned h tcp -> wasAssigned (e :: h) tcp.
Proof. intros (now & a & Hin & ?); exists now, a; split; [by right|done]. Qed.

Lemma jobInv_request s now c' a :
  jobInv s -> RequestTask now (coord s) = Some (c', a) ->
  jobInv (mkJob c' (HAssign now a :: hist s) (reports s) (files s)).
Proof.
  intros [] E; pose proof (fun z => RequestTask_files now (coord s) c' a z E) as Hf.
  assert (Hr : rtc coordStep (start fnames nReduce) (c', HAssign now a :: hist s)).
  { eapply rtc_r; [done|by constructor]. }
  destruct (reach_inv fnames nReduce _ Hr) as (_ & HX & HY & _); simpl in HX, HY.
  destruct (Hf 0) as (_ & Hn & EX & EY).
  split; simpl; try done.
  - intros z f; rewrite (proj1 (Hf z)); apply ji_files0.
  - constructor; [|done]. split; [|congruence]. intros Ht; split; [by apply ji_files0, Hn|unfold nY; congruence].
  - intros tcp Hin; destruct (ji_reports0 tcp Hin); split; [by apply wasAssigned_cons|done].
  - intros tcp [|]%elem_of_cons; [done|by apply ji_reported0].
Qed.

Lemma jobInv_report s tcp c' :
  jobInv s -> tcp ∈ reports s -> ResponseTask tcp (coord s) = Some c' ->
  jobInv (mkJob c' (HReport tcp :: hist s) (reports s) (files s)).
Proof.
  intros [] Hin E; destruct (ji_reports0 tcp Hin) as [Hw Hwr]; split; simpl; try done.
  - eapply rtc_r; [done|by constructor].
  - intros z f; rewrite (ResponseTask_files _ _ _ z E); apply ji_files0.
  - by constructor.
  - intros tcp' Hin'; destruct (ji_reports0 tcp' Hin'); split; [by apply wasAssigned_cons|done].
  - intros tcp' [[= ->]|]%elem_of_cons; [done|by apply ji_reported0].
Qed.

Hypothesis create_ok : forall n, can_create os n = true.
Hypothesis write_ok : forall n, can_write os n = true.
Hypothesis rename_ok : forall n, can_rename os n = true.
Hypothesis order_perm : forall seed mp, order seed mp ≡ₚ map_to_list mp.
Hypothesis inputs_exist : forall f, f ∈ fnames -> is_Some (fs0 !! f) /\ isInput f.
Hypothesis nReduce_pos : (0 < nReduce)%nat.

(** Executing a task again changes no file of a finished task. *)
Lemma mapper_written x f fs :
  idx fnames (x - 1) = Some f -> (forall f, f ∈ fnames -> fs !! f = fs0 !! f) ->
  exists fs', mapper jsonText os mapf f x nY fs = Some (fs', true)
    /\ mapWritten fs' x /\ onlyInter x (seqZ 1 nY) fs fs'.
Proof.
  intros Hx Hin. assert (Hr := idx_Some_range _ _ _ Hx).
  assert (Hf : f ∈ fnames).
  { unfold idx in Hx; case_if_in Hx; [|done]. by eapply list_elem_of_lookup_2. }
  destruct (inputs_exist f Hf) as [[c Hc] _].
  destruct (mapper_ok jsonText os mapf create_ok write_ok rename_ok f c x nY fs) as (fs' & E & Hb & Ho);
    [by rewrite Hin|lia|unfold nY; lia|].
  exists fs'; split_and!; [done| |done]. intros y Hy; rewrite Hb by done.
  unfold emitted; by rewrite Hx, Hc.
Qed.

Lemma onlyInter_keeps x fs fs' :
  0 < x -> onlyInter x (seqZ 1 nY) fs fs' -> mapWritten fs' x ->
  (forall tcp, written fs tcp -> written fs' tcp) /\ (forall f, isInput f -> fs' !! f = fs !! f).
Proof.
  intros Hx Ho Hw; split.
  - intros tcp [Hm Hr]; split.
    + intros x' -> Hx' y Hy; destruct (decide (x' = x)) as [->|Hne]; [by apply Hw|].
      rewrite Ho; [by apply (Hm x')|]. intros y' Hy'%elem_seqZ1; split.
      * intros [? _]%interName_inj; [done|lia..].
      * apply interName_tmp; lia.
    + intros y -> Hy; destruct (Hr y eq_refl Hy) as (cs & Hcs & Hp); exists cs; split; [|done].
      rewrite Ho; [done|]. intros y' Hy'%elem_seqZ1; split; apply not_eq_sym.
      * apply interName_out; lia.
      * apply interTmp_out; lia.
  - intros f Hf; apply Ho; intros y _; by apply isInput_inter.
Qed.

Lemma outName_keeps y cs fs :
  0 < y -> cs ≡ₚ outLines reducef (grouping (bucket nY y allEmitted)) ->
  (forall tcp, written fs tcp -> written (<[outName y := cs]> fs) tcp)
  /\ (forall f, isInput f -> <[outName y := cs]> fs !! f = fs !! f)
  /\ reduceWritten (<[outName y := cs]> fs) y.
Proof.
  intros Hy Hp; assert (Hself : reduceWritten (<[outName y := cs]> fs) y).
  { exists cs; split; [by rewrite lookup_insert_eq|done]. }
  split_and!; [| |done].
  - intros tcp [Hm Hr]; split.
    + intros x -> Hx z Hz; rewrite lookup_insert_ne; [by apply (Hm x)|].
      apply not_eq_sym, interName_out; lia.
    + intros y' -> Hy'; destruct (decide (y' = y)) as [->|Hne]; [done|].
      destruct (Hr y' eq_refl Hy') as (cs' & Hcs & Hp'); exists cs'; split; [|done].
      rewrite lookup_insert_ne; [done|]. by intros ?%outName_inj.
  - intros f Hf; rewrite lookup_insert_ne; [done|]. by apply not_eq_sym, isInput_out.
Qed.

(** A reduce task was handed out only when every map task was reported. *)
Lemma reduce_after_maps h now a :
  contract (len fnames) nY h -> HAssign now a ∈ h -> TaskType a = TaskReduce ->
  mapsReported (len fnames) h /\ 1 <= LowerY a <= nY.
Proof.
  induction h as [|e h IH]; intros Hc Hin Ht; [by apply elem_of_nil in Hin|].
  apply elem_of_cons in Hin as [<-|Hin].
  - destruct Hc as [[(E & _)|[(_ & Hy & _ & Hm & _)|[(E & _)|(E & _)]]] _]; try (rewrite Ht in E; done).
    split; [|done]. intros x Hx; right; by apply Hm.
  - destruct IH as [Hm Hy]; [destruct e; [by destruct Hc|done]|done|done|].
    split; [|done]. intros x Hx; right; by apply Hm.
Qed.

Lemma map_number h now a :
  contract (len fnames) nY h -> HAssign now a ∈ h -> TaskType a = TaskMap -> 1 <= LowerX a <= len fnames.
Proof.
  induction h as [|e h IH]; intros Hc Hin Ht; [by apply elem_of_nil in Hin|].
  apply elem_of_cons in Hin as [<-|Hin].
  - destruct Hc as [[(_ & Hx & _)|[(E & _)|[(E & _)|(E & _)]]] _]; try (rewrite Ht in E; done). done.
  - apply IH; [destruct e; [by destruct Hc|done]|done|done].
Qed.

(** New files that keep what is written, and a report of what was added. *)
Lemma jobInv_files s fs' rep :
  jobInv s -> (forall tcp, written (files s) tcp -> written fs' tcp) ->
  (forall f, isInput f -> fs' !! f = files s !! f) ->
  (forall tcp, rep = Some tcp -> wasAssigned (hist s) tcp /\ written fs' tcp) ->
  jobInv (mkJob (coord s) (hist s) (option_list rep ++ reports s)%list fs').
Proof.
  intros [] Hk Hi Hrep; split; simpl; try done.
  - intros tcp [Hin|Hin]%elem_of_app; [|by split; [apply ji_reports0|apply Hk, ji_reports0]].
    destruct rep as [t|]; simpl in Hin; [|by apply elem_of_nil in Hin].
    apply list_elem_of_singleton in Hin as ->; by apply Hrep.
  - intros tcp Hin; by apply Hk, ji_reported0.
  - intros f Hf; rewrite Hi; [by apply ji_inputs0|by apply inputs_exist].
Qed.

Lemma jobInv_work s seed now a fs' rep flags :
  jobInv s -> HAssign now a ∈ hist s ->
  eachCall jsonText os mapf reducef order seed (Some a) (files s) = Some (fs', rep, flags) ->
  jobInv (mkJob (coord s) (hist s) (option_list rep ++ reports s)%list fs').
Proof.
  intros Hj Hin E; destruct (reach_inv _ _ _ (ji_reach _ Hj)) as (_ & _ & _ & Hc); simpl in Hc.
  pose proof (ji_assign _ Hj) as Ha; eapply Forall_forall in Ha; [|exact Hin]; destruct Ha as [Hma Hra].
  unfold eachCall in E; case_if_in E; [by simplify_eq; apply jobInv_files|].
  case_if_in E; [by simplify_eq; apply jobInv_files|].
  case_if_in E; [|case_if_in E].
  - destruct (Hma E2) as [Hf HY]; rewrite HY in E.
    pose proof (map_number _ _ _ Hc Hin E2) as Hx.
    destruct (mapper_written (LowerX a) (Filename a) (files s) Hf (ji_inputs _ Hj)) as (fs1 & Em & Hw & Ho).
    rewrite Em in E; simplify_eq/=.
    destruct (onlyInter_keeps (LowerX a) (files s) fs' ltac:(lia) Ho Hw) as [Hk Hi].
    apply (jobInv_files s _ (Some (mkTaskCompletion (LowerX a) 0))); [done..|].
    intros tcp [= <-]; split.
    + exists now, a; auto.
    + split; [by intros x [= <-]|]. intros y [= ? ?]; lia.
  - destruct (reduce_after_maps _ _ _ Hc Hin E3) as [Hm Hy]; rewrite (Hra E3) in E.
    destruct (reducer_ok os reducef order create_ok write_ok seed (LowerY a) (len fnames)
      (fun x => bucket nY (LowerY a) (emitted x)) (files s)) as (cs & Er & Hp); [done| |].
    { intros x Hx; apply (ji_reported _ Hj _ (Hm x Hx)); [done|lia|done]. }
    rewrite Er in E; simplify_eq/=.
    assert (Hp' : cs ≡ₚ outLines reducef (grouping (bucket nY (LowerY a) allEmitted))).
    { unfold allEmitted; by rewrite bucket_concat, <- list_fmap_compose. }
    destruct (outName_keeps (LowerY a) cs (files s) ltac:(lia) Hp') as (Hk & Hi & Hself).
    apply (jobInv_files s _ (Some (mkTaskCompletion 0 (LowerY a)))); [done..|].
    intros tcp [= <-]; split; [exists now, a; auto|].
    split; [intros x [= ? ?]; lia|by intros y [= <-]].
  - simplify_eq; by apply jobInv_files.
Qed.

Lemma jobInv_reachable s : rtc jobStep jobInit s -> jobInv s.
Proof.
  intros Hr; cut (forall s0, jobInv s0 -> rtc jobStep s0 s -> jobInv s); [eauto using jobInv_init|].
  clear Hr; intros s0 H0 Hr; induction Hr as [|s1 s2 s3 Hst _ IH]; [done|]. apply IH.
  destruct Hst; eauto using jobInv_request, jobInv_work, jobInv_report.
Qed.

(** The output of the sequential program. *)
Lemma readInputs_emitted :
  readInputs jsonText mapf fnames fs0 = Some allEmitted.
Proof.
  unfold allEmitted, emitted; clear nY nReduce_pos.
  assert (Hgen : forall pre l, fnames = (pre ++ l)%list -> (forall f, f ∈ l -> is_Some (fs0 !! f)) ->
    readInputs jsonText mapf l fs0 = Some (concat ((fun x => match idx fnames (x - 1) with
      | Some f => mapf f (contents jsonText (default [] (fs0 !! f))) | None => [] end)
      <$> seqZ (1 + len pre) (len l)))).
  { intros pre l; revert pre; induction l as [|f l IH]; intros pre Hp He; [done|].
    rewrite seqZ_cons by (rewrite len_cons; pose proof (len_nonneg l); lia).
    cbn [readInputs]. destruct (He f ltac:(left)) as [c Hc]; rewrite Hc; cbn [mbind option_bind].
    rewrite (IH (pre ++ [f])%list); [|by rewrite <- (assoc app)|intros; apply He; by right].
    cbn [mbind option_bind]; rewrite fmap_cons; cbn [concat].
    replace (1 + len pre - 1) with (len pre) by lia.
    assert (Hidx : idx fnames (len pre) = Some f).
    { rewrite Hp, idx_app_r by lia. by replace (len pre - len pre) with 0 by lia. }
    rewrite Hidx, Hc; cbn [default from_option]; unfold id.
    replace (Z.pred (len (f :: l))) with (len l) by (rewrite len_cons; lia).
    by replace (1 + len (pre ++ [f])) with (Z.succ (1 + len pre))
      by (rewrite len_app; unfold len; simpl; lia). }
  rewrite (Hgen [] fnames eq_refl); [done|]. intros f Hf; by apply inputs_exist.
Qed.
End job.

(** The output files of a finished job. *)
Lemma job_output
    (jsonText : KeyValue -> string) (os : osEnv)
    (mapf : string -> string -> list KeyValue) (reducef : string -> list string -> string)
    (order : nat -> gmap string (list string) -> list (string * list string))
    (fnames : list string) (nReduce : nat) (fs0 : fileSystem) (s : job) :
  (forall n, can_create os n = true) -> (forall n, can_write os n = true) ->
  (forall n, can_rename os n = true) ->
  (forall seed mp, order seed mp ≡ₚ map_to_list mp) ->
  (forall f, f ∈ fnames -> is_Some (fs0 !! f) /\ isInput f) ->
  (0 < nReduce)%nat ->
  rtc (jobStep jsonText os mapf reducef order) (jobInit fnames nReduce fs0) s ->
  isDone (coord s) = true ->
  (forall y, 1 <= y <= Z.of_nat nReduce -> is_Some (files s !! outName y))
  /\ concat ((fun y => default [] (files s !! outName y)) <$> seqZ 1 (Z.of_nat nReduce))
     ≡ₚ outLines reducef (grouping (allEmitted jsonText mapf fnames fs0)).
Proof.
  intros Hcr Hwr Hrn Hord Hin HnR Hrun Hdone.
  assert (Hj := jobInv_reachable _ _ _ _ _ _ _ _ Hcr Hwr Hrn Hord Hin HnR s Hrun).
  assert (Hw : forall y, 1 <= y <= Z.of_nat nReduce ->
    reduceWritten jsonText mapf reducef fnames nReduce fs0 (files s) y).
  { intros y Hy; destruct (reach_inv _ _ _ (ji_reach _ _ _ _ _ _ _ Hj)) as (Hi & _ & HY & _); simpl in *.
    apply Z.eqb_eq in Hdone; pose proof (ci_reducesDone _ _ Hi Hdone) as Hr; rewrite HY in Hr.
    apply (ji_reported _ _ _ _ _ _ _ Hj _ (Hr y Hy)); [done|lia]. }
  split; [intros y Hy; destruct (Hw y Hy) as (cs & -> & _); eauto|].
  rewrite (grouping_partition (Z.of_nat nReduce)) by lia.
  rewrite concat_fmap_lines. apply concat_perm; intros y Hy%elem_seqZ1.
  destruct (Hw y Hy) as (cs & -> & Hp); simpl; done.
Qed.


(** A job with one input and one reduce task, run by one worker. *)
Definition demoMap (name text : string) : list KeyValue := [mkKeyValue text name; mkKeyValue "k" "1"].
Definition demoReduce (key : string) (vals : list string) : string := pretty (length vals).
Definition demoOs : osEnv := mkOsEnv (fun _ => true) (fun _ => true) (fun _ => true).
Definition demoFs : fileSystem := {["in" := [Txt "z"]]}.
Definition demoSort (l : list KeyValue) : list KeyValue := reverse l.
(** Executions of an application on systems whose calls succeed. *)
Section demo.
Context (mapf : string -> string -> list KeyValue) (reducef : string -> list string -> string).
Definition demoStep := jobStep (fun _ => "") demoOs mapf reducef (fun _ => map_to_list).

(** A schedule: requests at given times, the execution of the [n]-th newest
    event of the history, the delivery of the [n]-th newest report. *)
Inductive jobCmd : Type := CRequest (now : Z) | CWork (n : nat) | CReport (n : nat).

Definition demoExec (cmd : jobCmd) (s : job) : option job :=
  match cmd with
  | CRequest now =>
      '(c, a) ← RequestTask now (coord s);
      Some (mkJob c (HAssign now a :: hist s) (reports s) (files s))
  | CWork n =>
      e ← hist s !! n;
      match e with
      | HAssign now a =>
          '(fs, rep, flags) ← eachCall (fun _ => "") demoOs mapf reducef (fun _ => map_to_list)
                                0 (Some a) (files s);
          Some (mkJob (coord s) (hist s) (option_list rep ++ reports s)%list fs)
      | HReport _ => None
      end
  | CReport n =>
      tcp ← reports s !! n;
      c ← ResponseTask tcp (coord s);
      Some (mkJob c (HReport tcp :: hist s) (reports s) (files s))
  end.

Fixpoint demoRun (cmds : list jobCmd) (s : job) : option job :=
  match cmds with
  | [] => Some s
  | cmd :: cmds => s ← demoExec cmd s; demoRun cmds s
  end.

Lemma demoExec_step cmd s s' : demoExec cmd s = Some s' -> demoStep s s'.
Proof.
  destruct cmd as [now|n|n]; simpl; intros H; inv_opt.
  - destruct x as [c a]; inv_opt. by apply (js_request _ _ _ _ _ now).
  - destruct x as [now a|tcp]; [|done]. inv_opt. destruct x as [[fs rep] flags]; inv_opt.
    apply (js_work _ _ _ _ _ 0%nat now a fs rep flags); [|done].
    by apply (list_elem_of_lookup_2 _ n).
  - apply (js_report _ _ _ _ _ x); [|done]. by apply (list_elem_of_lookup_2 _ n).
Qed.

Lemma demoRun_reach cmds s s' : demoRun cmds s = Some s' -> rtc demoStep s s'.
Proof.
  revert s; induction cmds as [|cmd cmds IH]; intros s H; simpl in H; inv_opt; [apply rtc_refl|].
  eapply rtc_l; [by apply (demoExec_step cmd)|by apply IH].
Qed.

End demo.

(** The map task is executed a second time after its report. *)
Definition demoCmds : list jobCmd :=
  [CRequest 0; CWork 0; CReport 0; CWork 1; CRequest 1; CWork 0; CReport 0; CRequest 2].
Definition demoEnd : job :=
  default (jobInit ["in"] 1 demoFs) (demoRun demoMap demoReduce demoCmds (jobInit ["in"] 1 demoFs)).

Lemma demoEnd_reached : rtc (demoStep demoMap demoReduce) (jobInit ["in"] 1 demoFs) demoEnd.
Proof.
  apply (demoRun_reach demoMap demoReduce demoCmds); unfold demoEnd.
  assert (H : match demoRun demoMap demoReduce demoCmds (jobInit ["in"] 1 demoFs) with Some _ => true | None => false end = true)
    by (vm_compute; reflexivity).
  by destruct (demoRun demoMap demoReduce demoCmds (jobInit ["in"] 1 demoFs)).
Qed.

