(* ===== verification/MrApps.v ===== *)
(** * MapReduce: the applications

    Models the plugins under [mrapps/]: word count ([wc.go]), the indexer
    ([indexer.go]), [crash.go] and [nocrash.go], [early_exit.go] and what is not
    clock and process identifiers in [jobcount.go] and [rtiming.go], with the
    parts of [strings], [sort] and [unicode/utf8] they use.

    - A string is a sequence of bytes that [FieldsFunc] decodes as UTF-8.
    - Which runes above Latin-1 are letters is a table of the Go library, the
      argument [letterAbove].
    - [maybeCrash] either ends the process, which is a task that is not executed,
      or only takes time.
    - [range] over a map visits the keys in any order: the argument [order]. *)

From S2P Require Import Prelude GoFmt MrCoordinator MrWorker.
From stdpp Require Import sorting.
From Stdlib Require Import Ascii.

#[local] Open Scope string_scope.
#[local] Open Scope list_scope.
#[local] Open Scope Z_scope.

(** ** Runes *)

Definition byteOf (c : ascii) : Z := Z.of_N (N_of_ascii c).
Definition within (lo hi b : Z) : bool := (lo <=? b) && (b <=? hi).
Definition isCont (c : ascii) : bool := within 0x80 0xBF (byteOf c).
(** The payload of a continuation byte. *)
Definition payload (c : ascii) : Z := Z.land (byteOf c) 0x3F.

(** A rune and the bytes it was read from. *)
Notation rune := (Z * string)%type.
Definition RuneError : Z := 0xFFFD.

(** [utf8.DecodeRuneInString] on [String c s]: the rune with its bytes, and what
    is left. An invalid sequence is [RuneError], one byte wide. *)
Definition decodeRune (c : ascii) (s : string) : rune * string :=
  let b := byteOf c in
  let bad := ((RuneError, String c ""), s) in
  if b <? 0x80 then ((b, String c ""), s)
  else if within 0xC2 0xDF b then
    match s with
    | String c1 s =>
        if isCont c1 then ((Z.lor (Z.shiftl (Z.land b 0x1F) 6) (payload c1), String c (String c1 "")), s) else bad
    | "" => bad
    end
  else if within 0xE0 0xEF b then
    match s with
    | String c1 (String c2 s) =>
        if within (if b =? 0xE0 then 0xA0 else 0x80) (if b =? 0xED then 0x9F else 0xBF) (byteOf c1) && isCont c2
        then ((Z.lor (Z.shiftl (Z.land b 0x0F) 12) (Z.lor (Z.shiftl (payload c1) 6) (payload c2)),
               String c (String c1 (String c2 ""))), s)
        else bad
    | _ => bad
    end
  else if within 0xF0 0xF4 b then
    match s with
    | String c1 (String c2 (String c3 s)) =>
        if within (if b =? 0xF0 then 0x90 else 0x80) (if b =? 0xF4 then 0x8F else 0xBF) (byteOf c1) && isCont c2 && isCont c3
        then ((Z.lor (Z.shiftl (Z.land b 0x07) 18)
                 (Z.lor (Z.shiftl (payload c1) 12) (Z.lor (Z.shiftl (payload c2) 6) (payload c3))),
               String c (String c1 (String c2 (String c3 "")))), s)
        else bad
    | _ => bad
    end
  else bad.

(** [for _, r := range s]; the length of the string is enough fuel. *)
Fixpoint runesLoop (fuel : nat) (s : string) : list rune :=
  match fuel, s with
  | S fuel, String c s => let '(r, s) := decodeRune c s in r :: runesLoop fuel s
  | _, _ => []
  end.
Definition runes (s : string) : list rune := runesLoop (String.length s) s.

(** ** Standard library *)

Section fields.
Variable f : Z -> bool.

(** [cur]: the field that has been started. *)
Fixpoint splitLoop (l : list rune) (cur : option string) : list string :=
  match l with
  | [] => option_list cur
  | (r, b) :: l =>
      if f r then option_list cur ++ splitLoop l None
      else splitLoop l (Some (default "" cur +:+ b))
  end.

(** [strings.FieldsFunc] *)
Definition FieldsFunc (s : string) : list string := splitLoop (runes s) None.
End fields.

(** [sort.Strings] and [strings.Join] *)
Definition sortStrings (l : list string) : list string := merge_sort String.le l.
Definition joinStrings (l : list string) (sep : string) : string := String.concat sep l.
Definition HasPrefix (s prefix : string) : bool := String.prefix prefix s.

(** [strconv.Itoa], and ["%d"] *)
Definition Itoa (n : Z) : string := pretty n.

Section letters.
Variable letterAbove : Z -> bool.

(** [unicode.IsLetter] *)
Definition IsLetter (r : Z) : bool :=
  if r <=? 0xFF then
    within 0x41 0x5A r || within 0x61 0x7A r || (r =? 0xAA) || (r =? 0xB5) || (r =? 0xBA)
    || within 0xC0 0xD6 r || within 0xD8 0xF6 r || within 0xF8 0xFF r
  else letterAbove r.

Definition words (contents : string) : list string := FieldsFunc (fun r => negb (IsLetter r)) contents.
End letters.

(** ** The plugins *)

Module Wc.
Definition Map (letterAbove : Z -> bool) (filename contents : string) : list KeyValue :=
  (fun w => mkKeyValue w "1") <$> words letterAbove contents.
Definition Reduce (key : string) (values : list string) : string := Itoa (len values).
End Wc.

Module Indexer.
Definition Map (letterAbove : Z -> bool) (order : gset string -> list string) (document value : string) : list KeyValue :=
  (fun w => mkKeyValue w document) <$> order (list_to_set (words letterAbove value)).
Definition Reduce (key : string) (values : list string) : string :=
  Itoa (len values) +:+ " " +:+ joinStrings (sortStrings values) ",".
End Indexer.

(** [crash.go] when it does not crash, and [nocrash.go]; also [Reduce] of
    [mtiming.go]. *)
Module Crash.
Definition Map (filename contents : string) : list KeyValue :=
  [mkKeyValue "a" filename;
   mkKeyValue "b" (Itoa (Z.of_nat (String.length filename)));
   mkKeyValue "c" (Itoa (Z.of_nat (String.length contents)));
   mkKeyValue "d" "xyzzy"].
Definition Reduce (key : string) (values : list string) : string := joinStrings (sortStrings values) " ".
End Crash.

Module EarlyExit.
Definition Map (filename contents : string) : list KeyValue := [mkKeyValue filename "1"].
Definition Reduce (key : string) (values : list string) : string := Itoa (len values).
End EarlyExit.

(** [names]: the entries of the working directory when [Reduce] runs. *)
Module JobCount.
Definition Map (filename contents : string) : list KeyValue := [mkKeyValue "a" "x"].
Definition Reduce (names : list string) (key : string) (values : list string) : string :=
  Itoa (foldl (fun invocations f => if HasPrefix f "mr-worker-jobcount" then invocations + 1 else invocations) 0 names).
End JobCount.

(** [n]: what [nparallel] returned. *)
Module RTiming.
Definition Map (filename contents : string) : list KeyValue :=
  (fun k => mkKeyValue k "1") <$> ["a"; "b"; "c"; "d"; "e"; "f"; "g"; "h"; "i"; "j"].
Definition Reduce (n : Z) (key : string) (values : list string) : string := Itoa n.
End RTiming.
