(* ===== verification/MrAppsFacts.v ===== *)
(** * MapReduce: what the applications compute

    [FieldsFunc] splits a text at its separators, and a distributed job of the
    word count or of the indexer outputs the counts and the documents of every
    word of the inputs, however the tasks were scheduled. *)

From S2P Require Import Prelude GoFmt MrCoordinator MrCoordinatorFacts MrContract.
From S2P Require Import MrWorker MrFiles MrJob MrApps.
From stdpp Require Import sorting.
From Stdlib Require Import Ascii.

#[local] Open Scope string_scope.
#[local] Open Scope list_scope.
#[local] Open Scope Z_scope.

(** ** Runes *)

(** The bytes of runes. *)
Definition bytesOf (l : list rune) : string := foldr (fun r s => r.2 +:+ s) "" l.

Lemma bytesOf_app l k : bytesOf (l ++ k) = bytesOf l +:+ bytesOf k.
Proof. induction l as [|r l IH]; [done|]. simpl. by rewrite IH, <- string_app_assoc. Qed.

Lemma decodeRune_bytes c s r s' :
  decodeRune c s = (r, s') -> r.2 +:+ s' = String c s /\ (String.length s' <= String.length s)%nat.
Proof.
  unfold decodeRune; intros H. repeat (case_match; simplify_eq/=; try (split; [done|lia])).
Qed.

Lemma runesLoop_bytes fuel s : (String.length s <= fuel)%nat -> bytesOf (runesLoop fuel s) = s.
Proof.
  revert s; induction fuel as [|fuel IH]; intros [|c s] Hf; simpl in *; try done; [lia|].
  destruct (decodeRune c s) as [r s'] eqn:E. apply decodeRune_bytes in E as [E Hl]. simpl. by rewrite IH by lia.
Qed.

Lemma runes_bytes s : bytesOf (runes s) = s.
Proof. by apply runesLoop_bytes. Qed.

(** ** Splitting *)

Section fields.
Variable f : Z -> bool.
Definition isSep (r : rune) : Prop := f r.1 = true.
Definition noSep (r : rune) : Prop := f r.1 = false.

(** [ws] are the maximal non-empty stretches of [l] without separator. *)
Inductive splits : list rune -> list (list rune) -> Prop :=
| sp_end sep : Forall isSep sep -> splits sep []
| sp_last sep w : Forall isSep sep -> w <> [] -> Forall noSep w -> splits (sep ++ w) [w]
| sp_word sep w x l ws :
    Forall isSep sep -> w <> [] -> Forall noSep w -> isSep x -> splits l ws -> splits (sep ++ w ++ x :: l) (w :: ws).

Lemma splits_skip x l ws : isSep x -> splits l ws -> splits (x :: l) ws.
Proof.
  intros Hx Hs; destruct Hs as [sep Hs|sep w Hs|sep w y l ws Hs].
  - by apply sp_end, Forall_cons.
  - apply (sp_last (x :: sep)); [by apply Forall_cons|done..].
  - apply (sp_word (x :: sep)); [by apply Forall_cons|done..].
Qed.

(** The loop, in the middle of a field and between fields. *)
Lemma splitLoop_splits l :
  (exists ws, splits l ws /\ splitLoop f l None = bytesOf <$> ws)
  /\ forall w, w <> [] -> Forall noSep w -> exists ws, splits (w ++ l) ws /\ splitLoop f l (Some (bytesOf w)) = bytesOf <$> ws.
Proof.
  induction l as [|[r b] l [IH1 IH2]].
  { split; [exists []; split; [by apply sp_end|done]|]. intros w Hw Hn. exists [w]. rewrite app_nil_r. split; [by apply (sp_last [])|done]. }
  assert (Hstart : f r = false -> forall w, Forall noSep w ->
    exists ws, splits (w ++ (r, b) :: l) ws /\ splitLoop f l (Some (bytesOf w +:+ b)) = bytesOf <$> ws).
  { intros E w Hn. destruct (IH2 (w ++ [(r, b)])) as (ws & Hs & HR).
    - by destruct w.
    - by apply Forall_app; split; [|apply Forall_singleton].
    - exists ws. rewrite <- app_assoc in Hs. split; [exact Hs|]. rewrite <- HR, bytesOf_app. simpl. by rewrite string_app_nil. }
  cbn [splitLoop]. destruct (f r) eqn:E; split.
  - destruct IH1 as (ws & Hs & HR). exists ws. split; [by apply splits_skip|done].
  - intros w Hw Hn. destruct IH1 as (ws & Hs & HR). exists (w :: ws). split; [by apply (sp_word [])|]. simpl. by rewrite HR.
  - destruct (Hstart eq_refl []) as (ws & Hs & HR); [done|]. exists ws; done.
  - intros w _ Hn. by apply Hstart.
Qed.
End fields.

(** Splitting into words. Decoding a text loses no byte, and [FieldsFunc]
    returns, in order, exactly the maximal non-empty stretches of runes that do
    not satisfy the predicate. *)
Theorem FieldsFunc_splits (f : Z -> bool) (s : string) :
  bytesOf (runes s) = s /\ exists ws, splits f (runes s) ws /\ FieldsFunc f s = bytesOf <$> ws.
Proof. split; [apply runes_bytes|]. apply (splitLoop_splits f (runes s)). Qed.

(** Words of a text with a two-byte letter and an invalid byte. *)
Example words_ex :
  words (fun _ => false) (String "a" (String "195" (String "169" (String "160" "b, c1d")))) =
  [String "a" (String "195" (String "169" "")); "b"; "c"; "d"]%string.
Proof. vm_compute. reflexivity. Qed.

(** ** Order of the values *)

Lemma sortStrings_perm l l' : l ≡ₚ l' -> sortStrings l = sortStrings l'.
Proof.
  intros H; unfold sortStrings. apply (StronglySorted_unique String.le); [apply StronglySorted_merge_sort; apply _..|].
  by rewrite !merge_sort_Permutation.
Qed.

(** The reduce functions do not depend on the order of their values, which is
    what [job_equals_sequential] asks of one. *)
Definition orderFree (reducef : string -> list string -> string) : Prop :=
  forall k vs vs', vs ≡ₚ vs' -> reducef k vs = reducef k vs'.

Lemma Wc_orderFree : orderFree Wc.Reduce.
Proof. intros k vs vs' H; unfold Wc.Reduce, len. by rewrite H. Qed.
Lemma Indexer_orderFree : orderFree Indexer.Reduce.
Proof. intros k vs vs' H; unfold Indexer.Reduce, len. by rewrite (sortStrings_perm _ _ H), H. Qed.
Lemma Crash_orderFree : orderFree Crash.Reduce.
Proof. intros k vs vs' H; unfold Crash.Reduce. by rewrite (sortStrings_perm _ _ H). Qed.
Lemma EarlyExit_orderFree : orderFree EarlyExit.Reduce.
Proof. exact Wc_orderFree. Qed.

(** ** Jobs *)

Section jobs.
Context (jsonText : KeyValue -> string) (os : osEnv) (letterAbove : Z -> bool).
Context (order : nat -> gmap string (list string) -> list (string * list string)).
Context (fnames : list string) (nReduce : nat) (fs0 : gmap string (list chunk)).

(** The words of an input file, and of all of them. *)
Definition wordsIn (f : string) : list string := words letterAbove (contents jsonText (default [] (fs0 !! f))).
Definition allWords : list string := concat (wordsIn <$> fnames).

Lemma allEmitted_files mapf :
  allEmitted jsonText mapf fnames fs0 = concat ((fun f => mapf f (contents jsonText (default [] (fs0 !! f)))) <$> fnames).
Proof.
  unfold allEmitted. f_equal. apply list_eq; intros i. rewrite !list_lookup_fmap.
  destruct (decide (i < length fnames)%nat) as [Hi|Hi].
  - destruct (lookup_lt_is_Some_2 fnames i Hi) as [f Hf]. rewrite Hf, lookup_seqZ_lt by (unfold len; lia). simpl. f_equal.
    unfold emitted. replace (1 + Z.of_nat i - 1) with (Z.of_nat i) by lia. unfold idx; case_if; [|lia]. by rewrite Nat2Z.id, Hf.
  - rewrite lookup_seqZ_ge by (unfold len; lia). by rewrite lookup_ge_None_2 by lia.
Qed.

Hypothesis create_ok : forall n, can_create os n = true.
Hypothesis write_ok : forall n, can_write os n = true.
Hypothesis rename_ok : forall n, can_rename os n = true.
Hypothesis order_perm : forall seed mp, order seed mp ≡ₚ map_to_list mp.
Hypothesis inputs_exist : forall f, f ∈ fnames -> is_Some (fs0 !! f) /\ isInput f.
Hypothesis nReduce_pos : (0 < nReduce)%nat.

(** What the output files hold together. *)
Definition output (s : job) : list chunk :=
  concat ((fun y => default [] (files s !! outName y)) <$> seqZ 1 (Z.of_nat nReduce)).

(** The lines of a job whose keys are the words of the inputs. *)
Lemma outLines_words reducef kvs :
  (forall w, w ∈ Key <$> kvs <-> w ∈ allWords) ->
  outLines reducef (grouping kvs) ≡ₚ (fun w => outLine w (reducef w (valuesOf kvs w))) <$> remove_dups allWords.
Proof.
  intros Hk. unfold outLines, grouping. rewrite <- list_fmap_compose.
  assert (HP : keysOf kvs ≡ₚ remove_dups allWords).
  { apply NoDup_Permutation; [apply NoDup_remove_dups..|]. intros w. by rewrite elem_keysOf, elem_of_remove_dups, Hk. }
  by rewrite HP.
Qed.

Lemma fmap_perm {A B} (f g : A -> B) l : (forall x, f x = g x) -> f <$> l ≡ₚ g <$> l.
Proof. intros H; induction l as [|x l IH]; [done|]. by rewrite !fmap_cons, H, IH. Qed.

Lemma wc_emitted : allEmitted jsonText (Wc.Map letterAbove) fnames fs0 = (fun w => mkKeyValue w "1") <$> allWords.
Proof.
  rewrite allEmitted_files. unfold allWords. clear inputs_exist; induction fnames as [|f l IH]; [done|].
  rewrite !fmap_cons; cbn [concat]. by rewrite fmap_app, <- IH.
Qed.

(** How often a word occurs in the inputs. *)
Definition occurrences (w : string) : Z := len (filter (fun v => v = w) allWords).

Lemma wc_values w : len (valuesOf ((fun w => mkKeyValue w "1") <$> allWords) w) = occurrences w.
Proof.
  unfold occurrences, valuesOf, len. rewrite length_fmap. generalize allWords; intros ws; induction ws as [|v l IH]; [done|].
  rewrite fmap_cons, !filter_cons. cbn [Key]. case_decide; [cbn [length]; lia|done].
Qed.

Lemma wc_lines :
  outLines Wc.Reduce (grouping (allEmitted jsonText (Wc.Map letterAbove) fnames fs0))
  ≡ₚ (fun w => outLine w (Itoa (occurrences w))) <$> remove_dups allWords.
Proof.
  rewrite wc_emitted, outLines_words.
  - apply fmap_perm; intros w. unfold Wc.Reduce. by rewrite wc_values.
  - intros w. by rewrite <- list_fmap_compose, list_fmap_id.
Qed.

(** The documents a word occurs in, in the order of the inputs. *)
Definition documents (w : string) : list string := filter (fun f => w ∈ wordsIn f) fnames.

Section indexer.
Context (orderW : gset string -> list string).
Hypothesis orderW_perm : forall X, orderW X ≡ₚ elements X.

Lemma elem_orderW f w : w ∈ orderW (list_to_set (wordsIn f)) <-> w ∈ wordsIn f.
Proof using orderW_perm. by rewrite orderW_perm, elem_of_elements, elem_of_list_to_set. Qed.

Lemma indexer_one f w :
  valuesOf (Indexer.Map letterAbove orderW f (contents jsonText (default [] (fs0 !! f)))) w
  = if decide (w ∈ wordsIn f) then [f] else [].
Proof using orderW_perm.
  unfold Indexer.Map; fold (wordsIn f). assert (Hnd : NoDup (orderW (list_to_set (wordsIn f)))) by (rewrite orderW_perm; apply NoDup_elements).
  assert (Hgen : forall l, NoDup l -> valuesOf ((fun w => mkKeyValue w f) <$> l) w = if decide (w ∈ l) then [f] else []).
  { intros l; induction 1 as [|v l Hv _ IH]; [done|]. unfold valuesOf in *. rewrite fmap_cons, filter_cons. cbn [Key]. destruct (decide (v = w)) as [->|Hne].
    - rewrite fmap_cons; cbn [Value]. rewrite IH, decide_False by done. by rewrite decide_True by (by left).
    - rewrite IH. destruct (decide (w ∈ l)); [by rewrite decide_True by (by right)|]. rewrite decide_False; [done|].
      intros [?|?]%elem_of_cons; congruence. }
  rewrite Hgen by done. destruct (decide (w ∈ wordsIn f)); [rewrite decide_True|rewrite decide_False]; rewrite ?elem_orderW; done.
Qed.

Lemma indexer_values w : valuesOf (allEmitted jsonText (Indexer.Map letterAbove orderW) fnames fs0) w = documents w.
Proof using orderW_perm.
  rewrite allEmitted_files. unfold documents. clear inputs_exist; induction fnames as [|f l IH]; [done|].
  rewrite fmap_cons; cbn [concat]. rewrite valuesOf_app, indexer_one, IH, filter_cons. by case_decide.
Qed.

Lemma indexer_keys w : w ∈ Key <$> allEmitted jsonText (Indexer.Map letterAbove orderW) fnames fs0 <-> w ∈ allWords.
Proof using orderW_perm.
  rewrite allEmitted_files. unfold allWords. clear inputs_exist; induction fnames as [|f l IH]; [done|].
  rewrite !fmap_cons; cbn [concat]. rewrite fmap_app, !elem_of_app, IH. unfold Indexer.Map at 1; fold (wordsIn f).
  rewrite <- list_fmap_compose. cbn [Key compose]. by rewrite list_fmap_id, elem_orderW.
Qed.

Lemma indexer_lines :
  outLines Indexer.Reduce (grouping (allEmitted jsonText (Indexer.Map letterAbove orderW) fnames fs0))
  ≡ₚ (fun w => outLine w (Itoa (len (documents w)) +:+ " " +:+ joinStrings (sortStrings (documents w)) ",")) <$> remove_dups allWords.
Proof using orderW_perm.
  rewrite outLines_words by apply indexer_keys. apply fmap_perm; intros w. unfold Indexer.Reduce. by rewrite indexer_values.
Qed.
End indexer.


(** A distributed index is right. In every execution with the indexer, once
    the job is done the output files together have exactly one line for each
    word of the inputs: the number of documents it occurs in, and their names in
    order; whatever order the map of the words of a document is visited in. *)
Theorem indexer_job orderW s
    (Horder : forall X : gset string, orderW X ≡ₚ elements X)
    (Hrun : rtc (jobStep jsonText os (Indexer.Map letterAbove orderW) Indexer.Reduce order) (jobInit fnames nReduce fs0) s)
    (Hdone : isDone (coord s) = true) :
  output s
  ≡ₚ (fun w => outLine w (Itoa (len (documents w)) +:+ " " +:+ joinStrings (sortStrings (documents w)) ",")) <$> remove_dups allWords.
Proof using create_ok write_ok rename_ok order_perm inputs_exist nReduce_pos.
  destruct (job_output jsonText os (Indexer.Map letterAbove orderW) Indexer.Reduce order fnames nReduce fs0 s) as [_ Hout]; try done.
  etrans; [exact Hout|by apply indexer_lines].
Qed.
End jobs.

(** ** Concrete jobs *)

(** Two inputs and one reduce task. *)
Definition ex_fs : gmap string (list chunk) := {["x" := [Txt "a b, a"]; "y" := [Txt "b"]]}.
Definition ex_job : job := jobInit ["x"; "y"] 1 ex_fs.
Definition ex_cmds : list jobCmd :=
  [CRequest 0; CWork 0; CReport 0; CRequest 1; CWork 0; CReport 0; CRequest 2; CWork 0; CReport 0; CRequest 3].
Definition ex_end mapf reducef : job := default ex_job (demoRun mapf reducef ex_cmds ex_job).

Lemma ex_end_reached mapf reducef :
  is_Some (demoRun mapf reducef ex_cmds ex_job) -> rtc (demoStep mapf reducef) ex_job (ex_end mapf reducef).
Proof.
  intros [s Hs]. unfold ex_end. rewrite Hs. by apply (demoRun_reach mapf reducef ex_cmds).
Qed.

Lemma ex_inputs f : f ∈ ["x"; "y"] -> is_Some (ex_fs !! f) /\ isInput f.
Proof.
  intros Hf. repeat (apply elem_of_cons in Hf as [->|Hf]; [split; [by eexists|done]|]). by apply not_elem_of_nil in Hf.
Qed.

Definition noLetter (_ : Z) : bool := false.
Definition wcEnd : job := ex_end (Wc.Map noLetter) Wc.Reduce.
Definition indexEnd : job := ex_end (Indexer.Map noLetter elements) Indexer.Reduce.

Lemma is_Some_true {A} (o : option A) : match o with Some _ => true | None => false end = true -> is_Some o.
Proof. destruct o; [eauto|done]. Qed.

Lemma wcEnd_reached : rtc (demoStep (Wc.Map noLetter) Wc.Reduce) ex_job wcEnd.
Proof. apply ex_end_reached, is_Some_true. vm_compute. reflexivity. Qed.
Lemma indexEnd_reached : rtc (demoStep (Indexer.Map noLetter elements) Indexer.Reduce) ex_job indexEnd.
Proof. apply ex_end_reached, is_Some_true. vm_compute. reflexivity. Qed.


Lemma indexer_job_witness :
  isDone (coord indexEnd) = true
  /\ output 1 indexEnd ≡ₚ [outLine "a" "1 x"; outLine "b" "2 x,y"].
Proof.
  assert (Hd : isDone (coord indexEnd) = true) by (vm_compute; reflexivity). split; [exact Hd|].
  etrans; [apply (indexer_job (fun _ => "") demoOs noLetter (fun _ => map_to_list) ["x"; "y"] 1 ex_fs
    (fun _ => eq_refl) (fun _ => eq_refl) (fun _ => eq_refl) (fun _ mp => Permutation_refl _) ex_inputs (le_n 1) elements indexEnd
    (fun X => Permutation_refl _) indexEnd_reached Hd)|].
  apply eq_subrelation; [apply _|]. vm_compute. reflexivity.
Defined.
