(* ===== verification/MrTiming.v ===== *)
(** * MapReduce: the plugins that measure a run

    Models [nparallel] of [mtiming.go] and [rtiming.go], the file that the [Map]
    of [jobcount.go] writes, and [maybeCrash] of [crash.go] and [nocrash.go]: the
    plugins with which the tests see how many workers run at a time, how often
    tasks are executed, and that lost workers are replaced.

    The working directory is the set of its names; workers are processes with an
    identifier, alive or not. An execution of [nparallel] is three steps: it
    writes its file, it scans the directory (in any order), it removes its file.
    Processes start and die (and are reaped) at any time; identifiers are not
    used twice. [Map] of [mtiming.go] runs it for the phase "map", [Reduce] of
    [rtiming.go] for the phase "reduce".

    [Sscanf] is the one of Go's [fmt], for a format that ends in [%d]. *)

From S2P Require Import Prelude GoFmt MrCoordinator MrWorker MrApps.
From Stdlib Require Import Ascii.

#[local] Open Scope string_scope.
#[local] Open Scope list_scope.
#[local] Open Scope Z_scope.

(** ** Scanning a number *)

(** The table [space] of [fmt/scan.go]. *)
Definition isSpace (r : Z) : bool :=
  within 0x9 0xd r || (r =? 0x20) || (r =? 0x85) || (r =? 0xa0) || (r =? 0x1680) || within 0x2000 0x200a r
  || within 0x2028 0x2029 r || (r =? 0x202f) || (r =? 0x205f) || (r =? 0x3000).

(** [SkipSpace]; [None]: an unexpected newline. *)
Fixpoint skipSpace (fuel : nat) (s : string) : option string :=
  match fuel, s with
  | S fuel, String c rest =>
      let '((r, _), rest) := decodeRune c rest in
      if r =? 0x0a then None else if isSpace r then skipSpace fuel rest else Some s
  | _, _ => Some s
  end.

Definition digitOf (c : ascii) : option Z :=
  if within 0x30 0x39 (byteOf c) then Some (byteOf c - 0x30) else None.

(** The value of the leading digits; [None] if there are none. *)
Fixpoint digits (acc : option Z) (s : string) : option Z :=
  match s with
  | "" => acc
  | String c s => match digitOf c with Some d => digits (Some (10 * default 0 acc + d)) s | None => acc end
  end.

(** The verb [%d] for an [int]. *)
Definition scanInt (s : string) : option Z :=
  s ← skipSpace (String.length s) s;
  let '(sign, s) :=
    match s with
    | String c rest => if Ascii.eqb c "-" then (-1, rest) else if Ascii.eqb c "+" then (1, rest) else (1, s)
    | "" => (1, s)
    end in
  v ← digits None s;
  let v := sign * v in
  if (- 2 ^ 63 <=? v) && (v <? 2 ^ 63) then Some v else None.

Fixpoint stripPrefix (p s : string) : option string :=
  match p, s with
  | "", s => Some s
  | String a p, String b s => if Ascii.eqb a b then stripPrefix p s else None
  | _, "" => None
  end.

(** [Sscanf(s, prefix + "%d", &x)], where it succeeds. *)
Definition Sscanf (s prefix : string) : option Z := s ← stripPrefix prefix s; scanInt s.

(** ** nparallel *)

Definition phaseName (phase : string) : string := "mr-worker-" +:+ phase +:+ "-".
Definition myfilename (phase : string) (pid : Z) : string := phaseName phase +:+ pretty pid.

(** The loop over the names; [alive] is what [Kill(xpid, 0)] finds. *)
Fixpoint countLoop (phase : string) (alive : Z -> bool) (names : list string) (ret : Z) : Z :=
  match names with
  | [] => ret
  | name :: names =>
      countLoop phase alive names
        (match Sscanf name (phaseName phase) with Some xpid => if alive xpid then ret + 1 else ret | None => ret end)
  end.

Inductive npStage : Type := NpWrote | NpScanned (ret : Z).

Record machine : Type := mkMachine {
  mc_dir : gset string;
  mc_alive : gset Z;
  mc_used : gset Z;
  mc_run : gmap Z (string * npStage);    (* who is in nparallel, of which phase *)
  mc_returned : list (Z * Z);            (* what it has returned, to whom *)
}.

Inductive mcEvent : Type :=
| McStart (pid : Z)
| McDie (pid : Z)
| McWrite (phase : string) (pid : Z)
| McScan (pid : Z) (names : list string)  (* [names]: the directory, in some order *)
| McRemove (pid : Z).

Definition mcStep (mc : machine) (ev : mcEvent) : option machine :=
  match ev with
  | McStart pid =>
      if decide (pid ∉ mc_used mc /\ 0 < pid < 2 ^ 22)
      then Some (mkMachine (mc_dir mc) ({[pid]} ∪ mc_alive mc) ({[pid]} ∪ mc_used mc) (mc_run mc) (mc_returned mc))
      else None
  | McDie pid =>
      Some (mkMachine (mc_dir mc) (mc_alive mc ∖ {[pid]}) (mc_used mc) (delete pid (mc_run mc)) (mc_returned mc))
  | McWrite phase pid =>
      if decide (pid ∈ mc_alive mc /\ mc_run mc !! pid = None)
      then Some (mkMachine ({[myfilename phase pid]} ∪ mc_dir mc) (mc_alive mc) (mc_used mc)
                   (<[pid := (phase, NpWrote)]> (mc_run mc)) (mc_returned mc))
      else None
  | McScan pid names =>
      '(phase, st) ← mc_run mc !! pid;
      match st with
      | NpWrote =>
          if decide (names ≡ₚ elements (mc_dir mc)) then
            let ret := countLoop phase (fun x => bool_decide (x ∈ mc_alive mc)) names 0 in
            Some (mkMachine (mc_dir mc) (mc_alive mc) (mc_used mc) (<[pid := (phase, NpScanned ret)]> (mc_run mc)) (mc_returned mc))
          else None
      | NpScanned _ => None
      end
  | McRemove pid =>
      '(phase, st) ← mc_run mc !! pid;
      match st with
      | NpScanned ret =>
          if decide (myfilename phase pid ∈ mc_dir mc)
          then Some (mkMachine (mc_dir mc ∖ {[myfilename phase pid]}) (mc_alive mc) (mc_used mc)
                       (delete pid (mc_run mc)) (mc_returned mc ++ [(pid, ret)]))
          else None                              (* panic *)
      | NpWrote => None
      end
  end.

Fixpoint mcRun (mc : machine) (evs : list mcEvent) : option machine :=
  match evs with
  | [] => Some mc
  | ev :: evs => mc ← mcStep mc ev; mcRun mc evs
  end.

(** [names0]: what is in the directory when the test starts. *)
Definition mcInit (names0 : gset string) : machine := mkMachine names0 ∅ ∅ ∅ [].

(** The workers that are in [nparallel] of a phase. *)
Definition running (phase : string) (mc : machine) : gset Z :=
  dom (filter (fun x : Z * (string * npStage) => x.2.1 = phase) (mc_run mc)).

(** ** Names and identifiers *)

Lemma digit_char n : (n < 10)%N -> digitOf (pretty_N_char n) = Some (Z.of_N n).
Proof.
  intros Hn; destruct n as [|m]; [done|]. do 4 (try destruct m as [m|m|]); try done; exfalso; lia.
Qed.

Lemma digits_pretty (n : N) : forall s,
  digits None (pretty_N_go n s) = digits (if decide (n = 0)%N then None else Some (Z.of_N n)) s.
Proof.
  induction (N.lt_wf_0 n) as [n _ IH]; intros s. destruct (decide (0 < n)%N) as [Hn|Hn].
  - rewrite pretty_N_go_step by done. rewrite IH by (by apply N.div_lt). rewrite (decide_False (P := n = 0%N)) by lia.
    simpl. rewrite digit_char by (by apply N.mod_lt). f_equal; f_equal.
    pose proof (N.div_mod n 10 ltac:(done)) as Hd. case_decide as E; simpl; lia.
  - replace n with 0%N by lia. by rewrite pretty_N_go_0.
Qed.

Definition startsWithDigit (s : string) : Prop := match s with String c _ => is_Some (digitOf c) | "" => False end.

Lemma pretty_starts (n : N) : forall s, startsWithDigit s \/ (0 < n)%N -> startsWithDigit (pretty_N_go n s).
Proof.
  induction (N.lt_wf_0 n) as [n _ IH]; intros s Hs. destruct (decide (0 < n)%N) as [Hn|Hn].
  - rewrite pretty_N_go_step by done. apply IH; [by apply N.div_lt|]. left; simpl.
    rewrite digit_char by (by apply N.mod_lt). eauto.
  - replace n with 0%N by lia. rewrite pretty_N_go_0. by destruct Hs.
Qed.

Lemma skipSpace_digit fuel s : startsWithDigit s -> skipSpace fuel s = Some s.
Proof.
  destruct fuel as [|fuel], s as [|c s]; try done. intros [d Hd]. unfold digitOf, within in Hd; case_if_in Hd; [|done].
  cbn [skipSpace]. unfold decodeRune. destruct (byteOf c <? 0x80) eqn:E1; [|zbool; lia].
  destruct (byteOf c =? 0x0a) eqn:E2; [zbool; lia|]. replace (isSpace (byteOf c)) with false; [done|].
  symmetry; unfold isSpace, within. rewrite !orb_false_iff, !andb_false_iff, !Z.leb_gt, !Z.eqb_neq. zbool; lia.
Qed.

Lemma scanInt_pretty (pid : Z) : 0 < pid < 2 ^ 63 -> scanInt (pretty pid) = Some pid.
Proof.
  intros Hpid. destruct pid as [|p|p]; [lia| |lia]. change (pretty (Z.pos p)) with (pretty (N.pos p)).
  assert (Ep : pretty (N.pos p) = pretty_N_go (N.pos p) "") by done.
  assert (Hs : startsWithDigit (pretty (N.pos p))) by (rewrite Ep; apply pretty_starts; right; lia).
  assert (Hd : digits None (pretty (N.pos p)) = Some (Z.pos p)) by (rewrite Ep, digits_pretty; done).
  unfold scanInt. rewrite skipSpace_digit by done. cbn [mbind option_bind].
  destruct (pretty (N.pos p)) as [|c s]; [done|]. destruct Hs as [d Hc].
  assert (Ascii.eqb c "-" = false) as -> by (apply Ascii.eqb_neq; intros ->; done).
  assert (Ascii.eqb c "+" = false) as -> by (apply Ascii.eqb_neq; intros ->; done).
  rewrite Hd; cbn [mbind option_bind]. rewrite Z.mul_1_l. case_if; [done|]. zbool; lia.
Qed.

Lemma stripPrefix_app p s : stripPrefix p (p +:+ s) = Some s.
Proof. induction p as [|c p IH]; [done|]. change (String c p +:+ s) with (String c (p +:+ s)). simpl. by rewrite Ascii.eqb_refl. Qed.

Definition phaseOk (phase : string) : Prop := phase = "map" \/ phase = "reduce".

(** A worker finds the identifiers of its own phase. *)
Lemma Sscanf_myfilename phase (pid : Z) : 0 < pid < 2 ^ 63 -> Sscanf (myfilename phase pid) (phaseName phase) = Some pid.
Proof. intros Hpid. unfold Sscanf, myfilename. rewrite stripPrefix_app; cbn [mbind option_bind]. by apply scanInt_pretty. Qed.

Lemma Sscanf_other phase phase' (pid : Z) : phaseOk phase -> phaseOk phase' -> phase <> phase' -> Sscanf (myfilename phase' pid) (phaseName phase) = None.
Proof. intros [->| ->] [->| ->]; done. Qed.

Lemma myfilename_inj phase (p q : Z) : 0 < p < 2 ^ 63 -> 0 < q < 2 ^ 63 -> myfilename phase p = myfilename phase q -> p = q.
Proof. intros Hp Hq E. apply (Sscanf_myfilename phase) in Hp, Hq. rewrite E in Hp. congruence. Qed.

(** ** The workers that nparallel counts *)

Section counting.
Implicit Types (mc : machine) (before : gset string) (phase : string) (pid : Z).

(** No name matches that is not the file of a worker. *)
Definition foreign before : Prop :=
  forall phase name, phaseOk phase -> name ∈ before -> Sscanf name (phaseName phase) = None.

Definition phasesOk (ev : mcEvent) : Prop := match ev with McWrite phase _ => phaseOk phase | _ => True end.

Record mcInv before mc : Prop := {
  mi_used : mc_alive mc ⊆ mc_used mc;
  mi_pids : forall pid, pid ∈ mc_used mc -> 0 < pid < 2 ^ 22;
  mi_run : forall pid phase st, mc_run mc !! pid = Some (phase, st) ->
    pid ∈ mc_alive mc /\ phaseOk phase /\ myfilename phase pid ∈ mc_dir mc;
  mi_dir : forall name, name ∈ mc_dir mc -> name ∈ before \/ exists phase pid,
    name = myfilename phase pid /\ phaseOk phase /\ pid ∈ mc_used mc
    /\ (pid ∈ mc_alive mc -> exists st, mc_run mc !! pid = Some (phase, st));
}.

Lemma mcInv_init before : mcInv before (mcInit before).
Proof. split; simpl; set_solver. Qed.

Lemma mcInv_start before mc mc' pid : mcInv before mc -> mcStep mc (McStart pid) = Some mc' -> mcInv before mc'.
Proof.
  simpl; intros [] H; case_decide as Hp; [|done]; injection H as <-. destruct Hp as [Hnew Hpid]. split; simpl; [set_solver|..].
  - intros p [->%elem_of_singleton|]%elem_of_union; [done|auto].
  - intros p phase st Hr; destruct (mi_run0 p phase st Hr) as (? & ? & ?); split_and!; [set_solver|done|done].
  - intros name Hn; destruct (mi_dir0 name Hn) as [|(phase & p & -> & ? & Hu & Hr)]; [by left|right].
    exists phase, p; split_and!; [done|done|set_solver|]. intros [->%elem_of_singleton|]%elem_of_union; [done|auto].
Qed.

Lemma mcInv_die before mc mc' pid : mcInv before mc -> mcStep mc (McDie pid) = Some mc' -> mcInv before mc'.
Proof.
  simpl; intros [] H; injection H as <-. split; simpl; [set_solver|done| |].
  - intros p phase st [Hne Hr]%lookup_delete_Some; destruct (mi_run0 p phase st Hr) as (? & ? & ?); split_and!; [set_solver|done|done].
  - intros name Hn; destruct (mi_dir0 name Hn) as [|(phase & p & -> & ? & Hu & Hr)]; [by left|right].
    exists phase, p; split_and!; [done|done|done|]. intros [Ha Hne]%elem_of_difference. rewrite lookup_delete_ne by set_solver. auto.
Qed.

Lemma mcInv_write before mc mc' phase pid :
  mcInv before mc -> phaseOk phase -> mcStep mc (McWrite phase pid) = Some mc' -> mcInv before mc'.
Proof.
  simpl; intros [] Hok H; case_decide as Hp; [|done]; injection H as <-. destruct Hp as [Ha Hnone]. split; simpl; [done|done| |].
  - intros p q st [[<- [= <- <-]]|[Hne Hr]]%lookup_insert_Some; [split_and!; [done|done|set_solver]|].
    destruct (mi_run0 p q st Hr) as (? & ? & ?); split_and!; [done|done|set_solver].
  - intros name [->%elem_of_singleton|Hn]%elem_of_union.
    + right; exists phase, pid; split_and!; [done|done|set_solver|]. intros _; rewrite lookup_insert_eq; eauto.
    + destruct (mi_dir0 name Hn) as [|(q & p & -> & ? & Hu & Hr)]; [by left|right]. exists q, p; split_and!; [done|done|done|].
      intros Hal; destruct (Hr Hal) as [st Hst]. rewrite lookup_insert_ne by congruence. eauto.
Qed.

Lemma mcInv_scan before mc mc' pid names : mcInv before mc -> mcStep mc (McScan pid names) = Some mc' -> mcInv before mc'.
Proof.
  simpl; intros [] H. destruct (mc_run mc !! pid) as [[phase [|]]|] eqn:Er; try done; cbn [mbind option_bind] in H.
  case_decide; [|done]; injection H as <-. split; simpl; [done|done| |].
  - intros p q st [[<- [= <- <-]]|[Hne Hr]]%lookup_insert_Some; eauto.
  - intros name Hn; destruct (mi_dir0 name Hn) as [|(q & p & -> & ? & Hu & Hr)]; [by left|right]. exists q, p; split_and!; [done|done|done|].
    intros Hal; destruct (Hr Hal) as [st Hst]. destruct (decide (pid = p)) as [->|]; [|rewrite lookup_insert_ne by done; eauto].
    rewrite lookup_insert_eq. rewrite Er in Hst; injection Hst as <- <-. eauto.
Qed.

Lemma mcInv_remove before mc mc' pid : mcInv before mc -> mcStep mc (McRemove pid) = Some mc' -> mcInv before mc'.
Proof.
  simpl; intros [] H. destruct (mc_run mc !! pid) as [[phase [|ret]]|] eqn:Er; try done; cbn [mbind option_bind] in H.
  case_decide; [|done]; injection H as <-. destruct (mi_run0 pid phase _ Er) as (Hal & Hok & _). split; simpl; [done|done| |].
  - intros p q st [Hne Hr]%lookup_delete_Some. destruct (mi_run0 p q st Hr) as (Hp & Hq & Hin). split_and!; [done|done|].
    apply elem_of_difference; split; [done|]. intros E%elem_of_singleton. destruct (decide (q = phase)) as [->|Hneq].
    + apply myfilename_inj in E; [done|..]; assert (2 ^ 22 < 2 ^ 63) by done;
        [pose proof (mi_pids0 p (mi_used0 _ Hp))|pose proof (mi_pids0 pid (mi_used0 _ Hal))]; lia.
    + pose proof (Sscanf_other q phase pid Hq Hok Hneq) as Hs. rewrite <- E, Sscanf_myfilename in Hs; [done|].
      pose proof (mi_pids0 p (mi_used0 _ Hp)); assert (2 ^ 22 < 2 ^ 63) by done; lia.
  - intros name [Hn Hne]%elem_of_difference; destruct (mi_dir0 name Hn) as [|(q & p & -> & ? & Hu & Hr)]; [by left|right].
    exists q, p; split_and!; [done|done|done|]. intros Hp; destruct (Hr Hp) as [st Hst].
    rewrite lookup_delete_ne; [eauto|]. intros ->. rewrite Er in Hst; injection Hst as -> _. set_solver.
Qed.

Lemma mcInv_run before mc mc' evs : mcInv before mc -> Forall phasesOk evs -> mcRun mc evs = Some mc' -> mcInv before mc'.
Proof.
  intros HI Hev; revert mc HI; induction Hev as [|ev evs Hok Hev IH]; simpl; intros mc HI HR; [by injection HR as <-|].
  destruct (mcStep mc ev) as [mc1|] eqn:E; [|done]; cbn [mbind option_bind] in HR. apply (IH mc1); [|done].
  destruct ev; [by eapply mcInv_start|by eapply mcInv_die|by eapply mcInv_write|by eapply mcInv_scan|by eapply mcInv_remove].
Qed.

(** What the loop counts, in any order of the names. *)
Definition counted phase (alive : Z -> bool) (name : string) : Prop :=
  exists x, Sscanf name (phaseName phase) = Some x /\ alive x = true.

#[local] Instance counted_dec phase alive name : Decision (counted phase alive name).
Proof.
  unfold counted. destruct (Sscanf name (phaseName phase)) as [x|]; [|by right; intros (? & ? & _)].
  destruct (alive x) eqn:E; [left; eauto|right; intros (y & [= <-] & ?); congruence].
Defined.

Lemma countLoop_spec phase alive names ret :
  countLoop phase alive names ret = ret + len (filter (counted phase alive) names).
Proof.
  revert ret; induction names as [|name names IH]; intros ret; cbn [countLoop]; [by rewrite filter_nil, len_nil, Z.add_0_r|].
  rewrite IH, filter_cons. unfold counted at 2. case_decide as E.
  - destruct E as (x & -> & ->). rewrite len_cons; lia.
  - destruct (Sscanf name (phaseName phase)) as [x|]; [|done]. destruct (alive x) eqn:Ea; [|done]. destruct E; eauto.
Qed.

Lemma running_lookup phase mc pid : pid ∈ running phase mc <-> exists st, mc_run mc !! pid = Some (phase, st).
Proof.
  unfold running. rewrite elem_of_dom. split.
  - intros [[q st] Hq]. apply map_lookup_filter_Some in Hq as [Hq E]; simpl in E; subst. eauto.
  - intros [st Hst]. exists (phase, st). by apply map_lookup_filter_Some.
Qed.

Lemma count_running before phase mc names :
  foreign before -> mcInv before mc -> phaseOk phase -> names ≡ₚ elements (mc_dir mc) ->
  countLoop phase (fun x => bool_decide (x ∈ mc_alive mc)) names 0 = Z.of_nat (size (running phase mc)).
Proof.
  intros Hf [] Hok Hp. rewrite countLoop_spec, Z.add_0_l. unfold len; f_equal. rewrite Hp.
  assert (Hpid : forall p, p ∈ mc_used mc -> 0 < p < 2 ^ 63) by (intros p Hx; pose proof (mi_pids0 p Hx); assert (2 ^ 22 < 2 ^ 63) by done; lia).
  assert (E : filter (counted phase (fun x => bool_decide (x ∈ mc_alive mc))) (elements (mc_dir mc))
          ≡ₚ myfilename phase <$> elements (running phase mc)); [|by rewrite E, length_fmap].
  apply NoDup_Permutation; [apply NoDup_filter, NoDup_elements| |].
  - apply NoDup_fmap_2_strong; [|apply NoDup_elements]. intros x y Hx Hy.
    apply elem_of_elements, running_lookup in Hx as [? Hx], Hy as [? Hy]. apply mi_run0 in Hx as (? & _), Hy as (? & _).
    apply myfilename_inj; auto.
  - intros name; rewrite list_elem_of_filter, elem_of_elements, list_elem_of_fmap; split.
    + intros [(x & Hx & Hal) Hn]. apply bool_decide_eq_true in Hal. destruct (mi_dir0 name Hn) as [H0|(q & p & -> & Hq & Hu & Hr)].
      * by rewrite (Hf phase name Hok H0) in Hx.
      * destruct (decide (q = phase)) as [->|Hne]; [|by rewrite (Sscanf_other phase q p Hok Hq (not_eq_sym Hne)) in Hx].
        rewrite Sscanf_myfilename in Hx by auto. injection Hx as ->. exists x; split; [done|].
        by apply elem_of_elements, running_lookup, Hr.
    + intros (p & -> & Hin). apply elem_of_elements, running_lookup in Hin as [st Hst]. destruct (mi_run0 p phase st Hst) as (Hal & _ & Hn).
      split; [|done]. exists p; split; [apply Sscanf_myfilename; auto|by apply bool_decide_eq_true].
Qed.

End counting.

(** Two workers, one of which dies in the middle; a file of an earlier run. *)
Definition ex_before : gset string := {["mr-worker-map-x"; "pg-tom_sawyer.txt"]}.
Definition ex_machine : option machine :=
  mcRun (mcInit ex_before)
    [McStart 41; McStart 7; McStart 40; McWrite "map" 41; McWrite "map" 7; McWrite "map" 40; McDie 7].
Definition ex_mc : machine := default (mcInit ∅) ex_machine.

Lemma ex_before_foreign : foreign ex_before.
Proof.
  intros phase name Hok Hn. unfold ex_before in Hn.
  destruct Hok as [->| ->]; apply elem_of_union in Hn as [->%elem_of_singleton| ->%elem_of_singleton]; vm_compute; reflexivity.
Qed.

Lemma ex_machine_some : ex_machine = Some ex_mc.
Proof. vm_compute; reflexivity. Qed.

Lemma ex_machine_at : mc_run ex_mc !! 41 = Some ("map", NpWrote) /\ size (running "map" ex_mc) = 2%nat.
Proof. split; vm_compute; reflexivity. Qed.


(** What [Map] of [mtiming.go] emits: [ts] is the clock, printed with ["%.1f"]. *)
Module MTiming.
Definition Map (pid n : Z) (ts : string) : list KeyValue :=
  [mkKeyValue ("times-" +:+ pretty pid) ts; mkKeyValue ("parallel-" +:+ pretty pid) (Itoa n)].
Definition Reduce (key : string) (values : list string) : string := joinStrings (sortStrings values) " ".
End MTiming.

(** ** maybeCrash

    [rr] and [ms] are the random draws, below 1000 and below 10000. *)

Inductive fate : Type := Exits | Delays (ms : Z) | Proceeds.

Module MaybeCrash.
Definition crash (rr ms : Z) : fate := if rr <? 330 then Exits else if rr <? 660 then Delays ms else Proceeds.
Definition nocrash (rr : Z) : fate := if false && (rr <? 500) then Exits else Proceeds.

(** The functions of [crash.go]; [None]: the worker is gone. *)
Definition Map (rr ms : Z) (filename contents : string) : option (list KeyValue) :=
  match crash rr ms with Exits => None | _ => Some (Crash.Map filename contents) end.
Definition Reduce (rr ms : Z) (key : string) (values : list string) : option string :=
  match crash rr ms with Exits => None | _ => Some (Crash.Reduce key values) end.
End MaybeCrash.

(** ** jobcount

    A worker keeps the number of its calls in [count]; every call leaves a file. *)

Record jobDir : Type := mkJobDir { jd_names : gset string; jd_count : gmap Z Z }.

Definition jobFile (pid count : Z) : string := "mr-worker-jobcount-" +:+ pretty pid +:+ "-" +:+ pretty count.

Definition jobMap (pid : Z) (d : jobDir) : jobDir :=
  let count := default 0 (jd_count d !! pid) in
  mkJobDir ({[jobFile pid count]} ∪ jd_names d) (<[pid := count + 1]> (jd_count d)).

Section jobcount.
Implicit Types (d : jobDir) (pids : list Z) (before : gset string).

Definition isJobFile (name : string) : Prop := HasPrefix name "mr-worker-jobcount" = true.

Lemma jobFile_prefix (pid c : Z) : isJobFile (jobFile pid c).
Proof. unfold isJobFile, HasPrefix, jobFile. simpl. destruct (pretty pid); done. Qed.

Lemma jobFile_inj (p c q c' : Z) : 0 <= p -> 0 <= q -> 0 <= c -> 0 <= c' -> jobFile p c = jobFile q c' -> p = q /\ c = c'.
Proof.
  intros Hp Hq Hc Hc' E. unfold jobFile in E.
  assert (Hd : forall n, pretty_N_char n <> "-"%char) by (apply digit_neq; reflexivity).
  apply (f_equal (stripPrefix "mr-worker-jobcount-")) in E. rewrite !stripPrefix_app in E. injection E as E.
  apply (noChar_split "-"%char) in E as [E1 E2]; [|by apply pretty_nonneg_noChar..].
  split; by apply (inj pretty).
Qed.

Record jobInv (k : nat) d : Prop := {
  ji_count : size (filter isJobFile (jd_names d)) = k;
  ji_pos : forall p c, jd_count d !! p = Some c -> 0 <= c;
  ji_low : forall name, name ∈ jd_names d -> isJobFile name -> exists p c,
    name = jobFile p c /\ 0 <= p /\ 0 <= c < default 0 (jd_count d !! p);
}.

Lemma jobInv_step before k d pid : 0 <= pid -> jobInv k d -> jobInv (S k) (jobMap pid d).
Proof.
  intros Hpid []. unfold jobMap. set (count := default 0 (jd_count d !! pid)).
  assert (Hc : 0 <= count) by (unfold count; destruct (jd_count d !! pid) eqn:E; simpl; [by eapply ji_pos0|lia]).
  assert (Hnew : jobFile pid count ∉ jd_names d).
  { intros Hin. destruct (ji_low0 _ Hin (jobFile_prefix _ _)) as (p & c & E & ? & ?).
    apply jobFile_inj in E as [<- <-]; try lia. }
  split; simpl.
  - assert (E : filter isJobFile ({[jobFile pid count]} ∪ jd_names d) = {[jobFile pid count]} ∪ filter isJobFile (jd_names d)).
    { apply set_eq; intros x. rewrite elem_of_filter, !elem_of_union, elem_of_filter, elem_of_singleton.
      split; [tauto|]. intros [->|]; [split; [apply jobFile_prefix|by left]|tauto]. }
    rewrite E, size_union, size_singleton; [by rewrite ji_count0|]. intros x ->%elem_of_singleton [_ Hx]%elem_of_filter. done.
  - intros p c [[<- <-]|[_ ?]]%lookup_insert_Some; [lia|eauto].
  - intros name [->%elem_of_singleton|Hn]%elem_of_union Hj.
    + exists pid, count; rewrite lookup_insert_eq; simpl. split_and!; done || lia.
    + destruct (ji_low0 name Hn Hj) as (p & c & -> & ? & Hlt). exists p, c; split; [done|]. split; [done|].
      destruct (decide (pid = p)) as [->|]; [rewrite lookup_insert_eq; simpl; fold count in Hlt; lia|by rewrite lookup_insert_ne].
Qed.

(** [jobcount] counts executions. Whatever workers execute map tasks, in
    whatever order, [Reduce] gives the number of executions since the test began
    with a directory without such files. *)
Theorem jobcount_counts before pids names :
  Forall (fun pid => 0 <= pid) pids -> (forall name, name ∈ before -> ~ isJobFile name) ->
  names ≡ₚ elements (jd_names (foldl (fun d pid => jobMap pid d) (mkJobDir before ∅) pids)) ->
  forall key values, JobCount.Reduce names key values = Itoa (len pids).
Proof.
  intros Hpids Hb Hp key values. unfold JobCount.Reduce; f_equal.
  assert (Hloop : forall l ret, foldl (fun invocations f => if HasPrefix f "mr-worker-jobcount" then invocations + 1 else invocations) ret l
            = ret + len (filter isJobFile l)).
  { induction l as [|x l IH]; intros ret; simpl; [by rewrite filter_nil, len_nil, Z.add_0_r|].
    rewrite IH, filter_cons. unfold isJobFile at 2. case_decide as E; [rewrite E, len_cons; lia|]. by destruct (HasPrefix x _). }
  rewrite Hloop, Z.add_0_l. unfold len; f_equal. rewrite Hp.
  set (d := foldl _ _ _). assert (HI : jobInv (length pids) d).
  { assert (H0 : jobInv 0 (mkJobDir before ∅)).
    { split; simpl; [|by intros p c; rewrite lookup_empty|intros name Hn Hj; by destruct (Hb name Hn)].
      apply size_empty_iff, equiv_empty. intros x [Hj Hx]%elem_of_filter. by destruct (Hb x Hx). }
    unfold d; clear d Hp. replace (length pids) with (0 + length pids)%nat by done. revert H0. generalize 0%nat, (mkJobDir before ∅).
    induction Hpids as [|pid pids Hpid Hpids IH]; intros k d Hk; simpl; [by rewrite Nat.add_0_r|].
    rewrite <- Nat.add_succ_comm. apply IH. by apply jobInv_step. }
  rewrite <- (ji_count _ _ HI). unfold size, set_size; simpl. apply Permutation_length, NoDup_Permutation.
  - apply NoDup_filter, NoDup_elements.
  - apply NoDup_elements.
  - intros x. rewrite list_elem_of_filter, !elem_of_elements, elem_of_filter. done.
Qed.
End jobcount.

Lemma jobcount_counts_witness :
  JobCount.Reduce (elements (jd_names (foldl (fun d pid => jobMap pid d) (mkJobDir ∅ ∅) [7; 12; 7]))) "a" ["x"] = "3".
Proof.
  refine (jobcount_counts ∅ [7; 12; 7] _ _ _ (Permutation_refl _) "a" ["x"]).
  - repeat constructor; lia.
  - intros name Hn; by apply elem_of_empty in Hn.
Defined.
