(* ===== verification/Bitset.v ===== *)
(** * porcupine: bitsets

    Models [porcupine/bitset.go]: a slice of 64-bit words. Out-of-range positions
    panic ([None]). [set] and [clear] change the slice in place in Go and return
    it; the checker only applies them to its own slice or to a fresh [clone], so
    no other holder of the slice sees the change. *)

From S2P Require Import Prelude.

#[local] Open Scope Z_scope.

Definition bitset : Type := list Z.

Definition newBitset (bits : Z) : bitset :=
  let extra := if negb (bits mod 64 =? 0) then 1 else 0 in
  replicate (Z.to_nat (bits / 64 + extra)) 0.

Definition bclone (b : bitset) : bitset := b.

Definition bitsetIndex (pos : Z) : Z * Z := (pos / 64, pos mod 64).

Definition bset (b : bitset) (pos : Z) : option bitset :=
  let '(major, minor) := bitsetIndex pos in
  w ← idx b major; upd b major (Z.lor w (Z.shiftl 1 minor)).

(** [&^=] clears the bits of its right operand. *)
Definition bclear (b : bitset) (pos : Z) : option bitset :=
  let '(major, minor) := bitsetIndex pos in
  w ← idx b major; upd b major (Z.ldiff w (Z.shiftl 1 minor)).

Definition bget (b : bitset) (pos : Z) : option bool :=
  let '(major, minor) := bitsetIndex pos in
  w ← idx b major; Some (negb (Z.land w (Z.shiftl 1 minor) =? 0)).

(** [bits.OnesCount64] *)
Definition onesCount64 (w : Z) : Z :=
  foldr (fun i c => (if Z.testbit w i then 1 else 0) + c) 0 (seqZ 0 64).

Definition popcnt (b : bitset) : Z := foldl (fun total v => total + onesCount64 v) 0 b.

Definition bhash (b : bitset) : Z := foldl Z.lxor (popcnt b) b.

Fixpoint wordsEqual (b b2 : bitset) : bool :=
  match b, b2 with
  | v :: b, v2 :: b2 => if negb (v =? v2) then false else wordsEqual b b2
  | _, _ => true
  end.

Definition bequals (b b2 : bitset) : bool :=
  if negb (len b =? len b2) then false else wordsEqual b b2.

(** ** A bitset is a set of positions *)

Section bitset.
Implicit Types (b : bitset) (pos : Z).

Lemma bequals_eq b b2 : bequals b b2 = true <-> b = b2.
Proof.
  unfold bequals; split.
  - destruct (len b =? len b2) eqn:E; [|done]; zbool; simpl.
    unfold len in E; assert (Hl : length b = length b2) by lia; clear E.
    revert b2 Hl; induction b as [|v b IH]; intros [|v2 b2] Hl; simpl in *; try done.
    case_if; [done|]. intros; f_equal; [lia|apply IH; [lia|done]].
  - intros <-; rewrite Z.eqb_refl; simpl. induction b as [|v b IH]; simpl; [done|].
    by rewrite Z.eqb_refl.
Qed.

Lemma testbit_pow (w i : Z) : 0 <= i -> negb (Z.land w (Z.shiftl 1 i) =? 0) = Z.testbit w i.
Proof.
  intros Hi; rewrite Z.shiftl_1_l.
  destruct (Z.testbit w i) eqn:E.
  - apply negb_true_iff, Z.eqb_neq; intros H0.
    assert (Ht : Z.testbit (Z.land w (2 ^ i)) i = true) by (rewrite Z.land_spec, E, Z.pow2_bits_true; done).
    by rewrite H0, Z.bits_0 in Ht.
  - apply negb_false_iff, Z.eqb_eq, Z.bits_inj'; intros n Hn.
    rewrite Z.land_spec, Z.bits_0. destruct (decide (n = i)) as [->|]; [by rewrite E|].
    rewrite Z.pow2_bits_false by done; apply andb_false_r.
Qed.

Lemma minor_range pos : 0 <= pos mod 64 < 64.
Proof. apply Z.mod_pos_bound; lia. Qed.

Lemma bget_testbit b pos :
  bget b pos = (fun w => Z.testbit w (pos mod 64)) <$> idx b (pos / 64).
Proof.
  unfold bget, bitsetIndex; destruct (idx b (pos / 64)); simpl; [|done].
  rewrite testbit_pow by apply minor_range; done.
Qed.

Lemma same_word pos p : pos / 64 = p / 64 -> pos mod 64 = p mod 64 -> pos = p.
Proof. intros; rewrite (Z.div_mod pos 64), (Z.div_mod p 64) by lia; lia. Qed.

(** Reading back any position after a word changed at one bit. *)
Lemma bget_upd (f : Z -> Z) (v : bool) b b' pos p w :
  idx b (pos / 64) = Some w -> upd b (pos / 64) (f w) = Some b' ->
  (forall i, 0 <= i -> Z.testbit (f w) i = if decide (i = pos mod 64) then v else Z.testbit w i) ->
  bget b' p = if decide (p = pos) then Some v else bget b p.
Proof.
  intros Hw Hu Hf; rewrite !bget_testbit.
  destruct (decide (p / 64 = pos / 64)) as [E|E].
  - rewrite E, (idx_upd_eq _ _ _ _ Hu), Hw; simpl.
    rewrite Hf by apply minor_range.
    destruct (decide (p mod 64 = pos mod 64)) as [E2|E2]; case_decide as E3; try done.
    + destruct E3; by apply same_word.
    + by subst.
  - rewrite (idx_upd_ne _ _ _ _ _ Hu) by done. rewrite decide_False by (intros ->; done). done.
Qed.

Lemma bset_get b pos b' p :
  bset b pos = Some b' -> bget b' p = if decide (p = pos) then Some true else bget b p.
Proof.
  unfold bset, bitsetIndex; intros H; inv_opt.
  eapply (bget_upd (fun w => Z.lor w (Z.shiftl 1 (pos mod 64)))); [done|done|].
  intros i Hi; rewrite Z.lor_spec, Z.shiftl_1_l; case_decide as E.
  - subst; rewrite Z.pow2_bits_true by done; apply orb_true_r.
  - rewrite Z.pow2_bits_false by done; apply orb_false_r.
Qed.

Lemma bclear_get b pos b' p :
  bclear b pos = Some b' -> bget b' p = if decide (p = pos) then Some false else bget b p.
Proof.
  unfold bclear, bitsetIndex; intros H; inv_opt.
  eapply (bget_upd (fun w => Z.ldiff w (Z.shiftl 1 (pos mod 64)))); [done|done|].
  intros i Hi; rewrite Z.ldiff_spec, Z.shiftl_1_l; case_decide as E.
  - subst; rewrite Z.pow2_bits_true by done; apply andb_false_r.
  - rewrite Z.pow2_bits_false by done; apply andb_true_r.
Qed.

Lemma bget_in_range b pos : is_Some (bget b pos) <-> 0 <= pos / 64 < len b.
Proof. rewrite bget_testbit, fmap_is_Some; apply idx_is_Some. Qed.

Lemma bset_is_Some b pos : is_Some (bget b pos) -> exists b', bset b pos = Some b' /\ len b' = len b.
Proof.
  intros Hr%bget_in_range; unfold bset, bitsetIndex.
  destruct (idx_in_range _ _ Hr) as [w Hw]; rewrite Hw; simpl.
  pose proof (upd_ok b (pos / 64) (Z.lor w (Z.shiftl 1 (pos mod 64))) Hr) as Hu.
  rewrite Hu; eexists; split; [done|]. by apply upd_len in Hu.
Qed.

(** Undoing [set] of an absent position. *)
Lemma bclear_bset b pos b' :
  bset b pos = Some b' -> bget b pos = Some false -> bclear b' pos = Some b.
Proof.
  unfold bset, bclear, bitsetIndex; intros H Hg; inv_opt.
  rewrite bget_testbit, H0 in Hg; injection Hg as Hg.
  rewrite (idx_upd_eq _ _ _ _ H); simpl.
  assert (E : Z.ldiff (Z.lor x (Z.shiftl 1 (pos mod 64))) (Z.shiftl 1 (pos mod 64)) = x).
  { apply Z.bits_inj'; intros i Hi; rewrite Z.ldiff_spec, Z.lor_spec, Z.shiftl_1_l.
    destruct (decide (i = pos mod 64)) as [->|].
    - rewrite Z.pow2_bits_true by apply minor_range. by rewrite Hg, andb_false_r.
    - rewrite Z.pow2_bits_false by done. by rewrite orb_false_r, andb_true_r. }
  rewrite E. apply upd_Some in H as [Hr ->].
  rewrite upd_ok by (unfold len in *; rewrite length_insert; lia).
  f_equal; rewrite list_insert_insert_eq; apply list_insert_id.
  unfold idx in H0; by case_if_in H0.
Qed.

Lemma newBitset_get n pos : 0 <= n -> 0 <= pos < n -> bget (newBitset n) pos = Some false.
Proof.
  intros Hn Hp; rewrite bget_testbit; unfold newBitset, idx.
  assert (Hq : 0 <= pos / 64) by (apply Z.div_pos; lia).
  replace (0 <=? pos / 64) with true by (symmetry; apply Z.leb_le; lia).
  rewrite lookup_replicate_2; [simpl; by rewrite Z.bits_0|].
  pose proof (Z.div_mod n 64); pose proof (Z.mod_pos_bound n 64).
  pose proof (Z.div_mod pos 64); pose proof (Z.mod_pos_bound pos 64).
  case_if; [|]; zbool; lia.
Qed.
End bitset.

(** Bitsets behave as sets: on any bitset that covers [pos], [set] and
    [clear] succeed, keep the length, give back true or false at [pos] and leave
    every other position as it was; clearing a bit that was just set restores
    the very same words; and [equals] holds exactly for equal bitsets, which
    then have the same hash. *)
Theorem bitset_laws (b : bitset) (pos : Z) :
  is_Some (bget b pos) ->
  exists b', bset (bclone b) pos = Some b' /\ len b' = len b
    /\ (forall p, bget b' p = if decide (p = pos) then Some true else bget b p)
    /\ (exists b'', bclear b' pos = Some b''
        /\ (forall p, bget b'' p = if decide (p = pos) then Some false else bget b p)
        /\ (bget b pos = Some false -> bequals b'' b = true))
    /\ (forall c, bequals b c = true <-> b = c)
    /\ (forall c, bequals b c = true -> bhash b = bhash c).
Proof.
  intros Hr; destruct (bset_is_Some b pos Hr) as (b' & Hs & Hl).
  assert (Hr' : is_Some (bget b' pos)) by (rewrite (bset_get _ _ _ _ Hs), decide_True by done; eauto).
  exists b'; split_and!; [done|done|intros p; by apply bset_get| |apply bequals_eq|by intros c ->%bequals_eq].
  assert (Hc : exists b'', bclear b' pos = Some b'').
  { apply bget_in_range in Hr'; unfold bclear, bitsetIndex.
    destruct (idx_in_range _ _ Hr') as [w Hw]; rewrite Hw; simpl. rewrite upd_ok by done; eauto. }
  destruct Hc as [b'' Hc]; exists b''; split_and!; [done| |].
  - intros p; rewrite (bclear_get _ _ _ _ Hc), (bset_get _ _ _ _ Hs). by case_decide.
  - intros Hf; rewrite (bclear_bset _ _ _ Hs Hf) in Hc. by simplify_eq; apply bequals_eq.
Qed.

Lemma bitset_laws_witness :
  exists b', bset (bclone (newBitset 100)) 70 = Some b' /\ len b' = len (newBitset 100)
    /\ (forall p, bget b' p = if decide (p = 70) then Some true else bget (newBitset 100) p)
    /\ (exists b'', bclear b' 70 = Some b''
        /\ (forall p, bget b'' p = if decide (p = 70) then Some false else bget (newBitset 100) p)
        /\ (bget (newBitset 100) 70 = Some false -> bequals b'' (newBitset 100) = true))
    /\ (forall c, bequals (newBitset 100) c = true <-> newBitset 100 = c)
    /\ (forall c, bequals (newBitset 100) c = true -> bhash (newBitset 100) = bhash c).
Proof. apply (bitset_laws (newBitset 100) 70). exists false; reflexivity. Defined.
