(* ===== verification/Checker.v ===== *)
(** * porcupine: the linearizability checker

    Models [porcupine/model.go] and [porcupine/checker.go]. The nodes of the
    doubly linked list live in a heap; a pointer is a location, nil is [None].
    [lift] and [unlift] change the list in place as the code does. Following a
    nil pointer, an index out of range, or a failed type assertion on a value
    gives [None].

    The states, inputs and outputs of a model are the types [St], [In] and
    [Out]; a value of an entry is an input or an output. *)

From S2P Require Import Prelude Bitset.

#[local] Open Scope Z_scope.

(** A pointer to a node. *)
Notation loc := nat.

Section model.
Context {St In Out : Type}.

Record Operation : Type := mkOperation {
  ClientId : Z; Input : In; Call : Z; Output : Out; Return : Z }.

Inductive value : Type := VIn (i : In) | VOut (o : Out) | VNil.

Inductive EventKind : Type := CallEvent | ReturnEvent.

Record Event : Type := mkEvent { ev_ClientId : Z; ev_Kind : EventKind; ev_Value : value; ev_Id : Z }.

(** [Partition], [PartitionEvent] and [Equal] may be nil. *)
Record Model : Type := mkModel {
  Partition : option (list Operation -> list (list Operation));
  PartitionEvent : option (list Event -> list (list Event));
  Init : St;
  Step : St -> In -> Out -> bool * St;
  Equal : option (St -> St -> bool);
}.

Definition NoPartition (history : list Operation) : list (list Operation) := [history].
Definition NoPartitionEvent (history : list Event) : list (list Event) := [history].

(** [ShallowEqual] is Go's [==] on the states. *)
Definition fillDefault (ShallowEqual : St -> St -> bool) (model : Model) : Model :=
  mkModel
    (Some (default NoPartition (Partition model)))
    (Some (default NoPartitionEvent (PartitionEvent model)))
    (Init model) (Step model)
    (Some (default ShallowEqual (Equal model))).

(** ** Entries *)

Inductive entryKind : Type := callEntry | returnEntry.

#[global] Instance entryKind_eq_dec : EqDecision entryKind.
Proof. solve_decision. Defined.

Record entry : Type := mkEntry {
  kind : entryKind; evalue : value; eid : Z; time : Z; eclientId : Z }.

(** [byTime.Less] *)
Definition byTimeLess (a b : entry) : bool :=
  if negb (time a =? time b) then time a <? time b
  else bool_decide (kind a = callEntry) && bool_decide (kind b = returnEntry).

(** The entries before sorting. *)
Fixpoint rawEntries (id : Z) (history : list Operation) : list entry :=
  match history with
  | [] => []
  | elem :: history =>
      mkEntry callEntry (VIn (Input elem)) id (Call elem) (ClientId elem)
      :: mkEntry returnEntry (VOut (Output elem)) id (Return elem) (ClientId elem)
      :: rawEntries (id + 1) history
  end.

(** [sort] is [sort.Sort(byTime(entries))]. *)
Definition makeEntries (sort : list entry -> list entry) (history : list Operation) : list entry :=
  sort (rawEntries 0 history).

Fixpoint renumberLoop (m : gmap Z Z) (id : Z) (events : list Event) : list Event :=
  match events with
  | [] => []
  | v :: events =>
      match m !! ev_Id v with
      | Some r => mkEvent (ev_ClientId v) (ev_Kind v) (ev_Value v) r :: renumberLoop m id events
      | None =>
          mkEvent (ev_ClientId v) (ev_Kind v) (ev_Value v) id
          :: renumberLoop (<[ev_Id v := id]> m) (id + 1) events
      end
  end.

Definition renumber (events : list Event) : list Event := renumberLoop ∅ 0 events.

Fixpoint convertLoop (i : Z) (events : list Event) : list entry :=
  match events with
  | [] => []
  | elem :: events =>
      mkEntry match ev_Kind elem with ReturnEvent => returnEntry | CallEvent => callEntry end
        (ev_Value elem) (ev_Id elem) i (ev_ClientId elem)
      :: convertLoop (i + 1) events
  end.

Definition convertEntries (events : list Event) : list entry := convertLoop 0 events.

(** ** The linked list *)

Record node : Type := mkNode {
  nvalue : value; nmatch : option loc; nid : Z; next : option loc; prev : option loc }.

Notation heap := (gmap loc node).

Definition set_next (p : loc) (x : option loc) (h : heap) : option heap :=
  n ← h !! p; Some (<[p := mkNode (nvalue n) (nmatch n) (nid n) x (prev n)]> h).
Definition set_prev (p : loc) (x : option loc) (h : heap) : option heap :=
  n ← h !! p; Some (<[p := mkNode (nvalue n) (nmatch n) (nid n) (next n) x]> h).

Definition insertBefore (n : loc) (mark : option loc) (h : heap) : option heap :=
  match mark with
  | None => Some h
  | Some mark =>
      m ← h !! mark;
      let beforeMark := prev m in
      h ← set_prev mark (Some n) h;
      h ← set_next n (Some mark) h;
      match beforeMark with
      | None => Some h
      | Some bm => h ← set_prev n (Some bm) h; set_next bm (Some n) h
      end
  end.

(** The loop of [makeLinkedEntries] over the reversed entries; a new node is
    allocated at [fresh]. *)
Fixpoint linkLoop (rentries : list entry) (fresh : loc) (root : option loc) (mtch : gmap Z loc) (h : heap)
    : option (option loc * loc * heap) :=
  match rentries with
  | [] => Some (root, fresh, h)
  | elem :: rentries =>
      match kind elem with
      | returnEntry =>
          let h := <[fresh := mkNode (evalue elem) None (eid elem) None None]> h in
          h ← insertBefore fresh root h;
          linkLoop rentries (S fresh) (Some fresh) (<[eid elem := fresh]> mtch) h
      | callEntry =>
          let h := <[fresh := mkNode (evalue elem) (mtch !! eid elem) (eid elem) None None]> h in
          h ← insertBefore fresh root h;
          linkLoop rentries (S fresh) (Some fresh) mtch h
      end
  end.

Definition makeLinkedEntries (entries : list entry) : option (option loc * loc * heap) :=
  linkLoop (reverse entries) 0%nat None ∅ ∅.

(** [length] follows [next]; the list has no more nodes than the heap. *)
Fixpoint lengthLoop (fuel : nat) (n : option loc) (h : heap) : option Z :=
  match n with
  | None => Some 0
  | Some p =>
      match fuel with
      | O => None
      | S fuel => nd ← h !! p; l ← lengthLoop fuel (next nd) h; Some (l + 1)
      end
  end.

Definition nlength (n : option loc) (h : heap) : option Z := lengthLoop (size h) n h.

Definition lift (e : loc) (h : heap) : option heap :=
  n ← h !! e;
  ep ← prev n;
  en ← next n;
  h ← set_next ep (Some en) h;
  h ← set_prev en (Some ep) h;
  m ← nmatch n;
  mn ← h !! m;
  mp ← prev mn;
  h ← set_next mp (next mn) h;
  match next mn with
  | Some mx => set_prev mx (Some mp) h
  | None => Some h
  end.

Definition unlift (e : loc) (h : heap) : option heap :=
  n ← h !! e;
  m ← nmatch n;
  mn ← h !! m;
  mp ← prev mn;
  h ← set_next mp (Some m) h;
  h ← match next mn with Some mx => set_prev mx (Some m) h | None => Some h end;
  n ← h !! e;
  ep ← prev n;
  en ← next n;
  h ← set_next ep (Some e) h;
  set_prev en (Some e) h.

(** ** The search *)

Record cacheEntry : Type := mkCacheEntry { ce_linearized : bitset; ce_state : St }.
Notation cacheMap := (gmap Z (list cacheEntry)).

Definition modelEqual (model : Model) (s1 s2 : St) : bool :=
  match Equal model with Some eq => eq s1 s2 | None => false end.

Fixpoint cacheLoop (model : Model) (l : list cacheEntry) (e : cacheEntry) : bool :=
  match l with
  | [] => false
  | elem :: l =>
      if bequals (ce_linearized e) (ce_linearized elem) && modelEqual model (ce_state e) (ce_state elem)
      then true else cacheLoop model l e
  end.

Definition cacheContains (model : Model) (cache : cacheMap) (e : cacheEntry) : bool :=
  cacheLoop model (default [] (cache !! bhash (ce_linearized e))) e.

Record search : Type := mkSearch {
  s_heap : heap;
  s_entry : option loc;
  s_linearized : bitset;
  s_cache : cacheMap;
  s_calls : list (loc * St);            (* the slice [calls], last element first *)
  s_state : St;
  s_longest : list (option (list Z));
}.

(** The ids of the calls, in the order of the slice. *)
Definition callIds (h : heap) (calls : list (loc * St)) : option (list Z) :=
  mapM (fun c => nid <$> h !! c.1) (reverse calls).

(** The update of [longest]: each call whose recorded prefix is shorter. *)
Fixpoint longestLoop (ids seq : list Z) (longest : list (option (list Z)))
    : option (list (option (list Z))) :=
  match ids with
  | [] => Some longest
  | i :: ids =>
      old ← idx longest i;
      longest ← (if match old with None => true | Some l => len seq >? len l end
                 then upd longest i (Some seq) else Some longest);
      longestLoop ids seq longest
  end.

(** One iteration of the loop of [checkSingle] from the test of [entry.match]
    on: the next state, or the result [false]. *)
Definition iteration (model : Model) (computePartial : bool) (head : loc) (s : search)
    : option (search + list (option (list Z))) :=
  e ← s_entry s;
  n ← s_heap s !! e;
  match nmatch n with
  | Some m =>
      mn ← s_heap s !! m;
      match nvalue n, nvalue mn with
      | VIn i, VOut o =>
          let '(ok, newState) := Step model (s_state s) i o in
          let skip := mkSearch (s_heap s) (next n) (s_linearized s) (s_cache s) (s_calls s)
                        (s_state s) (s_longest s) in
          if ok : bool then
            newLinearized ← bset (bclone (s_linearized s)) (nid n);
            let newCacheEntry := mkCacheEntry newLinearized newState in
            if negb (cacheContains model (s_cache s) newCacheEntry) then
              let hash := bhash newLinearized in
              let cache := <[hash := default [] (s_cache s !! hash) ++ [newCacheEntry]]> (s_cache s) in
              linearized ← bset (s_linearized s) (nid n);
              h ← lift e (s_heap s);
              hd ← h !! head;
              Some (inl (mkSearch h (next hd) linearized cache ((e, s_state s) :: s_calls s)
                           newState (s_longest s)))
            else Some (inl skip)
          else Some (inl skip)
      | _, _ => None
      end
  | None =>
      match s_calls s with
      | [] => Some (inr (s_longest s))
      | (e, st) :: calls =>
          longest ← (if computePartial then
                       ids ← callIds (s_heap s) (s_calls s);
                       longestLoop ids ids (s_longest s)
                     else Some (s_longest s));
          n ← s_heap s !! e;
          linearized ← bclear (s_linearized s) (nid n);
          h ← unlift e (s_heap s);
          n ← h !! e;
          Some (inl (mkSearch h (next n) linearized (s_cache s) calls st longest))
      end
  end.

(** The loop; [kill] says whether the flag is seen set in a given iteration.
    [None]: out of fuel or a panic. *)
Fixpoint searchLoop (model : Model) (computePartial : bool) (kill : nat -> bool) (head : loc)
    (fuel : nat) (k : nat) (s : search) : option (bool * list (option (list Z))) :=
  hd ← s_heap s !! head;
  match next hd with
  | None =>
      seq ← callIds (s_heap s) (s_calls s);
      Some (true, (fun _ => Some seq) <$> s_longest s)
  | Some _ =>
      if kill k then Some (false, s_longest s)
      else
        match fuel with
        | O => None
        | S fuel =>
            r ← iteration model computePartial head s;
            match r with
            | inl s => searchLoop model computePartial kill head fuel (S k) s
            | inr longest => Some (false, longest)
            end
        end
  end.

Definition checkSingle (model : Model) (history : list entry) (computePartial : bool)
    (kill : nat -> bool) (fuel : nat) : option (bool * list (option (list Z))) :=
  '(root, head, h) ← makeLinkedEntries history;
  l ← nlength root h;
  let n := l / 2 in
  let h := <[head := mkNode VNil None (-1) None None]> h in
  h ← insertBefore head root h;
  searchLoop model computePartial kill head fuel 0
    (mkSearch h root (newBitset n) ∅ [] (Init model) (replicate (Z.to_nat n) None)).
End model.

Arguments Operation : clear implicits.
Arguments Event : clear implicits.
Arguments Model : clear implicits.
Arguments value : clear implicits.
Arguments entry : clear implicits.
Arguments node : clear implicits.
Arguments cacheEntry : clear implicits.
Arguments search : clear implicits.
