(* ===== verification/CheckerHeap.v ===== *)
(** * porcupine: the linked list

    [linked h l] says that the nodes [l] form a doubly linked list in the heap
    [h]. [lift] takes a call and its return out of the list, and [unlift] puts
    the heap back exactly as it was. *)

From S2P Require Import Prelude Bitset Checker.

#[local] Open Scope Z_scope.

Section heap.
Context {In Out : Type}.
Notation heap := (gmap loc (node In Out)).
Implicit Types (h : heap) (l : list loc) (x p q : loc).

Definition prevAt l (i : nat) : option loc := match i with O => None | S j => l !! j end.

Definition linked h l : Prop :=
  NoDup l /\ forall i x, l !! i = Some x ->
    exists n, h !! x = Some n /\ next n = l !! S i /\ prev n = prevAt l i.

(** What the list operations never change of a node. *)
Definition dataOf h x : option (value In Out * option loc * Z) :=
  (fun n => (nvalue n, nmatch n, nid n)) <$> h !! x.
Definition sameData h h' : Prop := forall x, dataOf h' x = dataOf h x.

Lemma sameData_trans h1 h2 h3 : sameData h1 h2 -> sameData h2 h3 -> sameData h1 h3.
Proof. intros H1 H2 x; by rewrite H2. Qed.

Lemma sameData_sym h h' : sameData h h' -> sameData h' h.
Proof. intros H x; by rewrite H. Qed.

Lemma set_next_spec p o h h' :
  set_next p o h = Some h' ->
  sameData h h' /\ (forall y, y <> p -> h' !! y = h !! y)
  /\ exists n n', h !! p = Some n /\ h' !! p = Some n' /\ next n' = o /\ prev n' = prev n.
Proof.
  unfold set_next; intros H; inv_opt. split_and!.
  - intros y; unfold dataOf; destruct (decide (y = p)) as [->|];
      [by rewrite lookup_insert_eq, H0|by rewrite lookup_insert_ne].
  - intros y Hy; by rewrite lookup_insert_ne.
  - eexists _, _; by rewrite lookup_insert_eq.
Qed.

Lemma set_prev_spec p o h h' :
  set_prev p o h = Some h' ->
  sameData h h' /\ (forall y, y <> p -> h' !! y = h !! y)
  /\ exists n n', h !! p = Some n /\ h' !! p = Some n' /\ prev n' = o /\ next n' = next n.
Proof.
  unfold set_prev; intros H; inv_opt. split_and!.
  - intros y; unfold dataOf; destruct (decide (y = p)) as [->|];
      [by rewrite lookup_insert_eq, H0|by rewrite lookup_insert_ne].
  - intros y Hy; by rewrite lookup_insert_ne.
  - eexists _, _; by rewrite lookup_insert_eq.
Qed.

(** Taking one node out, and putting it back. *)
Definition unlink x h : option heap :=
  n ← h !! x; p ← prev n;
  h ← set_next p (next n) h;
  match next n with Some q => set_prev q (Some p) h | None => Some h end.

Definition relink x h : option heap :=
  n ← h !! x; p ← prev n;
  h ← set_next p (Some x) h;
  match next n with Some q => set_prev q (Some x) h | None => Some h end.

Lemma node_eq (n1 n2 : node In Out) :
  nvalue n1 = nvalue n2 -> nmatch n1 = nmatch n2 -> nid n1 = nid n2 ->
  next n1 = next n2 -> prev n1 = prev n2 -> n1 = n2.
Proof. destruct n1, n2; simpl; by intros -> -> -> -> ->. Qed.

(** The links of [l] without its element at [S k]. *)
Lemma linked_skip h h' l k p x :
  linked h l -> l !! k = Some p -> l !! S k = Some x ->
  (forall y, y <> p -> l !! S (S k) <> Some y -> h' !! y = h !! y) ->
  (exists n n', h !! p = Some n /\ h' !! p = Some n' /\ next n' = l !! S (S k) /\ prev n' = prev n) ->
  (forall q, l !! S (S k) = Some q -> exists n n', h !! q = Some n /\ h' !! q = Some n'
     /\ next n' = next n /\ prev n' = Some p) ->
  linked h' (delete (S k) l).
Proof.
  intros [Hnd Hl] Hp Hx Hoth (np & np' & Hnp & Hnp' & Enx & Epv) Hq.
  split; [eapply sublist_NoDup; [done|apply sublist_delete]|].
  assert (Hlk : (S k < length l)%nat) by (by eapply lookup_lt_Some).
  assert (Hdel : forall i, delete (S k) l !! i = if decide (i < S k)%nat then l !! i else l !! S i).
  { intros i; case_decide; [by apply list_lookup_delete_lt|apply list_lookup_delete_ge; lia]. }
  intros i y Hy; rewrite Hdel in Hy.
  assert (Huniq : forall a b z, l !! a = Some z -> l !! b = Some z -> a = b).
  { intros a b z Ha Hb; by eapply NoDup_lookup. }
  destruct (decide (i = k)) as [->|Hik].
  - rewrite decide_True in Hy by lia. rewrite Hp in Hy; injection Hy as <-.
    exists np'; split_and!; [done|rewrite Hdel, decide_False by lia; done|].
    rewrite Epv. destruct (Hl k p Hp) as (n & Hn & _ & E0); simplify_eq; rewrite E0.
    unfold prevAt; destruct k; [done|]. rewrite Hdel, decide_True by lia; done.
  - destruct (decide (i < S k)%nat) as [Hlt|Hge].
    + destruct (Hl i y Hy) as (n & Hn & Hnx & Hpv). exists n; split_and!.
      * rewrite Hoth; [done| |].
        -- intros ->; apply Hik; by eapply Huniq.
        -- intros Hc; assert (i = S (S k)) by (by eapply Huniq); lia.
      * rewrite Hnx, Hdel, decide_True by lia; done.
      * rewrite Hpv; unfold prevAt; destruct i; [done|]. rewrite Hdel, decide_True by lia; done.
    + destruct (Hl (S i) y Hy) as (n & Hn & Hnx & Hpv).
      destruct (decide (i = S k)) as [->|Hisk].
      * destruct (Hq y Hy) as (n0 & n' & Hn0 & Hn' & Enx' & Epv'); simplify_eq.
        exists n'; split_and!; [done| |].
        -- by rewrite Enx', Hnx, Hdel, decide_False by lia.
        -- rewrite Epv'; simpl. rewrite Hdel, decide_True by lia; done.
      * exists n; split_and!.
        -- rewrite Hoth; [done| |].
           ++ intros ->; assert (S i = k) by (by eapply Huniq); lia.
           ++ intros Hc; assert (S i = S (S k)) by (by eapply Huniq); lia.
        -- by rewrite Hnx, Hdel, decide_False by lia.
        -- rewrite Hpv; unfold prevAt; destruct i as [|i]; [lia|]. rewrite Hdel, decide_False by lia; done.
Qed.

Lemma unlink_linked h l k p x :
  linked h l -> l !! k = Some p -> l !! S k = Some x ->
  exists h', unlink x h = Some h' /\ linked h' (delete (S k) l) /\ sameData h h'
    /\ h' !! x = h !! x /\ relink x h' = Some h.
Proof.
  intros Hlk Hp Hx; pose proof Hlk as [Hnd Hl].
  destruct (Hl k p Hp) as (np & Hnp & Enp & _); destruct (Hl (S k) x Hx) as (nx & Hnx & Enx & Epx).
  simpl in Epx; rewrite Hp in Epx; rewrite Hx in Enp.
  assert (Hpx : p <> x) by (intros ->; assert (k = S k) by (by eapply NoDup_lookup); lia).
  unfold unlink, relink; rewrite Hnx; cbn [mbind option_bind]; rewrite Epx; cbn [mbind option_bind].
  unfold set_next at 1; rewrite Hnp; cbn [mbind option_bind].
  set (np1 := mkNode (nvalue np) (nmatch np) (nid np) (next nx) (prev np)).
  destruct (next nx) as [q|] eqn:Eq.
  - symmetry in Enx; destruct (Hl (S (S k)) q Enx) as (nq & Hnq & _ & Epq); simpl in Epq; rewrite Hx in Epq.
    assert (Hqp : q <> p) by (intros ->; assert (k = S (S k)) by (by eapply NoDup_lookup); lia).
    assert (Hqx : q <> x) by (intros ->; assert (S k = S (S k)) by (by eapply NoDup_lookup); lia).
    unfold set_prev at 1; rewrite lookup_insert_ne, Hnq by done; cbn [mbind option_bind].
    set (nq1 := mkNode (nvalue nq) (nmatch nq) (nid nq) (next nq) (Some p)).
    set (h1 := <[q:=nq1]> (<[p:=np1]> h)). exists h1.
    assert (Hx1 : h1 !! x = Some nx) by (unfold h1; by rewrite !lookup_insert_ne).
    refine (conj eq_refl (conj _ (conj _ (conj Hx1 _)))).
    + eapply linked_skip; [done|done|done| | |].
      * intros y Hy1 Hy2; unfold h1; rewrite !lookup_insert_ne by congruence; done.
      * exists np, np1; unfold h1. rewrite lookup_insert_ne, lookup_insert_eq by done.
        by split_and!; [..|rewrite Enx|].
      * intros q' Hq'; assert (q' = q) as -> by congruence.
        exists nq, nq1; unfold h1; by rewrite lookup_insert_eq.
    + intros y; unfold dataOf, h1. destruct (decide (y = q)) as [->|]; [by rewrite lookup_insert_eq, Hnq|].
      rewrite lookup_insert_ne by done. destruct (decide (y = p)) as [->|]; [by rewrite lookup_insert_eq, Hnp|].
      by rewrite lookup_insert_ne.
    + rewrite Hx1; cbn [mbind option_bind]; rewrite Epx; cbn [mbind option_bind].
      assert (Hp1 : h1 !! p = Some np1) by (unfold h1; by rewrite lookup_insert_ne, lookup_insert_eq).
      assert (Hq1 : h1 !! q = Some nq1) by (unfold h1; by rewrite lookup_insert_eq).
      unfold set_next; rewrite Hp1; cbn [mbind option_bind].
      rewrite Eq; unfold set_prev; rewrite lookup_insert_ne, Hq1 by done; cbn [mbind option_bind]; f_equal.
      unfold h1; apply map_eq; intros y. destruct (decide (y = q)) as [->|].
      { rewrite lookup_insert_eq, Hnq; f_equal; apply node_eq; simpl; done. }
      rewrite lookup_insert_ne by done. destruct (decide (y = p)) as [->|].
      { rewrite lookup_insert_eq, Hnp; f_equal; apply node_eq; simpl; done. }
      by rewrite !lookup_insert_ne.
  - set (h1 := <[p:=np1]> h). exists h1.
    assert (Hx1 : h1 !! x = Some nx) by (unfold h1; by rewrite lookup_insert_ne).
    refine (conj eq_refl (conj _ (conj _ (conj Hx1 _)))).
    + eapply linked_skip; [done|done|done| | |].
      * intros y Hy1 _; unfold h1; by rewrite lookup_insert_ne.
      * exists np, np1; unfold h1. rewrite lookup_insert_eq. by split_and!.
      * intros q Hq; congruence.
    + intros y; unfold dataOf, h1. destruct (decide (y = p)) as [->|]; [by rewrite lookup_insert_eq, Hnp|].
      by rewrite lookup_insert_ne.
    + rewrite Hx1; cbn [mbind option_bind]; rewrite Epx; cbn [mbind option_bind].
      assert (Hp1 : h1 !! p = Some np1) by (unfold h1; by rewrite lookup_insert_eq).
      unfold set_next; rewrite Hp1; cbn [mbind option_bind].
      rewrite Eq; f_equal. unfold h1; apply map_eq; intros y; destruct (decide (y = p)) as [->|].
      { rewrite lookup_insert_eq, Hnp; f_equal; apply node_eq; simpl; done. }
      by rewrite !lookup_insert_ne.
Qed.

Lemma lift_unlink x h n y m :
  h !! x = Some n -> next n = Some y -> nmatch n = Some m ->
  lift x h = (h1 ← unlink x h; unlink m h1).
Proof.
  intros Hn Hy Hm; unfold lift; unfold unlink at 2; rewrite Hn; cbn [mbind option_bind].
  destruct (prev n) as [p|]; [|done]; cbn [mbind option_bind]; rewrite Hy; cbn [mbind option_bind].
  destruct (set_next p (Some y) h) as [h1|]; [|done]; cbn [mbind option_bind].
  destruct (set_prev y (Some p) h1) as [h2|]; [|done]; cbn [mbind option_bind].
  by rewrite Hm.
Qed.

Lemma unlift_relink x h n m h1 n1 y :
  h !! x = Some n -> nmatch n = Some m -> relink m h = Some h1 -> h1 !! x = Some n1 -> next n1 = Some y ->
  unlift x h = relink x h1.
Proof.
  intros Hn Hm Hr Hn1 Hy; unfold unlift; rewrite Hn; cbn [mbind option_bind]; rewrite Hm; cbn [mbind option_bind].
  unfold relink in Hr; inv_opt. rewrite H; cbn [mbind option_bind]; rewrite H0; cbn [mbind option_bind].
  rewrite H1; cbn [mbind option_bind]; rewrite Hr; cbn [mbind option_bind].
  unfold relink; rewrite Hn1; cbn [mbind option_bind]; rewrite Hy.
  by destruct (prev n1); cbn [mbind option_bind]; rewrite ?Hy.
Qed.

Lemma delete_middle (l1 l2 : list loc) x : delete (length l1) (l1 ++ x :: l2) = l1 ++ l2.
Proof. induction l1 as [|a l1 IH]; simpl; [done|]. by rewrite IH. Qed.

Lemma sameData_lookup h h' x n :
  sameData h h' -> h !! x = Some n ->
  exists n', h' !! x = Some n' /\ nvalue n' = nvalue n /\ nmatch n' = nmatch n /\ nid n' = nid n.
Proof.
  intros Hs Hn; specialize (Hs x); unfold dataOf in Hs; rewrite Hn in Hs; simpl in Hs.
  destruct (h' !! x) as [n'|]; simplify_eq/=. by exists n'.
Qed.

(** Lifting the call [x] and its return [m]. *)
Lemma lift_linked h hd l1 l2 l3 x m n :
  linked h (hd :: l1 ++ x :: l2 ++ m :: l3) -> h !! x = Some n -> nmatch n = Some m ->
  exists h', lift x h = Some h' /\ linked h' (hd :: l1 ++ l2 ++ l3) /\ sameData h h' /\ unlift x h' = Some h.
Proof.
  intros Hl Hn Hm.
  assert (Hx : (hd :: l1 ++ x :: l2 ++ m :: l3) !! S (length l1) = Some x) by (simpl; by apply list_lookup_middle).
  assert (Hp : exists p, (hd :: l1 ++ x :: l2 ++ m :: l3) !! length l1 = Some p).
  { apply lookup_lt_is_Some; simpl; rewrite length_app; lia. }
  destruct Hp as [p Hp].
  assert (Hy : exists y, next n = Some y).
  { destruct Hl as [_ Hl]; destruct (Hl _ _ Hx) as (n0 & Hn0 & E & _); simplify_eq; rewrite E.
    apply lookup_lt_is_Some; simpl; rewrite !length_app; simpl; rewrite length_app; simpl; lia. }
  destruct Hy as [y Hy].
  destruct (unlink_linked h _ _ p x Hl Hp Hx) as (h1 & Hu & Hl1 & Hs1 & Hx1 & Hr1).
  replace (delete (S (length l1)) (hd :: l1 ++ x :: l2 ++ m :: l3)) with (hd :: (l1 ++ l2) ++ m :: l3) in Hl1
    by (simpl; by rewrite delete_middle, <- (assoc app)).
  assert (Hm1 : (hd :: (l1 ++ l2) ++ m :: l3) !! S (length (l1 ++ l2)) = Some m)
    by (simpl; by apply list_lookup_middle).
  assert (Hp1 : exists p', (hd :: (l1 ++ l2) ++ m :: l3) !! length (l1 ++ l2) = Some p').
  { apply lookup_lt_is_Some; simpl; rewrite !length_app; simpl; lia. }
  destruct Hp1 as [p' Hp1].
  destruct (unlink_linked h1 _ _ p' m Hl1 Hp1 Hm1) as (h2 & Hu2 & Hl2 & Hs2 & Hx2 & Hr2).
  replace (delete (S (length (l1 ++ l2))) (hd :: (l1 ++ l2) ++ m :: l3)) with (hd :: l1 ++ l2 ++ l3) in Hl2
    by (simpl; by rewrite delete_middle, <- (assoc app)).
  exists h2; split; [by rewrite (lift_unlink x h n y m Hn Hy Hm), Hu|]. split; [done|].
  assert (Hs : sameData h h2) by (by eapply sameData_trans). split; [done|].
  destruct (sameData_lookup _ _ _ _ Hs Hn) as (n2 & Hn2 & _ & Hnm2 & _).
  by rewrite (unlift_relink x h2 n2 m h1 n y Hn2 ltac:(congruence) Hr2 ltac:(congruence) Hy).
Qed.
End heap.

(** C33: The dancing links restore the list: for a call that stands before its
    return in a well-formed list, [lift] takes exactly the two nodes out, keeps
    the list well formed and every node's value, and a later [unlift] gives back
    the heap it started from, pointer by pointer. *)
Theorem unlift_lift {In Out : Type} (h : gmap loc (node In Out)) (hd x m : loc) (l1 l2 l3 : list loc)
    (n : node In Out) :
  linked h (hd :: l1 ++ x :: l2 ++ m :: l3) -> h !! x = Some n -> nmatch n = Some m ->
  exists h', lift x h = Some h' /\ linked h' (hd :: l1 ++ l2 ++ l3)
    /\ sameData h h' /\ unlift x h' = Some h.
Proof. intros; by eapply lift_linked. Qed.

(** The call 1 and the return 2 after the head 0. *)
Definition demoHeap : gmap loc (node Z Z) :=
  <[0%nat := mkNode VNil None (-1) (Some 1%nat) None]>
  (<[1%nat := mkNode (VIn 5) (Some 2%nat) 0 (Some 2%nat) (Some 0%nat)]>
  (<[2%nat := mkNode (VOut 6) None 0 None (Some 1%nat)]> ∅)).

Lemma unlift_lift_witness :
  exists h', lift 1%nat demoHeap = Some h' /\ linked h' [0%nat]
    /\ sameData demoHeap h' /\ unlift 1%nat h' = Some demoHeap.
Proof.
  apply (unlift_lift demoHeap 0%nat 1%nat 2%nat [] [] [] (mkNode (VIn 5) (Some 2%nat) 0 (Some 2%nat) (Some 0%nat))).
  - split; [apply (bool_decide_unpack _); by vm_compute|].
    intros [|[|[|i]]] y Hy; simpl in Hy; simplify_eq; eexists; split; try reflexivity; split; reflexivity.
  - reflexivity.
  - reflexivity.
Defined.
