(* ===== verification/CheckerSearch.v ===== *)
(** * porcupine: the search is sound, complete and terminates

    [lin E s seq] is the reference: the entries [E] can be linearized from state
    [s] by the operations [seq], each chosen among the calls that no return
    precedes. The backtracking search of [checkSingle], with its cache and its
    in-place list, decides it. *)

From S2P Require Import Prelude Bitset Checker CheckerHeap.

#[local] Open Scope Z_scope.

Section reference.
Context {St In Out : Type} (model : Model St In Out).
Notation ent := (entry In Out).
Implicit Types (E : list ent) (e : ent) (s : St).

Definition isCall e : Prop := kind e = callEntry.

(** The entries that are left when operation [id] is linearized. *)
Definition without (id : Z) E : list ent := filter (fun e => eid e <> id) E.

(** [e], at position [j], may be linearized next and leads to state [s']. *)
Definition opens E s (j : nat) e s' : Prop :=
  E !! j = Some e /\ isCall e /\ Forall isCall (take j E)
  /\ exists i e' o, evalue e = VIn i /\ e' ∈ E /\ kind e' = returnEntry /\ eid e' = eid e
       /\ evalue e' = VOut o /\ Step model s i o = (true, s').

Inductive lin : list ent -> St -> list Z -> Prop :=
| lin_nil s : lin [] s []
| lin_op E s j e s' seq :
    opens E s j e s' -> lin (without (eid e) E) s' seq -> lin E s (eid e :: seq).

Definition linearizableFrom E s : Prop := exists seq, lin E s seq.

(** No operation at position [j] or later leads to a linearization. *)
Definition deadFrom (j : nat) E s : Prop :=
  forall j' e s', (j <= j')%nat -> opens E s j' e s' -> ~ linearizableFrom (without (eid e) E) s'.

Lemma deadFrom_0 E s : deadFrom 0 E s -> E <> [] -> ~ linearizableFrom E s.
Proof.
  intros Hd Hne [seq Hl]; destruct Hl as [|E s j e s' seq Ho Hl]; [done|].
  apply (Hd j e s' ltac:(lia) Ho). by exists seq.
Qed.

Lemma deadFrom_return j E s e :
  E !! j = Some e -> kind e = returnEntry -> deadFrom j E s.
Proof.
  intros He Hk j' e' s' Hj (He' & Hc & Hall & _); exfalso.
  destruct (decide (j' = j)) as [->|Hne]; [unfold isCall in Hc; congruence|].
  rewrite Forall_lookup in Hall. specialize (Hall j e).
  rewrite lookup_take_lt in Hall by lia. specialize (Hall He); unfold isCall in Hall; congruence.
Qed.

(** One operation more is known to be dead. *)
Lemma deadFrom_S j E s :
  (forall e s', opens E s j e s' -> ~ linearizableFrom (without (eid e) E) s') ->
  deadFrom (S j) E s -> deadFrom j E s.
Proof.
  intros Hj Hd j' e s' Hle Ho; destruct (decide (j' = j)) as [->|]; [by apply Hj|].
  apply (Hd j'); [lia|done].
Qed.
End reference.

(** ** Remaining entries *)

Section wf.
Context {St In Out : Type}.
Notation ent := (entry In Out).
Notation heap := (gmap loc (node In Out)).
Implicit Types (l : list (loc * ent)) (h : heap) (a b : loc * ent).

Definition before a b l : Prop := exists l1 l2 l3, l = l1 ++ a :: l2 ++ b :: l3.

Lemma before_filter (P : loc * ent -> Prop) `{forall x, Decision (P x)} a b l :
  before a b l -> P a -> P b -> before a b (filter P l).
Proof.
  intros (l1 & l2 & l3 & ->) Ha Hb; exists (filter P l1), (filter P l2), (filter P l3).
  by rewrite filter_app, filter_cons_True, filter_app, filter_cons_True.
Qed.

Lemma before_elem a b l : before a b l -> a ∈ l /\ b ∈ l.
Proof. intros (l1 & l2 & l3 & ->); split; rewrite ?elem_of_app, ?elem_of_cons, ?elem_of_app, ?elem_of_cons; auto. Qed.

(** The node of an entry. *)
Definition nodeFor h (x : loc) (e : ent) (m : option loc) : Prop :=
  dataOf h x = Some (evalue e, m, eid e).

(** Every call stands before its return, to which its node points; no other
    entry has its id. *)
Definition callOk h l (x : loc) (e : ent) : Prop :=
  exists m e' i o, before (x, e) (m, e') l /\ kind e' = returnEntry /\ eid e' = eid e
    /\ nodeFor h x e (Some m) /\ evalue e = VIn i /\ evalue e' = VOut o
    /\ forall y e2, (y, e2) ∈ l -> eid e2 = eid e -> y = x \/ y = m.

Record entriesWf h (n : Z) l : Prop := {
  ew_nodup : NoDup l.*1;
  ew_ids : forall x e, (x, e) ∈ l -> 0 <= eid e < n;
  ew_call : forall x e, (x, e) ∈ l -> kind e = callEntry -> callOk h l x e;
  ew_return : forall x e, (x, e) ∈ l -> kind e = returnEntry -> nodeFor h x e None;
}.

Lemma elem_fst x e1 e2 l : NoDup l.*1 -> (x, e1) ∈ l -> (x, e2) ∈ l -> e1 = e2.
Proof.
  intros Hnd [i Hi]%list_elem_of_lookup_1 [j Hj]%list_elem_of_lookup_1.
  assert (i = j) as ->; [|congruence].
  eapply NoDup_lookup; [done|by rewrite list_lookup_fmap, Hi|by rewrite list_lookup_fmap, Hj].
Qed.

Lemma entriesWf_data h h' n l : sameData h h' -> entriesWf h n l -> entriesWf h' n l.
Proof.
  intros Hs []; split; try done.
  - intros x e Hin Hk; destruct (ew_call0 x e Hin Hk) as (m & e' & i & o & ? & ? & ? & ? & ?).
    exists m, e', i, o; unfold nodeFor in *; by rewrite Hs.
  - intros x e Hin Hk; unfold nodeFor; rewrite Hs; by apply ew_return0.
Qed.

Lemma entriesWf_filter h n l id :
  entriesWf h n l -> entriesWf h n (filter (fun p => eid p.2 <> id) l).
Proof.
  intros []; split.
  - eapply sublist_NoDup; [done|]. apply fmap_sublist, sublist_filter.
  - intros x e [_ Hin]%list_elem_of_filter; by eapply ew_ids0.
  - intros x e [Hne Hin]%list_elem_of_filter Hk; simpl in Hne.
    destruct (ew_call0 x e Hin Hk) as (m & e' & i & o & Hb & Hr & He & Hn & Hi & Ho & Hu).
    exists m, e', i, o; split_and!; try done.
    + apply before_filter; [done|done|simpl; congruence].
    + intros y e2 [_ Hy]%list_elem_of_filter; by apply Hu.
  - intros x e [_ Hin]%list_elem_of_filter; by apply ew_return0.
Qed.

(** Taking the call [x] and its return out is filtering by id. *)
Lemma filter_call l l1 l2 l3 x e m e' :
  NoDup l.*1 -> l = l1 ++ (x, e) :: l2 ++ (m, e') :: l3 -> eid e' = eid e ->
  (forall y e2, (y, e2) ∈ l -> eid e2 = eid e -> y = x \/ y = m) ->
  filter (fun p => eid p.2 <> eid e) l = l1 ++ l2 ++ l3.
Proof.
  intros Hnd Hl He Hu.
  assert (Hall : forall p, p ∈ l1 ++ l2 ++ l3 -> eid p.2 <> eid e).
  { intros [y e2] Hin Heq; simpl in Heq.
    assert (Hinl : (y, e2) ∈ l) by (rewrite Hl; rewrite ?elem_of_app, ?elem_of_cons, ?elem_of_app, ?elem_of_cons in *; tauto).
    rewrite Hl, !fmap_app, !fmap_cons, !fmap_app, !fmap_cons in Hnd; simpl in Hnd.
    assert (Hy : y ∈ l1.*1 ++ l2.*1 ++ l3.*1).
    { rewrite <- !fmap_app; apply list_elem_of_fmap; by exists (y, e2). }
    assert (Hp : l1.*1 ++ x :: l2.*1 ++ m :: l3.*1 ≡ₚ x :: m :: l1.*1 ++ l2.*1 ++ l3.*1) by solve_Permutation.
    rewrite Hp in Hnd; apply NoDup_cons in Hnd as [Hx Hnd]; apply NoDup_cons in Hnd as [Hm _].
    destruct (Hu y e2 Hinl Heq) as [->| ->]; [apply Hx; by right|done]. }
  rewrite Hl, filter_app, filter_cons_False, filter_app, filter_cons_False by (simpl; tauto).
  rewrite !filter_all; [done|intros p Hp; apply Hall; rewrite !elem_of_app; tauto..].
Qed.
End wf.

(** ** The search *)

Section search.
Context {St In Out : Type} (model : Model St In Out) (computePartial : bool).
Notation ent := (entry In Out).
Notation heap := (gmap loc (node In Out)).
Notation srch := (search St In Out).
Context (head_ : loc) (n : Z) (all : list (loc * ent)).
Hypothesis Equal_eq : forall s1 s2, modelEqual model s1 s2 = true -> s1 = s2.
Implicit Types (h : heap) (b : bitset) (st : St) (l : list (loc * ent)).

(** The entries whose operation is not linearized. *)
Definition rem b : list (loc * ent) := filter (fun p => bget b (eid p.2) = Some false) all.

Definition dead b st : Prop := ~ linearizableFrom model (rem b).*2 st.

Record level h b : Prop := {
  lv_linked : linked h (head_ :: (rem b).*1);
  lv_wf : entriesWf h n (rem b);
  lv_bits : forall id, 0 <= id < n -> is_Some (bget b id);
}.

Lemma rem_set b b' id : bset b id = Some b' -> rem b' = filter (fun p => eid p.2 <> id) (rem b).
Proof.
  intros Hs; unfold rem; rewrite list_filter_filter; apply list_filter_iff; intros [x e]; simpl.
  rewrite (bset_get _ _ _ _ Hs); case_decide; naive_solver.
Qed.

Lemma without_snd id l : (filter (fun p => eid p.2 <> id) l).*2 = without id l.*2.
Proof.
  unfold without; induction l as [|[x e] l IH]; [done|].
  rewrite fmap_cons, !filter_cons; cbn [snd]; case_decide; rewrite ?fmap_cons, IH; done.
Qed.

(** *** Nodes of a level *)

Lemma level_node h b pre x e suf :
  level h b -> rem b = pre ++ (x, e) :: suf ->
  exists nd, h !! x = Some nd /\ next nd = head suf.*1 /\ nid nd = eid e /\ nvalue nd = evalue e
    /\ (kind e = returnEntry -> nmatch nd = None)
    /\ (kind e = callEntry -> exists m e', nmatch nd = Some m /\ (m, e') ∈ rem b /\ kind e' = returnEntry
          /\ eid e' = eid e).
Proof.
  intros Hlv Hr; destruct (lv_linked _ _ Hlv) as [_ Hl].
  assert (Hx : (head_ :: (rem b).*1) !! S (length pre) = Some x).
  { simpl; rewrite Hr, fmap_app, fmap_cons; simpl.
    rewrite lookup_app_r by (by rewrite length_fmap). by rewrite length_fmap, Nat.sub_diag. }
  destruct (Hl _ _ Hx) as (nd & Hnd & Hnext & _).
  assert (Hin : (x, e) ∈ rem b) by (rewrite Hr; apply elem_of_app; right; left).
  assert (Hsuf : (head_ :: (rem b).*1) !! S (S (length pre)) = head suf.*1).
  { simpl; rewrite Hr, fmap_app, fmap_cons. rewrite lookup_app_r by (rewrite length_fmap; lia).
    rewrite length_fmap. replace (S (length pre) - length pre)%nat with 1%nat by lia. by destruct suf. }
  destruct (kind e) eqn:Hk.
  - destruct (ew_call _ _ _ (lv_wf _ _ Hlv) x e Hin Hk) as (m & e' & i & o & Hb & Hr' & He' & Hnf & _).
    unfold nodeFor, dataOf in Hnf; rewrite Hnd in Hnf; simplify_eq/=.
    exists nd; split_and!; try done; [congruence|]. intros _; exists m, e'; split_and!; try done.
    by apply before_elem in Hb as [_ ?].
  - pose proof (ew_return _ _ _ (lv_wf _ _ Hlv) x e Hin Hk) as Hnf.
    unfold nodeFor, dataOf in Hnf; rewrite Hnd in Hnf; simplify_eq/=.
    exists nd; split_and!; try done; congruence.
Qed.

Lemma level_head h b :
  level h b -> exists hd, h !! head_ = Some hd /\ next hd = head (rem b).*1.
Proof.
  intros Hlv; destruct (lv_linked _ _ Hlv) as [_ Hl].
  destruct (Hl 0%nat head_ eq_refl) as (hd & Hhd & Hn & _); exists hd; split; [done|].
  rewrite Hn; simpl; by destruct (rem b).*1.
Qed.

(** A level that is not empty ends with a return. *)
Lemma level_return h b pre :
  level h b -> rem b = pre -> Forall (fun p => isCall p.2) pre -> pre = [].
Proof.
  intros Hlv <- Hall; destruct (rem b) as [|[x e] l] eqn:Er; [done|exfalso].
  assert (Hin : (x, e) ∈ rem b) by (rewrite Er; left).
  rewrite Forall_forall in Hall; pose proof (Hall (x, e) ltac:(left)) as Hk; simpl in Hk.
  destruct (ew_call _ _ _ (lv_wf _ _ Hlv) x e Hin Hk) as (m & e' & i & o & Hb & Hr & _).
  apply before_elem in Hb as [_ Hm]; rewrite Er in Hm. specialize (Hall _ Hm); unfold isCall in Hall; simpl in Hall.
  congruence.
Qed.

(** *** Linearizing one operation *)

Lemma level_lift h b pre x e suf :
  level h b -> rem b = pre ++ (x, e) :: suf -> kind e = callEntry ->
  exists b' h', bset b (eid e) = Some b' /\ bclear b' (eid e) = Some b
    /\ lift x h = Some h' /\ unlift x h' = Some h /\ sameData h h' /\ level h' b'
    /\ (length (rem b') < length (rem b))%nat /\ (rem b').*2 = without (eid e) (rem b).*2.
Proof.
  intros Hlv Hr Hk; pose proof (lv_wf _ _ Hlv) as Hwf.
  assert (Hin : (x, e) ∈ rem b) by (rewrite Hr; apply elem_of_app; right; left).
  destruct (ew_call _ _ _ Hwf x e Hin Hk) as (m & e' & i & o & (l1 & l2 & l3 & Hb) & Hr' & He' & Hnf & _ & _ & Hu).
  pose proof (ew_ids _ _ _ Hwf x e Hin) as Hid.
  destruct (bset_is_Some b (eid e) (lv_bits _ _ Hlv _ Hid)) as (b' & Hb' & _).
  assert (Hf : bget b (eid e) = Some false).
  { unfold rem in Hin; by apply list_elem_of_filter in Hin as [? _]. }
  pose proof (lv_linked _ _ Hlv) as Hlk; rewrite Hb, fmap_app, fmap_cons, fmap_app, fmap_cons in Hlk; simpl in Hlk.
  unfold nodeFor, dataOf in Hnf; apply fmap_Some in Hnf as (nd & Hnd & Hdata).
  destruct (lift_linked h head_ _ _ _ x m nd Hlk Hnd ltac:(congruence)) as (h' & Hl & Hlk' & Hs & Hul).
  assert (Hrem : rem b' = l1 ++ l2 ++ l3).
  { rewrite (rem_set _ _ _ Hb'). by eapply (filter_call (rem b)); [apply (ew_nodup _ _ _ Hwf)|..]. }
  exists b', h'; split_and!; try done.
  - by apply bclear_bset.
  - split.
    + by rewrite Hrem, !fmap_app.
    + rewrite (rem_set _ _ _ Hb'). by apply (entriesWf_data h), entriesWf_filter.
    + intros id Hr2; rewrite (bset_get _ _ _ _ Hb'). case_decide; [eauto|]. by apply (lv_bits _ _ Hlv).
  - rewrite Hrem, Hb, !length_app; simpl; rewrite length_app; simpl; lia.
  - by rewrite (rem_set _ _ _ Hb'), without_snd.
Qed.

(** *** Iterations *)

Definition stp (s s' : srch) : Prop :=
  (exists hd y, s_heap s !! head_ = Some hd /\ next hd = Some y)
  /\ iteration model computePartial head_ s = Some (inl s').

Lemma level_live h b pre p suf :
  level h b -> rem b = pre ++ p :: suf -> exists hd y, h !! head_ = Some hd /\ next hd = Some y.
Proof.
  intros Hlv Hr; destruct (level_head h b Hlv) as (hd & Hhd & Hn); exists hd.
  rewrite Hr in Hn; destruct pre; simpl in Hn; eauto.
Qed.

(** The current entry is a call whose step is [(ok, st')]. *)
Lemma iteration_call h b pre x e suf cache calls st lg :
  level h b -> rem b = pre ++ (x, e) :: suf -> kind e = callEntry ->
  exists i o e' nd, evalue e = VIn i /\ e' ∈ (rem b).*2 /\ kind e' = returnEntry /\ eid e' = eid e
    /\ evalue e' = VOut o /\ h !! x = Some nd /\ next nd = head suf.*1 /\
    iteration model computePartial head_ (mkSearch h (Some x) b cache calls st lg)
    = let '(ok, st') := Step model st i o in
      let skip := Some (inl (mkSearch h (head suf.*1) b cache calls st lg)) in
      if ok : bool then
        b' ← bset b (eid e);
        if negb (cacheContains model cache (mkCacheEntry b' st')) then
          h' ← lift x h;
          hd ← h' !! head_;
          Some (inl (mkSearch h' (next hd) b'
            (<[bhash b' := default [] (cache !! bhash b') ++ [mkCacheEntry b' st']]> cache)
            ((x, st) :: calls) st' lg))
        else skip
      else skip.
Proof.
  intros Hlv Hr Hk; destruct (level_node _ _ _ _ _ _ Hlv Hr) as (nd & Hnd & Hnx & Hid & Hv & _ & Hc).
  destruct (Hc Hk) as (m & e' & Hm & Hin' & Hk' & He').
  assert (Hin : (x, e) ∈ rem b) by (rewrite Hr; apply elem_of_app; right; left).
  destruct (ew_call _ _ _ (lv_wf _ _ Hlv) x e Hin Hk) as (m2 & e2 & i & o & Hb & Hk2 & He2 & Hnf & Hi & Ho & _).
  assert (m2 = m) as ->.
  { unfold nodeFor, dataOf in Hnf; rewrite Hnd in Hnf; simpl in Hnf; congruence. }
  apply before_elem in Hb as [_ Hb].
  assert (e2 = e') as -> by (eapply elem_fst; [apply (ew_nodup _ _ _ (lv_wf _ _ Hlv))|done|done]).
  pose proof (ew_return _ _ _ (lv_wf _ _ Hlv) m e' Hin' Hk') as Hnm.
  unfold nodeFor, dataOf in Hnm; apply fmap_Some in Hnm as (mn & Hmn & Hdm).
  exists i, o, e', nd; split_and!; try done.
  { apply list_elem_of_fmap; by exists (m, e'). }
  unfold iteration; cbn [s_entry s_heap s_state s_linearized s_cache s_calls s_longest mbind option_bind].
  rewrite Hnd; cbn [mbind option_bind]; rewrite Hm, Hmn; cbn [mbind option_bind].
  assert (Hvm : nvalue mn = VOut o) by congruence.
  rewrite Hv, Hi, Hvm, Hid, Hnx; unfold bclone.
  destruct (Step model st i o) as [[] st']; [|done].
  destruct (bset b (eid e)); cbn [mbind option_bind]; [|done]. by destruct (negb _).
Qed.

(** *** The cache *)

Definition cached (cache : gmap Z (list (cacheEntry St))) b st : Prop :=
  exists k, mkCacheEntry b st ∈ default [] (cache !! k).

(** Cached configurations are hopeless, or are being explored further up. *)
Definition cacheOk (cache : gmap Z (list (cacheEntry St))) (size : nat) : Prop :=
  forall b st, cached cache b st -> dead b st \/ (size <= length (rem b))%nat.

(** What the exploration of a level adds to the cache is hopeless. *)
Definition grown (cache cache' : gmap Z (list (cacheEntry St))) : Prop :=
  forall b st, cached cache' b st -> cached cache b st \/ dead b st.

Lemma cacheContains_cached cache b st :
  cacheContains model cache (mkCacheEntry b st) = true -> cached cache b st.
Proof using Equal_eq.
  unfold cacheContains; simpl; intros H; exists (bhash b).
  induction (default [] (cache !! bhash b)) as [|[b2 s2] l IH]; simpl in H; [done|].
  case_if_in H; [|right; by apply IH].
  apply bequals_eq in H0 as ->; apply Equal_eq in H1 as ->; left.
Qed.

Lemma cached_insert cache k b1 st1 b st :
  cached (<[k := default [] (cache !! k) ++ [mkCacheEntry b1 st1]]> cache) b st ->
  cached cache b st \/ (b = b1 /\ st = st1).
Proof.
  intros [k' Hin]; destruct (decide (k' = k)) as [->|Hne].
  - rewrite lookup_insert_eq in Hin; simpl in Hin; apply elem_of_app in Hin as [Hin|Hin].
    + left; by exists k.
    + apply list_elem_of_singleton in Hin; simplify_eq; by right.
  - rewrite lookup_insert_ne in Hin by done. left; by exists k'.
Qed.

(** *** Bookkeeping of the calls *)

Lemma callIds_data h h' (calls : list (loc * St)) : sameData h h' -> callIds h' calls = callIds h calls.
Proof.
  intros Hs; unfold callIds; induction (reverse calls) as [|c cs IH]; simpl; [done|].
  rewrite IH. specialize (Hs c.1); unfold dataOf in Hs.
  destruct (h' !! c.1), (h !! c.1); simpl in *; try done. by injection Hs as _ _ ->.
Qed.

Lemma mapM_snoc {A B} (f : A -> option B) (l : list A) x y ys :
  mapM f l = Some ys -> f x = Some y -> mapM f (l ++ [x]) = Some (ys ++ [y]).
Proof.
  rewrite !mapM_Some; intros Hl Hx. by apply Forall2_app; [|constructor].
Qed.

Lemma callIds_push h calls ids x st nd :
  callIds h calls = Some ids -> h !! x = Some nd ->
  callIds h ((x, st) :: calls) = Some (ids ++ [nid nd]).
Proof.
  intros Hi Hx; unfold callIds in *; rewrite reverse_cons. apply mapM_snoc; [done|simpl; by rewrite Hx].
Qed.

Lemma longestLoop_ok ids seq lg :
  (forall i, i ∈ ids -> 0 <= i < len lg) -> exists lg', longestLoop ids seq lg = Some lg' /\ len lg' = len lg.
Proof.
  revert lg; induction ids as [|i ids IH]; intros lg Hr; cbn [longestLoop]; [eauto|].
  destruct (idx_in_range lg i (Hr i ltac:(left))) as [old Hold]; rewrite Hold; cbn [mbind option_bind].
  pose proof (upd_ok lg i (Some seq) (Hr i ltac:(left))) as Hu.
  destruct (match old with Some _ => _ | None => _ end); [rewrite Hu|]; cbn [mbind option_bind].
  - pose proof (upd_len _ _ _ _ Hu) as Hl.
    destruct (IH (<[Z.to_nat i:=Some seq]> lg)) as (lg' & E & Hl').
    { intros j Hj; rewrite Hl; apply Hr; by right. }
    exists lg'; split; [done|congruence].
  - apply IH; intros j Hj; apply Hr; by right.
Qed.

(** Backtracking: the current entry is a return. *)
Lemma iteration_pop h' b' pre r e' suf cache x st calls st' lg ids h b nd nd' :
  level h' b' -> rem b' = pre ++ (r, e') :: suf -> kind e' = returnEntry ->
  callIds h' ((x, st) :: calls) = Some ids -> (forall i, i ∈ ids -> 0 <= i < n) -> len lg = n ->
  h' !! x = Some nd' -> bclear b' (nid nd') = Some b -> unlift x h' = Some h -> h !! x = Some nd ->
  exists lg', len lg' = n /\
    iteration model computePartial head_ (mkSearch h' (Some r) b' cache ((x, st) :: calls) st' lg)
    = Some (inl (mkSearch h (next nd) b cache calls st lg')).
Proof.
  intros Hlv Hr Hk Hids Hrange Hlg Hx' Hb Hul Hx.
  destruct (level_node _ _ _ _ _ _ Hlv Hr) as (rd & Hrd & _ & _ & _ & Hnone & _).
  unfold iteration; cbn [s_entry s_heap s_state s_linearized s_cache s_calls s_longest mbind option_bind].
  rewrite Hrd; cbn [mbind option_bind]; rewrite (Hnone Hk), Hids; cbn [mbind option_bind].
  destruct (longestLoop_ok ids ids lg) as (lg2 & E2 & Hl2); [by rewrite Hlg|].
  exists (if computePartial then lg2 else lg); split; [destruct computePartial; lia|].
  destruct computePartial; cbn [mbind option_bind]; [rewrite E2; cbn [mbind option_bind]|];
    rewrite Hx'; cbn [mbind option_bind]; rewrite Hb; cbn [mbind option_bind];
    rewrite Hul; cbn [mbind option_bind]; by rewrite Hx.
Qed.

(** The loop has emptied the list: the calls are a linearization. *)
Definition succeeds (s : srch) (ids : list Z) b st : Prop :=
  exists s' seq, rtc stp s s' /\ (exists hd, s_heap s' !! head_ = Some hd /\ next hd = None)
    /\ callIds (s_heap s') (s_calls s') = Some (ids ++ seq)
    /\ lin model (rem b).*2 st seq /\ len (s_longest s') = n.

(** The loop has tried everything from position [j] on in vain, and is back at
    the level it started from. *)
Definition fails (s : srch) h b cache calls st (j : nat) : Prop :=
  exists r e pre suf cache' lg', rtc stp s (mkSearch h (Some r) b cache' calls st lg')
    /\ rem b = pre ++ (r, e) :: suf /\ kind e = returnEntry
    /\ deadFrom model j (rem b).*2 st /\ grown cache cache' /\ len lg' = n.

Lemma succeeds_step s1 s2 ids b st : stp s1 s2 -> succeeds s2 ids b st -> succeeds s1 ids b st.
Proof. intros Hs (s' & seq & Hr & ?); exists s', seq; split; [by eapply rtc_l|done]. Qed.

Lemma fails_step s1 s2 h b cache0 cache calls st j :
  rtc stp s1 s2 -> grown cache0 cache -> fails s2 h b cache calls st (S j) ->
  (forall e s', opens model (rem b).*2 st j e s' -> ~ linearizableFrom model (without (eid e) (rem b).*2) s') ->
  fails s1 h b cache0 calls st j.
Proof.
  intros Hs Hg (r & e & pre & suf & cache' & lg' & Hr & Hrem & Hk & Hd & Hg' & Hl) Hj.
  exists r, e, pre, suf, cache', lg'; split_and!; try done.
  - by etrans.
  - by apply deadFrom_S.
  - intros b0 s0 [Hc|]%Hg'; [by apply Hg|by right].
Qed.

Lemma rem_lookup b pre x e suf :
  rem b = pre ++ (x, e) :: suf -> (rem b).*2 !! length pre = Some e.
Proof.
  intros ->; rewrite fmap_app, fmap_cons. rewrite lookup_app_r by (by rewrite length_fmap).
  by rewrite length_fmap, Nat.sub_diag.
Qed.

Lemma explore_return h b pre x e suf cache calls st lg :
  rem b = pre ++ (x, e) :: suf -> kind e = returnEntry -> len lg = n ->
  fails (mkSearch h (Some x) b cache calls st lg) h b cache calls st (length pre).
Proof.
  intros Hr Hk Hl; exists x, e, pre, suf, cache, lg; split_and!; try done; [|by left].
  eapply deadFrom_return; [by eapply rem_lookup|done].
Qed.

(** The position of the current call has only this operation. *)
Lemma opens_at b pre x e suf st i o e' e0 s' :
  rem b = pre ++ (x, e) :: suf -> evalue e = VIn i -> e' ∈ (rem b).*2 -> kind e' = returnEntry ->
  eid e' = eid e -> evalue e' = VOut o ->
  (forall e2, e2 ∈ (rem b).*2 -> kind e2 = returnEntry -> eid e2 = eid e -> e2 = e') ->
  opens model (rem b).*2 st (length pre) e0 s' -> e0 = e /\ Step model st i o = (true, s').
Proof.
  intros Hr Hi He' Hk' Hid' Ho Hu (He0 & _ & _ & i2 & e2 & o2 & Hi2 & Hin2 & Hk2 & Hid2 & Ho2 & Hst).
  assert (e0 = e) as -> by (rewrite (rem_lookup _ _ _ _ _ Hr) in He0; congruence).
  assert (e2 = e') as -> by (apply Hu; auto). split; [done|]. rewrite Hi in Hi2; rewrite Ho in Ho2; by simplify_eq.
Qed.

Lemma return_unique h b x e e1 e2 :
  level h b -> (x, e) ∈ rem b -> kind e = callEntry ->
  e1 ∈ (rem b).*2 -> kind e1 = returnEntry -> eid e1 = eid e ->
  e2 ∈ (rem b).*2 -> kind e2 = returnEntry -> eid e2 = eid e -> e1 = e2.
Proof.
  intros Hlv Hin Hk [[y1 f1] [-> H1]]%list_elem_of_fmap Hk1 Hi1 [[y2 f2] [-> H2]]%list_elem_of_fmap Hk2 Hi2.
  simpl in *. pose proof (ew_nodup _ _ _ (lv_wf _ _ Hlv)) as Hnd.
  destruct (ew_call _ _ _ (lv_wf _ _ Hlv) x e Hin Hk) as (m & e' & i & o & _ & _ & _ & _ & _ & _ & Hu).
  assert (Hm : forall y f, (y, f) ∈ rem b -> kind f = returnEntry -> eid f = eid e -> y = m).
  { intros y f Hy Hf Hid; destruct (Hu y f Hy Hid) as [->|]; [|done].
    assert (f = e) by (by eapply elem_fst). congruence. }
  rewrite (Hm y1 f1 H1 Hk1 Hi1) in H1; rewrite (Hm y2 f2 H2 Hk2 Hi2) in H2. by eapply elem_fst.
Qed.

Definition idsOk (ids : list Z) : Prop := forall i, i ∈ ids -> 0 <= i < n.

(** A level explored from position [length pre] on. *)
Definition explores h b (pre suf : list (loc * ent)) cache calls st lg ids : Prop :=
  let s := mkSearch h (head suf.*1) b cache calls st lg in
  succeeds s ids b st \/ fails s h b cache calls st (length pre).

Definition explorable (size : nat) : Prop :=
  forall h b cache calls st lg ids,
    (length (rem b) < size)%nat -> level h b -> rem b <> [] -> cacheOk cache (length (rem b)) ->
    len lg = n -> callIds h calls = Some ids -> idsOk ids ->
    explores h b [] (rem b) cache calls st lg ids.

(** The cache of the child level. *)
Lemma cacheOk_child cache b b' st' k :
  cacheOk cache (length (rem b)) -> (length (rem b') < length (rem b))%nat ->
  cacheOk (<[k := default [] (cache !! k) ++ [mkCacheEntry b' st']]> cache) (length (rem b')).
Proof.
  intros Hc Hlt b0 s0 Hin; apply cached_insert in Hin as [Hin|[-> ->]]; [|right; lia].
  destruct (Hc _ _ Hin); [by left|right; lia].
Qed.

Lemma grown_child cache cache' b' st' k :
  grown (<[k := default [] (cache !! k) ++ [mkCacheEntry b' st']]> cache) cache' -> dead b' st' ->
  grown cache cache'.
Proof.
  intros Hg Hd b0 s0 Hin; apply Hg in Hin as [Hin|]; [|by right].
  apply cached_insert in Hin as [|[-> ->]]; [by left|by right].
Qed.

Lemma cacheOk_grown cache cache' size : cacheOk cache size -> grown cache cache' -> cacheOk cache' size.
Proof. intros Hc Hg b0 s0 [Hin|]%Hg; [by apply Hc|by left]. Qed.

Lemma explore_push h b pre x e suf cache calls st lg ids i o e' b' h' st' :
  explorable (length (rem b)) ->
  level h b -> rem b = pre ++ (x, e) :: suf -> kind e = callEntry -> Forall (fun p => isCall p.2) pre ->
  cacheOk cache (length (rem b)) -> len lg = n -> callIds h calls = Some ids -> idsOk ids ->
  evalue e = VIn i -> e' ∈ (rem b).*2 -> kind e' = returnEntry -> eid e' = eid e -> evalue e' = VOut o ->
  Step model st i o = (true, st') ->
  bset b (eid e) = Some b' -> bclear b' (eid e) = Some b -> lift x h = Some h' -> unlift x h' = Some h ->
  sameData h h' -> level h' b' -> (length (rem b') < length (rem b))%nat ->
  (rem b').*2 = without (eid e) (rem b).*2 ->
  let cache1 := <[bhash b' := default [] (cache !! bhash b') ++ [mkCacheEntry b' st']]> cache in
  let s1 := mkSearch h' (head (rem b').*1) b' cache1 ((x, st) :: calls) st' lg in
  succeeds s1 ids b st
  \/ exists cache' lg', rtc stp s1 (mkSearch h (head suf.*1) b cache' calls st lg')
       /\ grown cache cache' /\ len lg' = n /\ dead b' st'.
Proof.
  intros IH Hlv Hr Hk Hpre Hc Hlg Hids Hok Hi He' Hk' Hid' Ho Hst Hb' Hbc Hl Hul Hs Hlv' Hlt Hw cache1 s1.
  destruct (level_node _ _ _ _ _ _ Hlv Hr) as (nd & Hnd & Hnx & Hnid & _).
  assert (Hin : (x, e) ∈ rem b) by (rewrite Hr; apply elem_of_app; right; left).
  assert (Hids' : callIds h' ((x, st) :: calls) = Some (ids ++ [eid e])).
  { rewrite (callIds_data h h') by done. rewrite <- Hnid. by apply callIds_push. }
  assert (Hok' : idsOk (ids ++ [eid e])).
  { intros z [Hz|Hz%list_elem_of_singleton]%elem_of_app; [by apply Hok|subst].
    by apply (ew_ids _ _ _ (lv_wf _ _ Hlv) x e). }
  assert (Hopen : opens model (rem b).*2 st (length pre) e st').
  { split_and!; [by eapply rem_lookup|done| |by exists i, e', o].
    rewrite Hr, fmap_app, take_app_length' by (by rewrite length_fmap). by apply Forall_fmap. }
  assert (Hlin : forall seq, lin model (rem b').*2 st' seq -> lin model (rem b).*2 st (eid e :: seq)).
  { intros seq Hseq; rewrite Hw in Hseq. by eapply lin_op. }
  destruct (decide (rem b' = [])) as [Hnil|Hne].
  - left; exists s1, [eid e]; split_and!; [apply rtc_refl| |done| |done].
    + destruct (level_head _ _ Hlv') as (hd & Hhd & Hn); exists hd; split; [done|]. by rewrite Hn, Hnil.
    + apply Hlin; rewrite Hnil; constructor.
  - destruct (IH h' b' cache1 ((x, st) :: calls) st' lg (ids ++ [eid e])) as [Hsucc|Hfail];
      [done|done|done|by apply (cacheOk_child cache b)|done|done|done| |].
    + left; destruct Hsucc as (s' & seq & Hrt & Hfin & Hcall & Hseq & Hlen).
      exists s', (eid e :: seq); split_and!; [done|done|by rewrite Hcall, <- (assoc app)|by apply Hlin|done].
    + right; destruct Hfail as (r & er & pre' & suf' & cache' & lg' & Hrt & Hr' & Hkr & Hd & Hg & Hlen).
      assert (Hdead : dead b' st').
      { apply deadFrom_0; [done|]. intros E; apply Hne. by destruct (rem b'). }
      destruct (sameData_lookup _ _ _ _ Hs Hnd) as (nd' & Hnd' & _ & _ & Hnid').
      destruct (iteration_pop h' b' pre' r er suf' cache' x st calls st' lg' (ids ++ [eid e]) h b nd nd')
        as (lg2 & Hlg2 & Hit); try done; [congruence|].
      exists cache', lg2; split_and!; [|by eapply grown_child|done|done].
      eapply rtc_r; [exact Hrt|]. split; [by eapply level_live|]. simpl in *; by rewrite <- Hnx.
Qed.

(** Moving on from the current call, which is hopeless. *)
Lemma explore_next s1 h b pre x e suf cache0 cache calls st lg ids i o e' :
  level h b -> rem b = pre ++ (x, e) :: suf -> kind e = callEntry ->
  evalue e = VIn i -> e' ∈ (rem b).*2 -> kind e' = returnEntry -> eid e' = eid e -> evalue e' = VOut o ->
  (forall st', Step model st i o = (true, st') -> ~ linearizableFrom model (without (eid e) (rem b).*2) st') ->
  rtc stp s1 (mkSearch h (head suf.*1) b cache calls st lg) -> grown cache0 cache ->
  explores h b (pre ++ [(x, e)]) suf cache calls st lg ids ->
  succeeds s1 ids b st \/ fails s1 h b cache0 calls st (length pre).
Proof.
  intros Hlv Hr Hk Hi He' Hk' Hid' Ho Hdead Hrt Hg [(s' & seq & Hrt' & ?)|Hf].
  - left; exists s', seq; split; [by etrans|done].
  - right; rewrite length_app, Nat.add_1_r in Hf. eapply fails_step; [done|done|done|].
    intros e0 s' Hop. assert (Hin : (x, e) ∈ rem b) by (rewrite Hr; apply elem_of_app; right; left).
    destruct (opens_at b pre x e suf st i o e' e0 s') as [-> Hst]; try done; [|by apply Hdead].
    intros e2 H1 H2 H3; by eapply (return_unique h b x e).
Qed.

Lemma explore_level h b :
  explorable (length (rem b)) -> level h b -> rem b <> [] ->
  forall suf pre cache calls st lg ids,
    rem b = pre ++ suf -> Forall (fun p => isCall p.2) pre -> cacheOk cache (length (rem b)) ->
    len lg = n -> callIds h calls = Some ids -> idsOk ids ->
    explores h b pre suf cache calls st lg ids.
Proof.
  intros IHsize Hlv Hne; induction suf as [|[x e] suf IH]; intros pre cache calls st lg ids Hr Hpre Hc Hlg Hids Hok.
  { rewrite app_nil_r in Hr. destruct Hne; rewrite Hr. by eapply level_return. }
  destruct (kind e) eqn:Hk; [|right; by eapply explore_return].
  assert (Hpre' : Forall (fun p => isCall p.2) (pre ++ [(x, e)])) by (apply Forall_app; split; [done|by constructor]).
  assert (Hr' : rem b = (pre ++ [(x, e)]) ++ suf) by (by rewrite <- (assoc app)).
  destruct (iteration_call h b pre x e suf cache calls st lg Hlv Hr Hk)
    as (i & o & e' & nd & Hi & He' & Hk' & Hid' & Ho & _ & _ & Hit).
  pose proof (level_live _ _ _ _ _ Hlv Hr) as Hlive.
  destruct (Step model st i o) as [ok st'] eqn:Hst; destruct ok.
  - destruct (level_lift h b pre x e suf Hlv Hr Hk) as (b' & h' & Hb' & Hbc & Hl & Hul & Hs & Hlv' & Hlt & Hw).
    rewrite Hb', Hl in Hit; cbn [mbind option_bind] in Hit.
    destruct (level_head _ _ Hlv') as (hd & Hhd & Hnhd); rewrite Hhd in Hit; cbn [mbind option_bind] in Hit.
    rewrite Hnhd in Hit.
    destruct (cacheContains model cache (mkCacheEntry b' st')) eqn:Hcc; cbn [negb] in Hit.
    + apply cacheContains_cached in Hcc.
      eapply explore_next; [done..| |by apply rtc_once|by left|by apply IH].
      intros st2 Hst2; rewrite Hst in Hst2; injection Hst2 as <-.
      destruct (Hc _ _ Hcc) as [Hd|]; [|lia]. by rewrite <- Hw.
    + destruct (explore_push h b pre x e suf cache calls st lg ids i o e' b' h' st') as [Hsucc|Hfail]; try done.
      * left; by eapply succeeds_step.
      * destruct Hfail as (cache' & lg' & Hrt & Hg & Hlg' & Hd).
        eapply explore_next; [done..| |by eapply rtc_l|done|apply IH; try done; by eapply cacheOk_grown].
        intros st2 Hst2; rewrite Hst in Hst2; injection Hst2 as <-. by rewrite <- Hw.
  - eapply explore_next; [done..| |by apply rtc_once|by left|by apply IH].
    intros st2 Hst2; congruence.
Qed.

Lemma explorable_all size : explorable size.
Proof.
  induction size as [|size IH]; intros h b cache calls st lg ids Hlt Hlv Hne Hc Hlg Hids Hok; [lia|].
  apply (explore_level h b); try done. intros h2 b2 cache2 calls2 st2 lg2 ids2 Hlt2.
  apply IH; lia.
Qed.
End search.
