(* ===== verification/CheckerBuild.v ===== *)
(** * porcupine: building the list

    [makeLinkedEntries] turns a well-formed sequence of entries into a linked
    list in which every call points to its return. *)

From S2P Require Import Prelude Bitset Checker CheckerHeap CheckerSearch.

#[local] Open Scope Z_scope.

Section build.
Context {In Out : Type}.
Notation ent := (entry In Out).
Notation heap := (gmap loc (node In Out)).
Implicit Types (h : heap) (E : list ent) (L : list loc).

(** Every call is followed by one return with its id, every return is preceded
    by its call, ids are below [n] and values have the right kind. *)
Record historyWf (n : Z) E : Prop := {
  hw_len : len E = 2 * n;
  hw_ids : forall e, e ∈ E -> 0 <= eid e < n;
  hw_unique : forall i j e e', E !! i = Some e -> E !! j = Some e' -> kind e = kind e' -> eid e = eid e' -> i = j;
  hw_call : forall i e, E !! i = Some e -> kind e = callEntry ->
    (exists x, evalue e = VIn x)
    /\ exists j e', (i < j)%nat /\ E !! j = Some e' /\ kind e' = returnEntry /\ eid e' = eid e;
  hw_return : forall j e', E !! j = Some e' -> kind e' = returnEntry ->
    (exists x, evalue e' = VOut x)
    /\ exists i e, (i < j)%nat /\ E !! i = Some e /\ kind e = callEntry /\ eid e = eid e';
}.

(** The nodes of a suffix of the entries. [mt] is the pointer of the first. *)
Definition matchSpec (mt : option loc) (e : ent) L E : Prop :=
  match kind e with
  | returnEntry => mt = None
  | callEntry => forall j e', E !! j = Some e' -> kind e' = returnEntry -> eid e' = eid e -> mt = L !! j
  end.

Inductive built h : list loc -> list ent -> Prop :=
| built_nil : built h [] []
| built_cons x e mt L E :
    nodeFor h x e mt -> matchSpec mt e L E -> built h L E -> built h (x :: L) (e :: E).

Lemma built_data h h' L E : (forall x, x ∈ L -> dataOf h' x = dataOf h x) -> built h L E -> built h' L E.
Proof.
  intros Hd Hb; induction Hb as [|x e mt L E Hn Hm Hb IH]; [constructor|].
  apply (built_cons _ _ _ mt); [unfold nodeFor; rewrite Hd by left; done|done|].
  apply IH; intros y Hy; apply Hd; by right.
Qed.

Lemma built_length h L E : built h L E -> length L = length E.
Proof. induction 1; simpl; congruence. Qed.

Lemma insertBefore_linked h L x n0 :
  linked h L -> x ∉ L -> h !! x = Some n0 -> next n0 = None -> prev n0 = None ->
  exists h', insertBefore x (head L) h = Some h' /\ linked h' (x :: L) /\ sameData h h'.
Proof.
  intros [Hnd Hl] Hx Hn0 Hnx Hpv; destruct L as [|y L]; simpl.
  { exists h; split; [done|split; [|done]]. split; [by apply NoDup_singleton|].
    intros [|i] z Hz; simpl in Hz; simplify_eq. exists n0; by rewrite Hnx, Hpv. }
  destruct (Hl 0%nat y eq_refl) as (ny & Hny & Eny & Epy); simpl in Epy.
  assert (Hxy : x <> y) by (intros ->; apply Hx; left).
  rewrite Hny; cbn [mbind option_bind].
  set (ny1 := mkNode (nvalue ny) (nmatch ny) (nid ny) (next ny) (Some x)).
  set (nx1 := mkNode (nvalue n0) (nmatch n0) (nid n0) (Some y) (prev n0)).
  assert (E1 : set_prev y (Some x) h = Some (<[y := ny1]> h)) by (unfold set_prev; by rewrite Hny).
  assert (E2 : set_next x (Some y) (<[y := ny1]> h) = Some (<[x := nx1]> (<[y := ny1]> h)))
    by (unfold set_next; by rewrite lookup_insert_ne, Hn0).
  rewrite E1; cbn [mbind option_bind]; rewrite E2; cbn [mbind option_bind]; rewrite Epy.
  eexists; split; [done|]. split.
  - split; [by apply NoDup_cons|]. intros [|[|i]] z Hz; simpl in Hz.
    + simplify_eq; exists nx1; rewrite lookup_insert_eq; split_and!; [done|done|simpl; done].
    + simplify_eq; exists ny1; rewrite lookup_insert_ne, lookup_insert_eq by done. split_and!; [done| |done].
      simpl; by rewrite Eny.
    + destruct (Hl (S i) z Hz) as (nz & Hnz & Enz & Epz).
      assert (z <> x) by (intros ->; apply Hx; by apply list_elem_of_lookup_2 with (i := S i)).
      assert (z <> y) by (intros ->; assert (S i = 0)%nat by (by eapply NoDup_lookup); lia).
      exists nz; by rewrite !lookup_insert_ne.
  - intros z; unfold dataOf. destruct (decide (z = x)) as [->|]; [by rewrite lookup_insert_eq, Hn0|].
    rewrite lookup_insert_ne by done. destruct (decide (z = y)) as [->|]; [by rewrite lookup_insert_eq, Hny|].
    by rewrite lookup_insert_ne.
Qed.

(** The state of the loop after the entries [E]. *)
Record linkInv E (root : option loc) (fresh : loc) (mtch : gmap Z loc) h : Prop := {
  li_fresh : fresh = length E;
  li_root : root = head (reverse (seq 0 fresh));
  li_linked : linked h (reverse (seq 0 fresh));
  li_built : built h (reverse (seq 0 fresh)) E;
  li_match : forall j e, E !! j = Some e -> kind e = returnEntry -> mtch !! eid e = reverse (seq 0 fresh) !! j;
  li_dom : forall x : loc, is_Some (h !! x) <-> (x < fresh)%nat;
}.

Lemma reverse_seq_S k : reverse (seq 0 (S k)) = k :: reverse (seq 0 k).
Proof. by rewrite seq_S, reverse_app. Qed.

Lemma elem_reverse_seq k x : x ∈ reverse (seq 0 k) <-> (x < k)%nat.
Proof. rewrite elem_of_reverse, elem_of_seq; lia. Qed.

(** Adding a node with the pointer [mt] in front. *)
Lemma link_node E root fresh mtch h e mt :
  linkInv E root fresh mtch h -> matchSpec mt e (reverse (seq 0 fresh)) E ->
  exists h', insertBefore fresh root (<[fresh := mkNode (evalue e) mt (eid e) None None]> h) = Some h'
    /\ linked h' (reverse (seq 0 (S fresh))) /\ built h' (reverse (seq 0 (S fresh))) (e :: E)
    /\ (forall x : loc, is_Some (h' !! x) <-> (x < S fresh)%nat).
Proof.
  intros [] Hm. set (h1 := <[fresh := mkNode (evalue e) mt (eid e) None None]> h).
  assert (Hnot : fresh ∉ reverse (seq 0 fresh)) by (rewrite elem_reverse_seq; lia).
  assert (Hl1 : linked h1 (reverse (seq 0 fresh))).
  { destruct li_linked0 as [Hnd Hl]; split; [done|]. intros i x Hx; destruct (Hl i x Hx) as (n & ? & ?).
    exists n; split; [|done]. unfold h1; rewrite lookup_insert_ne; [done|].
    intros <-; apply Hnot. by apply list_elem_of_lookup_2 with (i := i). }
  destruct (insertBefore_linked h1 (reverse (seq 0 fresh)) fresh (mkNode (evalue e) mt (eid e) None None))
    as (h' & Hi & Hl' & Hs); [done|done|by apply lookup_insert_eq|done|done|].
  exists h'; rewrite reverse_seq_S; split; [by rewrite li_root0|]. split; [done|]. split.
  - apply (built_cons _ _ _ mt); [|done|].
    + unfold nodeFor; rewrite Hs; unfold dataOf, h1; by rewrite lookup_insert_eq.
    + eapply built_data; [|exact li_built0]. intros x Hx; rewrite Hs; unfold dataOf, h1.
      rewrite lookup_insert_ne; [done|]. by intros <-.
  - intros x; specialize (Hs x); unfold dataOf in Hs.
    assert (Hx : is_Some (h' !! x) <-> is_Some (h1 !! x)).
    { destruct (h' !! x) as [a|], (h1 !! x) as [c|]; simpl in Hs; [split; by eexists|done|done|tauto]. }
    rewrite Hx; unfold h1; destruct (decide (x = fresh)) as [->|].
    + rewrite lookup_insert_eq; split; [lia|eauto].
    + rewrite lookup_insert_ne, li_dom0 by done. lia.
Qed.

Lemma link_step E root fresh mtch h e :
  linkInv E root fresh mtch h ->
  (kind e = returnEntry -> forall j e', E !! j = Some e' -> kind e' = returnEntry -> eid e' <> eid e) ->
  exists root' mtch' h', linkInv (e :: E) root' (S fresh) mtch' h'
    /\ forall rest, linkLoop (e :: rest) fresh root mtch h = linkLoop rest (S fresh) root' mtch' h'.
Proof.
  intros Hi Hfresh. pose proof Hi as [].
  destruct (kind e) eqn:Hk.
  - destruct (link_node E root fresh mtch h e (mtch !! eid e) Hi) as (h' & Hb & Hl & Hbu & Hd).
    { unfold matchSpec; rewrite Hk; intros j e' He' Hk' Hid. rewrite <- Hid. by apply li_match0. }
    exists (Some fresh), mtch, h'; split.
    + split; try done; [simpl; congruence|by rewrite reverse_seq_S|].
      intros [|j] e' He' Hk'; simpl in He'; [congruence|]. rewrite reverse_seq_S; by apply li_match0.
    + intros rest; cbn [linkLoop]; by rewrite Hk, Hb.
  - destruct (link_node E root fresh mtch h e None Hi) as (h' & Hb & Hl & Hbu & Hd).
    { unfold matchSpec; by rewrite Hk. }
    exists (Some fresh), (<[eid e := fresh]> mtch), h'; split.
    + split; try done; [simpl; congruence|by rewrite reverse_seq_S|].
      intros [|j] e' He' Hk'; simpl in He'; rewrite reverse_seq_S.
      * simplify_eq; by rewrite lookup_insert_eq.
      * rewrite lookup_insert_ne; [by apply li_match0|]. apply not_eq_sym. by eapply Hfresh.
    + intros rest; cbn [linkLoop]; by rewrite Hk, Hb.
Qed.

(** Return ids are pairwise different. *)
Definition returnsUnique E : Prop :=
  forall i j e e', E !! i = Some e -> E !! j = Some e' -> kind e = returnEntry -> kind e' = returnEntry ->
    eid e = eid e' -> i = j.

Lemma linkLoop_spec E1 E2 root fresh mtch h :
  linkInv E2 root fresh mtch h -> returnsUnique (E1 ++ E2) ->
  exists root' fresh' mtch' h', linkLoop (reverse E1) fresh root mtch h = Some (root', fresh', h')
    /\ linkInv (E1 ++ E2) root' fresh' mtch' h'.
Proof.
  revert E2 root fresh mtch h; induction E1 as [|e E1 IH] using rev_ind; intros E2 root fresh mtch h Hi Hu.
  { exists root, fresh, mtch, h; by split. }
  rewrite <- (assoc app) in Hu; simpl in Hu.
  destruct (link_step E2 root fresh mtch h e Hi) as (root1 & mtch1 & h1 & Hi1 & Hstep).
  { intros Hk j e' He' Hk' Hid.
    assert (length E1 = length E1 + S j)%nat; [|lia].
    apply (Hu _ _ e e'); [by apply list_lookup_middle| |done|done|done].
    rewrite lookup_app_r by lia. by replace (length E1 + S j - length E1)%nat with (S j) by lia. }
  destruct (IH (e :: E2) root1 (S fresh) mtch1 h1 Hi1 Hu) as (root' & fresh' & mtch' & h' & Hl & Hi').
  exists root', fresh', mtch', h'; rewrite reverse_snoc, Hstep, <- (assoc app). by split.
Qed.

(** ** The built list is well formed *)

Lemma built_lookup h L E i x e :
  built h L E -> L !! i = Some x -> E !! i = Some e ->
  exists mt, nodeFor h x e mt /\ (kind e = returnEntry -> mt = None)
    /\ (kind e = callEntry -> forall j e', (i < j)%nat -> E !! j = Some e' -> kind e' = returnEntry ->
          eid e' = eid e -> mt = L !! j).
Proof.
  intros Hb; revert i; induction Hb as [|y f mt L E Hn Hm Hb IH]; intros i HL HE; [done|].
  destruct i as [|i]; simpl in *.
  - simplify_eq; exists mt; unfold matchSpec in Hm; split_and!; [done| |].
    + intros Hk; by rewrite Hk in Hm.
    + intros Hk j e' Hj He' Hk' Hid; rewrite Hk in Hm. destruct j as [|j]; [lia|]. by eapply Hm.
  - destruct (IH i HL HE) as (mt' & ? & ? & Hc); exists mt'; split_and!; try done.
    intros Hk j e' Hj He' Hk' Hid; destruct j as [|j]; [lia|]. eapply Hc; [done|lia|done..].
Qed.

Lemma lookup_before (l : list (loc * ent)) i j a c :
  l !! i = Some a -> l !! j = Some c -> (i < j)%nat -> before a c l.
Proof.
  intros Ha Hc Hij; apply list_elem_of_split_length in Ha as (l1 & l2 & -> & ->).
  rewrite lookup_app_r in Hc by lia. destruct (j - length l1)%nat as [|k] eqn:Ek; [lia|]; simpl in Hc.
  apply list_elem_of_split_length in Hc as (l3 & l4 & -> & _). by exists l1, l3, l4.
Qed.

Lemma zip_lookup L E i x e :
  zip L E !! i = Some (x, e) <-> L !! i = Some x /\ E !! i = Some e.
Proof. rewrite lookup_zip_with; destruct (L !! i), (E !! i); naive_solver. Qed.

Lemma built_wf h n L E :
  built h L E -> NoDup L -> historyWf n E -> entriesWf h n (zip L E).
Proof.
  intros Hb Hnd []; pose proof (built_length _ _ _ Hb) as Hlen; split.
  - by rewrite fst_zip by lia.
  - intros x e [i [_ He]%zip_lookup]%list_elem_of_lookup_1. apply hw_ids0. by eapply list_elem_of_lookup_2.
  - intros x e [i Hi]%list_elem_of_lookup_1 Hk; pose proof Hi as [Hx He]%zip_lookup.
    destruct (hw_call0 i e He Hk) as ([v Hv] & j & e' & Hij & He' & Hk' & Hid).
    destruct (hw_return0 j e' He' Hk') as ([w Hw] & _).
    destruct (lookup_lt_is_Some_2 L j) as [m Hm]; [rewrite Hlen; by eapply lookup_lt_Some|].
    destruct (built_lookup _ _ _ _ _ _ Hb Hx He) as (mt & Hn & _ & Hc).
    assert (mt = Some m) as -> by (rewrite <- Hm; by eapply Hc).
    exists m, e', v, w; split_and!; try done.
    + eapply lookup_before; [done|by apply zip_lookup|done].
    + intros y e2 [k [Hy He2]%zip_lookup]%list_elem_of_lookup_1 Hid2. destruct (kind e2) eqn:Hk2.
      * left. assert (k = i) as -> by (eapply hw_unique0; [done|done|congruence|done]). congruence.
      * right. assert (k = j) as -> by (eapply hw_unique0; [done|done|congruence|congruence]). congruence.
  - intros x e [i [Hx He]%zip_lookup]%list_elem_of_lookup_1 Hk.
    destruct (built_lookup _ _ _ _ _ _ Hb Hx He) as (mt & Hn & Hr & _). by rewrite (Hr Hk) in Hn.
Qed.

Lemma lengthLoop_spec h L pre suf fuel :
  linked h L -> L = pre ++ suf -> (length suf <= fuel)%nat ->
  lengthLoop fuel (head suf) h = Some (len suf).
Proof.
  intros [_ Hl] ->; revert pre Hl fuel; induction suf as [|x suf IH]; intros pre Hl fuel Hf; [by destruct fuel|].
  destruct fuel as [|fuel]; simpl in Hf; [lia|].
  destruct (Hl (length pre) x) as (nd & Hnd & Hnx & _); [by apply list_lookup_middle|].
  cbn [lengthLoop head]; rewrite Hnd; cbn [mbind option_bind].
  assert (Hh : next nd = head suf).
  { rewrite Hnx, lookup_app_r by lia. replace (S (length pre) - length pre)%nat with 1%nat by lia.
    by destruct suf. }
  rewrite Hh, (IH (pre ++ [x])); cbn [mbind option_bind].
  - rewrite len_cons; f_equal; lia.
  - by replace ((pre ++ [x]) ++ suf) with (pre ++ x :: suf) by (by rewrite <- (assoc app)).
  - lia.
Qed.

Lemma heap_size h k : (forall x : loc, is_Some (h !! x) <-> (x < k)%nat) -> size h = k.
Proof.
  intros Hd; rewrite <- size_dom.
  assert (Hdom : dom h = (list_to_set (seq 0 k) : gset loc)).
  { apply set_eq; intros x; rewrite elem_of_dom, Hd, elem_of_list_to_set, elem_of_seq; lia. }
  rewrite Hdom, size_list_to_set by apply NoDup_seq. apply length_seq.
Qed.

Lemma linkInv_nil : linkInv [] None 0%nat ∅ (∅ : heap).
Proof.
  split; simpl; try done.
  - split; [constructor|]. by intros [|i] x Hx.
  - constructor.
  - intros x; rewrite lookup_empty; split; [intros [? ?]; done|lia].
Qed.

(** The heap the search starts from. *)
Lemma checkSingle_start n E :
  historyWf n E -> exists root head_ h h1 all,
    makeLinkedEntries E = Some (root, head_, h) /\ nlength root h = Some (2 * n)
    /\ insertBefore head_ root (<[head_ := mkNode VNil None (-1) None None]> h) = Some h1
    /\ root = head all.*1 /\ all.*2 = E /\ linked h1 (head_ :: all.*1) /\ entriesWf h1 n all.
Proof.
  intros Hwf; destruct (linkLoop_spec E [] None 0%nat ∅ ∅ linkInv_nil) as (root & fresh & mtch & h & Hlink & Hi).
  { rewrite app_nil_r; intros i j e e' He He' Hk Hk' Hid.
    eapply (hw_unique _ _ Hwf); [done|done|congruence|done]. }
  rewrite app_nil_r in Hi; destruct Hi. set (L := reverse (seq 0 fresh)) in *.
  assert (HLE : length L = length E) by (by eapply built_length).
  set (h2 := <[fresh := mkNode VNil None (-1) None None]> h).
  assert (Hnot : fresh ∉ L) by (unfold L; rewrite elem_reverse_seq; lia).
  assert (Hl2 : linked h2 L).
  { destruct li_linked0 as [Hnd Hl]; split; [done|]. intros i x Hx; destruct (Hl i x Hx) as (nd & ? & ?).
    exists nd; split; [|done]. unfold h2; rewrite lookup_insert_ne; [done|].
    intros <-; apply Hnot. by apply list_elem_of_lookup_2 with (i := i). }
  destruct (insertBefore_linked h2 L fresh (mkNode VNil None (-1) None None)) as (h3 & Hins & Hl3 & Hs3);
    [done|done|by apply lookup_insert_eq|done|done|].
  assert (Hfst : (zip L E : list (loc * ent)).*1 = L) by (apply fst_zip; lia).
  exists root, fresh, h, h3, (zip L E : list (loc * ent)); rewrite Hfst.
  refine (conj Hlink (conj _ (conj _ (conj li_root0 (conj _ (conj Hl3 _)))))).
  - unfold nlength. rewrite (heap_size h fresh li_dom0), li_root0.
    rewrite (lengthLoop_spec h L [] L); [|done|done|].
    + f_equal; rewrite <- (hw_len _ _ Hwf); unfold len; lia.
    + rewrite HLE; lia.
  - by rewrite li_root0.
  - apply snd_zip; lia.
  - apply built_wf; [|by destruct li_linked0|done].
    eapply built_data; [|exact li_built0]. intros x Hx; rewrite Hs3; unfold dataOf, h2.
    rewrite lookup_insert_ne; [done|]. by intros <-.
Qed.
End build.
