(* ===== verification/Linearizability.v ===== *)
(** * porcupine: what the checker decides

    The definition of linearizability of a history of operations, and the
    theorem that [checkSingle] on the history's entries decides it. *)

From S2P Require Import Prelude Bitset Checker CheckerHeap CheckerSearch CheckerBuild.

#[local] Open Scope Z_scope.

(** ** Running the loop to its end *)

Section run.
Context {St In Out : Type} (model : Model St In Out) (computePartial : bool).
Notation ent := (entry In Out).
Hypothesis Equal_eq : forall s1 s2, modelEqual model s1 s2 = true -> s1 = s2.

Definition neverKilled (_ : nat) : bool := false.

Lemma searchLoop_steps head_ (s s' : search St In Out) :
  rtc (stp model computePartial head_) s s' ->
  exists k, forall fuel c, exists c',
    searchLoop model computePartial neverKilled head_ (k + fuel) c s
    = searchLoop model computePartial neverKilled head_ fuel c' s'.
Proof.
  induction 1 as [s|s1 s2 s3 [(hd & y & Hhd & Hy) Hit] _ (k & IH)].
  { exists 0%nat; intros fuel c; by exists c. }
  exists (S k); intros fuel c; destruct (IH fuel (S c)) as [c' IH']; exists c'; rewrite <- IH'.
  simpl; rewrite Hhd; cbn [mbind option_bind]; rewrite Hy; simpl. by rewrite Hit.
Qed.

(** More fuel and no interruption do not change a positive answer. *)
Lemma searchLoop_true kill head_ fuel fuel' c c' (s : search St In Out) lg :
  searchLoop model computePartial kill head_ fuel c s = Some (true, lg) -> (fuel <= fuel')%nat ->
  searchLoop model computePartial neverKilled head_ fuel' c' s = Some (true, lg).
Proof.
  revert fuel' c c' s; induction fuel as [|fuel IH]; intros fuel' c c' s H Hle; cbn [searchLoop] in *.
  - destruct fuel'; cbn [searchLoop]; destruct (s_heap s !! head_) as [hd|]; cbn [mbind option_bind] in *;
      try done; destruct (next hd); try done; by destruct (kill c).
  - destruct fuel' as [|fuel']; [lia|]; cbn [searchLoop].
    destruct (s_heap s !! head_) as [hd|]; cbn [mbind option_bind] in *; [|done].
    destruct (next hd); [|done]. destruct (kill c); [done|]. cbn [neverKilled].
    destruct (iteration _ _ _ _) as [[s'|]|]; cbn [mbind option_bind] in *; [|done|done].
    eapply IH; [done|lia].
Qed.

(** More fuel does not change an answer. *)
Lemma searchLoop_more head_ fuel fuel' c c' (s : search St In Out) r :
  searchLoop model computePartial neverKilled head_ fuel c s = Some r -> (fuel <= fuel')%nat ->
  searchLoop model computePartial neverKilled head_ fuel' c' s = Some r.
Proof.
  revert fuel' c c' s; induction fuel as [|fuel IH]; intros fuel' c c' s H Hle; cbn [searchLoop] in *.
  - destruct fuel'; cbn [searchLoop]; destruct (s_heap s !! head_) as [hd|]; cbn [mbind option_bind] in *;
      try done; by destruct (next hd).
  - destruct fuel' as [|fuel']; [lia|]; cbn [searchLoop].
    destruct (s_heap s !! head_) as [hd|]; cbn [mbind option_bind] in *; [|done].
    destruct (next hd); [|done]. cbn [neverKilled] in *.
    destruct (iteration _ _ _ _) as [[s'|]|]; cbn [mbind option_bind] in *; [|done|done].
    eapply IH; [done|lia].
Qed.

Lemma searchLoop_done head_ (s : search St In Out) hd ids fuel c :
  s_heap s !! head_ = Some hd -> next hd = None -> callIds (s_heap s) (s_calls s) = Some ids ->
  searchLoop model computePartial neverKilled head_ fuel c s
  = Some (true, replicate (length (s_longest s)) (Some ids)).
Proof.
  intros Hhd Hn Hids.
  assert (Hc : (fun _ : option (list Z) => Some ids) <$> s_longest s = replicate (length (s_longest s)) (Some ids)).
  { induction (s_longest s) as [|o lg IH]; simpl; [done|]. by f_equal. }
  destruct fuel; simpl; rewrite Hhd; cbn [mbind option_bind]; rewrite Hn, Hids;
    cbn [mbind option_bind]; by rewrite Hc.
Qed.

(** What [checkSingle] answers when it is not interrupted. *)
Definition decides (n : Z) (E : list ent) (r : bool) (lg : list (option (list Z))) : Prop :=
  (r = true <-> linearizableFrom model E (Init model))
  /\ (r = true -> exists seq, lin model E (Init model) seq /\ lg = replicate (Z.to_nat n) (Some seq)).

Lemma checkSingle_decides n E :
  0 <= n -> historyWf n E ->
  exists fuel0, forall fuel, (fuel0 <= fuel)%nat ->
    exists r lg, checkSingle model E computePartial neverKilled fuel = Some (r, lg) /\ decides n E r lg.
Proof.
  intros Hn Hwf; destruct (checkSingle_start n E Hwf)
    as (root & head_ & h & h1 & all & Hmk & Hlen & Hins & Hroot & Hall & Hlk & Hew).
  set (b0 := newBitset n). set (lg0 := replicate (Z.to_nat n) (None : option (list Z))).
  set (s0 := mkSearch h1 root b0 ∅ [] (Init model) lg0).
  assert (Hcs : forall fuel, checkSingle model E computePartial neverKilled fuel
    = searchLoop model computePartial neverKilled head_ fuel 0 s0).
  { intros fuel; unfold checkSingle; rewrite Hmk; cbn [mbind option_bind]; rewrite Hlen; cbn [mbind option_bind].
    rewrite Hins; cbn [mbind option_bind]. replace (2 * n / 2) with n by (rewrite Z.mul_comm, Z.div_mul; lia). done. }
  assert (Hrem : rem all b0 = all).
  { apply filter_all; intros [x e] Hin; simpl. apply newBitset_get; [done|]. by eapply (ew_ids _ _ _ Hew). }
  assert (Hlv : level head_ n all h1 b0).
  { split; rewrite ?Hrem; [done|done|]. intros id Hid; unfold b0. rewrite newBitset_get by done. eauto. }
  assert (Hlg0 : len lg0 = n) by (unfold len, lg0; rewrite length_replicate; lia).
  assert (Hlong : forall lg : list (option (list Z)), len lg = n -> length lg = Z.to_nat n) by (unfold len; lia).
  destruct (decide (all = [])) as [Hnil|Hne].
  - exists 0%nat; intros fuel _. destruct (level_head _ _ _ _ _ Hlv) as (hd & Hhd & Hnx).
    rewrite Hrem, Hnil in Hnx. rewrite Hcs, (searchLoop_done head_ s0 hd []) by done.
    eexists true, _; split; [done|]. rewrite <- Hall, Hnil; simpl.
    rewrite (Hlong lg0 Hlg0). split; [|intros _; exists []; split; [constructor|done]].
    split; [intros _; exists []; constructor|done].
  - destruct (explorable_all model computePartial head_ n all Equal_eq (S (length all)) h1 b0 ∅ [] (Init model) lg0 [])
      as [Hs|Hf]; rewrite ?Hrem; try done; [lia| | | |].
    + intros b st [k Hin]; rewrite lookup_empty in Hin; by apply elem_of_nil in Hin.
    + intros i Hi; by apply elem_of_nil in Hi.
    + rewrite Hrem, <- Hroot in Hs. destruct Hs as (s' & seq & Hrt & (hd & Hhd & Hnx) & Hids & Hseq & Hlg).
      apply searchLoop_steps in Hrt as [k Hk]. exists k; intros fuel Hle.
      destruct (Hk (fuel - k)%nat 0%nat) as [c' Hk'].
      replace (k + (fuel - k))%nat with fuel in Hk' by lia.
      rewrite Hcs. unfold s0; rewrite Hk', (searchLoop_done _ _ _ _ _ _ Hhd Hnx Hids).
      rewrite Hrem, Hall in Hseq. eexists true, _; split; [done|].
      split; [split; [intros _; by exists seq|done]|]. intros _; exists seq; split; [done|]. by rewrite Hlong.
    + rewrite Hrem, <- Hroot in Hf. destruct Hf as (r & e & pre & suf & cache' & lg' & Hrt & Hr & Hk & Hd & _ & Hlg).
      apply searchLoop_steps in Hrt as [k Hkk]. exists (S k); intros fuel Hle.
      destruct (Hkk (fuel - k)%nat 0%nat) as [c' Hk'].
      replace (k + (fuel - k))%nat with fuel in Hk' by lia.
      rewrite Hcs; unfold s0; rewrite Hk'. destruct (fuel - k)%nat as [|f] eqn:Ef; [lia|].
      destruct (level_live _ _ _ _ _ _ _ _ Hlv Hr) as (hd & y & Hhd & Hy).
      destruct (level_node _ _ _ _ _ _ _ _ _ Hlv Hr) as (rd & Hrd & _ & _ & _ & Hnone & _).
      cbn [searchLoop s_heap]; rewrite Hhd; cbn [mbind option_bind]; rewrite Hy; cbn [neverKilled].
      unfold iteration; cbn [s_entry s_heap s_calls s_longest mbind option_bind]; rewrite Hrd; cbn [mbind option_bind].
      rewrite (Hnone Hk); cbn [mbind option_bind]. exists false, lg'; split; [done|].
      split; [|done]. split; [done|]. intros Hlin; exfalso.
      apply (deadFrom_0 model _ _ Hd); [|by rewrite Hrem, Hall]. rewrite Hrem; intros E0; by destruct all.
Qed.
End run.

(** ** Linearizability of a history *)

Section history.
Context {St In Out : Type} (model : Model St In Out).
Notation ent := (entry In Out).
Notation operation := (Operation In Out).
Implicit Types (ops : list operation) (E : list ent) (order R : list Z).

(** Executing the operations one after the other gives the observed outputs. *)
Fixpoint legal ops (s : St) order : Prop :=
  match order with
  | [] => True
  | a :: order =>
      exists op s', idx ops a = Some op /\ Step model s (Input op) (Output op) = (true, s') /\ legal ops s' order
  end.

(** An operation that returned before another was called comes first. *)
Fixpoint respects ops order : Prop :=
  match order with
  | [] => True
  | a :: order =>
      (forall c opa opc, c ∈ order -> idx ops a = Some opa -> idx ops c = Some opc -> ~ Return opc < Call opa)
      /\ respects ops order
  end.

Definition linearization ops order : Prop :=
  order ≡ₚ seqZ 0 (len ops) /\ respects ops order /\ legal ops (Init model) order.

Definition linearizable ops : Prop := exists order, linearization ops order.

(** Each operation returns no earlier than it is called. *)
Definition timesOk ops : Prop := forall op, op ∈ ops -> Call op <= Return op.

(** *** The entries of a history *)

Definition callOf (a : Z) (op : operation) : ent :=
  mkEntry callEntry (VIn (Input op)) a (Call op) (ClientId op).
Definition returnOf (a : Z) (op : operation) : ent :=
  mkEntry returnEntry (VOut (Output op)) a (Return op) (ClientId op).

Lemma elem_rawEntries id ops e :
  e ∈ rawEntries id ops <->
  exists a op, idx ops (a - id) = Some op /\ (e = callOf a op \/ e = returnOf a op).
Proof.
  revert id; induction ops as [|op ops IH]; intros id; cbn [rawEntries].
  { rewrite elem_of_nil; split; [done|]. intros (a & op & H & _); apply idx_Some_range in H; unfold len in H; simpl in H; lia. }
  rewrite !elem_of_cons, IH; split.
  - intros [->|[->|(a & op' & Hi & Ha)]].
    + exists id, op; rewrite Z.sub_diag; split; [done|by left].
    + exists id, op; rewrite Z.sub_diag; split; [done|by right].
    + exists a, op'; split; [|done]. pose proof (idx_Some_range _ _ _ Hi).
      rewrite idx_cons_S by lia. by replace (a - id - 1) with (a - (id + 1)) by lia.
  - intros (a & op' & Hi & Ha). pose proof (idx_Some_range _ _ _ Hi).
    destruct (decide (a = id)) as [->|].
    + rewrite Z.sub_diag in Hi; rewrite idx_cons_0 in Hi; simplify_eq. destruct Ha as [-> | ->]; [by left|by right; left].
    + right; right; exists a, op'; split; [|done]. rewrite idx_cons_S in Hi by lia.
      by replace (a - (id + 1)) with (a - id - 1) by lia.
Qed.

Lemma NoDup_rawEntries id ops : NoDup (rawEntries id ops).
Proof.
  revert id; induction ops as [|op ops IH]; intros id; cbn [rawEntries]; [constructor|].
  assert (Hnot : forall e, e ∈ rawEntries (id + 1) ops -> eid e <> id).
  { intros e (a & op' & Hi & He)%elem_rawEntries. apply idx_Some_range in Hi.
    destruct He as [-> | ->]; simpl; lia. }
  constructor; [|constructor; [|apply IH]].
  - rewrite elem_of_cons; intros [|H]; [done|]. by apply Hnot in H.
  - intros H; by apply Hnot in H.
Qed.

Lemma length_rawEntries id ops : len (rawEntries id ops) = 2 * len ops.
Proof.
  revert id; induction ops as [|op ops IH]; intros id; cbn [rawEntries]; [done|].
  rewrite !len_cons, IH; lia.
Qed.

(** [E] is a sorted arrangement of the entries of [ops]. *)
Definition notLater (a b : ent) : Prop := byTimeLess b a = false.

Record entriesOf ops E : Prop := {
  eo_perm : E ≡ₚ rawEntries 0 ops;
  eo_sorted : StronglySorted notLater E;
}.

Lemma sorted_lookup E i j a b :
  StronglySorted notLater E -> E !! i = Some a -> E !! j = Some b -> (i < j)%nat -> notLater a b.
Proof.
  intros Hs; revert i j; induction Hs as [|x E Hs IH Hx]; intros [|i] [|j] Ha Hb Hij; simpl in *; try done; try lia.
  - simplify_eq; rewrite Forall_forall in Hx. apply Hx. by eapply list_elem_of_lookup_2.
  - eapply IH; [done|done|lia].
Qed.

(** Order of a call and a return in a sorted sequence. *)
Lemma notLater_return_call (r c : ent) :
  kind r = returnEntry -> kind c = callEntry ->
  (notLater c r <-> ~ time r < time c) /\ (notLater r c <-> time r < time c).
Proof.
  intros Hr Hc; unfold notLater, byTimeLess; rewrite Hr, Hc; simpl.
  rewrite (Z.eqb_sym (time c)); destruct (Z.eqb_spec (time r) (time c)); simpl; split; split; intros; zbool; try lia; try done.
Qed.

Lemma elem_entriesOf ops E e :
  entriesOf ops E ->
  (e ∈ E <-> exists a op, idx ops a = Some op /\ (e = callOf a op \/ e = returnOf a op)).
Proof.
  intros [Hp _]; rewrite Hp, elem_rawEntries.
  split; intros (a & op & ?); exists a, op; by rewrite Z.sub_0_r in *.
Qed.

Lemma entriesOf_wf ops E : timesOk ops -> entriesOf ops E -> historyWf (len ops) E.
Proof.
  intros Ht He; pose proof He as [Hp Hs].
  assert (Hnd : NoDup E) by (rewrite Hp; apply NoDup_rawEntries).
  assert (Hlook : forall i e, E !! i = Some e -> exists a op, idx ops a = Some op /\ (e = callOf a op \/ e = returnOf a op)).
  { intros i e Hi; apply (elem_entriesOf ops E e He). by eapply list_elem_of_lookup_2. }
  assert (Hord : forall a op i j, idx ops a = Some op -> E !! i = Some (callOf a op) ->
    E !! j = Some (returnOf a op) -> (i < j)%nat).
  { intros a op i j Ha Hi Hj; destruct (decide (j < i)%nat) as [Hji|].
    - pose proof (sorted_lookup _ _ _ _ _ Hs Hj Hi Hji) as Hn. apply notLater_return_call in Hn; [|done|done].
      simpl in Hn. assert (Hop : op ∈ ops) by (unfold idx in Ha; case_if_in Ha; [by eapply list_elem_of_lookup_2|done]).
      specialize (Ht op Hop); lia.
    - destruct (decide (i = j)) as [->|]; [rewrite Hi in Hj; discriminate|lia]. }
  split.
  - unfold len at 1; rewrite Hp. apply (length_rawEntries 0).
  - intros e [i Hi]%list_elem_of_lookup_1; destruct (Hlook i e Hi) as (a & op & Ha & Hor).
    apply idx_Some_range in Ha. destruct Hor as [-> | ->]; simpl; lia.
  - intros i j e e' Hi Hj Hk Hid. destruct (Hlook i e Hi) as (a & op & Ha & Hor), (Hlook j e' Hj) as (a' & op' & Ha' & Hor').
    assert (e = e') by (destruct Hor as [-> | ->], Hor' as [-> | ->]; simpl in *; congruence).
    subst e'; by eapply NoDup_lookup.
  - intros i e Hi Hk; destruct (Hlook i e Hi) as (a & op & Ha & [-> | ->]); [|done].
    split; [by eexists|]. assert (Hr : returnOf a op ∈ E) by (apply (elem_entriesOf ops E _ He); eauto).
    apply list_elem_of_lookup_1 in Hr as [j Hj]. exists j, (returnOf a op); split_and!; eauto.
  - intros j e Hj Hk; destruct (Hlook j e Hj) as (a & op & Ha & [-> | ->]); [done|].
    split; [by eexists|]. assert (Hc : callOf a op ∈ E) by (apply (elem_entriesOf ops E _ He); eauto).
    apply list_elem_of_lookup_1 in Hc as [i Hi]. exists i, (callOf a op); split_and!; eauto.
Qed.

(** *** The two definitions agree *)

(** The entries of the operations [R]. *)
Definition restrict R E : list ent := filter (fun e => eid e ∈ R) E.

Lemma restrict_without R E a : without a (restrict R E) = restrict (filter (fun c => c <> a) R) E.
Proof.
  unfold without, restrict; rewrite list_filter_filter; apply list_filter_iff; intros e.
  rewrite list_elem_of_filter; tauto.
Qed.

Lemma elem_restrict ops E R e :
  entriesOf ops E ->
  (e ∈ restrict R E <-> exists a op, a ∈ R /\ idx ops a = Some op /\ (e = callOf a op \/ e = returnOf a op)).
Proof.
  intros He; unfold restrict; rewrite list_elem_of_filter, (elem_entriesOf ops E e He); split.
  - intros (Hin & a & op & Ha & Hor); exists a, op; split; [|done]. by destruct Hor as [-> | ->].
  - intros (a & op & Hin & Ha & Hor); split; [by destruct Hor as [-> | ->]|eauto].
Qed.

(** An operation whose call no return precedes has no predecessor. *)
Lemma opens_first ops E R a op :
  entriesOf ops E -> timesOk ops -> a ∈ R -> idx ops a = Some op ->
  (exists j, restrict R E !! j = Some (callOf a op) /\ Forall isCall (take j (restrict R E)))
  <-> forall c opc, c ∈ R -> c <> a -> idx ops c = Some opc -> ~ Return opc < Call op.
Proof.
  intros He Ht Ha Hop. pose proof (StronglySorted_filter _ (fun e : ent => eid e ∈ R) _ (eo_sorted _ _ He)) as Hs.
  fold (restrict R E) in Hs; split.
  - intros (j & Hj & Hcalls) c opc Hc Hne Hopc.
    assert (Hr : returnOf c opc ∈ restrict R E) by (apply (elem_restrict ops E R _ He); eauto 6).
    apply list_elem_of_lookup_1 in Hr as [p Hp].
    assert (Hjp : (j < p)%nat).
    { destruct (decide (p < j)%nat) as [Hpj|].
      - rewrite Forall_lookup in Hcalls. specialize (Hcalls p (returnOf c opc)).
        rewrite lookup_take_lt in Hcalls by done. by specialize (Hcalls Hp).
      - destruct (decide (p = j)) as [->|]; [rewrite Hp in Hj; discriminate|lia]. }
    pose proof (sorted_lookup _ _ _ _ _ Hs Hj Hp Hjp) as Hn.
    by apply (proj1 (notLater_return_call (returnOf c opc) (callOf a op) eq_refl eq_refl)) in Hn.
  - intros Hfirst. assert (Hc : callOf a op ∈ restrict R E) by (apply (elem_restrict ops E R _ He); eauto 6).
    apply list_elem_of_lookup_1 in Hc as [j Hj]; exists j; split; [done|].
    apply Forall_lookup; intros p e Hp. assert (Hpj : (p < j)%nat) by (apply lookup_lt_Some in Hp; rewrite length_take in Hp; lia).
    rewrite lookup_take_lt in Hp by done.
    assert (Hin : e ∈ restrict R E) by (by eapply list_elem_of_lookup_2).
    apply (elem_restrict ops E R _ He) in Hin as (c & opc & Hc & Hopc & [-> | ->]); [done|exfalso].
    pose proof (sorted_lookup _ _ _ _ _ Hs Hp Hj Hpj) as Hn.
    apply (proj2 (notLater_return_call (returnOf c opc) (callOf a op) eq_refl eq_refl)) in Hn; simpl in Hn.
    destruct (decide (c = a)) as [->|Hne]; [|by eapply Hfirst].
    assert (Hino : op ∈ ops) by (unfold idx in Hop; case_if_in Hop; [by eapply list_elem_of_lookup_2|done]).
    specialize (Ht op Hino); simplify_eq; lia.
Qed.

(** The operations that may be chosen next. *)
Lemma opens_iff ops E R s a s' :
  entriesOf ops E -> timesOk ops ->
  (exists j e, opens model (restrict R E) s j e s' /\ eid e = a)
  <-> exists op, a ∈ R /\ idx ops a = Some op /\ Step model s (Input op) (Output op) = (true, s')
      /\ forall c opc, c ∈ R -> c <> a -> idx ops c = Some opc -> ~ Return opc < Call op.
Proof.
  intros He Ht; split.
  - intros (j & e & (Hj & Hc & Hall & i & e' & o & Hi & Hin' & Hk' & Hid' & Ho & Hst) & <-).
    assert (Hin : e ∈ restrict R E) by (by eapply list_elem_of_lookup_2).
    apply (elem_restrict ops E R _ He) in Hin as (a & op & Ha & Hop & [-> | ->]); [|done].
    apply (elem_restrict ops E R _ He) in Hin' as (a' & op' & Ha' & Hop' & [-> | ->]); [done|].
    simpl in *; subst a'. rewrite Hop in Hop'; injection Hop' as <-; injection Hi as <-; injection Ho as <-.
    exists op; split_and!; try done.
    apply (opens_first ops E R a op He Ht Ha Hop); eauto.
  - intros (op & Ha & Hop & Hst & Hfirst). apply (opens_first ops E R a op He Ht Ha Hop) in Hfirst as (j & Hj & Hall).
    exists j, (callOf a op); split; [|done]. split_and!; [done|done|done|].
    exists (Input op), (returnOf a op), (Output op); split_and!; try done.
    apply (elem_restrict ops E R _ He); eauto 6.
Qed.

Lemma remove_perm R a : NoDup R -> a ∈ R -> R ≡ₚ a :: filter (fun c => c <> a) R.
Proof.
  intros Hnd Ha; apply NoDup_Permutation; [done| |].
  - constructor; [rewrite list_elem_of_filter; tauto|by apply NoDup_filter].
  - intros c; rewrite elem_of_cons, list_elem_of_filter. destruct (decide (c = a)); naive_solver.
Qed.

Lemma lin_iff ops E :
  entriesOf ops E -> timesOk ops -> forall seq R s,
  NoDup R -> (forall a, a ∈ R -> is_Some (idx ops a)) ->
  (lin model (restrict R E) s seq <-> seq ≡ₚ R /\ respects ops seq /\ legal ops s seq).
Proof.
  intros He Ht seq; induction seq as [|a seq IH]; intros R s Hnd HR.
  - split.
    + intros Hl; inversion Hl as [s0 Hnil|]; subst. destruct R as [|a R]; [done|exfalso].
      destruct (HR a ltac:(left)) as [op Hop].
      assert (Hin : callOf a op ∈ restrict (a :: R) E).
      { apply (elem_restrict ops E _ _ He); exists a, op; split; [left|auto]. }
      rewrite <- Hnil in Hin; by apply elem_of_nil in Hin.
    + intros (Hp & _ & _). apply Permutation_nil in Hp; subst R.
      unfold restrict; rewrite filter_none; [constructor|]. intros e _ Hin; by apply elem_of_nil in Hin.
  - split.
    + intros Hl; inversion Hl as [|E0 s0 j e s' seq0 Hop Hrest]; subst.
      assert (Hex : exists j e', opens model (restrict R E) s j e' s' /\ eid e' = eid e) by eauto.
      apply (opens_iff ops E R s (eid e) s' He Ht) in Hex as (op & Ha & Hidx & Hst & Hfirst).
      rewrite restrict_without in Hrest. apply IH in Hrest as (Hp & Hresp & Hleg);
        [|by apply NoDup_filter|intros c [_ Hc]%list_elem_of_filter; auto].
      split_and!.
      * rewrite Hp. symmetry; by apply remove_perm.
      * split; [|done]. intros c opa opc Hc Hopa Hopc; simplify_eq.
        rewrite Hp, list_elem_of_filter in Hc; destruct Hc as [Hne Hc]. by eapply Hfirst.
      * by exists op, s'.
    + intros (Hp & [Hfirst Hresp] & (op & s' & Hidx & Hst & Hleg)).
      assert (Ha : a ∈ R) by (rewrite <- Hp; left).
      assert (Hna : a ∉ seq) by (rewrite <- Hp in Hnd; by apply NoDup_cons in Hnd as [? _]).
      assert (Hex : exists j e, opens model (restrict R E) s j e s' /\ eid e = a).
      { apply (opens_iff ops E R s a s' He Ht); exists op; split_and!; try done.
        intros c opc Hc Hne Hopc. rewrite <- Hp in Hc. apply elem_of_cons in Hc as [|Hc]; [done|].
        by eapply Hfirst. }
      destruct Hex as (j & e & Hopen & <-). eapply lin_op; [done|]. rewrite restrict_without.
      apply IH; [by apply NoDup_filter|intros c [_ Hc]%list_elem_of_filter; auto|].
      split_and!; [|done|done]. apply (Permutation_cons_inv (a := eid e)).
      rewrite Hp. by apply remove_perm.
Qed.

Lemma lin_linearization ops E order :
  entriesOf ops E -> timesOk ops ->
  (lin model E (Init model) order <-> linearization ops order).
Proof.
  intros He Ht; rewrite <- (lin_iff ops E He Ht order (seqZ 0 (len ops)) (Init model)).
  - unfold restrict; rewrite filter_all; [done|]. intros e Hin.
    apply (elem_entriesOf ops E e He) in Hin as (a & op & Ha & Hor). apply idx_Some_range in Ha.
    apply elem_of_seqZ; destruct Hor as [-> | ->]; simpl; lia.
  - apply NoDup_seqZ.
  - intros a Ha%elem_of_seqZ; apply idx_is_Some; lia.
Qed.
End history.

Section correct.
Context {St In Out : Type} (model : Model St In Out) (computePartial : bool).

Lemma entriesOf_decided ops E :
  (forall s1 s2, modelEqual model s1 s2 = true -> s1 = s2) -> timesOk ops -> entriesOf ops E ->
  exists fuel0, forall fuel, (fuel0 <= fuel)%nat ->
    exists r lg, checkSingle model E computePartial neverKilled fuel = Some (r, lg)
      /\ (r = true <-> linearizable model ops)
      /\ (r = true -> exists order, linearization model ops order /\ lg = replicate (length ops) (Some order)).
Proof.
  intros Heq Ht He. destruct (checkSingle_decides model computePartial Heq (len ops) E) as [fuel0 Hd];
    [apply len_nonneg|by apply entriesOf_wf|].
  exists fuel0; intros fuel Hle; destruct (Hd fuel Hle) as (r & lg & Hc & Hiff & Hlg).
  exists r, lg; split_and!; [done| |].
  - rewrite Hiff; split; intros [order Ho]; exists order; by apply (lin_linearization model ops _ order He Ht).
  - intros Hr; destruct (Hlg Hr) as (order & Ho & ->). exists order; split; [by apply (lin_linearization model ops _ order He Ht)|].
    unfold len; by rewrite Nat2Z.id.
Qed.

Lemma makeEntries_decided sort ops :
  (forall s1 s2, modelEqual model s1 s2 = true -> s1 = s2) ->
  timesOk ops ->
  sort (rawEntries 0 ops) ≡ₚ rawEntries 0 ops ->
  StronglySorted notLater (sort (rawEntries 0 ops)) ->
  exists fuel0, forall fuel, (fuel0 <= fuel)%nat ->
    exists r lg, checkSingle model (makeEntries sort ops) computePartial neverKilled fuel = Some (r, lg)
      /\ (r = true <-> linearizable model ops)
      /\ (r = true -> exists order, linearization model ops order /\ lg = replicate (length ops) (Some order)).
Proof. intros Heq Ht Hp Hs; apply entriesOf_decided; [done|done|by split]. Qed.

Lemma checkSingle_true E kill fuel fuel' lg :
  checkSingle model E computePartial kill fuel = Some (true, lg) -> (fuel <= fuel')%nat ->
  checkSingle model E computePartial neverKilled fuel' = Some (true, lg).
Proof.
  unfold checkSingle; intros H Hle. destruct (makeLinkedEntries E) as [[[root hd] h]|]; [|done]; cbn [mbind option_bind] in *.
  destruct (nlength root h); [|done]; cbn [mbind option_bind] in *.
  destruct (insertBefore hd root _); [|done]; cbn [mbind option_bind] in *. by eapply searchLoop_true.
Qed.

Lemma checkSingle_more E fuel fuel' r :
  checkSingle model E computePartial neverKilled fuel = Some r -> (fuel <= fuel')%nat ->
  checkSingle model E computePartial neverKilled fuel' = Some r.
Proof.
  unfold checkSingle; intros H Hle. destruct (makeLinkedEntries E) as [[[root hd] h]|]; [|done]; cbn [mbind option_bind] in *.
  destruct (nlength root h); [|done]; cbn [mbind option_bind] in *.
  destruct (insertBefore hd root _); [|done]; cbn [mbind option_bind] in *. by eapply searchLoop_more.
Qed.
End correct.

(** C26: [checkSingle] decides linearizability: for any model whose [Equal]
    only identifies equal states and any history in which no operation returns
    before it is called, the search on the sorted entries ends, without
    following a nil pointer or indexing out of range, and answers true exactly
    when the history is linearizable: there is an order of all operations in
    which an operation that returned before another was called comes first, and
    which the model accepts with the observed outputs. On a positive answer
    every slot of [longest] holds such an order. *)
Theorem checkSingle_correct {St In Out : Type} (model : Model St In Out) (computePartial : bool)
    (sort : list (entry In Out) -> list (entry In Out)) (ops : list (Operation In Out)) :
  (forall s1 s2, modelEqual model s1 s2 = true -> s1 = s2) ->
  timesOk ops ->
  sort (rawEntries 0 ops) ≡ₚ rawEntries 0 ops ->
  StronglySorted notLater (sort (rawEntries 0 ops)) ->
  exists fuel0, forall fuel, (fuel0 <= fuel)%nat ->
    exists r lg, checkSingle model (makeEntries sort ops) computePartial neverKilled fuel = Some (r, lg)
      /\ (r = true <-> linearizable model ops)
      /\ (r = true -> exists order, linearization model ops order /\ lg = replicate (length ops) (Some order)).
Proof. intros Heq Ht Hp Hs; by apply makeEntries_decided. Qed.

(** An interrupted search claims nothing it has not shown: whatever the
    moments at which the kill flag is seen, if [checkSingle] answers true the
    history is linearizable. *)
Theorem checkSingle_killed_sound {St In Out : Type} (model : Model St In Out) (computePartial : bool)
    (sort : list (entry In Out) -> list (entry In Out)) (ops : list (Operation In Out))
    (kill : nat -> bool) (fuel : nat) (lg : list (option (list Z))) :
  (forall s1 s2, modelEqual model s1 s2 = true -> s1 = s2) ->
  timesOk ops ->
  sort (rawEntries 0 ops) ≡ₚ rawEntries 0 ops ->
  StronglySorted notLater (sort (rawEntries 0 ops)) ->
  checkSingle model (makeEntries sort ops) computePartial kill fuel = Some (true, lg) ->
  linearizable model ops.
Proof.
  intros Heq Ht Hp Hs Hc.
  destruct (makeEntries_decided model computePartial sort ops Heq Ht Hp Hs) as [fuel0 Hd].
  destruct (Hd (fuel0 + fuel)%nat ltac:(lia)) as (r & lg' & Hr & Hiff & _).
  apply Hiff. rewrite (checkSingle_true model computePartial _ kill fuel (fuel0 + fuel) lg Hc ltac:(lia)) in Hr. by simplify_eq.
Qed.

(** A register: a write of 1 overlaps a read of 1. *)
Definition regModel : Model Z (option Z) Z :=
  mkModel None None 0
    (fun s i o => match i with Some v => (true, v) | None => (o =? s, s) end) (Some Z.eqb).
Definition regOps : list (Operation (option Z) Z) :=
  [mkOperation 0 (Some 1) 0 0 10; mkOperation 1 None 5 1 6].
Definition regSorted (E : list (entry (option Z) Z)) : list (entry (option Z) Z) :=
  match E with [c0; r0; c1; r1] => [c0; c1; r1; r0] | _ => E end.

Lemma regModel_equal s1 s2 : modelEqual regModel s1 s2 = true -> s1 = s2.
Proof. apply Z.eqb_eq. Qed.

Lemma regOps_ok :
  timesOk regOps /\ regSorted (rawEntries 0 regOps) ≡ₚ rawEntries 0 regOps
  /\ StronglySorted notLater (regSorted (rawEntries 0 regOps)).
Proof.
  split_and!.
  - intros op Hin; repeat (apply elem_of_cons in Hin as [->|Hin]; [simpl; lia|]). by apply elem_of_nil in Hin.
  - simpl; solve_Permutation.
  - simpl; repeat constructor.
Qed.

Lemma checkSingle_correct_witness :
  exists fuel0, forall fuel, (fuel0 <= fuel)%nat ->
    exists r lg, checkSingle regModel (makeEntries regSorted regOps) true neverKilled fuel = Some (r, lg)
      /\ (r = true <-> linearizable regModel regOps)
      /\ (r = true -> exists order, linearization regModel regOps order /\ lg = replicate 2 (Some order)).
Proof.
  destruct regOps_ok as (H1 & H2 & H3).
  exact (checkSingle_correct regModel true regSorted regOps regModel_equal H1 H2 H3).
Defined.

Lemma checkSingle_killed_sound_witness : linearizable regModel regOps.
Proof.
  destruct regOps_ok as (H1 & H2 & H3).
  exact (checkSingle_killed_sound regModel false regSorted regOps (fun k => Nat.ltb 50 k) 60
           [Some [0; 1]; Some [0; 1]] regModel_equal H1 H2 H3 ltac:(vm_compute; reflexivity)).
Defined.
