(* ===== verification/CheckerPartial.v ===== *)
(** * porcupine: the recorded prefixes

    What [longest] holds while [checkSingle] runs, and when it is interrupted:
    every recorded sequence is a run of operations from the initial state, each
    chosen among the calls that no return precedes. *)

From S2P Require Import Prelude Bitset Checker CheckerHeap CheckerSearch CheckerBuild Linearizability.

#[local] Open Scope Z_scope.

(** ** The update of [longest] *)

Section longest.
Implicit Types (ids seq : list Z) (lg : list (option (list Z))).

(** Every slot keeps its sequence or gets the new one, lengths only grow, and
    the slots of [ids] hold a sequence at least as long as the new one. *)
Record longer ids seq lg lg' : Prop := {
  lg_len : len lg' = len lg;
  lg_new : forall j x, idx lg' j = Some (Some x) -> idx lg j = Some (Some x) \/ (x = seq /\ j ∈ ids);
  lg_grow : forall j x, idx lg j = Some (Some x) -> exists x', idx lg' j = Some (Some x') /\ len x <= len x';
  lg_ids : forall j, j ∈ ids -> exists x', idx lg' j = Some (Some x') /\ len seq <= len x';
}.

Lemma longer_set i seq lg lg' :
  upd lg i (Some seq) = Some lg' -> (forall x, idx lg i = Some (Some x) -> len x <= len seq) ->
  longer [i] seq lg lg'.
Proof.
  intros Hu Hx; split.
  - by eapply upd_len.
  - intros j x Hj; destruct (decide (i = j)) as [->|Hne].
    + rewrite (idx_upd_eq _ _ _ _ Hu) in Hj; simplify_eq; right; split; [done|left].
    + rewrite (idx_upd_ne _ _ _ _ _ Hu Hne) in Hj; by left.
  - intros j x Hj; destruct (decide (i = j)) as [->|Hne].
    + exists seq; rewrite (idx_upd_eq _ _ _ _ Hu); eauto.
    + exists x; rewrite (idx_upd_ne _ _ _ _ _ Hu Hne); split; [done|lia].
  - intros j ->%list_elem_of_singleton; exists seq; rewrite (idx_upd_eq _ _ _ _ Hu); split; [done|lia].
Qed.

Lemma longer_keep i x seq lg : idx lg i = Some (Some x) -> len seq <= len x -> longer [i] seq lg lg.
Proof.
  intros Hi Hx; split; [done|by left|intros j y Hj; exists y; split; [done|lia]|].
  intros j ->%list_elem_of_singleton; eauto.
Qed.

Lemma longer_trans i ids seq lg1 lg2 lg3 :
  longer [i] seq lg1 lg2 -> longer ids seq lg2 lg3 -> longer (i :: ids) seq lg1 lg3.
Proof.
  intros [L1 N1 G1 I1] [L2 N2 G2 I2]; split; [congruence| | |].
  - intros j x [Hj|[-> Hj]]%N2; [|right; split; [done|by right]].
    apply N1 in Hj as [Hj|[-> ->%list_elem_of_singleton]]; [by left|right; split; [done|left]].
  - intros j x (x1 & Hx1 & Hl1)%G1; destruct (G2 _ _ Hx1) as (x2 & Hx2 & Hl2); exists x2; split; [done|lia].
  - intros j [->|Hj]%elem_of_cons; [|by apply I2].
    destruct (I1 i ltac:(left)) as (x1 & Hx1 & Hl1); destruct (G2 _ _ Hx1) as (x2 & Hx2 & Hl2).
    exists x2; split; [done|lia].
Qed.

Lemma longestLoop_longer ids seq lg lg' : longestLoop ids seq lg = Some lg' -> longer ids seq lg lg'.
Proof.
  revert lg; induction ids as [|i ids IH]; intros lg H; cbn [longestLoop] in H.
  { injection H as <-; split; [done|by left|intros j x Hj; exists x; split; [done|lia]|].
    intros j Hj; by apply elem_of_nil in Hj. }
  destruct (idx lg i) as [old|] eqn:Eo; cbn [mbind option_bind] in H; [|done].
  destruct (match old with None => true | Some l => len seq >? len l end) eqn:Et.
  - destruct (upd lg i (Some seq)) as [lg1|] eqn:Eu; cbn [mbind option_bind] in H; [|done].
    eapply longer_trans; [|by apply IH]. apply longer_set; [done|].
    intros x Hx; rewrite Eo in Hx; injection Hx as ->. zbool; lia.
  - cbn [mbind option_bind] in H. destruct old as [x|]; [|done]. zbool.
    eapply longer_trans; [|by apply IH]. by apply (longer_keep _ x).
Qed.

(** A sequence none of whose members lacks one as long is not recorded again:
    the pointers kept in [longest] are one per sequence. *)
Lemma longestLoop_again ids seq lg :
  (forall i, i ∈ ids -> exists x, idx lg i = Some (Some x) /\ len seq <= len x) ->
  longestLoop ids seq lg = Some lg.
Proof.
  induction ids as [|i ids IH]; intros H; [done|]; cbn [longestLoop].
  destruct (H i ltac:(left)) as (x & -> & Hx); cbn [mbind option_bind].
  replace (len seq >? len x) with false by (symmetry; rewrite Z.gtb_ltb, Z.ltb_ge; lia).
  cbn [mbind option_bind]. apply IH; intros j Hj; apply H; by right.
Qed.
End longest.

(** ** The invariant of the search *)

Section partial.
Context {St In Out : Type} (model : Model St In Out) (computePartial : bool).
Notation ent := (entry In Out).
Notation heap := (gmap loc (node In Out)).
Notation srch := (search St In Out).
Context (head_ : loc) (n : Z) (all : list (loc * ent)).
Hypothesis ids_all : forall i, 0 <= i < n -> exists x e, (x, e) ∈ all /\ eid e = i.
Implicit Types (h : heap) (b : bitset) (st : St) (ids seq : list Z).
Notation rem := (rem all).
Notation level := (level head_ n all).

(** [performed E st seq]: the operations [seq], in this order, lead from the
    initial state to [st] and leave the entries [E]. *)
Inductive performed (E0 : list ent) : list ent -> St -> list Z -> Prop :=
| performed_nil : performed E0 E0 (Init model) []
| performed_snoc E st seq j e st' :
    performed E0 E st seq -> opens model E st j e st' ->
    performed E0 (without (eid e) E) st' (seq ++ [eid e]).

Definition prefixOf (E0 : list ent) seq : Prop := exists E st, performed E0 E st seq.

Lemma performed_left E0 E st seq e : performed E0 E st seq -> e ∈ E0 -> e ∈ E \/ eid e ∈ seq.
Proof.
  induction 1 as [|E st seq j e1 st' _ IH _]; intros He; [by left|].
  destruct (IH He) as [HE|Hs]; [|right; apply elem_of_app; by left].
  destruct (decide (eid e = eid e1)) as [Heq|Hne].
  - right; apply elem_of_app; right; rewrite Heq; left.
  - left; apply list_elem_of_filter; by split.
Qed.

(** What [longest] holds. *)
Record longOk (lg : list (option (list Z))) : Prop := {
  lo_len : len lg = n;
  lo_seq : forall j seq, idx lg j = Some (Some seq) -> prefixOf all.*2 seq /\ j ∈ seq;
  lo_max : forall j seq i, idx lg j = Some (Some seq) -> i ∈ seq ->
    exists seq', idx lg i = Some (Some seq') /\ len seq <= len seq';
}.

Lemma longOk_longer ids lg lg' :
  longOk lg -> prefixOf all.*2 ids -> longer ids ids lg lg' -> longOk lg'.
Proof.
  intros [Hl Hs Hm] Hp [L N G I]; split; [congruence| |].
  - intros j seq [Hj|[-> Hj]]%N; [by apply Hs|done].
  - intros j seq i [Hj|[-> Hj]]%N Hi; [|by apply I].
    destruct (Hm j seq i Hj Hi) as (s1 & H1 & Hl1); destruct (G _ _ H1) as (s2 & H2 & Hl2).
    exists s2; split; [done|lia].
Qed.

(** The levels above the current one: each call on the stack was opened at the
    level below it, which [unlift] and [clear] restore. *)
Inductive stack : heap -> bitset -> St -> list (loc * St) -> list Z -> Prop :=
| stack_start h b : level h b -> rem b = all -> stack h b (Init model) [] []
| stack_push h b st calls ids pre x e suf h' b' st' :
    stack h b st calls ids -> level h' b' -> rem b = pre ++ (x, e) :: suf ->
    Forall (fun p => isCall p.2) pre -> kind e = callEntry ->
    opens model (rem b).*2 st (length pre) e st' ->
    bclear b' (eid e) = Some b -> unlift x h' = Some h -> sameData h h' ->
    (rem b').*2 = without (eid e) (rem b).*2 ->
    stack h' b' st' ((x, st) :: calls) (ids ++ [eid e]).

Lemma stack_level h b st calls ids : stack h b st calls ids -> level h b.
Proof. by destruct 1. Qed.

Lemma stack_performed h b st calls ids : stack h b st calls ids -> performed all.*2 (rem b).*2 st ids.
Proof.
  induction 1 as [h b _ ->|h b st calls ids pre x e suf h' b' st' _ IH _ _ _ _ Ho _ _ _ ->]; [constructor|].
  by econstructor.
Qed.

Lemma stack_callIds h b st calls ids : stack h b st calls ids -> callIds h calls = Some ids /\ idsOk n ids.
Proof.
  induction 1 as [h b _ _|h b st calls ids pre x e suf h' b' st' Hst [IH Hok] _ Hr _ _ _ _ _ Hs _].
  { split; [done|]. intros i Hi; by apply elem_of_nil in Hi. }
  pose proof (stack_level _ _ _ _ _ Hst) as Hlv.
  destruct (level_node _ _ _ _ _ _ _ _ _ Hlv Hr) as (nd & Hnd & _ & Hid & _). split.
  - rewrite (callIds_data h h') by done. rewrite <- Hid. by apply callIds_push.
  - intros i [Hi| ->%list_elem_of_singleton]%elem_of_app; [by apply Hok|].
    apply (ew_ids _ _ _ (lv_wf _ _ _ _ _ Hlv) x e). rewrite Hr; apply elem_of_app; right; left.
Qed.

(** The search is at a level, at or behind the calls before the first return. *)
Record sinv (s : srch) : Prop := {
  si_stack : exists ids, stack (s_heap s) (s_linearized s) (s_state s) (s_calls s) ids;
  si_entry : exists pre suf, rem (s_linearized s) = pre ++ suf /\ s_entry s = head suf.*1
    /\ Forall (fun p => isCall p.2) pre;
  si_long : longOk (s_longest s);
}.

(** An iteration never panics, and keeps the invariant. *)
Definition iterates (s : srch) : Prop :=
  exists r, iteration model computePartial head_ s = Some r
    /\ match r with inl s' => sinv s' | inr lg => longOk lg end.

Lemma iterates_push h b st calls ids pre x e suf cache lg :
  stack h b st calls ids -> rem b = pre ++ (x, e) :: suf -> kind e = callEntry ->
  Forall (fun p => isCall p.2) pre -> longOk lg ->
  iterates (mkSearch h (Some x) b cache calls st lg).
Proof.
  intros Hst Hr Hk Hpre Hlg; pose proof (stack_level _ _ _ _ _ Hst) as Hlv.
  destruct (iteration_call model computePartial head_ n all h b pre x e suf cache calls st lg Hlv Hr Hk)
    as (i & o & e' & nd & Hi & He' & Hk' & Hid' & Ho & _ & _ & Hit).
  assert (Hskip : sinv (mkSearch h (head suf.*1) b cache calls st lg)).
  { split; simpl; [eauto| |done]. exists (pre ++ [(x, e)]), suf; split_and!; [by rewrite <- (assoc app)|done|].
    apply Forall_app; split; [done|by constructor]. }
  unfold iterates; rewrite Hit; destruct (Step model st i o) as [ok st'] eqn:Es; destruct ok; [|eauto].
  destruct (level_lift head_ n all h b pre x e suf Hlv Hr Hk) as (b' & h' & Hb' & Hbc & Hl & Hul & Hs & Hlv' & _ & Hw).
  rewrite Hb', Hl; cbn [mbind option_bind]. destruct (negb _); [|eauto].
  destruct (level_head _ _ _ _ _ Hlv') as (hd & Hhd & Hn); rewrite Hhd; cbn [mbind option_bind].
  eexists; split; [done|]. split; simpl; [|by exists [], (rem b')|done].
  exists (ids ++ [eid e]). eapply stack_push; try done.
  split_and!; [by eapply rem_lookup|done| |by exists i, e', o].
  rewrite Hr, fmap_app, take_app_length' by (by rewrite length_fmap). by apply Forall_fmap.
Qed.

Lemma iterates_pop h b st calls ids pre r e suf cache lg :
  stack h b st calls ids -> rem b = pre ++ (r, e) :: suf -> kind e = returnEntry -> longOk lg ->
  iterates (mkSearch h (Some r) b cache calls st lg).
Proof.
  intros Hst Hr Hk Hlg; pose proof (stack_level _ _ _ _ _ Hst) as Hlv.
  destruct (stack_callIds _ _ _ _ _ Hst) as [Hids Hok]; pose proof (stack_performed _ _ _ _ _ Hst) as Hp.
  destruct (level_node _ _ _ _ _ _ _ _ _ Hlv Hr) as (rd & Hrd & _ & _ & _ & Hnone & _).
  unfold iterates, iteration; cbn [s_entry s_heap s_state s_linearized s_cache s_calls s_longest mbind option_bind].
  rewrite Hrd; cbn [mbind option_bind]; rewrite (Hnone Hk), Hids; cbn [mbind option_bind].
  destruct Hst as [|h0 b0 st0 calls ids pre0 x e0 suf0 h b st Hst Hlv' Hr0 Hpre0 Hk0 Ho Hbc Hul Hs Hw]; [eauto|].
  destruct (longestLoop_ok (ids ++ [eid e0]) (ids ++ [eid e0]) lg) as (lg2 & E2 & _).
  { intros i Hi; rewrite (lo_len _ Hlg); by apply Hok. }
  assert (Hlg2 : longOk lg2).
  { eapply longOk_longer; [done| |by apply longestLoop_longer]. eexists _, _; done. }
  pose proof (stack_level _ _ _ _ _ Hst) as Hlv0.
  destruct (level_node _ _ _ _ _ _ _ _ _ Hlv0 Hr0) as (nd & Hnd & Hnx & Hnid & _).
  destruct (sameData_lookup _ _ _ _ Hs Hnd) as (nd' & Hnd' & _ & _ & Hnid').
  exists (inl (mkSearch h0 (next nd) b0 cache calls st0 (if computePartial then lg2 else lg))); split.
  - destruct computePartial; cbn [mbind option_bind]; [rewrite E2; cbn [mbind option_bind]|];
      rewrite Hnd'; cbn [mbind option_bind]; rewrite Hnid', Hnid, Hbc; cbn [mbind option_bind];
      rewrite Hul; cbn [mbind option_bind]; by rewrite Hnd.
  - split; simpl; [eauto| |by destruct computePartial].
    exists (pre0 ++ [(x, e0)]), suf0; split_and!; [by rewrite <- (assoc app)|done|].
    apply Forall_app; split; [done|by constructor].
Qed.

Lemma sinv_iterates s hd y :
  sinv s -> s_heap s !! head_ = Some hd -> next hd = Some y -> iterates s.
Proof.
  intros [[ids Hst] (pre & suf & Hr & He & Hpre) Hlg] Hhd Hy; destruct s as [h en b cache calls st lg]; simpl in *.
  pose proof (stack_level _ _ _ _ _ Hst) as Hlv. destruct suf as [|[x e] suf]; simpl in He; subst en.
  - exfalso; rewrite app_nil_r in Hr. pose proof (level_return _ _ _ _ _ _ Hlv Hr Hpre) as ->.
    destruct (level_head _ _ _ _ _ Hlv) as (hd' & Hhd' & Hn); rewrite Hr in Hn; simpl in Hn. congruence.
  - destruct (kind e) eqn:Hk; [by eapply iterates_push|by eapply iterates_pop].
Qed.

(** When the list is empty the calls are all operations. *)
Lemma sinv_finished s hd :
  sinv s -> s_heap s !! head_ = Some hd -> next hd = None ->
  exists ids, callIds (s_heap s) (s_calls s) = Some ids /\ longOk ((fun _ => Some ids) <$> s_longest s).
Proof.
  intros [[ids Hst] _ Hlg] Hhd Hn; pose proof (stack_level _ _ _ _ _ Hst) as Hlv.
  destruct (level_head _ _ _ _ _ Hlv) as (hd' & Hhd' & Hn'); rewrite Hhd in Hhd'; simplify_eq.
  assert (Hnil : rem (s_linearized s) = []) by (destruct (rem (s_linearized s)); simpl in *; congruence).
  pose proof (stack_performed _ _ _ _ _ Hst) as Hp.
  destruct (stack_callIds _ _ _ _ _ Hst) as [Hids Hok]. exists ids; split; [done|].
  assert (Hidx : forall j x, idx ((fun _ => Some ids) <$> s_longest s) j = Some x <-> 0 <= j < n /\ x = Some ids).
  { intros j x; rewrite <- (lo_len _ Hlg). unfold idx, len. case_if; [|split; [done|lia]].
    rewrite list_lookup_fmap. destruct (s_longest s !! Z.to_nat j) eqn:Ej; simpl.
    - apply lookup_lt_Some in Ej; split; [intros [= <-]; split; [lia|done]|by intros [_ ->]].
    - apply lookup_ge_None in Ej; split; [done|lia]. }
  split; [unfold len; rewrite length_fmap; apply (lo_len _ Hlg)| |].
  - intros j seq [Hj [= ->]]%Hidx; split; [by eexists _, _|].
    destruct (ids_all j Hj) as (x & e & Hin & <-).
    destruct (performed_left _ _ _ _ e Hp) as [HE|]; [apply list_elem_of_fmap; by exists (x, e)| |done].
    rewrite Hnil in HE; by apply elem_of_nil in HE.
  - intros j seq i [Hj [= ->]]%Hidx Hi; exists ids; split; [|lia]. apply Hidx; split; [by apply Hok|done].
Qed.

Lemma searchLoop_long kill fuel k s r lg :
  sinv s -> searchLoop model computePartial kill head_ fuel k s = Some (r, lg) -> longOk lg.
Proof.
  revert k s; induction fuel as [|fuel IH]; intros k s Hs H; cbn [searchLoop] in H;
    (destruct (s_heap s !! head_) as [hd|] eqn:Hhd; cbn [mbind option_bind] in H; [|done]);
    (destruct (next hd) as [y|] eqn:Hy; [destruct (kill k); [simplify_eq; by apply si_long|]|]).
  1: done.
  1, 3: destruct (sinv_finished s hd Hs Hhd Hy) as (ids & Hids & Hlg);
    rewrite Hids in H; cbn [mbind option_bind] in H; by simplify_eq.
  destruct (sinv_iterates s hd y Hs Hhd Hy) as (res & Hit & Hres); rewrite Hit in H; cbn [mbind option_bind] in H.
  destruct res as [s'|lg']; [by eapply IH|by simplify_eq].
Qed.

(** An interruption only ends the search earlier. *)
Lemma searchLoop_killed fuel k k' kill s r :
  searchLoop model computePartial neverKilled head_ fuel k s = Some r ->
  exists r', searchLoop model computePartial kill head_ fuel k' s = Some r'.
Proof.
  revert k k' s; induction fuel as [|fuel IH]; intros k k' s H; cbn [searchLoop] in *;
    (destruct (s_heap s !! head_) as [hd|]; cbn [mbind option_bind] in *; [|done]);
    (destruct (next hd); [|eauto]); cbn [neverKilled] in H; destruct (kill k'); eauto.
  destruct (iteration _ _ _ _) as [[s'|lg']|]; cbn [mbind option_bind] in *; [by eapply IH|eauto|done].
Qed.
End partial.

(** ** What is recorded of a history of operations *)

Section recorded.
Context {St In Out : Type} (model : Model St In Out) (computePartial : bool).
Notation ent := (entry In Out).
Notation operation := (Operation In Out).
Implicit Types (ops : list operation) (E : list ent) (seq R : list Z).

(** Executing [seq] from [s] gives the observed outputs and ends in [s']. *)
Fixpoint executes ops (s : St) seq (s' : St) : Prop :=
  match seq with
  | [] => s' = s
  | a :: seq =>
      exists op s1, idx ops a = Some op /\ Step model s (Input op) (Output op) = (true, s1) /\ executes ops s1 seq s'
  end.

Lemma executes_snoc ops s seq s1 a op s' :
  executes ops s seq s1 -> idx ops a = Some op -> Step model s1 (Input op) (Output op) = (true, s') ->
  executes ops s (seq ++ [a]) s'.
Proof.
  revert s; induction seq as [|c seq IH]; intros s; simpl.
  - intros -> Ha Hst; by exists op, s'.
  - intros (opc & s2 & Hc & Hst2 & Hr) Ha Hst; exists opc, s2; split_and!; [done|done|by apply IH].
Qed.

Lemma executes_legal ops s seq s' : executes ops s seq s' -> legal model ops s seq.
Proof.
  revert s; induction seq as [|a seq IH]; intros s; simpl; [done|].
  intros (op & s1 & Ha & Hst & Hr); exists op, s1; split_and!; [done|done|by apply IH].
Qed.

(** A linearization of some of the operations, closed under what returned
    before. *)
Record prefixLinearization ops seq : Prop := {
  pl_nodup : NoDup seq;
  pl_legal : legal model ops (Init model) seq;
  pl_before : forall k a opa c opc, seq !! k = Some a -> idx ops a = Some opa -> idx ops c = Some opc ->
    Return opc < Call opa -> c ∈ take k seq;
}.

Lemma performed_ops ops E E' st seq :
  entriesOf ops E -> timesOk ops -> performed model E E' st seq ->
  exists R, E' = restrict R E /\ NoDup R /\ R ++ seq ≡ₚ seqZ 0 (len ops) /\ executes ops (Init model) seq st
    /\ forall k a opa c opc, seq !! k = Some a -> idx ops a = Some opa -> idx ops c = Some opc ->
         Return opc < Call opa -> c ∈ take k seq.
Proof.
  intros He Ht; induction 1 as [|E' st seq j e st' _ (R & -> & Hnd & Hp & Hex & Hb) Ho].
  { exists (seqZ 0 (len ops)); split_and!; [|apply NoDup_seqZ|by rewrite app_nil_r|done|done].
    unfold restrict; rewrite filter_all; [done|]. intros e Hin.
    apply (elem_entriesOf ops E e He) in Hin as (a & op & Ha & Hor); apply idx_Some_range in Ha.
    apply elem_of_seqZ; destruct Hor as [-> | ->]; simpl; lia. }
  assert (Hex' : exists j e', opens model (restrict R E) st j e' st' /\ eid e' = eid e) by eauto.
  apply (opens_iff model ops E R st (eid e) st' He Ht) in Hex' as (op & Ha & Hidx & Hst & Hfirst).
  exists (filter (fun c => c <> eid e) R); split_and!.
  - apply restrict_without.
  - by apply NoDup_filter.
  - rewrite <- Hp, (remove_perm R (eid e) Hnd Ha) at 1. rewrite (remove_perm R (eid e) Hnd Ha) at 2.
    rewrite filter_cons_False by tauto. rewrite list_filter_filter.
    rewrite (list_filter_iff _ (fun c => c <> eid e)) by tauto. solve_Permutation.
  - by eapply executes_snoc.
  - intros k a opa c opc Hk Hopa Hopc Hlt. destruct (decide (k < length seq)%nat) as [Hkl|Hge].
    + rewrite lookup_app_l in Hk by done. rewrite take_app_le by lia. by eapply Hb.
    + rewrite lookup_app_r in Hk by lia. assert (k - length seq = 0)%nat as Hz by (apply lookup_lt_Some in Hk; simpl in Hk; lia).
      rewrite Hz in Hk; injection Hk as <-. replace k with (length seq) by lia.
      rewrite take_app_length. assert (Hc : c ∈ R ++ seq).
      { rewrite Hp; apply elem_of_seqZ. apply idx_Some_range in Hopc; lia. }
      apply elem_of_app in Hc as [Hc|]; [exfalso|done].
      destruct (decide (c = eid e)) as [->|Hne].
      * assert (Hin : op ∈ ops) by (unfold idx in Hidx; case_if_in Hidx; [by eapply list_elem_of_lookup_2|done]).
        specialize (Ht op Hin); simplify_eq; lia.
      * simplify_eq; by eapply Hfirst.
Qed.

Lemma prefixOf_partial ops E seq :
  entriesOf ops E -> timesOk ops -> prefixOf model E seq -> prefixLinearization ops seq.
Proof.
  intros He Ht (E' & st & (R & _ & _ & Hp & Hex & Hb)%(performed_ops ops)); [|done|done].
  split; [|by eapply executes_legal|done].
  assert (Hnd : NoDup (R ++ seq)) by (rewrite Hp; apply NoDup_seqZ). by apply NoDup_app in Hnd as (_ & _ & ?).
Qed.

(** What every slot of [longest] holds in the end. *)
Record recorded ops (lg : list (option (list Z))) : Prop := {
  rc_len : len lg = len ops;
  rc_seq : forall j seq, idx lg j = Some (Some seq) -> prefixLinearization ops seq /\ j ∈ seq;
  rc_max : forall j seq i, idx lg j = Some (Some seq) -> i ∈ seq ->
    exists seq', idx lg i = Some (Some seq') /\ len seq <= len seq';
}.

Lemma checkSingle_recorded ops E kill fuel r lg :
  entriesOf ops E -> timesOk ops ->
  checkSingle model E computePartial kill fuel = Some (r, lg) -> recorded ops lg.
Proof.
  intros He Ht H; pose proof (entriesOf_wf ops E Ht He) as Hwf. set (n := len ops) in *.
  destruct (checkSingle_start n E Hwf)
    as (root & head_ & h & h1 & all & Hmk & Hlen & Hins & Hroot & Hall & Hlk & Hew).
  assert (Hn : 0 <= n) by apply len_nonneg.
  unfold checkSingle in H; rewrite Hmk in H; cbn [mbind option_bind] in H; rewrite Hlen in H; cbn [mbind option_bind] in H.
  rewrite Hins in H; cbn [mbind option_bind] in H.
  replace (2 * n / 2) with n in H by (rewrite Z.mul_comm, Z.div_mul; lia).
  assert (Hrem : rem all (newBitset n) = all).
  { apply filter_all; intros [x e] Hin; simpl. apply newBitset_get; [done|]. by eapply (ew_ids _ _ _ Hew). }
  assert (Hlv : level head_ n all h1 (newBitset n)).
  { split; rewrite ?Hrem; [done|done|]. intros id Hid. rewrite newBitset_get by done. eauto. }
  assert (Hall_ids : forall i, 0 <= i < n -> exists x e, (x, e) ∈ all /\ eid e = i).
  { intros i Hi; destruct (idx_in_range ops i Hi) as [op Hop].
    assert (Hin : callOf i op ∈ all.*2) by (rewrite Hall; apply (elem_entriesOf ops E _ He); eauto).
    apply list_elem_of_fmap in Hin as ([x e] & Heq & Hin); simpl in Heq; subst e. by eexists x, _. }
  assert (Hnone : forall j (x : list Z), idx (replicate (Z.to_nat n) None) j <> Some (Some x)).
  { intros j x; unfold idx; case_if; [|done]. intros [? _]%lookup_replicate; done. }
  apply (searchLoop_long model computePartial head_ n all Hall_ids) in H.
  - destruct H as [Hl Hs Hm]; split; [done| |done]. intros j seq Hj; destruct (Hs j seq Hj) as [Hp Hin].
    rewrite Hall in Hp. split; [by eapply prefixOf_partial|done].
  - split; simpl.
    + exists []; by constructor.
    + exists [], all; rewrite Hrem; split_and!; [done|done|constructor].
    + split; [unfold len; rewrite length_replicate; lia| |]; intros j seq; [|intros i]; intros Hj; by apply Hnone in Hj.
Qed.

(** A search that may be interrupted answers with the fuel of one that is not. *)
Lemma checkSingle_killed E kill fuel x :
  checkSingle model E computePartial neverKilled fuel = Some x ->
  exists x', checkSingle model E computePartial kill fuel = Some x'.
Proof.
  unfold checkSingle; intros H. destruct (makeLinkedEntries E) as [[[root hd] h]|]; [|done]; cbn [mbind option_bind] in *.
  destruct (nlength root h); [|done]; cbn [mbind option_bind] in *.
  destruct (insertBefore hd root _); [|done]; cbn [mbind option_bind] in *. by eapply searchLoop_killed.
Qed.
(** A positive answer puts one sequence into every slot. *)
Lemma searchLoop_same kill head_ fuel k (s : search St In Out) lg :
  searchLoop model computePartial kill head_ fuel k s = Some (true, lg) ->
  exists seq, forall x, x ∈ lg -> x = Some seq.
Proof.
  assert (Hend : forall s : search St In Out, (seq ← callIds (s_heap s) (s_calls s);
    Some (true, (fun _ : option (list Z) => Some seq) <$> s_longest s)) = Some (true, lg) ->
    exists seq, forall x, x ∈ lg -> x = Some seq).
  { intros s0 H; destruct (callIds _ _) as [seq|]; cbn [mbind option_bind] in H; [|done]. injection H as <-.
    exists seq; by intros x (y & -> & _)%list_elem_of_fmap. }
  revert k s; induction fuel as [|fuel IH]; intros k s H; cbn [searchLoop] in H;
    (destruct (s_heap s !! head_) as [hd|]; cbn [mbind option_bind] in H; [|done]);
    (destruct (next hd); [|by apply (Hend s)]); (destruct (kill k); [done|]); [done|].
  destruct (iteration _ _ _ _) as [[s'|lg']|]; cbn [mbind option_bind] in H; [by eapply IH|done|done].
Qed.

Lemma checkSingle_same E kill fuel lg :
  checkSingle model E computePartial kill fuel = Some (true, lg) -> exists seq, forall x, x ∈ lg -> x = Some seq.
Proof.
  unfold checkSingle; intros H. destruct (makeLinkedEntries E) as [[[root hd] h]|]; [|done]; cbn [mbind option_bind] in *.
  destruct (nlength root h); [|done]; cbn [mbind option_bind] in *.
  destruct (insertBefore hd root _); [|done]; cbn [mbind option_bind] in *. by eapply searchLoop_same.
Qed.

(** The sequences of a positive answer are one complete linearization. *)
Lemma recorded_complete ops lg seq :
  recorded ops lg -> (forall x, x ∈ lg -> x = Some seq) -> ops <> [] -> seq ≡ₚ seqZ 0 (len ops).
Proof.
  intros [Hl Hs _] Hsame Hne.
  assert (Hj : forall j, 0 <= j < len ops -> idx lg j = Some (Some seq)).
  { intros j Hj; rewrite <- Hl in Hj; destruct (idx_in_range lg j Hj) as [x Hx]. rewrite Hx; f_equal.
    apply Hsame. unfold idx in Hx; case_if_in Hx; [by eapply list_elem_of_lookup_2|done]. }
  assert (H0 : 0 < len ops) by (destruct ops; [done|rewrite len_cons; pose proof (len_nonneg ops); lia]).
  destruct (Hs 0 seq (Hj 0 ltac:(lia))) as [[Hnd Hleg _] _].
  apply NoDup_Permutation; [done|apply NoDup_seqZ|]. intros i; rewrite elem_of_seqZ; split.
  - clear -Hleg; generalize dependent (Init model); induction seq as [|a seq IH]; intros s Hleg Hi; [by apply elem_of_nil in Hi|].
    destruct Hleg as (op & s' & Ha & _ & Hleg). apply elem_of_cons in Hi as [->|Hi]; [|by eapply IH].
    apply idx_Some_range in Ha; lia.
  - intros Hi; by apply (Hs i seq (Hj i ltac:(lia))).
Qed.
End recorded.
