(* ===== verification/Porcupine.v ===== *)
(** * porcupine: the entry points, and the key-value model

    Models [checkParallel], [checkEvents] and [checkOperations] of
    [porcupine/checker.go], the functions of [porcupine/porcupine.go], and
    [models/kv.go].

    The goroutines of [checkParallel] deliver their results in some order, and
    the timer may fire in between: the sequence of arrivals is an argument. The
    second result, the [linearizationInfo] of the visualizer, is in [Visual]. *)

From S2P Require Import Prelude Bitset Checker CheckerHeap CheckerSearch CheckerBuild Linearizability.

#[local] Open Scope string_scope.
#[local] Open Scope Z_scope.

Inductive CheckResult : Type := Unknown | Ok | Illegal.

(** What the [select] of [checkParallel] receives: the result of goroutine [i],
    or the timer. *)
Inductive arrival : Type := Finished (i : nat) | Timeout.

(** The receiving loop: [ok] and [timedOut] when it breaks; [None] while it
    waits for the next arrival. [run i] is what goroutine [i] sends. *)
Fixpoint collect (run : nat -> option bool) (computeInfo : bool) (total count : Z) (ok : bool)
    (arrivals : list arrival) : option (bool * bool) :=
  match arrivals with
  | [] => None
  | Finished i :: arrivals =>
      result ← run i;
      let count := count + 1 in
      let ok := ok && result in
      if negb ok && negb computeInfo then Some (ok, false)
      else if count >=? total then Some (ok, false)
      else collect run computeInfo total count ok arrivals
  | Timeout :: _ => Some (ok, true)
  end.

Definition checkResult (ok timedOut : bool) : CheckResult :=
  if negb ok then Illegal else if timedOut then Unknown else Ok.

Section check.
Context {St In Out : Type} (ShallowEqual : St -> St -> bool).
Context (sort : list (entry In Out) -> list (entry In Out)).
(* what the channels deliver, in order *)
Context (arrivals : list arrival).
Context (fuel : nat).

(** What goroutine [i] sends on [results]; the kill flag is only set when the
    receiving loop has ended. *)
Definition goroutine (model : Model St In Out) (history : list (list (entry In Out)))
    (computeInfo : bool) (i : nat) : option bool :=
  subhistory ← history !! i;
  fst <$> checkSingle model subhistory computeInfo neverKilled fuel.

(** [None]: a goroutine has not ended within [fuel], or [checkParallel] waits
    for an arrival. *)
Definition checkParallel (model : Model St In Out) (history : list (list (entry In Out)))
    (computeInfo : bool) : option CheckResult :=
  '(ok, timedOut) ← collect (goroutine model history computeInfo) computeInfo (len history) 0 true arrivals;
  Some (checkResult ok timedOut).

Definition checkEvents (model : Model St In Out) (history : list (Event In Out)) (verbose : bool)
    : option CheckResult :=
  let model := fillDefault ShallowEqual model in
  let partitions := default NoPartitionEvent (PartitionEvent model) history in
  checkParallel model ((fun sub => convertEntries (renumber sub)) <$> partitions) verbose.

Definition checkOperations (model : Model St In Out) (history : list (Operation In Out)) (verbose : bool)
    : option CheckResult :=
  let model := fillDefault ShallowEqual model in
  let partitions := default NoPartition (Partition model) history in
  checkParallel model (makeEntries sort <$> partitions) verbose.

Definition CheckOperations (model : Model St In Out) (history : list (Operation In Out)) : option bool :=
  (fun res => match res with Ok => true | _ => false end) <$> checkOperations model history false.
Definition CheckOperationsTimeout (model : Model St In Out) (history : list (Operation In Out)) : option CheckResult :=
  checkOperations model history false.
Definition CheckOperationsVerbose (model : Model St In Out) (history : list (Operation In Out)) : option CheckResult :=
  checkOperations model history true.
Definition CheckEvents (model : Model St In Out) (history : list (Event In Out)) : option bool :=
  (fun res => match res with Ok => true | _ => false end) <$> checkEvents model history false.
Definition CheckEventsTimeout (model : Model St In Out) (history : list (Event In Out)) : option CheckResult :=
  checkEvents model history false.
Definition CheckEventsVerbose (model : Model St In Out) (history : list (Event In Out)) : option CheckResult :=
  checkEvents model history true.
End check.

(** ** The key-value model *)

Record KvInput : Type := mkKvInput { kOp : Z; kKey : string; kValue : string }.
Record KvOutput : Type := mkKvOutput { koValue : string }.

Fixpoint kvGroup (m : gmap string (list (Operation KvInput KvOutput))) (history : list (Operation KvInput KvOutput))
    : gmap string (list (Operation KvInput KvOutput)) :=
  match history with
  | [] => m
  | v :: history =>
      let key := kKey (Input v) in
      kvGroup (<[key := (default [] (m !! key) ++ [v])%list]> m) history
  end.

(** [sortStrings] is [sort.Strings]; the keys come from a range over the map. *)
Definition kvPartition (sortStrings : list string -> list string) (history : list (Operation KvInput KvOutput))
    : list (list (Operation KvInput KvOutput)) :=
  let m := kvGroup ∅ history in
  let keys := sortStrings (map_to_list m).*1 in
  (fun k => default [] (m !! k)) <$> keys.

Definition kvStep (st : string) (inp : KvInput) (out : KvOutput) : bool * string :=
  if kOp inp =? 0 then (String.eqb (koValue out) st, st)
  else if kOp inp =? 1 then (true, kValue inp)
  else (true, st +:+ kValue inp).

Definition KvModel (sortStrings : list string -> list string) : Model string KvInput KvOutput :=
  mkModel (Some (kvPartition sortStrings)) None "" kvStep None.

Definition DescribeOperation (inp : KvInput) (out : KvOutput) : string :=
  if kOp inp =? 0 then "get('" +:+ kKey inp +:+ "') -> '" +:+ koValue out +:+ "'"
  else if kOp inp =? 1 then "put('" +:+ kKey inp +:+ "', '" +:+ kValue inp +:+ "')"
  else if kOp inp =? 2 then "append('" +:+ kKey inp +:+ "', '" +:+ kValue inp +:+ "')"
  else "<invalid>".

(** ** The results of the partitions *)

Section collect.
Context (run : nat -> option bool) (computeInfo : bool) (good : nat -> Prop) (n : nat).
Hypothesis run_ok : forall i r, run i = Some r -> (i < n)%nat /\ (r = true <-> good i).

Definition finished (arrivals : list arrival) : list nat :=
  omap (fun a => match a with Finished i => Some i | Timeout => None end) arrivals.

Lemma covers_all (seen : list nat) :
  NoDup seen -> (forall i, i ∈ seen -> (i < n)%nat) -> (n <= length seen)%nat -> forall i, (i < n)%nat -> i ∈ seen.
Proof.
  intros Hnd Hr Hl i Hi. assert (Hsub : seen ⊆+ seq 0 n).
  { apply NoDup_submseteq; [done|]. intros j Hj; apply elem_of_seq; specialize (Hr j Hj); lia. }
  apply submseteq_length_Permutation in Hsub; [|by rewrite length_seq].
  rewrite Hsub; apply elem_of_seq; lia.
Qed.

(** Whatever arrives in whatever order, a verdict is a fact about the
    partitions. *)
Lemma collect_sound arrivals (seen : list nat) ok ok' timedOut :
  NoDup (finished arrivals ++ seen) -> (forall i, i ∈ seen -> (i < n)%nat /\ (ok = true -> good i)) ->
  (ok = false -> exists i, (i < n)%nat /\ ~ good i) ->
  collect run computeInfo (Z.of_nat n) (len seen) ok arrivals = Some (ok', timedOut) ->
  (ok' = false -> exists i, (i < n)%nat /\ ~ good i)
  /\ (ok' = true -> timedOut = false -> forall i, (i < n)%nat -> good i).
Proof.
  revert seen ok; induction arrivals as [|[i|] arrivals IH]; intros seen ok Hnd Hseen Hbad H; cbn [collect] in H; [done| |by simplify_eq].
  destruct (run i) as [r|] eqn:Er; cbn [mbind option_bind] in H; [|done].
  destruct (run_ok _ _ Er) as [Hi Hgood]. cbn [finished omap list_omap] in Hnd; fold (finished arrivals) in Hnd.
  assert (Hnd' : NoDup (finished arrivals ++ i :: seen)) by (by rewrite <- Permutation_middle).
  assert (Hseen' : forall j, j ∈ i :: seen -> (j < n)%nat /\ (ok && r = true -> good j)).
  { intros j [->|Hj]%elem_of_cons; [split; [done|]|destruct (Hseen j Hj); split; [done|]]; intros [-> ->]%andb_true_iff; tauto. }
  assert (Hbad' : ok && r = false -> exists j, (j < n)%nat /\ ~ good j).
  { destruct ok; [|by intros _; auto]. destruct r; [done|]. intros _; exists i; split; [done|]. rewrite <- Hgood; done. }
  replace (len seen + 1) with (len (i :: seen)) in H by (rewrite len_cons; lia).
  destruct (negb (ok && r) && negb computeInfo) eqn:Es; [|case_if_in H].
  - simplify_eq. destruct (ok && r); [done|]. split; [auto|done].
  - simplify_eq. split; [done|]. intros Ht _ j Hj. apply Hseen'; [|done].
    apply covers_all; [by apply NoDup_app in Hnd' as (_ & _ & ?)|naive_solver|unfold len in *; zbool; lia|done].
  - eapply IH; [..|exact H]; done.
Qed.

(** When every goroutine answers, so does the loop. *)
Lemma collect_returns order count ok :
  (forall i, i ∈ order -> is_Some (run i)) -> order <> [] -> count + len order = Z.of_nat n ->
  exists ok', collect run computeInfo (Z.of_nat n) count ok (Finished <$> order) = Some (ok', false).
Proof.
  revert count ok; induction order as [|i order IH]; intros count ok Hrun Hne Hc; [done|].
  cbn [fmap list_fmap collect]. destruct (Hrun i ltac:(left)) as [r ->]; cbn [mbind option_bind].
  rewrite len_cons in Hc. destruct (_ && negb computeInfo); [eauto|]. case_if; [eauto|].
  apply IH; [intros j Hj; apply Hrun; by right| |lia]. intros ->; unfold len in Hc; simpl in Hc; zbool; lia.
Qed.
End collect.

(** ** The verdict on the parts of a history *)

Section parallel.
Context {St In Out : Type} (model : Model St In Out) (verbose : bool).
Context (subs : list (list (entry In Out))) (good : nat -> Prop).

(** The search on part [i] ends with the answer to [good i]. *)
Definition decidedPart (i : nat) (E : list (entry In Out)) : Prop :=
  exists fuel0, forall fuel, (fuel0 <= fuel)%nat ->
    exists r lg, checkSingle model E verbose neverKilled fuel = Some (r, lg) /\ (r = true <-> good i).

Hypothesis decided : forall i E, subs !! i = Some E -> decidedPart i E.

Notation run fuel := (goroutine fuel model subs verbose).
Notation nparts := (length subs).

Lemma run_sound fuel i r : run fuel i = Some r -> (i < nparts)%nat /\ (r = true <-> good i).
Proof.
  unfold goroutine; intros H. destruct (subs !! i) as [E|] eqn:Ei; cbn [mbind option_bind] in H; [|done].
  split; [by apply lookup_lt_Some in Ei|].
  destruct (checkSingle _ _ _ _ fuel) as [[r' lg]|] eqn:Ec; [|done]; simpl in H; simplify_eq.
  destruct (decided i E Ei) as [fuel0 Hd]. destruct (Hd (fuel0 + fuel)%nat ltac:(lia)) as (r' & lg' & Hr & Hiff).
  rewrite (checkSingle_more _ _ _ fuel (fuel0 + fuel) (r, lg) Ec ltac:(lia)) in Hr; by simplify_eq.
Qed.

Lemma run_total : exists fuel0, forall fuel, (fuel0 <= fuel)%nat -> forall i, (i < nparts)%nat -> is_Some (run fuel i).
Proof.
  assert (H : forall m, (m <= nparts)%nat -> exists fuel0, forall fuel, (fuel0 <= fuel)%nat -> forall i, (i < m)%nat -> is_Some (run fuel i)).
  { induction m as [|m IH]; intros Hm; [exists 0%nat; lia|]. destruct (IH ltac:(lia)) as [f1 H1].
    destruct (lookup_lt_is_Some_2 subs m ltac:(lia)) as [E HE]. destruct (decided m E HE) as [f2 H2].
    exists (f1 + f2)%nat; intros fuel Hle i Hi. destruct (decide (i = m)) as [->|]; [|apply H1; lia].
    unfold goroutine; rewrite HE; cbn [mbind option_bind]. destruct (H2 fuel ltac:(lia)) as (r & lg & -> & _); simpl; eauto. }
  by apply H.
Qed.

Lemma checkParallel_collect arrivals fuel :
  checkParallel arrivals fuel model subs verbose
  = '(ok, timedOut) ← collect (run fuel) verbose (Z.of_nat nparts) 0 true arrivals; Some (checkResult ok timedOut).
Proof. done. Qed.

Lemma parallel_sound arrivals fuel res :
  NoDup (finished arrivals) -> checkParallel arrivals fuel model subs verbose = Some res ->
  (res = Ok -> forall i, (i < nparts)%nat -> good i) /\ (res = Illegal -> ~ forall i, (i < nparts)%nat -> good i).
Proof.
  rewrite checkParallel_collect; intros Hnd H.
  destruct (collect _ _ _ _ _ _) as [[ok timedOut]|] eqn:Ec; cbn [mbind option_bind] in H; [|done]; simplify_eq.
  apply (collect_sound (run fuel) verbose good nparts (run_sound fuel) arrivals [] true) in Ec as [Hbad Hgood].
  - destruct ok, timedOut; split; simpl; try done; [by auto|..];
      intros _ Hall; destruct Hbad as (i & Hi & Hn); auto.
  - by rewrite app_nil_r.
  - intros i Hi; by apply elem_of_nil in Hi.
  - done.
Qed.

Lemma finished_order (order : list nat) : finished (Finished <$> order) = order.
Proof. unfold finished; induction order as [|i order IH]; simpl; [done|]. by f_equal. Qed.

Lemma parallel_reached :
  subs <> [] ->
  exists fuel0, forall fuel order, (fuel0 <= fuel)%nat -> order ≡ₚ seq 0 nparts ->
    (checkParallel (Finished <$> order) fuel model subs verbose = Some Ok /\ forall i, (i < nparts)%nat -> good i)
    \/ (checkParallel (Finished <$> order) fuel model subs verbose = Some Illegal /\ ~ forall i, (i < nparts)%nat -> good i).
Proof.
  intros Hne; destruct run_total as [fuel0 Hrun]; exists fuel0; intros fuel order Hle Hp.
  assert (Hnd : NoDup (finished (Finished <$> order))) by (rewrite finished_order, Hp; apply NoDup_seq).
  destruct (collect_returns (run fuel) verbose nparts order 0 true) as [ok Hc].
  - intros i Hi; apply Hrun; [done|]. rewrite Hp in Hi; apply elem_of_seq in Hi; lia.
  - intros ->. apply Permutation_nil in Hp. by destruct subs.
  - unfold len; rewrite Hp, length_seq; lia.
  - pose proof (parallel_sound (Finished <$> order) fuel) as Hs.
    rewrite checkParallel_collect, Hc in Hs |- *; cbn [mbind option_bind] in *.
    destruct ok; [left|right]; (split; [done|]); eapply Hs; done.
Qed.
End parallel.

(** The parts are those of a list whose elements are to satisfy [P]. *)
Section parts.
Context {B : Type} (P : B -> Prop) (parts : list B).

Definition goodPart (i : nat) : Prop := exists sub, parts !! i = Some sub /\ P sub.

Lemma goodParts : (forall i, (i < length parts)%nat -> goodPart i) <-> Forall P parts.
Proof.
  rewrite Forall_lookup; split.
  - intros H i sub Hi; destruct (H i) as (sub' & Hs & Hl); [by apply lookup_lt_Some in Hi|]. by simplify_eq.
  - intros H i Hi; apply lookup_lt_is_Some in Hi as [sub Hs]; exists sub; eauto.
Qed.

Lemma goodPart_iff i sub : parts !! i = Some sub -> (goodPart i <-> P sub).
Proof. intros Hi; unfold goodPart; rewrite Hi. naive_solver. Qed.
End parts.

Section verdict.
Context {St In Out : Type} (ShallowEqual : St -> St -> bool) (model : Model St In Out).
Context (sort : list (entry In Out) -> list (entry In Out)) (history : list (Operation In Out)) (verbose : bool).

Definition sorts (f : list (entry In Out) -> list (entry In Out)) : Prop :=
  forall E, f E ≡ₚ E /\ StronglySorted notLater (f E).

(** The partitions [checkOperations] checks. *)
Definition partitionsOf : list (list (Operation In Out)) := default NoPartition (Partition model) history.

Hypothesis Equal_eq : forall s1 s2, default ShallowEqual (Equal model) s1 s2 = true -> s1 = s2.
Hypothesis times_ok : Forall timesOk partitionsOf.
Hypothesis sort_ok : sorts sort.

Lemma operations_decided i E :
  (makeEntries sort <$> partitionsOf) !! i = Some E ->
  decidedPart (fillDefault ShallowEqual model) verbose (goodPart (linearizable model) partitionsOf) i E.
Proof.
  rewrite list_lookup_fmap; intros (sub & Hi & ->)%fmap_Some. rewrite Forall_lookup in times_ok.
  destruct (sort_ok (rawEntries 0 sub)) as [Hp Hs].
  destruct (makeEntries_decided (fillDefault ShallowEqual model) verbose sort sub) as [fuel0 Hd]; [done|eauto|done|done|].
  exists fuel0; intros fuel Hle; destruct (Hd fuel Hle) as (r & lg & Hr & Hiff & _). exists r, lg; split; [done|].
  by rewrite Hiff, (goodPart_iff _ _ _ sub Hi).
Qed.

Lemma operations_parallel arrivals fuel :
  checkOperations ShallowEqual sort arrivals fuel model history verbose
  = checkParallel arrivals fuel (fillDefault ShallowEqual model) (makeEntries sort <$> partitionsOf) verbose.
Proof. done. Qed.

Lemma verdict_sound arrivals fuel res :
  NoDup (finished arrivals) ->
  checkOperations ShallowEqual sort arrivals fuel model history verbose = Some res ->
  (res = Ok -> Forall (linearizable model) partitionsOf)
  /\ (res = Illegal -> ~ Forall (linearizable model) partitionsOf).
Proof.
  rewrite operations_parallel, <- (goodParts (linearizable model)), <- (length_fmap (makeEntries sort)); intros Hnd H.
  by apply (parallel_sound _ _ _ _ operations_decided _ _ _ Hnd H).
Qed.

Lemma verdict_reached :
  partitionsOf <> [] ->
  exists fuel0, forall fuel order, (fuel0 <= fuel)%nat -> order ≡ₚ seq 0 (length partitionsOf) ->
    (checkOperations ShallowEqual sort (Finished <$> order) fuel model history verbose = Some Ok
     /\ Forall (linearizable model) partitionsOf)
    \/ (checkOperations ShallowEqual sort (Finished <$> order) fuel model history verbose = Some Illegal
        /\ ~ Forall (linearizable model) partitionsOf).
Proof.
  intros Hne. destruct (parallel_reached _ _ _ _ operations_decided) as [fuel0 H]; [by destruct partitionsOf|].
  exists fuel0; intros fuel order Hle Hp. rewrite operations_parallel, <- (goodParts (linearizable model)).
  rewrite length_fmap in H. by apply H.
Qed.
End verdict.

(** ** A sort, for the witnesses *)

#[global] Instance notLater_dec {In Out} (a b : entry In Out) : Decision (notLater a b).
Proof. unfold notLater; apply _. Defined.

Lemma notLater_total {In Out} (a b : entry In Out) : notLater a b \/ notLater b a.
Proof.
  unfold notLater, byTimeLess. rewrite (Z.eqb_sym (time b)). destruct (Z.eqb_spec (time a) (time b)); simpl.
  - destruct (kind a), (kind b); simpl; auto.
  - rewrite !Z.ltb_ge; lia.
Qed.

Lemma notLater_trans {In Out} (a b c : entry In Out) : notLater a b -> notLater b c -> notLater a c.
Proof.
  unfold notLater, byTimeLess; intros Hab Hbc.
  destruct (Z.eqb_spec (time b) (time a)), (Z.eqb_spec (time c) (time b)), (Z.eqb_spec (time c) (time a));
    simpl in *; rewrite ?Z.ltb_ge in *; try lia.
  destruct (kind a), (kind b), (kind c); simpl in *; done.
Qed.

Definition sortEntries {In Out : Type} (E : list (entry In Out)) : list (entry In Out) := merge_sort notLater E.

Lemma sortEntries_ok {In Out : Type} : sorts (@sortEntries In Out).
Proof.
  intros E; split; [apply merge_sort_Permutation|].
  apply StronglySorted_merge_sort; [intros a b c; apply notLater_trans|intros a b; apply notLater_total].
Qed.

(** C29: [CheckOperations], [CheckOperationsTimeout] and
    [CheckOperationsVerbose] decide the linearizability of a partitioned
    history when no timer fires: if there is at least one partition, then in
    whatever order the goroutines answer, the call returns [Ok] and every
    partition is linearizable, or it returns [Illegal] and some partition is
    not. *)
Theorem checkOperations_correct {St In Out : Type} (ShallowEqual : St -> St -> bool) (model : Model St In Out)
    (sort : list (entry In Out) -> list (entry In Out)) (history : list (Operation In Out)) (verbose : bool) :
  (forall s1 s2, default ShallowEqual (Equal model) s1 s2 = true -> s1 = s2) ->
  Forall timesOk (partitionsOf model history) -> sorts sort -> partitionsOf model history <> [] ->
  exists fuel0, forall fuel order, (fuel0 <= fuel)%nat -> order ≡ₚ seq 0 (length (partitionsOf model history)) ->
    (checkOperations ShallowEqual sort (Finished <$> order) fuel model history verbose = Some Ok
     /\ Forall (linearizable model) (partitionsOf model history))
    \/ (checkOperations ShallowEqual sort (Finished <$> order) fuel model history verbose = Some Illegal
        /\ ~ Forall (linearizable model) (partitionsOf model history)).
Proof. intros Heq Ht Hs Hne; by apply verdict_reached. Qed.

(** A timeout makes the checker give up, never lie: whatever results have
    arrived, in whatever order, when the timer fires, a verdict [Ok] means that
    every partition is linearizable and a verdict [Illegal] that one is not. *)
Theorem checkOperations_timeout_sound {St In Out : Type} (ShallowEqual : St -> St -> bool) (model : Model St In Out)
    (sort : list (entry In Out) -> list (entry In Out)) (history : list (Operation In Out)) (verbose : bool)
    (arrivals : list arrival) (fuel : nat) (res : CheckResult) :
  (forall s1 s2, default ShallowEqual (Equal model) s1 s2 = true -> s1 = s2) ->
  Forall timesOk (partitionsOf model history) -> sorts sort -> NoDup (finished arrivals) ->
  checkOperations ShallowEqual sort arrivals fuel model history verbose = Some res ->
  (res = Ok -> Forall (linearizable model) (partitionsOf model history))
  /\ (res = Illegal -> ~ Forall (linearizable model) (partitionsOf model history)).
Proof. intros Heq Ht Hs Hnd H; by apply (verdict_sound ShallowEqual model sort history verbose Heq Ht Hs arrivals fuel). Qed.

(** C34: With nothing to check, the checker does not return: when the history is
    empty, [KvModel] gives no partition, so no goroutine is started, nothing
    ever arrives on [results], and without a timer the [select] of
    [checkParallel] waits for ever. *)
Theorem checkOperations_empty_waits (ShallowEqual : string -> string -> bool) (sortStrings : list string -> list string)
    (sort : list (entry KvInput KvOutput) -> list (entry KvInput KvOutput)) (order : list nat) (fuel : nat) (verbose : bool) :
  (forall keys, sortStrings keys ≡ₚ keys) ->
  checkOperations ShallowEqual sort (Finished <$> order) fuel (KvModel sortStrings) [] verbose = None.
Proof.
  intros Hsort; assert (Hparts : partitionsOf (KvModel sortStrings) [] = []).
  { unfold partitionsOf; cbn [KvModel Partition default]; unfold kvPartition, id; cbn [kvGroup].
    rewrite map_to_list_empty; cbn [fmap list_fmap]. by rewrite (Permutation_nil (Permutation_sym (Hsort []))). }
  rewrite operations_parallel, Hparts. by destruct order.
Qed.

(** Two keys: a put and a get on one overlap, the other has a put only. *)
Definition twoKeys : list (Operation KvInput KvOutput) :=
  [mkOperation 0 (mkKvInput 1 "x" "1") 0 (mkKvOutput "") 10;
   mkOperation 1 (mkKvInput 1 "y" "2") 3 (mkKvOutput "") 4;
   mkOperation 1 (mkKvInput 0 "x" "") 5 (mkKvOutput "1") 6].

Lemma twoKeys_ok : Forall timesOk (partitionsOf (KvModel id) twoKeys).
Proof.
  vm_compute partitionsOf; repeat constructor; intros op Hin;
    repeat (apply elem_of_cons in Hin as [->|Hin]; [simpl; lia|]); by apply elem_of_nil in Hin.
Qed.

Lemma checkOperations_correct_witness :
  exists fuel0, forall fuel order, (fuel0 <= fuel)%nat -> order ≡ₚ seq 0 2 ->
    (checkOperations String.eqb sortEntries (Finished <$> order) fuel (KvModel id) twoKeys false = Some Ok
     /\ Forall (linearizable (KvModel id)) (partitionsOf (KvModel id) twoKeys))
    \/ (checkOperations String.eqb sortEntries (Finished <$> order) fuel (KvModel id) twoKeys false = Some Illegal
        /\ ~ Forall (linearizable (KvModel id)) (partitionsOf (KvModel id) twoKeys)).
Proof.
  exact (checkOperations_correct String.eqb (KvModel id) sortEntries twoKeys false
    (fun s1 s2 => proj1 (String.eqb_eq s1 s2)) twoKeys_ok sortEntries_ok ltac:(vm_compute; discriminate)).
Defined.

Lemma checkOperations_timeout_sound_witness :
  Forall (linearizable (KvModel id)) (partitionsOf (KvModel id) twoKeys).
Proof.
  exact (proj1 (checkOperations_timeout_sound String.eqb (KvModel id) sortEntries twoKeys true
    [Finished 1; Finished 0; Timeout] 100 Ok
    (fun s1 s2 => proj1 (String.eqb_eq s1 s2)) twoKeys_ok sortEntries_ok
    ltac:(repeat constructor; set_solver) ltac:(vm_compute; reflexivity)) eq_refl).
Defined.

Lemma checkOperations_empty_waits_witness :
  checkOperations String.eqb sortEntries [] 100 (KvModel id) [] false = None.
Proof.
  exact (checkOperations_empty_waits String.eqb id sortEntries [] 100 false (fun keys => Permutation_refl keys)).
Defined.
