(* ===== verification/Visual.v ===== *)
(** * porcupine: what is kept of a check, and its visualization

    The [linearizationInfo] of [porcupine/checker.go] and the data of
    [porcupine/visualization.go].

    The functions of [porcupine/checker.go] that return a verdict and a
    [linearizationInfo] are modelled by their verdict in [Porcupine.v]; module
    [Verbose] adds the second result. A goroutine whose result has not arrived
    when the timer fires sees the kill flag from then on, at an iteration of its
    search that [kills] gives.

    [longest] holds pointers to sequences, and a sequence is never recorded
    under two pointers ([CheckerPartial.longestLoop_again]): the sequences stand
    for the pointers. Ranging over the set of them gives some order.

    The JSON encoder, the file and the text of the page are parameters. *)

From S2P Require Import Prelude Checker Linearizability Porcupine.

#[local] Open Scope string_scope.
#[local] Open Scope Z_scope.
#[local] Open Scope list_scope.

Record linearizationInfo {In Out : Type} : Type := mkInfo {
  i_history : list (list (entry In Out));          (* for each partition, a list of entries *)
  i_partialLinearizations : list (list (list Z));  (* for each partition, a set of histories (list of ids) *)
}.
Arguments linearizationInfo : clear implicits.
Arguments mkInfo {In Out} _ _.

(** The goroutines whose result has arrived when the timer fires. *)
Fixpoint received (arrivals : list arrival) : list nat :=
  match arrivals with
  | Finished i :: arrivals => i :: received arrivals
  | _ => []
  end.

(** The sequences of [longest], each once, in the order of the range. *)
Definition partialsOf (rangeOrder : list (list Z) -> list (list Z)) (longest : list (option (list Z)))
    : list (list Z) :=
  rangeOrder (remove_dups (omap id longest)).

Module Verbose.
Section verbose.
Context {St In Out : Type} (ShallowEqual : St -> St -> bool).
Context (sort : list (entry In Out) -> list (entry In Out)).
Context (rangeOrder : list (list Z) -> list (list Z)).
Context (arrivals : list arrival) (kills : nat -> nat -> bool).
Context (fuel : nat).

(** [longest[i]], after the loops that wait for all goroutines. *)
Definition goroutineLongest (model : Model St In Out) (history : list (list (entry In Out))) (i : nat)
    : option (list (option (list Z))) :=
  subhistory ← history !! i;
  snd <$> checkSingle model subhistory true
            (if decide (i ∈ received arrivals) then neverKilled else kills i) fuel.

Definition checkParallel (model : Model St In Out) (history : list (list (entry In Out))) (computeInfo : bool)
    : option (CheckResult * linearizationInfo In Out) :=
  result ← Porcupine.checkParallel arrivals fuel model history computeInfo;
  if computeInfo then
    longest ← mapM (goroutineLongest model history) (seq 0 (length history));
    Some (result, mkInfo history (partialsOf rangeOrder <$> longest))
  else Some (result, mkInfo [] []).

Definition checkEvents (model : Model St In Out) (history : list (Event In Out)) (verbose : bool)
    : option (CheckResult * linearizationInfo In Out) :=
  let model := fillDefault ShallowEqual model in
  let partitions := default NoPartitionEvent (PartitionEvent model) history in
  checkParallel model ((fun sub => convertEntries (renumber sub)) <$> partitions) verbose.

Definition checkOperations (model : Model St In Out) (history : list (Operation In Out)) (verbose : bool)
    : option (CheckResult * linearizationInfo In Out) :=
  let model := fillDefault ShallowEqual model in
  let partitions := default NoPartition (Partition model) history in
  checkParallel model (makeEntries sort <$> partitions) verbose.

Definition CheckOperationsVerbose (model : Model St In Out) (history : list (Operation In Out))
    : option (CheckResult * linearizationInfo In Out) := checkOperations model history true.
Definition CheckEventsVerbose (model : Model St In Out) (history : list (Event In Out))
    : option (CheckResult * linearizationInfo In Out) := checkEvents model history true.
End verbose.
End Verbose.

(** ** The data of the page *)

Record historyElement : Type := mkHistoryElement {
  he_ClientId : Z; he_Start : Z; he_End : Z; he_Description : string }.

Record linearizationStep : Type := mkStep { Index : Z; StateDescription : string }.

Notation partialLinearization := (list linearizationStep).

Record partitionVisualizationData : Type := mkPartitionData {
  History : list historyElement;
  PartialLinearizations : list partialLinearization;
  Largest : gmap Z Z;
}.

Notation visualizationData := (list partitionVisualizationData).

Section visual.
Context {St In Out : Type}.

(** The fields of [Model] that describe operations and states; both may be
    nil, and a description of a value of the wrong type panics. *)
Record Describe : Type := mkDescribe {
  DescribeOperation : option (value In Out -> value In Out -> option string);
  DescribeState : option (St -> string);
}.

(* [DefaultDescribeOperation] and [DefaultDescribeState]: the values printed by [fmt] *)
Context (DefaultDescribeOperation : value In Out -> value In Out -> option string).
Context (DefaultDescribeState : St -> string).

Definition describeOperation (d : Describe) : value In Out -> value In Out -> option string :=
  default DefaultDescribeOperation (DescribeOperation d).
Definition describeState (d : Describe) : St -> string := default DefaultDescribeState (DescribeState d).

(** *** The history of a partition *)

Definition zeroElement : historyElement := mkHistoryElement 0 0 0 "".

(** What the loop over the entries keeps: [history], [callValue] and
    [returnValue]. *)
Definition historyLoopState : Type :=
  list historyElement * gmap Z (value In Out) * gmap Z (value In Out).

Definition historyStep (d : Describe) (elem : entry In Out) (s : historyLoopState) : option historyLoopState :=
  let '(history, callValue, returnValue) := s in
  old ← idx history (eid elem);
  match kind elem with
  | callEntry =>
      history ← upd history (eid elem)
        (mkHistoryElement (eclientId elem) (time elem) (he_End old) (he_Description old));
      Some (history, <[eid elem := evalue elem]> callValue, returnValue)
  | returnEntry =>
      description ← describeOperation d (default VNil (callValue !! eid elem)) (evalue elem);
      history ← upd history (eid elem)
        (mkHistoryElement (he_ClientId old) (he_Start old) (time elem) description);
      Some (history, callValue, <[eid elem := evalue elem]> returnValue)
  end.

Definition historyOf (d : Describe) (entries : list (entry In Out)) : option historyLoopState :=
  loopM (historyStep d) entries (replicate (Z.to_nat (len entries / 2)) zeroElement, ∅, ∅).

(** *** The partial linearizations *)

(** A step of the model on values; those of the wrong type panic. *)
Definition stepValue (model : Model St In Out) (state : St) (input output : value In Out) : option (bool * St) :=
  match input, output with
  | VIn i, VOut o => Some (Step model state i o)
  | _, _ => None
  end.

(** The two maps [largestIndex] and [largestSize]. *)
Notation largestMaps := (gmap Z Z * gmap Z Z)%type.

Definition noteLargest (i size histId : Z) (m : largestMaps) : largestMaps :=
  let '(largestIndex, largestSize) := m in
  if default 0 (largestSize !! histId) <? size
  then (<[histId := i]> largestIndex, <[histId := size]> largestSize)
  else m.

(** The loop over a partial linearization: [linearization[j]] is set for
    [j = 0, 1, ...]. *)
Definition linearStep (model : Model St In Out) (d : Describe) (callValue returnValue : gmap Z (value In Out))
    (i size histId : Z) (s : St * partialLinearization * largestMaps)
    : option (St * partialLinearization * largestMaps) :=
  let '(state, linearization, m) := s in
  '(ok, state) ← stepValue model state (default VNil (callValue !! histId)) (default VNil (returnValue !! histId));
  if negb ok then None
  else Some (state, linearization ++ [mkStep histId (describeState d state)], noteLargest i size histId m).

Definition partialStep (model : Model St In Out) (d : Describe) (callValue returnValue : gmap Z (value In Out))
    (p : nat * list Z) (s : list partialLinearization * largestMaps)
    : option (list partialLinearization * largestMaps) :=
  let '(i, partial) := p in
  let '(linearizations, m) := s in
  '(_, linearization, m) ← loopM (linearStep model d callValue returnValue (Z.of_nat i) (len partial)) partial
                             (Init model, [], m);
  Some (linearizations ++ [linearization], m).

(** [sortPartials] is [sort.Slice] by decreasing length; it also reorders the
    partials kept in [info]. *)
Context (sortPartials : list (list Z) -> list (list Z)).

Definition partitionData (model : Model St In Out) (d : Describe) (entries : list (entry In Out))
    (partials : list (list Z)) : option partitionVisualizationData :=
  '(history, callValue, returnValue) ← historyOf d entries;
  '(linearizations, (largestIndex, _)) ←
    loopM (partialStep model d callValue returnValue) (imap pair (sortPartials partials)) ([], (∅, ∅));
  Some (mkPartitionData history linearizations largestIndex).

Definition computeVisualizationData (model : Model St In Out) (d : Describe) (info : linearizationInfo In Out)
    : option visualizationData :=
  mapM (fun partition =>
    entries ← i_history info !! partition;
    partials ← i_partialLinearizations info !! partition;
    partitionData model d entries partials) (seq 0 (length (i_history info))).

(** *** Writing the page *)

(* [json.Marshal], [fmt.Fprintf] of the page with its data, and [os.Create] *)
Context {File Err : Type}.
Context (Marshal : visualizationData -> string + Err) (Fprintf : File -> string -> File * option Err).
Context (Create : string -> File + Err).

(** The file and the error returned. *)
Definition Visualize (model : Model St In Out) (d : Describe) (info : linearizationInfo In Out) (output : File)
    : option (File * option Err) :=
  data ← computeVisualizationData model d info;
  match Marshal data with
  | inr err => Some (output, Some err)
  | inl jsonData =>
      let '(output, err) := Fprintf output jsonData in
      Some (output, err)
  end.

Definition VisualizePath (model : Model St In Out) (d : Describe) (info : linearizationInfo In Out) (path : string)
    : option (option File * option Err) :=
  match Create path with
  | inr err => Some (None, Some err)
  | inl f => '(f, err) ← Visualize model d info f; Some (Some f, err)
  end.
End visual.

Arguments Describe : clear implicits.

(** [KvModel] describes operations, and leaves states to the default. *)
Definition KvDescribe : Describe string KvInput KvOutput :=
  mkDescribe
    (Some (fun input output =>
       match input, output with
       | VIn inp, VOut out => Some (Porcupine.DescribeOperation inp out)
       | _, _ => None
       end)) None.
