(* ===== verification/VisualFacts.v ===== *)
(** * porcupine: the visualization shows what was checked

    The data of the page for any verbose check of operations, interrupted or
    not: the history is the one that was checked, every partial linearization is
    a linearization of some of the operations, which the model accepts, and
    [Largest] points to a longest one. *)

From S2P Require Import Prelude Bitset Checker CheckerHeap CheckerSearch.
From S2P Require Import CheckerBuild Linearizability CheckerPartial Porcupine Visual.

#[local] Open Scope Z_scope.
#[local] Open Scope list_scope.

(** ** The history *)

Section history.
Context {St In Out : Type} (model : Model St In Out) (d : Describe St In Out).
Context (defOp : value In Out -> value In Out -> option string) (defSt : St -> string).
Context (desc : In -> Out -> string).
Hypothesis describes : forall i o, describeOperation defOp d (VIn i) (VOut o) = Some (desc i o).
Notation ent := (entry In Out).
Context (ops : list (Operation In Out)) (E : list ent).
Hypothesis ops_E : entriesOf ops E.
Hypothesis ops_times : timesOk ops.

(** Operation [a] has an entry of kind [k] among [P]. *)
Definition seen (k : entryKind) (a : Z) (P : list ent) : Prop := (k, a) ∈ (fun e => (kind e, eid e)) <$> P.

#[local] Instance seen_dec k a P : Decision (seen k a P).
Proof. unfold seen; apply _. Defined.

Lemma seen_snoc k a P e : seen k a (P ++ [e]) <-> seen k a P \/ (kind e = k /\ eid e = a).
Proof.
  unfold seen; rewrite fmap_app, elem_of_app; cbn [fmap list_fmap]. rewrite list_elem_of_singleton.
  split; intros [|H]; [by left|right; by injection H as -> ->|by left|right; by destruct H as [-> ->]].
Qed.

Lemma decide_seen_other {A} k a P e (x y : A) :
  ~ (kind e = k /\ eid e = a) ->
  (if decide (seen k a (P ++ [e])) then x else y) = (if decide (seen k a P) then x else y).
Proof. intros Hne; apply decide_ext; rewrite seen_snoc; tauto. Qed.

(** The element of [op] once the entries [P] are read. *)
Definition elementAt (P : list ent) (a : Z) (op : Operation In Out) : historyElement :=
  mkHistoryElement
    (if decide (seen callEntry a P) then ClientId op else 0)
    (if decide (seen callEntry a P) then Call op else 0)
    (if decide (seen returnEntry a P) then Return op else 0)
    (if decide (seen returnEntry a P) then desc (Input op) (Output op) else ""%string).

Record historyInv (P : list ent) (s : historyLoopState) : Prop := {
  hi_len : len s.1.1 = len ops;
  hi_elem : forall a op, idx ops a = Some op -> idx s.1.1 a = Some (elementAt P a op);
  hi_call : forall a op, idx ops a = Some op -> seen callEntry a P -> s.1.2 !! a = Some (VIn (Input op));
  hi_return : forall a op, idx ops a = Some op -> seen returnEntry a P -> s.2 !! a = Some (VOut (Output op));
}.

Lemma idx_upd {A} (l : list A) i x k j : upd l i x = Some k -> idx k j = if decide (j = i) then Some x else idx l j.
Proof. intros H; case_decide; [subst; by eapply idx_upd_eq|eapply idx_upd_ne; [done|congruence]]. Qed.

(** Reading the entry [e] of [op] only touches the element [eid e]. *)
Lemma historyInv_step P h cv rv h' cv' rv' (e : ent) a op :
  historyInv P (h, cv, rv) -> idx ops a = Some op -> eid e = a ->
  upd h a (elementAt (P ++ [e]) a op) = Some h' ->
  cv' = (if decide (kind e = callEntry) then <[a := VIn (Input op)]> cv else cv) ->
  rv' = (if decide (kind e = returnEntry) then <[a := VOut (Output op)]> rv else rv) ->
  historyInv (P ++ [e]) (h', cv', rv').
Proof.
  intros [Hl He Hc Hr] Hop Hid Hu -> ->; split; simpl in *.
  - rewrite <- Hl; by eapply upd_len.
  - intros b opb Hb; rewrite (idx_upd _ _ _ _ b Hu); case_decide as Hba; [subst b; by simplify_eq|].
    rewrite (He b opb Hb); unfold elementAt; f_equal.
    by rewrite !decide_seen_other by (intros [_ ?]; congruence).
  - intros b opb Hb Hs; apply seen_snoc in Hs. case_decide as Hk.
    + destruct (decide (a = b)) as [->|Hne]; [rewrite lookup_insert_eq; by simplify_eq|].
      rewrite lookup_insert_ne by done. apply Hc; [done|]. destruct Hs as [|[]]; [done|congruence].
    + apply Hc; [done|]. destruct Hs as [|[]]; [done|congruence].
  - intros b opb Hb Hs; apply seen_snoc in Hs. case_decide as Hk.
    + destruct (decide (a = b)) as [->|Hne]; [rewrite lookup_insert_eq; by simplify_eq|].
      rewrite lookup_insert_ne by done. apply Hr; [done|]. destruct Hs as [|[]]; [done|congruence].
    + apply Hr; [done|]. destruct Hs as [|[]]; [done|congruence].
Qed.

Lemma seen_elem k a P e : e ∈ P -> kind e = k -> eid e = a -> seen k a P.
Proof. intros Hin <- <-; apply list_elem_of_fmap; by exists e. Qed.

Lemma historyStep_inv P (e : ent) post s :
  E = P ++ e :: post -> historyInv P s -> exists s', historyStep defOp d e s = Some s' /\ historyInv (P ++ [e]) s'.
Proof.
  intros HE Hs; destruct s as [[h cv] rv]; pose proof Hs as [Hl He Hc Hr]; simpl in *.
  assert (Hin : e ∈ E) by (rewrite HE; apply elem_of_app; right; left).
  apply (elem_entriesOf ops E e ops_E) in Hin as (a & op & Ha & Hor).
  assert (Hra : 0 <= a < len h) by (rewrite Hl; by eapply idx_Some_range).
  destruct Hor as [-> | ->]; cbn [historyStep callOf returnOf eid kind evalue time eclientId];
    rewrite (He a op Ha); cbn [mbind option_bind].
  - rewrite upd_ok by done; cbn [mbind option_bind]. eexists; split; [done|].
    eapply (historyInv_step P h cv rv _ _ _ (callOf a op) a op); [done|done|done| |done|done].
    rewrite <- (upd_ok h a) by done. f_equal. unfold elementAt; simpl.
    rewrite !(decide_True (P := seen callEntry a _)) by (apply seen_snoc; by right).
    by rewrite !(decide_seen_other returnEntry a P) by (simpl; intros [? ?]; discriminate).
  - assert (Hseen : seen callEntry a P).
    { destruct (hw_return _ _ (entriesOf_wf ops E ops_times ops_E) (length P) (returnOf a op))
        as (_ & i & e' & Hi & He' & Hk & Hid); [by rewrite HE, list_lookup_middle|done|].
      eapply (seen_elem _ _ _ e'); [|done|done]. rewrite HE, lookup_app_l in He' by done. by eapply list_elem_of_lookup_2. }
    rewrite (Hc a op Ha Hseen); cbn [from_option id]. rewrite describes; cbn [mbind option_bind].
    rewrite upd_ok by done; cbn [mbind option_bind]. eexists; split; [done|].
    eapply (historyInv_step P h cv rv _ _ _ (returnOf a op) a op); [done|done|done| |done|done].
    rewrite <- (upd_ok h a) by done. f_equal. unfold elementAt; simpl.
    rewrite !(decide_True (P := seen returnEntry a _)) by (apply seen_snoc; by right).
    by rewrite !(decide_seen_other callEntry a P) by (simpl; intros [? ?]; discriminate).
Qed.

(** How an operation is shown. *)
Definition shown (op : Operation In Out) : historyElement :=
  mkHistoryElement (ClientId op) (Call op) (Return op) (desc (Input op) (Output op)).

Lemma historyOf_ops :
  exists cv rv, historyOf defOp d E = Some (shown <$> ops, cv, rv)
    /\ forall a op, idx ops a = Some op -> cv !! a = Some (VIn (Input op)) /\ rv !! a = Some (VOut (Output op)).
Proof.
  pose proof (entriesOf_wf ops E ops_times ops_E) as Hwf.
  assert (Hn : Z.to_nat (len E / 2) = length ops).
  { rewrite (hw_len _ _ Hwf), Z.mul_comm, Z.div_mul by lia. unfold len; lia. }
  destruct (loopM_prefix (historyStep defOp d) historyInv E (replicate (length ops) zeroElement, ∅, ∅))
    as ([[h cv] rv] & Hrun & [Hl He Hc Hr]).
  - intros pre e post s HE Hs; by eapply historyStep_inv.
  - split; simpl.
    + unfold len; by rewrite length_replicate.
    + intros a op Ha; apply idx_Some_range in Ha. unfold idx, len in *; case_if; [|lia].
      rewrite lookup_replicate_2 by lia. done.
    + intros a op _ Hs; by apply elem_of_nil in Hs.
    + intros a op _ Hs; by apply elem_of_nil in Hs.
  - simpl in *. exists cv, rv; unfold historyOf; rewrite Hn, Hrun.
    assert (Hseen : forall a op, idx ops a = Some op -> seen callEntry a E /\ seen returnEntry a E).
    { intros a op Ha; split; [eapply (seen_elem _ _ _ (callOf a op))|eapply (seen_elem _ _ _ (returnOf a op))];
        try done; apply (elem_entriesOf ops E _ ops_E); eauto. }
    split; [|intros a op Ha; destruct (Hseen a op Ha); eauto].
    do 3 f_equal. apply idx_ext; [unfold len in *; rewrite length_fmap; lia|].
    intros a Ha; rewrite Hl in Ha; destruct (idx_in_range ops a Ha) as [op Hop]; rewrite (He a op Hop).
    rewrite idx_fmap, Hop; simpl. destruct (Hseen a op Hop) as [H1 H2].
    unfold elementAt, shown; by rewrite !(decide_True (P := seen callEntry _ _)), !(decide_True (P := seen returnEntry _ _)).
Qed.
End history.

(** ** The partial linearizations *)

Notation largestMaps := (gmap Z Z * gmap Z Z)%type.

Section largest.
Implicit Types (m : largestMaps) (L : list (list Z)).

Definition noteAll (i size : Z) (ids : list Z) m : largestMaps := foldl (fun m id => noteLargest i size id m) m ids.

Lemma noteAll_lookup i size ids m id :
  (noteAll i size ids m).1 !! id
    = (if decide (id ∈ ids /\ default 0 (m.2 !! id) < size) then Some i else m.1 !! id)
  /\ (noteAll i size ids m).2 !! id
    = (if decide (id ∈ ids /\ default 0 (m.2 !! id) < size) then Some size else m.2 !! id).
Proof.
  revert m; induction ids as [|c ids IH]; intros m; cbn [noteAll foldl].
  { rewrite !decide_False by (intros [H%elem_of_nil _]; done). done. }
  fold (noteAll i size ids (noteLargest i size c m)). destruct (IH (noteLargest i size c m)) as [-> ->].
  destruct m as [li ls]; cbn [noteLargest fst snd]. case_if; cbn [fst snd].
  - destruct (decide (id = c)) as [->|Hne].
    + rewrite !lookup_insert_eq; cbn [from_option id]. rewrite !(decide_False (P := c ∈ ids /\ size < size)) by (intros []; lia).
      rewrite !(decide_True (P := c ∈ c :: ids /\ _)) by (split; [left|done]). done.
    + rewrite !lookup_insert_ne by done.
      rewrite !(decide_ext (id ∈ c :: ids /\ _) (id ∈ ids /\ default 0 (ls !! id) < size)) by (rewrite elem_of_cons; tauto). done.
  - rewrite !(decide_ext (id ∈ c :: ids /\ _) (id ∈ ids /\ default 0 (ls !! id) < size))
      by (rewrite elem_of_cons; split; [intros [[->|] ?]; [lia|done]|tauto]). done.
Qed.

(** [Largest] after the partials [L], longest first. *)
Definition largestInv L m : Prop :=
  forall id, match m.1 !! id with
  | Some k => exists l, idx L k = Some l /\ id ∈ l /\ m.2 !! id = Some (len l)
                /\ forall l', l' ∈ L -> id ∈ l' -> len l' <= len l
  | None => m.2 !! id = None /\ forall l, l ∈ L -> id ∉ l
  end.

Lemma largestInv_snoc L l m :
  largestInv L m -> (forall l', l' ∈ L -> len l <= len l') ->
  largestInv (L ++ [l]) (noteAll (Z.of_nat (length L)) (len l) l m).
Proof.
  intros Hm Hle id; destruct (noteAll_lookup (Z.of_nat (length L)) (len l) l m id) as [-> ->].
  specialize (Hm id); case_decide as Hd.
  - destruct Hd as [Hin Hlt]; exists l; split_and!; [|done|done|].
    + change (Z.of_nat (length L)) with (len L). rewrite idx_app_r by lia. by rewrite Z.sub_diag.
    + intros l' [Hl'|Hl'%list_elem_of_singleton]%elem_of_app Hid; [|by subst].
      destruct (m.1 !! id) as [k|]; [|destruct Hm as [_ Hn]; by destruct (Hn l')].
      destruct Hm as (l0 & Hk & _ & Hs & _); rewrite Hs in Hlt; simpl in Hlt.
      assert (l0 ∈ L) as Hl0 by (unfold idx in Hk; case_if_in Hk; [by eapply list_elem_of_lookup_2|done]).
      specialize (Hle l0 Hl0); lia.
  - destruct (m.1 !! id) as [k|].
    + destruct Hm as (l0 & Hk & Hin & Hs & Hmax). exists l0; split_and!; [|done|done|].
      * rewrite idx_app_l; [done|]. by eapply idx_Some_range.
      * intros l' [Hl'|Hl'%list_elem_of_singleton]%elem_of_app Hid; [by apply Hmax|subst l'].
        apply Hle. unfold idx in Hk; case_if_in Hk; [by eapply list_elem_of_lookup_2|done].
    + destruct Hm as [Hs Hn]; split; [done|]. intros l' [Hl'|Hl'%list_elem_of_singleton]%elem_of_app Hid.
      * by apply (Hn l').
      * subst l'; apply Hd; split; [done|]. rewrite Hs; simpl.
        destruct l; [by apply elem_of_nil in Hid|rewrite len_cons; pose proof (len_nonneg l); lia].
Qed.
End largest.

Section partials.
Context {St In Out : Type} (model : Model St In Out) (d : Describe St In Out) (defSt : St -> string).
Context (ops : list (Operation In Out)) (cv rv : gmap Z (value In Out)).
Hypothesis values_ok : forall a op,
  idx ops a = Some op -> cv !! a = Some (VIn (Input op)) /\ rv !! a = Some (VOut (Output op)).

(** The steps are a run from [s] that the model accepts, each with the state it
    leads to. *)
Fixpoint stepsShow (s : St) (steps : partialLinearization) : Prop :=
  match steps with
  | [] => True
  | step :: steps =>
      exists op s', idx ops (Index step) = Some op /\ Step model s (Input op) (Output op) = (true, s')
        /\ StateDescription step = describeState defSt d s' /\ stepsShow s' steps
  end.

Lemma linearLoop i size seq s (acc : partialLinearization) m :
  legal model ops s seq ->
  exists s' (steps : partialLinearization), loopM (linearStep defSt model d cv rv i size) seq (s, acc, m) = Some (s', acc ++ steps, noteAll i size seq m)
    /\ Index <$> steps = seq /\ stepsShow s steps.
Proof.
  revert s acc m; induction seq as [|a seq IH]; intros s acc m Hleg; cbn [loopM].
  { exists s, []; by rewrite app_nil_r. }
  destruct Hleg as (op & s1 & Ha & Hst & Hleg); destruct (values_ok a op Ha) as [Hc Hr].
  assert (Hstep : linearStep defSt model d cv rv i size a (s, acc, m)
    = Some (s1, acc ++ [mkStep a (describeState defSt d s1)], noteLargest i size a m)).
  { unfold linearStep; rewrite Hc, Hr; cbn [from_option id stepValue]; rewrite Hst. done. }
  rewrite Hstep; cbn [mbind option_bind].
  destruct (IH s1 (acc ++ [mkStep a (describeState defSt d s1)] : partialLinearization) (noteLargest i size a m) Hleg)
    as (s' & steps & Hrest & Hids & Hshow).
  exists s', (mkStep a (describeState defSt d s1) :: steps); split_and!.
  - etrans; [exact Hrest|]. by rewrite <- (assoc app).
  - by rewrite fmap_cons, Hids.
  - by exists op, s1.
Qed.

Definition longestFirst : list (list Z) -> Prop := StronglySorted (fun a b => len b <= len a).

Lemma longestFirst_app L l L' : longestFirst (L ++ l :: L') -> forall l', l' ∈ L -> len l <= len l'.
Proof.
  induction L as [|a L IH]; intros Hs l' Hl'; [by apply elem_of_nil in Hl'|].
  inversion Hs as [|? ? Hs' Hall]; subst. apply elem_of_cons in Hl' as [->|Hl']; [|by apply IH].
  rewrite Forall_forall in Hall; apply Hall. apply elem_of_app; right; left.
Qed.

Notation ids steps := (Index <$> steps).

Lemma partialsLoop L :
  longestFirst L -> Forall (legal model ops (Init model)) L ->
  exists PL m, loopM (partialStep defSt model d cv rv) (imap pair L) ([], (∅, ∅)) = Some (PL, m)
    /\ (fun steps : partialLinearization => ids steps) <$> PL = L
    /\ Forall (stepsShow (Init model)) PL /\ largestInv L m.
Proof.
  intros Hsort Hleg.
  destruct (loopM_prefix (partialStep defSt model d cv rv)
    (fun pre s => (fun steps : partialLinearization => ids steps) <$> s.1 = pre.*2
       /\ Forall (stepsShow (Init model)) s.1 /\ largestInv pre.*2 s.2) (imap pair L) ([], (∅, ∅)))
    as ([PL m] & Hrun & Hids & Hshow & Hlarge).
  - intros pre [i l] post [PL m] HL (Hids & Hshow & Hlarge); cbn [fst snd] in *.
    assert (HL' : L = pre.*2 ++ l :: post.*2).
    { transitivity ((imap pair L).*2); [|by rewrite HL, fmap_app, fmap_cons].
      clear; symmetry; rewrite fmap_imap; apply list_eq; intros k; rewrite list_lookup_imap. by destruct (L !! k). }
    assert (i = length pre) as ->.
    { assert (H : imap pair L !! length pre = Some (i, l)) by (by rewrite HL, list_lookup_middle).
      rewrite list_lookup_imap in H; destruct (L !! length pre); simpl in H; by simplify_eq. }
    unfold partialStep; destruct (linearLoop (Z.of_nat (length pre)) (len l) l (Init model) [] m)
      as (s' & steps & -> & Hl & Hs); [rewrite HL', Forall_app, Forall_cons in Hleg; tauto|].
    cbn [mbind option_bind app]. eexists; split; [done|]; cbn [fst snd]; split_and!.
    + by rewrite !fmap_app, Hids; simpl; rewrite Hl.
    + apply Forall_app; split; [done|by constructor].
    + rewrite fmap_app. replace (length pre) with (length pre.*2) by apply length_fmap.
      apply largestInv_snoc; [done|]. eapply longestFirst_app; by rewrite <- HL'.
  - split_and!; [done|constructor|]. intros id; cbn [fst snd]; rewrite !lookup_empty; split; [done|].
    intros l Hl; by apply elem_of_nil in Hl.
  - exists PL, m; cbn [fst snd] in *.
    assert (HL' : (imap pair L).*2 = L).
    { clear; rewrite fmap_imap; apply list_eq; intros k; rewrite list_lookup_imap. by destruct (L !! k). }
    rewrite HL' in Hids, Hlarge. by split_and!.
Qed.
End partials.

(** ** The data of one partition *)

Lemma NoDup_same {A} (l : list A) a : NoDup l -> (forall x, x ∈ l -> x = a) -> l <> [] -> l = [a].
Proof.
  intros Hnd Ha Hne; destruct l as [|x [|y l]]; [done|by rewrite (Ha x ltac:(left))|exfalso].
  apply NoDup_cons in Hnd as [Hx _]; apply Hx; rewrite (Ha x ltac:(left)), (Ha y ltac:(right; left)); left.
Qed.

Section page.
Context {St In Out : Type} (model : Model St In Out) (d : Describe St In Out).
Context (defOp : value In Out -> value In Out -> option string) (defSt : St -> string).
Context (desc : In -> Out -> string).
Context (rangeOrder sortPartials : list (list Z) -> list (list Z)).
Hypothesis describes : forall i o, describeOperation defOp d (VIn i) (VOut o) = Some (desc i o).
Hypothesis rangeOrder_ok : forall L, rangeOrder L ≡ₚ L.
Hypothesis sortPartials_ok : forall L, sortPartials L ≡ₚ L /\ longestFirst (sortPartials L).

(** What the page shows of the partition [ops], whose verdict counts in
    [res]. *)
Record pageShows (res : CheckResult) (ops : list (Operation In Out)) (data : partitionVisualizationData) : Prop := {
  ps_history : History data = shown desc <$> ops;
  ps_partials : forall steps, steps ∈ PartialLinearizations data ->
    prefixLinearization model ops (Index <$> steps) /\ stepsShow model d defSt ops (Init model) steps;
  ps_largest : forall id, match Largest data !! id with
    | Some k => exists steps, idx (PartialLinearizations data) k = Some steps /\ id ∈ Index <$> steps
        /\ forall steps', steps' ∈ PartialLinearizations data -> id ∈ Index <$> steps' -> len steps' <= len steps
    | None => forall steps, steps ∈ PartialLinearizations data -> id ∉ Index <$> steps
    end;
  ps_ok : res = Ok -> ops <> [] -> exists steps,
    PartialLinearizations data = [steps] /\ Index <$> steps ≡ₚ seqZ 0 (len ops);
}.

Lemma elem_partialsOf lg seq : seq ∈ partialsOf rangeOrder lg <-> Some seq ∈ lg.
Proof.
  unfold partialsOf; rewrite rangeOrder_ok, elem_of_remove_dups, list_elem_of_omap; split.
  - intros (x & Hx & Hid); unfold id in Hid; by subst.
  - intros H; by exists (Some seq).
Qed.

Lemma len_fmap {A B} (f : A -> B) (l : list A) : len (f <$> l) = len l.
Proof. unfold len; by rewrite length_fmap. Qed.

Lemma partitionData_shows res ops E lg :
  entriesOf ops E -> timesOk ops -> recorded model ops lg ->
  (res = Ok -> exists seq, forall x, x ∈ lg -> x = Some seq) ->
  exists data, partitionData defOp defSt sortPartials model d E (partialsOf rangeOrder lg) = Some data
    /\ pageShows res ops data.
Proof.
  intros He Ht Hrec Hsame. set (L := sortPartials (partialsOf rangeOrder lg)).
  destruct (sortPartials_ok (partialsOf rangeOrder lg)) as [Hperm Hsort]; fold L in Hperm, Hsort.
  assert (HL : forall seq, seq ∈ L <-> Some seq ∈ lg) by (intros; by rewrite Hperm, elem_partialsOf).
  assert (Hpre : forall seq, seq ∈ L -> prefixLinearization model ops seq).
  { intros seq [j Hj]%HL%list_elem_of_lookup_1. apply (rc_seq _ _ _ Hrec (Z.of_nat j)).
    unfold idx; case_if; [by rewrite Nat2Z.id|lia]. }
  destruct (historyOf_ops d defOp desc describes ops E He Ht) as (cv & rv & Hh & Hv).
  destruct (partialsLoop model d defSt ops cv rv Hv L Hsort) as (PL & [li ls] & Hrun & Hids & Hshow & Hlarge).
  { apply Forall_forall; intros seq Hseq; by apply (pl_legal _ _ _ (Hpre seq Hseq)). }
  assert (HPL : forall steps : partialLinearization, steps ∈ PL -> (Index <$> steps) ∈ L).
  { intros steps Hin; rewrite <- Hids; apply list_elem_of_fmap; by exists steps. }
  exists (mkPartitionData (shown desc <$> ops) PL li); split.
  { unfold partitionData; rewrite Hh; cbn [mbind option_bind]. fold L; by rewrite Hrun. }
  split; simpl; [done| | |].
  - intros steps Hin; split; [by apply Hpre, HPL|]. rewrite Forall_forall in Hshow; by apply Hshow.
  - intros id; specialize (Hlarge id); cbn [fst snd] in Hlarge. destruct (li !! id) as [k|].
    + destruct Hlarge as (l & Hk & Hin & _ & Hmax). rewrite <- Hids, idx_fmap in Hk.
      apply fmap_Some in Hk as (steps & Hk & ->). exists steps; split_and!; [done|done|].
      intros steps' Hin' Hid. specialize (Hmax _ (HPL _ Hin') Hid). by rewrite !len_fmap in Hmax.
    + destruct Hlarge as [_ Hno]. intros steps Hin; by apply Hno, HPL.
  - intros Hok Hne; destruct (Hsame Hok) as [seq Hseq].
    assert (HLs : L = [seq]).
    { apply NoDup_same; [| |].
      - rewrite Hperm; unfold partialsOf; rewrite rangeOrder_ok. apply NoDup_remove_dups.
      - intros x Hx%HL%Hseq; congruence.
      - intros HL0. assert (Hr : 0 <= 0 < len lg).
        { rewrite (rc_len _ _ _ Hrec). destruct ops; [done|rewrite len_cons; pose proof (len_nonneg ops); lia]. }
        destruct (idx_in_range lg 0 Hr) as [x Hx].
        assert (Hx' : x ∈ lg) by (unfold idx in Hx; case_if_in Hx; [by eapply list_elem_of_lookup_2|done]).
        rewrite (Hseq x Hx') in Hx'. apply HL in Hx'. rewrite HL0 in Hx'; by apply elem_of_nil in Hx'. }
    rewrite HLs in Hids. destruct PL as [|steps [|? ?]]; [done| |done]. exists steps; split; [done|].
    injection Hids as ->. by apply (recorded_complete model ops lg).
Qed.
End page.

(** ** A verbose check *)

Section received.
Context (run : nat -> option bool) (n : nat).

Lemma collect_received arrivals seen ok ok' :
  (forall i r, run i = Some r -> (i < n)%nat) ->
  NoDup (finished arrivals ++ seen) -> (forall i, i ∈ seen -> (i < n)%nat) -> (0 < n)%nat ->
  collect run true (Z.of_nat n) (len seen) ok arrivals = Some (ok', false) ->
  forall i, (i < n)%nat -> i ∈ received arrivals \/ i ∈ seen.
Proof.
  intros Hrun; revert seen ok; induction arrivals as [|[i|] arrivals IH]; intros seen ok Hnd Hseen Hn H j Hj;
    cbn [collect] in H; [done| |by simplify_eq].
  destruct (run i) as [r|] eqn:Er; cbn [mbind option_bind] in H; [|done].
  cbn [finished omap list_omap] in Hnd; fold (finished arrivals) in Hnd.
  assert (Hnd' : NoDup (finished arrivals ++ i :: seen)) by (by rewrite <- Permutation_middle).
  assert (Hseen' : forall c, c ∈ i :: seen -> (c < n)%nat).
  { intros c [->|Hc]%elem_of_cons; [by eapply Hrun|by apply Hseen]. }
  rewrite andb_false_r in H. cbn [received]; rewrite elem_of_cons.
  replace (len seen + 1) with (len (i :: seen)) in H by (rewrite len_cons; lia).
  case_if_in H.
  - assert (Hj' : j ∈ i :: seen).
    { apply (covers_all n); [by apply NoDup_app in Hnd' as (_ & _ & ?)|done|unfold len in *; lia|done]. }
    apply elem_of_cons in Hj'; tauto.
  - destruct (IH (i :: seen) (ok && r) Hnd' Hseen' Hn H j Hj) as [|Hc]; [tauto|]. apply elem_of_cons in Hc; tauto.
Qed.

(** The loop ends when the timer fires, whatever has arrived. *)
Lemma collect_timeout computeInfo total count ok order :
  (forall i, i ∈ order -> is_Some (run i)) ->
  is_Some (collect run computeInfo total count ok ((Finished <$> order) ++ [Timeout])).
Proof.
  revert count ok; induction order as [|i order IH]; intros count ok Hrun; cbn [fmap list_fmap app collect]; [eauto|].
  destruct (Hrun i ltac:(left)) as [r ->]; cbn [mbind option_bind].
  destruct (_ && negb computeInfo); [eauto|]. case_if; [eauto|]. apply IH; intros j Hj; apply Hrun; by right.
Qed.

Lemma received_finished order arrivals : received ((Finished <$> order) ++ Timeout :: arrivals) = order.
Proof. induction order as [|i order IH]; simpl; [done|]. by f_equal. Qed.

Lemma finished_timeout order : finished ((Finished <$> order) ++ [Timeout]) = order.
Proof. induction order as [|i order IH]; [done|]. cbn. by f_equal. Qed.
End received.

Lemma mapM_seq {A B} (f : nat -> option B) (Q : A -> B -> Prop) (l : list A) :
  (forall i a, l !! i = Some a -> exists y, f i = Some y /\ Q a y) ->
  exists k, mapM f (seq 0 (length l)) = Some k /\ Forall2 Q l k.
Proof.
  assert (H : forall s, (forall i a, l !! i = Some a -> exists y, f (s + i)%nat = Some y /\ Q a y) ->
    exists k, mapM f (seq s (length l)) = Some k /\ Forall2 Q l k); [|by apply (H 0%nat)].
  induction l as [|a l IH]; intros s Hf; [by exists []|].
  destruct (Hf 0%nat a eq_refl) as (y & Hy & HQ); rewrite Nat.add_0_r in Hy.
  destruct (IH (S s)) as (k & Hk & HF).
  { intros i a' Hi; destruct (Hf (S i) a' Hi) as (y' & Hy' & ?). exists y'; by rewrite Nat.add_succ_r in Hy'. }
  exists (y :: k); cbn [length seq mapM]. rewrite Hy; cbn [mbind option_bind]. rewrite Hk. split; [done|by constructor].
Qed.

Section verbose.
Context {St In Out : Type} (ShallowEqual : St -> St -> bool) (model : Model St In Out) (d : Describe St In Out).
Context (defOp : value In Out -> value In Out -> option string) (defSt : St -> string).
Context (desc : In -> Out -> string).
Context (sort : list (entry In Out) -> list (entry In Out)) (history : list (Operation In Out)).
Context (rangeOrder sortPartials : list (list Z) -> list (list Z)).
Hypothesis describes : forall i o, describeOperation defOp d (VIn i) (VOut o) = Some (desc i o).
Hypothesis rangeOrder_ok : forall L, rangeOrder L ≡ₚ L.
Hypothesis sortPartials_ok : forall L, sortPartials L ≡ₚ L /\ longestFirst (sortPartials L).
Hypothesis times_ok : Forall timesOk (partitionsOf model history).
Hypothesis sort_ok : sorts sort.

Notation parts := (partitionsOf model history).
Notation filled := (fillDefault ShallowEqual model).
Notation entriesList := (makeEntries sort <$> parts).

Lemma part_entries i ops : parts !! i = Some ops -> entriesOf ops (makeEntries sort ops) /\ timesOk ops.
Proof.
  intros Hi; destruct (sort_ok (rawEntries 0 ops)) as [Hp Hs]; split; [by split|].
  rewrite Forall_forall in times_ok; apply times_ok. by eapply list_elem_of_lookup_2.
Qed.

(** The verdict [Ok] means that every goroutine was heard of and said yes. *)
Lemma ok_heard arrivals fuel :
  NoDup (finished arrivals) ->
  Porcupine.checkParallel arrivals fuel filled entriesList true = Some Ok ->
  forall i, (i < length parts)%nat ->
    i ∈ received arrivals /\ goroutine fuel filled entriesList true i = Some true.
Proof.
  unfold Porcupine.checkParallel, len; rewrite length_fmap; intros Hnd H i Hi.
  destruct (collect _ _ _ _ _ _) as [[ok timedOut]|] eqn:Ec; cbn [mbind option_bind] in H; [|done].
  assert (ok = true /\ timedOut = false) as [-> ->] by (by destruct ok, timedOut).
  assert (Hrun : forall i r, goroutine fuel filled entriesList true i = Some r -> (i < length parts)%nat).
  { intros j r Hr; unfold goroutine in Hr; rewrite list_lookup_fmap in Hr.
    destruct (parts !! j) eqn:Ej; [by apply lookup_lt_Some in Ej|done]. }
  assert (Hrec : i ∈ received arrivals \/ i ∈ @nil nat).
  { apply (collect_received _ (length parts) arrivals [] true true Hrun);
      [by rewrite app_nil_r|intros j Hj; by apply elem_of_nil in Hj|lia|done|done]. }
  split; [destruct Hrec as [|Hn]; [done|by apply elem_of_nil in Hn]|].
  apply (collect_sound _ true (fun i => goroutine fuel filled entriesList true i = Some true) (length parts))
    with (seen := []) in Ec as [_ Hgood]; [by apply Hgood| |by rewrite app_nil_r| |done].
  - intros j r Hr; split; [by eapply Hrun|]. rewrite Hr; split; congruence.
  - intros j Hj; by apply elem_of_nil in Hj.
Qed.

(** What is recorded does not depend on the defaults. *)
Lemma recorded_filled ops lg : recorded filled ops lg -> recorded model ops lg.
Proof.
  intros [Hl Hs Hm]; split; [done| |done]. intros j s Hj; destruct (Hs j s Hj) as [[Hnd Hleg Hb] Hin].
  split; [by split|done].
Qed.

Lemma verbose_parts arrivals kills fuel :
  Verbose.CheckOperationsVerbose ShallowEqual sort rangeOrder arrivals kills fuel model history
  = Verbose.checkParallel rangeOrder arrivals kills fuel filled entriesList true.
Proof. done. Qed.

Lemma verbose_page arrivals kills fuel res info :
  NoDup (finished arrivals) ->
  Verbose.CheckOperationsVerbose ShallowEqual sort rangeOrder arrivals kills fuel model history = Some (res, info) ->
  exists data, computeVisualizationData defOp defSt sortPartials model d info = Some data
    /\ Forall2 (pageShows model d defSt desc res) parts data.
Proof.
  rewrite verbose_parts; intros Hnd H; unfold Verbose.checkParallel in H.
  destruct (Porcupine.checkParallel _ _ _ _ _) as [r|] eqn:Ec; cbn [mbind option_bind] in H; [|done].
  destruct (mapM _ _) as [longest|] eqn:Em; cbn [mbind option_bind] in H; [|done]. injection H as -> <-.
  unfold computeVisualizationData; cbn [i_history i_partialLinearizations]. rewrite !length_fmap in *.
  apply mapM_seq; intros i ops Hi.
  pose proof Em as Hlen; apply length_mapM in Hlen; rewrite length_seq in Hlen.
  destruct (lookup_lt_is_Some_2 longest i) as [lg Hlg]; [rewrite <- Hlen; by eapply lookup_lt_Some|].
  rewrite !list_lookup_fmap, Hi, Hlg; cbn [fmap option_fmap option_map mbind option_bind].
  assert (Hi' : seq 0 (length parts) !! i = Some i) by (apply lookup_seq; split; [done|by eapply lookup_lt_Some]).
  apply mapM_Some in Em; pose proof (Forall2_lookup_lr _ _ _ _ _ _ Em Hi' Hlg) as Hgo; cbn beta in Hgo.
  unfold Verbose.goroutineLongest in Hgo; rewrite list_lookup_fmap, Hi in Hgo; cbn [fmap option_fmap option_map mbind option_bind] in Hgo.
  apply fmap_Some in Hgo as ([r lg'] & Hgo & ->). destruct (part_entries i ops Hi) as [He Ht].
  apply (partitionData_shows model d defOp defSt desc rangeOrder sortPartials describes rangeOrder_ok sortPartials_ok
    res ops (makeEntries sort ops) lg' He Ht).
  - by apply recorded_filled, (checkSingle_recorded filled true ops _ _ _ _ _ He Ht Hgo).
  - intros ->. destruct (ok_heard arrivals fuel Hnd Ec i) as [Hin Hr]; [by eapply lookup_lt_Some|].
    rewrite decide_True in Hgo by done. unfold goroutine in Hr; rewrite list_lookup_fmap, Hi in Hr.
    cbn [fmap option_fmap option_map mbind option_bind] in Hr. rewrite Hgo in Hr; simpl in Hr; simplify_eq.
    by eapply checkSingle_same.
Qed.

(** With enough fuel a verbose check returns, whenever the timer fires and
    wherever it interrupts the searches. *)
Lemma verbose_returns :
  (forall s1 s2, default ShallowEqual (Equal model) s1 s2 = true -> s1 = s2) ->
  exists fuel0, forall fuel kills order, (fuel0 <= fuel)%nat -> (forall i, i ∈ order -> (i < length parts)%nat) ->
    is_Some (Verbose.CheckOperationsVerbose ShallowEqual sort rangeOrder ((Finished <$> order) ++ [Timeout]) kills fuel model history).
Proof.
  intros Heq; destruct (run_total _ _ _ _ (operations_decided ShallowEqual model sort history true Heq times_ok sort_ok)) as [fuel0 Hrun].
  exists fuel0; intros fuel kills order Hle Horder. specialize (Hrun fuel Hle); rewrite length_fmap in Hrun.
  rewrite verbose_parts; unfold Verbose.checkParallel, Porcupine.checkParallel.
  destruct (collect_timeout (goroutine fuel filled entriesList true) true (len entriesList) 0 true order)
    as [[ok timedOut] ->]; [by intros i Hi; apply Hrun, Horder|]. cbn [mbind option_bind]. rewrite length_fmap.
  destruct (mapM_seq (Verbose.goroutineLongest ((Finished <$> order) ++ [Timeout]) kills fuel filled entriesList)
    (fun _ _ => True) parts) as (longest & -> & _); [|cbn [mbind option_bind]; eauto].
  intros i ops Hi. destruct (Hrun i) as [r Hr]; [by eapply lookup_lt_Some|].
  unfold goroutine in Hr; unfold Verbose.goroutineLongest; rewrite list_lookup_fmap, Hi in Hr |- *.
  cbn [fmap option_fmap option_map mbind option_bind] in *.
  destruct (checkSingle filled _ true neverKilled fuel) as [x|] eqn:Ex; [|done].
  destruct (decide (i ∈ _)); [rewrite Ex; simpl; eauto|].
  destruct (checkSingle_killed filled true (makeEntries sort ops) (kills i) fuel x Ex) as [x' ->]; simpl; eauto.
Qed.
End verbose.

(** C32: the page of a check shows what was checked, and making it never
    panics. However the goroutines answer, whenever the timer fires and wherever
    it interrupts the searches that are left, [CheckOperationsVerbose] returns
    and [computeVisualizationData] succeeds on its info: for every partition the
    history lists the operations with their clients, times and descriptions;
    every partial linearization is a sequence of different operations that the
    model accepts from its initial state, step by step with the states shown,
    and that contains, before an operation, each one that returned before it was
    called; [Largest] maps each operation that occurs in one to a longest such
    sequence; and after the verdict [Ok] there is exactly one, of all
    operations. *)
Theorem verbose_visualized {St In Out : Type} (ShallowEqual : St -> St -> bool) (model : Model St In Out)
    (d : Describe St In Out) (defOp : value In Out -> value In Out -> option string) (defSt : St -> string)
    (desc : In -> Out -> string) (sort : list (entry In Out) -> list (entry In Out))
    (history : list (Operation In Out)) (rangeOrder sortPartials : list (list Z) -> list (list Z)) :
  (forall s1 s2, default ShallowEqual (Equal model) s1 s2 = true -> s1 = s2) ->
  (forall i o, describeOperation defOp d (VIn i) (VOut o) = Some (desc i o)) ->
  (forall L, rangeOrder L ≡ₚ L) -> (forall L, sortPartials L ≡ₚ L /\ longestFirst (sortPartials L)) ->
  Forall timesOk (partitionsOf model history) -> sorts sort ->
  exists fuel0, forall fuel kills order, (fuel0 <= fuel)%nat -> NoDup order ->
    (forall i, i ∈ order -> (i < length (partitionsOf model history))%nat) ->
    exists res info data,
      Verbose.CheckOperationsVerbose ShallowEqual sort rangeOrder ((Finished <$> order) ++ [Timeout]) kills fuel model history
        = Some (res, info)
      /\ computeVisualizationData defOp defSt sortPartials model d info = Some data
      /\ Forall2 (pageShows model d defSt desc res) (partitionsOf model history) data.
Proof.
  intros Heq Hdesc Hr Hp Ht Hs.
  destruct (verbose_returns ShallowEqual model sort history rangeOrder Ht Hs Heq) as [fuel0 Hret].
  exists fuel0; intros fuel kills order Hle Hnd Horder.
  destruct (Hret fuel kills order Hle Horder) as [[res info] Hv].
  destruct (verbose_page ShallowEqual model d defOp defSt desc sort history rangeOrder sortPartials Hdesc Hr Hp Ht Hs
    ((Finished <$> order) ++ [Timeout]) kills fuel res info) as (data & Hd & Hshow); [by rewrite finished_timeout|done|].
  by exists res, info, data.
Qed.

(** ** An example *)

Definition notShorter (a b : list Z) : Prop := len b <= len a.

#[local] Instance notShorter_dec a b : Decision (notShorter a b).
Proof. unfold notShorter; apply _. Defined.

Definition sortLongest (L : list (list Z)) : list (list Z) := merge_sort notShorter L.

Lemma sortLongest_ok L : sortLongest L ≡ₚ L /\ longestFirst (sortLongest L).
Proof.
  split; [apply merge_sort_Permutation|].
  apply StronglySorted_merge_sort; [unfold notShorter; intros a b c ? ?; lia|unfold notShorter; intros a b; lia].
Qed.

Definition noDefault (input output : value KvInput KvOutput) : option string := None.

Lemma verbose_visualized_witness :
  exists fuel0, forall fuel kills order, (fuel0 <= fuel)%nat -> NoDup order ->
    (forall i, i ∈ order -> (i < 2)%nat) ->
    exists res info data,
      Verbose.CheckOperationsVerbose String.eqb sortEntries id ((Finished <$> order) ++ [Timeout]) kills fuel (KvModel id) twoKeys
        = Some (res, info)
      /\ computeVisualizationData noDefault id sortLongest (KvModel id) KvDescribe info = Some data
      /\ Forall2 (pageShows (KvModel id) KvDescribe id Porcupine.DescribeOperation res) (partitionsOf (KvModel id) twoKeys) data.
Proof.
  exact (verbose_visualized String.eqb (KvModel id) KvDescribe noDefault id Porcupine.DescribeOperation sortEntries twoKeys
    id sortLongest (fun s1 s2 => proj1 (String.eqb_eq s1 s2)) (fun _ _ => eq_refl) (fun L => Permutation_refl L)
    sortLongest_ok twoKeys_ok sortEntries_ok).
Defined.

(** A history that is not linearizable: the get of 1 ended before the put of 1
    began. *)
Definition staleRead : list (Operation KvInput KvOutput) :=
  [mkOperation 0 (mkKvInput 0 "x" "") 0 (mkKvOutput "1") 3;
   mkOperation 1 (mkKvInput 1 "x" "2") 1 (mkKvOutput "") 2;
   mkOperation 1 (mkKvInput 1 "x" "1") 5 (mkKvOutput "") 6].

Definition pageOf (history : list (Operation KvInput KvOutput))
    : option (CheckResult * list (list (list (Z * string)) * list (option Z))) :=
  match Verbose.CheckOperationsVerbose String.eqb sortEntries id [Finished 0] (fun _ _ => false) 100 (KvModel id) history with
  | Some (res, info) =>
      match computeVisualizationData noDefault id sortLongest (KvModel id) KvDescribe info with
      | Some data => Some (res, map (fun p =>
          (map (map (fun s => (Index s, StateDescription s))) (PartialLinearizations p),
           map (fun a => Largest p !! a) [0; 1; 2])) data)
      | None => None
      end
  | None => None
  end.

(** Only the put of 2 can come first, and nothing can follow it. *)
Example page_staleRead : pageOf staleRead = Some (Illegal, [([[(1, "2"%string)]], [None; Some 0; None])]).
Proof. vm_compute; reflexivity. Qed.
