(* ===== verification/EventHistory.v ===== *)
(** * porcupine: histories of events

    A history can also be given as the sequence of its events, the calls and the
    returns, each with the number of its operation. [checkEvents] renumbers the
    operations and takes the position of an event for its time. The operations
    of such a history are reconstructed here ([operationsOf]); checking the
    events decides whether they are linearizable. *)

From S2P Require Import Prelude Bitset Checker CheckerSearch CheckerBuild Linearizability Porcupine.

#[local] Open Scope string_scope.
#[local] Open Scope Z_scope.
#[local] Open Scope list_scope.

Section events.
Context {St In Out : Type}.
Notation event := (Event In Out).
Notation operation := (Operation In Out).
Notation ent := (entry In Out).
Implicit Types (evs : list event) (v w : event) (ids seen : list Z) (m : gmap Z Z).

#[global] Instance EventKind_eq_dec : EqDecision EventKind.
Proof. solve_decision. Defined.

(** The operation that [id] numbers: the first call and the first return. *)
Definition operationOf evs (id : Z) : option operation :=
  '(c, v) ← list_find (fun v => ev_Id v = id /\ ev_Kind v = CallEvent) evs;
  '(r, w) ← list_find (fun w => ev_Id w = id /\ ev_Kind w = ReturnEvent) evs;
  match ev_Value v, ev_Value w with
  | VIn i, VOut o => Some (mkOperation (ev_ClientId v) i (Z.of_nat c) o (Z.of_nat r))
  | _, _ => None
  end.

(** The numbers in the order in which they first occur. *)
Fixpoint newIds seen evs : list Z :=
  match evs with
  | [] => []
  | v :: evs => if decide (ev_Id v ∈ seen) then newIds seen evs else ev_Id v :: newIds (seen ++ [ev_Id v]) evs
  end.

Definition operationsOf evs : list operation := omap (operationOf evs) (newIds [] evs).

(** Every operation has one call and then one return, of the same client. *)
Record eventsWf evs : Prop := {
  ew_unique : forall p q v w, evs !! p = Some v -> evs !! q = Some w -> ev_Kind v = ev_Kind w -> ev_Id v = ev_Id w -> p = q;
  ew_call : forall p v, evs !! p = Some v -> ev_Kind v = CallEvent ->
    (exists i, ev_Value v = VIn i)
    /\ exists q w, (p < q)%nat /\ evs !! q = Some w /\ ev_Kind w = ReturnEvent /\ ev_Id w = ev_Id v /\ ev_ClientId w = ev_ClientId v;
  ew_return : forall q w, evs !! q = Some w -> ev_Kind w = ReturnEvent ->
    (exists o, ev_Value w = VOut o)
    /\ exists p v, (p < q)%nat /\ evs !! p = Some v /\ ev_Kind v = CallEvent /\ ev_Id v = ev_Id w;
}.

(** ** Renumbering *)

Lemma newIds_spec seen evs :
  NoDup seen -> NoDup (seen ++ newIds seen evs)
  /\ (forall v, v ∈ evs -> ev_Id v ∈ seen ++ newIds seen evs)
  /\ (forall id, id ∈ newIds seen evs -> id ∈ ev_Id <$> evs).
Proof.
  revert seen; induction evs as [|v evs IH]; intros seen Hnd; cbn [newIds].
  { rewrite app_nil_r; split; [done|]; split; [|done]. intros v Hv; by apply elem_of_nil in Hv. }
  rewrite fmap_cons; case_decide as Hv.
  - destruct (IH seen Hnd) as (? & Hin & Hid); split_and!; [done| |].
    + intros w [->|Hw]%elem_of_cons; [apply elem_of_app; by left|by apply Hin].
    + intros id Hi; right; by apply Hid.
  - assert (Hnd' : NoDup (seen ++ [ev_Id v])).
    { apply NoDup_app; split_and!; [done|intros x Hx ->%list_elem_of_singleton; done|apply NoDup_singleton]. }
    destruct (IH _ Hnd') as (Hd & Hin & Hid). rewrite <- (assoc_L (++)) in *; simpl in *. split_and!; [done| |].
    + intros w [->|Hw]%elem_of_cons; [apply elem_of_app; right; left|by apply Hin].
    + intros id [->|Hi]%elem_of_cons; [left|right; by apply Hid].
Qed.

(** [renumber] gives each operation the position of its number among them. *)
Lemma renumberLoop_spec m seen evs :
  NoDup seen -> (forall id r, m !! id = Some r <-> idx seen r = Some id) ->
  forall p v, evs !! p = Some v -> exists r,
    renumberLoop m (len seen) evs !! p = Some (mkEvent (ev_ClientId v) (ev_Kind v) (ev_Value v) r)
    /\ idx (seen ++ newIds seen evs) r = Some (ev_Id v).
Proof.
  revert m seen; induction evs as [|v evs IH]; intros m seen Hnd Hm p w Hp; [done|]. cbn [renumberLoop newIds].
  destruct (m !! ev_Id v) as [r|] eqn:Er.
  - pose proof (proj1 (Hm _ _) Er) as Hr. rewrite decide_True by (by eapply idx_elem).
    destruct p as [|p]; [|by apply IH]. injection Hp as <-. exists r; split; [done|]. by apply idx_app_Some.
  - assert (Hnin : ev_Id v ∉ seen).
    { intros [r Hr]%elem_idx. apply Hm in Hr. congruence. }
    rewrite decide_False by done.
    assert (Hnd' : NoDup (seen ++ [ev_Id v])).
    { apply NoDup_app; split_and!; [done|intros x Hx ->%list_elem_of_singleton; done|apply NoDup_singleton]. }
    destruct p as [|p].
    + injection Hp as <-. exists (len seen); split; [done|]. by apply idx_middle.
    + destruct (IH (<[ev_Id v := len seen]> m) (seen ++ [ev_Id v]) Hnd') with (p := p) (v := w) as (r & Hr & Hi); [|done|].
      * intros id r; rewrite lookup_insert_Some, Hm. split.
        -- intros [[<- <-]|[Hne Hr]]; [by apply idx_middle|by apply idx_app_Some].
        -- intros [[_ Hr]|[-> ->]]%idx_snoc; [right|by left]. split; [|done]. intros E; apply Hnin; rewrite E. by eapply idx_elem.
      * rewrite len_app, len_cons, len_nil in Hr. rewrite <- (assoc_L (++)) in Hi. exists r; split; [by rewrite Z.add_0_r in Hr|done].
Qed.


Lemma renumber_length evs : length (renumber evs) = length evs.
Proof.
  unfold renumber. generalize (∅ : gmap Z Z), 0. induction evs as [|v evs IH]; intros m id; [done|].
  cbn [renumberLoop]. destruct (m !! _); simpl; by rewrite IH.
Qed.

Lemma idx_inj {A} (l : list A) i j x : NoDup l -> idx l i = Some x -> idx l j = Some x -> i = j.
Proof.
  unfold idx; intros Hnd; case_if; [|done]. case_if; [|done]. intros Hi Hj. pose proof (NoDup_lookup _ _ _ _ Hnd Hi Hj). zbool; lia.
Qed.

(** ** The operations of a history *)

Lemma convertLoop_lookup i evs p : convertLoop i evs !! p
  = (fun v => mkEntry match ev_Kind v with ReturnEvent => returnEntry | CallEvent => callEntry end
                (ev_Value v) (ev_Id v) (i + Z.of_nat p) (ev_ClientId v)) <$> evs !! p.
Proof.
  revert i p; induction evs as [|v evs IH]; intros i [|p]; try done; simpl.
  - by rewrite Z.add_0_r.
  - rewrite IH. destruct (evs !! p); simpl; [|done]. do 2 f_equal; lia.
Qed.

Lemma convertLoop_sorted i evs : StronglySorted notLater (convertLoop i evs).
Proof.
  revert i; induction evs as [|v evs IH]; intros i; cbn [convertLoop]; constructor; [apply IH|].
  apply Forall_forall; intros e [p Hp]%list_elem_of_lookup. rewrite convertLoop_lookup in Hp; apply fmap_Some in Hp as (w & _ & ->).
  unfold notLater, byTimeLess; simpl. destruct (Z.eqb_spec (i + 1 + Z.of_nat p) i); [lia|]. simpl; lia.
Qed.

Lemma find_event evs p v kd :
  eventsWf evs -> evs !! p = Some v -> ev_Kind v = kd ->
  list_find (fun w => ev_Id w = ev_Id v /\ ev_Kind w = kd) evs = Some (p, v).
Proof.
  intros Hw Hp Hk. destruct (list_find_elem_of (fun w => ev_Id w = ev_Id v /\ ev_Kind w = kd) evs v) as [[q w] Hq];
    [by eapply list_elem_of_lookup_2|done|].
  rewrite Hq. apply list_find_Some in Hq as (Hq & [Hid Hkw] & _).
  assert (q = p) as -> by (eapply (ew_unique evs Hw); eauto; congruence). congruence.
Qed.

(** The call and the return of every operation. *)
Lemma operationOf_spec evs id :
  eventsWf evs -> id ∈ ev_Id <$> evs -> exists p q v w i o,
    evs !! p = Some v /\ ev_Kind v = CallEvent /\ ev_Id v = id /\ ev_Value v = VIn i
    /\ evs !! q = Some w /\ ev_Kind w = ReturnEvent /\ ev_Id w = id /\ ev_Value w = VOut o
    /\ ev_ClientId w = ev_ClientId v /\ (p < q)%nat
    /\ operationOf evs id = Some (mkOperation (ev_ClientId v) i (Z.of_nat p) o (Z.of_nat q)).
Proof.
  intros Hw (u & -> & [k Hk]%list_elem_of_lookup)%list_elem_of_fmap.
  assert (Hcall : exists p v, evs !! p = Some v /\ ev_Kind v = CallEvent /\ ev_Id v = ev_Id u).
  { destruct (ev_Kind u) eqn:Eu; [by exists k, u|].
    destruct (ew_return evs Hw k u Hk Eu) as (_ & p & v & _ & ? & ? & ?); by exists p, v. }
  destruct Hcall as (p & v & Hp & Hkv & Hid). destruct (ew_call evs Hw p v Hp Hkv) as ([i Hi] & q & w & Hlt & Hq & Hkw & Hidw & Hcl).
  destruct (ew_return evs Hw q w Hq Hkw) as ([o Ho] & _).
  exists p, q, v, w, i, o; split_and!; try done; [congruence|].
  unfold operationOf. pose proof (find_event evs p v CallEvent Hw Hp Hkv) as F1. rewrite Hid in F1. rewrite F1; cbn [mbind option_bind].
  pose proof (find_event evs q w ReturnEvent Hw Hq Hkw) as F2. rewrite Hidw, Hid in F2. rewrite F2; cbn [mbind option_bind].
  by rewrite Hi, Ho.
Qed.

Lemma idx_omap {A B} (f : A -> option B) (l : list A) (i : Z) :
  (forall x, x ∈ l -> is_Some (f x)) -> idx (omap f l) i = idx l i ≫= f.
Proof.
  intros Hf. assert (E : Some <$> omap f l = f <$> l).
  { induction l as [|x l IH]; [done|]. destruct (Hf x ltac:(left)) as [y Hy]. simpl; rewrite Hy; simpl.
    f_equal. apply IH; intros z Hz; apply Hf; by right. }
  assert (Hi : idx (Some <$> omap f l) i = idx (f <$> l) i) by (by rewrite E). rewrite !idx_fmap in Hi.
  destruct (idx (omap f l) i), (idx l i); simpl in *; congruence.
Qed.

Lemma operationsOf_idx evs a id :
  eventsWf evs -> idx (newIds [] evs) a = Some id -> idx (operationsOf evs) a = operationOf evs id.
Proof.
  intros Hw Ha. unfold operationsOf. rewrite idx_omap, Ha; [done|]. intros x Hx.
  destruct (newIds_spec [] evs ltac:(constructor)) as (_ & _ & Hin).
  destruct (operationOf_spec evs x Hw (Hin x Hx)) as (? & ? & ? & ? & ? & ? & _ & _ & _ & _ & _ & _ & _ & _ & _ & _ & ->); eauto.
Qed.

(** The entries that [checkEvents] searches are those of the operations. *)
Lemma events_entries evs : eventsWf evs -> entriesOf (operationsOf evs) (convertEntries (renumber evs)).
Proof.
  intros Hw; split; [|apply convertLoop_sorted].
  destruct (newIds_spec [] evs ltac:(constructor)) as (Hnd & Hall & Hin); simpl in Hnd, Hall.
  assert (H0 : forall id r, (∅ : gmap Z Z) !! id = Some r <-> idx [] r = Some id).
  { intros id r; rewrite lookup_empty, idx_None by (change (len []) with 0; lia). done. }
  pose proof (renumberLoop_spec ∅ [] evs ltac:(constructor) H0) as Hr.
  apply NoDup_Permutation; [|apply NoDup_rawEntries|].
  - apply NoDup_alt; intros p q e Hp Hq. unfold convertEntries in *; rewrite convertLoop_lookup in *.
    apply fmap_Some in Hp as (v & _ & ->). apply fmap_Some in Hq as (w & _ & [= _ _ _ ? _]). lia.
  - intros e. rewrite elem_rawEntries. setoid_rewrite Z.sub_0_r. rewrite list_elem_of_lookup. split.
    + intros (p & Hp). unfold convertEntries in Hp; rewrite convertLoop_lookup in Hp. apply fmap_Some in Hp as (v' & Hv' & ->).
      assert (Hlen : is_Some (evs !! p)).
      { apply lookup_lt_is_Some. apply lookup_lt_Some in Hv'. by rewrite renumber_length in Hv'. }
      destruct Hlen as [v Hv]. destruct (Hr p v Hv) as (r & Hr' & Hi). unfold renumber in Hv'.
      change (len []) with 0 in Hr'. rewrite Hr' in Hv'; injection Hv' as <-. simpl in Hi |- *.
      destruct (operationOf_spec evs (ev_Id v) Hw) as (c & q & v0 & w & i & o & Hc & Hkc & Hidc & Hvc & Hq & Hkq & Hidq & Hvq & Hcl & _ & Hop);
        [by apply list_elem_of_fmap_2, (list_elem_of_lookup_2 _ p)|].
      exists r, (mkOperation (ev_ClientId v0) i (Z.of_nat c) o (Z.of_nat q)). split; [by rewrite (operationsOf_idx evs r _ Hw Hi)|].
      unfold callOf, returnOf; simpl. destruct (ev_Kind v) eqn:Ek; [left|right].
      * assert (p = c) as -> by (apply (ew_unique evs Hw p c v v0); congruence). assert (v0 = v) as -> by congruence. by rewrite Hvc.
      * assert (p = q) as -> by (apply (ew_unique evs Hw p q v w); congruence). assert (w = v) as -> by congruence. by rewrite Hvq, Hcl.
    + intros (a & op & Ha & He). pose proof (idx_Some_range _ _ _ Ha) as Hra.
      assert (Hida : exists id, idx (newIds [] evs) a = Some id).
      { unfold operationsOf in Ha. rewrite idx_omap in Ha.
        - destruct (idx (newIds [] evs) a); [eauto|done].
        - intros x Hx. destruct (operationOf_spec evs x Hw (Hin x Hx)) as (? & ? & ? & ? & ? & ? & _ & _ & _ & _ & _ & _ & _ & _ & _ & _ & ->); eauto. }
      destruct Hida as [id Hid]. rewrite (operationsOf_idx evs a id Hw Hid) in Ha.
      destruct (operationOf_spec evs id Hw) as (c & q & v0 & w & i & o & Hc & Hkc & Hidc & Hvc & Hq & Hkq & Hidq & Hvq & Hcl & _ & Hop);
        [by apply Hin, (idx_elem _ a)|].
      rewrite Hop in Ha; injection Ha as <-. destruct He as [-> | ->].
      * exists c. destruct (Hr c v0 Hc) as (r & Hr' & Hi). unfold convertEntries, renumber; rewrite convertLoop_lookup.
        change (len []) with 0 in Hr'. rewrite Hr'; simpl. assert (r = a) as -> by (eapply idx_inj; [exact Hnd|exact Hi|by rewrite Hidc]).
        unfold callOf; simpl. by rewrite Hkc, Hvc.
      * exists q. destruct (Hr q w Hq) as (r & Hr' & Hi). unfold convertEntries, renumber; rewrite convertLoop_lookup.
        change (len []) with 0 in Hr'. rewrite Hr'; simpl. assert (r = a) as -> by (eapply idx_inj; [exact Hnd|exact Hi|by rewrite Hidq]).
        unfold returnOf; simpl. by rewrite Hkq, Hvq, Hcl.
Qed.

Lemma events_times evs : eventsWf evs -> timesOk (operationsOf evs).
Proof.
  intros Hw op Hop. unfold operationsOf in Hop. apply list_elem_of_omap in Hop as (id & Hid & Hop).
  destruct (newIds_spec [] evs ltac:(constructor)) as (_ & _ & Hin).
  destruct (operationOf_spec evs id Hw (Hin id Hid)) as (c & q & v0 & w & i & o & _ & _ & _ & _ & _ & _ & _ & _ & _ & Hlt & E).
  rewrite E in Hop; injection Hop as <-. simpl; lia.
Qed.
End events.

(** ** The verdict *)

Section verdict.
Context {St In Out : Type} (ShallowEqual : St -> St -> bool) (model : Model St In Out).
Context (history : list (Event In Out)) (verbose : bool).

(** The partitions [checkEvents] checks. *)
Definition eventPartitions : list (list (Event In Out)) := default NoPartitionEvent (PartitionEvent model) history.

Definition eventsLinearizable (evs : list (Event In Out)) : Prop := linearizable model (operationsOf evs).

Hypothesis Equal_eq : forall s1 s2, default ShallowEqual (Equal model) s1 s2 = true -> s1 = s2.
Hypothesis events_ok : Forall eventsWf eventPartitions.

Lemma events_decided i E :
  ((fun sub => convertEntries (renumber sub)) <$> eventPartitions) !! i = Some E ->
  decidedPart (fillDefault ShallowEqual model) verbose (goodPart eventsLinearizable eventPartitions) i E.
Proof.
  rewrite list_lookup_fmap; intros (sub & Hi & ->)%fmap_Some. pose proof (proj1 (Forall_lookup _ _) events_ok _ _ Hi) as Hw.
  destruct (entriesOf_decided (fillDefault ShallowEqual model) verbose (operationsOf sub) (convertEntries (renumber sub)))
    as [fuel0 Hd]; [done|by apply events_times|by apply events_entries|].
  exists fuel0; intros fuel Hle; destruct (Hd fuel Hle) as (r & lg & Hr & Hiff & _). exists r, lg; split; [done|].
  by rewrite Hiff, (goodPart_iff _ _ _ sub Hi).
Qed.

Lemma events_reached :
  eventPartitions <> [] ->
  exists fuel0, forall fuel order, (fuel0 <= fuel)%nat -> order ≡ₚ seq 0 (length eventPartitions) ->
    (checkEvents ShallowEqual (Finished <$> order) fuel model history verbose = Some Ok
     /\ Forall eventsLinearizable eventPartitions)
    \/ (checkEvents ShallowEqual (Finished <$> order) fuel model history verbose = Some Illegal
        /\ ~ Forall eventsLinearizable eventPartitions).
Proof.
  intros Hne. destruct (parallel_reached _ _ _ _ events_decided) as [fuel0 H]; [by destruct eventPartitions|].
  exists fuel0; intros fuel order Hle Hp. rewrite length_fmap in H. rewrite <- (goodParts eventsLinearizable). by apply H.
Qed.

Lemma events_sound arrivals fuel res :
  NoDup (finished arrivals) -> checkEvents ShallowEqual arrivals fuel model history verbose = Some res ->
  (res = Ok -> Forall eventsLinearizable eventPartitions) /\ (res = Illegal -> ~ Forall eventsLinearizable eventPartitions).
Proof.
  intros Hnd H. rewrite <- (goodParts eventsLinearizable), <- (length_fmap (fun sub => convertEntries (renumber sub))).
  by apply (parallel_sound _ _ _ _ events_decided arrivals fuel).
Qed.
End verdict.

(** C30: Histories of events. If in every partition each operation has one call
    and one later return, of the same client, then in whatever order the
    goroutines answer, [CheckEvents] and its variants return [Ok] exactly when
    the operations of every partition are linearizable, with the positions of
    their events as times, and [Illegal] otherwise; and whenever the timer
    fires, a verdict that is given is right. The numbers of the operations need
    not be 0, 1, 2...: [renumber] takes care of that. *)
Theorem checkEvents_correct {St In Out : Type} (ShallowEqual : St -> St -> bool) (model : Model St In Out)
    (history : list (Event In Out)) (verbose : bool) :
  (forall s1 s2, default ShallowEqual (Equal model) s1 s2 = true -> s1 = s2) ->
  Forall eventsWf (eventPartitions model history) -> eventPartitions model history <> [] ->
  (exists fuel0, forall fuel order, (fuel0 <= fuel)%nat -> order ≡ₚ seq 0 (length (eventPartitions model history)) ->
    exists res, checkEvents ShallowEqual (Finished <$> order) fuel model history verbose = Some res
      /\ (res = Ok <-> Forall (eventsLinearizable model) (eventPartitions model history)) /\ res <> Unknown)
  /\ (forall arrivals fuel res, NoDup (finished arrivals) ->
        checkEvents ShallowEqual arrivals fuel model history verbose = Some res ->
        (res = Ok -> Forall (eventsLinearizable model) (eventPartitions model history))
        /\ (res = Illegal -> ~ Forall (eventsLinearizable model) (eventPartitions model history))).
Proof.
  intros Heq Hw Hne; split.
  - destruct (events_reached ShallowEqual model history verbose Heq Hw Hne) as [fuel0 H]. exists fuel0; intros fuel order Hle Ho.
    destruct (H fuel order Hle Ho) as [[E Hl]|[E Hl]]; eexists; (split; [exact E|]); split; [done|done|by split|done].
  - intros arrivals fuel res; by apply events_sound.
Qed.

(** C31: The two ways to give a history agree: for a model without partition
    functions, checking the events of a history answers what checking its
    operations answers. *)
Theorem CheckEvents_CheckOperations {St In Out : Type} (ShallowEqual : St -> St -> bool) (model : Model St In Out)
    (sort : list (entry In Out) -> list (entry In Out)) (history : list (Event In Out)) :
  (forall s1 s2, default ShallowEqual (Equal model) s1 s2 = true -> s1 = s2) -> sorts sort ->
  Partition model = None -> PartitionEvent model = None -> eventsWf history ->
  exists fuel0, forall fuel, (fuel0 <= fuel)%nat ->
    exists b, CheckEvents ShallowEqual [Finished 0] fuel model history = Some b
      /\ CheckOperations ShallowEqual sort [Finished 0] fuel model (operationsOf history) = Some b.
Proof.
  intros Heq Hs HP HPE Hw.
  assert (Ee : eventPartitions model history = [history]) by (unfold eventPartitions; by rewrite HPE).
  assert (Eo : partitionsOf model (operationsOf history) = [operationsOf history]) by (unfold partitionsOf; by rewrite HP).
  destruct (events_reached ShallowEqual model history false Heq) as [f1 H1]; [by rewrite Ee; apply Forall_singleton|by rewrite Ee|].
  destruct (verdict_reached ShallowEqual model sort (operationsOf history) false Heq) as [f2 H2];
    [by rewrite Eo; apply Forall_singleton, events_times|done|by rewrite Eo|].
  rewrite Ee in H1. rewrite Eo in H2.
  exists (f1 + f2)%nat; intros fuel Hle. specialize (H1 fuel [0%nat] ltac:(lia) ltac:(done)). specialize (H2 fuel [0%nat] ltac:(lia) ltac:(done)).
  rewrite !Forall_singleton in H1. pose proof (Forall_singleton (linearizable model) (operationsOf history)) as F. unfold eventsLinearizable in H1. unfold CheckEvents, CheckOperations. simpl in H1, H2.
  destruct H1 as [[-> Hl1]|[-> Hl1]], H2 as [[-> Hl2]|[-> Hl2]]; simpl; eauto; unfold eventsLinearizable in *; tauto.
Qed.

(** ** Examples *)

(** A write of 1, number 7, overlaps a read of 1, number 3. *)
Definition regEvents : list (Event (option Z) Z) :=
  [mkEvent 0 CallEvent (VIn (Some 1)) 7; mkEvent 1 CallEvent (VIn None) 3;
   mkEvent 1 ReturnEvent (VOut 1) 3; mkEvent 0 ReturnEvent (VOut 0) 7].

Lemma regEvents_ok : eventsWf regEvents.
Proof.
  split.
  - intros [|[|[|[|p]]]] [|[|[|[|q]]]] v w Hv Hw; simpl in Hv, Hw; simplify_eq; simpl; done.
  - intros [|[|[|[|p]]]] v Hv; simpl in Hv; simplify_eq; simpl; try done; intros _; split; eauto.
    + exists 3%nat; eexists; split_and!; [lia|done..].
    + exists 2%nat; eexists; split_and!; [lia|done..].
  - intros [|[|[|[|q]]]] w Hw; simpl in Hw; simplify_eq; simpl; try done; intros _; split; eauto.
    + exists 1%nat; eexists; split_and!; [lia|done..].
    + exists 0%nat; eexists; split_and!; [lia|done..].
Qed.

Lemma checkEvents_correct_witness :
  exists fuel0, forall fuel order, (fuel0 <= fuel)%nat -> order ≡ₚ [0%nat] ->
    exists res, checkEvents Z.eqb (Finished <$> order) fuel regModel regEvents false = Some res
      /\ (res = Ok <-> Forall (eventsLinearizable regModel) [regEvents]) /\ res <> Unknown.
Proof.
  exact (proj1 (checkEvents_correct Z.eqb regModel regEvents false regModel_equal
    (proj2 (Forall_singleton eventsWf regEvents) regEvents_ok) ltac:(discriminate))).
Defined.

Lemma CheckEvents_CheckOperations_witness :
  exists fuel0, forall fuel, (fuel0 <= fuel)%nat ->
    exists b, CheckEvents Z.eqb [Finished 0] fuel regModel regEvents = Some b
      /\ CheckOperations Z.eqb sortEntries [Finished 0] fuel regModel (operationsOf regEvents) = Some b.
Proof.
  exact (CheckEvents_CheckOperations Z.eqb regModel sortEntries regEvents regModel_equal sortEntries_ok eq_refl eq_refl regEvents_ok).
Defined.

(** [KvModel] has no [PartitionEvent], so as a model of histories of events it
    is one register for all keys: a put of one key, a put of another and a get
    of the first, one after the other, are refused. *)
Definition kvEvents : list (Event KvInput KvOutput) :=
  [mkEvent 0 CallEvent (VIn (mkKvInput 1 "x" "1")) 0; mkEvent 0 ReturnEvent (VOut (mkKvOutput "")) 0;
   mkEvent 0 CallEvent (VIn (mkKvInput 1 "y" "2")) 1; mkEvent 0 ReturnEvent (VOut (mkKvOutput "")) 1;
   mkEvent 0 CallEvent (VIn (mkKvInput 0 "x" "")) 2; mkEvent 0 ReturnEvent (VOut (mkKvOutput "1")) 2].

Lemma KvModel_events_one_register :
  CheckEvents String.eqb [Finished 0] 100 (KvModel id) kvEvents = Some false
  /\ CheckOperations String.eqb sortEntries [Finished 0; Finished 1] 100 (KvModel id) (operationsOf kvEvents) = Some true.
Proof. split; vm_compute; reflexivity. Qed.
