(* ===== verification/KvLocality.v ===== *)
(** * models/kv.go: checking each key on its own is enough

    [KvModel] partitions a history by key and checks every key against a model
    of a single string. The specification here is a whole key-value store;
    a history is linearizable with respect to the store exactly when every
    partition is linearizable with respect to the single value. *)

From S2P Require Import Prelude Bitset Checker CheckerHeap CheckerSearch CheckerBuild.
From S2P Require Import Linearizability Porcupine.

#[local] Open Scope Z_scope.

(** ** Linearizability in terms of the operations *)

Section oplists.
Context {St In Out : Type} (model : Model St In Out).
Notation operation := (Operation In Out).
Implicit Types (ops l : list operation).

Fixpoint accepts (s : St) l : Prop :=
  match l with
  | [] => True
  | op :: l => exists s', Step model s (Input op) (Output op) = (true, s') /\ accepts s' l
  end.

Definition mayPrecede (a c : operation) : Prop := ~ Return c < Call a.

Definition arranged ops l : Prop := l ≡ₚ ops /\ StronglySorted mayPrecede l /\ accepts (Init model) l.

Lemma legal_accepts ops order l s :
  Some <$> l = idx ops <$> order -> (legal model ops s order <-> accepts s l).
Proof.
  revert l s; induction order as [|a order IH]; intros [|op l] s H; try done.
  rewrite !fmap_cons in H; injection H as Ha H; cbn [legal accepts]; split.
  - intros (op' & s' & Hop & Hst & Hl). rewrite Hop in Ha; simplify_eq. exists s'; split; [done|]. by apply IH.
  - intros (s' & Hst & Hl); exists op, s'; split_and!; [done|done|]. by eapply IH.
Qed.

Lemma respects_sorted ops order l :
  Some <$> l = idx ops <$> order -> (respects ops order <-> StronglySorted mayPrecede l).
Proof.
  revert l; induction order as [|a order IH]; intros [|op l] H; try done; [by split; [constructor|]|].
  rewrite !fmap_cons in H; injection H as Ha H; cbn [respects]. rewrite (IH l H); split.
  - intros [Hfirst Hs]; constructor; [done|]. apply Forall_forall; intros opc Hin.
    apply (list_elem_of_fmap_2 Some) in Hin; rewrite H in Hin. apply list_elem_of_fmap in Hin as (c & Hc & Hin). by eapply Hfirst.
  - intros Hs; apply StronglySorted_inv in Hs as [Hs Hfirst]; split; [|done].
    intros c opa opc Hc Hopa Hopc. rewrite Hopa in Ha; simplify_eq. rewrite Forall_forall in Hfirst; apply Hfirst.
    apply (list_elem_of_fmap_2 (idx ops)) in Hc. rewrite <- H, Hopc in Hc. apply list_elem_of_fmap in Hc as (op & E & Hin). by simplify_eq.
Qed.

Lemma idx_seqZ ops : idx ops <$> seqZ 0 (len ops) = Some <$> ops.
Proof.
  apply list_eq; intros i. rewrite !list_lookup_fmap.
  destruct (ops !! i) as [op|] eqn:E.
  - pose proof (lookup_lt_Some _ _ _ E). rewrite lookup_seqZ_lt by (unfold len; lia); simpl.
    unfold idx; rewrite Z.add_0_l, Nat2Z.id, E. by case_if; [|zbool; lia].
  - apply lookup_ge_None in E. rewrite lookup_seqZ_ge by (unfold len; lia). done.
Qed.

Lemma linearizable_arranged ops : linearizable model ops <-> exists l, arranged ops l.
Proof.
  split.
  - intros (order & Hp & Hr & Hl).
    assert (Hmap : idx ops <$> order ≡ₚ Some <$> ops) by (rewrite Hp; by rewrite idx_seqZ).
    destruct (Permutation_map_inv Some _ Hmap) as (l & El & Hl').
    exists l; split_and!; [done| |]; [by eapply respects_sorted|by eapply legal_accepts].
  - intros (l & Hp & Hs & Ha).
    assert (Hmap : Some <$> l ≡ₚ idx ops <$> seqZ 0 (len ops)) by (rewrite idx_seqZ; by apply fmap_Permutation).
    destruct (Permutation_map_inv (idx ops) _ Hmap) as (order & El & Hp').
    exists order; split_and!; [done| |]; [by eapply respects_sorted|by eapply legal_accepts].
Qed.
End oplists.

(** ** The store *)

Definition storeStep (m : gmap string string) (inp : KvInput) (out : KvOutput) : bool * gmap string string :=
  let v := default ""%string (m !! kKey inp) in
  if kOp inp =? 0 then (String.eqb (koValue out) v, m)
  else if kOp inp =? 1 then (true, <[kKey inp := kValue inp]> m)
  else (true, <[kKey inp := v +:+ kValue inp]> m).

Definition storeModel : Model (gmap string string) KvInput KvOutput := mkModel None None ∅ storeStep None.

Notation kvop := (Operation KvInput KvOutput).

Definition keyOf (op : kvop) : string := kKey (Input op).
Definition onKey (k : string) (l : list kvop) : list kvop := filter (fun op => keyOf op = k) l.

(** *** The partitions *)

Lemma kvGroup_lookup m (history : list kvop) k :
  kvGroup m history !! k
  = match m !! k, onKey k history with None, [] => None | o, l => Some (default [] o ++ l) end.
Proof.
  revert m; induction history as [|v history IH]; intros m; cbn [kvGroup].
  { unfold onKey; simpl. destruct (m !! k); simpl; [by rewrite app_nil_r|done]. }
  rewrite IH; clear IH. unfold onKey; rewrite filter_cons; fold (onKey k history).
  change (kKey (Input v)) with (keyOf v). destruct (decide (keyOf v = k)) as [->|Hne].
  - rewrite lookup_insert; case_decide; [|done].
    destruct (m !! k); cbn [default]; unfold id; rewrite <- ?(assoc_L (++)); done.
  - by rewrite lookup_insert_ne.
Qed.

Lemma kvGroup_keys (history : list kvop) k :
  k ∈ (map_to_list (kvGroup ∅ history)).*1 <-> k ∈ keyOf <$> history.
Proof.
  rewrite list_elem_of_fmap; split.
  - intros ([k' l] & -> & Hin); apply elem_of_map_to_list in Hin; rewrite kvGroup_lookup, lookup_empty in Hin; simpl.
    destruct (onKey k' history) as [|op l'] eqn:E; [done|].
    assert (Hop : op ∈ onKey k' history) by (rewrite E; left).
    apply list_elem_of_filter in Hop as [<- Hop]. by apply list_elem_of_fmap_2.
  - intros (op & -> & Hop)%list_elem_of_fmap. exists (keyOf op, onKey (keyOf op) history); split; [done|].
    apply elem_of_map_to_list; rewrite kvGroup_lookup, lookup_empty.
    assert (Hin : op ∈ onKey (keyOf op) history) by (by apply list_elem_of_filter).
    destruct (onKey (keyOf op) history); [by apply elem_of_nil in Hin|done].
Qed.

(** The partitions are the operations of each key, in the order of the
    history; the keys are those of the history, without repetition. *)
Lemma kvPartition_spec sortStrings (history : list kvop) :
  (forall ks, sortStrings ks ≡ₚ ks) ->
  exists keys, kvPartition sortStrings history = (fun k => onKey k history) <$> keys
    /\ NoDup keys /\ (forall k, k ∈ keys <-> k ∈ keyOf <$> history).
Proof.
  intros Hsort; set (ks := (map_to_list (kvGroup ∅ history)).*1). exists (sortStrings ks); split_and!.
  - unfold kvPartition; fold ks. apply list_fmap_ext; intros i k Hk; rewrite kvGroup_lookup, lookup_empty.
    by destruct (onKey k history).
  - rewrite Hsort. apply NoDup_fst_map_to_list.
  - intros k; rewrite Hsort. apply kvGroup_keys.
Qed.

Lemma concat_onKey keys (ops : list kvop) :
  NoDup keys -> (forall op, op ∈ ops -> keyOf op ∈ keys) ->
  ops ≡ₚ concat ((fun k => onKey k ops) <$> keys).
Proof.
  revert ops; induction keys as [|k keys IH]; intros ops Hnd Hin.
  { destruct ops as [|op ops]; [done|]. specialize (Hin op ltac:(left)); by apply elem_of_nil in Hin. }
  apply NoDup_cons in Hnd as [Hk Hnd]; cbn [fmap list_fmap concat].
  rewrite <- (filter_app_complement (fun op => keyOf op = k) ops) at 1.
  apply Permutation_app; [done|]. rewrite (IH (filter (fun op => keyOf op <> k) ops) Hnd).
  - erewrite list_fmap_ext; [reflexivity|]; intros i k' Hk'; cbv beta.
    unfold onKey; rewrite list_filter_filter; apply list_filter_iff; intros op.
    assert (k' ∈ keys) by (by eapply list_elem_of_lookup_2). set_solver.
  - intros op [Hne Hop]%list_elem_of_filter. specialize (Hin op Hop). by apply elem_of_cons in Hin as [|].
Qed.

(** *** Legality, key by key *)

Lemma storeStep_kvStep m inp out b m' :
  storeStep m inp out = (b, m') ->
  kvStep (default ""%string (m !! kKey inp)) inp out = (b, default ""%string (m' !! kKey inp))
  /\ forall k, k <> kKey inp -> m' !! k = m !! k.
Proof.
  unfold storeStep, kvStep; intros H; destruct (kOp inp =? 0); [by simplify_eq|].
  destruct (kOp inp =? 1); simplify_eq; rewrite lookup_insert; (split; [by case_decide|]); intros k Hk;
    by rewrite lookup_insert_ne by congruence.
Qed.

Lemma accepts_store sortStrings (l : list kvop) m :
  accepts storeModel m l <-> forall k, accepts (KvModel sortStrings) (default ""%string (m !! k)) (onKey k l).
Proof.
  revert m; induction l as [|op l IH]; intros m; [done|]. cbn [accepts].
  destruct (storeStep m (Input op) (Output op)) as [b m'] eqn:Es.
  pose proof (storeStep_kvStep _ _ _ _ _ Es) as [Hkv Hne]; split.
  - intros (m1 & Hst & Hl) k; cbn [Step storeModel] in Hst; rewrite Es in Hst; injection Hst as -> <-.
    rewrite IH in Hl; unfold onKey; rewrite filter_cons; case_decide as Hk.
    + cbn [accepts Step KvModel]. subst k. eexists; split; [exact Hkv|]. apply Hl.
    + specialize (Hl k). by rewrite Hne in Hl by (unfold keyOf in Hk; congruence).
  - intros H. assert (b = true) as ->.
    { specialize (H (keyOf op)); unfold onKey in H; rewrite filter_cons, decide_True in H by done.
      destruct H as (s' & Hst & _); cbn [Step KvModel] in Hst. unfold keyOf in Hst; rewrite Hkv in Hst. by injection Hst. }
    exists m'; split; [done|]. apply IH; intros k; specialize (H k); unfold onKey in H; rewrite filter_cons in H; case_decide as Hk.
    + destruct H as (s' & Hst & Hl); cbn [Step KvModel] in Hst. subst k; unfold keyOf in Hst; rewrite Hkv in Hst.
      injection Hst as <-. exact Hl.
    + by rewrite Hne by (unfold keyOf in Hk; congruence).
Qed.

(** ** Merging the orders of the keys *)

(** Each operation of an order takes effect at the latest call so far. *)
Notation timed := (Z * kvop)%type.

Fixpoint points (t : Z) (l : list kvop) : list timed :=
  match l with
  | [] => []
  | op :: l => let t := t `max` Call op in (t, op) :: points t l
  end.

Definition inside (p : timed) : Prop := Call p.2 <= p.1 <= Return p.2.
Definition before (p q : timed) : Prop := p.1 <= q.1.

#[local] Instance before_dec p q : Decision (before p q) := decide (p.1 <= q.1).
#[local] Instance before_total : Total before.
Proof. intros p q; unfold before; lia. Qed.
#[local] Instance before_trans : Transitive before.
Proof. intros p q r; unfold before; lia. Qed.

Lemma points_ops t l : (points t l).*2 = l.
Proof. revert t; induction l as [|op l IH]; intros t; simpl; [done|]. by rewrite IH. Qed.

Lemma points_inside t l :
  StronglySorted mayPrecede l -> timesOk l -> (forall op, op ∈ l -> t <= Return op) ->
  Forall (fun p => inside p /\ t <= p.1) (points t l) /\ StronglySorted before (points t l).
Proof.
  intros Hs; revert t; induction Hs as [|op l Hs IH Hop]; intros t Ht Hb; cbn [points]; [by split; constructor|].
  destruct (IH (t `max` Call op)) as [Hin Hsort].
  - intros o Ho; apply Ht; by right.
  - intros o Ho; rewrite Forall_forall in Hop; specialize (Hop o Ho); specialize (Hb o ltac:(by right)).
    unfold mayPrecede in Hop; lia.
  - specialize (Ht op ltac:(left)); specialize (Hb op ltac:(left)); split; constructor.
    + unfold inside; simpl; lia.
    + eapply Forall_impl; [exact Hin|]; intros p [? ?]; split; [done|lia].
    + done.
    + eapply Forall_impl; [exact Hin|]; intros p [? ?]; unfold before; simpl; lia.
Qed.

Lemma lower_bound (l : list kvop) : exists t, forall op, op ∈ l -> t <= Return op.
Proof.
  induction l as [|op l [t IH]]; [exists 0; intros op Hop; by apply elem_of_nil in Hop|].
  exists (t `min` Return op); intros o [->|Ho]%elem_of_cons; [lia|specialize (IH o Ho); lia].
Qed.

(** A key of one of the two lists keeps its order in the merged list. *)
Lemma filter_merge (P : timed -> Prop) `{!forall p, Decision (P p)} l1 l2 :
  (Forall (fun p => ~ P p) l2 -> filter P (list_merge before l1 l2) = filter P l1)
  /\ (Forall (fun p => ~ P p) l1 -> filter P (list_merge before l1 l2) = filter P l2).
Proof.
  revert l2; induction l1 as [|x1 l1 IH1]; intros l2.
  { rewrite list_merge_nil_l; split; [|done]. intros Hnone; apply filter_none; by rewrite <- Forall_forall. }
  induction l2 as [|x2 l2 [IHa IHb]].
  { rewrite list_merge_nil_r; split; [done|]. intros Hnone; apply filter_none; by rewrite <- Forall_forall. }
  rewrite list_merge_cons; destruct (IH1 (x2 :: l2)) as [IHc IHd]; split; intros Hnone; case_decide.
  - rewrite !(filter_cons _ x1), IHc by done; done.
  - pose proof Hnone as [Hx H']%Forall_cons; rewrite filter_cons_False by done. auto.
  - pose proof Hnone as [Hx H']%Forall_cons; rewrite filter_cons_False by done. auto.
  - rewrite !(filter_cons _ x2), IHb by done; done.
Qed.

Lemma onKey_timed k (L : list timed) : onKey k L.*2 = (filter (fun p : timed => keyOf p.2 = k) L).*2.
Proof.
  unfold onKey; induction L as [|p L IH]; [done|]. rewrite fmap_cons, !filter_cons, IH. by case_decide.
Qed.

Lemma merge_keys sortStrings (ops : list kvop) keys :
  timesOk ops -> NoDup keys ->
  (forall k, k ∈ keys -> exists l, arranged (KvModel sortStrings) (onKey k ops) l) ->
  exists L : list timed,
    StronglySorted before L /\ Forall inside L
    /\ L.*2 ≡ₚ concat ((fun k => onKey k ops) <$> keys)
    /\ (forall k, k ∈ keys -> accepts (KvModel sortStrings) ""%string (onKey k L.*2)).
Proof.
  intros Ht; induction keys as [|k keys IH]; intros Hnd Harr.
  { exists []; split_and!; [constructor|constructor|done|]. intros k Hk; by apply elem_of_nil in Hk. }
  apply NoDup_cons in Hnd as [Hk Hnd].
  destruct IH as (L & HL & Hin & Hp & Hacc); [done|intros; apply Harr; by right|].
  destruct (Harr k ltac:(left)) as (l & Hl & Hs & Ha). destruct (lower_bound l) as [t Hb].
  destruct (points_inside t l Hs) as [Hpin Hps]; [|done|].
  { intros op Hop; rewrite Hl in Hop; apply list_elem_of_filter in Hop as [_ Hop]; by apply Ht. }
  set (M := list_merge before (points t l) L).
  assert (Hone : forall p, p ∈ points t l -> keyOf p.2 = k).
  { intros p Hp'; apply (list_elem_of_fmap_2 snd) in Hp'; rewrite points_ops, Hl in Hp'. by apply list_elem_of_filter in Hp' as [? _]. }
  assert (Hother : forall p, p ∈ L -> keyOf p.2 ∈ keys).
  { intros p Hp'; apply (list_elem_of_fmap_2 snd) in Hp'; rewrite Hp in Hp'.
    apply list_elem_of_In, in_concat in Hp' as (part & Hpart & Hin').
    apply list_elem_of_In, list_elem_of_fmap in Hpart as (k' & -> & Hk').
    apply list_elem_of_In, list_elem_of_filter in Hin' as [-> _]; done. }
  exists M; split_and!.
  - apply Sorted_StronglySorted; [apply _|]. apply Sorted_list_merge; [exact before_total|by apply StronglySorted_Sorted..].
  - unfold M; rewrite merge_Permutation; apply Forall_app; split; [|done].
    eapply Forall_impl; [exact Hpin|]; by intros p [? _].
  - unfold M; rewrite merge_Permutation, fmap_app, points_ops, Hl, Hp. done.
  - intros k' Hk'; rewrite onKey_timed; destruct (filter_merge (fun p : timed => keyOf p.2 = k') (points t l) L) as [F1 F2].
    apply elem_of_cons in Hk' as [->|Hk'].
    + fold M in F1; rewrite F1, <- onKey_timed, points_ops.
      * unfold onKey; rewrite filter_all; [done|]. intros op Hop; rewrite Hl in Hop. by apply list_elem_of_filter in Hop as [? _].
      * apply Forall_forall; intros p Hp' <-; by apply Hk, Hother.
    + fold M in F2; rewrite F2, <- onKey_timed; [by apply Hacc|].
      apply Forall_forall; intros p Hp' E; apply Hk. by rewrite <- (Hone p Hp'), E.
Qed.

Lemma sorted_mayPrecede (L : list timed) :
  StronglySorted before L -> Forall inside L -> StronglySorted mayPrecede L.*2.
Proof.
  induction 1 as [|p L Hs IH Hp]; intros Hin; [constructor|]. apply Forall_cons in Hin as [Hpin Hin].
  constructor; [by apply IH|]. apply Forall_fmap, Forall_forall; intros q Hq.
  rewrite Forall_forall in Hp, Hin; specialize (Hp q Hq); specialize (Hin q Hq).
  unfold mayPrecede, inside, before in *; simpl; lia.
Qed.

(** ** Locality *)

Lemma kv_local sortStrings (ops : list kvop) :
  (forall ks, sortStrings ks ≡ₚ ks) -> timesOk ops ->
  (Forall (linearizable (KvModel sortStrings)) (kvPartition sortStrings ops) <-> linearizable storeModel ops).
Proof.
  intros Hsort Ht; destruct (kvPartition_spec sortStrings ops Hsort) as (keys & -> & Hnd & Hkeys).
  rewrite Forall_fmap, Forall_forall, linearizable_arranged; split.
  - intros H. destruct (merge_keys sortStrings ops keys Ht Hnd) as (L & HL & Hin & Hp & Hacc).
    { intros k Hk; apply linearizable_arranged; by apply H. }
    assert (Hperm : L.*2 ≡ₚ ops).
    { rewrite Hp; symmetry; apply concat_onKey; [done|]. intros op Hop; apply Hkeys. by apply list_elem_of_fmap_2. }
    exists L.*2; split_and!; [done|by apply sorted_mayPrecede|]. apply (accepts_store sortStrings); intros k.
    cbn [Init storeModel]; rewrite lookup_empty; cbn [default]. destruct (decide (k ∈ keys)) as [Hk|Hk]; [by apply Hacc|].
    unfold onKey; rewrite filter_none; [done|]. intros op Hop <-; apply Hk, Hkeys. rewrite Hperm in Hop. by apply list_elem_of_fmap_2.
  - intros (l & Hl & Hs & Ha) k Hk; apply linearizable_arranged; exists (onKey k l); split_and!.
    + unfold onKey; by rewrite Hl.
    + by apply StronglySorted_filter.
    + rewrite (accepts_store sortStrings) in Ha. specialize (Ha k). cbn [Init storeModel] in Ha. by rewrite lookup_empty in Ha.
Qed.

Lemma onKey_times k (ops : list kvop) : timesOk ops -> timesOk (onKey k ops).
Proof. intros Ht op [_ Hop]%list_elem_of_filter. by apply Ht. Qed.

(** What the checker answers. *)
Lemma kv_verdict (sort : list (entry KvInput KvOutput) -> list (entry KvInput KvOutput)) sortStrings (history : list kvop) :
  sorts sort -> (forall ks, sortStrings ks ≡ₚ ks) -> timesOk history -> history <> [] ->
  exists fuel0, forall fuel order, (fuel0 <= fuel)%nat ->
    order ≡ₚ seq 0 (length (partitionsOf (KvModel sortStrings) history)) ->
    let verdict := CheckOperations String.eqb sort (Finished <$> order) fuel (KvModel sortStrings) history in
    (verdict = Some true /\ linearizable storeModel history) \/ (verdict = Some false /\ ~ linearizable storeModel history).
Proof.
  intros Hs Hsort Ht Hne; destruct (kvPartition_spec sortStrings history Hsort) as (keys & Hparts & _ & Hkeys).
  assert (Hp : partitionsOf (KvModel sortStrings) history = kvPartition sortStrings history) by done.
  destruct (verdict_reached String.eqb (KvModel sortStrings) sort history false) as [fuel0 Hv].
  - intros s1 s2; apply String.eqb_eq.
  - rewrite Hp, Hparts; apply Forall_fmap, Forall_forall; intros k _. by apply onKey_times.
  - done.
  - rewrite Hp, Hparts; destruct history as [|op history]; [done|].
    specialize (Hkeys (keyOf op)). destruct keys; [|done]. exfalso.
    apply (not_elem_of_nil (keyOf op)), Hkeys; left.
  - exists fuel0; intros fuel order Hle Ho; unfold CheckOperations.
    destruct (Hv fuel order Hle Ho) as [[-> Hl]|[-> Hl]]; simpl; rewrite Hp, (kv_local sortStrings history Hsort Ht) in Hl; auto.
Qed.

(** C25: The key-value checker is right about the whole store: for a non-empty
    history in which no operation returns before it is called, and in whatever
    order the goroutines answer, [CheckOperations] with [KvModel] returns true
    exactly when the history is linearizable with respect to a map from keys to
    values with get, put and append, although it only ever checks one key at a
    time. *)
Theorem CheckOperations_KvModel (sort : list (entry KvInput KvOutput) -> list (entry KvInput KvOutput))
    (sortStrings : list string -> list string) (history : list (Operation KvInput KvOutput)) :
  sorts sort -> (forall ks, sortStrings ks ≡ₚ ks) -> timesOk history -> history <> [] ->
  exists fuel0, forall fuel order, (fuel0 <= fuel)%nat ->
    order ≡ₚ seq 0 (length (partitionsOf (KvModel sortStrings) history)) ->
    exists b, CheckOperations String.eqb sort (Finished <$> order) fuel (KvModel sortStrings) history = Some b
      /\ (b = true <-> linearizable storeModel history).
Proof.
  intros Hs Hsort Ht Hne; destruct (kv_verdict sort sortStrings history Hs Hsort Ht Hne) as [fuel0 Hv].
  exists fuel0; intros fuel order Hle Ho. destruct (Hv fuel order Hle Ho) as [[-> Hl]|[-> Hl]]; eexists; (split; [done|]); done.
Qed.

Lemma CheckOperations_KvModel_witness :
  exists fuel0, forall fuel order, (fuel0 <= fuel)%nat -> order ≡ₚ seq 0 2 ->
    exists b, CheckOperations String.eqb sortEntries (Finished <$> order) fuel (KvModel id) twoKeys = Some b
      /\ (b = true <-> linearizable storeModel twoKeys).
Proof.
  apply (CheckOperations_KvModel sortEntries id twoKeys sortEntries_ok (fun ks => Permutation_refl ks)); [|discriminate].
  intros op Hin; repeat (apply elem_of_cons in Hin as [->|Hin]; [simpl; lia|]); by apply elem_of_nil in Hin.
Defined.
