(* ===== verification/KvSystem.v ===== *)
(** * kvraft: clerks, servers and Raft together

    The whole service as one transition system: the peers of [RaftCluster], a
    key-value server on every peer fed by its apply channel, the RPCs of the
    clerks, and the clerks, driven by the [Get], [Put] and [Append] of
    [kvraft/test_test.go], which log every operation for the checker.

    - A server is its state and the messages that the loop of [guardKick] has yet
      to send it; the apply channel has no buffer, so a message is sent when the
      server takes it. [guardKick] looks for new entries when it has sent the old
      ones. The goroutines that its snapshots and the installed ones run in
      ([go rf.Snapshot], the send of [InstallSnapshot]) are entries of lists;
      when they run is open.
    - An RPC is handled at most once ([labrpc]), at any time after it was sent,
      also when its clerk has given it up. The handler registers, calls [Start],
      waits and answers in separate steps.
    - A crash replaces the peer and its server by new ones made from the
      persister; the handlers that were running there are gone.
    - The clock readings of the clients are arguments that never go back.

    Client ids are different: the code draws them from 2^62 numbers. The log
    gets the clerk's id where the tests log the number of the client, which the
    checker does not look at. *)

From S2P Require Import Prelude Checker Porcupine Gob RaftTypes RaftLog RaftElection.
From S2P Require Import RaftReplicate RaftSnapshot RaftPeer RaftCluster KvServer KvClerk.

#[local] Open Scope string_scope.
#[local] Open Scope Z_scope.
#[local] Open Scope list_scope.

(** ** Requests *)

Inductive request : Type := RGet (args : GetArgs) | RPutAppend (args : PutAppendArgs).
Inductive answer : Type := AGet (reply : GetReply) | APutAppend (reply : PutAppendReply).

Definition requestOp (q : request) : Op :=
  match q with RGet args => getOp args | RPutAppend args => putAppendOp args end.

Definition requestKey (q : request) : string := helpKey (ClientId (requestOp q)) (SeqNum (requestOp q)).

(** The end of the handler. *)
Definition answerOf (q : request) (w : waitEnd) (kv : KVServer) : KVServer * answer :=
  match q with
  | RGet args => let '(kv, reply) := GetEnd args w kv in (kv, AGet reply)
  | RPutAppend args => let '(kv, reply) := PutAppendEnd args w kv in (kv, APutAppend reply)
  end.

Inductive rpcStage : Type :=
| RpcSent
| RpcRegistered (ch : nat)        (* before rf.Start *)
| RpcRefused                      (* Start said that this peer does not lead *)
| RpcWaiting (ch : nat)           (* in the select *)
| RpcReplied (a : answer)
| RpcGone.                        (* the server crashed *)

Record rpc : Type := mkRpc { q_server : Z; q_request : request; q_stage : rpcStage }.

(** What a crash of [i] does to an RPC. *)
Definition crashed (i : Z) (q : rpc) : rpc :=
  match q_stage q with
  | RpcRegistered _ | RpcRefused | RpcWaiting _ => if q_server q =? i then mkRpc (q_server q) (q_request q) RpcGone else q
  | _ => q
  end.

(** ** Clerks *)

Inductive command : Type := KGet (key : string) | KPut (key value : string) | KAppend (key value : string).

Definition requestOf (c : command) (ck : Clerk) : request :=
  match c with
  | KGet key => RGet (GetArgs_of key ck)
  | KPut key value => RPutAppend (PutAppendArgs_of key value "Put" ck)
  | KAppend key value => RPutAppend (PutAppendArgs_of key value "Append" ck)
  end.

(** One iteration of the clerk's loop on what its RPC gave; the value the loop
    returns, if it does. *)
Definition clerkIter (c : command) (a : option answer) (ck : Clerk) : Clerk * option string :=
  match c, a with
  | KGet _, None => GetIter None ck
  | KGet _, Some (AGet reply) => GetIter (Some reply) ck
  | (KPut _ _ | KAppend _ _), None =>
      let '(ck, ok) := PutAppendIter None ck in (ck, if ok : bool then Some "" else None)
  | (KPut _ _ | KAppend _ _), Some (APutAppend reply) =>
      let '(ck, ok) := PutAppendIter (Some reply) ck in (ck, if ok : bool then Some "" else None)
  | _, _ => (ck, None)
  end.

(** The operation the test logs. *)
Definition logInput (c : command) : KvInput :=
  match c with
  | KGet key => mkKvInput 0 key ""
  | KPut key value => mkKvInput 1 key value
  | KAppend key value => mkKvInput 2 key value
  end.

Definition logged (cli : Z) (c : command) (start : Z) (v : string) (stop : Z) : Operation KvInput KvOutput :=
  mkOperation cli (logInput c) start (mkKvOutput v) stop.

Record busy : Type := mkBusy { b_command : command; b_start : Z; b_rpc : option nat }.

(** ** The system *)

Record kvsys : Type := mkKvsys {
  y_cluster : cluster Op;
  y_servers : list (KVServer * list (ApplyMsg Op));
  y_snapshots : list (Z * Z * bytes);          (* calls of rf.Snapshot under way *)
  y_installs : list (Z * ApplyMsg Op);         (* sends of InstallSnapshot under way *)
  y_rpcs : list rpc;
  y_clerks : gmap Z (Clerk * option busy);
  y_log : list (Operation KvInput KvOutput);
  y_clock : Z;
}.

(** Every call has returned. *)
Definition quiescent (y : kvsys) : Prop := forall id p, y_clerks y !! id = Some p -> p.2 = None.

Inductive kevent : Type :=
| KRaft (ev : event Op)            (* Raft on its own *)
| KKick (i : Z)                    (* guardKick of peer i looks for new entries *)
| KApply (i : Z)                   (* server i takes a message of guardKick *)
| KSnapshot (k : nat)              (* rf.Snapshot runs *)
| KInstall (k : nat)               (* a server takes the message of an installed snapshot *)
| KCrash (i now : Z)
| KRegister (r : nat)
| KStart (r : nat)
| KEnd (r : nat) (w : waitEnd)
| KMake (id : Z)
| KCall (id : Z) (c : command) (now : Z)
| KSend (id : Z)
| KLost (id : Z)                   (* the call returns false *)
| KReply (id now : Z).

Section system.
Context (size : bytes -> Z).       (* the length of the encoded state of a peer *)
Context (handles : Z -> list Z).   (* the servers behind the ends of a clerk: [random_handles] *)
Implicit Types (y : kvsys).

Definition set_cluster s y : kvsys :=
  mkKvsys s (y_servers y) (y_snapshots y) (y_installs y) (y_rpcs y) (y_clerks y) (y_log y) (y_clock y).
Definition set_servers sv y : kvsys :=
  mkKvsys (y_cluster y) sv (y_snapshots y) (y_installs y) (y_rpcs y) (y_clerks y) (y_log y) (y_clock y).
Definition set_pending sn ins y : kvsys :=
  mkKvsys (y_cluster y) (y_servers y) sn ins (y_rpcs y) (y_clerks y) (y_log y) (y_clock y).
Definition set_rpcs q y : kvsys :=
  mkKvsys (y_cluster y) (y_servers y) (y_snapshots y) (y_installs y) q (y_clerks y) (y_log y) (y_clock y).
Definition set_clerks cks log clock y : kvsys :=
  mkKvsys (y_cluster y) (y_servers y) (y_snapshots y) (y_installs y) (y_rpcs y) cks log clock.

Definition set_server (i : Z) (kv : KVServer) y : option kvsys :=
  '(_, pq) ← idx (y_servers y) i;
  sv ← upd (y_servers y) i (kv, pq);
  Some (set_servers sv y).

Definition set_qstage (r : nat) (st : rpcStage) y : kvsys :=
  set_rpcs (alter (fun q => mkRpc (q_server q) (q_request q) st) r (y_rpcs y)) y.

(** Server [i] takes message [m]; [pq] is what [guardKick] has left to send. *)
Definition receive (i : Z) (m : ApplyMsg Op) (pq : list (ApplyMsg Op)) y : option kvsys :=
  rf ← idx (nodes (y_cluster y)) i;
  '(kv, _) ← idx (y_servers y) i;
  '(kv, o) ← guardApply (RaftStateSize size (persister rf)) m kv;
  sv ← upd (y_servers y) i (kv, pq);
  Some (set_pending (y_snapshots y ++ ((fun s => (i, s.1, s.2)) <$> option_list o)) (y_installs y) (set_servers sv y)).

(** The events that need nothing from the service. *)
Definition plain (ev : event Op) : bool :=
  match ev with EStart _ _ | ESnapshot _ _ _ | EKick _ | ECrash _ _ => false | _ => true end.

(** The message that a run of [InstallSnapshot] hands to a goroutine. *)
Definition installing (s : cluster Op) (ev : event Op) : list (Z * ApplyMsg Op) :=
  match ev with
  | ERepHandle r now =>
      match (p ← reps s !! r;
             match rp_stage p with
             | RInstall args =>
                 rf ← idx (nodes s) (rp_server p);
                 '(_, _, m) ← InstallSnapshot now args rf;
                 m ← m;
                 Some (rp_server p, m)
             | _ => None
             end) with
      | Some im => [im]
      | None => []
      end
  | _ => []
  end.

Definition kexecRaft (ev : event Op) y : option kvsys :=
  if plain ev then
    s ← exec (y_cluster y) ev;
    Some (set_pending (y_snapshots y) (y_installs y ++ installing (y_cluster y) ev) (set_cluster s y))
  else None.

Definition kexecKick (i : Z) y : option kvsys :=
  rf ← idx (nodes (y_cluster y)) i;
  '(kv, pq) ← idx (y_servers y) i;
  match pq with
  | [] =>
      '(_, msgs) ← guardKick rf;
      s ← exec (y_cluster y) (EKick i);
      sv ← upd (y_servers y) i (kv, msgs);
      Some (set_servers sv (set_cluster s y))
  | _ => None
  end.

Definition kexecApply (i : Z) y : option kvsys :=
  '(_, pq) ← idx (y_servers y) i;
  match pq with
  | [] => None
  | m :: pq => receive i m pq y
  end.

Definition kexecSnapshot (k : nat) y : option kvsys :=
  '(i, index, data) ← y_snapshots y !! k;
  s ← exec (y_cluster y) (ESnapshot i index data);
  Some (set_pending (delete k (y_snapshots y)) (y_installs y) (set_cluster s y)).

Definition kexecInstall (k : nat) y : option kvsys :=
  '(i, m) ← y_installs y !! k;
  '(_, pq) ← idx (y_servers y) i;
  receive i m pq (set_pending (y_snapshots y) (delete k (y_installs y)) y).

(** [maxraft] is the argument that [StartKVServer] is called with again. *)
Definition kexecCrash (maxraft i now : Z) y : option kvsys :=
  s ← exec (y_cluster y) (ECrash i now);
  rf ← idx (nodes s) i;
  sv ← upd (y_servers y) i (StartKVServer (persister rf) maxraft, []);
  Some (mkKvsys s sv (filter (fun x => x.1.1 <> i) (y_snapshots y)) (filter (fun x => x.1 <> i) (y_installs y))
    (crashed i <$> y_rpcs y) (y_clerks y) (y_log y) (y_clock y)).

Definition kexecRegister (r : nat) y : option kvsys :=
  q ← y_rpcs y !! r;
  match q_stage q with
  | RpcSent =>
      '(kv, _) ← idx (y_servers y) (q_server q);
      let '(kv, ch) := register (requestKey (q_request q)) kv in
      y ← set_server (q_server q) kv y;
      Some (set_qstage r (RpcRegistered ch) y)
  | _ => None
  end.

Definition kexecStart (r : nat) y : option kvsys :=
  q ← y_rpcs y !! r;
  match q_stage q with
  | RpcRegistered ch =>
      rf ← idx (nodes (y_cluster y)) (q_server q);
      let '(_, (_, _, ok)) := Start (requestOp (q_request q)) rf in
      s ← exec (y_cluster y) (EStart (q_server q) (requestOp (q_request q)));
      Some (set_qstage r (if ok : bool then RpcWaiting ch else RpcRefused) (set_cluster s y))
  | _ => None
  end.

Definition kexecEnd (r : nat) (w : waitEnd) y : option kvsys :=
  q ← y_rpcs y !! r;
  '(kv, _) ← idx (y_servers y) (q_server q);
  if match q_stage q, w with
     | RpcRefused, Refused => true
     | RpcWaiting ch, Signalled => bool_decide (chans kv !! ch = Some true)
     | RpcWaiting _, TimedOut => true
     | _, _ => false
     end
  then
    let '(kv, a) := answerOf (q_request q) w kv in
    y ← set_server (q_server q) kv y;
    Some (set_qstage r (RpcReplied a) y)
  else None.

Definition kexecMake (id : Z) y : option kvsys :=
  match y_clerks y !! id with
  | None =>
      Some (set_clerks (<[id := (MakeClerk (length (nodes (y_cluster y))) id, None)]> (y_clerks y)) (y_log y) (y_clock y) y)
  | Some _ => None
  end.

Definition kexecCall (id : Z) (c : command) (now : Z) y : option kvsys :=
  '(ck, b) ← y_clerks y !! id;
  match b with
  | None =>
      if y_clock y <=? now
      then Some (set_clerks (<[id := (ck, Some (mkBusy c now None))]> (y_clerks y)) (y_log y) now y)
      else None
  | Some _ => None
  end.

Definition kexecSend (id : Z) y : option kvsys :=
  '(ck, b) ← y_clerks y !! id;
  b ← b;
  match b_rpc b with
  | None =>
      srv ← idx (handles id) (leader ck);
      Some (set_clerks
        (<[id := (ck, Some (mkBusy (b_command b) (b_start b) (Some (length (y_rpcs y)))))]> (y_clerks y))
        (y_log y) (y_clock y)
        (set_rpcs (y_rpcs y ++ [mkRpc srv (requestOf (b_command b) ck) RpcSent]) y))
  | Some _ => None
  end.

(** The clerk goes on with the outcome of its RPC at time [now]. *)
Definition clerkGoes (id : Z) (ck : Clerk) (b : busy) (a : option answer) (now : Z) y : kvsys :=
  match clerkIter (b_command b) a ck with
  | (ck, None) =>
      set_clerks (<[id := (ck, Some (mkBusy (b_command b) (b_start b) None))]> (y_clerks y)) (y_log y) now y
  | (ck, Some v) =>
      set_clerks (<[id := (ck, None)]> (y_clerks y))
        (y_log y ++ [logged id (b_command b) (b_start b) v now]) now y
  end.

Definition kexecLost (id : Z) y : option kvsys :=
  '(ck, b) ← y_clerks y !! id;
  b ← b;
  _ ← b_rpc b;
  Some (clerkGoes id ck b None (y_clock y) y).

Definition kexecReply (id now : Z) y : option kvsys :=
  '(ck, b) ← y_clerks y !! id;
  b ← b;
  r ← b_rpc b;
  q ← y_rpcs y !! r;
  match q_stage q with
  | RpcReplied a => if y_clock y <=? now then Some (clerkGoes id ck b (Some a) now y) else None
  | _ => None
  end.

Definition kexec (maxraft : Z) y (ev : kevent) : option kvsys :=
  match ev with
  | KRaft ev => kexecRaft ev y
  | KKick i => kexecKick i y
  | KApply i => kexecApply i y
  | KSnapshot k => kexecSnapshot k y
  | KInstall k => kexecInstall k y
  | KCrash i now => kexecCrash maxraft i now y
  | KRegister r => kexecRegister r y
  | KStart r => kexecStart r y
  | KEnd r w => kexecEnd r w y
  | KMake id => kexecMake id y
  | KCall id c now => kexecCall id c now y
  | KSend id => kexecSend id y
  | KLost id => kexecLost id y
  | KReply id now => kexecReply id now y
  end.

(** Vote requests are built in the term of their round, as in [RaftCluster]. *)
Definition ktimely y (ev : kevent) : bool :=
  match ev with KRaft ev => timely (y_cluster y) ev | _ => true end.

(** While the message of an installed snapshot is under way to a server, its peer
    sends no later commands and installs no other snapshot. The code does not see
    to that. *)
Definition prompt y (ev : kevent) : bool :=
  match ev with
  | KKick i => bool_decide (i ∉ (y_installs y).*1)
  | KRaft ev => forallb (fun im => bool_decide (im.1 ∉ (y_installs y).*1)) (installing (y_cluster y) ev)
  | _ => true
  end.

(** Executions; if [ordered], those in which installed snapshots are prompt. *)
Fixpoint krun (ordered : bool) (maxraft : Z) y (evs : list kevent) : option kvsys :=
  match evs with
  | [] => Some y
  | ev :: evs =>
      if ktimely y ev && (negb ordered || prompt y ev) then y ← kexec maxraft y ev; krun ordered maxraft y evs else None
  end.

Definition kinit (n : nat) (maxraft : Z) : option kvsys :=
  s ← init n;
  Some (mkKvsys s (replicate n (StartKVServer MakePersister maxraft, [])) [] [] [] ∅ [] 0).
End system.
