(* ===== verification/KvLinear.v ===== *)
(** * kvraft: a committed log linearizes what its clients saw

    Every logged operation has a point in the committed log: a [Put] or [Append]
    takes effect where its request is first committed, a [Get] between two
    entries, at the prefix whose state it read. If the points respect the real
    times of the calls, the history is linearizable. *)

From S2P Require Import Prelude Checker Linearizability Porcupine KvLocality Gob RaftTypes.
From S2P Require Import KvServer KvFacts.

#[local] Open Scope string_scope.
#[local] Open Scope Z_scope.
#[local] Open Scope list_scope.

(** What the checker is told about a request. *)
Definition inputOf (op : Op) : KvInput :=
  mkKvInput (if decide (Type_ op = OpGet) then 0 else if decide (Type_ op = OpPut) then 1 else 2) (Key op) (Value op).

Definition knownType (op : Op) : Prop := Type_ op = OpGet \/ Type_ op = OpPut \/ Type_ op = OpAppend.

(** [op] is committed first at position [p]. *)
Definition firstAt (C : list Op) (p : nat) (op : Op) : Prop :=
  C !! p = Some op /\ opId op ∉ opId <$> take p C.

(** A logged operation with its point and its request. The even points are
    between the entries, the odd ones are the entries. *)
Notation point := (nat * (Z * Z) * kvop)%type.
Notation at_ := (fun x : point => x.1.1).

Definition pointOk (C : list Op) (x : point) : Prop :=
  exists op p, firstAt C p op /\ opId op = x.1.2 /\ Input x.2 = inputOf op
    /\ if decide (Type_ op = OpGet)
       then exists k, x.1.1 = (2 * k)%nat /\ (p < k <= length C)%nat
              /\ koValue (Output x.2) = default "" ((replay (take k C)).1 !! Key op)
       else x.1.1 = (2 * p + 1)%nat.

Section replay.
Implicit Types (C ops : list Op) (op : Op).

Lemma serial_table seen st ops :
  seqTable seen st.2 -> serialLog seen ops -> seqTable (reverse (opId <$> ops) ++ seen) (foldl applyOp st ops).2.
Proof.
  revert seen st; induction ops as [|op ops IH]; intros seen st Ht Hs; [done|]. destruct Hs as [Hop Hs].
  destruct (applyOp_serial seen st op Ht Hop) as [Ht' _]. rewrite fmap_cons, reverse_cons, <- (assoc app); simpl. by apply IH.
Qed.

Lemma serialLog_at seen C p op :
  serialLog seen C -> C !! p = Some op -> serialFrom (reverse (opId <$> take p C) ++ seen) op.
Proof.
  revert seen C; induction p as [|p IH]; intros seen [|o C] Hs Hp; try done; destruct Hs as [Ho Hs]; simpl in *.
  - by injection Hp as <-.
  - rewrite reverse_cons, <- (assoc app). by apply IH.
Qed.

(** The entry at a position takes effect exactly if it is a first one. *)
Lemma replay_step C p op :
  serialLog [] C -> C !! p = Some op ->
  (replay (take (S p) C)).1
  = if bool_decide (opId op ∈ opId <$> take p C) then (replay (take p C)).1 else execOp op (replay (take p C)).1.
Proof.
  intros Hs Hp. rewrite (replay_take_S _ _ _ Hp).
  destruct (applyOp_serial (reverse (opId <$> take p C) ++ []) (replay (take p C)) op) as [_ ->].
  - apply serial_table; [intros c; split; [set_solver|by left]|by apply serialLog_take].
  - by apply serialLog_at.
  - erewrite bool_decide_ext; [done|]. rewrite app_nil_r. apply elem_of_reverse.
Qed.
End replay.

(** ** The linearization *)

Definition notAfter (x x' : point) : Prop := (x.1.1 <= x'.1.1)%nat.

#[export] Instance notAfter_dec x x' : Decision (notAfter x x') := decide (x.1.1 <= x'.1.1)%nat.
#[export] Instance notAfter_total : Total notAfter.
Proof. intros x x'; unfold notAfter; lia. Qed.
#[export] Instance notAfter_trans : Transitive notAfter.
Proof. intros x x' x''; unfold notAfter; lia. Qed.

Section linear.
Context (C : list Op).
Implicit Types (xs : list point) (op : Op).
Hypothesis serial : serialLog [] C.
Hypothesis known : Forall knownType C.

(** The write of a position is among the operations. *)
Definition written xs (p : nat) : Prop :=
  forall op, firstAt C p op -> Type_ op <> OpGet -> exists x, x ∈ xs /\ x.1.1 = (2 * p + 1)%nat.

Lemma firstAt_replay p op : firstAt C p op -> (replay (take (S p) C)).1 = execOp op (replay (take p C)).1.
Proof. intros [Hp Hn]; rewrite (replay_step C p op serial Hp). by rewrite bool_decide_eq_false_2. Qed.

(** A position without a write leaves the state alone. *)
Lemma idle_replay xs p :
  (p < length C)%nat -> written xs p -> (forall x, x ∈ xs -> x.1.1 <> (2 * p + 1)%nat) ->
  (replay (take (S p) C)).1 = (replay (take p C)).1.
Proof.
  intros Hlt Hw Hn; destruct (lookup_lt_is_Some_2 C p Hlt) as [op Hp]. rewrite (replay_step C p op serial Hp).
  case_bool_decide as Hd; [done|]. destruct (decide (Type_ op = OpGet)) as [Eg|Hg].
  - unfold execOp; by rewrite Eg.
  - destruct (Hw op) as (x & Hx & E); [done|done|]. by destruct (Hn x Hx).
Qed.

(** A write, as the model sees it. *)
Lemma write_step op m v : knownType op -> Type_ op <> OpGet -> storeStep m (inputOf op) v = (true, execOp op m).
Proof.
  intros Hk Hg; unfold storeStep, inputOf, execOp; simpl. rewrite (decide_False (P := Type_ op = OpGet)) by done.
  destruct Hk as [|[E|E]]; [done| |]; rewrite E; [by rewrite decide_True|by rewrite decide_False].
Qed.

Lemma accepts_from k xs :
  (k <= length C)%nat -> StronglySorted notAfter xs -> Forall (pointOk C) xs -> NoDup (xs.*1.*2) ->
  (forall x, x ∈ xs -> (2 * k <= x.1.1)%nat) -> (forall p, (k <= p)%nat -> written xs p) ->
  accepts storeModel (replay (take k C)).1 xs.*2.
Proof.
  remember (length C - k)%nat as d eqn:Ed. revert k Ed xs.
  induction d as [d IHd] using lt_wf_ind. intros k -> xs Hk Hs Hok Hnd Hge Hw.
  induction xs as [|x xs IH]; [done|].
  apply StronglySorted_inv in Hs as [Hs Hx]; apply Forall_cons in Hok as [Hxok Hok]; apply NoDup_cons in Hnd as [Hxnd Hnd].
  pose proof (Hge x ltac:(left)) as Hxk. rewrite Forall_forall in Hx.
  destruct (decide (2 * k + 1 < x.1.1)%nat) as [Hfar|Hnear].
  { assert (Hlt : (k < length C)%nat).
    { destruct Hxok as (op & p & [Hp _] & _ & _ & Ho). apply lookup_lt_Some in Hp. case_decide; [destruct Ho as (k' & ? & ? & _)|]; lia. }
    assert (Hall : forall x', x' ∈ x :: xs -> (2 * k + 1 < x'.1.1)%nat).
    { intros x' [->|Hin]%elem_of_cons; [done|]. specialize (Hx x' Hin); unfold notAfter in Hx; lia. }
    rewrite <- (idle_replay (x :: xs) k); [|done|by apply Hw|intros x' Hin ?; specialize (Hall x' Hin); lia].
    apply (IHd (length C - S k)%nat ltac:(lia) (S k) eq_refl (x :: xs)); try done; try lia.
    - constructor; [done|by apply Forall_forall].
    - by constructor.
    - by constructor.
    - intros x' Hin; specialize (Hall x' Hin); lia.
    - intros p Hp; apply Hw; lia. }
  destruct Hxok as (op & p & Hf & Hid & Hin & Ho); cbn [accepts fmap list_fmap]. rewrite Hin; simpl.
  destruct (decide (Type_ op = OpGet)) as [Eg|Hg].
  - destruct Ho as (k' & Ek & Hk' & Hv). assert (k' = k) as -> by lia.
    exists (replay (take k C)).1; split; [unfold storeStep, inputOf; simpl; rewrite decide_True by done; simpl; by rewrite Hv, String.eqb_refl|].
    apply IH; try done; [intros; apply Hge; by right|]. intros p' Hp' op' Hf' Hg'.
    destruct (Hw p' Hp' op' Hf' Hg') as (x' & [->|Hin']%elem_of_cons & E); [lia|eauto].
  - assert (p = k) as -> by lia. exists (execOp op (replay (take k C)).1).
    assert (Hkt : knownType op) by (rewrite Forall_forall in known; apply known; eapply list_elem_of_lookup_2, Hf).
    split; [by apply write_step|]. rewrite <- (firstAt_replay k op Hf).
    assert (Hlt : (k < length C)%nat) by (eapply lookup_lt_Some, Hf).
    assert (Hlater : forall x', x' ∈ xs -> (2 * S k <= x'.1.1)%nat).
    { intros x' Hin'; specialize (Hx x' Hin'); unfold notAfter in Hx. destruct (decide (x'.1.1 = 2 * k + 1)%nat) as [E'|]; [|lia].
      rewrite Forall_forall in Hok; destruct (Hok x' Hin') as (op' & p' & Hf' & Hid' & _ & Ho').
      destruct (decide (Type_ op' = OpGet)); [destruct Ho' as (? & ? & _); lia|]. assert (p' = k) as -> by lia.
      destruct Hf as [Hf _], Hf' as [Hf' _]. rewrite Hf in Hf'; injection Hf' as <-.
      destruct Hxnd. rewrite <- Hid, Hid'. by apply list_elem_of_fmap_2, list_elem_of_fmap_2. }
    apply (IHd (length C - S k)%nat ltac:(lia) (S k) eq_refl xs); try done; try lia.
    intros p Hp op' Hf' Hg'. destruct (Hw p ltac:(lia) op' Hf' Hg') as (x' & [->|Hin']%elem_of_cons & E); [lia|eauto].
Qed.

(** Operations with points that respect real time are linearizable, if every
    write of the log is among them. *)
Lemma points_linearizable xs :
  Forall (pointOk C) xs -> NoDup (xs.*1.*2) -> (forall p, written xs p) ->
  (forall x x', x ∈ xs -> x' ∈ xs -> Return x.2 < Call x'.2 -> (x.1.1 < x'.1.1)%nat) ->
  linearizable storeModel xs.*2.
Proof.
  intros Hok Hnd Hw Hrt; apply linearizable_arranged. set (l := merge_sort notAfter xs).
  assert (Hp : l ≡ₚ xs) by apply merge_sort_Permutation. exists l.*2; split_and!.
  - by rewrite Hp.
  - assert (Hs : StronglySorted notAfter l) by (apply StronglySorted_merge_sort; apply _).
    assert (Hin : forall x, x ∈ l -> x ∈ xs) by (intros x; by rewrite Hp).
    clear -Hs Hin Hrt. induction Hs as [|x l Hs IH Hx]; [constructor|]. rewrite fmap_cons; constructor.
    + apply IH; intros; apply Hin; by right.
    + apply Forall_fmap, Forall_forall; intros x' Hx'. rewrite Forall_forall in Hx; specialize (Hx x' Hx'); unfold notAfter in Hx.
      unfold mayPrecede; simpl; intros Hlt. specialize (Hrt x' x ltac:(apply Hin; by right) ltac:(apply Hin; left) Hlt). lia.
  - change (Init storeModel) with (replay (take 0 C)).1. apply accepts_from; [lia| | | |intros; lia|].
    + apply StronglySorted_merge_sort; apply _.
    + by rewrite Hp.
    + by rewrite Hp.
    + intros p _ op Hf Hg. destruct (Hw p op Hf Hg) as (x & Hx & E). exists x; by rewrite Hp.
Qed.
End linear.
