(* ===== verification/KvSystemInv.v ===== *)
(** * kvraft: the invariant of the whole service

    What the executions of [KvSystem] keep true of the servers, the RPCs and the
    clerks. Values that the code does not have appear in it: the committed log
    [C], as far as any peer has sent it to its server; the prefix of it that a
    server holds; and the points [recs] at which the logged operations took
    effect ([KvLinear]). *)

From S2P Require Import Prelude Checker Linearizability Porcupine KvLocality Gob RaftTypes.
From S2P Require Import RaftSnapshot KvServer KvFacts KvClerk.
From S2P Require Import KvSystem KvLinear.

#[local] Open Scope string_scope.
#[local] Open Scope Z_scope.
#[local] Open Scope list_scope.

Implicit Types (C more reqs : list Op) (op : Op) (kv : KVServer) (pq msgs : list (ApplyMsg Op)) (m : ApplyMsg Op).
Implicit Types (sv : list (KVServer * list (ApplyMsg Op))) (q : rpc) (recs : list point) (k : nat) (d : bytes).

(** ** Servers and RPCs *)

Definition dataAt C k kv : Prop := (kvMap kv, lastSeq kv) = replay (take k C).

(** A snapshot through [x] of what the log prescribes; or none. *)
Definition snapshotAt C (x : Z) d : Prop :=
  exists j src, (j <= length C)%nat /\ x = Z.of_nat j /\ d = encodeSnapshot src /\ atPrefix C j src.
Definition snapped C (x : Z) d : Prop := (x = 0 /\ d = []) \/ snapshotAt C x d.

(** A server at prefix [k] of the log, whose peer has come to [pos]: it is yet to
    be sent the commands [pq], some of which an installed snapshot may have
    overtaken; if no snapshot is under way to it, [pos] is where it will be. *)
Definition serverOk (maxraft : Z) C kv pq (coming : Prop) (pos : Z) k : Prop :=
  chanWf kv /\ maxraftstate kv = maxraft /\ dataAt C k kv
  /\ exists a : nat, (a <= k)%nat
       /\ (forall j m, pq !! j = Some m -> exists op, C !! (a + j)%nat = Some op /\ m = commandMsg (Some op) (Z.of_nat (S (a + j))))
       /\ (k `max` (a + length pq) <= length C)%nat /\ Z.of_nat (k `max` (a + length pq)) <= pos <= Z.of_nat (length C)
       /\ (~ coming -> Z.of_nat (k `max` (a + length pq)) = pos).

(** The channel of a waiting handler: no other key has it, and a signal in it
    is for the operation of the handler. *)
Definition chanOk C k kv (ch : nat) op : Prop :=
  onlyKey ch (helpKey (ClientId op) (SeqNum op)) kv /\ (chans kv !! ch = Some true -> opId op ∈ opId <$> take k C).

Definition answerOk C (rq : request) (a : answer) : Prop :=
  match rq, a with
  | RGet args, AGet reply =>
      gr_Err reply = ErrWrongLeader
      \/ exists k, (k <= length C)%nat /\ opId (getOp args) ∈ opId <$> take k C
           /\ gr_Err reply ∈ [OK; ErrNoKey]
           /\ (if decide (gr_Err reply = OK) then gr_Value reply else "") = default "" ((replay (take k C)).1 !! ga_Key args)
  | RPutAppend args, APutAppend reply =>
      pr_Err reply = ErrWrongLeader \/ (pr_Err reply = OK /\ opId (putAppendOp args) ∈ opId <$> C)
  | _, _ => False
  end.

(** [K] is the prefix that each server holds. *)
Definition rpcOk C (K : Z -> nat) sv q : Prop :=
  match q_stage q with
  | RpcRegistered ch | RpcWaiting ch =>
      exists kv pq, idx sv (q_server q) = Some (kv, pq) /\ chanOk C (K (q_server q)) kv ch (requestOp (q_request q))
  | RpcReplied a => answerOk C (q_request q) a
  | _ => True
  end.

Section grow.
Lemma take_more C more k : (k <= length C)%nat -> take k (C ++ more) = take k C.
Proof. intros; by rewrite take_app_le. Qed.

Lemma taken_more C more k op : opId op ∈ opId <$> take k C -> opId op ∈ opId <$> take k (C ++ more).
Proof. intros Hin. rewrite take_app, fmap_app. apply elem_of_app; by left. Qed.

Lemma taken_later C k k' i : (k <= k')%nat -> i ∈ opId <$> take k C -> i ∈ opId <$> take k' C.
Proof.
  intros Hle Hin. replace k' with (k + (k' - k))%nat by lia. rewrite <- take_take_drop, fmap_app. apply elem_of_app; by left.
Qed.

Lemma atPrefix_more C more k kv : (k <= length C)%nat -> atPrefix C k kv -> atPrefix (C ++ more) k kv.
Proof. intros Hk [? ?]; split; [by rewrite take_more|done]. Qed.

Lemma snapshotAt_more C more x d : snapshotAt C x d -> snapshotAt (C ++ more) x d.
Proof. intros (j & src & ? & ? & ? & ?); exists j, src; rewrite length_app; split_and!; try done; [lia|by apply atPrefix_more]. Qed.

Lemma snapped_more C more x d : snapped C x d -> snapped (C ++ more) x d.
Proof. intros [|]; [by left|right; by apply snapshotAt_more]. Qed.

Lemma chanOk_more C more k kv ch op : chanOk C k kv ch op -> chanOk (C ++ more) k kv ch op.
Proof. intros [? Hs]; split; [done|]. intros; by apply taken_more, Hs. Qed.

Lemma serverOk_more maxraft C more kv pq coming pos k :
  serverOk maxraft C kv pq coming pos k -> serverOk maxraft (C ++ more) kv pq coming pos k.
Proof.
  intros (? & ? & Hst & a & Ha & Hm & Hle & Hpos & ?); split; [done|]; split; [done|].
  split; [unfold dataAt; by rewrite take_more by lia|]. exists a; rewrite length_app; split_and!; try done; try lia.
  intros j m Hj; destruct (Hm j m Hj) as (op & Hop & ->). exists op; split; [by apply lookup_app_l_Some|done].
Qed.

Lemma answerOk_more C more rq a : answerOk C rq a -> answerOk (C ++ more) rq a.
Proof.
  destruct rq, a; simpl; try done.
  - intros [|(k & Hk & Hin & ? & Hv)]; [by left|right]. exists k. rewrite take_more by done. rewrite length_app; split_and!; try done; lia.
  - intros [|[? Hin]]; [by left|right]. split; [done|]. rewrite fmap_app; apply elem_of_app; by left.
Qed.

Lemma rpcOk_more C more K sv q : rpcOk C K sv q -> rpcOk (C ++ more) K sv q.
Proof.
  unfold rpcOk; destruct (q_stage q); try done; try (intros (kv & pq & ? & ?); exists kv, pq; split; [done|by apply chanOk_more]).
  apply answerOk_more.
Qed.

Lemma pointOk_more C more x : pointOk C x -> pointOk (C ++ more) x.
Proof.
  intros (op & p & [Hp Hn] & ? & ? & Ho); exists op, p; split; [|split; [done|]; split; [done|]].
  - split; [by apply lookup_app_l_Some|]. apply lookup_lt_Some in Hp. by rewrite take_more by lia.
  - case_decide; [|done]. destruct Ho as (k & ? & ? & Hv). exists k; rewrite take_more by lia. rewrite length_app; split_and!; try done; lia.
Qed.

(** The points of the logged operations are in the log. *)
Lemma pointOk_le C x : pointOk C x -> (x.1.1 <= 2 * length C)%nat.
Proof.
  intros (op & p & [Hp _] & _ & _ & Ho). apply lookup_lt_Some in Hp. case_decide; [destruct Ho as (k & ? & ? & _)|]; lia.
Qed.
End grow.

(** ** One server takes a step *)

Section server.
Lemma replay_table ops st op :
  default 0 (st.2 !! ClientId op) <= default 0 ((foldl applyOp st ops).2 !! ClientId op).
Proof.
  revert st; induction ops as [|o ops IH]; intros st; simpl; [done|]. etransitivity; [|apply IH]. unfold applyOp.
  case_if; simpl; [done|]. destruct (decide (ClientId o = ClientId op)) as [Eid|]; [|by rewrite lookup_insert_ne].
  rewrite Eid, lookup_insert_eq; simpl. rewrite Eid in *. lia.
Qed.

(** The table of duplicates has every operation of the prefix. *)
Lemma replay_seen C a k op :
  C !! a = Some op -> (a < k)%nat -> SeqNum op <= default 0 ((replay (take k C)).2 !! ClientId op).
Proof.
  intros Hop Hlt. replace k with (S a + (k - S a))%nat by lia. rewrite <- take_take_drop. unfold replay; rewrite foldl_app.
  etransitivity; [|apply replay_table]. change (foldl applyOp (∅, ∅) (take (S a) C)) with (replay (take (S a) C)).
  rewrite (replay_take_S C a op Hop). unfold applyOp; case_if; simpl; [done|]. by rewrite lookup_insert_eq.
Qed.

Lemma chanOk_step C e kv kv' k k' :
  kvExec e kv = Some kv' -> (k <= k')%nat ->
  (forall op, appliesId (ClientId op) (SeqNum op) e -> opId op ∈ opId <$> take k' C) ->
  forall ch op, chanOk C k kv ch op -> chanOk C k' kv' ch op.
Proof.
  intros He Hle Hap ch op [Ho Hs]. destruct (kvExec_only e _ _ ch kv kv' Ho He) as [Ho' Hor].
  split; [done|]. intros Hc; destruct (Hor Hc) as [Hold|Hnew]; [|by apply Hap]. by eapply taken_later, Hs.
Qed.

(** The RPCs do not notice if one server keeps the channels of its handlers. *)
Lemma rpcOk_server C (K K' : Z -> nat) sv sv' i kv pq kv' pq' q :
  idx sv i = Some (kv, pq) -> upd sv i (kv', pq') = Some sv' -> (forall j, j <> i -> K' j = K j) ->
  (forall ch op, chanOk C (K i) kv ch op -> chanOk C (K' i) kv' ch op) -> rpcOk C K sv q -> rpcOk C K' sv' q.
Proof.
  intros Hi Hu HK Hch; unfold rpcOk; destruct (q_stage q); try done; intros (kv0 & pq0 & Hi0 & Hc0);
    (destruct (decide (i = q_server q)) as [E|Hne];
      [rewrite <- E, Hi in Hi0; injection Hi0 as <- <-; exists kv', pq'; rewrite <- E, (idx_upd_eq _ _ _ _ Hu); rewrite <- E in Hc0; auto
      |exists kv0, pq0; rewrite (idx_upd_ne _ _ _ _ _ Hu), HK by congruence; done]).
Qed.

Lemma chanWf_exec e kv kv' : chanWf kv -> kvExec e kv = Some kv' -> chanWf kv'.
Proof.
  intros Hw; destruct e as [size m|key|key]; cbn [kvExec]; intros He.
  - unfold guardApply in He; destruct (SnapshotValid m).
    + simplify_eq/=. destruct (decodeSnapshot_chans (Snapshot_ m) kv) as [E1 E2].
      intros key ch; simpl; rewrite E1, E2; apply Hw.
    + destruct (msgCommand m) as [op|]; [|done]. cbn in He; injection He as <-.
      destruct (applyCommand_chans size op (CommandIndex m) kv) as (ls & mp & ->).
      match goal with |- chanWf (notify ?key ?kv0) => destruct (notify_spec key kv0) as (E1 & E2 & _) end.
      intros key ch; rewrite E1, E2; apply Hw.
  - simplify_eq/=. intros key' ch; simpl. rewrite length_app; simpl. intros [[_ <-]|[_ Hk%Hw]]%lookup_insert_Some; lia.
  - simplify_eq/=. intros key' ch; simpl; intros [_ Hk]%lookup_delete_Some. by apply Hw in Hk.
Qed.

Lemma applyCommand_limit size op index kv : maxraftstate (applyCommand size op index kv).1 = maxraftstate kv.
Proof. unfold applyCommand; case_if; simpl; unfold notify; simpl; by destruct (chanMap kv !! _). Qed.

Lemma applyCommand_snapshot size op index kv x d :
  (applyCommand size op index kv).2 = Some (x, d) ->
  x = kv_lastApplied (applyCommand size op index kv).1 /\ d = encodeSnapshot (applyCommand size op index kv).1 /\ maxraftstate kv <> -1.
Proof.
  unfold applyCommand; destruct (_ <=? _); simpl; [done|].
  set (kv1 := notify _ _). assert (E1 : maxraftstate kv1 = maxraftstate kv) by (unfold kv1, notify; simpl; by destruct (chanMap kv !! _)).
  rewrite E1; case_if; [|done]. intros [= <- <-]. by destruct_and?.
Qed.

(** The command at position [a], when the server is at prefix [k]. *)
Lemma apply_data C a k size op kv :
  C !! a = Some op -> (a <= k)%nat -> dataAt C k kv ->
  let r := applyCommand size op (Z.of_nat (S a)) kv in
  dataAt C (k `max` S a) r.1 /\ forall x d, r.2 = Some (x, d) -> x = Z.of_nat (S a) /\ snapshotAt C x d /\ maxraftstate kv <> -1.
Proof.
  intros Hop Hle Hk r. pose proof (lookup_lt_Some _ _ _ Hop). destruct (decide (a < k)%nat) as [Hlt|].
  - assert (Hd : SeqNum op <= seqOf kv (ClientId op)).
    { unfold seqOf. replace (lastSeq kv) with (replay (take k C)).2 by (by rewrite <- Hk). by apply (replay_seen C a). }
    assert (Er : r = (notify (helpKey (ClientId op) (SeqNum op)) (set_data (lastSeq kv) (kvMap kv) (Z.of_nat (S a)) kv), None)).
    { unfold r, applyCommand. by rewrite (proj2 (Z.leb_le _ _) Hd). }
    rewrite Er; simpl. split; [|done]. unfold dataAt. destruct (notify_data (helpKey (ClientId op) (SeqNum op)) (set_data (lastSeq kv) (kvMap kv) (Z.of_nat (S a)) kv)) as (-> & -> & _).
    rewrite Nat.max_l by lia. done.
  - assert (a = k) as -> by lia. rewrite Nat.max_r by lia.
    destruct (applyCommand_at C k op size (set_data (lastSeq kv) (kvMap kv) (Z.of_nat k) kv) Hop) as [Hat _]; [by split|].
    change (applyCommand size op (Z.of_nat (S k)) (set_data (lastSeq kv) (kvMap kv) (Z.of_nat k) kv)) with r in Hat.
    split; [apply Hat|]. intros x d Ho. destruct (applyCommand_snapshot _ _ _ _ _ _ Ho) as (-> & -> & ?). fold r.
    split; [apply Hat|]. split; [|done]. exists (S k), r.1. split; [lia|]. split; [apply Hat|]. by split.
Qed.

(** The server takes the next command. *)
Lemma serverOk_apply maxraft C size kv m pq coming pos k :
  serverOk maxraft C kv (m :: pq) coming pos k ->
  exists kv' o k', guardApply size m kv = Some (kv', o) /\ serverOk maxraft C kv' pq coming pos k'
    /\ (forall ch op, chanOk C k kv ch op -> chanOk C k' kv' ch op)
    /\ (forall x d, o = Some (x, d) -> snapshotAt C x d /\ x <= pos /\ maxraft <> -1).
Proof.
  intros (Hw & Hmax & Hk & a & Ha & Hm & Hle & Hpos & Hcom). destruct (Hm 0%nat m eq_refl) as (op & Hop & ->). rewrite Nat.add_0_r in *.
  simpl in Hle, Hpos, Hcom.
  destruct (apply_data C a k size op kv Hop Ha Hk) as [Hd Hs].
  assert (Hg : guardApply size (commandMsg (Some op) (Z.of_nat (S a))) kv = Some (applyCommand size op (Z.of_nat (S a)) kv)) by done.
  pose proof (applyCommand_limit size op (Z.of_nat (S a)) kv) as Hl.
  destruct (applyCommand size op (Z.of_nat (S a)) kv) as [kv' o]; simpl in *.
  assert (He : kvExec (EvApply size (commandMsg (Some op) (Z.of_nat (S a)))) kv = Some kv') by (unfold kvExec; by rewrite Hg).
  exists kv', o, (k `max` S a)%nat. split; [done|]. split; [|split].
  - split; [by eapply chanWf_exec|]. split; [congruence|]. split; [done|]. exists (S a).
    replace (k `max` S a `max` (S a + length pq))%nat with (k `max` (a + S (length pq)))%nat by lia.
    split_and!; try done; try lia. intros j m Hj; destruct (Hm (S j) m Hj) as (op' & ? & ->). exists op'. rewrite <- plus_n_Sm in *. done.
  - apply (chanOk_step C _ kv kv' k _ He); [lia|].
    intros op' (? & ? & op0 & [= _ <-] & _ & [= <-] & E1 & E2). apply list_elem_of_fmap. exists op; split; [unfold opId; congruence|].
    apply list_elem_of_lookup; exists a. by rewrite lookup_take_lt by lia.
  - intros x d Ho. destruct (Hs x d Ho) as (-> & ? & ?). split_and!; [done|lia|congruence].
Qed.

(** The server takes an installed snapshot. *)
Lemma serverOk_install maxraft C size kv pq coming coming' x d t k :
  serverOk maxraft C kv pq coming x k -> snapshotAt C x d ->
  exists kv' k', guardApply size (mkApplyMsg false None 0 true d t x) kv = Some (kv', None) /\ serverOk maxraft C kv' pq coming' x k'
    /\ (forall ch op, chanOk C k kv ch op -> chanOk C k' kv' ch op).
Proof.
  intros (Hw & Hmax & Hk & a & Ha & Hm & Hle & Hpos & _) (j & src & Hj & -> & -> & [Hs Hla]).
  set (m := mkApplyMsg false None 0 true (encodeSnapshot src) t (Z.of_nat j)).
  set (kv' := set_data (lastSeq src) (kvMap src) (Z.of_nat j) kv).
  assert (Hg : guardApply size m kv = Some (kv', None)).
  { unfold guardApply; cbn [SnapshotValid Snapshot_ SnapshotIndex m]. by rewrite decode_encode. }
  assert (He : kvExec (EvApply size m) kv = Some kv') by (unfold kvExec; by rewrite Hg).
  exists kv', j; split; [exact Hg|]. split.
  - split; [by eapply chanWf_exec|]. split; [done|]. split; [done|]. exists a. rewrite Nat.max_l by lia. split_and!; try done; lia.
  - apply (chanOk_step C _ kv kv' k j He); [lia|]. by intros op (? & ? & ? & [= _ <-] & ? & _).
Qed.

(** A step of a server between two messages. *)
Lemma serverOk_quiet maxraft C e kv kv' pq coming pos k :
  (forall size m, e <> EvApply size m) -> kvExec e kv = Some kv' -> serverOk maxraft C kv pq coming pos k ->
  serverOk maxraft C kv' pq coming pos k /\ forall ch op, chanOk C k kv ch op -> chanOk C k kv' ch op.
Proof.
  intros Hne He (Hw & Hmax & Hst & Hrest).
  assert (Hd : kvMap kv' = kvMap kv /\ lastSeq kv' = lastSeq kv /\ maxraftstate kv' = maxraftstate kv)
    by (destruct e as [size m| |]; [by destruct (Hne size m)|by simplify_eq/=|by simplify_eq/=]).
  destruct Hd as (E1 & E2 & E3). split.
  - split; [by eapply chanWf_exec|]. split; [congruence|]. split; [|done]. unfold dataAt; congruence.
  - apply (chanOk_step C e kv kv' k k He); [lia|]. intros op (size & m & op' & -> & _). by destruct (Hne size m).
Qed.

(** A server that starts from what its peer has stored. *)
Lemma serverOk_start maxraft C ps coming x :
  snapped C x (ReadSnapshot ps) -> exists k, serverOk maxraft C (StartKVServer ps maxraft) [] coming x k.
Proof.
  assert (Hwf : chanWf (StartKVServer ps maxraft)).
  { assert (E : chanMap (StartKVServer ps maxraft) = ∅).
    { unfold StartKVServer; destruct (ReadSnapshot ps); [done|]. by rewrite (proj1 (decodeSnapshot_chans _ _)). }
    intros key ch; rewrite E. by rewrite lookup_empty. }
  intros [[-> Hd]|(j & src & Hj & -> & Hd & [Hs Hla])].
  - exists 0%nat. split; [done|]. unfold StartKVServer in *; rewrite Hd in *. split; [done|]. split; [done|].
    exists 0%nat; simpl; split_and!; done || lia.
  - exists j. split; [done|].
    assert (E : StartKVServer ps maxraft = set_data (lastSeq src) (kvMap src) (kv_lastApplied src) (mkKVServer ∅ [] ∅ ∅ false 0 maxraft)).
    { rewrite <- decode_encode, <- Hd. unfold StartKVServer. by destruct (ReadSnapshot ps). }
    rewrite E; simpl. split; [done|]. split; [done|]. exists j. simpl. rewrite Nat.max_l by lia. split_and!; try done; lia.
Qed.

(** A fresh channel. *)
Lemma chanOk_register C k kv op :
  chanWf kv -> let '(kv', ch) := register (helpKey (ClientId op) (SeqNum op)) kv in chanOk C k kv' ch op.
Proof.
  intros Hw; pose proof (register_only (ClientId op) (SeqNum op) kv Hw) as Hr.
  destruct (register _ kv) as [kv' ch]. destruct Hr as [Ho Hf]. split; [done|]. rewrite Hf; discriminate.
Qed.

(** The answers of a handler. *)
Lemma answerOf_spec rq w kv kv' a :
  answerOf rq w kv = (kv', a) -> kv' = unregister (requestKey rq) kv.
Proof. destruct rq; simpl; by intros [= <- _]. Qed.

Lemma answerOk_end maxraft C rq w kv pq coming pos k kv' a :
  serverOk maxraft C kv pq coming pos k -> answerOf rq w kv = (kv', a) ->
  (w = Signalled -> opId (requestOp rq) ∈ opId <$> take k C) -> answerOk C rq a.
Proof.
  intros (_ & _ & Hst & a0 & _ & _ & Hle & _) Ha Hw. assert (Hm : kvMap kv = (replay (take k C)).1) by (by rewrite <- Hst).
  destruct rq as [args|args]; simpl in *; injection Ha as <- <-; simpl.
  - destruct w; [by left| |by left]. right. specialize (Hw eq_refl).
    exists k; split_and!; [lia|done| |]; rewrite Hm; destruct ((replay _).1 !! ga_Key args); simpl; try done; set_solver.
  - destruct w; [by left| |by left]. right; split; [done|]. specialize (Hw eq_refl).
    rewrite <- (take_drop k C), fmap_app. apply elem_of_app; by left.
Qed.
End server.

(** ** Clerks *)

Definition underway (p : Clerk * option busy) : Clerk * option Op :=
  (p.1, (fun b => requestOp (requestOf (b_command b) p.1)) <$> p.2).

Implicit Types (rqs : list request) (cks : gmap Z (Clerk * option busy)) (log : list kvop) (clock : Z).

(** A clerk in a call: its request, and a position that was the end of the log
    when the call began. *)
Record busyOk C recs rqs clock (id : Z) (ck : Clerk) (b : busy) : Prop := {
  bo_start : b_start b <= clock;
  bo_sent : forall rq, rq ∈ rqs -> opId (requestOp rq) = (id, seqNum ck) -> requestOp rq = requestOp (requestOf (b_command b) ck);
  bo_rpc : forall r, b_rpc b = Some r -> rqs !! r = Some (requestOf (b_command b) ck);
  bo_began : exists L, (L <= length C)%nat /\ (id, seqNum ck) ∉ opId <$> take L C
    /\ forall x, x ∈ recs -> Return x.2 < b_start b -> (x.1.1 <= 2 * L)%nat;
}.

Record clerksOk C recs rqs cks log clock : Prop := {
  co_sys : sysInv (mkSystem (underway <$> cks) (requestOp <$> rqs) C);
  co_known : Forall knownType (requestOp <$> rqs);
  co_same : forall rq rq', rq ∈ rqs -> rq' ∈ rqs -> opId (requestOp rq) = opId (requestOp rq') -> requestOp rq = requestOp rq';
  co_busy : forall id ck b, cks !! id = Some (ck, Some b) -> busyOk C recs rqs clock id ck b;
  co_log : recs.*2 = log;
  co_ids : NoDup (recs.*1.*2);
  co_points : Forall (pointOk C) recs;
  co_old : forall x, x ∈ recs -> exists p, cks !! x.1.2.1 = Some p /\ x.1.2.2 < seqNum p.1;
  co_done : forall rq p, rq ∈ rqs -> cks !! ClientId (requestOp rq) = Some p -> SeqNum (requestOp rq) < seqNum p.1 ->
    exists x, x ∈ recs /\ x.1.2 = opId (requestOp rq);
  co_times : forall x, x ∈ recs -> Call x.2 <= Return x.2 <= clock;
  co_real : forall x x', x ∈ recs -> x' ∈ recs -> Return x.2 < Call x'.2 -> (x.1.1 < x'.1.1)%nat;
}.

Section clerk.
Lemma requestOf_id c ck : opId (requestOp (requestOf c ck)) = (clientId ck, seqNum ck).
Proof. by destruct c. Qed.

Lemma requestOf_known c ck : knownType (requestOp (requestOf c ck)).
Proof. destruct c; unfold knownType; simpl; auto. Qed.

Lemma requestOf_same c ck ck' : clientId ck' = clientId ck -> seqNum ck' = seqNum ck -> requestOf c ck' = requestOf c ck.
Proof. intros E1 E2; destruct c; unfold requestOf, GetArgs_of, PutAppendArgs_of; by rewrite E1, E2. Qed.

Lemma requestOf_input c ck : inputOf (requestOp (requestOf c ck)) = logInput c.
Proof. by destruct c. Qed.

Lemma sysInv_requests cs r r' C : (forall x, x ∈ r <-> x ∈ r') -> sysInv (mkSystem cs r C) -> sysInv (mkSystem cs r' C).
Proof.
  intros Hr (H1 & H2 & H3 & H4); unfold sysInv in *; cbn [clerks requests committed] in *. split_and!; [done|intros x Hx; by apply Hr, H2| |].
  - intros id ck o Hc; destruct (H3 id ck o Hc) as (? & ? & ? & Hi); split_and!; try done. intros Ho op Hop; apply Hi; [done|by apply Hr].
  - intros op Hop; by apply H4, Hr.
Qed.

Lemma sysInv_commits cs r C more : sysInv (mkSystem cs r C) -> Forall (fun op => op ∈ r) more -> sysInv (mkSystem cs r (C ++ more)).
Proof.
  intros Hs Hm; revert C Hs; induction Hm as [|op more Hop _ IH]; intros C Hs; [by rewrite app_nil_r|].
  replace (C ++ op :: more) with ((C ++ [op]) ++ more) by (by rewrite <- (assoc app)). apply IH. by apply (sysInv_commit _ op Hs).
Qed.

Lemma clerk_numbers C recs rqs cks log clock id ck b :
  clerksOk C recs rqs cks log clock -> cks !! id = Some (ck, b) ->
  clientId ck = id /\ 0 < seqNum ck
  /\ (b = None -> forall rq, rq ∈ rqs -> ClientId (requestOp rq) = id -> SeqNum (requestOp rq) < seqNum ck).
Proof.
  intros [(_ & _ & Hck & _)] Hc; cbn [clerks requests] in Hck.
  destruct (Hck id ck ((fun b => requestOp (requestOf (b_command b) ck)) <$> b)) as (? & ? & _ & Hi); [by rewrite lookup_fmap, Hc|].
  split_and!; try done. intros -> rq Hrq; apply Hi; [done|by apply list_elem_of_fmap_2].
Qed.

Lemma sys_set cks reqs C id ck b ck' b' :
  sysInv (mkSystem (underway <$> cks) reqs C) -> cks !! id = Some (ck, b) -> clientId ck' = clientId ck -> seqNum ck <= seqNum ck' ->
  (b' = None -> forall op, op ∈ reqs -> ClientId op = id -> SeqNum op < seqNum ck') ->
  (seqNum ck < seqNum ck' -> (id, seqNum ck) ∈ opId <$> C /\ seqNum ck' = seqNum ck + 1) ->
  sysInv (mkSystem (underway <$> <[id := (ck', b')]> cks) reqs C).
Proof.
  intros Hs Hc Eid Hle Hidle Hadv. rewrite fmap_insert.
  assert (Hu : (underway <$> cks) !! id = Some (ck, (fun b => requestOp (requestOf (b_command b) ck)) <$> b)) by (by rewrite lookup_fmap, Hc).
  pose proof Hs as (_ & _ & Hck & _). destruct (Hck id ck _ Hu) as (Hid & _).
  apply (sysInv_clerk _ id ck _ ck' _ Hs Hu); try done; [congruence| |].
  - destruct b'; simpl; [|done]. by rewrite requestOf_id, Eid, Hid.
  - destruct b'; [done|auto].
Qed.

Lemma busyOk_more C more recs rqs clock id ck b : busyOk C recs rqs clock id ck b -> busyOk (C ++ more) recs rqs clock id ck b.
Proof.
  intros [? ? ? (L & HL & Hn & Hr)]; split; try done. exists L; rewrite take_more, length_app by done. split_and!; try done; lia.
Qed.

Lemma busyOk_later C recs rqs clock clock' id ck b : clock <= clock' -> busyOk C recs rqs clock id ck b -> busyOk C recs rqs clock' id ck b.
Proof. intros Hle []; split; try done; lia. Qed.

Lemma clerks_commit C more recs rqs cks log clock :
  clerksOk C recs rqs cks log clock -> Forall (fun op => op ∈ requestOp <$> rqs) more -> clerksOk (C ++ more) recs rqs cks log clock.
Proof.
  intros [] Hm; split; try done.
  - by apply sysInv_commits.
  - intros; by apply busyOk_more, co_busy0.
  - rewrite Forall_forall in *. intros; by apply pointOk_more, co_points0.
Qed.

(** A clerk goes on with its call, or begins one. *)
Lemma clerks_set C recs rqs cks log clock clock' id ck b ck' b' :
  clerksOk C recs rqs cks log clock -> cks !! id = Some (ck, b) -> clientId ck' = clientId ck -> seqNum ck' = seqNum ck ->
  clock <= clock' -> busyOk C recs rqs clock' id ck' b' ->
  clerksOk C recs rqs (<[id := (ck', Some b')]> cks) log clock'.
Proof.
  intros HC Hc Eid Eseq Hclock Hb. destruct (clerk_numbers _ _ _ _ _ _ _ _ _ HC Hc) as (Hid & _ & _). destruct HC; split; try done.
  - apply (sys_set cks _ C id ck b ck' (Some b') co_sys0 Hc Eid); [lia|done|lia].
  - intros id' ck1 b1 [[<- [= <- <-]]|[Hne Hc1]]%lookup_insert_Some; [done|]. by eapply busyOk_later, co_busy0.
  - intros x Hx; destruct (co_old0 x Hx) as (p & Hp & ?). destruct (decide (x.1.2.1 = id)) as [E|Hne].
    + rewrite E, Hc in Hp; injection Hp as <-. rewrite E, lookup_insert_eq. eexists; split; [done|]; simpl in *; lia.
    + rewrite lookup_insert_ne by done; eauto.
  - intros rq p Hrq [[E <-]|[Hne Hp]]%lookup_insert_Some ?; [|by eapply co_done0]. eapply co_done0; [done|by rewrite <- E|]. simpl in *; lia.
  - intros x Hx; destruct (co_times0 x Hx); lia.
Qed.

Lemma clerks_make C recs rqs cks log clock n id :
  clerksOk C recs rqs cks log clock -> cks !! id = None ->
  clerksOk C recs rqs (<[id := (MakeClerk n id, None)]> cks) log clock.
Proof.
  intros [] Hc. assert (Hno : forall rq, rq ∈ rqs -> ClientId (requestOp rq) <> id).
  { intros rq Hrq E. destruct co_sys0 as (_ & _ & _ & Hreq). cbn [clerks requests] in Hreq.
    destruct (Hreq (requestOp rq)) as (ck & o & Hx & _); [by apply list_elem_of_fmap_2|]. rewrite lookup_fmap, E, Hc in Hx; done. }
  split; try done.
  - rewrite fmap_insert. apply (sysInv_make _ n id co_sys0); cbn [clerks requests]; [by rewrite lookup_fmap, Hc|].
    intros op (rq & -> & Hrq)%list_elem_of_fmap. by apply Hno.
  - intros id' ck1 b1 [[_ [=]]|[Hne Hc1]]%lookup_insert_Some. by apply co_busy0.
  - intros x Hx; destruct (co_old0 x Hx) as (p & Hp & ?). exists p; split; [|done]. rewrite lookup_insert_ne by congruence. done.
  - intros rq p Hrq [[E _]|[_ Hp]]%lookup_insert_Some; [by destruct (Hno rq Hrq)|]. by eapply co_done0.
Qed.

Lemma clerks_send C recs rqs cks log clock id ck b :
  clerksOk C recs rqs cks log clock -> cks !! id = Some (ck, Some b) ->
  clerksOk C recs (rqs ++ [requestOf (b_command b) ck]) cks log clock.
Proof.
  intros HC Hc. destruct (clerk_numbers _ _ _ _ _ _ _ _ _ HC Hc) as (Hid & _ & _). destruct HC. pose proof (co_busy0 id ck b Hc) as Hb.
  assert (Hin : forall rq, rq ∈ rqs ++ [requestOf (b_command b) ck] -> rq ∈ rqs \/ rq = requestOf (b_command b) ck).
  { intros rq [|?%list_elem_of_singleton]%elem_of_app; auto. }
  assert (Hself : opId (requestOp (requestOf (b_command b) ck)) = (id, seqNum ck)) by (by rewrite requestOf_id, Hid).
  split; try done.
  - rewrite fmap_app; eapply sysInv_requests; [|apply (sysInv_send _ id ck (requestOp (requestOf (b_command b) ck)) co_sys0); cbn [clerks]; rewrite lookup_fmap, Hc; reflexivity].
    intros x; cbn [fmap list_fmap requests]. rewrite elem_of_app, elem_of_cons, list_elem_of_singleton. tauto.
  - rewrite fmap_app; apply Forall_app; split; [done|]. apply Forall_cons; split; [apply requestOf_known|done].
  - intros rq rq' [Hq| ->]%Hin [Hq'| ->]%Hin E; [by apply co_same0| | |done].
    + apply (bo_sent _ _ _ _ _ _ _ Hb); congruence.
    + symmetry; apply (bo_sent _ _ _ _ _ _ _ Hb); congruence.
  - intros id' ck1 b1 Hc1. destruct (co_busy0 _ _ _ Hc1) as [? Hs Hr ?]; split; try done.
    + intros rq [Hq| ->]%Hin E; [by apply Hs|]. rewrite Hself in E; injection E as -> E. rewrite Hc in Hc1; by injection Hc1 as -> ->.
    + intros r Hb1. by apply lookup_app_l_Some, Hr.
  - intros rq p [Hq| ->]%Hin Hp Hlt; [by eapply co_done0|]. injection Hself as E1 E2. rewrite E1, Hc in Hp; injection Hp as <-. simpl in *; lia.
Qed.

(** A call returns: its operation is logged with its point. *)
Lemma clerks_return C recs rqs cks log clock now id ck b ck' (x : point) :
  clerksOk C recs rqs cks log clock -> cks !! id = Some (ck, Some b) -> clientId ck' = clientId ck -> seqNum ck' = seqNum ck + 1 ->
  clock <= now -> pointOk C x -> x.1.2 = (id, seqNum ck) -> Call x.2 = b_start b -> Return x.2 = now ->
  (forall x', x' ∈ recs -> Return x'.2 < b_start b -> (x'.1.1 < x.1.1)%nat) ->
  clerksOk C (recs ++ [x]) rqs (<[id := (ck', None)]> cks) (log ++ [x.2]) now.
Proof.
  intros HC Hc Eid Eseq Hnow Hx Exid Ecall Eret Hreal. destruct (clerk_numbers _ _ _ _ _ _ _ _ _ HC Hc) as (Hid & _ & _).
  destruct HC. destruct (co_busy0 id ck b Hc) as [Hstart _ _ _].
  assert (Hcom : (id, seqNum ck) ∈ opId <$> C).
  { destruct Hx as (op & p & [Hp _] & E & _). rewrite <- Exid, <- E. by apply list_elem_of_fmap_2, (list_elem_of_lookup_2 _ p). }
  assert (Hin : forall x', x' ∈ recs ++ [x] -> x' ∈ recs \/ x' = x).
  { intros x' [|?%list_elem_of_singleton]%elem_of_app; auto. }
  split; try done.
  - apply (sys_set cks _ C id ck (Some b) ck' None co_sys0 Hc Eid); [lia| |auto]. intros _ op Hop E. destruct co_sys0 as (_ & _ & _ & Hreq). destruct (Hreq op Hop) as (ck1 & o & Hc1 & ? & _).
    cbn [clerks] in Hc1; rewrite lookup_fmap, E, Hc in Hc1; injection Hc1 as <- _. lia.
  - intros id' ck1 b1 [[_ [=]]|[Hne Hc1]]%lookup_insert_Some. destruct (co_busy0 _ _ _ Hc1) as [? ? ? (L' & HL & Hn & Hr)]; split; try done; [lia|].
    exists L'; split_and!; try done. intros x' [Hx'| ->]%Hin Hlt; [by apply Hr|lia].
  - rewrite fmap_app; simpl; by rewrite co_log0.
  - rewrite !fmap_app; apply NoDup_app; split_and!; [done| |apply NoDup_singleton].
    intros i (x1 & -> & (x' & -> & Hx')%list_elem_of_fmap)%list_elem_of_fmap E%list_elem_of_singleton.
    destruct (co_old0 x' Hx') as (p & Hp & Hlt). rewrite E, Exid in *; simpl in *. rewrite Hc in Hp; injection Hp as <-. simpl in *; lia.
  - apply Forall_app; split; [done|]. by apply Forall_singleton.
  - intros x' [Hx'| ->]%Hin.
    + destruct (co_old0 x' Hx') as (p & Hp & Hlt). destruct (decide (x'.1.2.1 = id)) as [E|Hne].
      * rewrite E, Hc in Hp; injection Hp as <-. rewrite E, lookup_insert_eq. eexists; split; [done|]; simpl in *; lia.
      * rewrite lookup_insert_ne by done; eauto.
    + rewrite Exid; simpl. rewrite lookup_insert_eq. eexists; split; [done|]. simpl; lia.
  - intros rq p Hrq [[E <-]|[Hne Hp]]%lookup_insert_Some Hlt; simpl in Hlt.
    + destruct (decide (SeqNum (requestOp rq) = seqNum ck)) as [E'|].
      * exists x; split; [apply elem_of_app; right; by left|]. rewrite Exid. unfold opId; congruence.
      * destruct (co_done0 rq (ck, Some b) Hrq) as (x' & ? & ?); [congruence|simpl; lia|]. exists x'; split; [apply elem_of_app; by left|done].
    + destruct (co_done0 rq p Hrq Hp Hlt) as (x' & ? & ?). exists x'; split; [apply elem_of_app; by left|done].
  - intros x' [Hx'| ->]%Hin; [destruct (co_times0 x' Hx')|]; lia.
  - intros x1 x2 [H1| ->]%Hin [H2| ->]%Hin Hlt; [by apply co_real0|apply Hreal; [done|lia]| |lia].
    destruct (co_times0 x2 H2); lia.
Qed.
End clerk.
