(* ===== verification/KvSystemSteps.v ===== *)
(** * kvraft: what the events of the service do to its invariant

    The events of the peers and of the servers: what Raft does on its own,
    messages that are committed and sent, snapshots that are taken and installed,
    crashes. The events of the handlers and of the clerks, and the theorems, are
    in [KvSystemFacts]. *)

From stdpp Require Import functions.
From S2P Require Import Prelude Bitset Checker CheckerSearch Linearizability Porcupine KvLocality.
From S2P Require Import Gob RaftTypes RaftLog RaftElection RaftReplicate RaftSnapshot RaftPeer.
From S2P Require Import RaftLogFacts RaftSnapshotFacts RaftCluster RaftElectionSafety RaftPaths RaftLogSafety RaftWhole.
From S2P Require Import RaftStateSafety RaftApply KvServer KvFacts KvClerk KvSystem KvLinear.
From S2P Require Import KvSystemInv.

#[local] Open Scope string_scope.
#[local] Open Scope Z_scope.
#[local] Open Scope list_scope.

Implicit Types (C more : list Op) (op : Op) (kv : KVServer) (pq msgs : list (ApplyMsg Op)) (m : ApplyMsg Op).
Implicit Types (sv : list (KVServer * list (ApplyMsg Op))) (q : rpc) (rpcs : list rpc) (y : kvsys) (recs : list point).
Implicit Types (H : tree Op) (A : Z -> Z -> Z -> Prop) (ns : list (Raft Op)) (rf : Raft Op) (V : votes) (K : Z -> nat).
Implicit Types (rps : list (rep Op)) (sn : list (Z * Z * bytes)) (ins : list (Z * ApplyMsg Op)) (ev : event Op) (s : cluster Op).

Section service.
Context (n : nat) (maxraft : Z).

(** ** Peers, servers and RPCs *)

Record serviceOk H A C K ns rps sv sn ins rpcs : Prop := {
  so_tree : forall kt c p, H !! kt = Some (c, p) -> exists q, q ∈ rpcs /\ c = Some (requestOp (q_request q));
  so_settled : forall k op, C !! k = Some op -> settled n H A (Z.of_nat (S k)) (Some op);
  so_len : len sv = Z.of_nat n;
  so_peer : forall i rf, idx ns i = Some rf -> capped rf /\ snapped C (snapIndex rf) (snapshot rf);
  so_reps : forall r p args, rps !! r = Some p -> underWay p = Some args -> snapped C (LastIncludedIndex args) (Data args);
  so_srv : forall i kv pq rf, idx sv i = Some (kv, pq) -> idx ns i = Some rf ->
    serverOk maxraft C kv pq (i ∈ ins.*1) (covers rf) (K i);
  so_sn : forall i x d, (i, x, d) ∈ sn -> snapshotAt C x d /\ forall rf, idx ns i = Some rf -> x <= covers rf;
  so_ins : forall i m, (i, m) ∈ ins -> exists x d t, m = mkApplyMsg false None 0 true d t x /\ snapshotAt C x d
    /\ forall rf, idx ns i = Some rf -> covers rf = x;
  so_one : NoDup ins.*1;
  so_range : forall i m, (i, m) ∈ ins -> 0 <= i < Z.of_nat n;
  so_rpc : forall q, q ∈ rpcs -> rpcOk C K sv q;
}.

Lemma service_mono H H' A A' C K ns rps sv sn ins rpcs :
  serviceOk H A C K ns rps sv sn ins rpcs -> H ⊆ H' -> (forall i k t, A i k t -> A' i k t) ->
  (forall kt c p, H' !! kt = Some (c, p) -> H !! kt = Some (c, p) \/ exists q, q ∈ rpcs /\ c = Some (requestOp (q_request q))) ->
  serviceOk H' A' C K ns rps sv sn ins rpcs.
Proof.
  intros [] HH HA Hnew; split; try done.
  - intros kt c p Hk; destruct (Hnew kt c p Hk); eauto.
  - intros k op Hk; eapply settled_mono; eauto.
Qed.

(** More is committed. *)
Lemma service_more H A C more K ns rps sv sn ins rpcs :
  serviceOk H A C K ns rps sv sn ins rpcs ->
  (forall k op, (C ++ more) !! k = Some op -> settled n H A (Z.of_nat (S k)) (Some op)) ->
  serviceOk H A (C ++ more) K ns rps sv sn ins rpcs.
Proof.
  intros [] Hset; split; try done.
  - intros i rf Hi; destruct (so_peer0 i rf Hi); split; [done|by apply snapped_more].
  - intros r p args Hp Ha; by eapply snapped_more, so_reps0.
  - intros i kv pq rf Hi Hrf; by eapply serverOk_more, so_srv0.
  - intros i x d Hx; destruct (so_sn0 i x d Hx); split; [by apply snapshotAt_more|done].
  - intros i m Hm; destruct (so_ins0 i m Hm) as (x & d & t & ? & ? & ?). exists x, d, t; split_and!; try done. by apply snapshotAt_more.
  - intros q Hq; by eapply rpcOk_more, so_rpc0.
Qed.

Lemma serverOk_weak C kv pq (b b' : Prop) pos pos' k :
  serverOk maxraft C kv pq b pos k -> (b -> b') -> pos <= pos' <= Z.of_nat (length C) -> (~ b' -> pos' = pos) ->
  serverOk maxraft C kv pq b' pos' k.
Proof.
  intros (? & ? & ? & a & ? & ? & ? & ? & Hc) Hb Hle Heq. split; [done|]; split; [done|]; split; [done|].
  exists a; split_and!; try done; try lia. intros Hb'. rewrite (Heq Hb'). apply Hc. naive_solver.
Qed.

(** One server goes from [kv] to [kv'], and [ins'] are still under way. *)
Lemma service_server H A C K ns rps sv sv' sn ins ins' rpcs i kv pq kv' pq' k' :
  serviceOk H A C K ns rps sv sn ins rpcs -> idx sv i = Some (kv, pq) -> upd sv i (kv', pq') = Some sv' ->
  ins' `sublist_of` ins -> (forall j, j <> i -> j ∈ ins.*1 -> j ∈ ins'.*1) ->
  (forall rf, idx ns i = Some rf -> serverOk maxraft C kv' pq' (i ∈ ins'.*1) (covers rf) k') ->
  (forall ch op, chanOk C (K i) kv ch op -> chanOk C k' kv' ch op) ->
  serviceOk H A C (<[i := k']> K) ns rps sv' sn ins' rpcs.
Proof.
  intros [] Hi Hu Hsub Hkeep Hsrv Hch; split; try done.
  - by rewrite (upd_len _ _ _ _ Hu).
  - intros j kvj pqj rf Hj Hrf; destruct (decide (i = j)) as [<-|].
    + rewrite (idx_upd_eq _ _ _ _ Hu) in Hj; injection Hj as <- <-. rewrite fn_lookup_insert. eauto.
    + rewrite (idx_upd_ne _ _ _ _ _ Hu) in Hj by done. rewrite fn_lookup_insert_ne by done.
      specialize (so_srv0 j kvj pqj rf Hj Hrf). pose proof so_srv0 as (_ & _ & _ & a & _ & _ & _ & ? & Hc).
      destruct so_srv0 as (? & ? & ? & a' & ? & ? & ? & ? & Hc'). split; [done|]; split; [done|]; split; [done|].
      exists a'; split_and!; try done; try lia. intros Hn; apply Hc'. intros Hin; by apply Hn, Hkeep.
  - intros j m Hm; apply so_ins0. by eapply elem_of_sublist.
  - eapply sublist_NoDup; [exact so_one0|]. by apply fmap_sublist.
  - intros j m Hm; eapply so_range0. by eapply elem_of_sublist.
  - intros q Hq; eapply rpcOk_server; [exact Hi|exact Hu| | |by apply so_rpc0].
    + intros j Hj; by apply fn_lookup_insert_ne.
    + rewrite fn_lookup_insert; exact Hch.
Qed.

Lemma service_rpcs H A C K ns rps sv sn ins rpcs rpcs' :
  serviceOk H A C K ns rps sv sn ins rpcs -> (forall q, q ∈ rpcs -> exists q', q' ∈ rpcs' /\ q_request q' = q_request q) ->
  (forall q, q ∈ rpcs' -> rpcOk C K sv q) -> serviceOk H A C K ns rps sv sn ins rpcs'.
Proof.
  intros [] Hin Hok; split; try done. intros kt c p Hk; destruct (so_tree0 kt c p Hk) as (q & Hq & ->).
  destruct (Hin q Hq) as (q' & ? & <-); eauto.
Qed.

Lemma service_stage H A C K ns rps sv sn ins rpcs r st :
  serviceOk H A C K ns rps sv sn ins rpcs ->
  (forall q, rpcs !! r = Some q -> rpcOk C K sv (mkRpc (q_server q) (q_request q) st)) ->
  serviceOk H A C K ns rps sv sn ins (alter (fun q => mkRpc (q_server q) (q_request q) st) r rpcs).
Proof.
  intros HS Hst; eapply service_rpcs; [done| |].
  - intros q (r' & Hr')%list_elem_of_lookup. destruct (decide (r' = r)) as [->|Hne].
    + exists (mkRpc (q_server q) (q_request q) st); split; [|done]. apply (list_elem_of_lookup_2 _ r). by rewrite list_lookup_alter_eq, Hr'.
    + exists q; split; [|done]. apply (list_elem_of_lookup_2 _ r'). by rewrite list_lookup_alter_ne by done.
  - intros q (r' & Hr')%list_elem_of_lookup. rewrite list_lookup_alter in Hr'; case_decide; subst.
    + apply fmap_Some in Hr' as (q0 & Hq0 & ->). by apply Hst.
    + eapply so_rpc; [done|]. by eapply list_elem_of_lookup_2.
Qed.

(** ** Entries become committed *)

(** The messages of [guardKick] extend the log by what is new in them. *)
Lemma commits_extend V H LL A s msgs : forall C (a : nat),
  log_inv n V H LL A s ->
  (forall k op, C !! k = Some op -> settled n H A (Z.of_nat (S k)) (Some op)) -> (a <= length C)%nat ->
  (forall j m, msgs !! j = Some m -> exists op, m = commandMsg (Some op) (Z.of_nat (S (a + j))) /\ settled n H A (Z.of_nat (S (a + j))) (Some op)) ->
  exists more, (forall k op, (C ++ more) !! k = Some op -> settled n H A (Z.of_nat (S k)) (Some op))
    /\ (a + length msgs <= length (C ++ more))%nat
    /\ forall j m, msgs !! j = Some m -> exists op, (C ++ more) !! (a + j)%nat = Some op /\ m = commandMsg (Some op) (Z.of_nat (S (a + j))).
Proof.
  induction msgs as [|m msgs IH]; intros C a HI HC Ha Hm.
  { exists []; rewrite app_nil_r; split; [done|]; split; [simpl; lia|done]. }
  destruct (Hm 0%nat m eq_refl) as (op & -> & Hop). rewrite Nat.add_0_r in *.
  assert (Hnext : exists pre, (forall k op, (C ++ pre) !! k = Some op -> settled n H A (Z.of_nat (S k)) (Some op))
            /\ (C ++ pre) !! a = Some op).
  { destruct (decide (a < length C)%nat) as [Hlt|].
    - destruct (lookup_lt_is_Some_2 C a Hlt) as [op' Ho']. exists []; rewrite app_nil_r; split; [done|].
      rewrite Ho'. symmetry. by rewrite (settled_fun n V H LL A s _ _ _ HI Hop (HC a op' Ho')).
    - assert (a = length C) as -> by lia. exists [op]. split; [|by rewrite list_lookup_middle].
      intros k op' [|[Hk Hx]]%lookup_app_Some; [by apply HC|]. apply list_lookup_singleton_Some in Hx as [Hx <-].
      by replace k with (length C) by lia. }
  destruct Hnext as (pre & HC' & Hpre). pose proof (lookup_lt_Some _ _ _ Hpre).
  destruct (IH (C ++ pre) (S a) HI HC') as (more & Hmore & Hlen & Hj); [lia| |].
  { intros j m' Hj; destruct (Hm (S j) m' Hj) as (op' & E & ?). rewrite <- plus_n_Sm in *. eauto. }
  exists (pre ++ more). rewrite (assoc_L (++) C pre more). split; [exact Hmore|]. split; [simpl; lia|].
  intros [|j] m' Hm'; simpl in Hm'.
  - injection Hm' as <-. rewrite Nat.add_0_r. exists op; split; [by apply lookup_app_l_Some|done].
  - rewrite <- plus_n_Sm. by apply Hj.
Qed.


(** ** Steps of the peers *)

Section turn.
Context (s s' : cluster Op) (ev : event Op) (V : votes) (H : tree Op) (LL : leaderLogs Op) (A : Z -> Z -> Z -> Prop) (PP : list (list (Entry Op))).
Hypothesis Hinv : inv n V s.
Hypothesis HI : winv n V H LL A PP s.
Hypothesis HE : exec s ev = Some s'.

(** A message that the step hands to a goroutine. *)
Lemma installing_spec i m :
  (i, m) ∈ installing s ev ->
  installing s ev = [(i, m)] /\ exists args rf rf' r p, m = snapshotMsg args /\ reps s !! r = Some p /\ underWay p = Some args
    /\ idx (nodes s) i = Some rf /\ idx (nodes s') i = Some rf' /\ covers rf < LastIncludedIndex args /\ covers rf' = LastIncludedIndex args.
Proof.
  destruct ev; try (by intros ?%elem_of_nil); cbn [installing].
  destruct (reps s !! r) as [p|] eqn:Hp; [|by intros ?%elem_of_nil]; cbn [mbind option_bind].
  destruct (rp_stage p) as [| | |args|] eqn:Est; try (by intros ?%elem_of_nil).
  destruct (idx (nodes s) (rp_server p)) as [rf|] eqn:Hi; [|by intros ?%elem_of_nil]; cbn [mbind option_bind].
  destruct (InstallSnapshot now args rf) as [[[rf' reply] mo]|] eqn:HR; [|by intros ?%elem_of_nil]; cbn [mbind option_bind].
  destruct mo as [m0|]; [|by intros ?%elem_of_nil]; cbn [mbind option_bind]. intros [= -> ->]%list_elem_of_singleton. split; [done|].
  destruct (InstallSnapshot_turn _ _ _ _ _ _ HR) as [[_ [=]]|(Hlt & Es & _ & Hif)]. case_if_in Hif; destruct Hif as (Ela & _ & Em); [|done].
  injection Em as ->. exists args, rf, rf', r, p. split_and!; try done; [by apply underWay_install| |unfold covers; lia|unfold covers; lia].
  simpl in HE; unfold execRepHandle in HE. rewrite Hp in HE; cbn [mbind option_bind] in HE. rewrite Est in HE; rewrite Hi in HE; cbn [mbind option_bind] in HE.
  rewrite HR in HE; cbn [mbind option_bind] in HE. destruct (set_node (rp_server p) rf' s) as [s1|] eqn:Hs; [|done]; injection HE as <-.
  apply set_node_reps in Hs as (Hu & _). by apply (idx_upd_eq (nodes s) _ _ _ Hu).
Qed.

Definition own C : Prop := forall i rf, idx (nodes s) i = Some rf -> capped rf /\ snapped C (snapIndex rf) (snapshot rf).
Definition sent C : Prop := forall r p args, reps s !! r = Some p -> underWay p = Some args -> snapped C (LastIncludedIndex args) (Data args).
Definition taken C : Prop := forall i index data, ev = ESnapshot i index data ->
  snapshotAt C index data /\ forall rf, idx (nodes s) i = Some rf -> index <= covers rf.

(** What the step does to a peer, unless it applies or crashes. *)
Lemma node_turn C i rf rf' :
  own C -> sent C -> taken C -> applies ev = false -> idx (nodes s) i = Some rf -> idx (nodes s') i = Some rf' ->
  (capped rf' /\ snapped C (snapIndex rf') (snapshot rf'))
  /\ (covers rf' = covers rf \/ i ∈ (installing s ev).*1).
Proof.
  intros Ho Hsent Htaken Hap Hi Hi'. destruct (Ho i rf Hi) as [Hc Hs].
  destruct (winv_node n V H LL A PP s i rf HI Hi) as (P & _ & _ & Hv & _). pose proof (vw_range _ _ _ _ _ Hv) as Hr.
  destruct (ni_node _ _ _ (proj1 Hinv) _ _ Hi) as (_ & _ & Hd).
  pose proof (exec_turn n V H LL A PP s s' ev i rf rf' Hinv HI HE Hi Hi') as Ht.
  cut (snapped C (snapIndex rf') (snapshot rf') /\ (covers rf' = covers rf \/ i ∈ (installing s ev).*1)).
  { intros [? ?]; split; [|done]. split; [|done]. apply (turn_capped s ev i rf rf' Ht Hd); [lia|done]. }
  destruct Ht as [Hp|msgs -> _|now -> _|index data Eev HS|r now p args reply m Eev Hp Es Est HIn]; try done.
  - split; [|left; by apply covers_progress]. destruct Hp as [[= _ -> ->] _]; done.
  - destruct (Htaken i index data Eev) as [Hat Hle]. specialize (Hle rf Hi).
    destruct (Snapshot_fields _ _ _ _ HS) as (Ela & _ & Hif). case_if_in Hif; [rewrite Hif; by auto|]. destruct Hif as [Esi ->]. rewrite Esi. split; [by right|left].
    unfold covers in *; lia.
  - destruct (InstallSnapshot_turn _ _ _ _ _ _ HIn) as [[Hpr _]|(Hlt & Esi & Ed & Hif)].
    + split; [|left; by apply covers_progress]. destruct Hpr as [[= _ -> ->] _]; done.
    + rewrite Esi, Ed. split; [by apply (Hsent r p args Hp), underWay_install|].
      case_if_in Hif; destruct Hif as (Ela & _ & Em); [right|left; unfold covers; lia].
      rewrite Eev; cbn [installing]. rewrite Hp; cbn [mbind option_bind]. rewrite Est, Es, Hi; cbn [mbind option_bind]. rewrite HIn, Em. simpl. by left.
Qed.
End turn.

(** The peers move, and messages of installed snapshots come to be under way. *)
Lemma service_turn V H LL A PP C K s s' ev sv sn ins rpcs :
  inv n V s -> winv n V H LL A PP s -> next n V s s' -> exec s ev = Some s' -> applies ev = false -> taken s ev C ->
  serviceOk H A C K (nodes s) (reps s) sv sn ins rpcs -> (forall i, i ∈ (installing s ev).*1 -> i ∉ ins.*1) ->
  serviceOk H A C K (nodes s') (reps s') sv sn (ins ++ installing s ev) rpcs.
Proof.
  intros Hinv HI Hn HE Hap Htaken HS Hfree. pose proof HS as [].
  assert (Hturn : forall i rf', idx (nodes s') i = Some rf' -> exists rf, idx (nodes s) i = Some rf
    /\ (capped rf' /\ snapped C (snapIndex rf') (snapshot rf')) /\ (covers rf' = covers rf \/ i ∈ (installing s ev).*1)).
  { intros i rf' Hi'. destruct (exec_nodes_back n V s s' i rf' Hn Hi') as [rf Hi]. exists rf; split; [done|]. by eapply node_turn. }
  assert (Hnew : forall i m, (i, m) ∈ installing s ev -> exists x d t, m = mkApplyMsg false None 0 true d t x /\ snapshotAt C x d
    /\ (forall rf, idx (nodes s) i = Some rf -> covers rf < x) /\ forall rf', idx (nodes s') i = Some rf' -> covers rf' = x).
  { intros i m Hm. destruct (installing_spec s s' ev HE i m Hm) as (_ & args & rf & rf' & r & p & -> & Hp & Hu & Hi & Hi' & Hlt & Hcv).
    exists (LastIncludedIndex args), (Data args), (LastIncludedTerm args). split_and!; try done; [|congruence|congruence].
    destruct (so_reps0 r p args Hp Hu) as [[E _]|]; [|done].
    destruct (winv_node n V H LL A PP s i rf HI Hi) as (P & _ & _ & Hv & _). pose proof (vw_range _ _ _ _ _ Hv). unfold covers in Hlt; lia. }
  split; try done.
  - intros i rf' Hi'. by destruct (Hturn i rf' Hi') as (rf & _ & ? & _).
  - intros r p args Hp Ha. destruct (exec_underWay s s' ev r p args HE Hp Ha) as [(r0 & p0 & Hp0 & Ha0)|(i & rf & Hi & <- & <-)]; [by eapply so_reps0|].
    by apply (so_peer0 i rf Hi).
  - intros i kv pq rf' Hi Hi'. destruct (Hturn i rf' Hi') as (rf & Hrf & _ & Hor). eapply serverOk_weak; [by eapply so_srv0| | |].
    + rewrite fmap_app, elem_of_app; auto.
    + destruct (so_srv0 i kv pq rf Hi Hrf) as (_ & _ & _ & a & _ & _ & _ & Hpos & _). destruct Hor as [->|([i' m] & -> & Hm)%list_elem_of_fmap]; [lia|].
      destruct (Hnew i' m Hm) as (x & d & t & _ & (j & src & Hj & -> & _) & Hlt & Hcv). simpl in *. rewrite (Hcv rf' Hi'). specialize (Hlt rf Hrf). lia.
    + intros Hnot. destruct Hor as [|Hin]; [done|]. destruct Hnot. rewrite fmap_app. apply elem_of_app; by right.
  - intros i x d Hx. destruct (so_sn0 i x d Hx) as [? Hle]. split; [done|]. intros rf' Hi'. destruct (Hturn i rf' Hi') as (rf & Hrf & _ & Hor).
    specialize (Hle rf Hrf). destruct Hor as [->|([i' m] & -> & Hm)%list_elem_of_fmap]; [lia|].
    destruct (Hnew i' m Hm) as (x' & d' & t & _ & _ & Hlt & Hcv). simpl in *. rewrite (Hcv rf' Hi'). specialize (Hlt rf Hrf). lia.
  - intros i m [Hm|Hm]%elem_of_app; [|destruct (Hnew i m Hm) as (x & d & t & ? & ? & _ & ?); by exists x, d, t].
    destruct (so_ins0 i m Hm) as (x & d & t & ? & ? & Hcv). exists x, d, t; split_and!; try done. intros rf' Hi'.
    destruct (Hturn i rf' Hi') as (rf & Hrf & _ & [->|Hin]); [by apply Hcv|]. destruct (Hfree i Hin). by apply (list_elem_of_fmap_2 fst _ (i, m)).
  - rewrite fmap_app. apply NoDup_app; split_and!; [done|intros i Hi Hi'; by apply (Hfree i)|].
    destruct (installing s ev) as [|[i m] l] eqn:El; [constructor|]. destruct (installing_spec s s' ev HE i m) as [E _]; [rewrite El; by left|].
    rewrite E in El; injection El as <-. apply NoDup_singleton.
  - intros i m [Hm|Hm]%elem_of_app; [by eapply so_range0|].
    destruct (installing_spec s s' ev HE i m Hm) as (_ & args & rf & rf' & r & p & _ & _ & _ & Hi & _).
    rewrite <- (ni_len _ _ _ (proj1 Hinv)). by eapply idx_Some_range.
Qed.

Lemma settled_sent H A C K ns rps sv sn ins rpcs k v :
  serviceOk H A C K ns rps sv sn ins rpcs -> settled n H A k v -> exists op, v = Some op /\ op ∈ requestOp <$> (q_request <$> rpcs).
Proof.
  intros HS (l & k1 & t1 & e & Hp & _ & _ & Hk & He & Hc). destruct Hp as [_ Hs].
  destruct (Hs k e) as (p & _ & Ht); [lia|done|]. destruct (so_tree _ _ _ _ _ _ _ _ _ _ HS _ _ _ Ht) as (q & Hq & E).
  exists (requestOp (q_request q)); split; [congruence|]. by apply list_elem_of_fmap_2, list_elem_of_fmap_2.
Qed.

(** A peer sends what is committed next. *)
Lemma service_kick V LL PP H A C K s s' sv sv' sn ins rpcs i rf rf' kv msgs :
  winv n V H LL A PP s -> serviceOk H A C K (nodes s) (reps s) sv sn ins rpcs ->
  idx (nodes s) i = Some rf -> guardKick rf = Some (rf', msgs) -> upd (nodes s) i rf' = Some (nodes s') -> reps s' = reps s ->
  idx sv i = Some (kv, []) -> upd sv i (kv, msgs) = Some sv' -> i ∉ ins.*1 ->
  exists more, Forall (fun op => op ∈ requestOp <$> (q_request <$> rpcs)) more
    /\ serviceOk H A (C ++ more) K (nodes s') (reps s') sv' sn ins rpcs.
Proof.
  intros HI HS Hi HK Hu Er Hsv Hu' Hfree. destruct (winv_node _ _ _ _ _ _ _ _ _ HI Hi) as (P & _ & _ & Hv & Hnode).
  destruct (so_srv _ _ _ _ _ _ _ _ _ _ HS i kv [] rf Hsv Hi) as (Hw & Hmax & Hat & a & Ha & _ & Hle & Hpos & Hcov). specialize (Hcov Hfree).
  simpl in *; set (k := K i) in *.
  assert (Hkc : covers rf = Z.of_nat k) by lia.
  destruct (kick_msgs n H LL A i P rf rf' msgs Hnode Hv) as (Hix & Hcv' & Hm0); [lia|done|].
  assert (Hms : forall j m, msgs !! j = Some m -> exists op, m = commandMsg (Some op) (Z.of_nat (S (k + j)))
            /\ settled n H A (Z.of_nat (S (k + j))) (Some op)).
  { intros j m Hj. destruct (Hm0 m (list_elem_of_lookup_2 _ _ _ Hj)) as [E Hs].
    assert (Hci : CommandIndex m = Z.of_nat (S (k + j))).
    { assert (Hl : (CommandIndex <$> msgs) !! j = Some (CommandIndex m)) by (by rewrite list_lookup_fmap, Hj).
      rewrite Hix in Hl; apply lookup_seqZ in Hl as [-> _]. lia. }
    destruct (settled_sent _ _ _ _ _ _ _ _ _ _ _ _ HS Hs) as (op & Eop & _). rewrite Hci, Eop in *. by exists op. }
  destruct (commits_extend V H LL A _ msgs C k (wi_log _ _ _ _ _ _ _ HI) (so_settled _ _ _ _ _ _ _ _ _ _ HS) ltac:(lia) Hms) as (more & HC & Hlen & Hj).
  exists more; split.
  { apply Forall_forall; intros op (j & Hop)%list_elem_of_lookup.
    destruct (settled_sent _ _ _ _ _ _ _ _ _ _ (Z.of_nat (S (length C + j))) (Some op) HS) as (op' & [= <-] & ?); [|done].
    apply (HC (length C + j)%nat). rewrite lookup_app_r by lia. by replace (length C + j - length C)%nat with j by lia. }
  pose proof (service_more H A C more K _ _ sv sn ins rpcs HS HC) as HS'. clear HS. pose proof HS' as [].
  assert (Hpeer : forall j rfj, idx (nodes s') j = Some rfj -> (j = i /\ rfj = rf') \/ (j <> i /\ idx (nodes s) j = Some rfj)).
  { intros j rfj Hj0; destruct (decide (i = j)) as [<-|].
    - rewrite (idx_upd_eq _ _ _ _ Hu) in Hj0; injection Hj0 as <-. by left.
    - rewrite (idx_upd_ne _ _ _ _ _ Hu) in Hj0 by done. by right. }
  assert (Hcv : covers rf <= covers rf') by (pose proof (len_nonneg msgs); lia).
  split; try done.
  - by rewrite (upd_len _ _ _ _ Hu').
  - intros j rfj [[-> ->]|[_ Hj0]]%Hpeer; [|eauto]. destruct (so_peer0 i rf Hi) as [Hcap Hsn].
    destruct (guardKick_fields _ _ _ HK) as (Es & Ed & Ec & Ela). unfold capped; rewrite Es, Ed, Ec, Ela. split; [unfold capped in Hcap; lia|done].
  - intros r p args; rewrite Er; eauto.
  - intros j kvj pqj rfj Hkj [[-> ->]|[Hne Hj0]]%Hpeer.
    + rewrite (idx_upd_eq _ _ _ _ Hu') in Hkj; injection Hkj as <- <-. fold k.
      split; [done|]. split; [done|]. split; [unfold dataAt; by rewrite take_more by lia|]. exists k. unfold len in Hcv'.
      rewrite length_app in *. split_and!; try done; lia.
    + rewrite (idx_upd_ne _ _ _ _ _ Hu') in Hkj by done. eauto.
  - intros j x d Hx. destruct (so_sn0 j x d Hx) as [? Hxle]. split; [done|]. intros rfj [[-> ->]|[_ Hj0]]%Hpeer; [|eauto].
    specialize (Hxle rf Hi). lia.
  - intros j m Hm. destruct (so_ins0 j m Hm) as (x & d & t & ? & ? & Hx). exists x, d, t; split_and!; try done.
    intros rfj [[-> ->]|[_ Hj0]]%Hpeer; [|eauto]. destruct Hfree. by apply (list_elem_of_fmap_2 fst _ (i, m)).
  - intros q Hq. by apply (rpcOk_server (C ++ more) K K sv sv' i kv [] kv msgs q Hsv Hu' (fun _ _ => eq_refl) (fun _ _ Hx => Hx)), so_rpc0.
Qed.

(** A crash of [i]: its messages and its handlers are gone, its server starts
    from what is stored. *)
Lemma crashed_request i q : q_request (crashed i q) = q_request q.
Proof. unfold crashed; destruct (q_stage q); try done; by case_if. Qed.

Lemma fmap_crashed i rpcs : q_request <$> (crashed i <$> rpcs) = q_request <$> rpcs.
Proof. rewrite <- list_fmap_compose. apply list_fmap_ext; intros; apply crashed_request. Qed.

Lemma service_crash H A C K s s' sv sv' sn ins rpcs i now rf rf' kv' k' :
  serviceOk H A C K (nodes s) (reps s) sv sn ins rpcs -> exec s (ECrash i now) = Some s' ->
  idx (nodes s) i = Some rf -> durable rf -> 0 <= snapIndex rf -> restart now rf = Some rf' -> upd (nodes s) i rf' = Some (nodes s') ->
  upd sv i (kv', []) = Some sv' -> serverOk maxraft C kv' [] False (covers rf') k' ->
  serviceOk H A C (<[i := k']> K) (nodes s') (reps s') sv'
    (filter (fun x => x.1.1 <> i) sn) (filter (fun x => x.1 <> i) ins) (crashed i <$> rpcs).
Proof.
  intros [] HE Hi Hd Hpos Hr Hns Hsv Hok.
  assert (Hpeer : forall j rfj, idx (nodes s') j = Some rfj -> (j = i /\ rfj = rf') \/ (j <> i /\ idx (nodes s) j = Some rfj)).
  { intros j rfj Hj0; destruct (decide (i = j)) as [<-|].
    - rewrite (idx_upd_eq _ _ _ _ Hns) in Hj0; injection Hj0 as <-. by left.
    - rewrite (idx_upd_ne _ _ _ _ _ Hns) in Hj0 by done. by right. }
  split; try done.
  - intros kt c p Hk; destruct (so_tree0 kt c p Hk) as (q & Hq & ->). exists (crashed i q); rewrite crashed_request.
    split; [by apply list_elem_of_fmap_2|done].
  - by rewrite (upd_len _ _ _ _ Hsv).
  - intros j rfj [[-> ->]|[_ Hj]]%Hpeer; [|eauto]. destruct (so_peer0 i rf Hi) as [Hc Hs].
    split; [by apply (turn_capped s (ECrash i now) i rf rf' (turn_crash _ _ _ _ _ now eq_refl Hr))|].
    by destruct (restart_fields _ _ _ Hd Hr) as (-> & -> & _).
  - intros r p args Hp Ha. destruct (exec_underWay s s' _ r p args HE Hp Ha) as [(r0 & p0 & Hp0 & Ha0)|(j & rfj & Hj & <- & <-)]; [by eapply so_reps0|].
    by apply (so_peer0 j rfj).
  - intros j kv pq rfj Hj [[-> ->]|[Hne Hrf]]%Hpeer.
    + rewrite (idx_upd_eq _ _ _ _ Hsv) in Hj; injection Hj as <- <-. rewrite fn_lookup_insert.
      destruct Hok as (? & ? & ? & a & ? & ? & ? & ? & Hc). split; [done|]; split; [done|]; split; [done|]. exists a; split_and!; try done; try lia; auto.
    + rewrite (idx_upd_ne _ _ _ _ _ Hsv) in Hj by done. rewrite fn_lookup_insert_ne by done.
      destruct (so_srv0 j kv pq rfj Hj Hrf) as (? & ? & ? & a & ? & ? & ? & ? & Hc). split; [done|]; split; [done|]; split; [done|].
      exists a; split_and!; try done; try lia. intros Hn; apply Hc. intros ([j' m] & Ej & Hm)%list_elem_of_fmap; simpl in Ej; subst j'.
      destruct Hn. apply (list_elem_of_fmap_2 fst _ (j, m)), list_elem_of_filter. done.
  - intros j x d [Hne Hx]%list_elem_of_filter; simpl in Hne. destruct (so_sn0 j x d Hx) as [? Hle]. split; [done|].
    intros rfj [[-> ->]|[_ Hj]]%Hpeer; [done|eauto].
  - intros j m [Hne Hm]%list_elem_of_filter; simpl in Hne. destruct (so_ins0 j m Hm) as (x & d & t & ? & ? & Hx). exists x, d, t; split_and!; try done.
    intros rfj [[-> ->]|[_ Hj]]%Hpeer; [done|eauto].
  - eapply sublist_NoDup; [exact so_one0|]. apply fmap_sublist, sublist_filter.
  - intros j m [_ Hm]%list_elem_of_filter; by eapply so_range0.
  - intros q' (q & -> & Hq)%list_elem_of_fmap. specialize (so_rpc0 q Hq). unfold crashed, rpcOk in *.
    destruct (q_stage q) eqn:Est; rewrite ?Est; try done; case_if; simpl; rewrite ?Est; try done;
      zbool; by rewrite (idx_upd_ne _ _ _ _ _ Hsv), fn_lookup_insert_ne by congruence.
Qed.

(** ** The invariant *)

Record kinv V H LL A PP C K recs y : Prop := {
  ki_inv : inv n V (y_cluster y);
  ki_winv : winv n V H LL A PP (y_cluster y);
  ki_off : maxraft = -1 -> untrimmed (y_cluster y) /\ y_snapshots y = [] /\ y_installs y = [];
  ki_service : serviceOk H A C K (nodes (y_cluster y)) (reps (y_cluster y)) (y_servers y) (y_snapshots y) (y_installs y) (y_rpcs y);
  ki_clerks : clerksOk C recs (q_request <$> y_rpcs y) (y_clerks y) (y_log y) (y_clock y);
}.

Definition sound y : Prop := exists V H LL A PP C K recs, kinv V H LL A PP C K recs y.

(** A step of the cluster. *)
Lemma cluster_step V H LL A PP C K recs y s' ev :
  kinv V H LL A PP C K recs y -> timely (y_cluster y) ev = true -> served (y_cluster y) ev = true ->
  (maxraft = -1 -> snapless ev = true) -> exec (y_cluster y) ev = Some s' ->
  exists V' H' LL' A' PP', inv n V' s' /\ winv n V' H' LL' A' PP' s' /\ next n V (y_cluster y) s'
    /\ H ⊆ H' /\ (forall i k t, A i k t -> A' i k t)
    /\ (forall kt c p, H' !! kt = Some (c, p) -> H !! kt = Some (c, p) \/ started ev c)
    /\ (maxraft = -1 -> untrimmed s').
Proof.
  intros [Hinv HI Hoff _ _] Ht Hsv Hsn HE. pose proof (exec_inv n V _ _ ev Hinv Ht HE) as Hn.
  pose proof (exec_log n V H LL A PP _ _ ev Hinv HI Hn Hsv HE) as Hlog.
  destruct (log_next_inv n _ V H LL A PP _ _ HI Hn Hlog) as (V' & Hinv' & H' & LL' & A' & PP' & HH & Hnew & HA & HI').
  exists V', H', LL', A', PP'; split_and!; try done. intros E. apply (exec_untrimmed n V H LL A PP (y_cluster y) s' ev); try done; [by apply Hoff|by apply Hsn].
Qed.

(** Without snapshots, peers install nothing. *)
Lemma installing_none s ev : untrimmed s -> installing s ev = [].
Proof.
  intros HU; destruct ev; try done; simpl. destruct (reps s !! r) as [p|] eqn:Hp; [|done]; cbn [mbind option_bind].
  destruct (rp_stage p) as [| | |args|] eqn:Est; try done.
  destruct (idx (nodes s) (rp_server p)) as [rf|] eqn:Hi; [|done]; cbn [mbind option_bind].
  destruct (InstallSnapshot now args rf) as [[[rf' reply] m]|] eqn:HR; [|done]; cbn [mbind option_bind].
  by destruct (untrimmed_install s r p args now rf rf' reply m HU Hp Est (proj1 (un_node _ HU _ _ Hi)) HR) as [_ ->].
Qed.

(** What the provisos on snapshots give. *)
Definition calm_event y (ev : kevent) : Prop := maxraft = -1 \/ prompt y ev = true.

Lemma calm_raft V H LL A PP C K recs y ev :
  kinv V H LL A PP C K recs y -> calm_event y (KRaft ev) -> forall i, i ∈ (installing (y_cluster y) ev).*1 -> i ∉ (y_installs y).*1.
Proof.
  intros HK Hc i ([i' m] & -> & Hm)%list_elem_of_fmap. destruct Hc as [E|Hp].
  - rewrite (proj2 (proj2 (ki_off _ _ _ _ _ _ _ _ _ HK E))). by intros ?%elem_of_nil.
  - simpl in Hp. rewrite forallb_forall in Hp. specialize (Hp (i', m) (proj1 (list_elem_of_In _ _) Hm)). by apply bool_decide_eq_true in Hp.
Qed.

Lemma service_len V H LL A PP C K recs y i kv pq :
  kinv V H LL A PP C K recs y -> idx (y_servers y) i = Some (kv, pq) -> exists rf, idx (nodes (y_cluster y)) i = Some rf.
Proof.
  intros HK Hs. apply idx_in_range. rewrite (ni_len _ _ _ (proj1 (ki_inv _ _ _ _ _ _ _ _ _ HK))).
  rewrite <- (so_len _ _ _ _ _ _ _ _ _ _ (ki_service _ _ _ _ _ _ _ _ _ HK)). by eapply idx_Some_range.
Qed.

(** An event of the cluster that applies nothing. *)
Lemma cluster_move V H LL A PP C K recs y s' ev :
  kinv V H LL A PP C K recs y -> timely (y_cluster y) ev = true -> served (y_cluster y) ev = true -> applies ev = false ->
  (maxraft = -1 -> snapless ev = true) -> exec (y_cluster y) ev = Some s' -> taken (y_cluster y) ev C ->
  (forall i, i ∈ (installing (y_cluster y) ev).*1 -> i ∉ (y_installs y).*1) ->
  (forall c, started ev c -> exists q, q ∈ y_rpcs y /\ c = Some (requestOp (q_request q))) ->
  exists V' H' LL' A' PP',
    kinv V' H' LL' A' PP' C K recs (set_pending (y_snapshots y) (y_installs y ++ installing (y_cluster y) ev) (set_cluster s' y)).
Proof.
  intros HK Ht Hsv Hap Hsn HE Htk Hfree Hst.
  destruct (cluster_step _ _ _ _ _ _ _ _ _ _ _ HK Ht Hsv Hsn HE) as (V' & H' & LL' & A' & PP' & ? & ? & Hn & HH & HA & Hnew & HU').
  exists V', H', LL', A', PP'. destruct HK as [Hinv HI Hoff HS HC]. split; simpl; try done.
  - intros E; destruct (Hoff E) as (HU & E1 & E2). rewrite E1, E2, (installing_none _ _ HU). auto.
  - eapply (service_mono H H' A A'); [|done|done|].
    + by eapply service_turn.
    + intros kt c p Hk; destruct (Hnew kt c p Hk); auto.
Qed.

(** ** Events of the peers and the servers *)

Context (size : bytes -> Z) (handles : Z -> list Z).

Lemma started_plain ev c : plain ev = true -> started ev c -> False.
Proof. by destruct ev. Qed.

Lemma plain_fields ev : plain ev = true -> served (Cmd := Op) = served /\ snapless ev = true /\ applies ev = false.
Proof. by destruct ev. Qed.

Lemma sound_raft y y' ev :
  sound y -> timely (y_cluster y) ev = true -> calm_event y (KRaft ev) -> kexecRaft ev y = Some y' -> sound y'.
Proof.
  intros (V & H & LL & A & PP & C & K & recs & HK) Ht Hc HR. unfold kexecRaft in HR. destruct (plain ev) eqn:Ep; [|done].
  destruct (plain_fields ev Ep) as (_ & Hsn & Hap).
  destruct (exec (y_cluster y) ev) as [s'|] eqn:HE; [|done]. injection HR as <-.
  destruct (cluster_move _ _ _ _ _ _ _ _ y s' ev HK Ht (snapless_served _ _ Hsn) Hap (fun _ => Hsn) HE) as (V' & H' & LL' & A' & PP' & HK').
  - by destruct ev.
  - by eapply calm_raft.
  - intros c Hs. by destruct (started_plain ev c Ep).
  - by exists V', H', LL', A', PP', C, K, recs.
Qed.

Lemma set_node_upd i rf' s s' : set_node i rf' s = Some s' -> upd (nodes s) i rf' = Some (nodes s') /\ reps s' = reps s.
Proof. by intros (? & _ & ?)%set_node_reps. Qed.

Lemma sound_kick y y' i : sound y -> calm_event y (KKick i) -> kexecKick i y = Some y' -> sound y'.
Proof.
  intros (V & H & LL & A & PP & C & K & recs & HK) Hc HR. unfold kexecKick in HR.
  destruct (idx (nodes (y_cluster y)) i) as [rf|] eqn:Hi; [|done]; cbn [mbind option_bind] in HR.
  destruct (idx (y_servers y) i) as [[kv [|]]|] eqn:Hs; [|done|done]; cbn [mbind option_bind] in HR.
  destruct (guardKick rf) as [[rf' msgs]|] eqn:HG; [|done]; cbn [mbind option_bind] in HR.
  destruct (exec (y_cluster y) (EKick i)) as [s'|] eqn:HE; [|done]; cbn [mbind option_bind] in HR.
  destruct (upd (y_servers y) i (kv, msgs)) as [sv'|] eqn:Hu; [|done]; injection HR as <-.
  destruct (cluster_step _ _ _ _ _ _ _ _ _ _ (EKick i) HK eq_refl eq_refl (fun _ => eq_refl) HE) as (V' & H' & LL' & A' & PP' & ? & ? & ? & HH & HA & Hnew & HU').
  assert (Hup : upd (nodes (y_cluster y)) i rf' = Some (nodes s') /\ reps s' = reps (y_cluster y))
    by (simpl in HE; rewrite Hi in HE; simpl in HE; rewrite HG in HE; by apply set_node_upd).
  destruct Hup as [Hup Er].
  assert (Hfree : i ∉ (y_installs y).*1).
  { destruct Hc as [E|Hp]; [|by apply bool_decide_eq_true in Hp]. rewrite (proj2 (proj2 (ki_off _ _ _ _ _ _ _ _ _ HK E))). by intros ?%elem_of_nil. }
  destruct HK as [_ HI Hoff HS HC].
  destruct (service_kick V LL PP H A C K (y_cluster y) s' (y_servers y) sv' _ _ (y_rpcs y) i rf rf' kv msgs HI HS Hi HG Hup Er Hs Hu Hfree) as (more & Hmore & HS').
  exists V', H', LL', A', PP', (C ++ more), K, recs; split; simpl; try done; [|  |by apply clerks_commit].
  - intros E; destruct (Hoff E) as (_ & ? & ?); auto.
  - eapply service_mono; [done..|]. intros kt c p Hk; destruct (Hnew kt c p Hk) as [|[]]; auto.
Qed.

(** A server takes a message. *)
Lemma sound_receive V H LL A PP C K recs y i rf kv pq pq' sn ins m kv' o k' y' :
  kinv V H LL A PP C K recs y -> idx (y_servers y) i = Some (kv, pq) ->
  ins `sublist_of` y_installs y -> (forall j, j <> i -> j ∈ (y_installs y).*1 -> j ∈ ins.*1) ->
  idx (nodes (y_cluster y)) i = Some rf -> guardApply (RaftStateSize size (persister rf)) m kv = Some (kv', o) ->
  serverOk maxraft C kv' pq' (i ∈ ins.*1) (covers rf) k' ->
  (forall ch op, chanOk C (K i) kv ch op -> chanOk C k' kv' ch op) ->
  (forall x d, o = Some (x, d) -> snapshotAt C x d /\ x <= covers rf /\ maxraft <> -1) ->
  sn = y_snapshots y -> receive size i m pq' (set_pending sn ins y) = Some y' -> sound y'.
Proof.
  intros HK Hs Hsub Hkeep Hi Hg Hsrv Hch Ho -> HR. unfold receive in HR. simpl in HR. rewrite Hi in HR; cbn [mbind option_bind] in HR.
  rewrite Hs in HR; cbn [mbind option_bind] in HR. rewrite Hg in HR; cbn [mbind option_bind] in HR.
  destruct (upd (y_servers y) i (kv', pq')) as [sv'|] eqn:Hu; [|done]; injection HR as <-.
  destruct HK as [Hinv HI Hoff HS HC]. exists V, H, LL, A, PP, C, (<[i := k']> K), recs; split; simpl; try done.
  - intros E; destruct (Hoff E) as (? & -> & E2). rewrite E2 in Hsub. apply sublist_nil_r in Hsub as ->. split_and!; try done.
    destruct o as [[x d]|]; [|done]. by destruct (Ho x d eq_refl) as (_ & _ & []).
  - assert (HS1 : serviceOk H A C (<[i := k']> K) (nodes (y_cluster y)) (reps (y_cluster y)) sv' (y_snapshots y) ins (y_rpcs y)).
    { eapply service_server; [exact HS|exact Hs|exact Hu|done|done| |done]. intros rf0 Hrf0. by replace rf0 with rf by congruence. }
    destruct HS1 as []. split; try done. intros j x d [Hx|Hx]%elem_of_app; [by apply so_sn0|].
    destruct o as [[x0 d0]|]; [|by apply elem_of_nil in Hx]. apply list_elem_of_singleton in Hx as [= -> -> ->].
    destruct (Ho x0 d0 eq_refl) as (? & ? & _). split; [done|]. intros rf0 Hrf0. by replace rf0 with rf by congruence.
Qed.

Lemma set_pending_id y : set_pending (y_snapshots y) (y_installs y) y = y.
Proof. by destruct y. Qed.

Lemma sound_apply y y' i : sound y -> kexecApply size i y = Some y' -> sound y'.
Proof.
  intros (V & H & LL & A & PP & C & K & recs & HK) HR. unfold kexecApply in HR.
  destruct (idx (y_servers y) i) as [[kv [|m pq]]|] eqn:Hs; [done| |done]; cbn [mbind option_bind] in HR.
  destruct (service_len _ _ _ _ _ _ _ _ _ _ _ _ HK Hs) as [rf Hi].
  pose proof (so_srv _ _ _ _ _ _ _ _ _ _ (ki_service _ _ _ _ _ _ _ _ _ HK) _ _ _ _ Hs Hi) as Hok.
  destruct (serverOk_apply maxraft C (RaftStateSize size (persister rf)) kv m pq _ _ _ Hok) as (kv' & o & k' & Hg & Hok' & Hch & Ho).
  rewrite <- (set_pending_id y) in HR. eapply (sound_receive V H LL A PP C K recs y i rf); eauto.
Qed.

Lemma sound_install y y' k : sound y -> kexecInstall size k y = Some y' -> sound y'.
Proof.
  intros (V & H & LL & A & PP & C & K & recs & HK) HR. unfold kexecInstall in HR.
  destruct (y_installs y !! k) as [[i m]|] eqn:Hm; [|done]; cbn [mbind option_bind] in HR.
  destruct (idx (y_servers y) i) as [[kv pq]|] eqn:Hs; [|done]; cbn [mbind option_bind] in HR.
  destruct (service_len _ _ _ _ _ _ _ _ _ _ _ _ HK Hs) as [rf Hi]. pose proof (ki_service _ _ _ _ _ _ _ _ _ HK) as HS.
  destruct (so_ins _ _ _ _ _ _ _ _ _ _ HS i m (list_elem_of_lookup_2 _ _ _ Hm)) as (x & d & t & -> & Hat & Hcv). specialize (Hcv rf Hi).
  pose proof (so_srv _ _ _ _ _ _ _ _ _ _ HS _ _ _ _ Hs Hi) as Hok. rewrite Hcv in Hok.
  destruct (serverOk_install maxraft C (RaftStateSize size (persister rf)) kv pq _ (i ∈ (delete k (y_installs y)).*1) x d t _ Hok Hat)
    as (kv' & k' & Hg & Hok' & Hch).
  eapply (sound_receive V H LL A PP C K recs y i rf kv pq pq _ (delete k (y_installs y))); try done.
  - apply sublist_delete.
  - intros j Hne Hj. rewrite (delete_Permutation _ _ _ Hm) in Hj. by apply elem_of_cons in Hj as [|].
  - by rewrite Hcv.
Qed.

Lemma sound_snapshot y y' k : sound y -> kexecSnapshot k y = Some y' -> sound y'.
Proof.
  intros (V & H & LL & A & PP & C & K & recs & HK) HR. unfold kexecSnapshot in HR.
  destruct (y_snapshots y !! k) as [[[i index] data]|] eqn:Hx; [|done]; cbn [mbind option_bind] in HR.
  destruct (exec (y_cluster y) (ESnapshot i index data)) as [s'|] eqn:HE; [|done]; injection HR as <-.
  pose proof (ki_service _ _ _ _ _ _ _ _ _ HK) as HS. destruct (so_sn _ _ _ _ _ _ _ _ _ _ HS i index data (list_elem_of_lookup_2 _ _ _ Hx)) as [Hat Hle].
  destruct (idx (nodes (y_cluster y)) i) as [rf|] eqn:Hi; [|by simpl in HE; rewrite Hi in HE].
  destruct (so_peer _ _ _ _ _ _ _ _ _ _ HS i rf Hi) as [Hcap _].
  destruct (cluster_move _ _ _ _ _ _ _ _ y s' (ESnapshot i index data) HK eq_refl) as (V' & H' & LL' & A' & PP' & HK'); try done.
  - simpl. rewrite Hi. specialize (Hle rf eq_refl). apply Z.leb_le. unfold covers, capped in *; lia.
  - intros E. by rewrite (proj1 (proj2 (ki_off _ _ _ _ _ _ _ _ _ HK E))) in Hx.
  - intros i' index' data' [= <- <- <-]. split; [done|]. by rewrite Hi.
  - by intros i' ?%elem_of_nil.
  - simpl in HK'; rewrite app_nil_r in HK'. exists V', H', LL', A', PP', C, K, recs. destruct HK' as [? ? Hoff HS' HC]. split; simpl in *; try done.
    + intros E; destruct (Hoff E) as (? & -> & ?). done.
    + destruct HS'; split; try done. intros i' x d Hin. apply so_sn0. eapply elem_of_sublist; [exact Hin|apply sublist_delete].
Qed.

Lemma sound_crash y y' i now : sound y -> kexecCrash maxraft i now y = Some y' -> sound y'.
Proof.
  intros (V & H & LL & A & PP & C & K & recs & HK) HR. unfold kexecCrash in HR.
  destruct (exec (y_cluster y) (ECrash i now)) as [s'|] eqn:HE; [|done]; cbn [mbind option_bind] in HR.
  destruct (idx (nodes s') i) as [rf'|] eqn:Hi'; [|done]; cbn [mbind option_bind] in HR.
  destruct (upd (y_servers y) i (StartKVServer (persister rf') maxraft, [])) as [sv'|] eqn:Hu; [|done]; injection HR as <-.
  destruct (cluster_step _ _ _ _ _ _ _ _ _ _ (ECrash i now) HK eq_refl eq_refl (fun _ => eq_refl) HE) as (V' & H' & LL' & A' & PP' & ? & ? & _ & HH & HA & Hnew & HU').
  pose proof HK as [[HN _] HI Hoff HS HC].
  simpl in HE. destruct (idx (nodes (y_cluster y)) i) as [rf|] eqn:Hi; [|done]; cbn [mbind option_bind] in HE.
  destruct (restart now rf) as [rf2|] eqn:Hr; [|done]; cbn [mbind option_bind] in HE.
  destruct (set_node i rf2 (y_cluster y)) as [s1|] eqn:Hs1; [|done]; cbn [mbind option_bind] in HE. injection HE as <-.
  pose proof (proj1 (set_node_upd _ _ _ _ Hs1)) as Hup. simpl in Hi'. rewrite (idx_upd_eq _ _ _ _ Hup) in Hi'; injection Hi' as ->.
  destruct (ni_node _ _ _ HN _ _ Hi) as (_ & _ & Hd). destruct (restart_fields _ _ _ Hd Hr) as (Esi & Esn & _ & Ela & Hd').
  destruct (winv_node n V H LL A PP _ i rf HI Hi) as (P & _ & _ & Hv & _). pose proof (proj1 (vw_range _ _ _ _ _ Hv)) as Hpos.
  destruct (so_peer _ _ _ _ _ _ _ _ _ _ HS i rf Hi) as [_ Hsn].
  destruct (serverOk_start maxraft C (persister rf') False (covers rf')) as [k' Hk'].
  { unfold covers. rewrite Esi, Ela, Z.max_r by lia. replace (ReadSnapshot (persister rf')) with (snapshot rf'); [by rewrite Esn|].
    destruct Hd' as [->|[-> Hq]]; [done|]. injection Hq as _ _ _ _ Hq. by rewrite Hq. }
  exists V', H', LL', A', PP', C, (<[i := k']> K), recs; split; simpl; try done; [|  |by rewrite fmap_crashed].
  - intros E; destruct (Hoff E) as (_ & -> & ->). auto.
  - eapply (service_mono H H' A A'); [|done|done|].
    + apply (service_crash H A C K (y_cluster y) (orphan i s1) (y_servers y) sv' _ _ _ i now rf rf' (StartKVServer (persister rf') maxraft) k'); try done.
      simpl. rewrite Hi; cbn [mbind option_bind]. rewrite Hr; cbn [mbind option_bind]. by rewrite Hs1.
    + intros kt c p Hk; destruct (Hnew kt c p Hk) as [|[]]; auto.
Qed.
End service.
