(* ===== verification/KvSystemFacts.v ===== *)
(** * kvraft: the service is linearizable

    Every event of [KvSystem] keeps the invariant of [KvSystemInv]
    ([KvSystemSteps] has the events of the peers and the servers). So the history
    that the clients log is linearizable, and the checker accepts it: with
    snapshots turned off, and with snapshots if no server gets a later command
    while the message of an installed snapshot is under way to it. The code does
    not see to the latter, and an execution shows what happens then. *)

From stdpp Require Import functions.
From S2P Require Import Prelude Bitset Checker CheckerSearch Linearizability Porcupine KvLocality.
From S2P Require Import Gob RaftTypes RaftLog RaftElection RaftReplicate RaftSnapshot RaftPeer.
From S2P Require Import RaftLogFacts RaftSnapshotFacts RaftCluster RaftElectionSafety RaftPaths RaftLogSafety RaftWhole.
From S2P Require Import RaftStateSafety RaftApply KvServer KvFacts KvClerk KvSystem KvLinear.
From S2P Require Import KvSystemInv KvSystemSteps.

#[local] Open Scope string_scope.
#[local] Open Scope Z_scope.
#[local] Open Scope list_scope.

Implicit Types (C more : list Op) (op : Op) (kv : KVServer) (pq msgs : list (ApplyMsg Op)) (m : ApplyMsg Op).
Implicit Types (sv : list (KVServer * list (ApplyMsg Op))) (q : rpc) (rpcs : list rpc) (y : kvsys) (recs : list point).
Implicit Types (H : tree Op) (A : Z -> Z -> Z -> Prop) (ns : list (Raft Op)) (rf : Raft Op) (V : votes) (K : Z -> nat).
Implicit Types (rps : list (rep Op)) (sn : list (Z * Z * bytes)) (ins : list (Z * ApplyMsg Op)) (ev : event Op) (s : cluster Op).

Section service.
Context (n : nat) (maxraft : Z).
Context (size : bytes -> Z) (handles : Z -> list Z).

(** ** Events of the handlers *)

Lemma fmap_stage r st rpcs :
  q_request <$> alter (fun q => mkRpc (q_server q) (q_request q) st) r rpcs = q_request <$> rpcs.
Proof. apply list_eq; intros j. rewrite !list_lookup_fmap, list_lookup_alter. case_decide; [|done]. subst. by destruct (rpcs !! j). Qed.

(** A handler takes a step at its server. *)
Lemma server_move V H LL A PP C K recs y sv' r q st kv pq kv' e :
  kinv n maxraft V H LL A PP C K recs y -> y_rpcs y !! r = Some q -> idx (y_servers y) (q_server q) = Some (kv, pq) ->
  upd (y_servers y) (q_server q) (kv', pq) = Some sv' ->
  (forall size m, e <> EvApply size m) -> kvExec e kv = Some kv' ->
  (forall K', (forall i, K' i = K i) -> rpcOk C K' sv' (mkRpc (q_server q) (q_request q) st)) -> sound n maxraft (set_qstage r st (set_servers sv' y)).
Proof.
  intros HK Hq Hs Hu Hne He Hst. exists V, H, LL, A, PP, C, (<[q_server q := K (q_server q)]> K), recs.
  destruct HK as [? ? ? HS HC]; split; simpl; try done; [|by rewrite fmap_stage].
  apply service_stage.
  - eapply service_server; [exact HS|exact Hs|exact Hu|reflexivity|done| |].
    + intros rf Hrf. by apply (serverOk_quiet maxraft C e kv kv' pq _ _ _ Hne He), (so_srv _ _ _ _ _ _ _ _ _ _ _ _ HS).
    + destruct (service_len _ _ V H LL A PP C K recs y _ _ _ ltac:(by split) Hs) as [rf Hrf].
      by apply (serverOk_quiet maxraft C e kv kv' pq _ _ _ Hne He (so_srv _ _ _ _ _ _ _ _ _ _ _ _ HS _ _ _ _ Hs Hrf)).
  - intros q' Hq'. rewrite Hq in Hq'; injection Hq' as <-. apply Hst. intros i. destruct (decide (i = q_server q)) as [->|].
    + by rewrite fn_lookup_insert.
    + by rewrite fn_lookup_insert_ne.
Qed.

Lemma service_at V H LL A PP C K recs y i kv pq :
  kinv n maxraft V H LL A PP C K recs y -> idx (y_servers y) i = Some (kv, pq) ->
  exists pos, serverOk maxraft C kv pq (i ∈ (y_installs y).*1) pos (K i).
Proof.
  intros HK Hs. destruct (service_len _ _ _ _ _ _ _ _ _ _ _ _ _ _ HK Hs) as [rf Hi].
  exists (covers rf). by apply (so_srv _ _ _ _ _ _ _ _ _ _ _ _ (ki_service _ _ _ _ _ _ _ _ _ _ _ HK)).
Qed.

Lemma rpc_in V H LL A PP C K recs y r q :
  kinv n maxraft V H LL A PP C K recs y -> y_rpcs y !! r = Some q -> rpcOk C K (y_servers y) q.
Proof. intros HK Hq. eapply so_rpc; [apply HK|]. by eapply list_elem_of_lookup_2. Qed.

(** A server can take what is sent to it. *)
Lemma receive_ok V H LL A PP C K recs y i kv pq pq' m :
  kinv n maxraft V H LL A PP C K recs y -> idx (y_servers y) i = Some (kv, pq) ->
  (forall sz, is_Some (guardApply sz m kv)) -> forall sn ins, is_Some (receive size i m pq' (set_pending sn ins y)).
Proof.
  intros HK Hi Hg sn ins. destruct (service_len _ _ _ _ _ _ _ _ _ _ _ _ _ _ HK Hi) as [rf Hrf].
  unfold receive; simpl. rewrite Hrf; cbn [mbind option_bind]. rewrite Hi; cbn [mbind option_bind].
  destruct (Hg (RaftStateSize size (persister rf))) as [[kv' o] ->]; cbn [mbind option_bind].
  rewrite upd_ok by (by eapply idx_Some_range). cbn [mbind option_bind]. eauto.
Qed.

Lemma apply_runs V H LL A PP C K recs y i kv m pq :
  kinv n maxraft V H LL A PP C K recs y -> idx (y_servers y) i = Some (kv, m :: pq) -> is_Some (kexecApply size i y).
Proof.
  intros HK Hi. unfold kexecApply; rewrite Hi; cbn [mbind option_bind]. rewrite <- (set_pending_id y).
  eapply receive_ok; [exact HK|exact Hi|]. intros sz. destruct (service_at _ _ _ _ _ _ _ _ _ _ _ _ HK Hi) as [pos Hok].
  destruct (serverOk_apply maxraft C sz kv m pq _ _ _ Hok) as (kv' & o & k' & -> & _). eauto.
Qed.

Lemma install_runs V H LL A PP C K recs y k :
  kinv n maxraft V H LL A PP C K recs y -> (k < length (y_installs y))%nat -> is_Some (kexecInstall size k y).
Proof.
  intros HK [[i m] Hm]%lookup_lt_is_Some_2. unfold kexecInstall; rewrite Hm; cbn [mbind option_bind].
  pose proof (ki_service _ _ _ _ _ _ _ _ _ _ _ HK) as HS.
  destruct (so_ins _ _ _ _ _ _ _ _ _ _ _ _ HS i m (list_elem_of_lookup_2 _ _ _ Hm)) as (x & d & t & -> & Hat & Hcv).
  destruct (idx_in_range (y_servers y) i) as [[kv pq] Hs].
  { rewrite (so_len _ _ _ _ _ _ _ _ _ _ _ _ HS). by apply (so_range _ _ _ _ _ _ _ _ _ _ _ _ HS i _ (list_elem_of_lookup_2 _ _ _ Hm)). }
  rewrite Hs; cbn [mbind option_bind].
  eapply receive_ok; [exact HK|exact Hs|]. intros sz. destruct Hat as (j & src & _ & _ & -> & _).
  unfold guardApply; cbn [SnapshotValid Snapshot_ SnapshotIndex]. rewrite decode_encode. eauto.
Qed.

Lemma sound_register y y' r : sound n maxraft y -> kexecRegister r y = Some y' -> sound n maxraft y'.
Proof.
  intros (V & H & LL & A & PP & C & K & recs & HK) HR. unfold kexecRegister in HR.
  destruct (y_rpcs y !! r) as [q|] eqn:Hq; [|done]; cbn [mbind option_bind] in HR. destruct (q_stage q) eqn:Est; try done.
  destruct (idx (y_servers y) (q_server q)) as [[kv pq]|] eqn:Hs; [|done]; cbn [mbind option_bind] in HR.
  destruct (service_at _ _ _ _ _ _ _ _ _ _ _ _ HK Hs) as [pos Hok]. pose proof Hok as (Hw & _).
  assert (Hnew : forall k, let '(kv', ch) := register (helpKey (ClientId (requestOp (q_request q))) (SeqNum (requestOp (q_request q)))) kv in
            chanOk C k kv' ch (requestOp (q_request q))) by (intros k; by apply chanOk_register).
  unfold requestKey in HR. destruct (register _ kv) as [kv' ch] eqn:Er. unfold set_server in HR; rewrite Hs in HR; cbn [mbind option_bind] in HR.
  destruct (upd (y_servers y) (q_server q) (kv', pq)) as [sv'|] eqn:Hu; [|done]; injection HR as <-.
  apply (server_move V H LL A PP C K recs y sv' r q _ kv pq kv' (EvRegister (requestKey (q_request q)))); try done.
  - unfold kvExec, requestKey; by rewrite Er.
  - intros K' _. exists kv', pq; simpl. by rewrite (idx_upd_eq _ _ _ _ Hu).
Qed.

Lemma sound_start y y' r : sound n maxraft y -> kexecStart r y = Some y' -> sound n maxraft y'.
Proof.
  intros (V & H & LL & A & PP & C & K & recs & HK) HR. unfold kexecStart in HR.
  destruct (y_rpcs y !! r) as [q|] eqn:Hq; [|done]; cbn [mbind option_bind] in HR. destruct (q_stage q) as [|ch| | | |] eqn:Est; try done.
  destruct (idx (nodes (y_cluster y)) (q_server q)) as [rf|] eqn:Hi; [|done]; cbn [mbind option_bind] in HR.
  destruct (Start (requestOp (q_request q)) rf) as [rf' [[x1 x2] ok]]; cbn [mbind option_bind] in HR.
  destruct (exec (y_cluster y) (EStart (q_server q) (requestOp (q_request q)))) as [s'|] eqn:HE; [|done]; injection HR as <-.
  destruct (cluster_move n maxraft _ _ _ _ _ _ _ _ y s' (EStart (q_server q) (requestOp (q_request q))) HK eq_refl eq_refl eq_refl (fun _ => eq_refl) HE)
    as (V' & H' & LL' & A' & PP' & HK'); [done|by intros i ?%elem_of_nil|intros c ->; exists q; split; [by eapply list_elem_of_lookup_2|done]|].
  simpl in HK'; rewrite app_nil_r in HK'. exists V', H', LL', A', PP', C, K, recs. destruct HK' as [? ? ? HS ?]; split; simpl in *; try done; [|by rewrite fmap_stage].
  apply service_stage; [done|]. intros q' Hq'; simpl in Hq'. rewrite Hq in Hq'; injection Hq' as <-.
  pose proof (rpc_in _ _ _ _ _ _ _ _ _ _ _ HK Hq) as Hr. unfold rpcOk in *; rewrite Est in Hr. by destruct ok.
Qed.

Lemma sound_end y y' r w : sound n maxraft y -> kexecEnd r w y = Some y' -> sound n maxraft y'.
Proof.
  intros (V & H & LL & A & PP & C & K & recs & HK) HR. unfold kexecEnd in HR.
  destruct (y_rpcs y !! r) as [q|] eqn:Hq; [|done]; cbn [mbind option_bind] in HR.
  destruct (idx (y_servers y) (q_server q)) as [[kv pq]|] eqn:Hs; [|done]; cbn [mbind option_bind] in HR.
  case_if_in HR; [|done]. destruct (answerOf (q_request q) w kv) as [kv' a] eqn:Ea.
  unfold set_server in HR; rewrite Hs in HR; cbn [mbind option_bind] in HR.
  destruct (upd (y_servers y) (q_server q) (kv', pq)) as [sv'|] eqn:Hu; [|done]; injection HR as <-.
  destruct (service_at _ _ _ _ _ _ _ _ _ _ _ _ HK Hs) as [pos Hok].
  apply (server_move V H LL A PP C K recs y sv' r q _ kv pq kv' (EvUnregister (requestKey (q_request q)))); try done.
  - by rewrite (answerOf_spec _ _ _ _ _ Ea).
  - intros K' _. unfold rpcOk; simpl. eapply answerOk_end; [done..|]. intros ->. pose proof (rpc_in _ _ _ _ _ _ _ _ _ _ _ HK Hq) as Hr.
    unfold rpcOk in Hr. destruct (q_stage q); try done. destruct Hr as (kv0 & pq0 & Hs0 & _ & Hsig).
    rewrite Hs in Hs0; injection Hs0 as <- <-. by apply Hsig, (bool_decide_eq_true _).
Qed.

(** ** Events of the clerks *)

Lemma sound_clerks V H LL A PP C K recs0 recs y cks log clock :
  kinv n maxraft V H LL A PP C K recs0 y -> clerksOk C recs (q_request <$> y_rpcs y) cks log clock -> sound n maxraft (set_clerks cks log clock y).
Proof. intros HK HC. exists V, H, LL, A, PP, C, K, recs. by destruct HK. Qed.

Lemma sound_make y y' id : sound n maxraft y -> kexecMake id y = Some y' -> sound n maxraft y'.
Proof.
  intros (V & H & LL & A & PP & C & K & recs & HK) HR. unfold kexecMake in HR. destruct (y_clerks y !! id) eqn:Hc; [done|]; injection HR as <-.
  eapply sound_clerks; [done|]. by apply clerks_make; [apply HK|].
Qed.

Lemma sound_call y y' id c now : sound n maxraft y -> kexecCall id c now y = Some y' -> sound n maxraft y'.
Proof.
  intros (V & H & LL & A & PP & C & K & recs & HK) HR. unfold kexecCall in HR.
  destruct (y_clerks y !! id) as [[ck [b|]]|] eqn:Hc; try done; cbn [mbind option_bind] in HR. case_if_in HR; [|done]; injection HR as <-.
  zbool. pose proof (ki_clerks _ _ _ _ _ _ _ _ _ _ _ HK) as HC. destruct (clerk_numbers _ _ _ _ _ _ _ _ _ HC Hc) as (Hid & Hpos & Hidle).
  specialize (Hidle eq_refl). eapply sound_clerks; [done|]. eapply clerks_set; try done; split; simpl; try done.
  - intros rq Hrq [= E1 E2]. specialize (Hidle rq Hrq E1). lia.
  - exists (length C); split_and!; [done| |].
    + rewrite take_ge by done. intros (op & Eop & Hop)%list_elem_of_fmap. destruct HC as [(_ & Hsub & _) _ _ _ _ _ _ _ _ _ _].
      apply Hsub in Hop; simpl in Hop. apply list_elem_of_fmap in Hop as (rq & -> & Hrq). injection Eop as E1 E2. specialize (Hidle rq Hrq (eq_sym E1)). lia.
    + intros x Hx _. apply pointOk_le. destruct HC. by eapply Forall_forall.
Qed.

Lemma sound_send y y' id : sound n maxraft y -> kexecSend handles id y = Some y' -> sound n maxraft y'.
Proof.
  intros (V & H & LL & A & PP & C & K & recs & HK) HR. unfold kexecSend in HR.
  destruct (y_clerks y !! id) as [[ck [b|]]|] eqn:Hc; try done; cbn [mbind option_bind] in HR.
  destruct (b_rpc b); [done|]. destruct (idx (handles id) (leader ck)) as [srv|]; [|done]; injection HR as <-.
  pose proof (clerks_send _ _ _ _ _ _ _ _ _ (ki_clerks _ _ _ _ _ _ _ _ _ _ _ HK) Hc) as HC.
  exists V, H, LL, A, PP, C, K, recs. destruct HK; split; simpl; try done.
  - eapply service_rpcs; [done| |].
    + intros q Hq; exists q; split; [apply elem_of_app; by left|done].
    + intros q [Hq| ->%list_elem_of_singleton]%elem_of_app; [|done]. by eapply so_rpc.
  - rewrite fmap_app; simpl. eapply clerks_set; try done. destruct (co_busy _ _ _ _ _ _ HC id ck b Hc); split; simpl; try done.
    intros r [= <-]. by rewrite <- (length_fmap q_request), list_lookup_middle.
Qed.

(** An operation that is in the log is there for a first time. *)
Lemma first_commit C k i : i ∈ opId <$> take k C -> exists p op, firstAt C p op /\ opId op = i /\ (p < k)%nat.
Proof.
  intros (op & -> & Hin)%list_elem_of_fmap. destruct (list_find (fun o => opId o = opId op) (take k C)) as [[p o]|] eqn:E.
  - apply list_find_Some in E as (Hp & Ho & Hmin). apply lookup_take_Some in Hp as [Hp Hlt].
    exists p, o; split_and!; [|done|done]. split; [done|]. rewrite Ho; intros (o' & Ho' & Hin')%list_elem_of_fmap.
    apply list_elem_of_lookup in Hin' as (j & Hj%lookup_take_Some). destruct Hj as [Hj ?]. apply (Hmin j o'); [|done|done].
    by rewrite lookup_take_lt by lia.
  - apply list_find_None in E. rewrite Forall_forall in E. by destruct (E op Hin).
Qed.

(** What an iteration of the loop of a clerk does with a right answer. *)
Definition accepted (c : command) (a : answer) : option string :=
  match c, a with
  | KGet _, AGet reply =>
      if String.eqb (gr_Err reply) ErrWrongLeader then None else Some (if decide (gr_Err reply = OK) then gr_Value reply else "")
  | (KPut _ _ | KAppend _ _), APutAppend reply => if String.eqb (pr_Err reply) ErrWrongLeader then None else Some ""
  | _, _ => None
  end.

Lemma clerkIter_spec C c ck a :
  from_option (answerOk C (requestOf c ck)) True a ->
  let r := clerkIter c a ck in
  r.2 = a ≫= accepted c /\ clientId r.1 = clientId ck /\ seqNum r.1 = if r.2 then seqNum ck + 1 else seqNum ck.
Proof.
  destruct a as [a|]; [|by destruct c]. intros Ha. destruct c, a as [reply|reply]; simpl in Ha; try done.
  - unfold clerkIter, GetIter, accepted; cbn [mbind option_bind]. destruct reply as [v e]; cbn [gr_Err gr_Value] in *.
    destruct Ha as [->|(k & _ & _ & He & _)]; [done|]. repeat (apply elem_of_cons in He as [->|He]); [done|done|by apply elem_of_nil in He].
  - unfold clerkIter, PutAppendIter, accepted; cbn [mbind option_bind]. destruct reply as [e]; cbn [pr_Err] in *. by destruct Ha as [->|[-> _]].
  - unfold clerkIter, PutAppendIter, accepted; cbn [mbind option_bind]. destruct reply as [e]; cbn [pr_Err] in *. by destruct Ha as [->|[-> _]].
Qed.

(** The point of an operation that returns. *)
Lemma answer_point C c ck a v start stop (L : nat) :
  (forall op, op ∈ C -> opId op = (clientId ck, seqNum ck) -> op = requestOp (requestOf c ck)) ->
  answerOk C (requestOf c ck) a -> accepted c a = Some v -> (clientId ck, seqNum ck) ∉ opId <$> take L C ->
  exists t, pointOk C (t, (clientId ck, seqNum ck), logged (clientId ck) c start v stop) /\ (2 * L < t)%nat.
Proof.
  intros Hsame Ha Hv HL.
  assert (Hfirst : forall k, (clientId ck, seqNum ck) ∈ opId <$> take k C -> exists p, firstAt C p (requestOp (requestOf c ck)) /\ (L <= p < k)%nat).
  { intros k (p & op & Hf & Hid & Hlt)%first_commit. pose proof (proj1 Hf) as Hp.
    rewrite (Hsame op) in Hf; [|by eapply list_elem_of_lookup_2|done]. exists p; split; [done|]. split; [|done].
    destruct (decide (L <= p)%nat) as [|Hgt]; [done|]. destruct HL. rewrite <- Hid. apply list_elem_of_fmap_2, (list_elem_of_lookup_2 _ p).
    by rewrite lookup_take_lt by lia. }
  assert (Hmake : forall t p, firstAt C p (requestOp (requestOf c ck)) ->
    (if decide (Type_ (requestOp (requestOf c ck)) = OpGet)
     then exists k, t = (2 * k)%nat /\ (p < k <= length C)%nat /\ v = default "" ((replay (take k C)).1 !! Key (requestOp (requestOf c ck)))
     else t = (2 * p + 1)%nat) -> pointOk C (t, (clientId ck, seqNum ck), logged (clientId ck) c start v stop)).
  { intros t p Hf Ht. exists (requestOp (requestOf c ck)), p; split; [done|]. split; [apply requestOf_id|]. split; [symmetry; apply requestOf_input|done]. }
  destruct c as [key|key val|key val], a as [reply|reply]; simpl in Ha, Hv; try done; case_if_in Hv; try done; injection Hv as Hv.
  - destruct Ha as [Ew|(k & Hk & Hin & _ & Hval)]; [by rewrite Ew in E|]. destruct (Hfirst k Hin) as (p & Hf & Hp).
    exists (2 * k)%nat; split; [|lia]. apply (Hmake _ p Hf). simpl. exists k; split_and!; [done|lia|lia|]. by rewrite <- Hv.
  - destruct Ha as [Ew|[_ Hin]]; [by rewrite Ew in E|]. destruct (Hfirst (length C)) as (p & Hf & Hp); [by rewrite take_ge|].
    exists (2 * p + 1)%nat; split; [|lia]. by apply (Hmake _ p Hf).
  - destruct Ha as [Ew|[_ Hin]]; [by rewrite Ew in E|]. destruct (Hfirst (length C)) as (p & Hf & Hp); [by rewrite take_ge|].
    exists (2 * p + 1)%nat; split; [|lia]. by apply (Hmake _ p Hf).
Qed.

Lemma sound_goes V H LL A PP C K recs y id ck b a now :
  kinv n maxraft V H LL A PP C K recs y -> y_clerks y !! id = Some (ck, Some b) -> y_clock y <= now ->
  from_option (answerOk C (requestOf (b_command b) ck)) True a -> sound n maxraft (clerkGoes id ck b a now y).
Proof.
  intros HK Hc Hnow Ha. destruct (clerkIter_spec C (b_command b) ck a Ha) as (Hr & Hid & Hseq).
  pose proof (ki_clerks _ _ _ _ _ _ _ _ _ _ _ HK) as HC. destruct (clerk_numbers _ _ _ _ _ _ _ _ _ HC Hc) as (Hcid & _ & _).
  pose proof (co_busy _ _ _ _ _ _ HC id ck b Hc) as Hb.
  unfold clerkGoes; destruct (clerkIter (b_command b) a ck) as [ck' [v|]]; cbn [fst snd] in *.
  - destruct a as [a|]; [|done]. destruct (bo_began _ _ _ _ _ _ _ Hb) as (L & HL & Hn & Hreal).
    destruct (answer_point C (b_command b) ck a v (b_start b) now L) as (t & Hp & Ht); [|done|done|by rewrite Hcid|].
    { intros op Hop E. destruct HC as [(_ & Hsub & _) _ _ _ _ _ _ _ _ _ _]. apply Hsub in Hop; simpl in Hop.
      apply list_elem_of_fmap in Hop as (rq & -> & Hrq). apply (bo_sent _ _ _ _ _ _ _ Hb); [done|]. by rewrite E, Hcid. }
    rewrite Hcid in Hp. eapply sound_clerks; [done|].
    apply (clerks_return C recs _ _ (y_log y) (y_clock y) now id ck b ck' (t, (id, seqNum ck), logged id (b_command b) (b_start b) v now)); try done.
    intros x' Hx' Hlt; specialize (Hreal x' Hx' Hlt). simpl; lia.
  - eapply sound_clerks; [done|]. eapply clerks_set; try done. rewrite <- (requestOf_same (b_command b) ck ck') in Ha by done.
    destruct Hb as [Hs1 Hs2 Hs3 Hs4]; split; simpl; try done; [lia| |by rewrite Hseq].
    intros rq Hrq. rewrite Hseq, (requestOf_same (b_command b) ck ck') by done. by apply Hs2.
Qed.

Lemma sound_lost y y' id : sound n maxraft y -> kexecLost id y = Some y' -> sound n maxraft y'.
Proof.
  intros (V & H & LL & A & PP & C & K & recs & HK) HR. unfold kexecLost in HR.
  destruct (y_clerks y !! id) as [[ck [b|]]|] eqn:Hc; try done; cbn [mbind option_bind] in HR.
  destruct (b_rpc b); [|done]; injection HR as <-. by eapply sound_goes.
Qed.

Lemma sound_reply y y' id now : sound n maxraft y -> kexecReply id now y = Some y' -> sound n maxraft y'.
Proof.
  intros (V & H & LL & A & PP & C & K & recs & HK) HR. unfold kexecReply in HR.
  destruct (y_clerks y !! id) as [[ck [b|]]|] eqn:Hc; try done; cbn [mbind option_bind] in HR.
  destruct (b_rpc b) as [r|] eqn:Er; [|done]; cbn [mbind option_bind] in HR.
  destruct (y_rpcs y !! r) as [q|] eqn:Hq; [|done]; cbn [mbind option_bind] in HR. destruct (q_stage q) as [| | | |a|] eqn:Est; try done.
  case_if_in HR; [|done]; injection HR as <-. zbool. eapply sound_goes; [done|done|done|]. simpl.
  pose proof (rpc_in _ _ _ _ _ _ _ _ _ _ _ HK Hq) as Hr. unfold rpcOk in Hr; rewrite Est in Hr.
  pose proof (bo_rpc _ _ _ _ _ _ _ (co_busy _ _ _ _ _ _ (ki_clerks _ _ _ _ _ _ _ _ _ _ _ HK) id ck b Hc) r Er) as Erq.
  rewrite list_lookup_fmap, Hq in Erq; injection Erq as Erq. by rewrite Erq in Hr.
Qed.

(** ** Executions *)

Lemma sound_exec y y' (ev : kevent) :
  sound n maxraft y -> ktimely y ev = true -> calm_event maxraft y ev -> kexec size handles maxraft y ev = Some y' -> sound n maxraft y'.
Proof.
  intros Hs Ht Hc HE; destruct ev; cbn [kexec] in HE.
  - exact (sound_raft n maxraft y y' ev Hs Ht Hc HE).
  - exact (sound_kick n maxraft y y' i Hs Hc HE).
  - exact (sound_apply n maxraft size y y' i Hs HE).
  - exact (sound_snapshot n maxraft y y' k Hs HE).
  - exact (sound_install n maxraft size y y' k Hs HE).
  - exact (sound_crash n maxraft y y' i now Hs HE).
  - exact (sound_register y y' r Hs HE).
  - exact (sound_start y y' r Hs HE).
  - exact (sound_end y y' r w Hs HE).
  - exact (sound_make y y' id Hs HE).
  - exact (sound_call y y' id c now Hs HE).
  - exact (sound_send y y' id Hs HE).
  - exact (sound_lost y y' id Hs HE).
  - exact (sound_reply y y' id now Hs HE).
Qed.

Lemma sound_run ordered y y' (evs : list kevent) :
  ordered = true \/ maxraft = -1 -> sound n maxraft y -> krun size handles ordered maxraft y evs = Some y' -> sound n maxraft y'.
Proof.
  intros Ho; revert y; induction evs as [|ev evs IH]; simpl; intros y Hs HR; [by injection HR as <-|].
  destruct (ktimely y ev) eqn:Et; [|done]. destruct (negb ordered || prompt y ev) eqn:Ep; [|done]. simpl in HR.
  destruct (kexec size handles maxraft y ev) as [y1|] eqn:HE; [|done]. eapply IH, HR. eapply sound_exec; [exact Hs|done| |exact HE].
  destruct Ho as [->|]; [by right|by left].
Qed.

Lemma init_peer s i rf : init (Cmd := Op) n = Some s -> idx (nodes s) i = Some rf ->
  capped rf /\ snapIndex rf = 0 /\ snapshot rf = [] /\ covers rf = 0.
Proof.
  intros HI Hrf. pose proof (init_nodes n s i rf HI Hrf) as Hb; unfold boot, Make in Hb; simpl in Hb. inv_opt. done.
Qed.

Lemma sound_init y : kinit n maxraft = Some y -> sound n maxraft y.
Proof.
  unfold kinit; intros HR. destruct (init n) as [s|] eqn:HI; [|done]; injection HR as <-.
  exists (fun _ _ _ => False), ∅, ∅, (fun _ _ _ => False), (replicate (length (nodes s)) [sentinel]), [], (fun _ => 0%nat), []. split; simpl; try done.
  - by apply init_inv.
  - by apply init_log.
  - intros _; split; [by eapply init_untrimmed|done].
  - split; try done.
    + unfold len; by rewrite length_replicate.
    + intros i rf Hrf. destruct (init_peer s i rf HI Hrf) as (? & -> & -> & _). split; [done|by left].
    + intros r p args Hp. assert (reps s = []) as E by (unfold init in HI; by inv_opt). by rewrite E in Hp.
    + intros i kv pq rf Hi Hrf. assert ((kv, pq) = (StartKVServer MakePersister maxraft, [])) as [= -> ->].
      { unfold idx in Hi; case_if_in Hi; [|done]. by apply lookup_replicate in Hi as [-> _]. }
      destruct (init_peer s i rf HI Hrf) as (_ & _ & _ & ->).
      split; [intros key ch Hx; simpl in Hx; by rewrite lookup_empty in Hx|]. split; [done|]. split; [done|]. exists 0%nat; simpl; split_and!; done || lia.
    + intros i x d Hx; by apply elem_of_nil in Hx.
    + intros i m Hx; by apply elem_of_nil in Hx.
    + constructor.
    + intros i m Hx; by apply elem_of_nil in Hx.
    + intros q Hq; by apply elem_of_nil in Hq.
  - split; try done; try (intros x Hx; by apply elem_of_nil in Hx).
    + rewrite fmap_empty. exact sysInv_init.
    + intros rq rq' Hx; by apply elem_of_nil in Hx.
    + constructor.
    + intros x x' Hx; by apply elem_of_nil in Hx.
Qed.

(** Once every call has returned, the log linearizes the history. *)
Lemma sound_linearizable y :
  sound n maxraft y -> quiescent y -> linearizable storeModel (y_log y) /\ timesOk (y_log y).
Proof.
  intros (V & H & LL & A & PP & C & K & recs & HK) Hidle. destruct (ki_clerks _ _ _ _ _ _ _ _ _ _ _ HK) as [Hsys Hknown Hsame _ <- Hids Hpts _ Hdone Htimes Hreal].
  pose proof Hsys as (Hser & Hsub & Hcks & Hreq). cbn [committed requests clerks] in *. split.
  - apply (points_linearizable C); try done.
    + apply Forall_forall; intros op Hop. rewrite Forall_forall in Hknown. by apply Hknown, Hsub.
    + intros p op Hf Hg. pose proof (Hsub op (list_elem_of_lookup_2 _ _ _ (proj1 Hf))) as Hin.
      destruct (Hreq op Hin) as (ck & o & Hc & _). rewrite lookup_fmap in Hc; apply fmap_Some in Hc as ([ck' b] & Hc & [= -> ->]).
      pose proof (Hidle _ _ Hc) as Eb; simpl in Eb; subst b. apply list_elem_of_fmap in Hin as (rq & -> & Hrq).
      destruct (Hcks (ClientId (requestOp rq)) ck' None) as (_ & _ & _ & Hlt); [by rewrite lookup_fmap, Hc|].
      destruct (Hdone rq _ Hrq Hc) as (x & Hx & Exid); [apply Hlt; [done|by apply list_elem_of_fmap_2|done]|].
      exists x; split; [done|]. rewrite Forall_forall in Hpts. destruct (Hpts x Hx) as (op' & p' & [Hp' Hn'] & E' & _ & Ho).
      destruct Hf as [Hp Hn]. assert (p' = p) as ->.
      { rewrite Exid in E'. destruct (Nat.lt_trichotomy p' p) as [Hlt'|[|Hlt']]; [|done|].
        - destruct Hn. rewrite <- E'. apply list_elem_of_fmap_2, (list_elem_of_lookup_2 _ p'). by rewrite lookup_take_lt.
        - destruct Hn'. rewrite E'. apply list_elem_of_fmap_2, (list_elem_of_lookup_2 _ p). by rewrite lookup_take_lt. }
      rewrite Hp in Hp'; injection Hp' as <-. by rewrite decide_False in Ho.
  - intros op (x & -> & Hx)%list_elem_of_fmap. by destruct (Htimes x Hx).
Qed.
End service.

Lemma sound_reached n size handles ordered maxraft evs y0 y :
  ordered = true \/ maxraft = -1 -> kinit n maxraft = Some y0 -> krun size handles ordered maxraft y0 evs = Some y -> sound n maxraft y.
Proof. intros Ho HI. by apply sound_run, sound_init. Qed.




(** ** Concrete executions *)

(** Peer 0 is elected. A clerk puts a key; peer 1 has the entry, server 0 applies
    it and takes a snapshot, which peer 2 installs. *)
Definition ex_put : list kevent :=
  (KRaft <$> [ETick 0 1000; EBuild 0; EVote 0 1001; EVoteReply 0])
  ++ [KMake 7; KCall 7 (KPut "x" "1") 10; KSend 7; KRegister 0; KStart 0]
  ++ (KRaft <$> [ERepSend 0; ERepHandle 0 1002; ERepReply 0])
  ++ [KKick 0; KApply 0; KEnd 0 Signalled; KReply 7 20; KSnapshot 0]
  ++ (KRaft <$> [ERepSend 1; ERepHandle 1 1003; ERepReply 1]).

(** Peer 1 learns that the entry is committed. *)
Definition ex_heartbeat : list kevent := (KRaft <$> [ERepSend 0; ERepHandle 0 1004; ERepReply 0]) ++ [KKick 1].

(** Peer 2 is elected. The clerk gets the key; its first RPC is lost, its second
    one goes to server 2. *)
Definition ex_get : list kevent :=
  (KRaft <$> [ETick 2 9000; EBuild 3; EVote 3 9001; EVoteReply 3])
  ++ [KCall 7 (KGet "x") 30; KSend 7; KLost 7; KSend 7; KRegister 2; KStart 2]
  ++ (KRaft <$> [ERepSend 3; ERepHandle 3 9002; ERepReply 3])
  ++ [KKick 2; KApply 2; KEnd 2 Signalled; KReply 7 40; KSnapshot 0].

Definition ex_service : list kevent := ex_put ++ [KInstall 0] ++ ex_get.

(** A state is 100 bytes long, the servers allow 10; the clerk asks the servers
    in the order 0, 2, 1. *)
Definition ex_size : bytes -> Z := fun _ => 100.
Definition ex_handles : Z -> list Z := fun _ => [0; 2; 1].
Definition no_sys : kvsys := mkKvsys (mkCluster [] [] [] []) [] [] [] [] ∅ [] 0.
Definition ex_booting : kvsys := default no_sys (kinit 3 10).
Definition ex_run (ordered : bool) (evs : list kevent) : kvsys :=
  default no_sys (krun ex_size ex_handles ordered 10 ex_booting evs).

Definition ex_logged (v : string) : list kvop := [logged 7 (KPut "x" "1") 10 "" 20; logged 7 (KGet "x") 30 v 40].

Lemma ex_booted_sys : kinit 3 10 = Some ex_booting.
Proof. vm_compute; reflexivity. Qed.

Lemma ex_served_run : krun ex_size ex_handles true 10 ex_booting ex_service = Some (ex_run true ex_service).
Proof. vm_compute; reflexivity. Qed.

Lemma ex_served_log : y_log (ex_run true ex_service) = ex_logged "1".
Proof. vm_compute; reflexivity. Qed.

Lemma ex_parts : length (partitionsOf (KvModel id) (y_log (ex_run true ex_service))) = 1%nat.
Proof. vm_compute; reflexivity. Qed.

Lemma one_idle y (id : Z) (ck : Clerk) : y_clerks y = {[ id := (ck, None) ]} -> quiescent y.
Proof. intros E id' p; rewrite E. by intros [_ <-]%lookup_singleton_Some. Qed.

Lemma ex_served_quiescent : quiescent (ex_run true ex_service).
Proof. apply (one_idle _ 7 (mkClerk 3 7 3 1)). vm_compute; reflexivity. Qed.



(** The message of the snapshot and a command are under way. *)
Lemma ex_pending_run :
  krun ex_size ex_handles true 10 ex_booting (ex_put ++ ex_heartbeat) = Some (ex_run true (ex_put ++ ex_heartbeat)).
Proof. vm_compute; reflexivity. Qed.

Definition ex_server1 : KVServer * list (ApplyMsg Op) :=
  default (StartKVServer MakePersister 10, []) (idx (y_servers (ex_run true (ex_put ++ ex_heartbeat))) 1).

Lemma ex_pending :
  idx (y_servers (ex_run true (ex_put ++ ex_heartbeat))) 1 = Some (ex_server1.1, ex_server1.2)
  /\ length ex_server1.2 = 1%nat /\ length (y_installs (ex_run true (ex_put ++ ex_heartbeat))) = 1%nat.
Proof. split_and!; vm_compute; reflexivity. Qed.

Lemma length_one {B} (l : list B) : length l = 1%nat -> l <> [].
Proof. by destruct l. Qed.

Lemma one_positive (k : nat) : k = 1%nat -> (0 < k)%nat.
Proof. lia. Qed.


(** A put that returned, and then a get that does not find it. *)
Lemma lost_put : ~ linearizable storeModel (ex_logged "").
Proof.
  intros (order & Hp & Hr & Hl). symmetry in Hp. apply Permutation_length_2_inv in Hp as [-> | ->].
  - destruct Hl as (op & m & Eop & Hs & op' & m' & Eop' & Hs' & _). vm_compute in Eop, Eop'; injection Eop as <-; injection Eop' as <-.
    vm_compute in Hs; injection Hs as <-. vm_compute in Hs'. discriminate.
  - destruct Hr as [Hr _]. by apply (Hr 0 (logged 7 (KGet "x") 30 "" 40) (logged 7 (KPut "x" "1") 10 "" 20)); [left|..].
Qed.

(** C24: Without the order, the service is not linearizable: the message of an
    installed snapshot is still under way when peer 2 leads and sends its server
    the clerk's get. The get finds nothing, though the put had returned. *)
Theorem late_install_loses_put :
  let y := ex_run false (ex_put ++ ex_get) in
  krun ex_size ex_handles false 10 ex_booting (ex_put ++ ex_get) = Some y /\ quiescent y
  /\ y_log y = ex_logged "" /\ ~ linearizable storeModel (y_log y).
Proof.
  cbv zeta. assert (El : y_log (ex_run false (ex_put ++ ex_get)) = ex_logged "") by (vm_compute; reflexivity).
  split; [vm_compute; reflexivity|]. split; [apply (one_idle _ 7 (mkClerk 3 7 3 1)); vm_compute; reflexivity|].
  split; [exact El|]. rewrite El. exact lost_put.
Qed.
