(* ===== verification/LabRpc.v ===== *)
(** * labrpc: the simulated network

    Models [labrpc/labrpc.go]. Names of ends and servers are of a countable
    type [Name], and nil is [None]. A [*Server] is a location of [srvs], so that
    comparing servers compares pointers. The objects behind the services are one
    value [world]; a method changes it in one step and returns the reply. A byte
    buffer is a gob stream; [byteLen] is its length in bytes. Random numbers
    enter as arguments of the steps.

    [log.Fatalf], an index out of range and a nil pointer give [None]. *)

From Stdlib Require Import Ascii.
From S2P Require Import Prelude Gob.

#[local] Open Scope Z_scope.

(** The buffer of one value, read back as it was written. *)
#[export] Instance gob_goval : GobType goval.
Proof. by refine {| to_gob := fun v => v; from_gob := Some |}. Defined.

(** [strings.LastIndex(s, ".")]; -1 if there is none. *)
Fixpoint lastDot (pos : Z) (s : string) (found : Z) : Z :=
  match s with
  | EmptyString => found
  | String c s => lastDot (pos + 1) s (if Ascii.eqb c "."%char then pos else found)
  end.
Definition LastIndexDot (s : string) : Z := lastDot 0 s (-1).

(** [s[:i]] and [s[i:]] *)
Definition sliceTo (s : string) (i : Z) : option string :=
  if (0 <=? i) && (i <=? Z.of_nat (String.length s)) then Some (String.substring 0 (Z.to_nat i) s) else None.
Definition sliceFrom (s : string) (i : Z) : option string :=
  if (0 <=? i) && (i <=? Z.of_nat (String.length s))
  then Some (String.substring (Z.to_nat i) (String.length s - Z.to_nat i) s) else None.

Section labrpc.
Context {Name : Type} `{Countable Name} {W : Type} (byteLen : bytes -> Z).

(** [argsType] is represented by the zero value of the type. *)
Record reqMsg : Type := mkReq { endname : Name; svcMeth : string; argsType : goval; args : bytes }.
Record replyMsg : Type := mkReply { ok : bool; reply : bytes }.

(** ** Services *)

(** What reflection says of a method of the receiver, and the method. *)
Record Method : Type := mkMethod {
  PkgPath : string; MName : string; NumIn : Z; In2IsPtr : bool; NumOut : Z; Func : W -> goval -> W * goval }.

Record Service : Type := mkService { svc_name : string; methods : gmap string Method }.

Definition suitable (m : Method) : bool :=
  negb (negb (String.eqb (PkgPath m) "") || negb (NumIn m =? 3) || negb (In2IsPtr m) || negb (NumOut m =? 0)).

Definition MakeService (name : string) (typ : list Method) : Service :=
  mkService name (foldl (fun ms m => if suitable m then <[MName m := m]> ms else ms) ∅ typ).

(** [Service.dispatch]; an error of [Decode] is ignored. *)
Definition serviceDispatch (svc : Service) (methname : string) (req : reqMsg) (w : W) : option (W * replyMsg) :=
  method ← methods svc !! methname;
  let a := match Decode (A := goval) (args req) with Some (v, _) => v | None => argsType req end in
  let '(w, replyv) := Func method w a in
  Some (w, mkReply true (Encode [] replyv)).

(** ** Servers *)

Record Server : Type := mkServer { services : gmap string Service; srv_count : Z }.

Definition MakeServer : Server := mkServer ∅ 0.
Definition AddService (svc : Service) (rs : Server) : Server :=
  mkServer (<[svc_name svc := svc]> (services rs)) (srv_count rs).

Definition serverDispatch (rs : Server) (req : reqMsg) (w : W) : option (Server * W * replyMsg) :=
  let rs := mkServer (services rs) (srv_count rs + 1) in
  let dot := LastIndexDot (svcMeth req) in
  serviceName ← sliceTo (svcMeth req) dot;
  methodName ← sliceFrom (svcMeth req) (dot + 1);
  service ← services rs !! serviceName;
  '(w, r) ← serviceDispatch service methodName req w;
  Some (rs, w, r).

(** ** The network *)

Record Network : Type := mkNetwork {
  reliable : bool; longDelays : bool; longReordering : bool;
  ends : gset Name;
  enabled : gmap Name bool;
  servers : gmap Name (option nat);
  connections : gmap Name (option Name);
  rn_done : bool;
  rn_count : Z; rn_bytes : Z;
}.

Definition MakeNetwork : Network := mkNetwork true false false ∅ ∅ ∅ ∅ false 0 0.

Definition Cleanup (rn : Network) : option Network :=
  (* closing a closed channel panics *)
  if rn_done rn then None
  else Some (mkNetwork (reliable rn) (longDelays rn) (longReordering rn) (ends rn) (enabled rn) (servers rn)
               (connections rn) true (rn_count rn) (rn_bytes rn)).
Definition Reliable (yes : bool) (rn : Network) : Network :=
  mkNetwork yes (longDelays rn) (longReordering rn) (ends rn) (enabled rn) (servers rn)
    (connections rn) (rn_done rn) (rn_count rn) (rn_bytes rn).
Definition LongReordering (yes : bool) (rn : Network) : Network :=
  mkNetwork (reliable rn) (longDelays rn) yes (ends rn) (enabled rn) (servers rn)
    (connections rn) (rn_done rn) (rn_count rn) (rn_bytes rn).
Definition LongDelays (yes : bool) (rn : Network) : Network :=
  mkNetwork (reliable rn) yes (longReordering rn) (ends rn) (enabled rn) (servers rn)
    (connections rn) (rn_done rn) (rn_count rn) (rn_bytes rn).
Definition addTraffic (calls bs : Z) (rn : Network) : Network :=
  mkNetwork (reliable rn) (longDelays rn) (longReordering rn) (ends rn) (enabled rn) (servers rn)
    (connections rn) (rn_done rn) (rn_count rn + calls) (rn_bytes rn + bs).

Definition MakeEnd (e : Name) (rn : Network) : option Network :=
  if decide (e ∈ ends rn) then None
  else Some (mkNetwork (reliable rn) (longDelays rn) (longReordering rn) ({[e]} ∪ ends rn)
               (<[e := false]> (enabled rn)) (servers rn) (<[e := None]> (connections rn))
               (rn_done rn) (rn_count rn) (rn_bytes rn)).
Definition setServer (servername : Name) (rs : option nat) (rn : Network) : Network :=
  mkNetwork (reliable rn) (longDelays rn) (longReordering rn) (ends rn) (enabled rn)
    (<[servername := rs]> (servers rn)) (connections rn) (rn_done rn) (rn_count rn) (rn_bytes rn).
Definition AddServer (servername : Name) (rs : nat) (rn : Network) : Network := setServer servername (Some rs) rn.
Definition DeleteServer (servername : Name) (rn : Network) : Network := setServer servername None rn.
Definition Connect (e servername : Name) (rn : Network) : Network :=
  mkNetwork (reliable rn) (longDelays rn) (longReordering rn) (ends rn) (enabled rn) (servers rn)
    (<[e := Some servername]> (connections rn)) (rn_done rn) (rn_count rn) (rn_bytes rn).
Definition Enable (e : Name) (on : bool) (rn : Network) : Network :=
  mkNetwork (reliable rn) (longDelays rn) (longReordering rn) (ends rn) (<[e := on]> (enabled rn)) (servers rn)
    (connections rn) (rn_done rn) (rn_count rn) (rn_bytes rn).

Definition serverOf (rn : Network) (servername : Name) : option nat := default None (servers rn !! servername).
Definition isEnabled (rn : Network) (e : Name) : bool := default false (enabled rn !! e).

Definition GetCount (srvs : gmap nat Server) (servername : Name) (rn : Network) : option Z :=
  svr ← serverOf rn servername; srv_count <$> srvs !! svr.
Definition GetTotalCount (rn : Network) : Z := rn_count rn.
Definition GetTotalBytes (rn : Network) : Z := rn_bytes rn.

Definition readEndnameInfo (e : Name) (rn : Network) : bool * option Name * option nat * bool * bool :=
  let servername := default None (connections rn !! e) in
  (isEnabled rn e, servername, servername ≫= serverOf rn, reliable rn, longReordering rn).

Definition isServerDead (e servername : Name) (server : nat) (rn : Network) : bool :=
  negb (isEnabled rn e) || negb (bool_decide (serverOf rn servername = Some server)).

(** ** A call *)

(** Where the goroutine of [processReq], and with it the caller, has got to. *)
Inductive phase : Type :=
| Queued                                                       (* the caller is at its [select] *)
| Accepted                                                     (* [go rn.processReq(xreq)] *)
| Waiting (servername : Name) (server : nat) (reliable longreordering : bool)
| Received (servername : Name) (server : nat) (reliable longreordering : bool) (r : replyMsg)
| GaveUp                                                       (* [serverDead] in the loop *)
| Sending (r : replyMsg) (delayed : bool)                      (* a timer or the goroutine sends on [replyCh] *)
| Returned (result : option goval).                            (* [Call] has returned; [Some v]: true, and the reply *)

(** The goroutine that runs the handler, once it is started. *)
Inductive handler : Type := HNone | HStarted (server : nat) | HDone (server : nat) (r : replyMsg).

Record call : Type := mkCall { msg : reqMsg; stage : phase; hnd : handler }.

Record net : Type := mkNet {
  rn : Network; srvs : gmap nat Server; world : W; calls : list call }.

(** [Call] up to its [select]. *)
Definition callRequest (e : Name) (meth : string) (zero a : goval) : call :=
  mkCall (mkReq e meth zero (Encode [] a)) Queued HNone.

(** [Call] after the receive on [replyCh]; [None]: [log.Fatalf]. *)
Definition callReply (r : replyMsg) : option (option goval) :=
  if ok r then '(v, _) ← Decode (reply r); Some (Some v) else Some None.

(** [processReq] up to the goroutine of the handler. [drop]: [rand.Int()%1000 < 100]. *)
Definition processStart (drop : bool) (req : reqMsg) (rn : Network) : phase * handler :=
  let '(enabled, servername, server, reliable, longreordering) := readEndnameInfo (endname req) rn in
  match enabled, servername, server with
  | true, Some servername, Some server =>
      if negb reliable && drop then (Sending (mkReply false []) false, HNone)
      else (Waiting servername server reliable longreordering, HStarted server)
  | _, _, _ => (Sending (mkReply false []) true, HNone)
  end.

(** [processReq] after its loop. [drop]: [rand.Int()%1000 < 100];
    [late]: [rand.Intn(900) < 600]. *)
Definition processDecide (drop late : bool) (req : reqMsg) (servername : Name) (server : nat)
    (reliable longreordering : bool) (r : replyMsg) (rn : Network) : phase * Network :=
  if isServerDead (endname req) servername server rn then (Sending (mkReply false []) false, rn)
  else if negb reliable && drop then (Sending (mkReply false []) false, rn)
  else if longreordering && late then (Sending r true, rn)
  else (Sending r false, addTraffic 0 (byteLen (reply r)) rn).

(** ** Steps *)

(** What a test does to the network while calls are under way. *)
Inductive netOp : Type :=
| OMakeEnd (e : Name)
| OConnect (e servername : Name)
| OEnable (e : Name) (on : bool)
| OAddServer (servername : Name) (rs : nat)
| ODeleteServer (servername : Name)
| OReliable (yes : bool)
| OLongReordering (yes : bool)
| OLongDelays (yes : bool)
| OCleanup.

Definition netOpExec (op : netOp) (rn : Network) : option Network :=
  match op with
  | OMakeEnd e => MakeEnd e rn
  | OConnect e servername => Some (Connect e servername rn)
  | OEnable e on => Some (Enable e on rn)
  | OAddServer servername rs => Some (AddServer servername rs rn)
  | ODeleteServer servername => Some (DeleteServer servername rn)
  | OReliable yes => Some (Reliable yes rn)
  | OLongReordering yes => Some (LongReordering yes rn)
  | OLongDelays yes => Some (LongDelays yes rn)
  | OCleanup => Cleanup rn
  end.

Inductive netEvent : Type :=
| NCall (e : Name) (meth : string) (zero a : goval)
| NAccept (q : nat)                     (* the goroutine of MakeNetwork receives *)
| NDown (q : nat)                       (* the caller sees [done] *)
| NStart (q : nat) (drop : bool)
| NHandler (q : nat)                    (* [server.dispatch(req)] *)
| NReceive (q : nat)                    (* [reply = <-ech] *)
| NTimer (q : nat)                      (* 100 ms have passed *)
| NDecide (q : nat) (drop late : bool)
| NDeliver (q : nat)                    (* the caller receives on [replyCh] *)
| NNetwork (op : netOp).

Definition setCall (q : nat) (c : call) (s : net) : net := mkNet (rn s) (srvs s) (world s) (<[q := c]> (calls s)).
Definition setRn (n : Network) (s : net) : net := mkNet n (srvs s) (world s) (calls s).

Definition netExec (ev : netEvent) (s : net) : option net :=
  match ev with
  | NCall e meth zero a => Some (mkNet (rn s) (srvs s) (world s) (calls s ++ [callRequest e meth zero a]))
  | NAccept q =>
      c ← calls s !! q;
      match stage c with
      | Queued =>
          if rn_done (rn s) then None
          else Some (setRn (addTraffic 1 (byteLen (args (msg c))) (rn s)) (setCall q (mkCall (msg c) Accepted (hnd c)) s))
      | _ => None
      end
  | NDown q =>
      c ← calls s !! q;
      match stage c with
      | Queued => if rn_done (rn s) then Some (setCall q (mkCall (msg c) (Returned None) (hnd c)) s) else None
      | _ => None
      end
  | NStart q drop =>
      c ← calls s !! q;
      match stage c with
      | Accepted =>
          let '(st, h) := processStart drop (msg c) (rn s) in
          Some (setCall q (mkCall (msg c) st h) s)
      | _ => None
      end
  | NHandler q =>
      c ← calls s !! q;
      match hnd c with
      | HStarted server =>
          rs ← srvs s !! server;
          '(rs, w, r) ← serverDispatch rs (msg c) (world s);
          Some (mkNet (rn s) (<[server := rs]> (srvs s)) w (<[q := mkCall (msg c) (stage c) (HDone server r)]> (calls s)))
      | _ => None
      end
  | NReceive q =>
      c ← calls s !! q;
      match stage c, hnd c with
      | Waiting servername server rel longr, HDone _ r =>
          Some (setCall q (mkCall (msg c) (Received servername server rel longr r) (hnd c)) s)
      | _, _ => None
      end
  | NTimer q =>
      c ← calls s !! q;
      match stage c with
      | Waiting servername server rel longr =>
          if isServerDead (endname (msg c)) servername server (rn s)
          then Some (setCall q (mkCall (msg c) GaveUp (hnd c)) s)
          else Some s
      | _ => None
      end
  | NDecide q drop late =>
      c ← calls s !! q;
      match stage c with
      | Received servername server rel longr r =>
          let '(st, n) := processDecide drop late (msg c) servername server rel longr r (rn s) in
          Some (setRn n (setCall q (mkCall (msg c) st (hnd c)) s))
      | GaveUp => Some (setCall q (mkCall (msg c) (Sending (mkReply false []) false) (hnd c)) s)
      | _ => None
      end
  | NDeliver q =>
      c ← calls s !! q;
      match stage c with
      | Sending r delayed =>
          result ← callReply r;
          let n := if delayed && ok r then addTraffic 0 (byteLen (reply r)) (rn s) else rn s in
          Some (setRn n (setCall q (mkCall (msg c) (Returned result) (hnd c)) s))
      | _ => None
      end
  | NNetwork op => n ← netOpExec op (rn s); Some (setRn n s)
  end.

Fixpoint netExecs (evs : list netEvent) (s : net) : option net :=
  match evs with [] => Some s | ev :: evs => s ← netExec ev s; netExecs evs s end.
End labrpc.

Arguments net : clear implicits.
Arguments net _ {_ _} _.
Arguments call : clear implicits.
Arguments netEvent : clear implicits.
Arguments netOp : clear implicits.
Arguments Network _ {_ _}.
Arguments Server : clear implicits.
Arguments Service : clear implicits.
Arguments Method : clear implicits.
