(* ===== verification/LabRpcFacts.v ===== *)
(** * labrpc: what a call guarantees

    Theorems over all interleavings of calls, handlers, timers and changes to
    the network. *)

From Stdlib Require Import Ascii.
From S2P Require Import Prelude GoFmt Gob LabRpc.

#[local] Open Scope Z_scope.

Section facts.
Context {Name : Type} `{Countable Name} {W : Type} (byteLen : bytes -> Z).
Notation net := (net Name W).
Notation netEvent := (netEvent Name).
Notation netExec := (netExec (W := W) byteLen).
Notation netExecs := (netExecs (W := W) byteLen).
Implicit Types (s : net) (ev : netEvent) (evs : list netEvent) (q : nat) (c : call Name).

Lemma netExecs_app evs1 evs2 s :
  netExecs (evs1 ++ evs2) s = s' ← netExecs evs1 s; netExecs evs2 s'.
Proof.
  revert s; induction evs1 as [|ev evs1 IH]; intros s; simpl; [done|].
  destruct (netExec ev s); simpl; [apply IH|done].
Qed.

Lemma netExecs_snoc evs ev s s' :
  netExecs (evs ++ [ev]) s = Some s' <-> exists s1, netExecs evs s = Some s1 /\ netExec ev s1 = Some s'.
Proof.
  rewrite netExecs_app; destruct (netExecs evs s) as [s1|]; simpl.
  - destruct (netExec ev s1) eqn:E; simpl; naive_solver.
  - naive_solver.
Qed.

(** The call an event belongs to. *)
Definition callOfEvent ev : option nat :=
  match ev with
  | NCall _ _ _ _ | NNetwork _ => None
  | NAccept q | NDown q | NStart q _ | NHandler q | NReceive q | NTimer q | NDecide q _ _ | NDeliver q => Some q
  end.

(** *** A step, seen from one call *)

(** The call that was just written. *)
Ltac own_call Hc := simpl in Hc; rewrite list_lookup_insert_eq in Hc by done; simplify_eq.

Ltac open_step Hex :=
  repeat match type of Hex with
  | context [mbind _ ?o] =>
      let E := fresh "E" in destruct o eqn:E; cbn [mbind option_bind] in Hex; [|discriminate Hex]
  | (match ?x with _ => _ end) = Some _ => let E := fresh "E" in destruct x eqn:E; try discriminate Hex
  end; simplify_eq.

Lemma netExec_other ev s s' q c :
  netExec ev s = Some s' -> calls s' !! q = Some c -> callOfEvent ev <> Some q ->
  calls s !! q = Some c
  \/ (q = length (calls s) /\ exists e meth zero a, ev = NCall e meth zero a /\ c = callRequest e meth zero a).
Proof.
  intros Hex Hc Hq; destruct ev; cbn [netExec] in Hex; cbn [callOfEvent] in Hq.
  1: { simplify_eq. apply lookup_app_Some in Hc as [Hc|[Hle Hc]]; [by left|right].
       destruct (q - length (calls s))%nat eqn:E; [|done]. simpl in Hc; simplify_eq. split; [lia|by do 4 eexists]. }
  all: left; open_step Hex; simpl in Hc; try (rewrite list_lookup_insert_ne in Hc by congruence); done.
Qed.

Lemma netExec_length ev s s' : netExec ev s = Some s' -> (length (calls s) <= length (calls s'))%nat.
Proof.
  intros Hex; destruct ev; cbn [netExec] in Hex; open_step Hex; simpl;
    rewrite ?length_app, ?length_insert; lia.
Qed.

Lemma netExec_msg ev s s' q c :
  netExec ev s = Some s' -> calls s !! q = Some c ->
  exists c', calls s' !! q = Some c' /\ msg c' = msg c.
Proof.
  intros Hex Hc; pose proof (lookup_lt_Some _ _ _ Hc) as Hlt; destruct ev; cbn [netExec] in Hex; open_step Hex; simpl;
    try (exists c; split; [|done]; by rewrite ?lookup_app_l by done).
  all: match goal with
       | |- context [<[?p := ?d]> (calls _)] =>
           destruct (decide (p = q)) as [->|];
           [exists d; rewrite list_lookup_insert_eq by done; split; [done|]; simpl; congruence
           |exists c; rewrite list_lookup_insert_ne by done; done]
       end.
Qed.

(** ** What has happened to a call *)

(** The handler of [q] ran once, on [srv], and produced [r]. *)
Definition handled s0 evs q (m : reqMsg (Name := Name)) (srv : nat) (r : replyMsg) : Prop :=
  exists evs1 evs2 s1 rs rs' w', evs = evs1 ++ NHandler q :: evs2
    /\ NHandler q ∉ evs1 /\ NHandler q ∉ evs2
    /\ netExecs evs1 s0 = Some s1 /\ srvs s1 !! srv = Some rs /\ serverDispatch rs m (world s1) = Some (rs', w', r).

(** Afterwards the end was still enabled and the server still in place. *)
Definition checked s0 evs q (m : reqMsg (Name := Name)) (srv : nat) (r : replyMsg) : Prop :=
  exists evs1 evs2 s2 servername, evs = evs1 ++ evs2 /\ handled s0 evs1 q m srv r /\ NHandler q ∉ evs2
    /\ netExecs evs1 s0 = Some s2 /\ isServerDead (endname m) servername srv (rn s2) = false.

Definition handlerInv s0 evs q c : Prop :=
  match hnd c with
  | HDone srv r => handled s0 evs q (msg c) srv r
  | _ => NHandler q ∉ evs
  end.

Definition stageInv s0 evs q c : Prop :=
  match stage c with
  | Queued | Accepted => hnd c = HNone
  | Waiting _ srv _ _ => hnd c = HStarted srv \/ exists r, hnd c = HDone srv r
  | Received _ srv _ _ r => hnd c = HDone srv r
  | GaveUp => True
  | Sending r _ => ok r = true -> exists srv, hnd c = HDone srv r /\ checked s0 evs q (msg c) srv r
  | Returned result => forall v, result = Some v ->
      exists r srv, callReply r = Some (Some v) /\ hnd c = HDone srv r /\ checked s0 evs q (msg c) srv r
  end.

Definition callsInv s0 evs s : Prop :=
  (forall q c, calls s !! q = Some c -> handlerInv s0 evs q c /\ stageInv s0 evs q c)
  /\ (forall q, (length (calls s) <= q)%nat -> NHandler q ∉ evs).

Lemma not_in_snoc evs ev ev' : ev ∉ evs -> ev <> ev' -> ev ∉ evs ++ [ev'].
Proof. rewrite elem_of_app, list_elem_of_singleton; tauto. Qed.

Lemma handled_snoc s0 evs ev q m srv r :
  handled s0 evs q m srv r -> NHandler q <> ev -> handled s0 (evs ++ [ev]) q m srv r.
Proof.
  intros (evs1 & evs2 & s1 & rs & rs' & w' & -> & H1 & H2 & H3 & H4 & H5) Hne.
  exists evs1, (evs2 ++ [ev]), s1, rs, rs', w'; split_and!; auto using not_in_snoc. by rewrite <- (assoc_L (++)).
Qed.

Lemma checked_snoc s0 evs ev q m srv r :
  checked s0 evs q m srv r -> NHandler q <> ev -> checked s0 (evs ++ [ev]) q m srv r.
Proof.
  intros (evs1 & evs2 & s2 & name & -> & H1 & H2 & H3 & H4) Hne.
  exists evs1, (evs2 ++ [ev]), s2, name; split_and!; auto using not_in_snoc. by rewrite (assoc_L (++)).
Qed.

Lemma checked_now s0 evs ev s q m srv name r :
  netExecs evs s0 = Some s -> handled s0 evs q m srv r -> NHandler q <> ev ->
  isServerDead (endname m) name srv (rn s) = false -> checked s0 (evs ++ [ev]) q m srv r.
Proof.
  intros Hs Hh Hne Hd; exists evs, [ev], s, name; split_and!; try done. set_solver.
Qed.

Lemma inv_snoc s0 evs ev q c :
  NHandler q <> ev -> handlerInv s0 evs q c /\ stageInv s0 evs q c ->
  handlerInv s0 (evs ++ [ev]) q c /\ stageInv s0 (evs ++ [ev]) q c.
Proof.
  intros Hne [Hh Hs]; split.
  - unfold handlerInv in *. destruct (hnd c); auto using not_in_snoc, handled_snoc.
  - unfold stageInv in *. destruct (stage c); try done.
    + intros Hok; destruct (Hs Hok) as (srv & ? & ?); eauto using checked_snoc.
    + intros v Hv; destruct (Hs v Hv) as (r' & srv & ? & ? & ?); eauto 6 using checked_snoc.
Qed.

(** The call that takes the step; [NHandler] apart. *)
Lemma inv_stage s0 evs ev s q c st h :
  netExecs evs s0 = Some s -> NHandler q <> ev ->
  handlerInv s0 evs q c -> (h = hnd c \/ (hnd c = HNone /\ forall srv r, h <> HDone srv r)) ->
  (NHandler q <> ev -> handlerInv s0 (evs ++ [ev]) q c -> stageInv s0 (evs ++ [ev]) q (mkCall (msg c) st h)) ->
  handlerInv s0 (evs ++ [ev]) q (mkCall (msg c) st h) /\ stageInv s0 (evs ++ [ev]) q (mkCall (msg c) st h).
Proof.
  intros Hs Hne Hh Hhnd Hst.
  assert (Hh' : handlerInv s0 (evs ++ [ev]) q c).
  { unfold handlerInv in *; destruct (hnd c); auto using not_in_snoc, handled_snoc. }
  split; [|by apply Hst]. destruct Hhnd as [->|[Hn Hh0]]; [done|].
  unfold handlerInv in *; rewrite Hn in Hh'; simpl. destruct h; [done|done|]. by destruct (Hh0 server r).
Qed.

Lemma inv_self s0 evs ev s s' q c :
  netExecs evs s0 = Some s -> callsInv s0 evs s -> netExec ev s = Some s' ->
  callOfEvent ev = Some q -> calls s' !! q = Some c ->
  handlerInv s0 (evs ++ [ev]) q c /\ stageInv s0 (evs ++ [ev]) q c.
Proof.
  intros Hs [Hinv _] Hex Hq Hc; destruct ev; simpl in Hq; simplify_eq; cbn [netExec] in Hex;
    destruct (calls s !! q) as [c0|] eqn:E0; cbn [mbind option_bind] in Hex; try discriminate Hex;
    pose proof (lookup_lt_Some _ _ _ E0) as Hlt; destruct (Hinv q c0 E0) as [Hh Hst]; unfold stageInv in Hst.
  - destruct (stage c0); try discriminate Hex. case_if_in Hex; simplify_eq. own_call Hc.
    apply (inv_stage s0 evs _ s q c0); auto. 
  - destruct (stage c0); try discriminate Hex. case_if_in Hex; simplify_eq. own_call Hc.
    apply (inv_stage s0 evs _ s q c0); auto. by intros _ _ v.
  - destruct (stage c0); try discriminate Hex. destruct (processStart drop (msg c0) (rn s)) as [st h] eqn:Ep; simplify_eq.
    own_call Hc.
    unfold processStart in Ep; destruct (readEndnameInfo _ _) as [[[[e n] sv] rel] lr].
    destruct e, n, sv; try (destruct (negb rel && drop)); simplify_eq;
      apply (inv_stage s0 evs _ s q c0); auto; try (right; split; [done|congruence]); intros _ _; unfold stageInv; simpl; auto; discriminate.
  - destruct (hnd c0) as [|srv|] eqn:Eh; try discriminate Hex.
    destruct (srvs s !! srv) as [rs|] eqn:Er; cbn [mbind option_bind] in Hex; [|done].
    destruct (serverDispatch rs (msg c0) (world s)) as [[[rs' w'] r]|] eqn:Ed; cbn [mbind option_bind] in Hex; [|done]; simplify_eq.
    own_call Hc.
    unfold handlerInv in Hh; rewrite Eh in Hh; split.
    + exists evs, [], s, rs, rs', w'; split_and!; try done. set_solver.
    + unfold stageInv; simpl. destruct (stage c0); try done.
      * destruct Hst as [Hst|[r' Hst]]; simplify_eq; eauto.
      * intros Hok; destruct (Hst Hok) as (srv' & ? & _); done.
      * intros v Hv; destruct (Hst v Hv) as (r' & srv' & _ & ? & _); done.
  - destruct (stage c0) eqn:Es; try discriminate Hex. destruct (hnd c0) as [|srv|srv r] eqn:Eh; try discriminate Hex. simplify_eq.
    own_call Hc. rewrite <- Eh.
    apply (inv_stage s0 evs _ s q c0); auto. intros _ _; unfold stageInv; simpl. destruct Hst as [Hst|[r' Hst]]; congruence.
  - destruct (stage c0) eqn:Es; try discriminate Hex. case_if_in Hex; simplify_eq.
    + own_call Hc.
      by apply (inv_stage s0 evs _ s q c0); auto.
    + apply inv_snoc; [done|]. split; [done|]. unfold stageInv; by rewrite Es.
  - destruct (stage c0) eqn:Es; try discriminate Hex.
    + destruct (processDecide _ _ _ _ _ _ _ _ _ _) as [st n] eqn:Ep; simplify_eq.
      own_call Hc.
      apply (inv_stage s0 evs _ s q c0); auto; intros Hne _. unfold processDecide in Ep.
      destruct (isServerDead _ _ _ _) eqn:Edead; [simplify_eq; done|].
      unfold handlerInv in Hh; rewrite Hst in Hh.
      repeat case_if_in Ep; simplify_eq; unfold stageInv; simpl; try done; intros _; eauto using checked_now.
    + simplify_eq. own_call Hc.
      by apply (inv_stage s0 evs _ s q c0); auto.
  - destruct (stage c0) eqn:Es; try discriminate Hex. destruct (callReply r) as [res|] eqn:Ec; cbn [mbind option_bind] in Hex; [|done].
    simplify_eq. own_call Hc.
    apply (inv_stage s0 evs _ s q c0); auto; intros Hne _. unfold stageInv; simpl; intros v ->.
    assert (Hok : ok r = true) by (unfold callReply in Ec; by destruct (ok r)).
    destruct (Hst Hok) as (srv & ? & ?). exists r, srv; eauto using checked_snoc.
Qed.

Lemma callsInv_step s0 evs ev s s' :
  netExecs evs s0 = Some s -> callsInv s0 evs s -> netExec ev s = Some s' -> callsInv s0 (evs ++ [ev]) s'.
Proof.
  intros Hs Hinv Hex; split.
  - intros q c Hc; destruct (decide (callOfEvent ev = Some q)) as [Hq|Hq]; [by eapply inv_self|].
    assert (Hne : NHandler q <> ev) by (by intros <-).
    destruct (netExec_other _ _ _ _ _ Hex Hc Hq) as [Hc'|(-> & e & meth & zero & a & -> & ->)].
    + apply inv_snoc; [done|]. by apply Hinv.
    + split; [|done]. unfold handlerInv; simpl. apply not_in_snoc; [|done]. by apply Hinv.
  - intros q Hle; pose proof (netExec_length _ _ _ Hex). apply not_in_snoc; [apply Hinv; lia|].
    intros <-; cbn [netExec] in Hex. rewrite lookup_ge_None_2 in Hex by lia. done.
Qed.

Lemma callsInv_reachable s0 evs s :
  calls s0 = [] -> netExecs evs s0 = Some s -> callsInv s0 evs s.
Proof.
  intros H0; revert s; induction evs as [|ev evs IH] using rev_ind; intros s Hs.
  - simpl in Hs; simplify_eq. split; [intros q c Hc; by rewrite H0 in Hc|]. intros q _; apply not_elem_of_nil.
  - apply netExecs_snoc in Hs as (s1 & Hs1 & Hex). by eapply callsInv_step; eauto.
Qed.

(** ** Servers that are gone *)

(** The handler of the call is on [srv], and no reply is decided. *)
Definition undecided c (srv : nat) : Prop :=
  match stage c with Waiting _ x _ _ | Received _ x _ _ _ => x = srv | _ => False end.

Definition refused c (srv : nat) : Prop :=
  match stage c with
  | GaveUp => True
  | Sending r _ => ok r = false
  | Returned result => result = None
  | _ => undecided c srv
  end.

Definition unregistered (srv : nat) s : Prop := forall n, serverOf (rn s) n <> Some srv.

Lemma unregistered_step srv ev s s' :
  unregistered srv s -> (forall n, ev <> NNetwork (OAddServer n srv)) -> netExec ev s = Some s' -> unregistered srv s'.
Proof.
  intros Hu Hadd Hex; assert (Hsame : servers (rn s') = servers (rn s) -> unregistered srv s').
  { intros E n; unfold serverOf; rewrite E; apply Hu. }
  destruct ev as [e meth zero a|q|q|q drop|q|q|q|q drop late|q|op]; cbn [netExec] in Hex.
  1-9: apply Hsame; clear Hsame; open_step Hex; simpl; try done.
  - repeat match goal with H : processDecide _ _ _ _ _ _ _ _ _ _ = _ |- _ =>
      unfold processDecide in H; repeat case_if_in H; simplify_eq; simpl; done end.
  - by case_if.
  - destruct op; cbn [netOpExec mbind option_bind] in Hex; simplify_eq; try (by apply Hsame).
    + apply Hsame; unfold MakeEnd in Hex; case_decide; cbn [mbind option_bind] in Hex; by simplify_eq.
    + intros n; unfold serverOf; simpl. rewrite lookup_insert; case_decide as En; [|apply Hu].
      simpl; intros [=->]. by apply (Hadd servername).
    + intros n; unfold serverOf; simpl. rewrite lookup_insert; case_decide; [done|apply Hu].
    + apply Hsame; unfold Cleanup in Hex; case_if_in Hex; cbn [mbind option_bind] in Hex; by simplify_eq.
Qed.

Lemma refused_step srv ev s s' q c :
  unregistered srv s -> calls s !! q = Some c -> refused c srv -> netExec ev s = Some s' ->
  exists c', calls s' !! q = Some c' /\ refused c' srv.
Proof.
  intros Hu Hc Hr Hex; pose proof (lookup_lt_Some _ _ _ Hc) as Hlt.
  destruct (decide (callOfEvent ev = Some q)) as [Hq|Hq].
  2:{ destruct (netExec_msg _ _ _ _ _ Hex Hc) as (c' & Hc' & _).
      destruct (netExec_other _ _ _ _ _ Hex Hc' Hq) as [Ho|(-> & _)]; [|lia]. exists c'; split; [done|]. by simplify_eq. }
  assert (Hdead : forall n, isServerDead (endname (msg c)) n srv (rn s) = true).
  { intros n; unfold isServerDead; rewrite bool_decide_false by apply Hu. apply orb_true_r. }
  unfold refused, undecided in Hr; destruct ev; simpl in Hq; simplify_eq; cbn [netExec] in Hex; rewrite Hc in Hex; cbn [mbind option_bind] in Hex;
    destruct (stage c) eqn:Es; try done; simplify_eq.
  all: open_step Hex; simpl; try rewrite list_lookup_insert_eq by done.
  all: try (eexists; split; [done|]; unfold refused, undecided; simpl; try rewrite Es; done).
  - unfold processDecide in *; rewrite Hdead in *; simplify_eq. eexists; split; [done|]. done.
  - eexists; split; [done|]. unfold callReply in *; unfold refused; simpl. by destruct (ok r); simplify_eq.
Qed.

Lemma refused_forever srv evs s s' q c :
  unregistered srv s -> (forall n, NNetwork (OAddServer n srv) ∉ evs) ->
  calls s !! q = Some c -> refused c srv -> netExecs evs s = Some s' ->
  exists c', calls s' !! q = Some c' /\ refused c' srv.
Proof.
  revert s c; induction evs as [|ev evs IH]; intros s c Hu Hadd Hc Hr Hex; simpl in Hex; [simplify_eq; eauto|].
  destruct (netExec ev s) as [s1|] eqn:E1; simpl in Hex; [|done].
  destruct (refused_step _ _ _ _ _ _ Hu Hc Hr E1) as (c1 & Hc1 & Hr1).
  apply (IH s1 c1); try done.
  - eapply unregistered_step; [done| |done]. intros n ->; apply (Hadd n); left.
  - intros n Hin; apply (Hadd n); by right.
Qed.
End facts.

(** ** Finding the method *)

Lemma lastDot_none pos s found : noChar "."%char s -> lastDot pos s found = found.
Proof.
  revert pos; induction s as [|c s IH]; intros pos Hs; simpl in *; [done|]. destruct Hs as [Hc Hs].
  destruct (Ascii.eqb_spec c "."%char); [done|auto].
Qed.

Lemma lastDot_split pos s1 s2 found :
  noChar "."%char s2 -> lastDot pos (s1 +:+ String "." s2) found = pos + Z.of_nat (String.length s1).
Proof.
  intros Hs2; revert pos found; induction s1 as [|c s1 IH]; intros pos found.
  - simpl; rewrite lastDot_none by done. lia.
  - change (String c s1 +:+ String "." s2) with (String c (s1 +:+ String "." s2)). cbn [lastDot String.length]. rewrite IH. lia.
Qed.

Lemma substring_all s : String.substring 0 (String.length s) s = s.
Proof. induction s as [|c s IH]; simpl; [done|]. by rewrite IH. Qed.

Lemma substring_prefix s1 s2 : String.substring 0 (String.length s1) (s1 +:+ s2) = s1.
Proof. induction s1 as [|c s1 IH]; simpl; [by destruct s2|]. by rewrite IH. Qed.

Lemma substring_suffix s1 s2 n : String.substring (String.length s1) n (s1 +:+ s2) = String.substring 0 n s2.
Proof. induction s1 as [|c s1 IH]; simpl; [done|]. destruct n; apply IH. Qed.

Lemma length_string_app s1 s2 : String.length (s1 +:+ s2) = (String.length s1 + String.length s2)%nat.
Proof. induction s1 as [|c s1 IH]; simpl; [done|]. by rewrite IH. Qed.

Lemma slices_dot s1 s2 :
  noChar "."%char s2 ->
  let s := s1 +:+ String "." s2 in
  sliceTo s (LastIndexDot s) = Some s1 /\ sliceFrom s (LastIndexDot s + 1) = Some s2.
Proof.
  intros Hs2 s; unfold LastIndexDot, s. rewrite lastDot_split, Z.add_0_l by done.
  assert (Hl : String.length (s1 +:+ String "." s2) = (String.length s1 + S (String.length s2))%nat) by apply length_string_app.
  split; unfold sliceTo, sliceFrom; rewrite Hl.
  - rewrite (proj2 (andb_true_iff _ _)) by (split; apply Z.leb_le; lia). by rewrite Nat2Z.id, substring_prefix.
  - rewrite (proj2 (andb_true_iff _ _)) by (split; apply Z.leb_le; lia). f_equal.
    replace (Z.to_nat (Z.of_nat (String.length s1) + 1)) with (String.length (s1 +:+ ".")) by (rewrite length_string_app; simpl; lia).
    replace (s1 +:+ String "." s2) with ((s1 +:+ ".") +:+ s2) by apply string_app_assoc.
    rewrite substring_suffix, length_string_app; simpl String.length.
    replace (String.length s1 + S (String.length s2) - (String.length s1 + 1))%nat with (String.length s2) by lia.
    apply substring_all.
Qed.

Lemma serverDispatch_method {Name W : Type} (rs : Server W) (svc : Service W) (m : Method W)
    (sname mname : string) (e : Name) (zero a : goval) (w w' : W) (v : goval) :
  noChar "."%char mname -> services rs !! sname = Some svc -> methods svc !! mname = Some m -> Func m w a = (w', v) ->
  serverDispatch rs (mkReq e (sname +:+ String "." mname) zero (Encode [] a)) w
  = Some (mkServer (services rs) (srv_count rs + 1), w', mkReply true (Encode [] v)).
Proof.
  intros Hm Hs Hmeth Hf; unfold serverDispatch; cbn [svcMeth services].
  destruct (slices_dot sname mname Hm) as [-> ->]; cbn [mbind option_bind]. rewrite Hs; cbn [mbind option_bind].
  unfold serviceDispatch; rewrite Hmeth; cbn [mbind option_bind args argsType]. unfold Encode at 1; cbn [app Decode].
  unfold Decode; cbn [from_gob gob_goval to_gob mbind option_bind]. by rewrite Hf.
Qed.

(** ** Guarantees *)

(** C27: A call that returns true was executed exactly once: in every
    interleaving of calls, handlers, timers and changes to the network, if
    [Call] has returned true with reply [v], then its handler ran on the server,
    once, produced the reply that decodes to [v], and after that, when the
    network decided to deliver the reply, the end was still enabled and the
    server still the one registered under its name. *)
Theorem call_true_executed {Name : Type} `{Countable Name} {W : Type} (byteLen : bytes -> Z)
    (s0 s : net Name W) (evs : list (netEvent Name)) (q : nat) (c : call Name) (v : goval) :
  calls s0 = [] -> netExecs byteLen evs s0 = Some s -> calls s !! q = Some c -> stage c = Returned (Some v) ->
  exists srv r, callReply r = Some (Some v)
    /\ handled byteLen s0 evs q (msg c) srv r /\ checked byteLen s0 evs q (msg c) srv r.
Proof.
  intros H0 Hs Hc Hst; destruct (callsInv_reachable byteLen s0 evs s H0 Hs) as [Hinv _].
  destruct (Hinv q c Hc) as [Hh Hstage]. unfold stageInv in Hstage; rewrite Hst in Hstage.
  destruct (Hstage v eq_refl) as (r & srv & Hr & Hhnd & Hch). exists srv, r; split_and!; [done| |done].
  unfold handlerInv in Hh; by rewrite Hhnd in Hh.
Qed.

(** No call is executed twice, whatever [Call] returns: the network loses
    and reorders messages and never duplicates them. *)
Theorem call_at_most_once {Name : Type} `{Countable Name} {W : Type} (byteLen : bytes -> Z)
    (s0 s : net Name W) (evs evs1 evs2 evs3 : list (netEvent Name)) (q : nat) :
  calls s0 = [] -> netExecs byteLen evs s0 = Some s ->
  evs <> evs1 ++ NHandler q :: evs2 ++ NHandler q :: evs3.
Proof.
  intros H0 Hs ->; replace (evs1 ++ NHandler q :: evs2 ++ NHandler q :: evs3)
    with ((evs1 ++ NHandler q :: evs2) ++ NHandler q :: evs3) in Hs by (by rewrite <- (assoc_L (++))).
  rewrite netExecs_app in Hs; destruct (netExecs byteLen (evs1 ++ NHandler q :: evs2) s0) as [s1|] eqn:E1; cbn [mbind option_bind] in Hs; [|done].
  destruct (callsInv_reachable byteLen s0 _ s1 H0 E1) as [Hinv _]. cbn [netExecs netExec] in Hs.
  destruct (calls s1 !! q) as [c|] eqn:Ec; cbn [mbind option_bind] in Hs; [|done].
  destruct (Hinv q c Ec) as [Hh _]. unfold handlerInv in Hh.
  destruct (hnd c); try done. apply Hh, elem_of_app; right; left.
Qed.

(** C28: A killed server gives no positive reply: if, while a call is being
    executed by a server, that server is removed from the network (by
    [DeleteServer] or by putting another one under its name) and not added
    again, the call never returns true. *)
Theorem deleted_server_silent {Name : Type} `{Countable Name} {W : Type} (byteLen : bytes -> Z)
    (s s' : net Name W) (evs : list (netEvent Name)) (q srv : nat) (c c' : call Name) (v : goval) :
  calls s !! q = Some c -> undecided c srv -> unregistered srv s ->
  (forall n, NNetwork (OAddServer n srv) ∉ evs) ->
  netExecs byteLen evs s = Some s' -> calls s' !! q = Some c' -> stage c' <> Returned (Some v).
Proof.
  intros Hc Hund Hu Hadd Hs Hc' Hst.
  assert (Hr : refused c srv) by (unfold refused, undecided in *; by destruct (stage c)).
  destruct (refused_forever byteLen srv evs s s' q c Hu Hadd Hc Hr Hs) as (c1 & Hc1 & Hr1).
  rewrite Hc' in Hc1; injection Hc1 as <-. unfold refused in Hr1; by rewrite Hst in Hr1.
Qed.

(** On a reliable network a call through an enabled end to a registered
    server executes the method its name says, "Service.Method" being split at
    the last dot, on the arguments sent, and returns true with the method's
    reply, whatever the random numbers are. *)
Theorem reliable_call_succeeds {Name : Type} `{Countable Name} {W : Type} (byteLen : bytes -> Z)
    (s : net Name W) (e servername : Name) (sname mname : string) (zero a v : goval) (w' : W)
    (srv : nat) (rs : Server W) (svc : Service W) (m : Method W) (drop1 drop2 late : bool) :
  rn_done (rn s) = false -> reliable (rn s) = true -> isEnabled (rn s) e = true ->
  connections (rn s) !! e = Some (Some servername) -> serverOf (rn s) servername = Some srv ->
  srvs s !! srv = Some rs -> services rs !! sname = Some svc -> methods svc !! mname = Some m ->
  noChar "."%char mname -> Func m (world s) a = (w', v) ->
  let q := length (calls s) in
  exists s' c, netExecs byteLen
      [NCall e (sname +:+ String "." mname) zero a; NAccept q; NStart q drop1; NHandler q; NReceive q;
       NDecide q drop2 late; NDeliver q] s = Some s'
    /\ world s' = w' /\ srvs s' = <[srv := mkServer (services rs) (srv_count rs + 1)]> (srvs s)
    /\ calls s' = calls s ++ [c] /\ stage c = Returned (Some v).
Proof.
  intros Hdone Hrel Hen Hcon Hsrv Hrs Hsvc Hm Hdot Hf q.
  assert (Hlook : forall x : call Name, (calls s ++ [x]) !! q = Some x).
  { intros x; rewrite lookup_app_r by done. unfold q; by rewrite Nat.sub_diag. }
  assert (Hins : forall x y : call Name, <[q := y]> (calls s ++ [x]) = calls s ++ [y]).
  { intros x y; rewrite insert_app_r_alt by done. unfold q; by rewrite Nat.sub_diag. }
  assert (Hdisp := serverDispatch_method rs svc m sname mname e zero a (world s) w' v Hdot Hsvc Hm Hf).
  assert (Hinfo : forall k b, readEndnameInfo e (addTraffic k b (rn s)) = (true, Some servername, Some srv, true, longReordering (rn s))).
  { intros k b; unfold readEndnameInfo, isEnabled, serverOf, addTraffic in *; cbn [connections enabled servers reliable longReordering] in *.
    rewrite Hcon, Hen, Hrel; cbn [default mbind option_bind]. by rewrite <- Hsrv. }
  assert (Hlive : forall k b, isServerDead e servername srv (addTraffic k b (rn s)) = false).
  { intros k b; unfold isServerDead, isEnabled, serverOf, addTraffic in *; cbn [enabled servers].
    rewrite Hen, bool_decide_true by done. done. }
  unfold Encode in Hdisp; cbn [app to_gob gob_goval] in Hdisp.
  destruct (longReordering (rn s) && late) eqn:Elate;
    cbn [netExecs netExec mbind option_bind calls setCall setRn rn srvs world];
    do 18 (rewrite ?Hlook, ?Hins; cbn [mbind option_bind calls stage hnd msg setCall setRn rn srvs world callRequest endname args Encode app to_gob gob_goval];
        rewrite ?Hdone, ?Hrs, ?Hdisp; unfold processStart, processDecide, callReply; cbn [endname ok reply]; rewrite ?Hinfo, ?Hlive, ?Elate;
        cbn [mbind option_bind negb andb orb Decode from_gob gob_goval]);
    eexists _, _; (split; [reflexivity|]); cbn [calls setCall setRn rn srvs world]; rewrite !Hins; done.
Qed.

(** ** Witnesses: a counter served over the network *)

Definition addMethod : Method Z :=
  mkMethod "" "Add" 3 true 0 (fun w a => match a with GInt z => (w + z, GInt (w + z)) | _ => (w, GNil) end).
Definition counterServer : Server Z := AddService (MakeService "Counter" [addMethod]) MakeServer.
Definition counterNet : net Z Z :=
  mkNet (Enable 10 true (Connect 10 1 (AddServer 1 7 (default MakeNetwork (MakeEnd 10 MakeNetwork)))))
    {[7%nat := counterServer]} 0 [].
Definition addCall : netEvent Z := NCall 10 "Counter.Add" (GInt 0) (GInt 5).
Definition counterRun : list (netEvent Z) :=
  [addCall; NAccept 0; NStart 0 false; NHandler 0; NReceive 0; NDecide 0 false false; NDeliver 0].

Lemma call_true_executed_witness :
  exists srv r, callReply r = Some (Some (GInt 5))
    /\ handled (fun _ => 1) counterNet counterRun 0 (mkReq 10 "Counter.Add" (GInt 0) [GInt 5]) srv r
    /\ checked (fun _ => 1) counterNet counterRun 0 (mkReq 10 "Counter.Add" (GInt 0) [GInt 5]) srv r.
Proof.
  exact (call_true_executed (fun _ => 1) counterNet
    (default counterNet (netExecs (fun _ => 1) counterRun counterNet)) counterRun 0
    (mkCall (mkReq 10 "Counter.Add" (GInt 0) [GInt 5]) (Returned (Some (GInt 5))) (HDone 7 (mkReply true [GInt 5])))
    (GInt 5) eq_refl ltac:(vm_compute; reflexivity) ltac:(vm_compute; reflexivity) eq_refl).
Defined.

Lemma call_at_most_once_witness :
  counterRun <> [addCall; NAccept 0; NStart 0 false] ++ NHandler 0 :: [] ++ NHandler 0 :: [].
Proof.
  exact (call_at_most_once (fun _ => 1) counterNet
    (default counterNet (netExecs (fun _ => 1) counterRun counterNet)) counterRun _ _ _ 0
    eq_refl ltac:(vm_compute; reflexivity)).
Defined.

(** The server is deleted after the handler has run. *)
Definition deletedNet : net Z Z :=
  default counterNet (netExecs (fun _ => 1)
    [addCall; NAccept 0; NStart 0 false; NHandler 0; NNetwork (ODeleteServer 1)] counterNet).

Lemma deletedNet_unregistered : unregistered 7 deletedNet.
Proof.
  intros n. assert (E : servers (rn deletedNet) = {[1 := None]}) by (vm_compute; reflexivity).
  unfold serverOf; rewrite E. destruct (decide (n = 1)) as [->|]; [by rewrite lookup_singleton_eq|].
  by rewrite lookup_singleton_ne.
Qed.

Lemma deleted_server_silent_witness :
  stage (mkCall (mkReq 10 "Counter.Add" (GInt 0) [GInt 5]) (Returned None) (HDone 7 (mkReply true [GInt 5])))
  <> Returned (Name := Z) (Some (GInt 5)).
Proof.
  exact (deleted_server_silent (fun _ => 1) deletedNet
    (default deletedNet (netExecs (fun _ => 1) [NReceive 0; NDecide 0 false false; NDeliver 0] deletedNet))
    [NReceive 0; NDecide 0 false false; NDeliver 0] 0 7
    (mkCall (mkReq 10 "Counter.Add" (GInt 0) [GInt 5]) (Waiting 1 7 true false) (HDone 7 (mkReply true [GInt 5])))
    (mkCall (mkReq 10 "Counter.Add" (GInt 0) [GInt 5]) (Returned None) (HDone 7 (mkReply true [GInt 5])))
    (GInt 5) ltac:(vm_compute; reflexivity) eq_refl deletedNet_unregistered ltac:(set_solver)
    ltac:(vm_compute; reflexivity) ltac:(vm_compute; reflexivity)).
Defined.

Lemma reliable_call_succeeds_witness :
  exists s' c, netExecs (fun _ => 1) counterRun counterNet = Some s'
    /\ world s' = 5 /\ srvs s' = <[7%nat := mkServer (services counterServer) 1]> (srvs counterNet)
    /\ calls s' = calls counterNet ++ [c] /\ stage c = Returned (Some (GInt 5)).
Proof.
  exact (reliable_call_succeeds (fun _ => 1) counterNet 10 1 "Counter" "Add" (GInt 0) (GInt 5) (GInt 5) 5 7
    counterServer (MakeService "Counter" [addMethod]) addMethod false false false
    eq_refl eq_refl ltac:(vm_compute; reflexivity) ltac:(vm_compute; reflexivity) ltac:(vm_compute; reflexivity)
    ltac:(vm_compute; reflexivity) ltac:(vm_compute; reflexivity) ltac:(vm_compute; reflexivity)
    ltac:(repeat split; discriminate) eq_refl).
Defined.
