(* ===== verification/Wiring.v ===== *)
(** * Test configurations: switching ends

    What the loops of the test configurations do to the network, whatever the
    configuration they are part of. *)

From S2P Require Import Prelude Gob LabRpc.

#[local] Open Scope Z_scope.

Lemma isEnabled_Enable {Name} `{Countable Name} (x y : Name) (b : bool) (rn : Network Name) :
  isEnabled (Enable x b rn) y = if bool_decide (x = y) then b else isEnabled rn y.
Proof.
  unfold isEnabled; simpl. case_bool_decide as Exy; [by rewrite Exy, lookup_insert_eq|by rewrite lookup_insert_ne].
Qed.

Section switching.
Context {Name : Type} `{Countable Name} {W E : Type} `{!EqDecision E}.
(** A configuration [W] with its network, what its loops leave alone, and the
    operation that switches the end named by [e]. *)
Context (net : W -> Network Name) (same : W -> W -> Prop) (sw : E -> W -> W) (end_ : E -> Name) (b : bool).
Hypothesis same_refl : forall w, same w w.
Hypothesis same_trans : forall w1 w2 w3, same w1 w2 -> same w2 w3 -> same w1 w3.
Hypothesis sw_same : forall e w, same w (sw e w).
Hypothesis sw_enabled : forall e e' w,
  isEnabled (net (sw e w)) (end_ e') = if bool_decide (e = e') then b else isEnabled (net w) (end_ e').

(** A loop that switches the ends [sel] selects, one per round at most. *)
Lemma switch_loop {A} (f : A -> W -> option W) (sel : A -> option E) xs w w' :
  (forall j w1 w2, j ∈ xs -> same w w1 -> f j w1 = Some w2 ->
     w2 = match sel j with Some e => sw e w1 | None => w1 end) ->
  loopM f xs w = Some w' ->
  same w w'
  /\ forall e, isEnabled (net w') (end_ e)
       = if bool_decide (Exists (fun j => sel j = Some e) xs) then b else isEnabled (net w) (end_ e).
Proof.
  revert w; induction xs as [|x xs IH]; cbn [loopM]; intros w Hf HR; inv_opt.
  { split; [done|]. intros e. rewrite bool_decide_eq_false_2; [done|]. by intros ?%Exists_nil. }
  rename x0 into w1, H0 into Hx. pose proof (Hf x w w1 (list_elem_of_here _ _) (same_refl w) Hx) as Hw1.
  assert (Hsh : same w w1) by (rewrite Hw1; by destruct (sel x)).
  destruct (IH w1) as [Hs' He']; [|done|].
  { intros j u1 u2 Hj Hu. apply Hf; [by right|]. by eapply same_trans. }
  split; [by eapply same_trans|]. intros e; rewrite He', Hw1.
  destruct (decide (Exists (fun j => sel j = Some e) xs)) as [Hin|Hout].
  - rewrite !bool_decide_eq_true_2; [done|by right|done].
  - rewrite (bool_decide_eq_false_2 _ Hout). destruct (decide (sel x = Some e)) as [Hs|Hs].
    + rewrite Hs, sw_enabled, !bool_decide_eq_true_2; [done|by left|done].
    + rewrite (bool_decide_eq_false_2 (Exists _ (x :: xs))) by (rewrite Exists_cons; naive_solver).
      destruct (sel x) as [e'|]; [|done]. rewrite sw_enabled, bool_decide_eq_false_2; [done|congruence].
Qed.
End switching.
