(* ===== verification/RaftConfig.v ===== *)
(** * Raft: the test configuration

    Models [raft/config.go]: how a test wires the peers to the simulated
    network, crashes and restarts them, reads their apply channels and compares
    what they deliver, and the checks it makes ([checkOneLeader], [nCommitted],
    [wait], [one] and the like).

    - [randstring] is an argument that gives the names; [MakeEnd] refuses a name
      that exists. Server names are integers, end names strings.
    - While [rafts[i]] is a running peer its persister is the object [saved[i]]
      points to, so the contents of [saved[i]] are those of the peer's
      persister ([savedNow]).
    - [None] is a panic, [log.Fatalf] or [t.Fatal]. An error string of the
      appliers is an [applyError]; [log.Fatalf] ends the process once there is
      one.
    - Loops that poll take what they read as arguments. Times are in
      milliseconds. *)

From S2P Require Import Prelude Gob RaftTypes RaftLog RaftSnapshot LabRpc.

Notation Name := (Z + string)%type.

(** ** Wiring *)

Record wiring : Type := mkWiring {
  w_net : Network Name;
  w_n : nat;
  w_connected : list bool;
  w_endnames : list (option (list string));   (* nil until the server is started *)
}.

Definition set_net rn w : wiring := mkWiring rn (w_n w) (w_connected w) (w_endnames w).
Definition set_connected c w : wiring := mkWiring (w_net w) (w_n w) c (w_endnames w).
Definition set_endnames e w : wiring := mkWiring (w_net w) (w_n w) (w_connected w) e.

Definition peersOf w : list Z := seqZ 0 (Z.of_nat (w_n w)).

(** [cfg.endnames[i][j]] *)
Definition endnameOf w (i j : Z) : option string := row ← idx (w_endnames w) i; names ← row; idx names j.

Definition enableEnd (e : string) (on : bool) w : wiring := set_net (Enable (inr e) on (w_net w)) w.

Definition connect (i : Z) w : option wiring :=
  c ← upd (w_connected w) i true;
  let w := set_connected c w in
  w ← loopM (fun j w => b ← idx (w_connected w) j;
               if (b : bool) then e ← endnameOf w i j; Some (enableEnd e true w) else Some w) (peersOf w) w;
  loopM (fun j w => b ← idx (w_connected w) j;
           if (b : bool) then e ← endnameOf w j i; Some (enableEnd e true w) else Some w) (peersOf w) w.

Definition disconnect (i : Z) w : option wiring :=
  c ← upd (w_connected w) i false;
  let w := set_connected c w in
  w ← loopM (fun j w => row ← idx (w_endnames w) i;
               match row with Some _ => e ← endnameOf w i j; Some (enableEnd e false w) | None => Some w end)
        (peersOf w) w;
  loopM (fun j w => row ← idx (w_endnames w) j;
           match row with Some _ => e ← endnameOf w j i; Some (enableEnd e false w) | None => Some w end)
    (peersOf w) w.

(** The fresh ends of [start1]. *)
Definition freshEnds (i : Z) (randstring : Z -> string) w : option wiring :=
  let names := randstring <$> peersOf w in
  en ← upd (w_endnames w) i (Some names);
  let w := set_endnames en w in
  loopM (fun j w => e ← endnameOf w i j;
           rn ← MakeEnd (inr e) (w_net w);
           Some (set_net (Connect (inr e) (inl j) rn) w)) (peersOf w) w.

(** ** What the appliers record *)

Section observer.
Context {Cmd : Type} `{!GobType Cmd} `{!EqDecision Cmd}.
Implicit Types (m : ApplyMsg Cmd).

Record observer : Type := mkObserver {
  o_logs : list (gmap Z (option Cmd));   (* copy of each server's committed entries *)
  o_lastApplied : list Z;
  o_maxIndex : Z;
}.
Implicit Types o : observer.

Inductive applyError : Type :=
| Mismatch (index server : Z) (v : option Cmd) (other : Z) (old : option Cmd)
| OutOfOrder (server index : Z)
| UnexpectedIndex (server expected index : Z)
| SnapshotMismatch (server : Z).

(** The comparison loop of [checkLogs]: the error of the last server that
    disagrees. *)
Fixpoint compareLogs (i index : Z) (v : option Cmd) (j : Z) (ls : list (gmap Z (option Cmd))) (err : option applyError)
    : option applyError :=
  match ls with
  | [] => err
  | l :: ls =>
      compareLogs i index v (j + 1) ls
        (match l !! index with
         | Some old => if bool_decide (old = v) then err else Some (Mismatch index i v j old)
         | None => err
         end)
  end.

Definition checkLogs (i : Z) m o : option (observer * option applyError * bool) :=
  let err := compareLogs i (CommandIndex m) (msgCommand m) 0 (o_logs o) None in
  l ← idx (o_logs o) i;
  let prevok := bool_decide (is_Some (l !! (CommandIndex m - 1))) in
  ls ← upd (o_logs o) i (<[CommandIndex m := msgCommand m]> l);
  let mx := if CommandIndex m >? o_maxIndex o then CommandIndex m else o_maxIndex o in
  Some (mkObserver ls (o_lastApplied o) mx, err, prevok).

(** One message of [applier]. *)
Definition applier (i : Z) m o : option (observer * option applyError) :=
  if negb (CommandValid m) then Some (o, None)
  else
    '(o, err, prevok) ← checkLogs i m o;
    let err := if (CommandIndex m >? 1) && negb prevok then Some (OutOfOrder i (CommandIndex m)) else err in
    Some (o, err).

(** [map[int]interface{}] from the slice [xlog]. *)
Fixpoint logOfList (j : Z) (xlog : list (option Cmd)) (l : gmap Z (option Cmd)) : gmap Z (option Cmd) :=
  match xlog with [] => l | v :: xlog => logOfList (j + 1) xlog (<[j := v]> l) end.

Definition ingestSnap (i : Z) (snapshot : bytes) (index : Z) o : option (observer * option applyError) :=
  match snapshot with
  | [] => None
  | _ =>
      '(lastIncludedIndex, r) ← Decode (A := Z) snapshot;
      '(xlog, r) ← Decode (A := list (option Cmd)) r;
      if negb (index =? -1) && negb (index =? lastIncludedIndex) then Some (o, Some (SnapshotMismatch i))
      else
        ls ← upd (o_logs o) i (logOfList 0 xlog ∅);
        la ← upd (o_lastApplied o) i lastIncludedIndex;
        Some (mkObserver ls la (o_maxIndex o), None)
  end.

Definition SnapShotInterval : Z := 10.

(** The buffer [applierSnap] hands to [rf.Snapshot]; a missing entry reads as nil. *)
Definition encodeLog (index : Z) (l : gmap Z (option Cmd)) : bytes :=
  Encode (Encode [] index) ((fun j => default None (l !! j)) <$> seqZ 0 (index + 1)).

(** One message of [applierSnap]; [rf] is the peer it was started for. *)
Definition applierSnap (i : Z) m (rf : Raft Cmd) o : option (observer * Raft Cmd * option applyError) :=
  if SnapshotValid m then
    '(o, err) ← ingestSnap i (Snapshot_ m) (SnapshotIndex m) o; Some (o, rf, err)
  else if CommandValid m then
    la ← idx (o_lastApplied o) i;
    let err := if negb (CommandIndex m =? la + 1) then Some (UnexpectedIndex i (la + 1) (CommandIndex m)) else None in
    '(o, err) ← (match err with
                 | None =>
                     '(o, err, prevok) ← checkLogs i m o;
                     Some (o, if (CommandIndex m >? 1) && negb prevok then Some (OutOfOrder i (CommandIndex m)) else err)
                 | Some _ => Some (o, err)
                 end);
    las ← upd (o_lastApplied o) i (CommandIndex m);
    let o := mkObserver (o_logs o) las (o_maxIndex o) in
    if Z.rem (CommandIndex m + 1) SnapShotInterval =? 0 then
      l ← idx (o_logs o) i;
      rf ← Snapshot (CommandIndex m) (encodeLog (CommandIndex m) l) rf;
      Some (o, rf, err)
    else Some (o, rf, err)
  else Some (o, rf, None).
End observer.
Arguments observer : clear implicits.
Arguments applyError : clear implicits.

(** ** The configuration *)

Section config.
Context {Cmd : Type} `{!GobType Cmd} `{!EqDecision Cmd}.

Record config : Type := mkConfig {
  cf_wires : wiring;
  cf_rafts : list (option (Raft Cmd));
  cf_saved : list (option Persister);
  cf_obs : observer Cmd;
  cf_applyErr : list (option (applyError Cmd));
  cf_finished : bool;
  cf_start : Z;
  cf_t0 : Z; cf_rpcs0 : Z; cf_cmds0 : Z; cf_bytes0 : Z; cf_maxIndex0 : Z;
}.
Implicit Types cfg : config.

Definition set_wires w cfg : config :=
  mkConfig w (cf_rafts cfg) (cf_saved cfg) (cf_obs cfg) (cf_applyErr cfg) (cf_finished cfg) (cf_start cfg)
    (cf_t0 cfg) (cf_rpcs0 cfg) (cf_cmds0 cfg) (cf_bytes0 cfg) (cf_maxIndex0 cfg).
Definition set_rafts r cfg : config :=
  mkConfig (cf_wires cfg) r (cf_saved cfg) (cf_obs cfg) (cf_applyErr cfg) (cf_finished cfg) (cf_start cfg)
    (cf_t0 cfg) (cf_rpcs0 cfg) (cf_cmds0 cfg) (cf_bytes0 cfg) (cf_maxIndex0 cfg).
Definition set_saved p cfg : config :=
  mkConfig (cf_wires cfg) (cf_rafts cfg) p (cf_obs cfg) (cf_applyErr cfg) (cf_finished cfg) (cf_start cfg)
    (cf_t0 cfg) (cf_rpcs0 cfg) (cf_cmds0 cfg) (cf_bytes0 cfg) (cf_maxIndex0 cfg).
Definition set_obs o cfg : config :=
  mkConfig (cf_wires cfg) (cf_rafts cfg) (cf_saved cfg) o (cf_applyErr cfg) (cf_finished cfg) (cf_start cfg)
    (cf_t0 cfg) (cf_rpcs0 cfg) (cf_cmds0 cfg) (cf_bytes0 cfg) (cf_maxIndex0 cfg).

(** The contents of the object [cfg.saved[i]] points to. *)
Definition savedNow cfg (i : Z) : option (option Persister) :=
  s ← idx (cf_saved cfg) i;
  r ← idx (cf_rafts cfg) i;
  Some (match s, r with Some _, Some rf => Some (persister rf) | _, _ => s end).

Definition crash1 (i : Z) cfg : option config :=
  w ← disconnect i (cf_wires cfg);
  let cfg := set_wires (set_net (DeleteServer (inl i) (w_net w)) w) cfg in
  s ← savedNow cfg i;
  sv ← upd (cf_saved cfg) i (Copy <$> s);
  let cfg := set_saved sv cfg in
  r ← idx (cf_rafts cfg) i;
  cfg ← (match r with
         | Some rf => rs ← upd (cf_rafts cfg) i None; Some (set_rafts rs cfg)   (* rf.Kill() *)
         | None => Some cfg
         end);
  s ← idx (cf_saved cfg) i;
  match s with
  | Some p => sv ← upd (cf_saved cfg) i (Some (Save (ReadRaftState p) (ReadSnapshot p))); Some (set_saved sv cfg)
  | None => Some cfg
  end.

(** The persister [start1] passes to [Make], and what it reads back of the
    snapshot. *)
Definition start1Saved (i : Z) cfg : option (config * Persister) :=
  s ← idx (cf_saved cfg) i;
  match s with
  | Some p =>
      let p := Copy p in
      sv ← upd (cf_saved cfg) i (Some p);
      let cfg := set_saved sv cfg in
      match ReadSnapshot p with
      | [] => Some (cfg, p)
      | snapshot =>
          '(o, err) ← ingestSnap i snapshot (-1) (cf_obs cfg);
          match err with None => Some (set_obs o cfg, p) | Some _ => None end
      end
  | None => sv ← upd (cf_saved cfg) i (Some MakePersister); Some (set_saved sv cfg, MakePersister)
  end.

(** [srv] is the location of the server the code makes for the peer. *)
Definition start1 (i : Z) (randstring : Z -> string) (srv : nat) (now : Z) cfg : option config :=
  cfg ← crash1 i cfg;
  w ← freshEnds i randstring (cf_wires cfg);
  let cfg := set_wires w cfg in
  la ← upd (o_lastApplied (cf_obs cfg)) i 0;
  let cfg := set_obs (mkObserver (o_logs (cf_obs cfg)) la (o_maxIndex (cf_obs cfg))) cfg in
  '(cfg, p) ← start1Saved i cfg;
  rf ← Make (w_n (cf_wires cfg)) i p now;
  rs ← upd (cf_rafts cfg) i (Some rf);
  let cfg := set_rafts rs cfg in
  Some (set_wires (set_net (AddServer (inl i) srv (w_net (cf_wires cfg))) (cf_wires cfg)) cfg).

Definition setunreliable (unrel : bool) cfg : config :=
  set_wires (set_net (Reliable (negb unrel) (w_net (cf_wires cfg))) (cf_wires cfg)) cfg.
Definition setlongreordering (longrel : bool) cfg : config :=
  set_wires (set_net (LongReordering longrel (w_net (cf_wires cfg))) (cf_wires cfg)) cfg.

(** [applier] and [applierSnap] differ only in what they do with the messages
    of later times. *)
Definition make_config (n : nat) (unreliable : bool) (randstring : Z -> Z -> string) (now : Z) : option config :=
  let w := mkWiring MakeNetwork n (replicate n false) (replicate n None) in
  let cfg := mkConfig w (replicate n None) (replicate n None) (mkObserver (replicate n ∅) (replicate n 0) 0)
               (replicate n None) false now 0 0 0 0 0 in
  let cfg := setunreliable unreliable cfg in
  let cfg := set_wires (set_net (LongDelays true (w_net (cf_wires cfg))) (cf_wires cfg)) cfg in
  cfg ← loopM (fun i cfg => start1 i (randstring i) (Z.to_nat i) now cfg) (peersOf w) cfg;
  loopM (fun i cfg => w ← connect i (cf_wires cfg); Some (set_wires w cfg)) (peersOf w) cfg.

(** [checkTimeout]: 120 s; [failed] is [cfg.t.Failed()]. *)
Definition checkTimeout (failed : bool) (now : Z) cfg : option config :=
  if negb failed && (now - cf_start cfg >? 120000) then None else Some cfg.

Definition checkFinished cfg : bool := cf_finished cfg.

Definition cleanup (failed : bool) (now : Z) cfg : option config :=
  let cfg := mkConfig (cf_wires cfg) (option_map Kill <$> cf_rafts cfg) (cf_saved cfg) (cf_obs cfg) (cf_applyErr cfg) true
               (cf_start cfg) (cf_t0 cfg) (cf_rpcs0 cfg) (cf_cmds0 cfg) (cf_bytes0 cfg) (cf_maxIndex0 cfg) in
  rn ← Cleanup (w_net (cf_wires cfg));
  checkTimeout failed now (set_wires (set_net rn (cf_wires cfg)) cfg).

Definition rpcTotal cfg : Z := GetTotalCount (w_net (cf_wires cfg)).
Definition bytesTotal cfg : Z := GetTotalBytes (w_net (cf_wires cfg)).

Definition begin_ (now : Z) cfg : config :=
  mkConfig (cf_wires cfg) (cf_rafts cfg) (cf_saved cfg) (cf_obs cfg) (cf_applyErr cfg) (cf_finished cfg) (cf_start cfg)
    now (rpcTotal cfg) 0 (bytesTotal cfg) (o_maxIndex (cf_obs cfg)).

(** The numbers [end] prints: time, peers, RPCs, bytes, agreements. *)
Definition end_ (failed : bool) (now : Z) cfg : option (option (Z * nat * Z * Z * Z)) :=
  cfg ← checkTimeout failed now cfg;
  Some (if failed then None
        else Some (now - cf_t0 cfg, w_n (cf_wires cfg), rpcTotal cfg - cf_rpcs0 cfg, bytesTotal cfg - cf_bytes0 cfg,
                   o_maxIndex (cf_obs cfg) - cf_maxIndex0 cfg)).

Definition LogSize (size : bytes -> Z) cfg : option Z :=
  foldl (fun acc i => logsize ← acc; s ← savedNow cfg i; p ← s;
                      let k := RaftStateSize size p in Some (if k >? logsize then k else logsize))
    (Some 0) (peersOf (cf_wires cfg)).
End config.
Arguments config : clear implicits.

(** ** The checks *)

Section checks.
Context {Cmd : Type} `{!EqDecision Cmd}.
Implicit Types (o : observer Cmd) (connected : list bool) (states : Z -> Z * bool).

(** What one round of [checkOneLeader] reads, by term; [states i] is what the
    [GetState] of peer [i] returned. *)
Definition leaderStep connected states (i : Z) (leaders : gmap Z (list Z)) : option (gmap Z (list Z)) :=
  c ← idx connected i;
  if (c : bool) then
    let '(term, leader) := states i in
    if (leader : bool) then Some (<[term := default [] (leaders !! term) ++ [i]]> leaders) else Some leaders
  else Some leaders.
Definition readLeaders (n : nat) connected states : option (gmap Z (list Z)) :=
  loopM (leaderStep connected states) (seqZ 0 (Z.of_nat n)) ∅.

Inductive verdict : Type := TwoLeaders | NoLeader | OneLeader (i : Z).

(** The loop over the map: the last term with a leader, or the failure. *)
Fixpoint lastTermLoop (ls : list (Z * list Z)) (last : Z) : option Z :=
  match ls with
  | [] => Some last
  | (term, ids) :: ls => if len ids >? 1 then None else lastTermLoop ls (if term >? last then term else last)
  end.

Definition oneLeaderRound (n : nat) connected states : option verdict :=
  leaders ← readLeaders n connected states;
  match lastTermLoop (map_to_list leaders) (-1) with
  | None => Some TwoLeaders
  | Some last =>
      if negb (bool_decide (leaders = ∅)) then
        ids ← leaders !! last; i ← idx ids 0; Some (OneLeader i)
      else Some NoLeader
  end.

(** [checkOneLeader], over what its rounds read, at most ten. *)
Fixpoint checkOneLeaderLoop (iters : nat) (n : nat) connected (rounds : nat -> Z -> Z * bool) : option Z :=
  match iters with
  | O => None
  | S iters =>
      v ← oneLeaderRound n connected (rounds O);
      match v with
      | TwoLeaders => None
      | OneLeader i => Some i
      | NoLeader => checkOneLeaderLoop iters n connected (fun k => rounds (S k))
      end
  end.
Definition checkOneLeader (n : nat) connected (rounds : nat -> Z -> Z * bool) : option Z :=
  checkOneLeaderLoop 10 n connected rounds.

Definition checkTerms (n : nat) connected states : option Z :=
  loopM (fun i term => c ← idx connected i;
           if (c : bool) then
             let '(xterm, _) := states i in
             if term =? -1 then Some xterm else if negb (term =? xterm) then None else Some term
           else Some term) (seqZ 0 (Z.of_nat n)) (-1).

Definition checkNoLeader (n : nat) connected states : option unit :=
  loopM (fun i u => c ← idx connected i; if (c : bool) && (states i).2 then None else Some u) (seqZ 0 (Z.of_nat n)) tt.

(** How many servers have the entry, and the value the last of them has. *)
Definition commitStep (index : Z) (errs : list (option (applyError Cmd))) o (i : Z) (acc : Z * option Cmd) : option (Z * option Cmd) :=
  let '(count, cmd) := acc in
  err ← idx errs i;
  match err with
  | Some _ => None
  | None =>
      l ← idx (o_logs o) i;
      match l !! index with
      | Some cmd1 => if (count >? 0) && negb (bool_decide (cmd = cmd1)) then None else Some (count + 1, cmd1)
      | None => Some (count, cmd)
      end
  end.
Definition nCommitted (index : Z) (errs : list (option (applyError Cmd))) o : option (Z * option Cmd) :=
  loopM (commitStep index errs o) (seqZ 0 (len errs)) (0, None).

(** [wait]: [polls] is what the appliers have recorded at each poll, [terms]
    what [GetState] says then; [None] in place of a command is the -1. *)
Fixpoint waitLoop (iters : nat) (index n startTerm : Z) (errs : list (option (applyError Cmd)))
    (polls : nat -> observer Cmd) (terms : nat -> list Z) : option (option (option Cmd)) :=
  match iters with
  | O => '(nd, cmd) ← nCommitted index errs (polls O); if nd <? n then None else Some (Some cmd)
  | S iters =>
      '(nd, _) ← nCommitted index errs (polls O);
      if nd >=? n then
        '(nd, cmd) ← nCommitted index errs (polls 1%nat); if nd <? n then None else Some (Some cmd)
      else if (startTerm >? -1) && existsb (fun t => t >? startTerm) (terms O) then Some None
      else waitLoop iters index n startTerm errs (fun k => polls (S k)) (fun k => terms (S k))
  end.
Definition wait := waitLoop 30.

(** What an attempt of [one] meets: which servers are connected, what their
    [Start] returns, and the polls of the two seconds that follow. *)
Record attempt : Type := mkAttempt {
  at_connected : list bool; at_start : Z -> option (Z * Z * bool); at_polls : list (observer Cmd) }.

(** The search for a leader: the servers in turn, from the one after [starts];
    [at_start] of a nil peer is [None]. *)
Fixpoint findLeader (si : nat) (n starts : Z) (a : attempt) : option (Z * Z) :=
  match si with
  | O => Some (-1, starts)
  | S si =>
      let starts := Z.rem (starts + 1) n in
      c ← idx (at_connected a) starts;
      match (if (c : bool) then at_start a starts else None) with
      | Some (index1, _, true) => Some (index1, starts)
      | _ => findLeader si n starts a
      end
  end.

(** The polls of an attempt: agreement on the command. *)
Fixpoint pollLoop (index expected : Z) (cmd : option Cmd) (errs : list (option (applyError Cmd))) (polls : list (observer Cmd))
    : option bool :=
  match polls with
  | [] => Some false
  | o :: polls =>
      '(nd, cmd1) ← nCommitted index errs o;
      if (nd >? 0) && (nd >=? expected) && bool_decide (cmd1 = cmd) then Some true
      else pollLoop index expected cmd errs polls
  end.

(** [one], over the attempts that fit into its ten seconds; [finished] is
    [checkFinished] at the end. *)
Fixpoint oneLoop (n starts expected : Z) (retry finished : bool) (cmd : option Cmd) (errs : list (option (applyError Cmd)))
    (attempts : list attempt) : option Z :=
  match attempts with
  | [] => if finished then Some (-1) else None
  | a :: attempts =>
      '(index, starts) ← findLeader (Z.to_nat n) n starts a;
      if negb (index =? -1) then
        agreed ← pollLoop index expected cmd errs (at_polls a);
        if (agreed : bool) then Some index
        else if negb retry then None
        else oneLoop n starts expected retry finished cmd errs attempts
      else oneLoop n starts expected retry finished cmd errs attempts
  end.
Definition one (n : Z) := oneLoop n 0.
End checks.
