(* ===== verification/RaftConfigFacts.v ===== *)
(** * Raft: what the test configuration guarantees and checks

    The wiring of the network follows [connected], the checks say what they
    should, and the snapshots of [applierSnap] are read back exactly. *)

From S2P Require Import Prelude GoFmt Gob RaftTypes RaftLog RaftSnapshot.
From S2P Require Import LabRpc Wiring RaftConfig.

#[local] Open Scope Z_scope.

(** ** Wiring *)

Section wiring.
Implicit Types (w : wiring) (e : string).

(** An end is enabled exactly when both of its servers are connected, and leads
    to the server it is meant for; no two ends share a name. *)
Record wired w : Prop := {
  wi_conn : len (w_connected w) = Z.of_nat (w_n w);
  wi_ends : forall i j e, endnameOf w i j = Some e -> inr e ∈ ends (w_net w);
  wi_inj : forall i j i' j' e, endnameOf w i j = Some e -> endnameOf w i' j' = Some e -> i = i' /\ j = j';
  wi_range : forall i j e, endnameOf w i j = Some e -> 0 <= j < Z.of_nat (w_n w);
  wi_rows : len (w_endnames w) = Z.of_nat (w_n w);
  wi_target : forall i j e, endnameOf w i j = Some e -> connections (w_net w) !! inr e = Some (Some (inl j));
  wi_enabled : forall i j e ci cj, endnameOf w i j = Some e ->
    idx (w_connected w) i = Some ci -> idx (w_connected w) j = Some cj -> isEnabled (w_net w) (inr e) = ci && cj;
}.

(** Two wirings that differ in what is enabled. *)
Definition shape w w' : Prop :=
  w_n w' = w_n w /\ w_connected w' = w_connected w /\ w_endnames w' = w_endnames w
  /\ ends (w_net w') = ends (w_net w) /\ connections (w_net w') = connections (w_net w).

Lemma shape_endname w w' i j : shape w w' -> endnameOf w' i j = endnameOf w i j.
Proof. intros (_ & _ & E & _); unfold endnameOf; by rewrite E. Qed.

Lemma shape_trans w1 w2 w3 : shape w1 w2 -> shape w2 w3 -> shape w1 w3.
Proof. intros (?&?&?&?&?) (?&?&?&?&?); split_and!; congruence. Qed.

(** A loop that enables or disables the selected ends. *)
Lemma enable_loop f (b : bool) (sel : Z -> option string) xs w w' :
  (forall j w1 w2, j ∈ xs -> shape w w1 -> f j w1 = Some w2 ->
     w2 = match sel j with Some e => enableEnd e b w1 | None => w1 end) ->
  loopM f xs w = Some w' ->
  shape w w'
  /\ forall e, isEnabled (w_net w') (inr e)
       = if bool_decide (Exists (fun j => sel j = Some e) xs) then b else isEnabled (w_net w) (inr e).
Proof.
  apply (switch_loop w_net shape (fun e w => enableEnd e b w) inr b); [done|apply shape_trans|done|].
  intros e e' u; unfold enableEnd; simpl. rewrite isEnabled_Enable. repeat case_bool_decide; congruence.
Qed.

Lemma Exists_sel w (sel : Z -> option string) e :
  (forall j e, sel j = Some e -> 0 <= j < Z.of_nat (w_n w)) ->
  Exists (fun j => sel j = Some e) (peersOf w) <-> exists j, sel j = Some e.
Proof.
  intros Hr; rewrite Exists_exists; split; [intros (j & _ & ?); eauto|intros (j & Hj)].
  exists j; split; [|done]. apply elem_of_seqZ. specialize (Hr j e Hj); lia.
Qed.

(** The ends a row or a column of [endnames] selects. *)
Definition outgoing w (i : Z) (on : Z -> bool) (j : Z) : option string := if on j then endnameOf w i j else None.
Definition incoming w (i : Z) (on : Z -> bool) (j : Z) : option string := if on j then endnameOf w j i else None.

Definition isConnected w (j : Z) : bool := default false (idx (w_connected w) j).

Lemma endname_row w i j e : wired w -> endnameOf w i j = Some e -> 0 <= i < Z.of_nat (w_n w).
Proof.
  intros Hw He; rewrite <- (wi_rows _ Hw). unfold endnameOf in He. destruct (idx (w_endnames w) i) eqn:E; [|done].
  by eapply idx_Some_range.
Qed.

(** Both loops of [connect] and [disconnect]. *)
Lemma switch_wired w w1 w2 w3 i (b : bool) c :
  wired w -> upd (w_connected w) i b = Some c -> w1 = set_connected c w ->
  (forall e, (exists j, outgoing w i (fun j => if b then isConnected w1 j else true) j = Some e)
             \/ (exists j, incoming w i (fun j => if b then isConnected w1 j else true) j = Some e) ->
     isEnabled (w_net w3) (inr e) = b) ->
  (forall e, (forall j, outgoing w i (fun j => if b then isConnected w1 j else true) j <> Some e) ->
             (forall j, incoming w i (fun j => if b then isConnected w1 j else true) j <> Some e) ->
     isEnabled (w_net w3) (inr e) = isEnabled (w_net w) (inr e)) ->
  shape w1 w3 -> wired w3.
Proof.
  intros Hw Hc -> Hin Hout (En & Ec & Ee & Es & Ex); pose proof Hw as [W1 W2 W3 W4 W5 W6 W7].
  assert (Hname : forall x y, endnameOf w3 x y = endnameOf w x y) by (intros; unfold endnameOf; by rewrite Ee).
  simpl in *; split.
  - by rewrite Ec, En, (upd_len _ _ _ _ Hc).
  - intros x y e; rewrite Hname, Es; eauto.
  - intros x y x' y' e; rewrite !Hname; eauto.
  - intros x y e; rewrite Hname, En; eauto.
  - by rewrite Ee, En.
  - intros x y e; rewrite Hname, Ex; eauto.
  - intros x y e cx cy; rewrite Hname, Ec; intros He Hx Hy.
    assert (Hidx : forall z cz, idx c z = Some cz -> isConnected (set_connected c w) z = cz)
      by (intros z cz Hz; unfold isConnected; simpl; by rewrite Hz).
    assert (Hold : forall z cz, z <> i -> idx c z = Some cz -> idx (w_connected w) z = Some cz)
      by (intros z cz Hz; by rewrite (idx_upd_ne _ _ _ _ _ Hc) by congruence).
    assert (Hsel : forall z, (x <> i -> outgoing w i (fun j => if b then isConnected (set_connected c w) j else true) z <> Some e)
        /\ (y <> i -> incoming w i (fun j => if b then isConnected (set_connected c w) j else true) z <> Some e)).
    { intros z; unfold outgoing, incoming; split; intros Hne; case_if; try done; intros He'.
      all: destruct (W3 _ _ _ _ _ He He'); congruence. }
    destruct (decide (x = i)) as [->|Hxi]; [|destruct (decide (y = i)) as [->|Hyi]].
    + rewrite (idx_upd_eq _ _ _ _ Hc) in Hx; injection Hx as <-. destruct b; simpl.
      * destruct cy; [apply Hin; left; exists y; unfold outgoing; by rewrite (Hidx _ _ Hy)|].
        assert (y <> i) by (intros ->; rewrite (idx_upd_eq _ _ _ _ Hc) in Hy; done).
        assert (Hx : exists ci, idx (w_connected w) i = Some ci).
        { apply idx_in_range. rewrite W1. by eapply endname_row. }
        destruct Hx as [ci Hx]. rewrite Hout, (W7 i y e ci false); [by rewrite andb_false_r|done|done|by apply Hold| |].
        -- intros z; unfold outgoing; case_if; [|done]. intros He'; destruct (W3 _ _ _ _ _ He He') as [_ <-].
           by rewrite (Hidx _ _ Hy) in *.
        -- intros z; by apply Hsel.
      * apply Hin; left; exists y; unfold outgoing; done.
    + rewrite (idx_upd_eq _ _ _ _ Hc) in Hy; injection Hy as <-. destruct b; simpl.
      * destruct cx; [apply Hin; right; exists x; unfold incoming; by rewrite (Hidx _ _ Hx)|].
        assert (Hy : exists ci, idx (w_connected w) i = Some ci) by (apply idx_in_range; rewrite W1; eauto).
        destruct Hy as [ci Hy]. rewrite Hout, (W7 x i e false ci); [done|done|by apply Hold|done| |].
        -- intros z; by apply Hsel.
        -- intros z; unfold incoming; case_if; [|done]. intros He'; destruct (W3 _ _ _ _ _ He He') as [<- _].
           by rewrite (Hidx _ _ Hx) in *.
      * rewrite andb_false_r. apply Hin; right; exists x; unfold incoming; done.
    + rewrite Hout; [apply (W7 x y); auto|intros z; by apply Hsel|intros z; by apply Hsel].
Qed.

(** The two loops after [connected] has been set. *)
Lemma two_loops f g (b : bool) i on w w1 w2 w3 c :
  wired w -> upd (w_connected w) i b = Some c -> w1 = set_connected c w ->
  on = (fun j => if b then isConnected w1 j else true) ->
  (forall j u u', j ∈ peersOf w1 -> shape w1 u -> f j u = Some u' ->
     u' = match outgoing w i on j with Some e => enableEnd e b u | None => u end) ->
  (forall j u u', j ∈ peersOf w1 -> shape w1 u -> g j u = Some u' ->
     u' = match incoming w i on j with Some e => enableEnd e b u | None => u end) ->
  loopM f (peersOf w1) w1 = Some w2 -> loopM g (peersOf w2) w2 = Some w3 -> wired w3 /\ w_connected w3 = c.
Proof.
  intros Hw Hc Hw1 Hon Hf Hg HL1 HL2.
  destruct (enable_loop f b _ _ w1 w2 Hf HL1) as [Hs1 He1]. destruct Hs1 as (En & Ec & Ee & Es & Ex).
  assert (Hps : peersOf w2 = peersOf w1) by (unfold peersOf; by rewrite En). rewrite Hps in HL2.
  destruct (enable_loop g b (incoming w i on) (peersOf w1) w2 w3) as [Hs2 He2]; [|done|].
  { intros j u u' Hj Hu; apply Hg; [done|]. eapply shape_trans; [|done]. split_and!; congruence. }
  assert (Hs3 : shape w1 w3) by (eapply shape_trans; [|done]; split_and!; congruence).
  assert (Hn : w_n w1 = w_n w) by (by rewrite Hw1).
  assert (Ho : forall e, Exists (fun j => outgoing w i on j = Some e) (peersOf w1) <-> exists j, outgoing w i on j = Some e).
  { intros e; apply Exists_sel. intros j e'; unfold outgoing; case_if; [|done]. rewrite Hn; apply (wi_range _ Hw). }
  assert (Hi : forall e, Exists (fun j => incoming w i on j = Some e) (peersOf w1) <-> exists j, incoming w i on j = Some e).
  { intros e; apply Exists_sel. intros j e'; unfold incoming; case_if; [|done]. rewrite Hn; by apply endname_row. }
  split; [|destruct Hs3 as (_ & -> & _); by rewrite Hw1].
  eapply (switch_wired w w1 w2 w3 i b c); try done; rewrite <- Hon; intros e.
  - intros [Hx|Hx]; rewrite He2; [rewrite He1, (bool_decide_eq_true_2 (Exists (fun j => outgoing w i on j = Some e) _)) by (by apply Ho)|
      by rewrite bool_decide_eq_true_2 by (by apply Hi)]. by case_bool_decide.
  - intros H1 H2; rewrite He2, He1, !bool_decide_eq_false_2; [by rewrite Hw1|rewrite Ho; naive_solver|rewrite Hi; naive_solver].
Qed.

Lemma connect_wired i w w' : wired w -> connect i w = Some w' -> wired w'.
Proof.
  unfold connect; intros Hw HR; inv_opt. rename x into c, H into Hc, x0 into w2, H0 into HL.
  eapply (two_loops _ _ true i _ w (set_connected c w) w2 w' c); try done.
  - intros j u u' _ Hs Hf; cbn beta in Hf; inv_opt. rewrite (shape_endname _ _ i j Hs) in Hf. destruct Hs as (_ & Ec & _).
    rewrite Ec in H. unfold outgoing, isConnected. rewrite H; simpl. destruct x; [|by inv_opt].
    change (endnameOf (set_connected c w) i j) with (endnameOf w i j) in Hf. inv_opt. by rewrite H0.
  - intros j u u' _ Hs Hf; cbn beta in Hf; inv_opt. rewrite (shape_endname _ _ j i Hs) in Hf. destruct Hs as (_ & Ec & _).
    rewrite Ec in H. unfold incoming, isConnected. rewrite H; simpl. destruct x; [|by inv_opt].
    change (endnameOf (set_connected c w) j i) with (endnameOf w j i) in Hf. inv_opt. by rewrite H0.
Qed.

Lemma disconnect_wired i w w' :
  wired w -> disconnect i w = Some w' -> wired w' /\ idx (w_connected w') i = Some false.
Proof.
  unfold disconnect; intros Hw HR; inv_opt. rename x into c, H into Hc, x0 into w2, H0 into HL.
  assert (Hrow : forall x j u u' row, shape (set_connected c w) u -> idx (w_endnames u) x = Some row ->
    (match row with Some _ => e ← endnameOf u x j; Some (enableEnd e false u) | None => Some u end) = Some u' ->
    u' = match endnameOf w x j with Some e => enableEnd e false u | None => u end).
  { intros x j u u' row Hs He HR'. rewrite (shape_endname _ _ x j Hs) in HR'. destruct Hs as (_ & _ & Ee & _).
    change (endnameOf (set_connected c w) x j) with (endnameOf w x j) in HR'. destruct row; [by inv_opt; rewrite H|].
    inv_opt. unfold endnameOf. rewrite Ee in He; simpl in He. by rewrite He. }
  assert (Hres : wired w' /\ w_connected w' = c); [|destruct Hres as [? ->]; split; [done|by apply (idx_upd_eq _ _ _ _ Hc)]].
  eapply (two_loops _ _ false i _ w (set_connected c w) w2 w' c); try done.
  - intros j u u' _ Hs Hf; cbn beta in Hf; inv_opt. by eapply Hrow.
  - intros j u u' _ Hs Hf; cbn beta in Hf; inv_opt. by eapply Hrow.
Qed.

(** ** Fresh ends *)

Definition freshStep (i j : Z) w : option wiring :=
  e ← endnameOf w i j; rn ← MakeEnd (inr e) (w_net w); Some (set_net (Connect (inr e) (inl j) rn) w).

Record fresh_result (i : Z) (xs : list Z) w w' : Prop := {
  fr_same : w_n w' = w_n w /\ w_connected w' = w_connected w /\ w_endnames w' = w_endnames w;
  fr_ends : ends (w_net w) ⊆ ends (w_net w');
  fr_new : forall j e, j ∈ xs -> endnameOf w i j = Some e ->
    inr e ∉ ends (w_net w) /\ inr e ∈ ends (w_net w')
    /\ connections (w_net w') !! inr e = Some (Some (inl j)) /\ isEnabled (w_net w') (inr e) = false;
  fr_inj : forall j j' e, j ∈ xs -> j' ∈ xs -> endnameOf w i j = Some e -> endnameOf w i j' = Some e -> j = j';
  fr_old : forall x, x ∈ ends (w_net w) ->
    connections (w_net w') !! x = connections (w_net w) !! x /\ isEnabled (w_net w') x = isEnabled (w_net w) x;
}.

Lemma freshStep_result i j w w' e :
  endnameOf w i j = Some e -> freshStep i j w = Some w' ->
  inr e ∉ ends (w_net w) /\ ends (w_net w') = {[inr e]} ∪ ends (w_net w)
  /\ w_n w' = w_n w /\ w_connected w' = w_connected w /\ w_endnames w' = w_endnames w
  /\ connections (w_net w') !! inr e = Some (Some (inl j)) /\ isEnabled (w_net w') (inr e) = false
  /\ forall x, x ∈ ends (w_net w) ->
       connections (w_net w') !! x = connections (w_net w) !! x /\ isEnabled (w_net w') x = isEnabled (w_net w) x.
Proof.
  unfold freshStep, MakeEnd; intros He HR; rewrite He in HR; simpl in HR; inv_opt. case_decide; inv_opt.
  split_and!; try done; simpl; [by rewrite lookup_insert_eq|unfold isEnabled; simpl; by rewrite lookup_insert_eq|].
  intros x Hx; assert (inr e <> x) by (intros <-; done).
  unfold isEnabled; simpl; by rewrite !lookup_insert_ne.
Qed.

Lemma fresh_loop i xs w w' :
  NoDup xs -> loopM (freshStep i) xs w = Some w' -> (forall j, j ∈ xs -> is_Some (endnameOf w i j)) -> fresh_result i xs w w'.
Proof.
  revert w; induction xs as [|x xs IH]; cbn [loopM]; intros w Hnd HR Hall; inv_opt.
  { split; try done; set_solver. }
  apply NoDup_cons in Hnd as [Hx Hnd]. rename x0 into w1, H into Hs.
  destruct (Hall x) as [ex Hex]; [by left|].
  destruct (freshStep_result i x w w1 ex Hex Hs) as (S1 & S2 & S3 & S4 & S5 & S6 & S7 & S8).
  assert (Hname : forall y, endnameOf w1 i y = endnameOf w i y) by (intros; unfold endnameOf; by rewrite S5).
  destruct (IH w1 Hnd HR) as [(F1 & F2 & F3) F4 F5 F6 F7]; [intros j Hj; rewrite Hname; apply Hall; by right|].
  assert (Hex1 : inr ex ∈ ends (w_net w1)) by (rewrite S2; set_solver).
  assert (Hne : forall j e, j ∈ xs -> endnameOf w i j = Some e -> inr e ∉ ends (w_net w) /\ e <> ex).
  { intros j e Hj He; rewrite <- Hname in He. destruct (F5 j e Hj He) as (Hn & _). rewrite S2 in Hn. set_solver. }
  split; [split_and!; congruence|set_solver| | |].
  - intros j e [->|Hj]%elem_of_cons He.
    + rewrite Hex in He; injection He as <-. destruct (F7 (inr ex) Hex1) as [-> ->]. set_solver.
    + destruct (Hne j e Hj He) as [? _]. rewrite <- Hname in He. destruct (F5 j e Hj He) as (_ & ? & ? & ?). done.
  - intros j j' e [->|Hj]%elem_of_cons [->|Hj']%elem_of_cons He He'; try done.
    + destruct (Hne j' e Hj' He'); congruence.
    + destruct (Hne j e Hj He); congruence.
    + apply (F6 j j' e Hj Hj'); by rewrite Hname.
  - intros y Hy; destruct (S8 y Hy) as [<- <-]. apply F7. rewrite S2; set_solver.
Qed.

Lemma freshEnds_wired i names w w' :
  wired w -> idx (w_connected w) i = Some false -> freshEnds i names w = Some w' ->
  wired w' /\ w_connected w' = w_connected w.
Proof.
  unfold freshEnds; intros Hw Hi HR; inv_opt. rename x into en, H into Hen.
  set (w1 := set_endnames en w) in *. pose proof Hw as [W1 W2 W3 W4 W5 W6 W7].
  assert (Hrow : forall j, endnameOf w1 i j = idx (names <$> peersOf w) j).
  { intros j; unfold endnameOf, w1; simpl. by rewrite (idx_upd_eq _ _ _ _ Hen). }
  assert (Hother : forall x j, x <> i -> endnameOf w1 x j = endnameOf w x j).
  { intros x j Hx; unfold endnameOf, w1; simpl. by rewrite (idx_upd_ne _ _ _ _ _ Hen) by congruence. }
  assert (Hlen : len (names <$> peersOf w) = Z.of_nat (w_n w))
    by (unfold len, peersOf; rewrite length_fmap, length_seqZ; lia).
  assert (Hin : forall j e, endnameOf w1 i j = Some e -> j ∈ peersOf w1).
  { intros j e He; rewrite Hrow in He. apply idx_Some_range in He. apply elem_of_seqZ. rewrite Hlen in He. simpl; lia. }
  destruct (fresh_loop i (peersOf w1) w1 w') as [(F1 & F2 & F3) F4 F5 F6 F7]; [apply NoDup_seqZ|done| |].
  { intros j Hj%elem_of_seqZ; rewrite Hrow. apply idx_is_Some. rewrite Hlen. simpl in Hj; lia. }
  assert (Hname : forall x y, endnameOf w' x y = endnameOf w1 x y) by (intros; unfold endnameOf; by rewrite F3).
  split; [|done]. split; rewrite ?F1, ?F2; try done.
  - intros x y e; rewrite Hname; destruct (decide (x = i)) as [->|Hx]; intros He.
    + by apply (F5 y e (Hin y e He) He).
    + rewrite Hother in He by done. apply F4. by apply (W2 x y).
  - intros x y x' y' e; rewrite !Hname; intros He He'.
    destruct (decide (x = i)) as [->|Hx], (decide (x' = i)) as [->|Hx'].
    + split; [done|]. by eapply F6; eauto.
    + rewrite Hother in He' by done. destruct (F5 y e (Hin y e He) He) as [Hn _]. destruct Hn; by eapply W2.
    + rewrite Hother in He by done. destruct (F5 y' e (Hin y' e He') He') as [Hn _]. destruct Hn; by eapply W2.
    + rewrite Hother in He, He' by done. eauto.
  - intros x y e; rewrite Hname; destruct (decide (x = i)) as [->|Hx]; intros He.
    + apply Hin in He. apply elem_of_seqZ in He; simpl in *; lia.
    + rewrite Hother in He by done. by apply (W4 x y e).
  - rewrite F3; simpl. by rewrite (upd_len _ _ _ _ Hen).
  - intros x y e; rewrite Hname; destruct (decide (x = i)) as [->|Hx]; intros He.
    + by apply (F5 y e (Hin y e He) He).
    + rewrite Hother in He by done. destruct (F7 (inr e) (W2 _ _ _ He)) as [-> _]. by apply (W6 x y e).
  - intros x y e cx cy; rewrite Hname; simpl; destruct (decide (x = i)) as [->|Hx]; intros He Hcx Hcy.
    + rewrite Hi in Hcx; injection Hcx as <-. by apply (F5 y e (Hin y e He) He).
    + rewrite Hother in He by done. destruct (F7 (inr e) (W2 _ _ _ He)) as [_ ->]. by apply (W7 x y e).
Qed.
End wiring.

Section configs.
Context {Cmd : Type} `{!GobType Cmd} `{!EqDecision Cmd}.
Implicit Types cfg : config Cmd.

(** What a test does with the configuration. *)
Inductive hop : Type :=
| HConnect (i : Z)
| HDisconnect (i : Z)
| HCrash (i : Z)
| HStart (i : Z) (randstring : Z -> string) (srv : nat) (now : Z)
| HUnreliable (unrel : bool)
| HLongReordering (longrel : bool).

Definition hopExec (op : hop) cfg : option (config Cmd) :=
  match op with
  | HConnect i => w ← connect i (cf_wires cfg); Some (set_wires w cfg)
  | HDisconnect i => w ← disconnect i (cf_wires cfg); Some (set_wires w cfg)
  | HCrash i => crash1 i cfg
  | HStart i randstring srv now => start1 i randstring srv now cfg
  | HUnreliable unrel => Some (setunreliable unrel cfg)
  | HLongReordering longrel => Some (setlongreordering longrel cfg)
  end.

Lemma wired_net w rn :
  ends rn = ends (w_net w) -> connections rn = connections (w_net w) -> enabled rn = enabled (w_net w) ->
  wired w -> wired (set_net rn w).
Proof.
  intros E1 E2 E3 []; split; simpl; try done.
  - intros i j e He; rewrite E1. by apply (wi_ends0 i j).
  - intros i j e He; rewrite E2. by apply (wi_target0 i j).
  - intros i j e ci cj He; unfold isEnabled; rewrite E3. by apply (wi_enabled0 i j).
Qed.

Lemma crash1_wired i cfg cfg' :
  wired (cf_wires cfg) -> crash1 i cfg = Some cfg' ->
  wired (cf_wires cfg') /\ idx (w_connected (cf_wires cfg')) i = Some false.
Proof.
  unfold crash1; intros Hw HR; inv_opt. rename x into w, H into Hd.
  destruct (disconnect_wired i _ w Hw Hd) as [Hw' Hi].
  assert (Hsame : cf_wires cfg' = set_net (DeleteServer (inl i) (w_net w)) w).
  { repeat match goal with Hx : match ?x with Some _ => _ | None => _ end = Some _ |- _ => destruct x; inv_opt end; done. }
  rewrite Hsame; split; [by apply wired_net|done].
Qed.

Lemma start1Saved_wires i cfg cfg' p : start1Saved i cfg = Some (cfg', p) -> cf_wires cfg' = cf_wires cfg.
Proof.
  unfold start1Saved; intros HR; inv_opt. destruct x; inv_opt; [|done].
  destruct (ReadSnapshot _); inv_opt; [done|]. destruct x0 as [o err]. destruct err; by inv_opt.
Qed.

Lemma start1_wired i names srv now cfg cfg' :
  wired (cf_wires cfg) -> start1 i names srv now cfg = Some cfg' -> wired (cf_wires cfg').
Proof.
  unfold start1; intros Hw HR; inv_opt. rename x into cfg1, H into Hc, x0 into w, H0 into Hf.
  destruct (crash1_wired i cfg cfg1 Hw Hc) as [Hw1 Hi].
  destruct (freshEnds_wired i names _ w Hw1 Hi Hf) as [Hw2 _].
  match goal with Hs : start1Saved _ _ = Some ?x |- _ => destruct x as [cfg2 p] end.
  match goal with Hs : start1Saved _ _ = _ |- _ => apply start1Saved_wires in Hs as Hsw; simpl in Hsw end.
  inv_opt; simpl. by apply wired_net.
Qed.

Lemma hopExec_wired op cfg cfg' : wired (cf_wires cfg) -> hopExec op cfg = Some cfg' -> wired (cf_wires cfg').
Proof.
  destruct op; simpl; intros Hw HR; inv_opt; simpl; eauto using connect_wired, start1_wired.
  - by eapply disconnect_wired.
  - by eapply crash1_wired.
  - by apply wired_net.
  - by apply wired_net.
Qed.

Lemma make_config_wired n unrel names now cfg : make_config n unrel names now = Some cfg -> wired (cf_wires cfg).
Proof.
  unfold make_config; intros HR; inv_opt. rename x into cfg1, H into H1.
  apply (loopM_inv _ (fun c => wired (cf_wires c)) _ _ _) in HR; [done| |].
  { intros i c c' _ Hw Hc; cbn beta in Hc; inv_opt; simpl. by eapply connect_wired. }
  apply (loopM_inv _ (fun c => wired (cf_wires c)) _ _ _) in H1; [done| |].
  { intros i c c' _ Hw Hc; by eapply start1_wired. }
  assert (Hnone : forall i j e, endnameOf (mkWiring MakeNetwork n (replicate n false) (replicate n None)) i j = Some e -> False).
  { intros i j e; unfold endnameOf; simpl; intros He; inv_opt. unfold idx in H. case_if_in H; [|done].
    apply lookup_replicate in H as [-> _]. done. }
  simpl; repeat (apply wired_net; [done|done|done|]).
  split; simpl; try (intros; by destruct (Hnone i j e)); unfold len; rewrite length_replicate; done.
Qed.

(** The wiring of a test. After [make_config] and any sequence of
    [connect], [disconnect], [crash1], [start1] and changes of reliability, the
    end peer [i] uses for peer [j] leads to server [j], and the network
    forwards what is sent on it exactly when both peers are connected,
    whatever restarts have replaced the ends of either. *)
Theorem wiring_follows_connected n unrel names now cfg0 ops cfg i j e ci cj
    (Hmake : make_config n unrel names now = Some cfg0) (Hrun : loopM hopExec ops cfg0 = Some cfg)
    (He : endnameOf (cf_wires cfg) i j = Some e)
    (Hi : idx (w_connected (cf_wires cfg)) i = Some ci) (Hj : idx (w_connected (cf_wires cfg)) j = Some cj) :
  let rn := w_net (cf_wires cfg) in
  readEndnameInfo (inr e) rn = (ci && cj, Some (inl j), serverOf rn (inl j), reliable rn, longReordering rn).
Proof.
  assert (Hw : wired (cf_wires cfg)).
  { apply (loopM_inv hopExec (fun c => wired (cf_wires c)) ops cfg0 cfg); [|by eapply make_config_wired|done].
    intros; by eapply hopExec_wired. }
  intros rn; unfold readEndnameInfo, rn. by rewrite (wi_target _ Hw i j e He), (wi_enabled _ Hw i j e ci cj He Hi Hj).
Qed.
End configs.
Arguments hop : clear implicits.

(** Three peers; peer 1 is cut off, then crashes and comes back. *)
Definition ex_names (i j : Z) : string := pretty i +:+ "-"%string +:+ pretty j.
Definition ex_hops : list hop :=
  [HDisconnect 1; HCrash 1; HStart 1 (fun j => ex_names (100 + 1) j) 7 50; HConnect 1; HDisconnect 2].
Definition ex_config : option (config Z) := c ← make_config 3 false ex_names 0; loopM hopExec ex_hops c.

Lemma wiring_follows_connected_witness :
  exists cfg0 cfg, make_config (Cmd := Z) 3 false ex_names 0 = Some cfg0 /\ loopM hopExec ex_hops cfg0 = Some cfg
    /\ endnameOf (cf_wires cfg) 0 1 = Some "0-1"%string /\ endnameOf (cf_wires cfg) 1 2 = Some "101-2"%string
    /\ (readEndnameInfo (inr "0-1"%string) (w_net (cf_wires cfg))).1.1.1.1 = true
    /\ (readEndnameInfo (inr "101-2"%string) (w_net (cf_wires cfg))).1.1.1.1 = false.
Proof.
  assert (Hall : (cfg ← ex_config; e ← endnameOf (cf_wires cfg) 0 1; e' ← endnameOf (cf_wires cfg) 1 2;
                  Some (e, e', w_connected (cf_wires cfg)))
                 = Some ("0-1"%string, "101-2"%string, [true; true; false])) by (vm_compute; reflexivity).
  unfold ex_config in Hall.
  destruct (make_config (Cmd := Z) 3 false ex_names 0) as [cfg0|] eqn:E0; [|discriminate Hall]; cbn [mbind option_bind] in Hall.
  destruct (loopM hopExec ex_hops cfg0) as [cfg|] eqn:E1; [|discriminate Hall]; cbn [mbind option_bind] in Hall.
  destruct (endnameOf (cf_wires cfg) 0 1) as [e1|] eqn:Ha; [|discriminate Hall]; cbn [mbind option_bind] in Hall.
  destruct (endnameOf (cf_wires cfg) 1 2) as [e2|] eqn:Hb; [|discriminate Hall]; cbn [mbind option_bind] in Hall.
  injection Hall as -> -> Hc.
  assert (Hx : forall i j e b, endnameOf (cf_wires cfg) i j = Some e ->
    (exists ci cj, idx (w_connected (cf_wires cfg)) i = Some ci /\ idx (w_connected (cf_wires cfg)) j = Some cj /\ b = ci && cj) ->
    (readEndnameInfo (inr e) (w_net (cf_wires cfg))).1.1.1.1 = b).
  { intros i j e b He (ci & cj & Hi & Hj & ->).
    rewrite (wiring_follows_connected 3 false ex_names 0 cfg0 ex_hops cfg i j e ci cj E0 E1 He Hi Hj); reflexivity. }
  exists cfg0, cfg; split; [reflexivity|]. split; [exact E1|]. split; [exact Ha|]. split; [exact Hb|]. split.
  - apply (Hx 0 1); [exact Ha|]. exists true, true; rewrite Hc; repeat split.
  - apply (Hx 1 2); [exact Hb|]. exists true, false; rewrite Hc; repeat split.
Defined.

(** ** checkOneLeader *)

Section leaders.
Implicit Types (connected : list bool) (states : Z -> Z * bool).

(** The connected servers among [xs] that say they lead [t]. *)
Definition claims connected states (t : Z) (xs : list Z) : list Z :=
  filter (fun i => idx connected i = Some true /\ states i = (t, true)) xs.

Definition nonempty {A} (l : list A) : option (list A) := match l with [] => None | _ => Some l end.

Lemma readLeaders_loop connected states xs : forall before (leaders : gmap Z (list Z)),
  (forall t, leaders !! t = nonempty (claims connected states t before)) ->
  (forall i, i ∈ xs -> is_Some (idx connected i)) ->
  exists leaders', loopM (leaderStep connected states) xs leaders = Some leaders'
    /\ forall t, leaders' !! t = nonempty (claims connected states t (before ++ xs)).
Proof.
  induction xs as [|x xs IH]; intros before leaders Hl Hc; cbn [loopM].
  { exists leaders; split; [done|]. by rewrite app_nil_r. }
  destruct (Hc x) as [c Hx]; [by left|].
  assert (Hcx : forall i, i ∈ xs -> is_Some (idx connected i)) by (intros i Hi; apply Hc; by right).
  assert (Happ : before ++ x :: xs = (before ++ [x]) ++ xs) by (by rewrite <- app_assoc). rewrite Happ.
  destruct (states x) as [term leader] eqn:Es.
  assert (Hskip : (c = true -> leader = false) -> forall t, leaders !! t = nonempty (claims connected states t (before ++ [x]))).
  { intros Hn t. rewrite Hl. unfold claims. rewrite filter_app, (filter_cons_False _ x), filter_nil, app_nil_r; [done|].
    intros [E1 E2]. assert (c = true) by congruence. rewrite Es in E2. injection E2 as _ E2. rewrite Hn in E2; done. }
  assert (Hstep : leaderStep connected states x leaders
            = Some (if c && leader then <[term := default [] (leaders !! term) ++ [x]]> leaders else leaders)).
  { unfold leaderStep; rewrite Hx, Es; cbn [mbind option_bind]. by destruct c, leader. }
  rewrite Hstep; cbn [mbind option_bind].
  destruct c; [|by apply IH; [apply Hskip|]]. destruct leader; [|by apply IH; [apply Hskip|]]. cbn [andb].
  apply IH; [|done]. intros t. unfold claims. rewrite filter_app. destruct (decide (term = t)) as [->|Hne].
  - rewrite lookup_insert_eq, Hl, (filter_cons_True _ x), filter_nil by done. unfold claims.
    by destruct (filter _ before).
  - rewrite lookup_insert_ne by done. rewrite Hl, (filter_cons_False _ x), filter_nil, app_nil_r; [done|].
    intros [_ E]. congruence.
Qed.

Lemma readLeaders_claims n connected states :
  len connected = Z.of_nat n ->
  exists leaders, readLeaders n connected states = Some leaders
    /\ forall t, leaders !! t = nonempty (claims connected states t (seqZ 0 (Z.of_nat n))).
Proof.
  intros Hlen; apply (readLeaders_loop connected states (seqZ 0 (Z.of_nat n)) []).
  - intros t; by rewrite lookup_empty.
  - intros i Hi%elem_of_seqZ. apply idx_is_Some; lia.
Qed.

Lemma lastTermLoop_Some ls last :
  (forall t ids, (t, ids) ∈ ls -> len ids <= 1) ->
  exists r, lastTermLoop ls last = Some r /\ last <= r /\ (r = last \/ exists ids, (r, ids) ∈ ls)
    /\ forall t ids, (t, ids) ∈ ls -> t <= r.
Proof.
  revert last; induction ls as [|[t ids] ls IH]; simpl; intros last Hl.
  { exists last; split_and!; [done|lia|by left|set_solver]. }
  destruct (len ids >? 1) eqn:E; zbool; [specialize (Hl t ids (list_elem_of_here _ _)); lia|].
  destruct (IH (if t >? last then t else last)) as (r & -> & Hge & Hor & Hall).
  { intros t' ids' Hin; apply (Hl t'); by right. }
  exists r; split_and!; [done|revert Hge; case_if; lia| |].
  - destruct Hor as [->|(ids' & Hin)]; [case_if; [right; exists ids; by left|by left]|right; exists ids'; by right].
  - intros t' ids' [[= -> ->]|Hin]%elem_of_cons; [revert Hge; case_if; lia|by apply (Hall t' ids')].
Qed.

(** What a round of [checkOneLeader] says when no two connected servers claim
    the same term: one of those that claim the latest term, if there is any. *)
Lemma oneLeaderRound_spec n connected states :
  len connected = Z.of_nat n ->
  (forall i j t, 0 <= i < Z.of_nat n -> 0 <= j < Z.of_nat n -> idx connected i = Some true -> idx connected j = Some true ->
     states i = (t, true) -> states j = (t, true) -> i = j) ->
  (forall i t, 0 <= i < Z.of_nat n -> states i = (t, true) -> 0 <= t) ->
  (oneLeaderRound n connected states = Some NoLeader
   /\ forall i t, 0 <= i < Z.of_nat n -> idx connected i = Some true -> states i <> (t, true))
  \/ exists i t, oneLeaderRound n connected states = Some (OneLeader i) /\ 0 <= i < Z.of_nat n
       /\ idx connected i = Some true /\ states i = (t, true)
       /\ forall j u, 0 <= j < Z.of_nat n -> idx connected j = Some true -> states j = (u, true) -> u <= t.
Proof.
  intros Hlen Huniq Hpos. destruct (readLeaders_claims n connected states Hlen) as (leaders & Hr & Hl).
  unfold oneLeaderRound; rewrite Hr; cbn [mbind option_bind].
  assert (Hin : forall t ids, leaders !! t = Some ids -> ids = claims connected states t (seqZ 0 (Z.of_nat n)) /\ ids <> []).
  { intros t ids; rewrite Hl. destruct (claims _ _ _ _); simpl; [done|]. intros [= <-]; done. }
  assert (Hclaim : forall t i, i ∈ claims connected states t (seqZ 0 (Z.of_nat n)) <->
            0 <= i < Z.of_nat n /\ idx connected i = Some true /\ states i = (t, true)).
  { intros t i; unfold claims. rewrite list_elem_of_filter, elem_of_seqZ. naive_solver lia. }
  assert (Hone : forall t ids, leaders !! t = Some ids -> exists i, ids = [i] /\ 0 <= i < Z.of_nat n
            /\ idx connected i = Some true /\ states i = (t, true)).
  { intros t ids [-> Hne]%Hin. destruct (claims _ _ _ _) as [|i [|j ids]] eqn:E; [done| |].
    - exists i; split; [done|]. apply Hclaim. rewrite E; by left.
    - assert (Hnd : NoDup (i :: j :: ids)) by (rewrite <- E; apply NoDup_filter, NoDup_seqZ).
      destruct (proj1 (Hclaim t i)) as (? & ? & ?); [rewrite E; by left|].
      destruct (proj1 (Hclaim t j)) as (? & ? & ?); [rewrite E; right; by left|].
      apply NoDup_cons in Hnd as [Hnd _]. destruct Hnd. rewrite (Huniq i j t) by done. by left. }
  assert (Hhas : forall i t, 0 <= i < Z.of_nat n -> idx connected i = Some true -> states i = (t, true) -> is_Some (leaders !! t)).
  { intros i t Hi Hci Hs. rewrite Hl. assert (Hx : i ∈ claims connected states t (seqZ 0 (Z.of_nat n))) by (by apply Hclaim).
    destruct (claims _ _ _ _); [set_solver|simpl; eauto]. }
  destruct (lastTermLoop_Some (map_to_list leaders) (-1)) as (r & -> & Hge & Hor & Hall).
  { intros t ids Ht%elem_of_map_to_list. destruct (Hone t ids Ht) as (i & -> & _). unfold len; simpl; lia. }
  destruct (decide (leaders = ∅)) as [->|Hne].
  - rewrite bool_decide_eq_true_2 by done. left; split; [done|]. intros i t Hi Hci Hs.
    destruct (Hhas i t Hi Hci Hs) as [x Hx]. by rewrite lookup_empty in Hx.
  - rewrite bool_decide_eq_false_2 by done. cbn [negb].
    destruct Hor as [->|(ids & Hids%elem_of_map_to_list)].
    + apply map_choose in Hne as (t & ids & Ht). destruct (Hone t ids Ht) as (i & _ & ? & _ & Hs).
      pose proof (Hpos i t ltac:(lia) Hs). specialize (Hall t ids (proj2 (elem_of_map_to_list _ _ _) Ht)). lia.
    + destruct (Hone r ids Hids) as (i & -> & ? & ? & ?). right; exists i, r. rewrite Hids; cbn. split_and!; try done; try lia.
      intros j u Hj Hcj Hs. destruct (Hhas j u Hj Hcj Hs) as [ids' Hu]. apply (Hall u ids'). by apply elem_of_map_to_list.
Qed.
End leaders.

(** ** Snapshots of the appliers *)

Section snaps.
Context {Cmd : Type} `{!GobType Cmd} `{!EqDecision Cmd}.
Implicit Types (o : observer Cmd) (l : gmap Z (option Cmd)).

Lemma logOfList_lookup (xlog : list (option Cmd)) : forall a l k,
  logOfList a xlog l !! k = match idx xlog (k - a) with Some v => Some v | None => l !! k end.
Proof.
  induction xlog as [|v xlog IH]; simpl; intros a l k.
  - rewrite idx_None; [done|]. unfold len; simpl; lia.
  - rewrite IH. destruct (decide (k = a)) as [->|Hne].
    + rewrite Z.sub_diag, idx_cons_0, (idx_None xlog) by lia. by rewrite lookup_insert_eq.
    + rewrite lookup_insert_ne by done. destruct (decide (a < k)).
      * rewrite (idx_cons_S v xlog (k - a)) by lia. by replace (k - a - 1) with (k - (a + 1)) by lia.
      * rewrite (idx_None xlog), (idx_None (v :: xlog)) by lia. done.
Qed.

(** Snapshots of a test are read back exactly. What [applierSnap]
    encodes of a server's log at [index], [ingestSnap] turns, on any server,
    into a log with the same command at every index up to [index] (nil where
    there was none) and nothing else, and into [index] as the last one applied,
    both when the snapshot arrives with its index and at a restart. *)
Theorem ingestSnap_encodeLog i index l o (at_restart : bool)
    (Hi : 0 <= i < len (o_logs o)) (Hla : 0 <= i < len (o_lastApplied o)) (Hx : 0 <= index) :
  exists o' l', ingestSnap i (encodeLog index l) (if at_restart then -1 else index) o = Some (o', None)
    /\ idx (o_logs o') i = Some l' /\ idx (o_lastApplied o') i = Some index
    /\ (forall k, 0 <= k <= index -> l' !! k = Some (default None (l !! k)))
    /\ (forall k, ~ (0 <= k <= index) -> l' !! k = None)
    /\ forall j, j <> i -> idx (o_logs o') j = idx (o_logs o) j /\ idx (o_lastApplied o') j = idx (o_lastApplied o) j.
Proof.
  set (xlog := (fun j => default None (l !! j)) <$> seqZ 0 (index + 1)).
  destruct (upd (o_logs o) i (logOfList 0 xlog ∅)) as [ls|] eqn:Hls; [|rewrite upd_ok in Hls by done; done].
  destruct (upd (o_lastApplied o) i index) as [la|] eqn:Hlast; [|rewrite upd_ok in Hlast by done; done].
  exists (mkObserver ls la (o_maxIndex o)), (logOfList 0 xlog ∅).
  assert (Hidx : forall k, idx xlog k = if decide (0 <= k <= index) then Some (default None (l !! k)) else None).
  { intros k; unfold xlog, idx. case_if; case_decide; try lia; try done; rewrite list_lookup_fmap.
    - rewrite (proj2 (lookup_seqZ _ _ _ k)) by lia. done.
    - rewrite lookup_seqZ_ge by lia. done. }
  split_and!.
  - unfold ingestSnap, encodeLog, Encode; cbn [app]. rewrite Decode_cons; cbn [mbind option_bind].
    rewrite Decode_cons; cbn [mbind option_bind]. fold xlog.
    assert (Hneg : negb ((if at_restart then -1 else index) =? -1) && negb ((if at_restart then -1 else index) =? index) = false).
    { destruct at_restart; simpl; [done|]. by rewrite Z.eqb_refl, andb_false_r. }
    rewrite Hneg, Hls; cbn [mbind option_bind]. by rewrite Hlast.
  - simpl; by eapply idx_upd_eq.
  - simpl; by eapply idx_upd_eq.
  - intros k Hk; rewrite logOfList_lookup, Z.sub_0_r, Hidx. by rewrite decide_True.
  - intros k Hk; rewrite logOfList_lookup, Z.sub_0_r, Hidx. by rewrite decide_False.
  - intros j Hj; simpl; by rewrite (idx_upd_ne _ _ _ _ _ Hls), (idx_upd_ne _ _ _ _ _ Hlast).
Qed.
End snaps.

Lemma ingestSnap_encodeLog_witness :
  exists o' l', ingestSnap 1 (encodeLog 2 {[ 1 := Some 10; 2 := Some 20 ]}) 2
      (mkObserver [∅; ∅] [0; 0] 0 : observer Z) = Some (o', None)
    /\ idx (o_logs o') 1 = Some l' /\ l' !! 2 = Some (Some 20) /\ l' !! 0 = Some None /\ l' !! 3 = None.
Proof.
  destruct (ingestSnap_encodeLog (Cmd := Z) 1 2 {[ 1 := Some 10; 2 := Some 20 ]} (mkObserver [∅; ∅] [0; 0] 0) false)
    as (o' & l' & H1 & H2 & _ & H4 & H5 & _); [vm_compute; split; [discriminate|reflexivity]
    |vm_compute; split; [discriminate|reflexivity]|lia|].
  exists o', l'; split; [exact H1|]. split; [exact H2|].
  split; [rewrite H4 by lia; reflexivity|]. split; [rewrite H4 by lia; reflexivity|]. apply H5; lia.
Defined.

(** ** Agreement *)

Section agreement.
Context {Cmd : Type} `{!EqDecision Cmd}.
Implicit Types (o : observer Cmd).

(** [one] returns an index only once it has seen the command committed there on
    as many servers as expected. *)
Lemma pollLoop_true index expected cmd errs (polls : list (observer Cmd)) :
  pollLoop index expected cmd errs polls = Some true ->
  exists o nd, o ∈ polls /\ nCommitted index errs o = Some (nd, cmd) /\ 0 < nd /\ expected <= nd.
Proof.
  induction polls as [|o polls IH]; simpl; intros HR; [done|]. inv_opt. destruct x as [nd cmd1]. case_if_in HR.
  - exists o, nd; split; [by left|]. subst. split_and!; done || lia.
  - destruct (IH HR) as (o' & nd' & ? & ?). exists o', nd'; split; [by right|done].
Qed.

Lemma one_agreed n expected retry finished cmd errs (attempts : list (attempt (Cmd := Cmd))) index :
  one n expected retry finished cmd errs attempts = Some index -> index <> -1 ->
  exists a o nd, a ∈ attempts /\ o ∈ at_polls a /\ nCommitted index errs o = Some (nd, cmd) /\ 0 < nd /\ expected <= nd.
Proof.
  unfold one; generalize 0 at 1 as starts. induction attempts as [|a attempts IH]; simpl; intros starts HR Hne.
  { destruct finished; [injection HR as <-; done|done]. }
  inv_opt. destruct x as [ix starts']. assert (Hlater : forall st, oneLoop n st expected retry finished cmd errs attempts = Some index ->
    exists a' o nd, a' ∈ a :: attempts /\ o ∈ at_polls a' /\ nCommitted index errs o = Some (nd, cmd) /\ 0 < nd /\ expected <= nd).
  { intros st Hst. destruct (IH st Hst Hne) as (a' & o & nd & ? & ?). exists a', o, nd; split; [by right|done]. }
  case_if_in HR; [|eauto]. inv_opt. destruct x; [|case_if_in HR; [done|eauto]]. injection HR as <-.
  match goal with Hp : pollLoop _ _ _ _ _ = Some true |- _ => destruct (pollLoop_true _ _ _ _ _ Hp) as (o & nd & ? & ?) end.
  exists a, o, nd; split; [by left|done].
Qed.
End agreement.
