(* ===== verification/RaftHarness.v ===== *)
(** * Raft: the cluster under the test configuration

    The cluster of [RaftCluster] together with the appliers of [RaftConfig]:
    every start of a peer makes an apply channel and an applier that reads it;
    [guardKick] sends into the channel of its peer; an applier takes the next
    message at any time. Messages of a crashed instance may still be read.

    In executions without snapshots the appliers and [nCommitted] never find
    anything wrong, and [checkOneLeader] never finds two leaders of a term. *)

From S2P Require Import Prelude Gob RaftTypes RaftLog RaftElection RaftReplicate RaftSnapshot.
From S2P Require Import RaftPeer RaftLogFacts RaftSnapshotFacts RaftCluster RaftElectionSafety RaftPaths RaftLogSafety.
From S2P Require Import RaftLogSteps RaftWhole RaftStateSafety RaftApply LabRpc RaftConfig RaftConfigFacts.

Section harness.
Context {Cmd : Type} `{!GobType Cmd} `{!EqDecision Cmd}.
Implicit Types (rf : Raft Cmd) (s : cluster Cmd) (m : ApplyMsg Cmd) (pq msgs : list (ApplyMsg Cmd)) (o : observer Cmd).
Implicit Types (V : votes) (H : tree Cmd) (LL : leaderLogs Cmd) (A : Z -> Z -> Z -> Prop).

(** The cluster, the apply channels with the messages under way, the channel of
    each peer's current instance, and what the appliers have recorded. *)
Record tester : Type := mkTester {
  t_cluster : cluster Cmd;
  t_chans : list (Z * list (ApplyMsg Cmd));
  t_cur : list nat;
  t_obs : observer Cmd;
}.
Implicit Types ts : tester.

Inductive tevent : Type :=
| TEvent (ev : event Cmd)
| TApply (c : nat).               (* the applier of channel c receives a message *)

Definition kickMsgs (i : Z) s : option (list (ApplyMsg Cmd)) := rf ← idx (nodes s) i; snd <$> guardKick rf.

(** [None] where the event is not possible or the process exits with an apply
    error. *)
Definition texec ts (ev : tevent) : option tester :=
  match ev with
  | TEvent ev =>
      s ← exec (t_cluster ts) ev;
      match ev with
      | EKick i =>
          msgs ← kickMsgs i (t_cluster ts);
          c ← idx (t_cur ts) i;
          Some (mkTester s (alter (fun ch => (ch.1, ch.2 ++ msgs)) c (t_chans ts)) (t_cur ts) (t_obs ts))
      | ECrash i _ =>
          cur ← upd (t_cur ts) i (length (t_chans ts));
          Some (mkTester s (t_chans ts ++ [(i, [])]) cur (t_obs ts))
      | _ => Some (mkTester s (t_chans ts) (t_cur ts) (t_obs ts))
      end
  | TApply c =>
      ch ← t_chans ts !! c;
      match ch with
      | (i, m :: pq) =>
          '(o, err) ← applier i m (t_obs ts);
          match err with
          | None => Some (mkTester (t_cluster ts) (<[c := (i, pq)]> (t_chans ts)) (t_cur ts) o)
          | Some _ => None
          end
      | (_, []) => None
      end
  end.

Definition ttimely ts (ev : tevent) : bool := match ev with TEvent ev => timely (t_cluster ts) ev | TApply _ => true end.
Definition tsnapless (ev : tevent) : bool := match ev with TEvent ev => snapless ev | TApply _ => true end.

Fixpoint trun ts (evs : list tevent) : option tester :=
  match evs with
  | [] => Some ts
  | ev :: evs => if ttimely ts ev then ts ← texec ts ev; trun ts evs else None
  end.

Definition tinit (n : nat) : option tester :=
  s ← init n;
  Some (mkTester s ((fun i => (i, [])) <$> seqZ 0 (Z.of_nat n)) (seq 0 n) (mkObserver (replicate n ∅) (replicate n 0) 0)).

Context (n : nat).

Definition reached o (i x : Z) : Prop := x = 0 \/ exists l, idx (o_logs o) i = Some l /\ is_Some (l !! x).

(** The messages of a channel: consecutive settled entries, from the first one
    the server has not recorded. *)
Definition chan_ok H A o (i : Z) pq (a : Z) : Prop :=
  CommandIndex <$> pq = seqZ a (len pq) /\ reached o i (a - 1) /\ 1 <= a
  /\ forall m, m ∈ pq -> CommandValid m = true /\ settled n H A (CommandIndex m) (msgCommand m).

Record tinv H A ts : Prop := {
  ti_logs_len : len (o_logs (t_obs ts)) = Z.of_nat n;
  ti_logs : forall i l k v, idx (o_logs (t_obs ts)) i = Some l -> l !! k = Some v -> settled n H A k v;
  ti_chan : forall c i pq, t_chans ts !! c = Some (i, pq) -> 0 <= i < Z.of_nat n /\ exists a, chan_ok H A (t_obs ts) i pq a;
  ti_cur : forall i c rf, idx (t_cur ts) i = Some c -> idx (nodes (t_cluster ts)) i = Some rf ->
    exists pq a, t_chans ts !! c = Some (i, pq) /\ chan_ok H A (t_obs ts) i pq a /\ lastApplied rf = a - 1 + len pq;
}.

Lemma chan_mono H H' A A' o i pq a :
  H ⊆ H' -> (forall q k t, A q k t -> A' q k t) -> chan_ok H A o i pq a -> chan_ok H' A' o i pq a.
Proof.
  intros HH HA (? & ? & ? & Hm); split_and!; try done. intros m Hin; destruct (Hm m Hin); split; [done|by eapply settled_mono].
Qed.

(** A step of the cluster that applies nothing. *)
Lemma tinv_quiet H H' A A' ts s' :
  H ⊆ H' -> (forall q k t, A q k t -> A' q k t) -> tinv H A ts ->
  (forall i rf', idx (nodes s') i = Some rf' -> exists rf, idx (nodes (t_cluster ts)) i = Some rf /\ lastApplied rf' = lastApplied rf) ->
  tinv H' A' (mkTester s' (t_chans ts) (t_cur ts) (t_obs ts)).
Proof.
  intros HH HA [T1 T2 T3 T4] Hs; split; simpl; try done.
  - intros i l k v Hl Hk; eapply settled_mono; eauto.
  - intros c i pq Hc; destruct (T3 c i pq Hc) as (? & a & ?). split; [done|]. exists a. by eapply chan_mono.
  - intros i c rf' Hi Hrf; destruct (Hs i rf' Hrf) as (rf & Hrf0 & ->).
    destruct (T4 i c rf Hi Hrf0) as (pq & a & ? & ? & ?). exists pq, a; split_and!; try done. by eapply chan_mono.
Qed.

Lemma seqZ_app_len (a : Z) (x y : nat) : seqZ a (Z.of_nat (x + y)) = seqZ a (Z.of_nat x) ++ seqZ (a + Z.of_nat x) (Z.of_nat y).
Proof. rewrite Nat2Z.inj_add, seqZ_app by lia. done. Qed.

Lemma chan_app H A o i pq msgs a :
  chan_ok H A o i pq a -> CommandIndex <$> msgs = seqZ (a + len pq) (len msgs) ->
  (forall m, m ∈ msgs -> CommandValid m = true /\ settled n H A (CommandIndex m) (msgCommand m)) ->
  chan_ok H A o i (pq ++ msgs) a.
Proof.
  intros (Hi & ? & ? & Hm) Hi' Hm'; split_and!; try done.
  - rewrite fmap_app, Hi, Hi', len_app. unfold len. rewrite <- Nat2Z.inj_add, seqZ_app_len. done.
  - intros m [|]%elem_of_app; auto.
Qed.

(** ** One applier receives a message *)

Lemma compareLogs_agree (i k : Z) (v : option Cmd) ls : forall j,
  (forall l old, l ∈ ls -> l !! k = Some old -> old = v) -> compareLogs i k v j ls None = None.
Proof.
  induction ls as [|l ls IH]; simpl; intros j Hls; [done|].
  destruct (l !! k) as [old|] eqn:E; [rewrite bool_decide_eq_true_2 by (eapply Hls; [by left|done])|];
    apply IH; intros l' old' Hl'; apply Hls; by right.
Qed.

Lemma apply_ok V H LL A w ts c i m pq :
  log_inv n V H LL A w -> tinv H A ts -> t_chans ts !! c = Some (i, m :: pq) ->
  exists l ls mx, idx (o_logs (t_obs ts)) i = Some l
    /\ upd (o_logs (t_obs ts)) i (<[CommandIndex m := msgCommand m]> l) = Some ls
    /\ applier i m (t_obs ts) = Some (mkObserver ls (o_lastApplied (t_obs ts)) mx, None).
Proof.
  intros HI [T1 T2 T3 T4] Hc. destruct (T3 c i _ Hc) as (Hi & a & Hix & Hre & Ha & Hm).
  destruct (Hm m (list_elem_of_here _ _)) as [Hv Hset].
  assert (Hcm : CommandIndex m = a).
  { rewrite fmap_cons, len_cons in Hix. rewrite seqZ_cons in Hix by (pose proof (len_nonneg pq); lia). by injection Hix. }
  destruct (idx_in_range (o_logs (t_obs ts)) i) as [l Hl]; [lia|].
  assert (Hu : upd (o_logs (t_obs ts)) i (<[CommandIndex m := msgCommand m]> l) = Some (<[Z.to_nat i := <[CommandIndex m := msgCommand m]> l]> (o_logs (t_obs ts))))
    by (apply upd_ok; lia).
  eexists l, _, _; split; [done|]. split; [exact Hu|]. unfold applier; rewrite Hv; simpl. unfold checkLogs; rewrite Hl, compareLogs_agree; simpl.
  - rewrite Hu; simpl. destruct (CommandIndex m >? 1) eqn:E; simpl; [|done]. zbool.
    destruct Hre as [|(l' & Hl' & Hsome)]; [lia|]. rewrite Hl in Hl'; injection Hl' as <-.
    rewrite bool_decide_eq_true_2; [done|]. by rewrite Hcm.
  - intros l' old (j & Hj)%elem_idx Hold. by apply (settled_fun n V H LL A _ _ _ _ HI (T2 j l' _ _ Hj Hold)).
Qed.

Lemma reached_grow o o' i j x l ls k v :
  idx (o_logs o) i = Some l -> upd (o_logs o) i (<[k := v]> l) = Some ls -> o_logs o' = ls -> reached o j x -> reached o' j x.
Proof.
  intros Hl Hu Ho [->|(l' & Hl' & Hs)]; [by left|right]. rewrite Ho. destruct (decide (i = j)) as [->|].
  - rewrite Hl in Hl'; injection Hl' as <-. exists (<[k := v]> l); rewrite (idx_upd_eq _ _ _ _ Hu); split; [done|].
    rewrite lookup_insert_is_Some'. by right.
  - exists l'; by rewrite (idx_upd_ne _ _ _ _ _ Hu).
Qed.

Lemma tinv_apply V H LL A w ts ts' c :
  log_inv n V H LL A w -> tinv H A ts -> texec ts (TApply c) = Some ts' ->
  tinv H A ts' /\ t_cluster ts' = t_cluster ts.
Proof.
  simpl; intros HI HT HR; inv_opt. destruct x as [i [|m pq]]; [done|]. rename H0 into Hc.
  destruct (apply_ok V H LL A _ ts c i m pq HI HT Hc) as (l & ls & mx & Hl & Hu & Ha). rewrite Ha in HR; simpl in HR; inv_opt.
  split; [|done]. destruct HT as [T1 T2 T3 T4]. destruct (T3 c i _ Hc) as (Hi & a & Hok).
  assert (Hgrow : forall j x, reached (t_obs ts) j x -> reached (mkObserver ls (o_lastApplied (t_obs ts)) mx) j x)
    by (intros; by eapply reached_grow).
  assert (Hother : forall j pq' a', chan_ok H A (t_obs ts) j pq' a' -> chan_ok H A (mkObserver ls (o_lastApplied (t_obs ts)) mx) j pq' a').
  { intros j pq' a' (? & ? & ? & ?); split_and!; auto. }
  assert (Hpop : forall a', chan_ok H A (t_obs ts) i (m :: pq) a' -> chan_ok H A (mkObserver ls (o_lastApplied (t_obs ts)) mx) i pq (a' + 1)).
  { intros a' (Hix & _ & Ha' & Hm). rewrite fmap_cons, len_cons, seqZ_cons in Hix by (pose proof (len_nonneg pq); lia).
    injection Hix as Hcm Hix. split_and!; [rewrite Hix; f_equal; lia| |lia|intros m' Hm'; apply Hm; by right].
    right; exists (<[CommandIndex m := msgCommand m]> l); simpl; rewrite (idx_upd_eq _ _ _ _ Hu); split; [done|].
    rewrite Hcm. replace (a' + 1 - 1) with a' by lia. rewrite lookup_insert_eq; eauto. }
  split; simpl.
  - by rewrite (upd_len _ _ _ _ Hu).
  - intros j l' k v; destruct (decide (i = j)) as [->|].
    + rewrite (idx_upd_eq _ _ _ _ Hu); intros [= <-] [[<- <-]|[_ Hk]]%lookup_insert_Some; [|by eapply T2].
      destruct Hok as (_ & _ & _ & Hm). by apply Hm; left.
    + rewrite (idx_upd_ne _ _ _ _ _ Hu) by done. by apply T2.
  - intros c' i' pq'; destruct (decide (c = c')) as [->|].
    + rewrite list_lookup_insert_eq by (by eapply lookup_lt_Some). intros [= <- <-]. split; [done|]. exists (a + 1); auto.
    + rewrite list_lookup_insert_ne by done. intros Hc'; destruct (T3 _ _ _ Hc') as (? & a' & ?). split; [done|]. exists a'; auto.
  - intros j c' rf Hj Hrf; destruct (T4 j c' rf Hj Hrf) as (pq' & a' & Hc' & Hok' & Hla). destruct (decide (c = c')) as [->|].
    + rewrite Hc in Hc'; injection Hc' as <- <-. exists pq, (a' + 1). rewrite list_lookup_insert_eq by (by eapply lookup_lt_Some).
      split_and!; [done|auto|]. rewrite Hla, len_cons; lia.
    + exists pq', a'. rewrite list_lookup_insert_ne by done. auto.
Qed.

(** ** Events of the cluster *)

Lemma tinv_kick V H LL A PP ts ts' s' i rf rf' msgs c :
  winv n V H LL A PP (t_cluster ts) -> untrimmed (t_cluster ts) -> tinv H A ts -> idx (nodes (t_cluster ts)) i = Some rf ->
  guardKick rf = Some (rf', msgs) -> upd (nodes (t_cluster ts)) i rf' = Some (nodes s') -> idx (t_cur ts) i = Some c ->
  ts' = mkTester s' (alter (fun ch => (ch.1, ch.2 ++ msgs)) c (t_chans ts)) (t_cur ts) (t_obs ts) -> tinv H A ts'.
Proof.
  intros HI HU [T1 T2 T3 T4] Hi HK Hu Hc ->. destruct (winv_node _ _ _ _ _ _ _ _ _ HI Hi) as (P & _ & _ & Hv & Hnode).
  destruct (T4 i c rf Hc Hi) as (pq & a & Hch & Hok & Hla).
  assert (Hla0 : 0 <= lastApplied rf) by (destruct Hok as (_ & _ & ? & _); pose proof (len_nonneg pq); lia).
  assert (Hcov : covers rf = lastApplied rf) by (unfold covers; rewrite (proj1 (un_node _ HU _ _ Hi)); lia).
  destruct (kick_msgs n H LL A i P rf rf' msgs Hnode Hv ltac:(lia) HK) as (Hix & Hla' & Hm0).
  destruct (guardKick_fields _ _ _ HK) as (Es & _ & _ & Ela). rewrite Hcov in Hix, Hla'.
  assert (Hla'' : lastApplied rf' = lastApplied rf + len msgs) by (unfold covers in Hla'; rewrite Es, (proj1 (un_node _ HU _ _ Hi)) in Hla'; lia).
  clear Hla'; rename Hla'' into Hla'.
  assert (Hm : forall m, m ∈ msgs -> CommandValid m = true /\ settled n H A (CommandIndex m) (msgCommand m)).
  { intros m Hin; destruct (Hm0 m Hin) as [E ?]. split; [by rewrite E|done]. }
  assert (Happ : forall a', chan_ok H A (t_obs ts) i pq a' -> lastApplied rf = a' - 1 + len pq -> chan_ok H A (t_obs ts) i (pq ++ msgs) a').
  { intros a' Hok' E. apply chan_app; [done| |done]. rewrite Hix; f_equal; lia. }
  assert (Hlk : forall c' i' pq', alter (fun ch => (ch.1, ch.2 ++ msgs)) c (t_chans ts) !! c' = Some (i', pq') ->
            (c' = c /\ i' = i /\ pq' = pq ++ msgs) \/ (c' <> c /\ t_chans ts !! c' = Some (i', pq'))).
  { intros c' i' pq'; rewrite list_lookup_alter; case_decide; subst; [|auto]. rewrite Hch; simpl. intros [= <- <-]; auto. }
  split; simpl; try done.
  - intros c' i' pq' [(-> & -> & ->)|[_ Hc']]%Hlk; [|by apply (T3 c')]. split; [by apply (T3 c i pq)|]. exists a; auto.
  - intros j c' rfj Hj Hrfj. destruct (decide (i = j)) as [->|].
    + rewrite Hc in Hj; injection Hj as <-. rewrite (idx_upd_eq _ _ _ _ Hu) in Hrfj; injection Hrfj as <-.
      exists (pq ++ msgs), a. rewrite list_lookup_alter_eq, Hch; simpl. split_and!; [done|auto|]. rewrite Hla', Hla, len_app; lia.
    + rewrite (idx_upd_ne _ _ _ _ _ Hu) in Hrfj by done. destruct (T4 j c' rfj Hj Hrfj) as (pq' & a' & Hc' & ? & ?).
      exists pq', a'; rewrite list_lookup_alter_ne; [done|]. intros ->. rewrite Hch in Hc'; congruence.
Qed.

Lemma tinv_crash H A ts ts' s' i rf' cur :
  tinv H A ts -> upd (nodes (t_cluster ts)) i rf' = Some (nodes s') -> lastApplied rf' = 0 -> 0 <= i < Z.of_nat n ->
  upd (t_cur ts) i (length (t_chans ts)) = Some cur ->
  ts' = mkTester s' (t_chans ts ++ [(i, [])]) cur (t_obs ts) -> tinv H A ts'.
Proof.
  intros [T1 T2 T3 T4] Hu Hla Hi Hcur ->.
  assert (Hnew : chan_ok H A (t_obs ts) i [] 1) by (split_and!; [done|by left|lia|set_solver]).
  split; simpl; try done.
  - intros c j pq [Hc|(Hle & Hc)]%lookup_app_Some; [by apply (T3 c)|].
    apply list_lookup_singleton_Some in Hc as [_ [= <- <-]]. split; [done|by exists 1].
  - intros j c rfj Hj Hrfj; destruct (decide (i = j)) as [->|].
    + rewrite (idx_upd_eq _ _ _ _ Hcur) in Hj; injection Hj as <-. rewrite (idx_upd_eq _ _ _ _ Hu) in Hrfj; injection Hrfj as <-.
      exists [], 1. rewrite lookup_app_r, Nat.sub_diag by lia. split_and!; [done|done|unfold len; simpl; lia].
    + rewrite (idx_upd_ne _ _ _ _ _ Hcur) in Hj by done. rewrite (idx_upd_ne _ _ _ _ _ Hu) in Hrfj by done.
      destruct (T4 j c rfj Hj Hrfj) as (pq & a & Hc & ? & ?). exists pq, a; split; [|done]. by apply lookup_app_l_Some.
Qed.

Lemma kick_exec s s' i msgs :
  exec s (EKick i) = Some s' -> kickMsgs i s = Some msgs ->
  exists rf rf', idx (nodes s) i = Some rf /\ guardKick rf = Some (rf', msgs) /\ upd (nodes s) i rf' = Some (nodes s').
Proof.
  unfold kickMsgs; simpl; intros HE HK. destruct (idx (nodes s) i) as [rf|]; [|done]; simpl in *.
  destruct (guardKick rf) as [[rf' ms]|] eqn:E; [|done]; simpl in *. injection HK as <-.
  exists rf, rf'; split_and!; try done. by apply set_node_Some in HE as (? & _).
Qed.

Lemma crash_exec V s s' i now :
  inv n V s -> exec s (ECrash i now) = Some s' ->
  exists rf', upd (nodes s) i rf' = Some (nodes s') /\ lastApplied rf' = 0 /\ 0 <= i < Z.of_nat n.
Proof.
  intros [HN _] HE; simpl in HE; inv_opt. rename x into rf, H into Hi, x0 into rf', H0 into Hr.
  destruct (ni_node _ _ _ HN _ _ Hi) as (_ & _ & Hd).
  destruct (restart_durable now rf Hd) as (rf2 & Hr2 & _ & _ & _ & _ & _ & _ & Hla). rewrite Hr in Hr2; injection Hr2 as <-.
  match goal with Hs : set_node _ _ _ = _ |- _ => apply set_node_Some in Hs as (Hu & _) end.
  exists rf'; split_and!; try done; apply idx_Some_range in Hi; rewrite (ni_len _ _ _ HN) in Hi; lia.
Qed.

Lemma tinv_event V H LL A PP ts ts' ev :
  inv n V (t_cluster ts) -> winv n V H LL A PP (t_cluster ts) -> untrimmed (t_cluster ts) -> tinv H A ts ->
  timely (t_cluster ts) ev = true -> snapless ev = true -> texec ts (TEvent ev) = Some ts' ->
  exists V' H' LL' A' PP', inv n V' (t_cluster ts') /\ winv n V' H' LL' A' PP' (t_cluster ts') /\ untrimmed (t_cluster ts') /\ tinv H' A' ts'.
Proof.
  intros Hinv HI HU HT Ht Hsn HR. simpl in HR. destruct (exec (t_cluster ts) ev) as [s'|] eqn:HE; [|done]. cbn [mbind option_bind] in HR.
  pose proof (exec_inv n V _ _ ev Hinv Ht HE) as Hn.
  pose proof (exec_log n V H LL A PP _ _ ev Hinv HI Hn (snapless_served _ _ Hsn) HE) as Hlog.
  destruct (log_next_inv n _ V H LL A PP _ _ HI Hn Hlog) as (V' & Hinv' & H' & LL' & A' & PP' & HH & _ & HA & HI').
  assert (Hcl : t_cluster ts' = s') by (destruct ev; inv_opt; done).
  exists V', H', LL', A', PP'. rewrite Hcl. split_and!; try done; [by apply (exec_untrimmed n V H LL A PP (t_cluster ts) s' ev)|].
  assert (HT' : forall P, tinv H A P -> tinv H' A' P).
  { intros P [P1 P2 P3 P4]; split; try done.
    - intros i l k v Hl Hk; eapply settled_mono; eauto.
    - intros c i pq Hc; destruct (P3 c i pq Hc) as (? & a & ?). split; [done|]. exists a. by eapply chan_mono.
    - intros i c rf Hc Hrf; destruct (P4 i c rf Hc Hrf) as (pq & a & ? & ? & ?). exists pq, a; split_and!; try done. by eapply chan_mono. }
  destruct (applies ev) eqn:Eap.
  - apply HT'. destruct ev; try done; inv_opt.
    + match goal with Hk : kickMsgs _ _ = Some ?ms, Hc : idx _ _ = Some ?c |- _ =>
        destruct (kick_exec _ _ _ _ HE Hk) as (rf & rf' & Hi & HK & Hu); by eapply (tinv_kick V H LL A PP ts _ s' i rf rf' ms c) end.
    + destruct (crash_exec V _ _ _ _ Hinv HE) as (rf' & Hu & Hla & Hi). by eapply (tinv_crash H A ts).
  - assert (ts' = mkTester s' (t_chans ts) (t_cur ts) (t_obs ts)) as -> by (destruct ev; inv_opt; done).
    eapply (tinv_quiet H H' A A' ts s'); try done. intros i rf' Hi. destruct (exec_nodes_back n V _ _ i rf' Hn Hi) as [rf Hrf].
    exists rf; split; [done|]. by pose proof (exec_marks n V H LL A PP (t_cluster ts) s' ev i rf rf' Hinv HI HU Hsn Eap HE Hrf Hi) as [= -> _ _].
Qed.

Lemma tinit_tinv ts : tinit n = Some ts -> init n = Some (t_cluster ts) /\ tinv ∅ (fun _ _ _ => False) ts.
Proof.
  unfold tinit; intros HR; inv_opt. rename x into s, H into Hi; simpl. split; [done|].
  assert (Hlogs : forall i l, idx (replicate n (∅ : gmap Z (option Cmd))) i = Some l -> l = ∅).
  { intros i l; unfold idx; case_if; [|done]. by intros [-> _]%lookup_replicate. }
  assert (Hchan : forall c i pq, ((fun i => (i, [])) <$> seqZ 0 (Z.of_nat n) : list (Z * list (ApplyMsg Cmd))) !! c = Some (i, pq) ->
            i = Z.of_nat c /\ pq = [] /\ 0 <= i < Z.of_nat n).
  { intros c i pq (j & Hij & Hj)%list_lookup_fmap_Some. injection Hij as -> ->. apply lookup_seqZ in Hj as [-> ?]. split_and!; lia || done. }
  assert (Hnil : forall i, chan_ok ∅ (fun _ _ _ => False) (mkObserver (replicate n ∅) (replicate n 0) 0) i [] 1)
    by (intros i; split_and!; [done|by left|lia|set_solver]).
  split; simpl.
  - unfold len; by rewrite length_replicate.
  - intros i l k v ->%Hlogs Hk. by rewrite lookup_empty in Hk.
  - intros c i pq (-> & -> & ?)%Hchan. split; [done|]. exists 1; auto.
  - intros i c rf Hc Hrf. assert (Hci : Z.of_nat c = i /\ 0 <= i < Z.of_nat n).
    { unfold idx in Hc; case_if_in Hc; [|done]. apply lookup_seq in Hc as [-> ?]. lia. }
    exists [], 1; split_and!; [|auto|].
    + rewrite list_lookup_fmap, (proj2 (lookup_seqZ _ _ _ (0 + Z.of_nat c))) by lia. simpl. f_equal; f_equal; lia.
    + unfold boot in *. pose proof (init_nodes n s i rf Hi Hrf) as Hb. unfold boot, Make in Hb; simpl in Hb; by inv_opt.
Qed.

Lemma trun_tinv V H LL A PP ts evs ts' :
  inv n V (t_cluster ts) -> winv n V H LL A PP (t_cluster ts) -> untrimmed (t_cluster ts) -> tinv H A ts ->
  forallb tsnapless evs = true -> trun ts evs = Some ts' ->
  exists V' H' LL' A' w, log_inv n V' H' LL' A' w /\ tinv H' A' ts'.
Proof.
  revert V H LL A PP ts; induction evs as [|ev evs IH]; simpl; intros V H LL A PP ts Hinv HI HU HT Hsn HR; inv_opt.
  { exists V, H, LL, A, (wholes PP (t_cluster ts')); split; [apply HI|done]. }
  apply andb_true_iff in Hsn as [Hsn Hsns]. destruct (ttimely ts ev) eqn:Et; [|done]. inv_opt. destruct ev as [ev|c].
  - destruct (tinv_event V H LL A PP ts x ev Hinv HI HU HT Et Hsn H0) as (V' & H' & LL' & A' & PP' & ? & ? & ? & ?). by eapply (IH V' H' LL' A' PP').
  - destruct (tinv_apply V H LL A _ ts _ c (wi_log _ _ _ _ _ _ _ HI) HT H0) as [? Hcl]. eapply (IH V H LL A PP); rewrite ?Hcl; done.
Qed.

Lemma nCommitted_agree V H LL A s o k :
  log_inv n V H LL A s -> len (o_logs o) = Z.of_nat n ->
  (forall i l k v, idx (o_logs o) i = Some l -> l !! k = Some v -> settled n H A k v) ->
  exists r, nCommitted k (replicate n None) o = Some r.
Proof.
  intros HI Hlen Hlogs. unfold nCommitted.
  assert (Hl : len (replicate n (None : option (applyError Cmd))) = Z.of_nat n) by (unfold len; by rewrite length_replicate).
  rewrite Hl.
  assert (Hloop : forall ids st, (forall i, i ∈ ids -> 0 <= i < Z.of_nat n) -> (0 < st.1 -> settled n H A k st.2) ->
    exists r, loopM (commitStep k (replicate n None) o) ids st = Some r).
  { induction ids as [|i ids IH]; intros [count cmd] Hids Hst; cbn [loopM]; [eauto|].
    assert (Hi : 0 <= i < Z.of_nat n) by (apply Hids; by left).
    assert (Hrep : idx (replicate n (None : option (applyError Cmd))) i = Some None).
    { unfold idx; case_if; [|lia]. apply lookup_replicate; split; [done|lia]. }
    destruct (idx_in_range (o_logs o) i) as [l Hli]; [lia|]. 
    assert (Hids' : forall j, j ∈ ids -> 0 <= j < Z.of_nat n) by (intros j Hj; apply Hids; by right).
    assert (Hstep : commitStep k (replicate n None) o i (count, cmd)
              = Some (match l !! k with Some v => (count + 1, v) | None => (count, cmd) end)).
    { unfold commitStep; rewrite Hrep; cbn [mbind option_bind]. rewrite Hli; cbn [mbind option_bind].
      destruct (l !! k) as [v|] eqn:Ev; [|done]. destruct (count >? 0) eqn:Ec; [zbool|done].
      rewrite bool_decide_eq_true_2; [done|]. apply (settled_fun n V H LL A s k _ _ HI); [by apply Hst|by eapply Hlogs]. }
    rewrite Hstep; cbn [mbind option_bind]. apply IH; [done|]. destruct (l !! k) eqn:Ev; [|done]. intros _; by eapply Hlogs. }
  apply Hloop; [|simpl; lia]. intros i Hi%elem_of_seqZ; lia.
Qed.

End harness.

(** ** checkOneLeader on a running cluster *)

Section oneleader.
Context {Cmd : Type} `{!GobType Cmd}.
Implicit Types (s : cluster Cmd) (evs : list (event Cmd)).

Lemma run_timely_app s evs evs' : run_timely s (evs ++ evs') = (s' ← run_timely s evs; run_timely s' evs').
Proof.
  revert s; induction evs as [|ev evs IH]; simpl; intros s; [done|]. destruct (timely s ev); [|done].
  destruct (exec s ev) as [s1|]; simpl; [apply IH|done].
Qed.

(** What [GetState] of peer [i] returns after [times i] events. *)
Definition readState s0 evs (times : Z -> nat) (i : Z) : Z * bool :=
  match (s ← run_timely s0 (take (times i) evs); idx (nodes s) i) with
  | Some rf => GetState rf
  | None => (-1, false)
  end.

Lemma readState_leader s0 evs times i t :
  readState s0 evs times i = (t, true) ->
  exists s rf, run_timely s0 (take (times i) evs) = Some s /\ idx (nodes s) i = Some rf /\ state rf = Leader /\ currentTerm rf = t.
Proof.
  unfold readState; destruct (_ ← _; _) as [rf|] eqn:E; [|done]. inv_opt. unfold GetState; case_if; [done|].
  intros [= <- HL%bool_decide_eq_true]. eauto 10.
Qed.

Lemma readState_once n s0 evs times i j t :
  init n = Some s0 -> readState s0 evs times i = (t, true) -> readState s0 evs times j = (t, true) ->
  (times i <= times j)%nat -> i = j.
Proof.
  intros Hinit (s1 & rfi & Hr1 & Hi & Li & Ti)%readState_leader (s2 & rfj & Hr2 & Hj & Lj & Tj)%readState_leader Hle.
  destruct (run_timely_inv n _ s0 _ s1 (init_inv n s0 Hinit) Hr1) as (V & _ & HI).
  assert (Hsplit : take (times j) evs = take (times i) evs ++ drop (times i) (take (times j) evs)).
  { rewrite <- (take_drop (times i) (take (times j) evs)) at 1. by rewrite take_take, Nat.min_l by lia. }
  rewrite Hsplit, run_timely_app, Hr1 in Hr2; simpl in Hr2. eapply (leader_once n V s1 _ s2); try done. congruence.
Qed.

(** C37: [checkOneLeader] never reports two leaders. In every execution of
    the cluster in which vote requests are built in the term of their round,
    a round of [checkOneLeader], which asks the connected peers one after the
    other while the cluster goes on, finds at most one leader per term; if any
    connected peer claimed to be leader it returns the one of the latest
    term claimed, otherwise it says that there is none. *)
Theorem checkOneLeader_sound n s0 evs connected times
    (Hinit : init n = Some s0) (Hlen : len connected = Z.of_nat n) :
  let states := readState s0 evs times in
  (oneLeaderRound n connected states = Some NoLeader
   /\ forall i t, 0 <= i < Z.of_nat n -> idx connected i = Some true -> states i <> (t, true))
  \/ exists i t, oneLeaderRound n connected states = Some (OneLeader i) /\ 0 <= i < Z.of_nat n
       /\ idx connected i = Some true /\ states i = (t, true)
       /\ forall j u, 0 <= j < Z.of_nat n -> idx connected j = Some true -> states j = (u, true) -> u <= t.
Proof.
  intros states; apply oneLeaderRound_spec; [done| |].
  - intros i j t _ _ _ _ Hi Hj. destruct (Nat.le_ge_cases (times i) (times j)).
    + by eapply readState_once.
    + symmetry; by eapply readState_once.
  - intros i t _ (s & rf & Hr & Hi & _ & <-)%readState_leader.
    destruct (run_timely_inv n _ s0 _ s (init_inv n s0 Hinit) Hr) as (V & _ & [HN _]). by eapply ni_pos.
Qed.
End oneleader.

(** ** Concrete executions *)

(** The execution of [RaftStateSafety]: both peers deliver the command, and the
    appliers record it. *)
Definition ex_trace : list (tevent (Cmd := Z)) :=
  (TEvent <$> (ex_replicate ++ ex_learn)) ++ [TEvent (EKick 0); TEvent (EKick 1); TApply 0].

Lemma ex_trace_pending :
  (ts ← tinit 3; ts ← trun ts ex_trace; t_chans ts !! 1%nat) = Some (1, [commandMsg (Some 7) 1]).
Proof. vm_compute; reflexivity. Qed.


Lemma checkOneLeader_sound_witness :
  exists i t, oneLeaderRound 3 [true; true; true] (readState ex_start3 (ex_election ++ ex_next_leader) (fun i => Z.to_nat (4 + i)))
    = Some (OneLeader i) /\ t = 1 /\ i = 0.
Proof.
  destruct (checkOneLeader_sound 3 ex_start3 (ex_election ++ ex_next_leader) [true; true; true] (fun i => Z.to_nat (4 + i)))
    as [[HR _]|(i & t & HR & _ & _ & Hs & _)]; [vm_compute; reflexivity|vm_compute; reflexivity|vm_compute in HR; discriminate HR|].
  exists i, t; split; [exact HR|]. vm_compute in HR. injection HR as <-. vm_compute in Hs. injection Hs as <-. split; reflexivity.
Defined.
