(* ===== verification/ShardClerk.v ===== *)
(** * shardctrler and shardkv: the clerks

    Models [shardctrler/common.go], [shardctrler/client.go],
    [shardkv/common.go] and [shardkv/client.go]. The handlers of the two servers
    are empty in this repository, the clients are not: a clerk asks the
    controller for a configuration, finds the group that owns the shard of a key
    and tries the group's servers.

    The outcomes of the RPCs come from the network: the loops take the sequence
    of outcomes, [None] for a call that returned false, and also give the
    requests they sent. A loop that has used up the outcomes is still running.
    A server is its name; [make_end] turns names into ends. *)

From S2P Require Import Prelude.

#[local] Open Scope string_scope.
#[local] Open Scope list_scope.
#[local] Open Scope Z_scope.

(** ** The shard controller's clerk *)

Module ShardCtrler.

Definition NShards : Z := 10.
Definition OK : string := "OK".

Record Config : Type := mkConfig { Num : Z; Shards : list Z; Groups : gmap Z (list string) }.

(** The zero value; a nil map reads as an empty one. *)
Definition zeroConfig : Config := mkConfig 0 (replicate (Z.to_nat NShards) 0) ∅.

Record JoinArgs : Type := mkJoinArgs { Servers : gmap Z (list string) }.
Record LeaveArgs : Type := mkLeaveArgs { GIDs : list Z }.
Record MoveArgs : Type := mkMoveArgs { Shard : Z; GID : Z }.
Record QueryArgs : Type := mkQueryArgs { q_Num : Z }.
(** [JoinReply], [LeaveReply] and [MoveReply]. *)
Record ChangeReply : Type := mkChangeReply { c_WrongLeader : bool; c_Err : string }.
Record QueryReply : Type := mkQueryReply { q_WrongLeader : bool; q_Err : string; q_Config : Config }.

Record Clerk : Type := mkClerk { servers : list string }.
Definition MakeClerk (servers : list string) : Clerk := mkClerk servers.

(** The loop all four methods share: [cur] are the servers left in this round.
    The servers asked, and the reply that ends the loop with the outcomes that
    are left. *)
Fixpoint ask {R : Type} (WrongLeader : R -> bool) (all cur : list string) (outcomes : list (option R))
    : list string * option (R * list (option R)) :=
  match outcomes with
  | [] => ([], None)
  | o :: outcomes =>
      match (match cur with [] => all | _ => cur end) with
      | [] => ([], None)                    (* no servers: only sleeping *)
      | srv :: cur =>
          let again := let '(asked, r) := ask WrongLeader all cur outcomes in (srv :: asked, r) in
          match o with
          | Some reply => if negb (WrongLeader reply) then ([srv], Some (reply, outcomes)) else again
          | None => again
          end
      end
  end.

Definition Query (num : Z) (outcomes : list (option QueryReply)) (ck : Clerk)
    : list (string * QueryArgs) * option (Config * list (option QueryReply)) :=
  let '(asked, r) := ask q_WrongLeader (servers ck) (servers ck) outcomes in
  ((fun srv => (srv, mkQueryArgs num)) <$> asked, (fun p => (q_Config p.1, p.2)) <$> r).

Definition change {A : Type} (args : A) (outcomes : list (option ChangeReply)) (ck : Clerk)
    : list (string * A) * bool :=
  let '(asked, r) := ask c_WrongLeader (servers ck) (servers ck) outcomes in
  ((fun srv => (srv, args)) <$> asked, match r with Some _ => true | None => false end).

Definition Join (srvs : gmap Z (list string)) := change (mkJoinArgs srvs).
Definition Leave (gids : list Z) := change (mkLeaveArgs gids).
Definition Move (shard gid : Z) := change (mkMoveArgs shard gid).

(** The servers in the order they are asked, round after round. *)
Fixpoint rounds (all : list string) (n : nat) : list string :=
  match n with O => [] | S n => all ++ rounds all n end.

Definition refusal {R : Type} (WrongLeader : R -> bool) (o : option R) : Prop :=
  match o with Some r => WrongLeader r = true | None => True end.

Lemma ask_refused {R : Type} (WrongLeader : R -> bool) all cur n fails reply rest :
  all <> [] -> Forall (refusal WrongLeader) fails -> WrongLeader reply = false ->
  (length fails < length (cur ++ rounds all n))%nat ->
  ask WrongLeader all cur (fails ++ Some reply :: rest)
  = (take (S (length fails)) (cur ++ rounds all n), Some (reply, rest)).
Proof.
  intros Hall Hf Hr; revert cur n; induction fails as [|o fails IH]; intros cur n Hlen.
  - cbn [app ask length]; rewrite Hr; cbn [negb].
    destruct cur as [|srv cur]; [|done]. destruct n as [|n]; [simpl in Hlen; lia|].
    destruct all as [|srv all]; done.
  - apply Forall_cons in Hf as [Ho Hf]. specialize (IH Hf). cbn [app ask length].
    assert (Hstep : forall srv cur n, (S (length fails) < length (srv :: cur ++ rounds all n))%nat ->
      (let again := let '(asked, r) := ask WrongLeader all cur (fails ++ Some reply :: rest) in (srv :: asked, r) in
       match o with
       | Some x => if negb (WrongLeader x) then ([srv], Some (x, fails ++ Some reply :: rest)) else again
       | None => again
       end) = (take (S (S (length fails))) (srv :: cur ++ rounds all n), Some (reply, rest))).
    { intros srv cur' n' Hl; simpl in Hl. rewrite (IH cur' n') by lia; cbv zeta beta iota.
      destruct o as [x|]; [|done]. simpl in Ho; by rewrite Ho. }
    destruct cur as [|srv cur]; [|by apply Hstep]. destruct n as [|n]; [simpl in Hlen; lia|].
    destruct all as [|srv all'] eqn:Eall; [done|]. by apply (Hstep srv all' n).
Qed.
End ShardCtrler.

(** ** The sharded store's clerk *)

Module ShardKV.
Import ShardCtrler (Config, Shards, Groups, NShards, zeroConfig, QueryReply, Query, QueryArgs).

Definition OK : string := "OK".
Definition ErrNoKey : string := "ErrNoKey".
Definition ErrWrongGroup : string := "ErrWrongGroup".
Definition ErrWrongLeader : string := "ErrWrongLeader".

Record PutAppendArgs : Type := mkPutAppendArgs { p_Key : string; p_Value : string; p_Op : string }.
Record PutAppendReply : Type := mkPutAppendReply { p_Err : string }.
Record GetArgs : Type := mkGetArgs { g_Key : string }.
Record GetReply : Type := mkGetReply { g_Err : string; g_Value : string }.

Definition key2shard (key : string) : Z :=
  let shard := match key with EmptyString => 0 | String c _ => Z.of_nat (Ascii.nat_of_ascii c) end in
  Z.rem shard NShards.

Record Clerk : Type := mkClerk { sm : ShardCtrler.Clerk; config : Config }.
Definition MakeClerk (ctrlers : list string) : Clerk := mkClerk (ShardCtrler.MakeClerk ctrlers) zeroConfig.

(** How the loop over the servers of a group ends. *)
Inductive groupEnd {R : Type} : Type :=
| Answered (r : R) (rest : list (option R))     (* return *)
| GiveUp (rest : list (option R))               (* break, or no server left *)
| Running.                                      (* waiting for an outcome *)
Arguments groupEnd : clear implicits.

Fixpoint tryGroup {R : Type} (accept wrongGroup : R -> bool) (servers : list string) (outcomes : list (option R))
    : list string * groupEnd R :=
  match servers with
  | [] => ([], GiveUp outcomes)
  | srv :: servers =>
      match outcomes with
      | [] => ([], Running)
      | o :: outcomes =>
          let next := let '(asked, r) := tryGroup accept wrongGroup servers outcomes in (srv :: asked, r) in
          match o with
          | Some reply =>
              if accept reply then ([srv], Answered reply outcomes)
              else if wrongGroup reply then ([srv], GiveUp outcomes)
              else next
          | None => next
          end
      end
  end.

(** The loop of [Get] and [PutAppend]. The clerk, the servers asked, each with
    the configuration of that moment, and the reply that ends the loop. [None]
    as a result: still running; the whole is [None] when [Shards] is indexed out
    of range. [fuel] bounds the configurations fetched. *)
Fixpoint shardLoop {R : Type} (accept wrongGroup : R -> bool) (key : string) (fuel : nat)
    (outcomes : list (option R)) (queries : list (option QueryReply)) (ck : Clerk)
    : option (Clerk * list (string * Config) * option R) :=
  gid ← idx (Shards (config ck)) (key2shard key);
  let '(asked, fin) :=
    match Groups (config ck) !! gid with
    | Some servers => tryGroup accept wrongGroup servers outcomes
    | None => ([], GiveUp outcomes)
    end in
  let asked := (fun srv => (srv, config ck)) <$> asked in
  match fin with
  | Answered r _ => Some (ck, asked, Some r)
  | Running => Some (ck, asked, None)
  | GiveUp outcomes =>
      match fuel, (Query (-1) queries (sm ck)).2 with
      | S fuel, Some (c, queries) =>
          match shardLoop accept wrongGroup key fuel outcomes queries (mkClerk (sm ck) c) with
          | Some (ck, more, r) => Some (ck, asked ++ more, r)
          | None => None
          end
      | _, _ => Some (ck, asked, None)
      end
  end.

Definition getAccept (r : GetReply) : bool := String.eqb (g_Err r) OK || String.eqb (g_Err r) ErrNoKey.
Definition getWrong (r : GetReply) : bool := String.eqb (g_Err r) ErrWrongGroup.
Definition putAccept (r : PutAppendReply) : bool := String.eqb (p_Err r) OK.
Definition putWrong (r : PutAppendReply) : bool := String.eqb (p_Err r) ErrWrongGroup.

Definition Get (key : string) (fuel : nat) (outcomes : list (option GetReply)) (queries : list (option QueryReply))
    (ck : Clerk) : option (Clerk * list (string * Config * GetArgs) * option string) :=
  match shardLoop getAccept getWrong key fuel outcomes queries ck with
  | Some (ck, asked, r) => Some (ck, (fun p => (p, mkGetArgs key)) <$> asked, g_Value <$> r)
  | None => None
  end.

Definition PutAppend (key value op : string) (fuel : nat) (outcomes : list (option PutAppendReply))
    (queries : list (option QueryReply)) (ck : Clerk)
    : option (Clerk * list (string * Config * PutAppendArgs) * bool) :=
  match shardLoop putAccept putWrong key fuel outcomes queries ck with
  | Some (ck, asked, r) =>
      Some (ck, (fun p => (p, mkPutAppendArgs key value op)) <$> asked, match r with Some _ => true | None => false end)
  | None => None
  end.

Definition Put (key value : string) := PutAppend key value "Put".
Definition Append (key value : string) := PutAppend key value "Append".

(** ** Routing *)

Lemma key2shard_range key : 0 <= key2shard key < NShards.
Proof. unfold key2shard, NShards; destruct key as [|c key]; [done|]. apply Z.rem_bound_pos; lia. Qed.

Definition configWf (c : Config) : Prop := len (Shards c) = NShards.

(** [srv] serves the shard of [key] according to [c]. *)
Definition serves (c : Config) (key : string) (srv : string) : Prop :=
  exists gid servers, idx (Shards c) (key2shard key) = Some gid /\ Groups c !! gid = Some servers /\ srv ∈ servers.

Lemma tryGroup_asked {R : Type} (accept wrongGroup : R -> bool) servers outcomes asked r :
  tryGroup accept wrongGroup servers outcomes = (asked, r) ->
  asked `prefix_of` servers
  /\ match r with
     | Answered rep rest => accept rep = true /\ exists pre, outcomes = pre ++ Some rep :: rest
     | GiveUp rest => exists pre, outcomes = pre ++ rest
     | Running => True
     end.
Proof.
  revert outcomes asked r; induction servers as [|srv servers IH]; intros [|o outcomes] asked r Ht; cbn [tryGroup] in Ht;
    simplify_eq; try (split; [done|by exists []]); [split; [apply prefix_nil|done]|].
  destruct (tryGroup accept wrongGroup servers outcomes) as [asked' r'] eqn:E.
  destruct (IH _ _ _ E) as [Hp Hr].
  assert (Hnext : (srv :: asked') `prefix_of` (srv :: servers)
    /\ match r' with
       | Answered rep rest => accept rep = true /\ exists pre, o :: outcomes = pre ++ Some rep :: rest
       | GiveUp rest => exists pre, o :: outcomes = pre ++ rest
       | Running => True
       end).
  { split; [by apply prefix_cons|]. destruct r'; [destruct Hr as [Ha [pre ->]]; split; [done|]|destruct Hr as [pre ->]|done]; by exists (o :: pre). }
  destruct o as [rep|]; [|by simplify_eq]. destruct (accept rep) eqn:Ea.
  { simplify_eq; split; [apply prefix_cons, prefix_nil|]. split; [done|by exists []]. }
  destruct (wrongGroup rep); simplify_eq; [|done]. split; [apply prefix_cons, prefix_nil|]. by exists [Some rep].
Qed.

(** Every configuration the controller sends has a group id per shard. *)
Definition queriesWf (queries : list (option QueryReply)) : Prop :=
  forall q, Some q ∈ queries -> configWf (ShardCtrler.q_Config q).

Lemma ask_result {R : Type} (WrongLeader : R -> bool) all cur (outcomes : list (option R)) asked rep rest :
  ShardCtrler.ask WrongLeader all cur outcomes = (asked, Some (rep, rest)) ->
  Some rep ∈ outcomes /\ forall o, o ∈ rest -> o ∈ outcomes.
Proof.
  revert cur asked; induction outcomes as [|o outcomes IH]; intros cur asked Ha; cbn [ShardCtrler.ask] in Ha; [done|].
  destruct (match cur with [] => all | _ => cur end) as [|srv cur']; [done|].
  destruct (ShardCtrler.ask WrongLeader all cur' outcomes) as [asked' r'] eqn:E.
  assert (Hag : r' = Some (rep, rest) -> Some rep ∈ o :: outcomes /\ forall o', o' ∈ rest -> o' ∈ o :: outcomes).
  { intros ->; destruct (IH _ _ E) as [H1 H2]; split; [by right|]. intros o' Ho; right; auto. }
  destruct o as [x|]; [destruct (negb (WrongLeader x))|]; simplify_eq; auto.
  split; [left|]. intros o' Ho; by right.
Qed.

Lemma Query_result num queries ck sent c rest :
  queriesWf queries -> Query num queries ck = (sent, Some (c, rest)) -> configWf c /\ queriesWf rest.
Proof.
  unfold Query; intros Hwf Hq. destruct (ShardCtrler.ask _ _ _ _) as [asked [[rep rest']|]] eqn:E; simpl in Hq; simplify_eq.
  apply ask_result in E as [Hin Hrest]. split; [by apply Hwf|]. intros q Hin'; by apply Hwf, Hrest.
Qed.

Lemma shardLoop_routes {R : Type} (accept wrongGroup : R -> bool) key fuel outcomes queries ck :
  configWf (config ck) -> queriesWf queries ->
  exists ck' asked r, shardLoop accept wrongGroup key fuel outcomes queries ck = Some (ck', asked, r)
    /\ sm ck' = sm ck
    /\ (forall srv c, (srv, c) ∈ asked -> serves c key srv)
    /\ (forall rep, r = Some rep -> accept rep = true /\ Some rep ∈ outcomes).
Proof.
  revert outcomes queries ck; induction fuel as [|fuel IH]; intros outcomes queries ck Hc Hq; cbn [shardLoop].
  all: destruct (idx_in_range (Shards (config ck)) (key2shard key)) as [gid Hgid];
    [rewrite Hc; apply key2shard_range|]; rewrite Hgid; cbn [mbind option_bind].
  all: set (grp := match Groups (config ck) !! gid with Some servers => _ | None => _ end).
  all: destruct grp as [asked fin] eqn:Eg; unfold grp in Eg; clear grp.
  all: assert (Hasked : forall srv c, (srv, c) ∈ (fun srv => (srv, config ck)) <$> asked -> serves c key srv)
    by (intros srv c (srv' & [= -> ->] & Hin)%list_elem_of_fmap;
        destruct (Groups (config ck) !! gid) as [servers|] eqn:Es; [|injection Eg as <- _; by apply elem_of_nil in Hin];
        apply tryGroup_asked in Eg as [[k Hp] _]; exists gid, servers; split_and!; try done;
        rewrite Hp, elem_of_app; by left).
  all: assert (Hfin : match fin with
     | Answered rep rest => accept rep = true /\ exists pre, outcomes = pre ++ Some rep :: rest
     | GiveUp rest => exists pre, outcomes = pre ++ rest
     | Running => True
     end) by (destruct (Groups (config ck) !! gid); [by apply tryGroup_asked in Eg as [_ ?]|injection Eg as <- <-; by exists []]).
  all: destruct fin as [rep rest|rest|].
  all: try (eexists _, _, _; split_and!; [done|done|done|]; intros rep' [= <-]; destruct Hfin as [Ha [pre ->]];
            split; [done|]; rewrite elem_of_app; right; left).
  all: try (by eexists _, _, _; split_and!).
  destruct (Query (-1) queries (sm ck)) as [sent [[c qs]|]] eqn:Eq; cbn [snd]; [|by eexists _, _, _; split_and!].
  destruct (Query_result _ _ _ _ _ _ Hq Eq) as [Hcw Hqw].
  destruct (IH rest qs (mkClerk (sm ck) c) Hcw Hqw) as (ck' & more & r & -> & Hsm & Hmore & Hr).
  eexists _, _, _; split_and!; [done|done| |].
  - intros srv c' [Hin|Hin]%elem_of_app; auto.
  - intros rep Hrep; destruct (Hr rep Hrep) as [Ha Hin]; split; [done|]. destruct Hfin as [pre ->]. rewrite elem_of_app; by right.
Qed.
End ShardKV.

(** The controller's clerk asks its servers round robin: after any number
    of lost calls and answers of wrong leaders, [Query] has asked one server per
    attempt, in the order of the list, again from the start after the last one,
    every time with the same arguments, and it returns the configuration of the
    first reply that is not from a wrong leader. *)
Theorem Query_round_robin (ck : ShardCtrler.Clerk) (num : Z) (n : nat)
    (fails rest : list (option ShardCtrler.QueryReply)) (reply : ShardCtrler.QueryReply) :
  ShardCtrler.servers ck <> [] -> Forall (ShardCtrler.refusal ShardCtrler.q_WrongLeader) fails ->
  ShardCtrler.q_WrongLeader reply = false ->
  (length fails < length (ShardCtrler.rounds (ShardCtrler.servers ck) n))%nat ->
  ShardCtrler.Query num (fails ++ Some reply :: rest) ck
  = ((fun srv => (srv, ShardCtrler.mkQueryArgs num)) <$> take (S (length fails)) (ShardCtrler.rounds (ShardCtrler.servers ck) n),
     Some (ShardCtrler.q_Config reply, rest)).
Proof.
  intros Hs Hf Hr Hl; destruct n as [|n]; [simpl in Hl; lia|]. unfold ShardCtrler.Query.
  by rewrite (ShardCtrler.ask_refused _ _ _ n fails reply rest).
Qed.

Lemma Query_round_robin_witness :
  ShardCtrler.Query 3
    ([None; Some (ShardCtrler.mkQueryReply true "" ShardCtrler.zeroConfig); None]
       ++ [Some (ShardCtrler.mkQueryReply false "OK" (ShardCtrler.mkConfig 3 [1] ∅)); None])
    (ShardCtrler.mkClerk ["a"; "b"])
  = ((fun srv => (srv, ShardCtrler.mkQueryArgs 3)) <$> ["a"; "b"; "a"; "b"], Some (ShardCtrler.mkConfig 3 [1] ∅, [None])).
Proof.
  exact (Query_round_robin (ShardCtrler.mkClerk ["a"; "b"]) 3 2
    [None; Some (ShardCtrler.mkQueryReply true "" ShardCtrler.zeroConfig); None] [None]
    (ShardCtrler.mkQueryReply false "OK" (ShardCtrler.mkConfig 3 [1] ∅))
    ltac:(discriminate) ltac:(repeat constructor) eq_refl ltac:(vm_compute; lia)).
Defined.

(** C35: The sharded store's clerk asks only owners: whatever the network and
    the controller answer, as long as configurations have a group per shard,
    [Get] never indexes [Shards] out of range, every request it sends carries
    the key and goes to a server of the group that the clerk's configuration of
    that moment assigns to the key's shard, and a value it returns is that of an
    accepting reply it received. *)
Theorem Get_asks_owner (key : string) (fuel : nat) (outcomes : list (option ShardKV.GetReply))
    (queries : list (option ShardCtrler.QueryReply)) (ck : ShardKV.Clerk) :
  ShardKV.configWf (ShardKV.config ck) -> ShardKV.queriesWf queries ->
  exists ck' sent r, ShardKV.Get key fuel outcomes queries ck = Some (ck', sent, r)
    /\ (forall srv c args, (srv, c, args) ∈ sent -> args = ShardKV.mkGetArgs key /\ ShardKV.serves c key srv)
    /\ (forall v, r = Some v -> exists err, err ∈ [ShardKV.OK; ShardKV.ErrNoKey] /\ Some (ShardKV.mkGetReply err v) ∈ outcomes).
Proof.
  intros Hc Hq; destruct (ShardKV.shardLoop_routes ShardKV.getAccept ShardKV.getWrong key fuel outcomes queries ck Hc Hq)
    as (ck' & asked & r & Hl & _ & Hasked & Hr).
  unfold ShardKV.Get; rewrite Hl; eexists _, _, _; split_and!; [done| |].
  - intros srv c a ([srv' c'] & [= -> -> ->] & Hin)%list_elem_of_fmap; auto.
  - intros v Hv; destruct r as [[err v']|]; simpl in Hv; [|done]; simplify_eq.
    destruct (Hr _ eq_refl) as [Ha Hin]. exists err; split; [|done].
    unfold ShardKV.getAccept in Ha; simpl in Ha. apply orb_true_iff in Ha as [Ha | Ha]; apply String.eqb_eq in Ha as ->; set_solver.
Qed.

Definition oneGroup : ShardCtrler.Config := ShardCtrler.mkConfig 1 (replicate 10 7) {[7 := ["s0"; "s1"]]}.

Lemma Get_asks_owner_witness :
  exists ck' sent r,
    ShardKV.Get "k" 5 [None; Some (ShardKV.mkGetReply "OK" "v")]
      [Some (ShardCtrler.mkQueryReply false "OK" oneGroup)] (ShardKV.MakeClerk ["c"]) = Some (ck', sent, r)
    /\ (forall srv c args, (srv, c, args) ∈ sent -> args = ShardKV.mkGetArgs "k" /\ ShardKV.serves c "k" srv)
    /\ (forall v, r = Some v -> exists err, err ∈ [ShardKV.OK; ShardKV.ErrNoKey]
          /\ Some (ShardKV.mkGetReply err v) ∈ [None; Some (ShardKV.mkGetReply "OK" "v")]).
Proof.
  apply (Get_asks_owner "k" 5 [None; Some (ShardKV.mkGetReply "OK" "v")]
    [Some (ShardCtrler.mkQueryReply false "OK" oneGroup)] (ShardKV.MakeClerk ["c"])); [reflexivity|].
  intros q Hin; apply list_elem_of_singleton in Hin; injection Hin as ->; reflexivity.
Defined.
