(* ===== verification/LabGob.v ===== *)
(** * labgob: the checks of the gob wrapper

    Models [labgob/labgob.go]: [checkType], [checkValue], [checkDefault] and
    [checkDefault1], the only logic the wrapper adds to [encoding/gob], and the
    methods that run them and then call [encoding/gob] (for which see [Gob]). A [reflect.Type] is an identity of a countable type [Ty];
    what reflection says about it is given by [kindOf], so that types may be
    recursive. [isUpper] says whether a field name starts with an upper-case
    letter. The printed warnings are not recorded, their count is. *)

From S2P Require Import Prelude Gob.

#[local] Open Scope Z_scope.

Section types.
Context {Ty : Type} `{Countable Ty}.

Inductive kind : Type :=
| Struct (fields : list (string * Ty))
| Elem (t : Ty)                           (* slice, array or pointer *)
| Map (elem key : Ty)
| OtherKind.

Context (kindOf : Ty -> kind) (isUpper : string -> bool).

(** The package's variables. *)
Record gobState : Type := mkGobState { checkedTypes : gset Ty; errorCount : Z }.

Definition addError (st : gobState) : gobState := mkGobState (checkedTypes st) (errorCount st + 1).

(** The loop over the fields; [rec] is [checkType]. *)
Fixpoint fieldsLoop (rec : Ty -> gobState -> option gobState) (fields : list (string * Ty)) (st : gobState)
    : option gobState :=
  match fields with
  | [] => Some st
  | (name, t) :: fields =>
      let st := if isUpper name then st else addError st in
      st ← rec t st;
      fieldsLoop rec fields st
  end.

(** [None]: the recursion is deeper than [fuel]. *)
Fixpoint checkType (fuel : nat) (t : Ty) (st : gobState) : option gobState :=
  if decide (t ∈ checkedTypes st) then Some st
  else
    match fuel with
    | O => None
    | S fuel =>
        let st := mkGobState ({[t]} ∪ checkedTypes st) (errorCount st) in
        match kindOf t with
        | Struct fields => fieldsLoop (checkType fuel) fields st
        | Elem e => checkType fuel e st
        | Map e k => st ← checkType fuel e st; checkType fuel k st
        | OtherKind => Some st
        end
    end.

(** ** What [checkType] reports *)

Definition parts (t : Ty) : list Ty :=
  match kindOf t with Struct fields => fields.*2 | Elem e => [e] | Map e k => [e; k] | OtherKind => [] end.

(** The fields of [t] that gob would drop. *)
Definition lowerFields (t : Ty) : Z :=
  match kindOf t with Struct fields => len (filter (fun f : string * Ty => isUpper f.1 = false) fields) | _ => 0 end.

Definition lowerTotal (X : gset Ty) : Z := foldr (fun t n => lowerFields t + n) 0 (elements X).

Lemma foldr_perm (l k : list Ty) :
  l ≡ₚ k -> foldr (fun t n => lowerFields t + n) 0 l = foldr (fun t n => lowerFields t + n) 0 k.
Proof. induction 1; simpl; lia. Qed.

Lemma foldr_app (l k : list Ty) :
  foldr (fun t n => lowerFields t + n) 0 (l ++ k)
  = foldr (fun t n => lowerFields t + n) 0 l + foldr (fun t n => lowerFields t + n) 0 k.
Proof. induction l; simpl; lia. Qed.

Lemma lowerTotal_union X Y : X ## Y -> lowerTotal (X ∪ Y) = lowerTotal X + lowerTotal Y.
Proof. intros Hd; unfold lowerTotal. rewrite (foldr_perm _ _ (elements_disj_union X Y Hd)). apply foldr_app. Qed.

Lemma lowerTotal_singleton t : lowerTotal {[t]} = lowerFields t.
Proof. unfold lowerTotal; rewrite elements_singleton; simpl; lia. Qed.

(** From [st] to [st'], new types were checked, each with its parts, and the
    lower-case fields of exactly these were counted, up to [extra]. *)
Record visited (extra : Z) (U : gset Ty) (st st' : gobState) : Prop := {
  vs_incl : checkedTypes st ⊆ checkedTypes st';
  vs_bound : checkedTypes st' ⊆ checkedTypes st ∪ U;
  vs_closed : forall t u, t ∈ checkedTypes st' -> t ∉ checkedTypes st -> u ∈ parts t -> u ∈ checkedTypes st';
  vs_count : errorCount st' = errorCount st + extra + lowerTotal (checkedTypes st' ∖ checkedTypes st);
}.

Lemma visited_refl U st : visited 0 U st st.
Proof. split; [done|set_solver|done|]. rewrite difference_diag_L. unfold lowerTotal; rewrite elements_empty; simpl; lia. Qed.

Lemma visited_trans x y U st st1 st2 :
  visited x U st st1 -> visited y U st1 st2 -> visited (x + y) U st st2.
Proof.
  intros [i1 b1 c1 n1] [i2 b2 c2 n2]; split; [set_solver|set_solver| |].
  - intros t u Ht Hn Hu; destruct (decide (t ∈ checkedTypes st1)) as [H1|H1]; [|by eapply c2].
    apply i2; by eapply c1.
  - rewrite n2, n1. replace (checkedTypes st2 ∖ checkedTypes st)
      with ((checkedTypes st1 ∖ checkedTypes st) ∪ (checkedTypes st2 ∖ checkedTypes st1)).
    + rewrite lowerTotal_union by set_solver. lia.
    + apply set_eq; intros t; destruct (decide (t ∈ checkedTypes st1)); set_solver.
Qed.

Lemma visited_error U st : visited 1 U st (addError st).
Proof. destruct (visited_refl U st); split; simpl in *; try done. lia. Qed.

Lemma size_shrink (U : gset Ty) X Y : X ⊆ Y -> (size (U ∖ Y) <= size (U ∖ X))%nat.
Proof. intros; apply subseteq_size; set_solver. Qed.

(** The spec of a recursive call at depth [fuel]. *)
Definition callOk (U : gset Ty) (fuel : nat) : Prop :=
  forall t st, t ∈ U -> (size (U ∖ checkedTypes st) <= fuel)%nat ->
    exists st', checkType fuel t st = Some st' /\ visited 0 U st st' /\ t ∈ checkedTypes st'.

Lemma fieldsLoop_ok U fuel fields st :
  callOk U fuel -> (forall u, u ∈ fields.*2 -> u ∈ U) -> (size (U ∖ checkedTypes st) <= fuel)%nat ->
  exists st', fieldsLoop (checkType fuel) fields st = Some st'
    /\ visited (len (filter (fun f : string * Ty => isUpper f.1 = false) fields)) U st st'
    /\ forall u, u ∈ fields.*2 -> u ∈ checkedTypes st'.
Proof.
  intros Hcall; revert st; induction fields as [|[name t] fields IH]; intros st HU Hsz; cbn [fieldsLoop].
  { exists st; split_and!; [done|apply visited_refl|]. intros u Hu; by apply elem_of_nil in Hu. }
  set (st0 := if isUpper name then st else addError st).
  assert (Hst0 : visited (if isUpper name then 0 else 1) U st st0)
    by (unfold st0; destruct (isUpper name); [apply visited_refl|apply visited_error]).
  assert (Hsame : checkedTypes st0 = checkedTypes st) by (unfold st0; by destruct (isUpper name)).
  destruct (Hcall t st0) as (st1 & -> & Hv1 & Hin1); [apply HU; left|by rewrite Hsame|]; cbn [mbind option_bind].
  destruct (IH st1) as (st2 & -> & Hv2 & Hin2); [intros u Hu; apply HU; by right| |].
  { etrans; [|exact Hsz]. apply size_shrink; rewrite <- Hsame. apply (vs_incl _ _ _ _ Hv1). }
  exists st2; split_and!; [done| |].
  - pose proof (visited_trans _ _ _ _ _ _ Hst0 (visited_trans _ _ _ _ _ _ Hv1 Hv2)) as Hv.
    rewrite filter_cons; cbn [fst]. destruct (isUpper name) eqn:En.
    + by rewrite decide_False, !Z.add_0_l in * by congruence.
    + rewrite decide_True, len_cons by done. by rewrite Z.add_0_l in Hv.
  - intros u [->|Hu]%elem_of_cons; [|auto]. by apply (vs_incl _ _ _ _ Hv2).
Qed.

Lemma visited_enter U t st st1 st' :
  t ∈ U -> t ∉ checkedTypes st -> st1 = mkGobState ({[t]} ∪ checkedTypes st) (errorCount st) ->
  visited (lowerFields t) U st1 st' -> (forall u, u ∈ parts t -> u ∈ checkedTypes st') -> visited 0 U st st'.
Proof.
  intros HtU Ht -> [Hi Hb Hc Hn] Hp; simpl in *; split; [set_solver|set_solver| |].
  - intros x u Hx Hxn Hu; destruct (decide (x = t)) as [->|]; [by apply Hp|]. eapply Hc; [done|set_solver|done].
  - rewrite Hn. replace (checkedTypes st' ∖ checkedTypes st)
      with ({[t]} ∪ (checkedTypes st' ∖ ({[t]} ∪ checkedTypes st))).
    + rewrite lowerTotal_union, lowerTotal_singleton by set_solver. lia.
    + apply set_eq; intros x; destruct (decide (x = t)); set_solver.
Qed.

Lemma checkType_ok U fuel :
  (forall t u, t ∈ U -> u ∈ parts t -> u ∈ U) -> callOk U fuel.
Proof.
  intros HU; induction fuel as [|fuel IH]; intros t st Ht Hsz; cbn [checkType]; case_decide as Hin;
    try (exists st; split_and!; [done|apply visited_refl|done]).
  { exfalso. assert (Hpos : t ∈ U ∖ checkedTypes st) by set_solver.
    assert (size (U ∖ checkedTypes st) = 0%nat) as E by lia. apply size_empty_inv in E. set_solver. }
  set (st1 := mkGobState ({[t]} ∪ checkedTypes st) (errorCount st)).
  assert (Hsz1 : (size (U ∖ checkedTypes st1) <= fuel)%nat).
  { assert (E : U ∖ checkedTypes st = {[t]} ∪ (U ∖ checkedTypes st1)).
    { apply set_eq; intros x; unfold st1; simpl. destruct (decide (x = t)); set_solver. }
    rewrite E, size_union, size_singleton in Hsz by (unfold st1; set_solver). lia. }
  assert (Hparts : forall u, u ∈ parts t -> u ∈ U) by (intros; by eapply HU).
  unfold parts in Hparts. destruct (kindOf t) as [fields|e|e k|] eqn:Ek.
  - destruct (fieldsLoop_ok U fuel fields st1 IH Hparts Hsz1) as (st' & -> & Hv & Hin').
    exists st'; split_and!; [done| |].
    + eapply (visited_enter U t st st1); [done|done|done| |]; unfold lowerFields, parts; by rewrite Ek.
    + apply (vs_incl _ _ _ _ Hv); unfold st1; set_solver.
  - destruct (IH e st1) as (st' & -> & Hv & Hin'); [apply Hparts; left|done|].
    exists st'; split_and!; [done| |].
    + eapply (visited_enter U t st st1); [done|done|done| |]; unfold lowerFields, parts; rewrite Ek; [done|].
      by intros u ->%list_elem_of_singleton.
    + apply (vs_incl _ _ _ _ Hv); unfold st1; set_solver.
  - destruct (IH e st1) as (st2 & -> & Hv & Hin'); [apply Hparts; left|done|]; cbn [mbind option_bind].
    destruct (IH k st2) as (st' & -> & Hv' & Hin''); [apply Hparts; right; left| |].
    { etrans; [|exact Hsz1]. apply size_shrink, (vs_incl _ _ _ _ Hv). }
    pose proof (visited_trans _ _ _ _ _ _ Hv Hv') as Hv2. exists st'; split_and!; [done| |].
    + eapply (visited_enter U t st st1); [done|done|done| |]; unfold lowerFields, parts; rewrite Ek; [done|].
      intros u [-> | Hu%list_elem_of_singleton]%elem_of_cons; [by apply (vs_incl _ _ _ _ Hv')|by subst u].
    + apply (vs_incl _ _ _ _ Hv2); unfold st1; set_solver.
  - exists st1; split_and!; [done| |unfold st1; set_solver].
    eapply (visited_enter U t st st1); [done|done|done| |]; unfold lowerFields, parts; rewrite Ek; [apply visited_refl|].
    intros u Hu; by apply elem_of_nil in Hu.
Qed.
End types.

(** ** Decoding into a variable that is not zero *)

Inductive goValue : Type :=
| VStruct (fields : list (string * goValue))
| VPtr (v : option goValue)
| VBasic (isZero : bool)              (* a number, string or boolean *)
| VOther.

(** [lvl] is 4 - depth. *)
Fixpoint checkDefault1 (lvl : nat) (value : goValue) (errorCount : Z) : Z :=
  match lvl with
  | O => errorCount                   (* depth > 3 *)
  | S lvl =>
      match value with
      | VStruct fields => foldl (fun n f => checkDefault1 lvl f.2 n) errorCount fields
      | VPtr None => errorCount
      | VPtr (Some v) => checkDefault1 lvl v errorCount
      | VBasic isZero => if isZero then errorCount else errorCount + 1
      | VOther => errorCount
      end
  end.

(** [None]: a nil interface. *)
Definition checkDefault (value : option goValue) (errorCount : Z) : Z :=
  match value with None => errorCount | Some v => checkDefault1 3 v errorCount end.

(** A basic value other than the zero value, at most [n] levels down. *)
Inductive dirty : nat -> goValue -> Prop :=
| dirty_basic n : dirty (S n) (VBasic false)
| dirty_ptr n v : dirty n v -> dirty (S n) (VPtr (Some v))
| dirty_field n name v fields : (name, v) ∈ fields -> dirty n v -> dirty (S n) (VStruct fields).

Lemma checkDefault1_fields lvl :
  (forall v n, n <= checkDefault1 lvl v n /\ (checkDefault1 lvl v n <> n <-> dirty lvl v)) ->
  forall (fields : list (string * goValue)) n, n <= foldl (fun n f => checkDefault1 lvl f.2 n) n fields
    /\ (foldl (fun n f => checkDefault1 lvl f.2 n) n fields <> n <-> exists name v, (name, v) ∈ fields /\ dirty lvl v).
Proof.
  intros IH; induction fields as [|[name v] fields IHf]; intros n; simpl.
  { split; [lia|]. split; [done|]. intros (? & ? & Hin & _); by apply elem_of_nil in Hin. }
  destruct (IHf (checkDefault1 lvl v n)) as [Hle Hiff], (IH v n) as [Hle' Hiff']; split; [lia|]; split.
  - intros Hne; destruct (decide (checkDefault1 lvl v n = n)) as [E|E].
    + rewrite E in *. apply Hiff in Hne as (nm & u & Hin & Hd). exists nm, u; split; [by right|done].
    + exists name, v; split; [left|by apply Hiff'].
  - intros (nm & u & [[= -> ->]|Hin]%elem_of_cons & Hd); [apply Hiff' in Hd; lia|].
    assert (Hd' : exists nm u, (nm, u) ∈ fields /\ dirty lvl u) by eauto. apply Hiff in Hd'. lia.
Qed.

Lemma checkDefault1_dirty lvl v n :
  n <= checkDefault1 lvl v n /\ (checkDefault1 lvl v n <> n <-> dirty lvl v).
Proof.
  revert v n; induction lvl as [|lvl IH]; intros v n; cbn [checkDefault1].
  { split; [lia|]. split; [done|]. intros Hd; inversion Hd. }
  destruct v as [fields|[v|]|[]|].
  - destruct (checkDefault1_fields lvl IH fields n) as [Hle Hiff]; split; [done|]. rewrite Hiff; split.
    + intros (name & v & Hin & Hd); by econstructor.
    + intros Hd; inversion Hd; subst; eauto.
  - destruct (IH v n) as [Hle Hiff]; split; [done|]. rewrite Hiff; split; [by constructor|]. by inversion 1.
  - split; [lia|]. split; [done|]. by inversion 1.
  - split; [lia|]. split; [done|]. by inversion 1.
  - split; [lia|]. split; [constructor|lia].
  - split; [lia|]. split; [done|]. by inversion 1.
Qed.

(** ** The encoder and the decoder

    [t] is [reflect.TypeOf] of the argument; [cur] is what the variable that is
    decoded into holds. *)

Section wrapper.
Context {Ty : Type} `{Countable Ty} (kindOf : Ty -> kind (Ty := Ty)) (isUpper : string -> bool) (fuel : nat).
Context {R : Type} (gobRegister : Ty -> R -> R) (gobRegisterName : string -> Ty -> R -> R).   (* gob's registry *)
Notation gstate := (@gobState Ty _ _).

Definition checkValue (t : Ty) (st : gstate) : option gstate := checkType kindOf isUpper fuel t st.

Definition LabEncode {A} `{GobType A} (t : Ty) (e : A) (w : bytes) (st : gstate) : option (bytes * gstate) :=
  st ← checkValue t st; Some (Encode w e, st).

(** [EncodeValue] gets the value by reflection. *)
Definition LabEncodeValue {A} `{GobType A} (t : Ty) (value : A) (w : bytes) (st : gstate) : option (bytes * gstate) :=
  st ← checkValue t st; Some (Encode w value, st).

(** The result of the inner [Decode]; [None] is its error. *)
Definition LabDecode {A} `{GobType A} (t : Ty) (cur : option goValue) (r : bytes) (st : gstate)
    : option (option (A * bytes) * gstate) :=
  st ← checkValue t st;
  let st := mkGobState (checkedTypes st) (checkDefault cur (errorCount st)) in
  Some (Decode r, st).

Definition LabRegister (t : Ty) (r : R) (st : gstate) : option (R * gstate) :=
  st ← checkValue t st; Some (gobRegister t r, st).
Definition LabRegisterName (name : string) (t : Ty) (r : R) (st : gstate) : option (R * gstate) :=
  st ← checkValue t st; Some (gobRegisterName name t r, st).
End wrapper.

(** Every offending field is reported once, and the check ends on recursive
    types too: for a type in a finite set of types that contains the parts of
    its members, [checkType] returns; it adds types to those already checked
    (the type itself, and with each type all its parts), it adds to the error
    count exactly the number of lower-case fields of the types it added, and
    checking the same type again does nothing. *)
Theorem checkType_reports_once {Ty : Type} `{Countable Ty} (kindOf : Ty -> kind) (isUpper : string -> bool)
    (U : gset Ty) (fuel : nat) (t : Ty) (st : gobState) :
  (forall t u, t ∈ U -> u ∈ parts kindOf t -> u ∈ U) -> t ∈ U -> (size U <= fuel)%nat ->
  exists st', checkType kindOf isUpper fuel t st = Some st'
    /\ t ∈ checkedTypes st' /\ visited kindOf isUpper 0 U st st'
    /\ forall fuel2, checkType kindOf isUpper fuel2 t st' = Some st'.
Proof.
  intros HU Ht Hf; destruct (checkType_ok kindOf isUpper U fuel HU t st Ht) as (st' & Hc & Hv & Hin).
  { etrans; [|exact Hf]. apply subseteq_size; set_solver. }
  exists st'; split_and!; try done. intros fuel2; destruct fuel2; cbn [checkType]; by rewrite decide_True.
Qed.

(** The warning about decoding into a used variable is exact to depth
    three: [checkDefault] never lowers the error count, and raises it exactly
    when the value has a basic part that is not zero within three levels of
    pointers and structs. *)
Theorem checkDefault_exact (v : goValue) (errorCount : Z) :
  errorCount <= checkDefault (Some v) errorCount
  /\ (checkDefault (Some v) errorCount <> errorCount <-> dirty 3 v).
Proof. apply checkDefault1_dirty. Qed.

(** A value that the wrapper encodes is read back by the wrapper, and what
    follows it in the buffer is left; the types are checked, and their lower-case
    fields counted, only the first time, and decoding into a variable counts
    exactly one more error or more if it holds something that is not zero. *)
Theorem LabDecode_LabEncode {Ty A : Type} `{Countable Ty} `{GobType A} (kindOf : Ty -> kind) (isUpper : string -> bool)
    (U : gset Ty) (fuel : nat) (t : Ty) (e : A) (v : goValue) (rest : bytes) (st : gobState) :
  (forall t u, t ∈ U -> u ∈ parts kindOf t -> u ∈ U) -> t ∈ U -> (size U <= fuel)%nat ->
  exists st1 st2, LabEncode kindOf isUpper fuel t e [] st = Some ([to_gob e], st1)
    /\ LabDecode kindOf isUpper fuel t (Some v) ([to_gob e] ++ rest) st1 = Some (Some (e, rest), st2)
    /\ visited kindOf isUpper 0 U st st1 /\ checkedTypes st2 = checkedTypes st1
    /\ errorCount st1 <= errorCount st2 /\ (errorCount st2 <> errorCount st1 <-> dirty 3 v).
Proof.
  intros HU Ht Hf. destruct (checkType_ok kindOf isUpper U fuel HU t st Ht) as (st' & Hc & Hv & Hin).
  { etrans; [|exact Hf]. apply subseteq_size; set_solver. }
  assert (Hc2 : checkType kindOf isUpper fuel t st' = Some st') by (destruct fuel; cbn [checkType]; by rewrite decide_True).
  exists st', (mkGobState (checkedTypes st') (checkDefault (Some v) (errorCount st'))).
  destruct (checkDefault1_dirty 3 v (errorCount st')) as [Hle Hiff].
  unfold LabEncode, LabDecode, checkValue. rewrite Hc, Hc2; cbn [mbind option_bind app]. rewrite Decode_cons. split_and!; done.
Qed.

(** A recursive type: type 0 is struct { Val int; next *T }, 1 is *T, 2 is int. *)
Definition listKind (t : Z) : kind :=
  if t =? 0 then Struct [("Val"%string, 2); ("next"%string, 1)] else if t =? 1 then Elem 0 else OtherKind.
Definition startsUpper (s : string) : bool := String.eqb s "Val".

Lemma checkType_reports_once_witness :
  exists st', checkType listKind startsUpper 3 0 (mkGobState ∅ 0) = Some st'
    /\ 0 ∈ checkedTypes st' /\ visited listKind startsUpper 0 {[0; 1; 2]} (mkGobState ∅ 0) st'
    /\ forall fuel2, checkType listKind startsUpper fuel2 0 st' = Some st'.
Proof.
  apply (checkType_reports_once listKind startsUpper {[0; 1; 2]} 3 0 (mkGobState ∅ 0)).
  - intros t u Ht Hu; assert (E : t = 0 \/ t = 1 \/ t = 2) by set_solver.
    destruct E as [-> | [-> | ->]]; unfold parts in Hu; simpl in Hu; set_solver.
  - set_solver.
  - vm_compute; lia.
Defined.

(** [next] is counted once. *)
Lemma listKind_errors :
  errorCount <$> checkType listKind startsUpper 3 0 (mkGobState ∅ 0) = Some 1.
Proof. vm_compute; reflexivity. Qed.
