(* ===== verification/KvConfig.v ===== *)
(** * kvraft and shardctrler: the test configuration

    Models [kvraft/config.go] and [shardctrler/config.go], which are the same
    program but for the server they start: the functions are written once,
    against the interface [Tested] of what a configuration needs of a server,
    and instantiated in the module [KvRaft] and in [CtrlerConfig].

    As in [RaftConfig], [randstring] is an argument, end names are strings and
    server names integers, [None] is a panic, and the persister a server runs
    with is the object [saved[i]] points to. A clerk is known to the
    configuration by its address, a number. *)

From S2P Require Import Prelude Gob RaftTypes RaftLog LabRpc KvServer.
From S2P Require Import KvClerk.

Notation Name := (Z + string)%type.

(** ** Wiring *)

Section wires.

Record wires : Type := mkWires {
  kw_net : Network Name;
  kw_n : nat;
  kw_endnames : list (option (list string));
}.
Implicit Types w : wires.

Definition set_kwnet rn w : wires := mkWires rn (kw_n w) (kw_endnames w).
Definition set_kwends e w : wires := mkWires (kw_net w) (kw_n w) e.

(** [cfg.endnames[i][j]] *)
Definition endAt w (i j : Z) : option string := row ← idx (kw_endnames w) i; names ← row; idx names j.
Definition switch (e : string) (on : bool) w : wires := set_kwnet (Enable (inr e) on (kw_net w)) w.

Definition All w : list Z := seqZ 0 (Z.of_nat (kw_n w)).

Definition connectUnlocked (i : Z) (to : list Z) w : option wires :=
  w ← loopM (fun t w => e ← endAt w i t; Some (switch e true w)) to w;
  loopM (fun t w => e ← endAt w t i; Some (switch e true w)) to w.

(** The second loop looks at [endnames[j]] where it then uses [endnames[from[j]]]. *)
Definition disconnectUnlocked (i : Z) (from : list Z) w : option wires :=
  w ← loopM (fun t w => row ← idx (kw_endnames w) i;
               match row with Some _ => e ← endAt w i t; Some (switch e false w) | None => Some w end) from w;
  loopM (fun j w => row ← idx (kw_endnames w) j;
           match row with
           | Some _ => t ← idx from j; e ← endAt w t i; Some (switch e false w)
           | None => Some w
           end) (seqZ 0 (len from)) w.

Definition ConnectAll w : option wires := loopM (fun i w => connectUnlocked i (All w) w) (All w) w.

Definition partition (p1 p2 : list Z) w : option wires :=
  w ← loopM (fun i w => w ← disconnectUnlocked i p2 w; connectUnlocked i p1 w) p1 w;
  loopM (fun i w => w ← disconnectUnlocked i p1 w; connectUnlocked i p2 w) p2 w.

(** Fresh ends, one per server. *)
Definition makeEnds (names : list string) w : option wires :=
  loopM (fun j w => e ← idx names j;
           rn ← MakeEnd (inr e) (kw_net w); Some (set_kwnet (Connect (inr e) (inl j) rn) w)) (All w) w.

(** The ends of a clerk, by server. *)
Definition switchClient (endnames : list string) (on : bool) (to : list Z) w : option wires :=
  loopM (fun t w => e ← idx endnames t; Some (switch e on w)) to w.
End wires.

(** ** Randomised handles *)

(** [sa[i], sa[j] = sa[j], sa[i]] *)
Definition swap {A : Type} (i j : Z) (sa : list A) : option (list A) :=
  x ← idx sa i; y ← idx sa j; sa ← upd sa i y; upd sa j x.

(** [rands i] is [rand.Intn(i + 1)]. *)
Definition random_handles {A : Type} (rands : Z -> Z) (kvh : list A) : option (list A) :=
  loopM (fun i sa => swap i (rands i) sa) (seqZ 0 (len kvh)) kvh.

(** ** The configuration *)

(** What a configuration needs of the servers it tests. *)
Class Tested (Srv : Type) : Type := {
  startSrv : nat -> Z -> Persister -> Z -> Z -> option Srv;   (* peers, me, persister, maxraftstate, clock *)
  killSrv : Srv -> Srv;
  srvState : Srv -> Z * bool;                                 (* rf.GetState() *)
  srvPersister : Srv -> Persister;
}.

Section config.
Context {Srv : Type} `{!Tested Srv}.

Record kvconfig : Type := mkKvConfig {
  kc_wires : wires;
  kc_servers : list (option Srv);
  kc_saved : list (option Persister);
  kc_clerks : gmap nat (list string);
  kc_nextClientId : Z;
  kc_maxraftstate : Z;
  kc_start : Z;
  kc_t0 : Z; kc_rpcs0 : Z; kc_ops : Z;
}.
Implicit Types cfg : kvconfig.

Definition set_kwires w cfg : kvconfig :=
  mkKvConfig w (kc_servers cfg) (kc_saved cfg) (kc_clerks cfg) (kc_nextClientId cfg) (kc_maxraftstate cfg) (kc_start cfg)
    (kc_t0 cfg) (kc_rpcs0 cfg) (kc_ops cfg).
Definition set_kservers s cfg : kvconfig :=
  mkKvConfig (kc_wires cfg) s (kc_saved cfg) (kc_clerks cfg) (kc_nextClientId cfg) (kc_maxraftstate cfg) (kc_start cfg)
    (kc_t0 cfg) (kc_rpcs0 cfg) (kc_ops cfg).
Definition set_ksaved p cfg : kvconfig :=
  mkKvConfig (kc_wires cfg) (kc_servers cfg) p (kc_clerks cfg) (kc_nextClientId cfg) (kc_maxraftstate cfg) (kc_start cfg)
    (kc_t0 cfg) (kc_rpcs0 cfg) (kc_ops cfg).
Definition set_kclerks c next cfg : kvconfig :=
  mkKvConfig (kc_wires cfg) (kc_servers cfg) (kc_saved cfg) c next (kc_maxraftstate cfg) (kc_start cfg)
    (kc_t0 cfg) (kc_rpcs0 cfg) (kc_ops cfg).

Definition onWires (f : wires -> option wires) cfg : option kvconfig :=
  w ← f (kc_wires cfg); Some (set_kwires w cfg).

Definition ksavedNow cfg (i : Z) : option (option Persister) :=
  s ← idx (kc_saved cfg) i;
  r ← idx (kc_servers cfg) i;
  Some (match s, r with Some _, Some kv => Some (srvPersister kv) | _, _ => s end).

Definition kcheckTimeout (failed : bool) (now : Z) cfg : option kvconfig :=
  if negb failed && (now - kc_start cfg >? 120000) then None else Some cfg.

Definition kcleanup (failed : bool) (now : Z) cfg : option kvconfig :=
  let cfg := set_kservers (option_map killSrv <$> kc_servers cfg) cfg in
  rn ← Cleanup (kw_net (kc_wires cfg));
  kcheckTimeout failed now (set_kwires (set_kwnet rn (kc_wires cfg)) cfg).

(** The maximum of a size over the servers; [saved[i]] must not be nil. *)
Definition maxSize (size : Persister -> Z) cfg : option Z :=
  foldl (fun acc i => m ← acc; s ← ksavedNow cfg i; p ← s; Some (if size p >? m then size p else m))
    (Some 0) (All (kc_wires cfg)).

Definition connectClient (on : bool) (ck : nat) (to : list Z) cfg : option kvconfig :=
  (* a missing entry of a map is the nil slice *)
  onWires (switchClient (default [] (kc_clerks cfg !! ck)) on to) cfg.

(** [ck] is the address of the new clerk; also the handles it is made with. *)
Definition makeClient (ck : nat) (randstring : Z -> string) (rands : Z -> Z) (to : list Z) cfg : option (list string * kvconfig) :=
  let endnames := randstring <$> All (kc_wires cfg) in
  cfg ← onWires (makeEnds endnames) cfg;
  handles ← random_handles rands endnames;
  let cfg := set_kclerks (<[ck := endnames]> (kc_clerks cfg)) (kc_nextClientId cfg + 1) cfg in
  cfg ← connectClient true ck to cfg;
  Some (handles, cfg).

Definition deleteClient (ck : nat) cfg : kvconfig := set_kclerks (delete ck (kc_clerks cfg)) (kc_nextClientId cfg) cfg.

Definition ShutdownServer (i : Z) cfg : option kvconfig :=
  cfg ← onWires (fun w => disconnectUnlocked i (All w) w) cfg;
  let cfg := set_kwires (set_kwnet (DeleteServer (inl i) (kw_net (kc_wires cfg))) (kc_wires cfg)) cfg in
  s ← ksavedNow cfg i;
  sv ← upd (kc_saved cfg) i (Copy <$> s);
  let cfg := set_ksaved sv cfg in
  kv ← idx (kc_servers cfg) i;
  match kv with
  | Some _ => ss ← upd (kc_servers cfg) i None; Some (set_kservers ss cfg)   (* kv.Kill() *)
  | None => Some cfg
  end.

(** [srv] is the location of the server made for the two services. *)
Definition StartServer (i : Z) (randstring : Z -> string) (srv : nat) (now : Z) cfg : option kvconfig :=
  let names := randstring <$> All (kc_wires cfg) in
  cfg ← onWires (fun w => en ← upd (kw_endnames w) i (Some names); makeEnds names (set_kwends en w)) cfg;
  s ← ksavedNow cfg i;
  let p := match s with Some p => Copy p | None => MakePersister end in
  sv ← upd (kc_saved cfg) i (Some p);
  let cfg := set_ksaved sv cfg in
  kv ← startSrv (kw_n (kc_wires cfg)) i p (kc_maxraftstate cfg) now;
  ss ← upd (kc_servers cfg) i (Some kv);
  Some (set_kwires (set_kwnet (AddServer (inl i) srv (kw_net (kc_wires cfg))) (kc_wires cfg)) (set_kservers ss cfg)).

(** [Leader], over what the servers' [GetState] return; [nilSafe]: a nil server
    is skipped instead of dereferenced. *)
Fixpoint leaderLoop (nilSafe : bool) (ids : list Z) cfg : option (bool * Z) :=
  match ids with
  | [] => Some (false, 0)
  | i :: ids =>
      kv ← idx (kc_servers cfg) i;
      match kv with
      | Some kv => if (srvState kv).2 then Some (true, i) else leaderLoop nilSafe ids cfg
      | None => if nilSafe then leaderLoop nilSafe ids cfg else None
      end
  end.

Definition make_config (n : nat) (unreliable : bool) (maxraft : Z) (randstring : Z -> Z -> string) (now : Z) : option kvconfig :=
  let w := mkWires MakeNetwork n (replicate n None) in
  let cfg := mkKvConfig w (replicate n None) (replicate n None) ∅ (Z.of_nat n + 1000) maxraft now 0 0 0 in
  cfg ← loopM (fun i cfg => StartServer i (randstring i) (Z.to_nat i) now cfg) (All w) cfg;
  cfg ← onWires ConnectAll cfg;
  Some (set_kwires (set_kwnet (Reliable (negb unreliable) (kw_net (kc_wires cfg))) (kc_wires cfg)) cfg).

Definition krpcTotal cfg : Z := GetTotalCount (kw_net (kc_wires cfg)).
Definition kbegin (now : Z) cfg : kvconfig :=
  mkKvConfig (kc_wires cfg) (kc_servers cfg) (kc_saved cfg) (kc_clerks cfg) (kc_nextClientId cfg) (kc_maxraftstate cfg)
    (kc_start cfg) now (krpcTotal cfg) 0.
Definition op cfg : kvconfig :=
  mkKvConfig (kc_wires cfg) (kc_servers cfg) (kc_saved cfg) (kc_clerks cfg) (kc_nextClientId cfg) (kc_maxraftstate cfg)
    (kc_start cfg) (kc_t0 cfg) (kc_rpcs0 cfg) (kc_ops cfg + 1).
(** The numbers [end] prints: time, peers, RPCs, clerk operations. *)
Definition kend (failed : bool) (now : Z) cfg : option (option (Z * nat * Z * Z)) :=
  cfg ← kcheckTimeout failed now cfg;
  Some (if failed then None else Some (now - kc_t0 cfg, kw_n (kc_wires cfg), krpcTotal cfg - kc_rpcs0 cfg, kc_ops cfg)).
End config.
Arguments kvconfig : clear implicits.

(** The loop of [make_partition]: [p1] and [p2] are filled in place. *)
Fixpoint fillPartition (ids : list Z) (l j : Z) (p1 p2 : list Z) : option (list Z * list Z) :=
  match ids with
  | [] => Some (p1, p2)
  | i :: ids =>
      if negb (i =? l) then
        if j <? len p1 then p1 ← upd p1 j i; fillPartition ids l (j + 1) p1 p2
        else p2 ← upd p2 (j - len p1) i; fillPartition ids l (j + 1) p1 p2
      else fillPartition ids l j p1 p2
  end.

(** [l] is what [Leader] returned. *)
Definition make_partition (n : nat) (l : Z) : option (list Z * list Z) :=
  let p1 := replicate (n / 2 + 1) 0 in
  let p2 := replicate (n / 2) 0 in
  '(p1, p2) ← fillPartition (seqZ 0 (Z.of_nat n)) l 0 p1 p2;
  p2 ← upd p2 (len p2 - 1) l;
  Some (p1, p2).

(** ** [kvraft/config.go] *)

Module KvRaft.
Import KvClerk.
Notation Server := (KVServer * Raft Op)%type.

#[global] Instance tested : Tested Server := {
  startSrv n me p maxraft now := rf ← Make n me p now; Some (StartKVServer p maxraft, rf);
  killSrv s := (kvKill s.1, Kill s.2);
  srvState s := GetState s.2;
  srvPersister s := persister s.2;
}.

Notation config := (kvconfig Server).
Implicit Types cfg : config.

Definition LogSize (size : bytes -> Z) cfg : option Z := maxSize (RaftStateSize size) cfg.
Definition SnapshotSize (size : bytes -> Z) cfg : option Z := maxSize (RaftTypes.SnapshotSize size) cfg.
Definition connect (i : Z) (to : list Z) cfg : option config := onWires (connectUnlocked i to) cfg.
Definition disconnect (i : Z) (from : list Z) cfg : option config := onWires (disconnectUnlocked i from) cfg.
(** [makeClient] with its clerk; [nrand] is the identifier [MakeClerk] draws. *)
Definition newClerk (ck : nat) randstring rands (nrand : Z) (to : list Z) cfg : option (Clerk * config) :=
  '(handles, cfg) ← makeClient ck randstring rands to cfg; Some (MakeClerk (length handles) nrand, cfg).
Definition ConnectClient (ck : nat) (to : list Z) cfg : option config := connectClient true ck to cfg.
Definition DisconnectClient (ck : nat) (from : list Z) cfg : option config := connectClient false ck from cfg.
Definition Leader cfg : option (bool * Z) := leaderLoop false (All (kc_wires cfg)) cfg.
(** [make_partition] with its call of [Leader]. *)
Definition leaderMinority cfg : option (list Z * list Z) :=
  '(_, l) ← Leader cfg; make_partition (kw_n (kc_wires cfg)) l.
End KvRaft.
