(* ===== verification/CtrlerConfig.v ===== *)
(** * shardctrler: the server and the test configuration

    Models [shardctrler/server.go] and [shardctrler/config.go].

    The server keeps a Raft peer and a history of configurations; its handlers
    are empty. A configuration of the tests has no statistics and no snapshot
    limit, so those fields of [kvconfig] stay at zero. *)

From S2P Require Import Prelude Gob RaftTypes RaftLog LabRpc ShardClerk KvConfig.

#[local] Open Scope Z_scope.

Module Ctrler.
Import ShardClerk.ShardCtrler (Config, zeroConfig, Clerk, MakeClerk).

(** [Op] has no fields. *)
Inductive Op : Type := mkOp.

#[global] Instance gob_Op : GobType Op.
Proof. refine {| to_gob _ := GNil; from_gob v := match v with GNil => Some mkOp | _ => None end; from_to_gob := _ |}. by intros []. Defined.

Record ShardCtrler : Type := mkShardCtrler {
  sc_me : Z;
  sc_rf : Raft Op;
  configs : list Config;      (* indexed by config num *)
}.

Definition Raft (sc : ShardCtrler) : RaftTypes.Raft Op := sc_rf sc.
Definition Kill (sc : ShardCtrler) : ShardCtrler := mkShardCtrler (sc_me sc) (RaftLog.Kill (sc_rf sc)) (configs sc).

(** [servers]: the number of the ends. *)
Definition StartServer (servers : nat) (me : Z) (p : Persister) (now : Z) : option ShardCtrler :=
  rf ← Make servers me p now; Some (mkShardCtrler me rf [zeroConfig]).

#[global] Instance tested : Tested ShardCtrler := {
  startSrv n me p _ now := StartServer n me p now;
  killSrv := Kill;
  srvState sc := GetState (Raft sc);
  srvPersister sc := persister (Raft sc);
}.

Notation config := (kvconfig ShardCtrler).
Implicit Types cfg : config.

Definition checkTimeout failed now cfg := kcheckTimeout failed now cfg.
Definition cleanup failed now cfg := kcleanup failed now cfg.
Definition LogSize (size : bytes -> Z) cfg : option Z := maxSize (RaftStateSize size) cfg.
Definition connect (i : Z) (to : list Z) cfg : option config := onWires (connectUnlocked i to) cfg.
Definition disconnect (i : Z) (from : list Z) cfg : option config := onWires (disconnectUnlocked i from) cfg.
Definition ConnectAll cfg : option config := onWires ConnectAll cfg.
Definition partition (p1 p2 : list Z) cfg : option config := onWires (partition p1 p2) cfg.
Definition makeClient (ck : nat) randstring rands (to : list Z) cfg : option (Clerk * config) :=
  '(handles, cfg) ← makeClient ck randstring rands to cfg; Some (MakeClerk handles, cfg).
Definition deleteClient (ck : nat) cfg : config := deleteClient ck cfg.
Definition ConnectClient (ck : nat) (to : list Z) cfg : option config := connectClient true ck to cfg.
Definition DisconnectClient (ck : nat) (from : list Z) cfg : option config := connectClient false ck from cfg.
Definition ShutdownServer (i : Z) cfg : option config := ShutdownServer i cfg.
Definition startServer (i : Z) randstring srv now cfg : option config := KvConfig.StartServer i randstring srv now cfg.
Definition Leader cfg : option (bool * Z) := leaderLoop true (All (kc_wires cfg)) cfg.
Definition make_partition cfg : option (list Z * list Z) :=
  '(_, l) ← Leader cfg; make_partition (kw_n (kc_wires cfg)) l.
Definition make_config (n : nat) unreliable randstring now : option config :=
  KvConfig.make_config n unreliable 0 randstring now.
End Ctrler.
