(* ===== verification/KvConfigFacts.v ===== *)
(** * kvraft: partitions and clients of the test configuration

    [partition] cuts the network exactly between its two groups,
    [make_partition] puts the leader into a minority when the number of servers
    is odd, and [random_handles] only reorders; and two slips in the code that
    the tests do not reach. *)

From S2P Require Import Prelude GoFmt Gob RaftTypes RaftLog LabRpc.
From S2P Require Import Wiring KvServer KvConfig.

#[local] Open Scope Z_scope.

Section wires.
Implicit Types (w : wires) (e : string).

Definition kshape w w' : Prop := kw_n w' = kw_n w /\ kw_endnames w' = kw_endnames w.

Lemma kshape_refl w : kshape w w.
Proof. done. Qed.
Lemma kshape_trans w1 w2 w3 : kshape w1 w2 -> kshape w2 w3 -> kshape w1 w3.
Proof. intros [? ?] [? ?]; split; congruence. Qed.
Lemma kshape_endAt w w' i j : kshape w w' -> endAt w' i j = endAt w i j.
Proof. intros [_ E]; unfold endAt; by rewrite E. Qed.

Definition inRange w (i : Z) : Prop := 0 <= i < Z.of_nat (kw_n w).

(** Every server has been started, and no two ends share a name. *)
Definition named w : Prop :=
  (forall i j, inRange w i -> inRange w j -> exists e, endAt w i j = Some e)
  /\ (forall i j i' j' e, endAt w i j = Some e -> endAt w i' j' = Some e -> i = i' /\ j = j').

Lemma named_shape w w' : kshape w w' -> named w -> named w'.
Proof.
  intros Hs [H1 H2]; pose proof Hs as [En _]. split; unfold inRange; setoid_rewrite (kshape_endAt _ _ _ _ Hs); rewrite ?En; done.
Qed.

(** Does the network forward what server [i] sends to server [j]? *)
Definition linked w (i j : Z) : bool := match endAt w i j with Some e => isEnabled (kw_net w) (inr e) | None => false end.

(** The pairs [connectUnlocked i s] and [disconnectUnlocked i s] are about. *)
Definition touches (s : list Z) (a b i : Z) : bool :=
  (bool_decide (a = i) && bool_decide (b ∈ s)) || (bool_decide (b = i) && bool_decide (a ∈ s)).

Lemma touches_spec s a b i : touches s a b i = true <-> (a = i /\ b ∈ s) \/ (b = i /\ a ∈ s).
Proof. unfold touches. rewrite orb_true_iff, !andb_true_iff, !bool_decide_eq_true. done. Qed.

(** A loop over servers that switches an end in each round. *)
Lemma named_loop (b : bool) (sel : Z -> option string) f xs w :
  (forall j w1, j ∈ xs -> kshape w w1 -> exists e, sel j = Some e /\ f j w1 = Some (switch e b w1)) ->
  exists w', loopM f xs w = Some w' /\ kshape w w'
    /\ forall e, isEnabled (kw_net w') (inr e)
         = if bool_decide (Exists (fun j => sel j = Some e) xs) then b else isEnabled (kw_net w) (inr e).
Proof.
  intros Hf. destruct (loopM_total f (kshape w) xs w) as (w' & HR & _); [|done|].
  { intros j w1 Hj Hs. destruct (Hf j w1 Hj Hs) as (e & _ & ->). eexists; split; [done|]. by apply (kshape_trans _ w1). }
  exists w'; split; [done|].
  apply (switch_loop kw_net kshape (fun e w => switch e b w) inr b) with (f := f); [done|apply kshape_trans|done| | |done].
  - intros e e' u; unfold switch; simpl. rewrite isEnabled_Enable. repeat case_bool_decide; congruence.
  - intros j w1 w2 Hj Hs HR'. destruct (Hf j w1 Hj Hs) as (e & -> & Hf'). congruence.
Qed.

(** Two such loops, over the row and the column of [i]. *)
Lemma switch_both (b : bool) i s f (g : Z -> option Z) (xs : list Z) w :
  named w -> inRange w i -> (forall t, t ∈ s -> inRange w t) -> (forall t, t ∈ s <-> exists j, j ∈ xs /\ g j = Some t) ->
  (forall t w1, t ∈ s -> kshape w w1 -> exists e, endAt w i t = Some e /\ f t w1 = Some (switch e b w1)) ->
  forall h, (forall j w1, j ∈ xs -> kshape w w1 -> exists t e, g j = Some t /\ endAt w t i = Some e /\ h j w1 = Some (switch e b w1)) ->
  exists w1 w', loopM f s w = Some w1 /\ loopM h xs w1 = Some w' /\ kshape w w'
    /\ forall x y, inRange w x -> inRange w y -> linked w' x y = if touches s x y i then b else linked w x y.
Proof.
  intros [Hn1 Hn2] Hi Hs Hg Hf h Hh.
  destruct (named_loop b (fun t => endAt w i t) f s w Hf) as (w1 & HR1 & Hs1 & He1).
  destruct (named_loop b (fun j => t ← g j; endAt w t i) h xs w1) as (w' & HR2 & Hs2 & He2).
  { intros j u Hj Hu. destruct (Hh j u Hj) as (t & e & Ht & He & Hx); [by eapply kshape_trans|].
    exists e; rewrite Ht; split; [exact He|done]. }
  assert (Hs' : kshape w w') by (by eapply kshape_trans).
  exists w1, w'; split_and!; try done. intros x y Hx Hy. destruct (Hn1 x y Hx Hy) as [e He].
  unfold linked. rewrite (kshape_endAt _ _ _ _ Hs'), He, He2, He1.
  assert (H1 : Exists (fun t => endAt w i t = Some e) s <-> x = i /\ y ∈ s).
  { rewrite Exists_exists; split; [intros (t & Ht & Het); destruct (Hn2 _ _ _ _ _ He Het) as [-> ->]; done|].
    intros [-> ?]; by exists y. }
  assert (H2 : Exists (fun j => (t ← g j; endAt w t i) = Some e) xs <-> y = i /\ x ∈ s).
  { rewrite Exists_exists; split.
    - intros (j & Hj & Het); inv_opt. destruct (Hn2 _ _ _ _ _ He Het) as [-> ->]. split; [done|]. apply Hg; eauto.
    - intros [-> Hxs]. apply Hg in Hxs as (j & Hj & Hgj). exists j; rewrite Hgj; done. }
  pose proof (touches_spec s x y i) as Ht. rewrite <- H1, <- H2 in Ht.
  destruct (touches s x y i); repeat case_bool_decide; try done; naive_solver.
Qed.

Lemma connectUnlocked_links i s w :
  named w -> inRange w i -> (forall t, t ∈ s -> inRange w t) ->
  exists w', connectUnlocked i s w = Some w' /\ kshape w w'
    /\ forall x y, inRange w x -> inRange w y -> linked w' x y = touches s x y i || linked w x y.
Proof.
  intros Hn Hi Hs. destruct Hn as [Hn1 Hn2].
  destruct (switch_both true i s (fun t w => e ← endAt w i t; Some (switch e true w)) Some s w) with
    (h := fun t w => e ← endAt w t i; Some (switch e true w)) as (w1 & w' & HR1 & HR2 & Hsh & Hl); try done.
  - naive_solver.
  - intros t u Ht Hu. destruct (Hn1 i t Hi (Hs t Ht)) as [e He]. exists e. by rewrite (kshape_endAt _ _ _ _ Hu), He.
  - intros t u Ht Hu. destruct (Hn1 t i (Hs t Ht) Hi) as [e He]. exists t, e. by rewrite (kshape_endAt _ _ _ _ Hu), He.
  - exists w'; unfold connectUnlocked; rewrite HR1; cbn [mbind option_bind]. split_and!; try done.
Qed.

Lemma named_row w i : named w -> inRange w i -> exists names, idx (kw_endnames w) i = Some (Some names).
Proof.
  intros [Hn _] Hi. destruct (Hn i i Hi Hi) as [e He]. unfold endAt in He. inv_opt. destruct x; [|done]. eauto.
Qed.

Lemma disconnectUnlocked_links i s w :
  named w -> inRange w i -> (forall t, t ∈ s -> inRange w t) -> len s <= Z.of_nat (kw_n w) ->
  exists w', disconnectUnlocked i s w = Some w' /\ kshape w w'
    /\ forall x y, inRange w x -> inRange w y -> linked w' x y = negb (touches s x y i) && linked w x y.
Proof.
  intros Hn Hi Hs Hlen. pose proof Hn as [Hn1 Hn2].
  destruct (switch_both false i s (fun t w => row ← idx (kw_endnames w) i;
      match row with Some _ => e ← endAt w i t; Some (switch e false w) | None => Some w end) (idx s) (seqZ 0 (len s)) w) with
    (h := fun j w => row ← idx (kw_endnames w) j;
      match row with Some _ => t ← idx s j; e ← endAt w t i; Some (switch e false w) | None => Some w end)
    as (w1 & w' & HR1 & HR2 & Hsh & Hl); try done.
  - intros t; split.
    + intros (k & Hk)%list_elem_of_lookup. exists (Z.of_nat k). pose proof (lookup_lt_Some _ _ _ Hk).
      rewrite elem_of_seqZ. split; [unfold len; lia|]. unfold idx; case_if; [|lia]. by rewrite Nat2Z.id.
    + intros (j & _ & Hj). unfold idx in Hj; case_if_in Hj; [|done]. by eapply list_elem_of_lookup_2.
  - intros t u Ht Hu. destruct (Hn1 i t Hi (Hs t Ht)) as [e He]. destruct (named_row w i Hn Hi) as [names Hr].
    exists e; split; [done|]. pose proof Hu as [_ Eu]. rewrite Eu, Hr; cbn [mbind option_bind]. by rewrite (kshape_endAt _ _ _ _ Hu), He.
  - intros j u Hj%elem_of_seqZ Hu. destruct (idx_in_range s j) as [t Ht]; [lia|].
    assert (Hts : t ∈ s) by (unfold idx in Ht; case_if_in Ht; [by eapply list_elem_of_lookup_2|done]).
    destruct (Hn1 t i (Hs t Hts) Hi) as [e He]. destruct (named_row w j Hn) as [names Hr]; [unfold inRange; lia|].
    exists t, e; split_and!; try done. pose proof Hu as [_ Eu]. rewrite Eu, Hr; cbn [mbind option_bind].
    rewrite Ht; cbn [mbind option_bind]. by rewrite (kshape_endAt _ _ _ _ Hu), He.
  - exists w'; unfold disconnectUnlocked; rewrite HR1; cbn [mbind option_bind]. split_and!; try done.
    intros x y Hx Hy; rewrite Hl by done. by destruct (touches s x y i).
Qed.

(** ** Partitions *)

(** One side of [partition]: what the servers [xs] of [p] do. *)
Lemma side_links p q xs : forall w,
  named w -> (forall t, t ∈ p -> inRange w t) -> (forall t, t ∈ q -> inRange w t) -> len q <= Z.of_nat (kw_n w) ->
  (forall t, t ∈ xs -> t ∈ p) -> (forall t, t ∈ p -> t ∈ q -> False) ->
  exists w', loopM (fun i w => w ← disconnectUnlocked i q w; connectUnlocked i p w) xs w = Some w' /\ kshape w w'
    /\ forall x y, inRange w x -> inRange w y ->
         linked w' x y = existsb (touches p x y) xs || (negb (existsb (touches q x y) xs) && linked w x y).
Proof.
  induction xs as [|i xs IH]; intros w Hn Hp Hq Hlen Hxs Hd; cbn [loopM existsb].
  { exists w; split_and!; try done. }
  assert (Hi : inRange w i) by (apply Hp, Hxs; by left).
  destruct (disconnectUnlocked_links i q w Hn Hi Hq Hlen) as (w1 & -> & Hs1 & Hl1); cbn [mbind option_bind].
  pose proof Hs1 as [En1 _]. assert (Hn1 : named w1) by (by eapply named_shape).
  destruct (connectUnlocked_links i p w1 Hn1) as (w2 & -> & Hs2 & Hl2); [unfold inRange in *; by rewrite En1|unfold inRange in *; by rewrite En1|].
  cbn [mbind option_bind]. assert (Hs : kshape w w2) by (by eapply kshape_trans). pose proof Hs as [En _].
  destruct (IH w2) as (w' & -> & Hs' & Hl'); unfold inRange in *; rewrite ?En; try done.
  { by eapply named_shape. } { intros t Ht; apply Hxs; by right. }
  exists w'; split_and!; [done|by eapply kshape_trans|]. intros x y Hx Hy. rewrite Hl', Hl2, Hl1 by (rewrite ?En, ?En1; done).
  destruct (existsb (touches p x y) xs) eqn:E1; [by rewrite orb_true_r|].
  destruct (touches p x y i) eqn:E2; simpl.
  - destruct (existsb (touches q x y) xs) eqn:E3; [|done]. exfalso.
    apply existsb_exists in E3 as (j & Hj%list_elem_of_In & Hj'). apply touches_spec in E2, Hj'.
    assert (Hxp : x ∈ p /\ y ∈ p) by (destruct E2 as [[-> ?]|[-> ?]]; split; try done; apply Hxs; by left).
    destruct Hj' as [[_ ?]|[_ ?]]; naive_solver.
  - by destruct (touches q x y i), (existsb (touches q x y) xs).
Qed.

Lemma existsb_touches p q x y :
  (forall t, t ∈ p -> t ∈ q -> False) ->
  (existsb (touches p x y) p = true <-> x ∈ p /\ y ∈ p)
  /\ (existsb (touches q x y) p = true <-> (x ∈ p /\ y ∈ q) \/ (y ∈ p /\ x ∈ q)).
Proof.
  intros _; split; rewrite existsb_exists; split.
  - intros (i & Hi%list_elem_of_In & [[-> ?]|[-> ?]]%touches_spec); done.
  - intros [Hx Hy]. exists x; split; [by apply list_elem_of_In|]. apply touches_spec; by left.
  - intros (i & Hi%list_elem_of_In & [[-> ?]|[-> ?]]%touches_spec); auto.
  - intros [[Hx Hy]|[Hy Hx]]; [exists x|exists y]; (split; [by apply list_elem_of_In|]); apply touches_spec; auto.
Qed.

(** A partition of the network. On a network whose servers have all been
    started, [partition p1 p2] of two disjoint groups returns, and afterwards
    what a server sends to another is forwarded if both are in the same group,
    not forwarded if they are in different groups, and forwarded as before
    if one of them is in neither. *)
Theorem partition_isolates p1 p2 w
    (Hn : named w) (Hp1 : forall t, t ∈ p1 -> inRange w t) (Hp2 : forall t, t ∈ p2 -> inRange w t)
    (Hl1 : len p1 <= Z.of_nat (kw_n w)) (Hl2 : len p2 <= Z.of_nat (kw_n w)) (Hd : forall t, t ∈ p1 -> t ∈ p2 -> False) :
  exists w', partition p1 p2 w = Some w' /\ forall x y, inRange w x -> inRange w y ->
    linked w' x y =
      if decide ((x ∈ p1 /\ y ∈ p1) \/ (x ∈ p2 /\ y ∈ p2)) then true
      else if decide ((x ∈ p1 /\ y ∈ p2) \/ (x ∈ p2 /\ y ∈ p1)) then false
      else linked w x y.
Proof.
  destruct (side_links p1 p2 p1 w) as (w1 & HR1 & Hs1 & HL1); try done. pose proof Hs1 as [En _].
  destruct (side_links p2 p1 p2 w1) as (w' & HR2 & Hs2 & HL2); unfold inRange in *; rewrite ?En; try done.
  { by eapply named_shape. } { naive_solver. }
  exists w'; unfold partition; rewrite HR1; cbn [mbind option_bind]. split; [done|]. intros x y Hx Hy.
  rewrite HL2, HL1 by (rewrite ?En; done).
  destruct (existsb_touches p1 p2 x y Hd) as [A1 A2], (existsb_touches p2 p1 x y) as [B1 B2]; [naive_solver|].
  destruct (existsb (touches p2 x y) p2) eqn:E1; simpl.
  { rewrite decide_True; [done|]. right; by apply B1. }
  destruct (existsb (touches p1 x y) p2) eqn:E2; simpl.
  { apply proj1 in B2; specialize (B2 eq_refl). rewrite decide_False by naive_solver. rewrite decide_True by naive_solver. done. }
  destruct (existsb (touches p1 x y) p1) eqn:E3; simpl.
  { rewrite decide_True; [done|]. left; by apply A1. }
  destruct (existsb (touches p2 x y) p1) eqn:E4; simpl; rewrite decide_False by naive_solver.
  - rewrite decide_True by naive_solver. done.
  - rewrite decide_False by naive_solver. done.
Qed.
End wires.

(** Three servers, all started and not connected. *)
Definition ex_grid : wires :=
  mkWires MakeNetwork 3
    [Some ["0-0"; "0-1"; "0-2"]%string; Some ["1-0"; "1-1"; "1-2"]%string; Some ["2-0"; "2-1"; "2-2"]%string].

Lemma below_3 i : 0 <= i < 3 -> i = 0 \/ i = 1 \/ i = 2.
Proof. lia. Qed.

Lemma ex_grid_at i j e : endAt ex_grid i j = Some e -> (0 <= i < 3) /\ (0 <= j < 3).
Proof.
  unfold endAt; intros H. destruct (idx (kw_endnames ex_grid) i) as [row|] eqn:E; [|done].
  assert (Hi : 0 <= i < 3) by (apply idx_Some_range in E; done). split; [done|].
  destruct (below_3 i Hi) as [->|[->| ->]]; cbv in E; injection E as <-; cbn [mbind option_bind] in H; by apply idx_Some_range in H.
Qed.

Lemma ex_grid_named : named ex_grid.
Proof.
  split.
  - intros i j [->|[->| ->]]%below_3 [->|[->| ->]]%below_3; by eexists.
  - intros i j i' j' e H H'. destruct (ex_grid_at _ _ _ H) as [Hi Hj], (ex_grid_at _ _ _ H') as [Hi' Hj'].
    destruct (below_3 i Hi) as [->|[->| ->]], (below_3 j Hj) as [->|[->| ->]]; cbv in H; injection H as <-;
      destruct (below_3 i' Hi') as [->|[->| ->]], (below_3 j' Hj') as [->|[->| ->]]; cbv in H'; congruence || done.
Qed.

Lemma partition_isolates_witness :
  exists w', partition [0; 2] [1] ex_grid = Some w' /\ linked w' 0 2 = true /\ linked w' 1 2 = false.
Proof.
  destruct (partition_isolates [0; 2] [1] ex_grid) as (w' & HR & Hl).
  - exact ex_grid_named.
  - intros t Ht. unfold inRange; simpl. set_unfold; lia.
  - intros t Ht. unfold inRange; simpl. set_unfold; lia.
  - vm_compute; discriminate.
  - vm_compute; discriminate.
  - intros t. set_unfold; lia.
  - exists w'. split; [exact HR|]. split; (etrans; [apply Hl; unfold inRange; simpl; lia|vm_compute; reflexivity]).
Defined.

(** ** The groups *)

Lemma upd_fill (d : list Z) (k : nat) (i : Z) :
  upd (d ++ replicate (S k) 0) (len d) i = Some ((d ++ [i]) ++ replicate k 0).
Proof.
  rewrite upd_ok by (rewrite len_app; unfold len; rewrite length_replicate; lia). f_equal.
  unfold len; rewrite Nat2Z.id. rewrite insert_app_r_alt by lia. rewrite Nat.sub_diag; simpl. by rewrite <- app_assoc.
Qed.

(** [fillPartition] copies the servers other than [l] in order. *)
Lemma fillPartition_spec l ids : forall d1 d2 k1 k2,
  (k1 + k2 = length (filter (fun i => i <> l) ids) + 1)%nat -> (k1 <= length (filter (fun i => (i <> l)) ids))%nat ->
  (d2 = [] \/ k1 = 0%nat) ->
  fillPartition ids l (len d1 + len d2) (d1 ++ replicate k1 0) (d2 ++ replicate k2 0)
  = Some (d1 ++ take k1 (filter (fun i => i <> l) ids), d2 ++ drop k1 (filter (fun i => i <> l) ids) ++ [0]).
Proof.
  induction ids as [|i ids IH]; intros d1 d2 k1 k2 Hk Hk1 Hd; simpl.
  { simpl in *. assert (k1 = 0%nat) as -> by lia. assert (k2 = 1%nat) as -> by lia. done. }
  rewrite filter_cons in *. destruct (decide (i <> l)) as [Hne|Heq].
  2:{ assert (i = l) as -> by (destruct (Z.eq_dec i l); [done|by destruct Heq]). rewrite Z.eqb_refl; simpl. by apply IH. }
  assert (E : (i =? l) = false) by (by apply Z.eqb_neq). rewrite E; cbn [negb]. simpl in Hk, Hk1.
  destruct k1 as [|k1].
  - rewrite app_nil_r. assert (Hlt : (len d1 + len d2 <? len d1) = false) by (apply Z.ltb_ge; pose proof (len_nonneg d2); lia).
    rewrite Hlt. destruct k2 as [|k2]; [lia|]. replace (len d1 + len d2 - len d1) with (len d2) by lia.
    rewrite upd_fill ; cbn [mbind option_bind].
    specialize (IH d1 (d2 ++ [i]) 0%nat k2). simpl in IH. rewrite app_nil_r, take_0, drop_0 in IH. rewrite len_app in IH.
    change (len [i]) with 1 in IH. rewrite <- Z.add_assoc, IH by (lia || auto). rewrite take_0, drop_0. by rewrite <- !app_assoc.
  - destruct Hd as [->|]; [|done]. simpl in Hk. rewrite len_nil, Z.add_0_r.
    assert (Hlt : (len d1 <? len (d1 ++ replicate (S k1) 0)) = true)
      by (apply Z.ltb_lt; rewrite len_app; unfold len; rewrite length_replicate; lia).
    rewrite Hlt, upd_fill; cbn [mbind option_bind].
    specialize (IH (d1 ++ [i]) [] k1 k2). rewrite len_app, len_nil, Z.add_0_r in IH. change (len [i]) with 1 in IH.
    rewrite IH by (lia || auto). simpl. by rewrite <- !app_assoc.
Qed.

Lemma others_length (n : nat) l :
  0 <= l < Z.of_nat n -> S (length (filter (fun i => i <> l) (seqZ 0 (Z.of_nat n)))) = n
  /\ l :: filter (fun i => i <> l) (seqZ 0 (Z.of_nat n)) ≡ₚ seqZ 0 (Z.of_nat n).
Proof.
  intros Hl. assert (HP : l :: filter (fun i => i <> l) (seqZ 0 (Z.of_nat n)) ≡ₚ seqZ 0 (Z.of_nat n)).
  { apply NoDup_Permutation; [|apply NoDup_seqZ|].
    - apply NoDup_cons; split; [by intros [? _]%list_elem_of_filter|]. apply NoDup_filter, NoDup_seqZ.
    - intros x. rewrite elem_of_cons, list_elem_of_filter, elem_of_seqZ. destruct (decide (x = l)) as [->|]; naive_solver lia. }
  split; [|done]. apply Permutation_length in HP. simpl in HP. rewrite HP, length_seqZ. lia.
Qed.

(** [make_partition] isolates the leader. For an odd number of at least
    three servers it returns two groups that together hold every server exactly
    once; the first is a majority, and the leader is the last of the second, a
    minority. *)
Theorem make_partition_splits (m : nat) l (Hm : (1 <= m)%nat) (Hl : 0 <= l < Z.of_nat (2 * m + 1)) :
  exists p1 p2, make_partition (2 * m + 1) l = Some (p1, p2 ++ [l]) /\ p1 ++ p2 ++ [l] ≡ₚ seqZ 0 (Z.of_nat (2 * m + 1))
    /\ length p1 = S m /\ length (p2 ++ [l]) = m.
Proof.
  destruct (others_length (2 * m + 1) l Hl) as [Hlen HP]. set (others := filter (fun i => i <> l) (seqZ 0 (Z.of_nat (2 * m + 1)))) in *.
  assert (Hdiv : ((2 * m + 1) / 2 = m)%nat) by (rewrite Nat.mul_comm, Nat.div_add_l; simpl; lia).
  exists (take (S m) others), (drop (S m) others). unfold make_partition; rewrite Hdiv.
  pose proof (fillPartition_spec l (seqZ 0 (Z.of_nat (2 * m + 1))) [] [] (S m) m) as Hfill. fold others in Hfill.
  rewrite !app_nil_l in Hfill. change (len [] + len []) with 0 in Hfill.
  replace (m + 1)%nat with (S m) by lia. rewrite Hfill by (lia || auto). cbn [mbind option_bind].
  assert (Hd : length (drop (S m) others) = (m - 1)%nat) by (rewrite length_drop; lia).
  assert (Hlast : len (drop (S m) others ++ [0]) - 1 = len (drop (S m) others)) by (rewrite len_app; change (len [0]) with 1; lia).
  change [0] with (replicate 1 0) in *. rewrite Hlast, upd_fill, app_nil_r; cbn [mbind option_bind]. split_and!; [done| | |].
  - rewrite app_assoc, take_drop, <- HP. by rewrite Permutation_app_comm.
  - rewrite length_take. lia.
  - rewrite length_app, Hd. simpl; lia.
Qed.

Lemma make_partition_splits_witness :
  exists p1 p2, make_partition 5 2 = Some (p1, p2 ++ [2]) /\ p1 ++ p2 ++ [2] ≡ₚ seqZ 0 5 /\ length p1 = 3%nat.
Proof.
  destruct (make_partition_splits 2 2) as (p1 & p2 & H1 & H2 & H3 & _); [lia|simpl; lia|].
  exists p1, p2; split; [exact H1|]. split; [exact H2|exact H3].
Defined.

(** With four servers the second group has a slot too many, which keeps its
    zero: server 0 ends up in both groups. *)
Lemma make_partition_even : make_partition 4 2 = Some ([0; 1; 3], [0; 2]).
Proof. reflexivity. Qed.

(** The guard of the second loop of [disconnectUnlocked] is at the wrong index:
    while server 0 has not been started, disconnecting server 1 from server 2
    leaves what 2 sends to 1 enabled. *)
Definition ex_wires : wires :=
  mkWires (Enable (inr "2-1"%string) true MakeNetwork) 3
    [None; Some ["1-0"; "1-1"; "1-2"]%string; Some ["2-0"; "2-1"; "2-2"]%string].

Lemma disconnect_wrong_guard :
  exists w', disconnectUnlocked 1 [2] ex_wires = Some w' /\ linked w' 1 2 = false /\ linked w' 2 1 = true.
Proof. eexists; split; [vm_compute; reflexivity|]. split; vm_compute; reflexivity. Qed.

(** ** Randomised handles *)

Lemma swap_perm {A} (i j : Z) (sa : list A) : 0 <= i < len sa -> 0 <= j < len sa -> exists sa', swap i j sa = Some sa' /\ sa' ≡ₚ sa /\ len sa' = len sa.
Proof.
  intros Hi Hj. destruct (idx_in_range sa i Hi) as [x Hx], (idx_in_range sa j Hj) as [y Hy]. unfold swap; rewrite Hx, Hy; simpl.
  rewrite upd_ok by done; simpl. rewrite upd_ok by (unfold len in *; rewrite length_insert; lia).
  eexists; split; [done|]. split; [|unfold len; by rewrite !length_insert].
  unfold idx in Hx, Hy. case_if_in Hx; [|done]. case_if_in Hy; [|done].
  apply Permutation_insert_swap; done.
Qed.

Lemma random_handles_perm {A} (rands : Z -> Z) (kvh : list A) :
  (forall i, 0 <= i < len kvh -> 0 <= rands i <= i) ->
  exists sa, random_handles rands kvh = Some sa /\ sa ≡ₚ kvh.
Proof.
  intros Hr. destruct (loopM_total (fun i sa => swap i (rands i) sa) (fun sa => sa ≡ₚ kvh /\ len sa = len kvh) (seqZ 0 (len kvh)) kvh)
    as (sa & HR & HP & _); [|done|eauto].
  intros i sa Hi%elem_of_seqZ [HP HL]. destruct (swap_perm i (rands i) sa) as (sa' & Hsw & HP' & HL'); [lia|specialize (Hr i); lia|].
  exists sa'; split; [done|]. split; [by rewrite HP'|congruence].
Qed.
