(* ===== verification/KvLife.v ===== *)
(** * kvraft: servers of the test configuration, started and restarted

    What [StartServer], [ShutdownServer] and [make_config] of
    [kvraft/config.go] do when the names [randstring] returns are fresh: the
    servers run, the network links them, and a restarted server continues from
    what the one before it persisted. *)

From S2P Require Import Prelude GoFmt Gob RaftTypes RaftLog RaftPeer LabRpc.
From S2P Require Import Wiring KvServer KvConfig KvConfigFacts.

#[local] Open Scope Z_scope.

(** ** Fresh ends *)

Section ends.
Implicit Types (w : wires) (names : list string).

Lemma MakeEnd_fresh (e : Name) (rn : Network Name) :
  e ∉ ends rn -> exists rn', MakeEnd e rn = Some rn' /\ ends rn' = {[e]} ∪ ends rn /\ enabled rn' = <[e := false]> (enabled rn)
    /\ connections rn' = <[e := None]> (connections rn).
Proof. intros He; unfold MakeEnd; rewrite decide_False by done. by eexists. Qed.

(** An end: the server it is connected to, and whether it is enabled. *)
Definition endState w (e : string) : option (option Name) * bool :=
  (connections (kw_net w) !! inr e, isEnabled (kw_net w) (inr e)).

Lemma makeEnds_loop names xs : forall w,
  NoDup xs -> (forall j, j ∈ xs -> exists e, idx names j = Some e /\ inr e ∉ ends (kw_net w)) ->
  (forall j k e, idx names j = Some e -> idx names k = Some e -> j = k) ->
  exists w', loopM (fun j w => e ← idx names j;
      rn ← MakeEnd (inr e) (kw_net w); Some (set_kwnet (Connect (inr e) (inl j) rn) w)) xs w = Some w' /\ kshape w w'
    /\ (forall x, x ∈ ends (kw_net w') <-> x ∈ ends (kw_net w) \/ exists j e, j ∈ xs /\ idx names j = Some e /\ x = inr e)
    /\ (forall e, inr e ∈ ends (kw_net w) -> endState w' e = endState w e)
    /\ forall j e, j ∈ xs -> idx names j = Some e -> endState w' e = (Some (Some (inl j)), false).
Proof.
  induction xs as [|j xs IH]; cbn [loopM]; intros w Hnd Hxs Hinj.
  { exists w; split_and!; try done; [|by intros j e []%not_elem_of_nil].
    intros x; split; [by left|intros [?|(? & ? & []%not_elem_of_nil & _)]; done]. }
  apply NoDup_cons in Hnd as [Hj Hnd]. destruct (Hxs j) as (e & He & Hf); [by left|]. rewrite He; cbn [mbind option_bind].
  destruct (MakeEnd_fresh (inr e) (kw_net w) Hf) as (rn & -> & Er & Ea & Ec); cbn [mbind option_bind].
  set (w1 := set_kwnet (Connect (inr e) (inl j) rn) w).
  assert (Er1 : ends (kw_net w1) = {[inr e]} ∪ ends (kw_net w)) by exact Er.
  destruct (IH w1) as (w' & HR & Hs & He' & Hen & Hnew); [done| |done|].
  { intros k Hk. destruct (Hxs k) as (e' & He2 & Hf'); [by right|]. exists e'; split; [done|]. rewrite Er1.
    apply not_elem_of_union; split; [|done]. intros [= ->]%elem_of_singleton. by rewrite (Hinj _ _ _ He He2) in Hj. }
  assert (Hsame : forall e0, e0 <> e -> endState w1 e0 = endState w e0).
  { intros e0 Hne. unfold endState, isEnabled; simpl. rewrite Ec, Ea, !lookup_insert_ne by congruence. done. }
  exists w'; split; [exact HR|]. split; [done|]. rewrite Er1 in He', Hen. split_and!.
  - intros x; rewrite He', elem_of_union, elem_of_singleton. setoid_rewrite elem_of_cons. naive_solver.
  - intros e0 Hin. assert (e0 <> e) by (by intros ->). rewrite Hen by set_solver. by apply Hsame.
  - intros k e0 [->|Hk]%elem_of_cons He0; [|by apply Hnew]. rewrite He in He0; injection He0 as <-. rewrite Hen by set_solver.
    unfold endState, isEnabled; simpl. by rewrite Ea, !lookup_insert_eq.
Qed.

(** The names a [randstring] gives to the ends of one server. *)
Definition namesOf (n : nat) (randstring : Z -> string) : list string := randstring <$> seqZ 0 (Z.of_nat n).

Lemma namesOf_idx n randstring j e :
  idx (namesOf n randstring) j = Some e <-> 0 <= j < Z.of_nat n /\ e = randstring j.
Proof.
  unfold namesOf, idx. case_if; [|split; [done|lia]]. rewrite list_lookup_fmap.
  destruct (decide (j < Z.of_nat n)).
  - rewrite lookup_seqZ_lt by lia. simpl. split; [intros [= <-]; split; [lia|f_equal; lia]|intros [_ ->]; do 2 f_equal; lia].
  - rewrite lookup_seqZ_ge by lia. simpl; split; [done|lia].
Qed.

Lemma makeEnds_fresh (randstring : Z -> string) w :
  (forall j k, inRange w j -> inRange w k -> randstring j = randstring k -> j = k) ->
  (forall j, inRange w j -> inr (randstring j) ∉ ends (kw_net w)) ->
  exists w', makeEnds (namesOf (kw_n w) randstring) w = Some w' /\ kshape w w'
    /\ (forall x, x ∈ ends (kw_net w') <-> x ∈ ends (kw_net w) \/ exists j, inRange w j /\ x = inr (randstring j))
    /\ (forall e, inr e ∈ ends (kw_net w) -> endState w' e = endState w e)
    /\ forall j, inRange w j -> endState w' (randstring j) = (Some (Some (inl j)), false).
Proof.
  intros Hinj Hf. unfold makeEnds. destruct (makeEnds_loop (namesOf (kw_n w) randstring) (All w) w) as (w' & HR & Hs & He & Hen & Hnew).
  - apply NoDup_seqZ.
  - intros j Hj%elem_of_seqZ. exists (randstring j). rewrite namesOf_idx. split; [split; [lia|done]|apply Hf; unfold inRange; lia].
  - intros j k e [? ->]%namesOf_idx [? E]%namesOf_idx. apply Hinj; unfold inRange; auto.
  - exists w'; split_and!; try done.
    + intros x; rewrite He. unfold All; setoid_rewrite elem_of_seqZ; setoid_rewrite namesOf_idx. unfold inRange. naive_solver lia.
    + intros j Hj; unfold inRange in Hj. apply Hnew; [apply elem_of_seqZ; lia|by apply namesOf_idx].
Qed.
End ends.

(** ** One server *)

Section server.
Context {Srv : Type} `{!Tested Srv}.
Implicit Types cfg : kvconfig Srv.

(** The arrays of a configuration have a cell per server. *)
Definition sized cfg : Prop :=
  let n := Z.of_nat (kw_n (kc_wires cfg)) in
  len (kc_servers cfg) = n /\ len (kc_saved cfg) = n /\ len (kw_endnames (kc_wires cfg)) = n.

(** The names [randstring] is about to give are new. *)
Definition freshNames (randstring : Z -> string) w : Prop :=
  (forall j k, inRange w j -> inRange w k -> randstring j = randstring k -> j = k)
  /\ forall j, inRange w j -> inr (randstring j) ∉ ends (kw_net w).

(** The persister [StartServer i] hands to the new server. *)
Definition handed (s : option Persister) : Persister := match s with Some p => Copy p | None => MakePersister end.

Lemma StartServer_ok cfg i randstring srv now s kv :
  sized cfg -> inRange (kc_wires cfg) i -> freshNames randstring (kc_wires cfg) -> ksavedNow cfg i = Some s ->
  startSrv (kw_n (kc_wires cfg)) i (handed s) (kc_maxraftstate cfg) now = Some kv ->
  exists cfg', StartServer i randstring srv now cfg = Some cfg'
    /\ kw_n (kc_wires cfg') = kw_n (kc_wires cfg) /\ kc_maxraftstate cfg' = kc_maxraftstate cfg
    /\ kc_servers cfg' = <[Z.to_nat i := Some kv]> (kc_servers cfg)
    /\ kc_saved cfg' = <[Z.to_nat i := Some (handed s)]> (kc_saved cfg)
    /\ kw_endnames (kc_wires cfg') = <[Z.to_nat i := Some (namesOf (kw_n (kc_wires cfg)) randstring)]> (kw_endnames (kc_wires cfg))
    /\ forall x, x ∈ ends (kw_net (kc_wires cfg')) <->
         x ∈ ends (kw_net (kc_wires cfg)) \/ exists j, inRange (kc_wires cfg) j /\ x = inr (randstring j).
Proof.
  intros (Hl1 & Hl2 & Hl3) Hi [Hinj Hf] Hsv Hst. unfold inRange in Hi. unfold StartServer, onWires.
  rewrite upd_ok by lia; cbn [mbind option_bind].
  change (randstring <$> All (kc_wires cfg)) with (namesOf (kw_n (kc_wires cfg)) randstring).
  destruct (makeEnds_fresh randstring (set_kwends (<[Z.to_nat i := Some (namesOf (kw_n (kc_wires cfg)) randstring)]>
    (kw_endnames (kc_wires cfg))) (kc_wires cfg)) Hinj Hf) as (w' & HR & [En Ee] & Hends & _ & _).
  simpl in HR, En, Ee, Hends. rewrite HR; cbn [mbind option_bind]. unfold ksavedNow in Hsv |- *; simpl. rewrite Hsv; cbn [mbind option_bind].
  change (match s with Some p => Copy p | None => MakePersister end) with (handed s).
  rewrite upd_ok by (simpl; lia); cbn [mbind option_bind].
  cbn [kc_wires set_kwires set_ksaved kc_maxraftstate]. rewrite En, Hst; cbn [mbind option_bind]. rewrite upd_ok by (simpl; lia).
  eexists; split; [reflexivity|]. simpl. rewrite En, Ee. split_and!; try done.
Qed.
End server.

(** ** All servers *)

Lemma ConnectAll_links w :
  named w -> exists w', ConnectAll w = Some w' /\ kshape w w' /\ forall x y, inRange w x -> inRange w y -> linked w' x y = true.
Proof.
  intros Hn. assert (Hgen : forall xs w0, kshape w w0 -> (forall i, i ∈ xs -> inRange w i) ->
    exists w', loopM (fun i w => connectUnlocked i (All w) w) xs w0 = Some w' /\ kshape w w'
      /\ forall x y, inRange w x -> inRange w y -> x ∈ xs \/ linked w0 x y = true -> linked w' x y = true).
  { induction xs as [|i xs IH]; cbn [loopM]; intros w0 Hs Hxs.
    { exists w0; split_and!; [done|done|]. intros x y _ _ [[]%not_elem_of_nil|?]; done. }
    pose proof Hs as [En _]. assert (Hall : forall t, t ∈ All w0 <-> inRange w t) by (intros t; unfold All, inRange; rewrite elem_of_seqZ, En; lia).
    destruct (connectUnlocked_links i (All w0) w0) as (w1 & -> & Hs1 & Hl1); unfold inRange in *; rewrite ?En; try done.
    { by eapply named_shape. } { apply Hxs; by left. } { intros t; by rewrite Hall. }
    cbn [mbind option_bind]. destruct (IH w1) as (w' & HR & Hs' & Hl'); [by eapply kshape_trans|intros; apply Hxs; by right|].
    exists w'; split_and!; [done|done|]. intros x y Hx Hy Hor. apply Hl'; [done|done|].
    rewrite Hl1 by (rewrite ?En; done). destruct Hor as [[->|?]%elem_of_cons|E]; [|by left|rewrite E, orb_true_r; by right].
    right. apply orb_true_iff; left. apply touches_spec; left. split; [done|]. by apply Hall. }
  destruct (Hgen (All w) w) as (w' & HR & Hs & Hl); [done|by intros i ?%elem_of_seqZ; unfold inRange; lia|].
  exists w'; split_and!; [exact HR|done|]. intros x y Hx Hy; apply Hl; [done|done|]. left. apply elem_of_seqZ. unfold inRange in Hx; lia.
Qed.

Section all.
Context {Srv : Type} `{!Tested Srv}.
Implicit Types cfg : kvconfig Srv.

(** The names of all ends differ. *)
Definition distinct (n : nat) (randstring : Z -> Z -> string) : Prop :=
  forall i j i' j', 0 <= i < Z.of_nat n -> 0 <= j < Z.of_nat n -> 0 <= i' < Z.of_nat n -> 0 <= j' < Z.of_nat n ->
    randstring i j = randstring i' j' -> i = i' /\ j = j'.

(** The configuration once the first [k] servers have been started. *)
Record started (n : nat) randstring maxraft now (k : Z) cfg : Prop := {
  st_n : kw_n (kc_wires cfg) = n;
  st_max : kc_maxraftstate cfg = maxraft;
  st_sized : sized cfg;
  st_done : forall i, 0 <= i < k ->
    (exists kv, startSrv n i MakePersister maxraft now = Some kv /\ idx (kc_servers cfg) i = Some (Some kv))
    /\ idx (kc_saved cfg) i = Some (Some MakePersister)
    /\ idx (kw_endnames (kc_wires cfg)) i = Some (Some (namesOf n (randstring i)));
  st_todo : forall i, k <= i < Z.of_nat n -> idx (kc_servers cfg) i = Some None /\ idx (kc_saved cfg) i = Some None;
  st_ends : forall x, x ∈ ends (kw_net (kc_wires cfg)) <->
    exists i j, 0 <= i < k /\ 0 <= j < Z.of_nat n /\ x = inr (randstring i j);
}.

Lemma idx_insert {A} (l : list A) i j x :
  0 <= i < len l -> 0 <= j -> idx (<[Z.to_nat i := x]> l) j = if decide (i = j) then Some x else idx l j.
Proof.
  intros Hi Hj. pose proof (upd_ok l i x Hi) as Hu. destruct (decide (i = j)) as [<-|Hne].
  - by eapply idx_upd_eq. - by eapply idx_upd_ne.
Qed.

Lemma started_step n randstring maxraft now k cfg :
  distinct n randstring -> 0 <= k < Z.of_nat n -> (exists kv, startSrv n k MakePersister maxraft now = Some kv) ->
  started n randstring maxraft now k cfg ->
  exists cfg', StartServer k (randstring k) (Z.to_nat k) now cfg = Some cfg' /\ started n randstring maxraft now (k + 1) cfg'.
Proof.
  intros Hd Hk [kv Hkv] [En Em Hsz Hdone Htodo Hends]. destruct (Htodo k) as [Hs1 Hs2]; [lia|].
  destruct (StartServer_ok cfg k (randstring k) (Z.to_nat k) now None kv) as (cfg' & HR & En' & Em' & Es & Ep & Ee & Hx).
  - done. - unfold inRange; lia.
  - split; unfold inRange; rewrite En.
    + intros j l Hj Hl E. by destruct (Hd k j k l).
    + intros j Hj (i & j' & Hi & Hj' & [= E])%Hends. destruct (Hd k j i j') as [-> _]; [lia..|done|lia].
  - unfold ksavedNow. by rewrite Hs2, Hs1.
  - by rewrite En, Em.
  - exists cfg'; split; [exact HR|]. destruct Hsz as (L1 & L2 & L3). rewrite En in L1, L2, L3, En', Ee.
    split; rewrite ?En', ?Em', ?Es, ?Ep, ?Ee; try done.
    + split_and!; rewrite ?En', ?Es, ?Ep, ?Ee; unfold len in *; rewrite length_insert; done.
    + intros i Hi. rewrite !idx_insert by lia. case_decide as Hc; [subst i; eauto|]. apply Hdone; lia.
    + intros i Hi. rewrite !idx_insert by lia. rewrite !decide_False by lia. apply Htodo; lia.
    + intros x; rewrite Hx, Hends; unfold inRange; rewrite En. split.
      * intros [(i & j & Hi & Hj & ->)|(j & Hj & ->)]; [exists i, j|exists k, j]; split_and!; try done; lia.
      * intros (i & j & Hi & Hj & ->). destruct (decide (i = k)) as [->|]; [right; eauto|left; exists i, j; split_and!; try done; lia].
Qed.

Lemma started_all n randstring maxraft now m : forall k cfg,
  distinct n randstring -> (forall i, 0 <= i < Z.of_nat n -> exists kv, startSrv n i MakePersister maxraft now = Some kv) ->
  0 <= k -> k + Z.of_nat m = Z.of_nat n -> started n randstring maxraft now k cfg ->
  exists cfg', loopM (fun i cfg => StartServer i (randstring i) (Z.to_nat i) now cfg) (seqZ k (Z.of_nat m)) cfg = Some cfg'
    /\ started n randstring maxraft now (Z.of_nat n) cfg'.
Proof.
  induction m as [|m IH]; intros k cfg Hd Hst Hk Hm Hs.
  { exists cfg; split; [done|]. by replace (Z.of_nat n) with k by lia. }
  rewrite seqZ_cons by lia; cbn [loopM].
  destruct (started_step n randstring maxraft now k cfg) as (cfg1 & -> & Hs1); [done|lia|apply Hst; lia|done|].
  cbn [mbind option_bind]. replace (Z.succ k) with (k + 1) by lia. replace (Z.pred (Z.of_nat (S m))) with (Z.of_nat m) by lia.
  apply IH; try done; lia.
Qed.

Lemma started_at n randstring maxraft now cfg i j e :
  started n randstring maxraft now (Z.of_nat n) cfg ->
  endAt (kc_wires cfg) i j = Some e <-> 0 <= i < Z.of_nat n /\ 0 <= j < Z.of_nat n /\ e = randstring i j.
Proof.
  intros [En _ (_ & _ & L3) Hdone _ _]. rewrite En in L3. unfold endAt. destruct (decide (0 <= i < Z.of_nat n)) as [Hi|Hi].
  - destruct (Hdone i Hi) as (_ & _ & ->); cbn [mbind option_bind]. rewrite namesOf_idx. tauto.
  - rewrite idx_None by lia. split; [done|lia].
Qed.

Lemma started_named n randstring maxraft now cfg :
  distinct n randstring -> started n randstring maxraft now (Z.of_nat n) cfg -> named (kc_wires cfg).
Proof.
  intros Hd Hs. split; unfold inRange; rewrite ?(st_n _ _ _ _ _ _ Hs).
  - intros i j Hi Hj. exists (randstring i j). by apply (started_at _ _ _ _ _ _ _ _ Hs).
  - intros i j i' j' e He He'. apply (started_at _ _ _ _ _ _ _ _ Hs) in He as (Hi & Hj & ->), He' as (Hi' & Hj' & E).
    by apply (Hd i j i' j').
Qed.
End all.

(** ** The key/value service under test *)

Lemma start_fresh (n : nat) i maxraft now :
  exists rf, boot n i now = Some rf
    /\ startSrv n i MakePersister maxraft now = Some (StartKVServer MakePersister maxraft, rf : Raft Op).
Proof. eexists; split; reflexivity. Qed.

Lemma switch_ends_loop (b : bool) f (xs : list Z) w w' :
  (forall x w w', f x w = Some w' -> w' = w \/ exists e, w' = switch e b w) -> loopM f xs w = Some w' ->
  ends (kw_net w') = ends (kw_net w).
Proof.
  intros Hf; apply (loopM_inv f (fun u => ends (kw_net u) = ends (kw_net w))); [|done].
  intros x u u' _ Hu [->|[e ->]]%Hf; done.
Qed.

Lemma disconnectUnlocked_ends i s w w' : disconnectUnlocked i s w = Some w' -> ends (kw_net w') = ends (kw_net w).
Proof.
  unfold disconnectUnlocked; intros H; inv_opt. etrans; [eapply (switch_ends_loop false); [|eassumption]|eapply (switch_ends_loop false); [|eassumption]].
  all: intros ? u u' HR; simpl in HR; inv_opt; repeat (case_match; inv_opt); eauto.
Qed.

Lemma ConnectAll_ends w w' : ConnectAll w = Some w' -> ends (kw_net w') = ends (kw_net w).
Proof.
  unfold ConnectAll; apply (loopM_inv _ (fun u => ends (kw_net u) = ends (kw_net w))); [|done].
  intros i u u' _ Hu H. unfold connectUnlocked in H; inv_opt. rewrite <- Hu.
  etrans; [eapply (switch_ends_loop true); [|eassumption]|eapply (switch_ends_loop true); [|eassumption]].
  all: intros ? v v' HR; simpl in HR; inv_opt; eauto.
Qed.

Lemma make_config_spec (n : nat) unreliable maxraft randstring now :
  distinct n randstring ->
  exists cfg : kvconfig KvRaft.Server, make_config n unreliable maxraft randstring now = Some cfg
    /\ started n randstring maxraft now (Z.of_nat n) cfg /\ reliable (kw_net (kc_wires cfg)) = negb unreliable
    /\ forall x y, 0 <= x < Z.of_nat n -> 0 <= y < Z.of_nat n -> linked (kc_wires cfg) x y = true.
Proof.
  intros Hd. set (cfg0 := mkKvConfig (Srv := KvRaft.Server) (mkWires MakeNetwork n (replicate n None)) (replicate n None)
    (replicate n None) ∅ (Z.of_nat n + 1000) maxraft now 0 0 0).
  destruct (started_all n randstring maxraft now n 0 cfg0) as (cfg1 & HR1 & Hs1); [done| |lia|lia| |].
  { intros i _. destruct (start_fresh n i maxraft now) as (rf & _ & ?); eauto. }
  { split; try done.
    - split_and!; simpl; unfold len; by rewrite length_replicate.
    - intros i Hi; lia.
    - intros i Hi. unfold idx; case_if; [|lia]. simpl. by rewrite !lookup_replicate_2 by lia.
    - intros x; split; [by intros ?%elem_of_empty|]. intros (i & _ & Hi & _); lia. }
  pose proof (started_named _ _ _ _ _ Hd Hs1) as Hnam. destruct Hs1 as [En Em Hsz Hdone Htodo Hends].
  destruct (ConnectAll_links (kc_wires cfg1) Hnam) as (w & HR2 & Hs & Hl). pose proof Hs as [Ew Ee].
  exists (set_kwires (set_kwnet (Reliable (negb unreliable) (kw_net w)) w) (set_kwires w cfg1)). split_and!.
  - unfold make_config, All; cbn [kw_n]. fold cfg0. rewrite HR1; cbn [mbind option_bind].
    unfold onWires. by rewrite HR2.
  - split; simpl; try done.
    + by rewrite Ew.
    + unfold sized in *; simpl. by rewrite Ew, Ee.
    + intros i Hi; rewrite Ee; by apply Hdone.
    + intros x; rewrite (ConnectAll_ends _ _ HR2); apply Hends.
  - done.
  - intros x y Hx Hy. apply (Hl x y); unfold inRange; by rewrite En.
Qed.

(** What a test starts from. With names that do not collide,
    [make_config] of kvraft returns a configuration in which every server runs
    from an empty persister, its Raft peer freshly booted, and the network
    forwards everything every server sends to every server. *)
Theorem make_config_connects (n : nat) unreliable maxraft randstring now (Hd : distinct n randstring) :
  exists cfg : kvconfig KvRaft.Server, make_config n unreliable maxraft randstring now = Some cfg
    /\ named (kc_wires cfg) /\ kw_n (kc_wires cfg) = n
    /\ reliable (kw_net (kc_wires cfg)) = negb unreliable
    /\ (forall i, 0 <= i < Z.of_nat n -> idx (kc_saved cfg) i = Some (Some MakePersister)
        /\ exists rf, boot n i now = Some rf /\ idx (kc_servers cfg) i = Some (Some (StartKVServer MakePersister maxraft, rf)))
    /\ forall x y, 0 <= x < Z.of_nat n -> 0 <= y < Z.of_nat n -> linked (kc_wires cfg) x y = true.
Proof.
  destruct (make_config_spec n unreliable maxraft randstring now Hd) as (cfg & HR & Hs & Hrel & Hl).
  exists cfg; split_and!; try done.
  - by eapply started_named.
  - by apply (st_n _ _ _ _ _ _ Hs).
  - intros i Hi. destruct (st_done _ _ _ _ _ _ Hs i Hi) as ((kv & Hkv & Hs') & Hsv & _). split; [done|].
    destruct (start_fresh n i maxraft now) as (rf & Hb & E). rewrite E in Hkv. injection Hkv as <-. eauto.
Qed.

(** Names that do not collide. *)
Definition ex_names (i j : Z) : string := pretty (10 * i + j).

Lemma ex_names_distinct : distinct 3 ex_names.
Proof. intros i j k l Hi Hj Hk Hl E; unfold ex_names in E. apply (inj pretty) in E. lia. Qed.

Lemma make_config_connects_witness :
  distinct 3 ex_names /\ exists cfg : kvconfig KvRaft.Server, make_config 3 true (-1) ex_names 0 = Some cfg
    /\ linked (kc_wires cfg) 0 2 = true.
Proof.
  split; [exact ex_names_distinct|].
  destruct (make_config_connects 3 true (-1) ex_names 0 ex_names_distinct) as (cfg & HR & _ & _ & _ & _ & Hl).
  exists cfg; split; [exact HR|]. apply Hl; simpl; lia.
Defined.

Lemma ShutdownServer_ok cfg i kv p :
  named (kc_wires cfg) -> sized cfg -> inRange (kc_wires cfg) i ->
  idx (kc_servers cfg) i = Some (Some kv) -> idx (kc_saved cfg) i = Some (Some p) ->
  exists cfg', ShutdownServer i cfg = Some cfg' /\ sized cfg' /\ kshape (kc_wires cfg) (kc_wires cfg')
    /\ kc_maxraftstate cfg' = kc_maxraftstate cfg /\ ends (kw_net (kc_wires cfg')) = ends (kw_net (kc_wires cfg))
    /\ kc_servers cfg' = <[Z.to_nat i := None]> (kc_servers cfg)
    /\ idx (kc_saved cfg') i = Some (Some (persister kv.2))
    /\ serverOf (kw_net (kc_wires cfg')) (inl i) = None
    /\ (forall x, inRange (kc_wires cfg) x -> linked (kc_wires cfg') i x = false /\ linked (kc_wires cfg') x i = false)
    /\ forall x y, inRange (kc_wires cfg) x -> inRange (kc_wires cfg) y -> x <> i -> y <> i ->
         linked (kc_wires cfg') x y = linked (kc_wires cfg) x y.
Proof.
  intros Hn (L1 & L2 & L3) Hi Hkv Hp.
  assert (Hall : forall t, t ∈ All (kc_wires cfg) <-> inRange (kc_wires cfg) t) by (intros t; unfold All, inRange; rewrite elem_of_seqZ; lia).
  destruct (disconnectUnlocked_links i (All (kc_wires cfg)) (kc_wires cfg) Hn Hi) as (w & HR & Hs & Hl); [by intros t ?%Hall|unfold All, len; rewrite length_seqZ; lia|].
  unfold ShutdownServer, onWires. rewrite HR; cbn [mbind option_bind].
  unfold inRange in Hi. unfold ksavedNow; simpl. rewrite Hp, Hkv; cbn [mbind option_bind fmap option_fmap option_map].
  rewrite upd_ok by lia; cbn [mbind option_bind]; simpl. rewrite upd_ok by lia; cbn [mbind option_bind].
  pose proof Hs as [En Ee]. eexists; split; [reflexivity|]; simpl. split_and!; try done.
  - split_and!; simpl; rewrite ?En, ?Ee; unfold len in *; rewrite ?length_insert; done.
  - by eapply disconnectUnlocked_ends.
  - rewrite idx_insert by lia. rewrite decide_True by done. unfold Copy. by destruct (persister kv.2).
  - unfold serverOf; simpl. by rewrite lookup_insert_eq.
  - intros x Hx. split; (etrans; [apply (Hl _ _)|]; try done); apply andb_false_iff; left; apply negb_false_iff, touches_spec;
      [left|right]; (split; [done|]); by apply Hall.
  - intros x y Hx Hy Hxi Hyi. etrans; [apply (Hl _ _); done|]. destruct (touches _ x y i) eqn:E; [|done].
    apply touches_spec in E as [[? _]|[? _]]; done.
Qed.

(** C38: restart. Shutting down a running server cuts it off from every server,
    and starting it again, with names not in use, gives a server built from the
    snapshot the old one last saved, whose Raft peer has the term, the vote, the
    log and the snapshot the old peer had; the other servers are not touched. *)
Theorem restart_resumes (cfg : kvconfig KvRaft.Server) i kv rf p randstring srv now
    (Hn : named (kc_wires cfg)) (Hsz : sized cfg) (Hi : inRange (kc_wires cfg) i)
    (Hkv : idx (kc_servers cfg) i = Some (Some (kv, rf))) (Hp : idx (kc_saved cfg) i = Some (Some p))
    (Hpeers : peers rf = kw_n (kc_wires cfg)) (Hme : me rf = i) (Hd : durable rf)
    (Hfresh : freshNames randstring (kc_wires cfg)) :
  exists cfg1 cfg2 rf', ShutdownServer i cfg = Some cfg1
    /\ (forall x, inRange (kc_wires cfg) x -> linked (kc_wires cfg1) i x = false /\ linked (kc_wires cfg1) x i = false)
    /\ StartServer i randstring srv now cfg1 = Some cfg2
    /\ idx (kc_servers cfg2) i = Some (Some (StartKVServer (persister rf) (kc_maxraftstate cfg), rf'))
    /\ persistent rf' = persistent rf /\ state rf' = Follower
    /\ forall j, 0 <= j -> j <> i -> idx (kc_servers cfg2) j = idx (kc_servers cfg) j.
Proof.
  destruct (ShutdownServer_ok cfg i (kv, rf) p) as (cfg1 & HR1 & Hsz1 & Hs1 & Em & Hends & Es & Ep & _ & Hcut & _); try done.
  pose proof Hs1 as [En1 _]. pose proof Hsz as (L1 & _). unfold inRange in Hi.
  destruct (restart_durable now rf Hd) as (rf' & Hr & Hper & _ & _ & _ & Hst & _).
  destruct (StartServer_ok cfg1 i randstring srv now (Some (persister rf)) (StartKVServer (persister rf) (kc_maxraftstate cfg), rf'))
    as (cfg2 & HR2 & _ & _ & Es2 & _); unfold inRange, freshNames in *; rewrite ?En1, ?Hends; try done.
  { unfold inRange in *; setoid_rewrite En1. exact Hfresh. }
  { unfold ksavedNow. rewrite Ep; cbn [mbind option_bind]. rewrite Es, idx_insert by lia. by rewrite decide_True. }
  { unfold handed. rewrite Em. simpl. unfold restart in Hr. rewrite Hpeers, Hme in Hr. rewrite Hr; cbn [mbind option_bind].
    by destruct (persister rf). }
  exists cfg1, cfg2, rf'. split_and!; try done.
  - rewrite Es2, Es, idx_insert by (unfold len; rewrite ?length_insert; unfold len in L1; lia). by rewrite decide_True.
  - intros j Hj Hne. rewrite Es2, Es, !idx_insert by (unfold len; rewrite ?length_insert; unfold len in L1; lia).
    by rewrite !decide_False by done.
Qed.

Definition ex_again (j : Z) : string := pretty (100 + j).

Lemma ex_again_fresh cfg : started (Srv := KvRaft.Server) 3 ex_names (-1) 0 3 cfg -> freshNames ex_again (kc_wires cfg).
Proof.
  intros [En _ _ _ _ Hends]. split.
  - intros j k _ _ Hjk. unfold ex_again in Hjk. apply (inj pretty) in Hjk. lia.
  - intros j Hj (x & y & Hx & Hy & Heq)%Hends. unfold ex_names, ex_again in Heq. injection Heq as Heq. apply (inj pretty) in Heq.
    unfold inRange in Hj; lia.
Qed.

Lemma restart_resumes_witness :
  exists (cfg cfg1 cfg2 : kvconfig KvRaft.Server) rf', make_config 3 false (-1) ex_names 0 = Some cfg
    /\ ShutdownServer 1 cfg = Some cfg1 /\ StartServer 1 ex_again 7 5 cfg1 = Some cfg2
    /\ idx (kc_servers cfg2) 1 = Some (Some (StartKVServer MakePersister (-1), rf')).
Proof.
  destruct (make_config_spec 3 false (-1) ex_names 0 ex_names_distinct) as (cfg & HR & Hs & _ & _).
  pose proof (started_named _ _ _ _ _ ex_names_distinct Hs) as Hn. pose proof (ex_again_fresh cfg Hs) as Hf.
  destruct Hs as [En Em Hsz Hdone _ _]. destruct (Hdone 1) as ((kv & Hkv & Hi) & Hp & _); [simpl; lia|].
  destruct (start_fresh 3 1 (-1) 0) as (rf & Hb & E). pose proof (boot_durable _ _ _ _ Hb) as Hd.
  rewrite E in Hkv. injection Hkv as Ekv; subst kv. assert (Hpeers : peers rf = 3%nat /\ me rf = 1 /\ persister rf = MakePersister).
  { unfold boot, Make in Hb; simpl in Hb. injection Hb as <-. auto. }
  destruct Hpeers as (Hpe & Hme & Hps).
  assert (Hr : inRange (kc_wires cfg) 1) by (unfold inRange; rewrite En; simpl; lia).
  rewrite <- En in Hpe.
  destruct (restart_resumes cfg 1 _ rf _ ex_again 7 5 Hn Hsz Hr Hi Hp Hpe Hme Hd Hf) as (cfg1 & cfg2 & rf' & H1 & _ & H2 & H3 & _).
  rewrite Em, Hps in H3. exists cfg, cfg1, cfg2, rf'. split; [exact HR|split; [exact H1|split; [exact H2|exact H3]]].
Defined.

(** ** Clients *)

Lemma switchClient_states names (to : list Z) w :
  (forall t, t ∈ to -> exists e, idx names t = Some e) -> 
  exists w', switchClient names true to w = Some w' /\ kshape w w' /\ connections (kw_net w') = connections (kw_net w)
    /\ forall e, isEnabled (kw_net w') (inr e)
         = if bool_decide (Exists (fun j => idx names j = Some e) to) then true else isEnabled (kw_net w) (inr e).
Proof.
  intros Hto. unfold switchClient.
  destruct (named_loop true (idx names) (fun t w => e ← idx names t; Some (switch e true w)) to w) as (w' & HR & Hs & He).
  { intros j w1 Hj _. destruct (Hto j Hj) as [e ->]. by exists e. }
  exists w'; split_and!; try done. revert HR. apply (loopM_inv _ (fun u => connections (kw_net u) = connections (kw_net w))); [|done].
  intros x u u' _ Hu H; inv_opt; done.
Qed.

(** A client. With names not in use, [makeClient] returns a clerk for all
    the servers, in some order, and each of its ends is connected to the server
    of its index and enabled exactly if that server is among those asked for;
    what the servers send each other is not affected. *)
Theorem makeClient_connects (cfg : kvconfig KvRaft.Server) ck randstring rands nrand to
    (Hfresh : freshNames randstring (kc_wires cfg)) (Hto : forall t, t ∈ to -> inRange (kc_wires cfg) t)
    (Hr : forall i, inRange (kc_wires cfg) i -> 0 <= rands i <= i)
    (Hold : forall i j e, endAt (kc_wires cfg) i j = Some e -> inr e ∈ ends (kw_net (kc_wires cfg))) :
  let n := kw_n (kc_wires cfg) in
  exists handles cfg', makeClient ck randstring rands to cfg = Some (handles, cfg')
    /\ KvRaft.newClerk ck randstring rands nrand to cfg = Some (KvClerk.MakeClerk n nrand, cfg')
    /\ handles ≡ₚ namesOf n randstring /\ kc_clerks cfg' !! ck = Some (namesOf n randstring)
    /\ (forall j, inRange (kc_wires cfg) j ->
          endState (kc_wires cfg') (randstring j) = (Some (Some (inl j)), bool_decide (j ∈ to)))
    /\ forall x y, linked (kc_wires cfg') x y = linked (kc_wires cfg) x y.
Proof.
  intros n; unfold n. pose proof Hfresh as [Hinj Hf].
  destruct (makeEnds_fresh randstring (kc_wires cfg) Hinj Hf) as (w & HR & Hs & Hends & Hen & Hnew). pose proof Hs as [En _].
  destruct (random_handles_perm rands (namesOf (kw_n (kc_wires cfg)) randstring)) as (handles & Hh & HP).
  { intros i Hi. apply Hr. unfold inRange. unfold len, namesOf in Hi. rewrite length_fmap, length_seqZ in Hi. lia. }
  destruct (switchClient_states (namesOf (kw_n (kc_wires cfg)) randstring) to w) as (w' & HR' & Hs' & Hc & He).
  { intros t Ht%Hto. exists (randstring t). by apply namesOf_idx. }
  assert (Hmk : exists cfg', makeClient ck randstring rands to cfg = Some (handles, cfg') /\ kc_wires cfg' = w'
    /\ kc_clerks cfg' !! ck = Some (namesOf (kw_n (kc_wires cfg)) randstring)).
  { unfold makeClient, onWires. change (randstring <$> All (kc_wires cfg)) with (namesOf (kw_n (kc_wires cfg)) randstring).
    rewrite HR; cbn [mbind option_bind]. rewrite Hh; cbn [mbind option_bind]. unfold connectClient, onWires; simpl.
    rewrite lookup_insert_eq; simpl. rewrite HR'; cbn [mbind option_bind]. eexists; split; [reflexivity|]. split; [done|].
    simpl. by rewrite lookup_insert_eq. }
  destruct Hmk as (cfg' & Hmk & Hw & Hck). exists handles, cfg'. rewrite Hw. split_and!; try done.
  - unfold KvRaft.newClerk. rewrite Hmk; cbn [mbind option_bind]. rewrite HP. unfold namesOf. by rewrite length_fmap, length_seqZ, Nat2Z.id.
  - intros j Hj. unfold endState. rewrite He, Hc. specialize (Hnew j Hj). unfold endState in Hnew. injection Hnew as -> ->. f_equal.
    rewrite (bool_decide_ext _ (j ∈ to)); [by case_bool_decide|]. rewrite Exists_exists; split.
    + intros (k & Hk & [Hkr Heq]%namesOf_idx). by rewrite (Hinj j k Hj Hkr Heq).
    + intros Hin. exists j; split; [done|]. by apply namesOf_idx.
  - intros x y. unfold linked. rewrite (kshape_endAt (kc_wires cfg) w') by (by eapply kshape_trans).
    destruct (endAt (kc_wires cfg) x y) as [e|] eqn:E; [|done]. specialize (Hen e (Hold _ _ _ E)). unfold endState in Hen.
    injection Hen as _ Hen. rewrite He, <- Hen. rewrite bool_decide_eq_false_2; [done|].
    rewrite Exists_exists. intros (k & Hk & [Hkr ->]%namesOf_idx). eapply Hf; [exact Hkr|]. by eapply Hold.
Qed.

Lemma two_in : 2 ∈ [0; 2].
Proof. set_solver. Qed.
Lemma one_out : 1 ∉ [0; 2].
Proof. set_solver. Qed.

Lemma makeClient_connects_witness :
  exists (cfg cfg' : kvconfig KvRaft.Server) handles, make_config 3 false (-1) ex_names 0 = Some cfg
    /\ makeClient 0 ex_again (fun i => i / 2) [0; 2] cfg = Some (handles, cfg')
    /\ endState (kc_wires cfg') (ex_again 2) = (Some (Some (inl 2)), true)
    /\ endState (kc_wires cfg') (ex_again 1) = (Some (Some (inl 1)), false).
Proof.
  destruct (make_config_spec 3 false (-1) ex_names 0 ex_names_distinct) as (cfg & HR & Hs & _ & _).
  pose proof (ex_again_fresh cfg Hs) as Hf. pose proof (st_n _ _ _ _ _ _ Hs) as En.
  assert (Hin : forall i, inRange (kc_wires cfg) i <-> 0 <= i < 3) by (intros i; unfold inRange; rewrite En; done).
  destruct (makeClient_connects cfg 0 ex_again (fun i => i / 2) 5 [0; 2] Hf) as (handles & cfg' & H1 & _ & _ & _ & H2 & _).
  - intros t Ht. apply Hin. clear - Ht. set_unfold; lia.
  - intros i Hi%Hin. destruct (below_3 i Hi) as [->|[->| ->]]; vm_compute; split; discriminate.
  - intros i j e He. apply (started_at _ _ _ _ _ _ _ _ Hs) in He as (Hi & Hj & ->). apply (st_ends _ _ _ _ _ _ Hs). exists i, j. exact (conj Hi (conj Hj eq_refl)).
  - exists cfg, cfg', handles. split; [exact HR|]. split; [exact H1|].
    pose proof (H2 2 (proj2 (Hin 2) ltac:(lia))) as E2. pose proof (H2 1 (proj2 (Hin 1) ltac:(lia))) as E1.
    rewrite bool_decide_eq_true_2 in E2 by exact two_in. rewrite bool_decide_eq_false_2 in E1 by exact one_out. split; [exact E2|exact E1].
Defined.
