(* ===== verification/ShardConfig.v ===== *)
(** * shardkv: the server and the test configuration

    Models [shardkv/server.go], whose handlers are empty in this repository, and
    [shardkv/config.go]: three shard controllers, three groups of servers, the
    clerks and the ends that connect them.

    The conventions are those of [KvConfig]: what [randstring] returns is an
    argument, a server runs with the persister [saved[i]] points to, a clerk is
    known by its address, [None] is a panic or [t.Fatal]. The servers have
    names here, so names are strings; an end is known by its name. *)

From S2P Require Import Prelude GoFmt Gob RaftTypes RaftLog LabRpc ShardClerk.
From S2P Require Import CtrlerConfig.

#[local] Open Scope string_scope.
#[local] Open Scope list_scope.
#[local] Open Scope Z_scope.

(** ** [shardkv/server.go] *)

(** [Op] has no fields, like the controller's. *)
Notation Op := Ctrler.Op.

Record ShardKV : Type := mkShardKV {
  s_me : Z;
  s_rf : Raft Op;
  s_gid : Z;
  s_ctrlers : list string;
  s_maxraftstate : Z;
}.

Definition Kill (kv : ShardKV) : ShardKV :=
  mkShardKV (s_me kv) (RaftLog.Kill (s_rf kv)) (s_gid kv) (s_ctrlers kv) (s_maxraftstate kv).

(** [make_end] is [makeEnd] below for every server. *)
Definition startShardKV (servers : list string) (me : Z) (p : Persister) (maxraft gid : Z) (ctrlers : list string) (now : Z)
    : option ShardKV :=
  rf ← Make (length servers) me p now; Some (mkShardKV me rf gid ctrlers maxraft).

(** ** The configuration *)

Record group : Type := mkGroup {
  g_gid : Z;
  g_servers : list (option ShardKV);
  g_saved : list (option Persister);
  g_endnames : list (list string);      (* a nil slice reads as an empty one *)
  g_mendnames : list (list string);
}.

Record config : Type := mkSConfig {
  sg_net : Network string;
  sg_start : Z;
  sg_nctrlers : nat;
  sg_ctrlerservers : list (option Ctrler.ShardCtrler);
  sg_mck : option ShardCtrler.Clerk;
  sg_ngroups : nat;
  sg_n : nat;
  sg_groups : list (option group);
  sg_clerks : gmap nat (list string);
  sg_nextClientId : Z;
  sg_maxraftstate : Z;
}.
Implicit Types (cfg : config) (gg : group).

Definition set_snet rn cfg : config :=
  mkSConfig rn (sg_start cfg) (sg_nctrlers cfg) (sg_ctrlerservers cfg) (sg_mck cfg) (sg_ngroups cfg) (sg_n cfg) (sg_groups cfg)
    (sg_clerks cfg) (sg_nextClientId cfg) (sg_maxraftstate cfg).
Definition set_sctrlers cs mck cfg : config :=
  mkSConfig (sg_net cfg) (sg_start cfg) (sg_nctrlers cfg) cs mck (sg_ngroups cfg) (sg_n cfg) (sg_groups cfg)
    (sg_clerks cfg) (sg_nextClientId cfg) (sg_maxraftstate cfg).
Definition set_sgroups gs cfg : config :=
  mkSConfig (sg_net cfg) (sg_start cfg) (sg_nctrlers cfg) (sg_ctrlerservers cfg) (sg_mck cfg) (sg_ngroups cfg) (sg_n cfg) gs
    (sg_clerks cfg) (sg_nextClientId cfg) (sg_maxraftstate cfg).
Definition set_sclerks cks next cfg : config :=
  mkSConfig (sg_net cfg) (sg_start cfg) (sg_nctrlers cfg) (sg_ctrlerservers cfg) (sg_mck cfg) (sg_ngroups cfg) (sg_n cfg)
    (sg_groups cfg) cks next (sg_maxraftstate cfg).

(** [cfg.groups[gi]], and what is written through that pointer. *)
Definition groupAt cfg (gi : Z) : option group := g ← idx (sg_groups cfg) gi; g.
Definition set_group gi gg cfg : option config := gs ← upd (sg_groups cfg) gi (Some gg); Some (set_sgroups gs cfg).

Definition ctrlername (i : Z) : string := "ctrler" +:+ pretty i.
Definition servername (gid i : Z) : string := "server-" +:+ pretty gid +:+ "-" +:+ pretty i.

(** An enabled end to a server: the body of the loops that make ends, and the
    [make_end] function the servers and the clerks get. *)
Definition makeEnd (name servername : string) (rn : Network string) : option (Network string) :=
  rn ← MakeEnd name rn; Some (Enable name true (Connect name servername rn)).

Definition ctrlerIds cfg : list Z := seqZ 0 (Z.of_nat (sg_nctrlers cfg)).
Definition serverIds cfg : list Z := seqZ 0 (Z.of_nat (sg_n cfg)).
Definition groupIds cfg : list Z := seqZ 0 (Z.of_nat (sg_ngroups cfg)).

(** Ends named [names], the [j]th one to [to j]. *)
Definition makeEnds (names : list string) (to : Z -> string) (ids : list Z) (rn : Network string) : option (Network string) :=
  loopM (fun j rn => e ← idx names j; makeEnd e (to j) rn) ids rn.

Definition checkTimeout (failed : bool) (now : Z) cfg : option config :=
  if negb failed && (now - sg_start cfg >? 120000) then None else Some cfg.

Definition savedNow gg (i : Z) : option (option Persister) :=
  s ← idx (g_saved gg) i;
  r ← idx (g_servers gg) i;
  Some (match s, r with Some _, Some kv => Some (persister (s_rf kv)) | _, _ => s end).

Definition checklogs (size : bytes -> Z) cfg : option config :=
  loopM (fun gi cfg =>
    loopM (fun i cfg =>
      gg ← groupAt cfg gi; s ← savedNow gg i; p ← s;
      let raft := RaftStateSize size p in
      let snap := size (ReadSnapshot p) in
      if (sg_maxraftstate cfg >=? 0) && (raft >? 8 * sg_maxraftstate cfg) then None
      else if (sg_maxraftstate cfg <? 0) && (snap >? 0) then None
      else Some cfg) (serverIds cfg) cfg) (groupIds cfg) cfg.

(** The array of the names has [cfg.n] cells, the loop [cfg.nctrlers] steps. *)
Definition makeClient (ck : nat) (randstring : Z -> string) cfg : option (ShardKV.Clerk * config) :=
  '(endnames, rn) ← loopM (fun j '(endnames, rn) =>
      endnames ← upd endnames j (randstring j);
      e ← idx endnames j;
      rn ← makeEnd e (ctrlername j) rn; Some (endnames, rn))
    (ctrlerIds cfg) (replicate (sg_n cfg) "", sg_net cfg);
  let ends := randstring <$> ctrlerIds cfg in
  Some (ShardKV.MakeClerk ends, set_sclerks (<[ck := endnames]> (sg_clerks cfg)) (sg_nextClientId cfg + 1) (set_snet rn cfg)).

Definition deleteClient (ck : nat) cfg : config := set_sclerks (delete ck (sg_clerks cfg)) (sg_nextClientId cfg) cfg.

Definition ShutdownServer (gi i : Z) cfg : option config :=
  gg ← groupAt cfg gi;
  rn ← loopM (fun j rn => row ← idx (g_endnames gg) i; e ← idx row j; Some (Enable e false rn))
         (seqZ 0 (len (g_servers gg))) (sg_net cfg);
  mrow ← idx (g_mendnames gg) i;
  rn ← loopM (fun j rn => e ← idx mrow j; Some (Enable e false rn)) (seqZ 0 (len mrow)) rn;
  let rn := DeleteServer (servername (g_gid gg) i) rn in
  s ← savedNow gg i;
  sv ← upd (g_saved gg) i (Copy <$> s);
  kv ← idx (g_servers gg) i;
  ss ← match kv with
       | Some _ => upd (g_servers gg) i None     (* kv.Kill() *)
       | None => Some (g_servers gg)
       end;
  set_group gi (mkGroup (g_gid gg) ss sv (g_endnames gg) (g_mendnames gg)) (set_snet rn cfg).

Definition ShutdownGroup (gi : Z) cfg : option config := loopM (fun i cfg => ShutdownServer gi i cfg) (serverIds cfg) cfg.

Definition cleanup (failed : bool) (now : Z) cfg : option config :=
  cfg ← loopM ShutdownGroup (groupIds cfg) cfg;
  cfg ← loopM (fun i cfg => c ← idx (sg_ctrlerservers cfg) i; sc ← c;
                 cs ← upd (sg_ctrlerservers cfg) i (Some (Ctrler.Kill sc)); Some (set_sctrlers cs (sg_mck cfg) cfg)) (ctrlerIds cfg) cfg;
  rn ← Cleanup (sg_net cfg);
  checkTimeout failed now (set_snet rn cfg).

(** [rs] and [rm] name the ends to the group and to the controllers, [srv] is
    the location of the server made for the two services. *)
Definition StartServer (gi i : Z) (rs rm : Z -> string) (srv : nat) (now : Z) cfg : option config :=
  gg ← groupAt cfg gi;
  let names := rs <$> serverIds cfg in
  en ← upd (g_endnames gg) i names;
  rn ← makeEnds names (servername (g_gid gg)) (serverIds cfg) (sg_net cfg);
  let mnames := rm <$> ctrlerIds cfg in
  men ← upd (g_mendnames gg) i mnames;
  rn ← makeEnds mnames ctrlername (ctrlerIds cfg) rn;
  s ← savedNow gg i;
  let p := match s with Some p => Copy p | None => MakePersister end in
  sv ← upd (g_saved gg) i (Some p);
  kv ← startShardKV names i p (sg_maxraftstate cfg) (g_gid gg) mnames now;
  ss ← upd (g_servers gg) i (Some kv);
  set_group gi (mkGroup (g_gid gg) ss sv en men) (set_snet (AddServer (servername (g_gid gg) i) srv rn) cfg).

Definition StartGroup (gi : Z) (rs rm : Z -> Z -> string) (srv : Z -> nat) (now : Z) cfg : option config :=
  loopM (fun i cfg => StartServer gi i (rs i) (rm i) (srv i) now cfg) (serverIds cfg) cfg.

Definition StartCtrlerserver (i : Z) (rs : Z -> string) (srv : nat) (now : Z) cfg : option config :=
  rn ← makeEnds (rs <$> ctrlerIds cfg) ctrlername (ctrlerIds cfg) (sg_net cfg);
  sc ← Ctrler.StartServer (sg_nctrlers cfg) i MakePersister now;
  cs ← upd (sg_ctrlerservers cfg) i (Some sc);
  Some (set_snet (AddServer (ctrlername i) srv rn) (set_sctrlers cs (sg_mck cfg) cfg)).

Definition shardclerk (rs : Z -> string) cfg : option (ShardCtrler.Clerk * config) :=
  let names := rs <$> ctrlerIds cfg in
  rn ← makeEnds names ctrlername (ctrlerIds cfg) (sg_net cfg);
  Some (ShardCtrler.MakeClerk names, set_snet rn cfg).

(** The argument of [mck.Join]. *)
Definition joinArgs (gis : list Z) cfg : option (gmap Z (list string)) :=
  loopM (fun g m => gg ← groupAt cfg g; Some (<[g_gid gg := servername (g_gid gg) <$> serverIds cfg]> m)) gis ∅.
Definition joinm (gis : list Z) (outcomes : list (option ShardCtrler.ChangeReply)) cfg
    : option (list (string * ShardCtrler.JoinArgs) * bool) :=
  m ← joinArgs gis cfg; mck ← sg_mck cfg; Some (ShardCtrler.Join m outcomes mck).
Definition join (gi : Z) := joinm [gi].

Definition leaveArgs (gis : list Z) cfg : option (list Z) :=
  loopM (fun g gids => gg ← groupAt cfg g; Some (gids ++ [g_gid gg])) gis [].
Definition leavem (gis : list Z) (outcomes : list (option ShardCtrler.ChangeReply)) cfg
    : option (list (string * ShardCtrler.LeaveArgs) * bool) :=
  gids ← leaveArgs gis cfg; mck ← sg_mck cfg; Some (ShardCtrler.Leave gids outcomes mck).
Definition leave (gi : Z) := leavem [gi].

(** The names of a configuration: by controller, of its own clerk, and by group
    and server. *)
Record naming : Type := mkNaming {
  nm_ctrler : Z -> Z -> string;
  nm_clerk : Z -> string;
  nm_server : Z -> Z -> Z -> string;
  nm_mserver : Z -> Z -> Z -> string;
}.

Definition newGroup (n nctrlers : nat) (gid : Z) : group :=
  mkGroup gid (replicate n None) (replicate n None) (replicate n []) (replicate nctrlers []).

Definition make_config (n : nat) (unreliable : bool) (maxraft : Z) (nm : naming) (now : Z) : option config :=
  let cfg := mkSConfig MakeNetwork now 3 (replicate 3 None) None 0 0 [] ∅ 0 maxraft in
  cfg ← loopM (fun i cfg => StartCtrlerserver i (nm_ctrler nm i) (Z.to_nat i) now cfg) (ctrlerIds cfg) cfg;
  '(mck, cfg) ← shardclerk (nm_clerk nm) cfg;
  let cfg := mkSConfig (sg_net cfg) (sg_start cfg) (sg_nctrlers cfg) (sg_ctrlerservers cfg) (Some mck) 3 n (replicate 3 None)
               (sg_clerks cfg) (sg_nextClientId cfg) maxraft in
  cfg ← loopM (fun gi cfg =>
           cfg ← set_group gi (newGroup n (sg_nctrlers cfg) (100 + gi)) cfg;
           StartGroup gi (nm_server nm gi) (nm_mserver nm gi) (fun i => Z.to_nat (3 + gi * Z.of_nat n + i)) now cfg) (groupIds cfg) cfg;
  let cfg := set_sclerks ∅ (Z.of_nat n + 1000) cfg in
  Some (set_snet (Reliable (negb unreliable) (sg_net cfg)) cfg).
