(* ===== verification/ShardConfigFacts.v ===== *)
(** * shardkv: the test configuration starts a wired system

    With names that differ, [make_config] of [shardkv/config.go] starts the
    controllers and the groups and connects every end to the server it is meant
    for, as long as a group has at most three servers; with four it panics. *)

From S2P Require Import Prelude GoFmt Gob RaftTypes RaftLog LabRpc ShardClerk.
From S2P Require Import CtrlerConfig ShardConfig.

#[local] Open Scope string_scope.
#[local] Open Scope list_scope.
#[local] Open Scope Z_scope.

(** ** Names of servers *)

Lemma ctrlername_inj i j : ctrlername i = ctrlername j -> i = j.
Proof. unfold ctrlername; intros H. simpl in H. simplify_eq. by apply (inj pretty). Qed.

Lemma servername_inj gid i gid' i' : 0 <= gid -> 0 <= gid' -> servername gid i = servername gid' i' -> gid = gid' /\ i = i'.
Proof.
  unfold servername; intros Hg Hg' H. simpl in H. simplify_eq. apply noChar_split in H as [H1 H2];
    [|by apply pretty_nonneg_noChar; [apply digit_neq|]..]. by split; apply (inj pretty).
Qed.

Lemma names_differ i gid j : ctrlername i <> servername gid j.
Proof. done. Qed.

(** ** Uses of an end *)

(** Who an end was made for: controller [i] to controller [j], the tester's
    clerk to controller [j], server [i] of group [g] to server [j] of the group
    and to controller [j]. *)
Inductive use : Type :=
| UCtrler (i j : Z) | UClerk (j : Z) | UServer (g i j : Z) | UMserver (g i j : Z).

Section wired.
Variable nm : naming.

Definition nameOf (u : use) : string :=
  match u with
  | UCtrler i j => nm_ctrler nm i j
  | UClerk j => nm_clerk nm j
  | UServer g i j => nm_server nm g i j
  | UMserver g i j => nm_mserver nm g i j
  end.

Definition target (u : use) : string :=
  match u with
  | UCtrler _ j | UClerk j | UMserver _ _ j => ctrlername j
  | UServer g _ j => servername (100 + g) j
  end.

Definition endState (rn : Network string) (e : string) : option (option string) * bool :=
  (connections rn !! e, isEnabled rn e).

(** The ends made so far are those of the uses in [D], each connected to the
    target of its use and enabled. *)
Definition wired (D : use -> Prop) (rn : Network string) : Prop :=
  (forall x, x ∈ ends rn <-> exists u, D u /\ x = nameOf u)
  /\ forall u, D u -> endState rn (nameOf u) = (Some (Some (target u)), true).

Lemma wired_ext (D D' : use -> Prop) rn : (forall u, D u <-> D' u) -> wired D rn -> wired D' rn.
Proof. intros H [H1 H2]; split; [intros x; rewrite H1; naive_solver|naive_solver]. Qed.

Lemma makeEnd_wired D u rn :
  wired D rn -> (forall v, D v -> nameOf v <> nameOf u) ->
  exists rn', makeEnd (nameOf u) (target u) rn = Some rn' /\ wired (fun v => D v \/ v = u) rn' /\ servers rn' = servers rn.
Proof.
  intros [H1 H2] Hne. unfold makeEnd, MakeEnd. rewrite decide_False by (rewrite H1; naive_solver). cbn [mbind option_bind].
  eexists; split; [reflexivity|]. split; [|done]. split.
  - intros x; simpl. rewrite elem_of_union, elem_of_singleton, H1. naive_solver.
  - intros v [Hv| ->]; unfold endState, isEnabled; simpl.
    + rewrite !lookup_insert_ne by (intros E; by apply (Hne v)). exact (H2 v Hv).
    + by rewrite !lookup_insert_eq.
Qed.

Lemma idx_fmap_seqZ {A} (f : Z -> A) (m : nat) j : 0 <= j < Z.of_nat m -> idx (f <$> seqZ 0 (Z.of_nat m)) j = Some (f j).
Proof.
  intros Hj. unfold idx; case_if; [|lia]. rewrite list_lookup_fmap, lookup_seqZ_lt by lia. simpl. do 2 f_equal; lia.
Qed.

(** A row of ends, the [j]th for the use [mk j]. *)
Lemma makeEnds_wired D (mk : Z -> use) (m : nat) rn :
  wired D rn -> (forall v j, D v -> 0 <= j < Z.of_nat m -> nameOf v <> nameOf (mk j)) ->
  (forall j k, 0 <= j < Z.of_nat m -> 0 <= k < Z.of_nat m -> nameOf (mk j) = nameOf (mk k) -> j = k) ->
  exists rn', makeEnds ((fun j => nameOf (mk j)) <$> seqZ 0 (Z.of_nat m)) (fun j => target (mk j)) (seqZ 0 (Z.of_nat m)) rn = Some rn'
    /\ wired (fun v => D v \/ exists j, 0 <= j < Z.of_nat m /\ v = mk j) rn' /\ servers rn' = servers rn.
Proof.
  intros Hw Hne Hinj. unfold makeEnds. set (names := (fun j => nameOf (mk j)) <$> seqZ 0 (Z.of_nat m)).
  assert (Hgen : forall k : nat, (k <= m)%nat -> exists rn', loopM (fun j rn => e ← idx names j; makeEnd e (target (mk j)) rn) (seqZ 0 (Z.of_nat k)) rn = Some rn'
    /\ wired (fun v => D v \/ exists j, 0 <= j < Z.of_nat k /\ v = mk j) rn' /\ servers rn' = servers rn); [|by apply Hgen].
  induction k as [|k IH]; intros Hk.
  { exists rn; split; [done|]. split; [|done]. eapply wired_ext; [|exact Hw]. intros u; split; [by left|intros [?|(? & ? & _)]; [done|lia]]. }
  destruct IH as (rn1 & HR & Hw1 & Hs1); [lia|].
  destruct (makeEnd_wired _ (mk (Z.of_nat k)) rn1 Hw1) as (rn2 & HR2 & Hw2 & Hs2).
  { intros v [Hv|(j & Hj & ->)] E; [by eapply (Hne v (Z.of_nat k)); [|lia|]|]. apply Hinj in E; lia. }
  exists rn2. replace (Z.of_nat (S k)) with (Z.of_nat k + 1) by lia. rewrite seqZ_app, loopM_app by lia. rewrite HR; cbn [mbind option_bind].
  rewrite Z.add_0_l. change (seqZ (Z.of_nat k) 1) with [Z.of_nat k]; cbn [loopM].
  unfold names; rewrite idx_fmap_seqZ by lia; cbn [mbind option_bind]. rewrite HR2; cbn [mbind option_bind]. split; [done|].
  split; [|congruence]. eapply wired_ext; [|exact Hw2]. intros v; simpl; split.
  - intros [[?|(j & ? & ->)]| ->]; [by left|right; exists j; split; [lia|done]|right; exists (Z.of_nat k); split; [lia|done]].
  - intros [?|(j & ? & ->)]; [by left; left|]. destruct (decide (j = Z.of_nat k)) as [->|]; [by right|left; right; exists j; split; [lia|done]].
Qed.

(** ** The controllers *)

Definition Dctrl (k : Z) (u : use) : Prop := match u with UCtrler i j => 0 <= i < k /\ 0 <= j < 3 | _ => False end.

(** The names a configuration with groups of [n] servers uses. *)
Definition used (n : nat) (u : use) : Prop :=
  match u with
  | UCtrler i j => 0 <= i < 3 /\ 0 <= j < 3
  | UClerk j => 0 <= j < 3
  | UServer g i j => 0 <= g < 3 /\ 0 <= i < Z.of_nat n /\ 0 <= j < Z.of_nat n
  | UMserver g i j => 0 <= g < 3 /\ 0 <= i < Z.of_nat n /\ 0 <= j < 3
  end.

Variables (n : nat) (unreliable : bool) (maxraft now : Z).
Definition distinctNames : Prop := forall u v, used n u -> used n v -> nameOf u = nameOf v -> u = v.
Hypothesis Hd : distinctNames.

(** A row for a group of uses that have not been made yet. *)
Lemma row_wired (D : use -> Prop) (mk : Z -> use) (m : nat) rn :
  (forall u, D u -> used n u) -> (forall j, 0 <= j < Z.of_nat m -> used n (mk j)) ->
  (forall j, 0 <= j < Z.of_nat m -> ~ D (mk j)) -> (forall j k, mk j = mk k -> j = k) -> wired D rn ->
  exists rn', makeEnds ((fun j => nameOf (mk j)) <$> seqZ 0 (Z.of_nat m)) (fun j => target (mk j)) (seqZ 0 (Z.of_nat m)) rn = Some rn'
    /\ wired (fun v => D v \/ exists j, 0 <= j < Z.of_nat m /\ v = mk j) rn' /\ servers rn' = servers rn.
Proof.
  intros HD Hmk Hnew Hinj Hw. apply makeEnds_wired; [done| |].
  - intros v j Hv Hj E. apply Hd in E; [|by apply HD|by apply Hmk]. subst v. by apply (Hnew j).
  - intros j k Hj Hk E. apply Hinj, Hd; [by apply Hmk|by apply Hmk|done].
Qed.

Lemma StartCtrlerserver_ok cfg i srv :
  sg_nctrlers cfg = 3%nat -> len (sg_ctrlerservers cfg) = 3 -> 0 <= i < 3 -> wired (Dctrl i) (sg_net cfg) ->
  exists rn', StartCtrlerserver i (nm_ctrler nm i) srv now cfg
      = Some (set_snet rn' (set_sctrlers (<[Z.to_nat i := Ctrler.StartServer 3 i MakePersister now]> (sg_ctrlerservers cfg)) (sg_mck cfg) cfg))
    /\ wired (Dctrl (i + 1)) rn' /\ servers rn' = <[ctrlername i := Some srv]> (servers (sg_net cfg)).
Proof.
  intros En Hlen Hi Hw. destruct (row_wired (Dctrl i) (UCtrler i) 3 (sg_net cfg)) as (rn & HR & Hw' & Hs).
  - intros []; simpl; lia || done. - simpl; lia. - simpl; lia. - congruence. - done.
  - exists (AddServer (ctrlername i) srv rn). unfold StartCtrlerserver, ctrlerIds. rewrite En.
    change (makeEnds (nm_ctrler nm i <$> seqZ 0 (Z.of_nat 3)) ctrlername (seqZ 0 (Z.of_nat 3)) (sg_net cfg) = Some rn) in HR.
    rewrite HR; cbn [mbind option_bind]. destruct (Ctrler.StartServer 3 i MakePersister now) as [sc|] eqn:Esc; [|done]. cbn [mbind option_bind].
    rewrite upd_ok by lia; cbn [mbind option_bind]. split; [done|]. simpl; rewrite Hs. split; [|done].
    change (wired (Dctrl (i + 1)) rn). eapply wired_ext; [|exact Hw']. intros u; split.
    + intros [?|(j & ? & ->)]; [destruct u; simpl in *; try done; lia|simpl; lia].
    + destruct u as [x j| | |]; simpl; try done. intros [? ?]. destruct (decide (x = i)) as [->|]; [right; eauto|left; lia].
Qed.

(** What the configuration holds once the controllers [0..k-1] run. *)
Record ctrlersUp (k : Z) cfg : Prop := {
  cu_n : sg_nctrlers cfg = 3%nat;
  cu_len : len (sg_ctrlerservers cfg) = 3;
  cu_max : sg_maxraftstate cfg = maxraft;
  cu_run : forall i, 0 <= i < k -> idx (sg_ctrlerservers cfg) i = Some (Ctrler.StartServer 3 i MakePersister now)
                     /\ serverOf (sg_net cfg) (ctrlername i) = Some (Z.to_nat i);
}.

Lemma serverOf_insert (rn rn' : Network string) e srv x :
  servers rn' = <[e := Some srv]> (servers rn) -> serverOf rn' x = if decide (e = x) then Some srv else serverOf rn x.
Proof. intros E; unfold serverOf; rewrite E. case_decide as Hc; [by rewrite Hc, lookup_insert_eq|by rewrite lookup_insert_ne]. Qed.

Lemma ctrlers_step cfg i :
  0 <= i < 3 -> ctrlersUp i cfg -> wired (Dctrl i) (sg_net cfg) ->
  exists cfg', StartCtrlerserver i (nm_ctrler nm i) (Z.to_nat i) now cfg = Some cfg'
    /\ ctrlersUp (i + 1) cfg' /\ wired (Dctrl (i + 1)) (sg_net cfg').
Proof.
  intros Hi [En Hlen Em Hrun] Hw. destruct (StartCtrlerserver_ok cfg i (Z.to_nat i) En Hlen Hi Hw) as (rn & HR & Hw' & Hs).
  eexists; split; [exact HR|]. split; [|done]. pose proof (upd_ok (sg_ctrlerservers cfg) i (Ctrler.StartServer 3 i MakePersister now) ltac:(lia)) as Hu.
  split; simpl; try done.
  - unfold len in *; by rewrite length_insert.
  - intros x Hx. rewrite (serverOf_insert _ _ _ _ _ Hs). destruct (decide (x = i)) as [->|Hne].
    + rewrite decide_True by done. split; [by eapply idx_upd_eq|done].
    + rewrite decide_False by (intros E%ctrlername_inj; done). rewrite (idx_upd_ne _ _ _ _ _ Hu) by done. apply Hrun; lia.
Qed.

Lemma ctrlers_all cfg :
  ctrlersUp 0 cfg -> wired (Dctrl 0) (sg_net cfg) ->
  exists cfg', loopM (fun i cfg => StartCtrlerserver i (nm_ctrler nm i) (Z.to_nat i) now cfg) (ctrlerIds cfg) cfg = Some cfg'
    /\ ctrlersUp 3 cfg' /\ wired (Dctrl 3) (sg_net cfg').
Proof.
  intros H0 Hw0. unfold ctrlerIds. rewrite (cu_n _ _ H0). change (seqZ 0 (Z.of_nat 3)) with [0; 1; 2]. cbn [loopM].
  destruct (ctrlers_step cfg 0) as (c1 & -> & H1 & Hw1); [lia|done|done|]; cbn [mbind option_bind].
  destruct (ctrlers_step c1 1) as (c2 & -> & H2 & Hw2); [lia|done|done|]; cbn [mbind option_bind].
  destruct (ctrlers_step c2 2) as (c3 & -> & H3 & Hw3); [lia|done|done|]. exists c3; done.
Qed.

(** ** A group *)

(** The server [i] of group [g], as [StartServer] makes it on an empty persister. *)
Definition freshServer (g i : Z) : option ShardKV :=
  startShardKV (nm_server nm g i <$> seqZ 0 (Z.of_nat n)) i MakePersister maxraft (100 + g)
    (nm_mserver nm g i <$> seqZ 0 (Z.of_nat 3)) now.

(** A group whose servers [0..k-1] run. *)
Record groupUp (g k : Z) (gg : group) : Prop := {
  gu_gid : g_gid gg = 100 + g;
  gu_servers : len (g_servers gg) = Z.of_nat n;
  gu_saved : len (g_saved gg) = Z.of_nat n;
  gu_ends : len (g_endnames gg) = Z.of_nat n;
  gu_mends : len (g_mendnames gg) = 3;
  gu_run : forall i, 0 <= i < k -> idx (g_servers gg) i = Some (freshServer g i);
  gu_rest : forall i, k <= i < Z.of_nat n -> idx (g_servers gg) i = Some None /\ idx (g_saved gg) i = Some None;
}.

(** The uses of the servers [0..k-1] of group [g]. *)
Definition Dserver (g k : Z) (u : use) : Prop :=
  match u with
  | UServer g' i j => g' = g /\ 0 <= i < k /\ 0 <= j < Z.of_nat n
  | UMserver g' i j => g' = g /\ 0 <= i < k /\ 0 <= j < 3
  | _ => False
  end.

Lemma Dserver_step (D : use -> Prop) g i u :
  0 <= i ->
  (D u \/ Dserver g i u) \/ (exists j, (0 <= j < Z.of_nat n /\ u = UServer g i j) \/ (0 <= j < 3 /\ u = UMserver g i j))
  <-> D u \/ Dserver g (i + 1) u.
Proof.
  intros Hi. split.
  - intros [[?|Hu]|(j & [[? ->]|[? ->]])]; [by left|right; destruct u; simpl in *; lia|right; simpl; lia..].
  - intros [?|Hu]; [by left; left|]. destruct u as [| |x y j|x y j]; simpl in Hu; try done; destruct Hu as (-> & ? & ?).
    all: destruct (decide (y = i)) as [->|]; [right; exists j|left; right; simpl; lia]; auto.
Qed.

Lemma shardStart_ok (D : use -> Prop) cfg g i gg srv :
  sg_nctrlers cfg = 3%nat -> sg_n cfg = n -> (n <= 3)%nat -> sg_maxraftstate cfg = maxraft ->
  groupAt cfg g = Some gg -> groupUp g i gg -> 0 <= g < 3 -> 0 <= i < Z.of_nat n ->
  wired D (sg_net cfg) -> (forall u, D u -> used n u) ->
  (forall j, ~ D (UServer g i j)) -> (forall j, ~ D (UMserver g i j)) ->
  exists rn' gg', StartServer g i (nm_server nm g i) (nm_mserver nm g i) srv now cfg
      = Some (set_snet rn' (set_sgroups (<[Z.to_nat g := Some gg']> (sg_groups cfg)) cfg))
    /\ groupUp g (i + 1) gg' /\ wired (fun u => D u \/ exists j, (0 <= j < Z.of_nat n /\ u = UServer g i j) \/ (0 <= j < 3 /\ u = UMserver g i j)) rn'
    /\ servers rn' = <[servername (100 + g) i := Some srv]> (servers (sg_net cfg)).
Proof.
  intros Ec En Hn3 Em Hgg [Egid Es Ep Ee Eme Hrun Hrest] Hg Hi Hw HD Hf1 Hf2.
  destruct (row_wired D (UServer g i) n (sg_net cfg)) as (rn1 & HR1 & Hw1 & Hs1); [done|simpl; lia|intros j _; apply Hf1|congruence|done|].
  destruct (row_wired (fun v => D v \/ exists j, 0 <= j < Z.of_nat n /\ v = UServer g i j) (UMserver g i) 3 rn1) as (rn2 & HR2 & Hw2 & Hs2).
  { intros u [?|(j & ? & ->)]; [by apply HD|simpl; lia]. } { simpl; lia. }
  { intros j _ [?|(? & _ & ?)]; [by eapply Hf2|done]. } { congruence. } { done. }
  destruct (Hrest i) as [Hsi Hpi]; [lia|]. assert (Hgi : 0 <= g < len (sg_groups cfg)).
  { unfold groupAt in Hgg; destruct (idx (sg_groups cfg) g) eqn:E; [by eapply idx_Some_range|done]. }
  unfold StartServer. rewrite Hgg; cbn [mbind option_bind]. unfold serverIds, ctrlerIds; rewrite Ec, En, Egid.
  rewrite upd_ok by lia; cbn [mbind option_bind].
  change (makeEnds (nm_server nm g i <$> seqZ 0 (Z.of_nat n)) (servername (100 + g)) (seqZ 0 (Z.of_nat n)) (sg_net cfg) = Some rn1) in HR1.
  change (makeEnds (nm_mserver nm g i <$> seqZ 0 (Z.of_nat 3)) ctrlername (seqZ 0 (Z.of_nat 3)) rn1 = Some rn2) in HR2.
  rewrite HR1; cbn [mbind option_bind]. rewrite upd_ok by lia; cbn [mbind option_bind]. rewrite HR2; cbn [mbind option_bind].
  unfold savedNow; rewrite Hpi, Hsi; cbn [mbind option_bind]. rewrite upd_ok by lia; cbn [mbind option_bind]. rewrite Em.
  fold (freshServer g i). destruct (freshServer g i) as [kv|] eqn:Ekv; [|done]; cbn [mbind option_bind].
  rewrite upd_ok by lia; cbn [mbind option_bind]. unfold set_group; simpl. rewrite upd_ok by lia; cbn [mbind option_bind].
  eexists _, _; split; [reflexivity|]. split; [|split; [|simpl; congruence]].
  - pose proof (upd_ok (g_servers gg) i (Some kv) ltac:(lia)) as Hu1. pose proof (upd_ok (g_saved gg) i (Some MakePersister) ltac:(lia)) as Hu2.
    split; simpl; try done; try (unfold len in *; by rewrite length_insert).
    + intros x Hx. destruct (decide (x = i)) as [->|]; [rewrite Ekv; by eapply idx_upd_eq|]. rewrite (idx_upd_ne _ _ _ _ _ Hu1) by done. apply Hrun; lia.
    + intros x Hx. rewrite (idx_upd_ne _ _ _ _ _ Hu1), (idx_upd_ne _ _ _ _ _ Hu2) by lia. apply Hrest; lia.
  - eapply wired_ext; [|exact Hw2]. intros u; simpl. naive_solver.
Qed.

Lemma StartGroup_ok (D : use -> Prop) cfg g gg (srv : Z -> nat) :
  sg_nctrlers cfg = 3%nat -> sg_n cfg = n -> (n <= 3)%nat -> sg_maxraftstate cfg = maxraft ->
  groupAt cfg g = Some gg -> groupUp g 0 gg -> 0 <= g < 3 ->
  wired D (sg_net cfg) -> (forall u, D u -> used n u) ->
  (forall i j, ~ D (UServer g i j)) -> (forall i j, ~ D (UMserver g i j)) ->
  exists rn' gg', StartGroup g (nm_server nm g) (nm_mserver nm g) srv now cfg
      = Some (set_snet rn' (set_sgroups (<[Z.to_nat g := Some gg']> (sg_groups cfg)) cfg))
    /\ groupUp g (Z.of_nat n) gg' /\ wired (fun u => D u \/ Dserver g (Z.of_nat n) u) rn'
    /\ (forall i, 0 <= i < Z.of_nat n -> serverOf rn' (servername (100 + g) i) = Some (srv i))
    /\ forall x, (forall i, x <> servername (100 + g) i) -> serverOf rn' x = serverOf (sg_net cfg) x.
Proof.
  intros Ec En Hn3 Em Hgg Hup Hg Hw HD Hf1 Hf2. unfold StartGroup, serverIds; rewrite En.
  assert (Hgi : 0 <= g < len (sg_groups cfg)).
  { unfold groupAt in Hgg; destruct (idx (sg_groups cfg) g) eqn:E; [by eapply idx_Some_range|done]. }
  enough (Hgen : forall k : nat, (k <= n)%nat -> exists rn' gg',
    loopM (fun i cfg => StartServer g i (nm_server nm g i) (nm_mserver nm g i) (srv i) now cfg) (seqZ 0 (Z.of_nat k)) cfg
      = Some (set_snet rn' (set_sgroups (<[Z.to_nat g := Some gg']> (sg_groups cfg)) cfg))
    /\ groupUp g (Z.of_nat k) gg' /\ wired (fun u => D u \/ Dserver g (Z.of_nat k) u) rn'
    /\ (forall i, 0 <= i < Z.of_nat k -> serverOf rn' (servername (100 + g) i) = Some (srv i))
    /\ forall x, (forall i, x <> servername (100 + g) i) -> serverOf rn' x = serverOf (sg_net cfg) x) by (by apply Hgen).
  induction k as [|k IH]; intros Hk.
  - exists (sg_net cfg), gg. split; [|split_and!; try done].
    + unfold groupAt, idx in Hgg. case_if_in Hgg; [|done]. destruct (sg_groups cfg !! Z.to_nat g) as [o|] eqn:Eo; [|done].
      cbn [mbind option_bind] in Hgg; subst o. rewrite list_insert_id by done. by destruct cfg.
    + eapply wired_ext; [|exact Hw]. intros u; split; [by left|intros [?|Hu]; [done|]]. destruct u; simpl in Hu; try done; lia.
    + intros i Hi; lia.
  - destruct IH as (rn1 & gg1 & HR1 & Hup1 & Hw1 & Hsv1 & Hso1); [lia|].
    destruct (shardStart_ok (fun u => D u \/ Dserver g (Z.of_nat k) u) (set_snet rn1 (set_sgroups (<[Z.to_nat g := Some gg1]> (sg_groups cfg)) cfg))
      g (Z.of_nat k) gg1 (srv (Z.of_nat k))) as (rn2 & gg2 & HR2 & Hup2 & Hw2 & Hs2); try done.
    + unfold groupAt; simpl. erewrite idx_upd_eq by (by apply upd_ok). done.
    + lia.
    + intros u [?|Hu]; [by apply HD|]. destruct u; simpl in *; try done; lia.
    + intros j [?|?]; [by eapply Hf1|simpl in *; lia].
    + intros j [?|?]; [by eapply Hf2|simpl in *; lia].
    + exists rn2, gg2. replace (Z.of_nat (S k)) with (Z.of_nat k + 1) by lia. rewrite seqZ_app, loopM_app by lia. rewrite HR1; cbn [mbind option_bind].
      rewrite Z.add_0_l. change (seqZ (Z.of_nat k) 1) with [Z.of_nat k]; cbn [loopM]. rewrite HR2; cbn [mbind option_bind].
      simpl in Hs2. split; [|split_and!; try done].
      * simpl. by rewrite list_insert_insert_eq.
      * eapply wired_ext; [|exact Hw2]. intros u; apply Dserver_step; lia.
      * intros i Hi. rewrite (serverOf_insert _ _ _ _ _ Hs2). case_decide as Hc.
        { apply servername_inj in Hc as [_ <-]; [done|lia|lia]. }
        simpl. apply Hsv1. destruct (decide (i = Z.of_nat k)) as [->|]; [done|lia].
      * intros x Hx. rewrite (serverOf_insert _ _ _ _ _ Hs2). rewrite decide_False by (intros <-; by eapply Hx). simpl. by apply Hso1.
Qed.

(** ** The configuration *)

Definition Dgroups (g : Z) (u : use) : Prop :=
  match u with
  | UCtrler i j => 0 <= i < 3 /\ 0 <= j < 3
  | UClerk j => 0 <= j < 3
  | UServer g' i j => 0 <= g' < g /\ 0 <= i < Z.of_nat n /\ 0 <= j < Z.of_nat n
  | UMserver g' i j => 0 <= g' < g /\ 0 <= i < Z.of_nat n /\ 0 <= j < 3
  end.

Definition serverLoc (g i : Z) : nat := Z.to_nat (3 + g * Z.of_nat n + i).

(** What the configuration holds once the groups [0..k-1] run. *)
Record groupsUp (k : Z) cfg : Prop := {
  gsu_ctrlers : ctrlersUp 3 cfg;
  gsu_mck : sg_mck cfg = Some (ShardCtrler.MakeClerk (nm_clerk nm <$> seqZ 0 3));
  gsu_n : sg_n cfg = n;
  gsu_len : len (sg_groups cfg) = 3;
  gsu_run : forall g, 0 <= g < k -> (exists gg, groupAt cfg g = Some gg /\ groupUp g (Z.of_nat n) gg)
    /\ forall i, 0 <= i < Z.of_nat n -> serverOf (sg_net cfg) (servername (100 + g) i) = Some (serverLoc g i);
  gsu_wired : wired (Dgroups k) (sg_net cfg);
}.

Lemma newGroup_up g : groupUp g 0 (newGroup n 3 (100 + g)).
Proof.
  split; simpl; try done; try (unfold len; by rewrite length_replicate); [lia|].
  intros i Hi. unfold idx; case_if; [|lia]. by rewrite !lookup_replicate_2 by lia.
Qed.

Lemma groups_step cfg g :
  (n <= 3)%nat -> 0 <= g < 3 -> groupsUp g cfg ->
  exists cfg', (cfg ← set_group g (newGroup n (sg_nctrlers cfg) (100 + g)) cfg;
      StartGroup g (nm_server nm g) (nm_mserver nm g) (fun i => Z.to_nat (3 + g * Z.of_nat n + i)) now cfg) = Some cfg'
    /\ groupsUp (g + 1) cfg'.
Proof.
  intros Hn3 Hg [[En3 Hlc Em Hrun] Emck En Hlen Hgr Hw]. rewrite En3.
  pose proof (upd_ok (sg_groups cfg) g (Some (newGroup n 3 (100 + g))) ltac:(lia)) as Hu1.
  unfold set_group; rewrite Hu1; cbn [mbind option_bind].
  set (cfg1 := set_sgroups (<[Z.to_nat g := Some (newGroup n 3 (100 + g))]> (sg_groups cfg)) cfg).
  destruct (StartGroup_ok (Dgroups g) cfg1 g (newGroup n 3 (100 + g)) (serverLoc g)) as (rn' & gg' & HR & Hup & Hw' & Hsv & Hso); try done.
  { unfold groupAt; simpl. by rewrite (idx_upd_eq _ _ _ _ Hu1). } { apply newGroup_up. }
  { intros []; simpl; lia. } { simpl; lia. } { simpl; lia. }
  eexists; split; [exact HR|]. simpl. rewrite list_insert_insert_eq.
  pose proof (upd_ok (sg_groups cfg) g (Some gg') ltac:(lia)) as Hu2. split; simpl; try done.
  - split; simpl; try done. intros i Hi. destruct (Hrun i Hi) as [? Hs]. split; [done|]. rewrite Hso by done. exact Hs.
  - unfold len in *; by rewrite length_insert.
  - intros g' Hg'. destruct (decide (g' = g)) as [->|Hne].
    + split; [|exact Hsv]. exists gg'. split; [|done]. unfold groupAt; simpl. by rewrite (idx_upd_eq _ _ _ _ Hu2).
    + destruct (Hgr g') as [(gg & Hgg & ?) Hs]; [lia|]. split.
      * exists gg. split; [|done]. unfold groupAt in *; simpl. by rewrite (idx_upd_ne _ _ _ _ _ Hu2).
      * intros i Hi. rewrite Hso; [by apply Hs|]. intros x [E _]%servername_inj; lia.
  - eapply wired_ext; [|exact Hw']. intros []; simpl; try lia.
    all: split; [intros [?|?]; lia|]. all: intros (Hx & ? & ?); destruct (decide (g0 = g)) as [->|]; [right; lia|left; lia].
Qed.

Lemma groups_all cfg :
  (n <= 3)%nat -> sg_ngroups cfg = 3%nat -> groupsUp 0 cfg ->
  exists cfg', loopM (fun gi cfg =>
      cfg ← set_group gi (newGroup n (sg_nctrlers cfg) (100 + gi)) cfg;
      StartGroup gi (nm_server nm gi) (nm_mserver nm gi) (fun i => Z.to_nat (3 + gi * Z.of_nat n + i)) now cfg) (groupIds cfg) cfg = Some cfg'
    /\ groupsUp 3 cfg'.
Proof.
  intros Hn3 Eng H0. unfold groupIds; rewrite Eng. change (seqZ 0 (Z.of_nat 3)) with [0; 1; 2]. cbn [loopM].
  destruct (groups_step cfg 0 Hn3) as (c1 & -> & H1); [lia|done|]; cbn [mbind option_bind].
  destruct (groups_step c1 1 Hn3) as (c2 & -> & H2); [lia|done|]; cbn [mbind option_bind].
  destruct (groups_step c2 2 Hn3) as (c3 & -> & H3); [lia|done|]. exists c3; done.
Qed.

Lemma make_config_groups :
  (n <= 3)%nat -> exists cfg, make_config n unreliable maxraft nm now = Some cfg /\ groupsUp 3 cfg
    /\ reliable (sg_net cfg) = negb unreliable.
Proof.
  intros Hn3. unfold make_config. set (cfg0 := mkSConfig MakeNetwork now 3 (replicate 3 None) None 0 0 [] ∅ 0 maxraft).
  destruct (ctrlers_all cfg0) as (c1 & -> & [En Hlen Em Hrun] & Hw1).
  { split; try done. intros; lia. }
  { split; [|intros []; simpl; lia]. intros x; split; [by intros ?%elem_of_empty|]. intros ([] & ? & _); simpl in *; lia. }
  cbn [mbind option_bind]. unfold shardclerk, ctrlerIds; rewrite En.
  destruct (row_wired (Dctrl 3) UClerk 3 (sg_net c1)) as (rn & HR & Hw & Hs).
  { intros []; simpl; lia. } { simpl; lia. } { simpl; lia. } { congruence. } { done. }
  change (makeEnds (nm_clerk nm <$> seqZ 0 (Z.of_nat 3)) ctrlername (seqZ 0 (Z.of_nat 3)) (sg_net c1) = Some rn) in HR.
  rewrite HR; cbn [mbind option_bind]; cbv beta iota zeta.
  match goal with |- context [loopM _ _ ?c] => destruct (groups_all c Hn3) as (cfg & -> & Hup) end; [done| |].
  { split; simpl; try done.
    - split; simpl; try done. intros i Hi. destruct (Hrun i Hi) as [? E]. split; [done|]. unfold serverOf in *; simpl; by rewrite Hs.
    - intros; lia.
    - eapply wired_ext; [|exact Hw]. intros []; simpl; naive_solver lia. }
  cbn [mbind option_bind]. eexists; split; [reflexivity|]. split; [|done].
  destruct Hup as [[? ? ? Hr] ? ? ? Hg Hwd]. split; try done.
Qed.
End wired.

(** What a test of the sharded store starts from. With names that differ and
    at most three servers per group, [make_config] returns a configuration in
    which the three controllers and every server of the three groups run on
    empty persisters and are registered with the network under their names, and
    every end made (controllers to controllers, servers to their group and to
    the controllers, the tester's clerk to the controllers) is enabled and
    connected to the server it was made for. *)
Theorem make_config_wires (nm : naming) (n : nat) unreliable maxraft now (Hn : (n <= 3)%nat) (Hd : distinctNames nm n) :
  exists cfg, make_config n unreliable maxraft nm now = Some cfg
    /\ (forall i, 0 <= i < 3 -> serverOf (sg_net cfg) (ctrlername i) = Some (Z.to_nat i)
        /\ exists sc, Ctrler.StartServer 3 i MakePersister now = Some sc /\ idx (sg_ctrlerservers cfg) i = Some (Some sc))
    /\ (forall g i, 0 <= g < 3 -> 0 <= i < Z.of_nat n -> serverOf (sg_net cfg) (servername (100 + g) i) = Some (serverLoc n g i)
        /\ exists gg kv, groupAt cfg g = Some gg /\ g_gid gg = 100 + g
             /\ freshServer nm n maxraft now g i = Some kv /\ idx (g_servers gg) i = Some (Some kv))
    /\ (forall u, used n u -> endState (sg_net cfg) (nameOf nm u) = (Some (Some (target u)), true))
    /\ reliable (sg_net cfg) = negb unreliable.
Proof.
  destruct (make_config_groups nm n unreliable maxraft now Hd Hn) as (cfg & HR & [[_ _ _ Hc] _ _ _ Hg [_ Hw]] & Hrel).
  exists cfg; split_and!; try done.
  - intros i Hi. destruct (Hc i Hi) as [E Hs]. split; [done|]. rewrite E. eauto.
  - intros g i Hgr Hi. destruct (Hg g Hgr) as [(gg & Hgg & Hup) Hs]. split; [by apply Hs|].
    exists gg. rewrite (gu_run _ _ _ _ _ _ _ Hup i Hi). destruct (freshServer nm n maxraft now g i) as [kv|] eqn:E; [|done].
    exists kv; split_and!; try done. by apply (gu_gid _ _ _ _ _ _ _ Hup).
Qed.

(** Names that differ, for up to nine servers. *)
Definition ex_naming : naming :=
  mkNaming (fun i j => pretty (10 * i + j)) (fun j => pretty (100 + j))
    (fun g i j => pretty (1000 + 100 * g + 10 * i + j)) (fun g i j => pretty (2000 + 100 * g + 10 * i + j)).

Lemma ex_naming_distinct : distinctNames ex_naming 3.
Proof.
  intros [i j|j|g i j|g i j] [i' j'|j'|g' i' j'|g' i' j']; cbn [used nameOf ex_naming nm_ctrler nm_clerk nm_server nm_mserver];
    intros Hu Hv E; apply (inj pretty) in E; first [lia|f_equal; lia].
Qed.

Lemma make_config_wires_witness :
  distinctNames ex_naming 3 /\ exists cfg, make_config 3 false (-1) ex_naming 0 = Some cfg
    /\ endState (sg_net cfg) (nm_server ex_naming 1 0 2) = (Some (Some "server-101-2"), true).
Proof.
  split; [exact ex_naming_distinct|].
  destruct (make_config_wires ex_naming 3 false (-1) 0 (le_n 3) ex_naming_distinct) as (cfg & HR & _ & _ & Hu & _).
  exists cfg; split; [exact HR|]. etrans; [apply (Hu (UServer 1 0 2)); simpl; lia|reflexivity].
Defined.

(** [mendnames] has a row per controller where the code needs one per server:
    with four servers in a group [make_config] panics. *)
Lemma make_config_four : make_config 4 false (-1) ex_naming 0 = None.
Proof. vm_compute. reflexivity. Qed.

(** And [endnames] of [makeClient] has a cell per server where the code needs
    one per controller: with two servers in a group it panics. *)
Lemma makeClient_two :
  (cfg ← make_config 2 false (-1) ex_naming 0; Some (bool_decide (makeClient 0 (fun j => pretty (5000 + j)) cfg = None))) = Some true.
Proof. vm_compute. reflexivity. Qed.

(** ** Joining *)

Lemma joinArgs_spec (n : nat) cfg gis :
  sg_n cfg = n -> (forall g, g ∈ gis -> exists gg, groupAt cfg g = Some gg /\ g_gid gg = 100 + g) ->
  exists m, joinArgs gis cfg = Some m
    /\ forall gid, m !! gid = if decide (gid - 100 ∈ gis) then Some (servername gid <$> seqZ 0 (Z.of_nat n)) else None.
Proof.
  intros En Hg. unfold joinArgs, serverIds; rewrite En.
  enough (Hgen : forall m0 : gmap Z (list string), exists m, loopM (fun g m => gg ← groupAt cfg g;
      Some (<[g_gid gg := servername (g_gid gg) <$> seqZ 0 (Z.of_nat n)]> m)) gis m0 = Some m
    /\ forall gid, m !! gid = if decide (gid - 100 ∈ gis) then Some (servername gid <$> seqZ 0 (Z.of_nat n)) else m0 !! gid)
    by (destruct (Hgen ∅) as (m & ? & Hm); exists m; split; [done|]; intros gid; by rewrite Hm, lookup_empty).
  induction gis as [|g gis IH]; intros m0; cbn [loopM].
  { exists m0; split; [done|]. intros gid. by rewrite decide_False by apply not_elem_of_nil. }
  destruct (Hg g) as (gg & -> & Egid); [by left|]; cbn [mbind option_bind]. rewrite Egid.
  destruct IH with (m0 := <[100 + g := servername (100 + g) <$> seqZ 0 (Z.of_nat n)]> m0) as (m & HR & Hm); [intros; apply Hg; by right|].
  exists m; split; [exact HR|]. intros gid. rewrite Hm. destruct (decide (gid - 100 ∈ gis)) as [Hin|Hout].
  - by rewrite decide_True by (by right).
  - destruct (decide (gid = 100 + g)) as [->|Hne].
    + rewrite lookup_insert_eq, decide_True; [done|]. replace (100 + g - 100) with g by lia. by left.
    + rewrite lookup_insert_ne by done. rewrite decide_False; [done|]. intros [E|?]%elem_of_cons; [lia|done].
Qed.

(** An end made for a server the network knows leads to that server. *)
Lemma makeEnd_reaches e srv loc (rn : Network string) :
  e ∉ ends rn -> serverOf rn srv = Some loc ->
  exists rn', makeEnd e srv rn = Some rn' /\ (readEndnameInfo e rn').1.1 = (true, Some srv, Some loc).
Proof.
  intros He Hs. unfold makeEnd, MakeEnd. rewrite decide_False by done. cbn [mbind option_bind]. eexists; split; [reflexivity|].
  unfold readEndnameInfo, isEnabled; simpl. rewrite !lookup_insert_eq; simpl. by rewrite <- Hs.
Qed.

(** Joining. In a configuration that has just been started, [joinm] of some
    of its groups asks the controllers to add exactly those groups, under their
    identifiers, each with the names of its servers in order; and an end that a
    server or a clerk then makes from one of these names (under a name not in
    use) is enabled and leads to the server of that group and index. *)
Theorem joinm_names_servers (nm : naming) (n : nat) unreliable maxraft now gis outcomes
    (Hn : (n <= 3)%nat) (Hd : distinctNames nm n) (Hg : forall g, g ∈ gis -> 0 <= g < 3) :
  exists cfg mck m, make_config n unreliable maxraft nm now = Some cfg
    /\ joinm gis outcomes cfg = Some (ShardCtrler.Join m outcomes mck)
    /\ (forall gid, m !! gid = if decide (gid - 100 ∈ gis) then Some (servername gid <$> seqZ 0 (Z.of_nat n)) else None)
    /\ forall g i e, g ∈ gis -> 0 <= i < Z.of_nat n -> e ∉ ends (sg_net cfg) ->
         exists rn', makeEnd e (servername (100 + g) i) (sg_net cfg) = Some rn'
           /\ (readEndnameInfo e rn').1.1 = (true, Some (servername (100 + g) i), Some (serverLoc n g i)).
Proof.
  destruct (make_config_groups nm n unreliable maxraft now Hd Hn) as (cfg & HR & [_ Emck En _ Hrun _] & _).
  destruct (joinArgs_spec n cfg gis En) as (m & Hj & Hm).
  { intros g Hin. destruct (Hrun g (Hg g Hin)) as [(gg & Hgg & Hup) _]. exists gg; split; [done|]. by apply (gu_gid _ _ _ _ _ _ _ Hup). }
  exists cfg, (ShardCtrler.MakeClerk (nm_clerk nm <$> seqZ 0 3)), m. split_and!; try done.
  - unfold joinm. rewrite Hj; cbn [mbind option_bind]. by rewrite Emck.
  - intros g i e Hin Hi He. apply makeEnd_reaches; [done|]. by apply (Hrun g (Hg g Hin)).
Qed.

Lemma joinm_names_servers_witness :
  exists cfg mck m, make_config 3 false (-1) ex_naming 0 = Some cfg
    /\ joinm [0; 2] [Some (ShardCtrler.mkChangeReply false "OK")] cfg
       = Some (ShardCtrler.Join m [Some (ShardCtrler.mkChangeReply false "OK")] mck)
    /\ m !! 102 = Some ["server-102-0"; "server-102-1"; "server-102-2"].
Proof.
  destruct (joinm_names_servers ex_naming 3 false (-1) 0 [0; 2] [Some (ShardCtrler.mkChangeReply false "OK")] (le_n 3) ex_naming_distinct)
    as (cfg & mck & m & H1 & H2 & H3 & _).
  - intros g Hg. repeat (apply elem_of_cons in Hg as [->|Hg]; [lia|]). by apply not_elem_of_nil in Hg.
  - exists cfg, mck, m. split; [exact H1|]. split; [exact H2|]. etrans; [apply H3|reflexivity].
Defined.
